(* ===== verification/_CoqProject ===== *)
-Q . S2P
Prelude.v
Crypto.v
Encryption.v
Threads.v
Circuit.v
Cooldown.v
CircuitEvents.v
Breaker.v
BreakerGate.v
BreakerPhases.v
BreakerQuota.v
BreakerStatus.v
BreakerSystem.v
LoginThrottle.v
AuthWorld.v
TotpStore.v
SecondFactor.v
SecondFactorSystem.v
SessionStore.v
Sessions.v
AuthCookie.v
AdminAuth.v
AdminLogin.v
UserAuth.v
SessionHandlers.v
AuthSystem.v
AuthRequests.v
AuthServing.v
GoneStreak.v
Errors.v
Verdict.v
Inflight.v
AttemptTrail.v
Outcome.v
StreamEnd.v
Attempt.v
FailoverWalk.v
HedgeProbe.v
Hedge.v
HedgeLedger.v
HedgeSlots.v
HedgeAnswer.v
Resolve.v
Double.v
Throttle.v
TokenBucket.v
RateLimit.v
RateSystem.v
TokenBudget.v
Calendar.v
Budget.v
BudgetSystem.v
GoText.v
GoJson.v
QuotaReading.v
QuotaShape.v
QuotaStore.v
QuotaAdvice.v
