(* ===== verification/Prelude.v ===== *)
(** * Model Hotel: a verified core of the gateway

    Model Hotel is an HTTP gateway in Go that serves OpenAI-shaped requests from
    many upstream providers. A request names a model; the gateway resolves it to
    an ordered list of candidates (provider, upstream model), tries them one
    after another, and answers with the first that serves or with one verdict on
    why none did. What every request learns is shared: a circuit breaker per
    candidate, an in-flight window per provider, throttles per caller.

    This library models that path and the state behind it. Every definition
    translates a piece of [src/]; a comment above it says which where the name
    does not.

    ** Files

    - Prelude.v: [time.Time], [time.Duration] and int64 arithmetic, the float64
      operations the backoff jitter uses, record update, shared tactics.
    - Circuit.v: one circuit (internal/failover/circuitbreaker.go [circuit],
      model_circuits.go [noteOpen], [note429Open], circuit_status.go [note]).
    - Cooldown.v: how long an open circuit waits (model_circuits.go
      [effectiveCooldownForWith] to [quotaPinMax], circuit_quota.go [clampPin],
      [applyQuotaPin]).
    - CircuitEvents.v: what a critical section has [afterUnlock] say
      (circuit_events.go).
    - Breaker.v: the breaker's request-path operations (circuitbreaker.go:
      [IsOpen], [RecordFailure], [RecordExhausted], [RecordSuccess], ...,
      [BlockedUntil]; model_circuits.go: [getOrCreate], [evictIfFull],
      [providerReport], [dominant]).
    - BreakerGate.v, BreakerPhases.v: theorems on Breaker.v; the second defines
      the phase machine that the breaker refines.
    - BreakerQuota.v: circuit_quota.go, what a quota reading does to circuits
      that are already open.
    - BreakerStatus.v: the status rows and the manual resets (circuitbreaker.go
      [status], circuit_status.go, circuit_reset.go).
    - BreakerSystem.v: every entry point of the breaker as a step, in any order.
    - Crypto.v, Encryption.v: SHA-256, AES, GCM and base32 as Go's standard library
      has them; internal/auth/encryption.go and internal/util/hash.go over them.
    - Threads.v: handlers as programs of atomic actions, their interleavings, and
      the rules that prove them.
    - AuthWorld.v: the tables and process state the authentication code shares.
    - TotpStore.v: internal/totp/postgres_store.go and the TOTP half of
      internal/frontdesk/authstore.go, both instances of the [TotpStore] interface.
    - SecondFactor.v, SecondFactorSystem.v: internal/totp/totp.go; its requests
      interleaved.
    - LoginThrottle.v: internal/totp/throttle.go.
    - GoneStreak.v: internal/proxy/model_gone_streak.go.
    - Errors.v: internal/proxy/reqerror.go, the interruptions of
      proxy_upstream.go.
    - Verdict.v: verdict.go and failover_exhausted.go of internal/proxy, the
      rate-limit verdict of rate_limit_classify.go.
    - Inflight.v: internal/proxy/inflight.go.
    - AttemptTrail.v: internal/proxy/attempt_trail.go.
    - Outcome.v: breaker_outcome.go, the verdict functions of
      stream_finalize.go, the charge of rate_limit_classify.go; the [session]
      that an attempt reads and writes (types.go [requestState]).
    - StreamEnd.v: stream_finalize.go's diagnosis of a finished stream.
    - Attempt.v: proxy_failover.go [attemptCandidate] and what it calls
      (proxy_upstream.go [doUpstream], nonstreaming_dispatch.go,
      transient_retry.go, upstream_error_forward.go).
    - FailoverWalk.v: proxy.go [runFailoverLoop], over the [Gateway] interface.
    - HedgeProbe.v: one hedged attempt up to its first token, in its three moves
      (proxy_failover.go [sendHedgeProbe], [probeHedgeCandidate],
      [judgeHedgeResponse]; the first-token probe of stream_probe.go).
    - Hedge.v: hedging.go's select loop: the race's state, its timer, and one
      handler per event, to the drain of the losers.
    - HedgeLedger.v, HedgeSlots.v, HedgeAnswer.v: the race's books, its claims on
      the limiter, its answer.
    - Resolve.v: resolve.go and proxy_request.go [resolveCandidates].
    - Calendar.v, Budget.v, BudgetSystem.v: internal/budget, the calendar under
      it, one subject's critical sections, and their interleavings.
    - Double.v, TokenBucket.v, Throttle.v, RateLimit.v, RateSystem.v,
      TokenBudget.v: internal/ratelimit. IEEE float64; golang.org/x/time/rate as the
      [TokenBucket] interface; throttle.go's episodes; limiter.go, ip_limiter.go and
      fleet_share.go; their critical sections interleaved over one heap;
      tpm_limiter.go with its memos and charges.

    A [gmap] stands for each Go map, a record for each struct, an inductive type
    for each enum. An operation is a function from the state it finds to the
    state it leaves, with what it returns and what it emits.

    ** How the parts meet

    [Resolve.resolveCandidates] asks the breaker ([Breaker.IsOpen]) about each
    entry and hands the survivors to [FailoverWalk.runFailoverLoop]. The walk
    knows attempts only through the class [Gateway] (the clock, the random draw,
    what it blocks on, the attempt function) and its laws [GatewayLaws];
    [scripted_gateway], which replays a list of exchanges, is an instance.
    [Attempt.attemptCandidate] takes a slot from the limiter (Inflight.v), opens
    a trail record (AttemptTrail.v), dials ([doUpstream]), routes the status, and
    settles: the breaker and the learner are told through Outcome.v, the request's
    verdict through Verdict.v, a finished stream is diagnosed by StreamEnd.v.
    A streaming request with a hedge delay runs [Hedge] instead of the walk: the
    race launches the probes of HedgeProbe.v, which share the session's limiter
    and breaker, and its events arrive in any order ([race_step]).

    [SecondFactor]'s repository knows its tables only through the class
    [TotpStore] and its laws [TotpStoreLaws]: each operation is atomic and keeps a
    contract on its account's rows. The gateway's PostgreSQL store, for the admin
    and for each user, and the front desk's SQLite store are instances.

    ** What the theorems show

    - Breaker. [breaker_invariant]: every reachable breaker is well formed.
      [IsOpen_spec], [BlockedUntil_spec]: the routing question is answered as
      specified, and asking is safe. [perform_refines], [recovers]: each
      operation refines one move of the phase machine (serving, dark, on trial),
      and a dark circuit comes back. [recordFailure_spec], [recordExhausted_spec],
      [recordSuccess_spec], [status_spec] say what every branch does.
      [effectiveCooldown_governed], [applyBackoff_closed_form]: the wait is
      bounded, and the doubling loop is its closed form, overflow included.
      [ReleaseQuotaPins_spec], [ApplyQuotaPins_lengthens], [ApplyQuotaPins_darkens]:
      quota readings.
      [IsOpen_race]: the gap between the two locks of [IsOpen].
    - One attempt. [attempt_settles_slot]: an attempt gives its slot back exactly
      once on every path. [attempt_retries_once], [doUpstream_spec]: retries are
      bounded and a written request is not sent twice. [outcome_earned],
      [judge429_spec], [answer_judged], [stream_end_blame]: who is blamed.
      [trail_complete]: the trail tells the attempts, in order.
    - One request. [walk_answers_once]: the walk terminates and the client is
      answered exactly once. [walk_waits]: between attempts it waits no longer
      than the deadline and the backoff allow. [terminal_verdict],
      [exhausted_answer]: what the client is told when none served.
      [resolve_offers], [no_available_answer]: what is offered, and the answer
      when nothing is.
    - One race. [race_terminates]: whatever order its events come in, a race is
      decided within a bounded number of them. [race_charges]: every launch
      is charged to the breaker once, the winner and a winner's bystanders
      excepted. [race_slots]: when it is over no slot is held but the
      winner's. [race_answers_once]: the client is answered once, and only a
      winner's bytes reach it.
    - The limiter. [slots_conserved], [tryAcquire_spec],
      [waitForSlot_no_lost_wakeup].
    - Budgets. [periods_tile]: periods partition time. [budget_gate]: the answer
      depends on the figures only. [budget_events_once]: a threshold is announced
      once. [budget_never_misses]: whatever the interleaving of charges and
      reloads, a known figure holds every charge.
    - The second factor. [totp_single_use]: no code works twice, whatever the
      interleaving. [second_factor_decides]: what a login check answers.
      [disable_all_or_nothing], [rows_typed]: the rows stay whole.
      [recovery_code_roundtrip]: a code is recognised however it is typed.
      [encryption_roundtrip], [decryption_authentic]: what was sealed is read back,
      and nothing else is.
    - [throttle_refines_log], [throttle_self_clears]: a login throttle is a
      function of the log of failures. [goneStreak_counts],
      [probes_rate_limited]: so is a gone streak.
    - Rate limits. [admission_charges_none_or_all]: an admission takes one token
      from every stage or charges none. [throttle_log_tells]: the log is the
      history's episodes. [fleet_shares_sum]: members' shares add up to the cap.
      [buckets_private]: identities never share a bucket, cap edits never refill
      one, addresses are bounded. [debit_lands], [horizon_outlasts]: no completed
      request's tokens are forgiven.

    ** Decisions

    - A critical section is one definition. Where the code releases a lock and
      takes it again ([IsOpen], [refresh], [waitForSlot]) the model splits there,
      and a step relation interleaves the halves.
    - [Breaker.Env] is what one critical section of the breaker reads from outside:
      the instant, the settings, the random draw. A section that reads the clock
      twice reads one instant.
    - [Time] is a [Z] of nanoseconds since Go's zero time; [Sub] saturates and
      sums of durations wrap at 64 bits, as in Go. Counters of kind [int] and
      [uint64] are unbounded where no run can reach their width.
    - A Go [range] over a map has no order: where the body touches only its own
      entry the loop is the map's pointwise image; where entries compete, it is a
      fold whose result is proved independent of the order.
    - What the breaker logs, publishes and calls back is returned as a list of
      emissions; they run after the unlock.
    - A nil limiter or breaker is [None]. A closed notification channel is a
      generation number that has moved on.
    - The upstream is an [exchange]: what each try returned, and what the body
      turned out to be. Text classifiers, sanitizer, fence, digest and [strings.ToLower]
      are parameters of the theorems that use them.
    - A database statement is one atomic action, and the outside world says whether
      it works, fails, or works with its reply lost ([Fate]). A transaction's writes
      take effect together at its commit; before it, each statement reads what is
      committed then (READ COMMITTED), and its row locks are not modelled, which
      only adds interleavings to those the theorems cover. Argon2, pquerna/otp and the entropy source are parameters.
    - Budget dollars are exact integers; a detached reload lands within
      [refreshInterval], which its three-second deadline gives; the period a
      subject is budgeted over stays the same.

    ** Fuel

    Loops over a list recurse on it. The transport loop ([tryLoop]) recurses on
    the retries left. [doubleUpTo] recurses on the count of failed probes, as the loop does.
    The slot wait is bounded by the request's own deadline: [timeLeft + 3] rounds
    are proved enough, and [walk_answers_once] asks for no less.

    ** Not modelled

    HTTP and SQL; JSON dialect adapters and the self-heal's rewriting of a body;
    the phrase tables that classify provider prose; reading and transforming
    stream frames; multimodal attempts; discovery, the admin API and the fleet
    front desk; passkeys, passwords and cookies. *)

From stdpp Require Export base tactics numbers option list gmap strings pretty sorting.
From stdpp Require Import options.

#[global] Open Scope Z_scope.

(** ** Automation *)

Create HintDb gateway discriminated.

(** Case analysis on every [if]/[match] scrutinee of the goal, in the order
    the Go guard was written. *)
Ltac branches := repeat (case_match; simplify_eq/=).

(** Boolean comparisons of the Go source turned into arithmetic facts. *)
Ltac bool_to_arith :=
  repeat match goal with
  | H : _ && _ = true |- _ => apply andb_true_iff in H as [? ?]
  | H : _ || _ = false |- _ => apply orb_false_iff in H as [? ?]
  | H : negb _ = true |- _ => apply negb_true_iff in H
  | H : negb _ = false |- _ => apply negb_false_iff in H
  | H : (_ <? _) = true |- _ => apply Z.ltb_lt in H
  | H : (_ <? _) = false |- _ => apply Z.ltb_ge in H
  | H : (_ <=? _) = true |- _ => apply Z.leb_le in H
  | H : (_ <=? _) = false |- _ => apply Z.leb_gt in H
  | H : (_ =? _) = true |- _ => apply Z.eqb_eq in H
  | H : (_ =? _) = false |- _ => apply Z.eqb_neq in H
  end.

(** The workhorse of the arithmetic side conditions. *)
Ltac arith := bool_to_arith; simplify_eq/=; try lia.

(** Closed arithmetic goals of the witnesses, by evaluation. *)
Ltac evaluate :=
  solve [ vm_compute; repeat split; first [ reflexivity | discriminate | intros; discriminate ] ].

(** ** Record update

    Go mutates struct fields in place; [r ⟦ f := v ⟧] is the record [r] with
    the field [f] replaced. Each record declares one [Updater] per field with
    [derive_updater]. *)

Class Updater {R A : Type} (proj : R → A) := update_field : (A → A) → R → R.
#[global] Arguments update_field {R A} proj {_} _ _ : assert.

(** [derive_updater eta] builds the updater of the projection asked for out of
    the record's eta expansion. *)
Ltac derive_updater eta :=
  match goal with
  | |- @Updater ?R ?A ?proj =>
      let upd := constr:(fun (f : A → A) (r : R) =>
        ltac:(let t := eval cbv beta delta [eta] in (eta r) in
              match eval pattern (proj r) in t with
              | ?g _ => let b := eval cbv beta in (g (f (proj r))) in exact b
              end)) in
      exact upd
  end.

Declare Scope go_scope.
Delimit Scope go_scope with go.
#[global] Open Scope go_scope.

Notation "r '⟦' f ':=' v '⟧'" := (update_field f (fun _ => v) r)
  (at level 1, left associativity, f at next level, v at level 200,
   format "r ⟦  f  :=  v  ⟧") : go_scope.

(** ** Strings *)

(** What follows a prefix. *)
Fixpoint stripPrefix (p s : string) : option string :=
  match p, s with
  | EmptyString, _ => Some s
  | String a p, String b s => if bool_decide (a = b) then stripPrefix p s else None
  | _, _ => None
  end.

Lemma stripPrefix_app p s : stripPrefix p (p +:+ s) = Some s.
Proof.
  induction p as [|a p IH]; [by destruct s|]. change (String a p +:+ s) with (String a (p +:+ s)).
  cbn [stripPrefix]. by rewrite bool_decide_true.
Qed.

(** ** int64, [time.Duration] and [time.Time]

    A [time.Duration] is an int64 count of nanoseconds, held as a [Z] with the
    wrap-around written out where two of them are added. A [time.Time] is the
    count of nanoseconds since Go's zero time; [Sub] saturates the way
    [Time.Sub] does. *)

Definition int64_min : Z := - 2 ^ 63.
Definition int64_max : Z := 2 ^ 63 - 1.
Definition in_int64 (z : Z) : Prop := int64_min ≤ z ≤ int64_max.

Definition wrap64 (z : Z) : Z := (z + 2 ^ 63) `mod` 2 ^ 64 - 2 ^ 63.
Definition sat64 (z : Z) : Z := Z.max int64_min (Z.min z int64_max).

Lemma wrap64_id z : in_int64 z → wrap64 z = z.
Proof.
  unfold in_int64, wrap64, int64_min, int64_max. intros H.
  rewrite Z.mod_small by lia. lia.
Qed.

Lemma wrap64_range z : in_int64 (wrap64 z).
Proof.
  unfold in_int64, wrap64, int64_min, int64_max.
  pose proof (Z.mod_pos_bound (z + 2 ^ 63) (2 ^ 64)). lia.
Qed.

Lemma sat64_range z : in_int64 (sat64 z).
Proof. unfold in_int64, sat64, int64_min, int64_max. lia. Qed.

Lemma sat64_id z : in_int64 z → sat64 z = z.
Proof. unfold in_int64, sat64. lia. Qed.

Lemma sat64_lt z d : in_int64 d → (sat64 z < d ↔ z < d ∧ int64_min < d).
Proof. unfold in_int64, sat64, int64_min, int64_max. lia. Qed.

#[export] Hint Resolve wrap64_range sat64_range : gateway.

Abbreviation Duration := Z (only parsing).
Abbreviation Time := Z (only parsing).

Definition Second : Duration := 1000000000.
Definition Minute : Duration := 60 * Second.
Definition Hour : Duration := 60 * Minute.

Definition zeroTime : Time := 0.
Definition IsZero (t : Time) : bool := t =? zeroTime.
Definition Add (t : Time) (d : Duration) : Time := t + d.
Definition Sub (t u : Time) : Duration := sat64 (t - u).
Definition Before (t u : Time) : bool := t <? u.
Definition After (t u : Time) : bool := u <? t.
Definition Equal (t u : Time) : bool := t =? u.

(** [time.Unix(0, 0)]. *)
Definition unixEpoch : Time := 62135596800 * Second.

(** internal/util/staleness.go *)
Definition TrustedAge (now t : Time) : option Duration :=
  if IsZero t then None
  else
    let age := Sub now t in
    if age <? 0 then None else Some age.

(** [Duration.Milliseconds]: Go's integer division truncates toward zero. *)
Definition Milliseconds (d : Duration) : Z := Z.quot d 1000000.

(** [httpx.SetRetryAfter]: whole seconds, rounded up, at least one. The float64
    division it goes through rounds to the same second for any wait under a
    month and a half. *)
Definition SetRetryAfter (d : Duration) : Z := Z.max 1 ((d + Second - 1) / Second).

Lemma SetRetryAfter_ceil d : 0 < d → (SetRetryAfter d - 1) * Second < d ≤ SetRetryAfter d * Second ∧ 1 ≤ SetRetryAfter d.
Proof. intros Hd. unfold SetRetryAfter, Second. Z.to_euclidean_division_equations. lia. Qed.

(** ** float64

    The breaker's jitter arithmetic only meets non-negative normal doubles, so
    a float is a mantissa and an exponent (value [f_man * 2 ^ f_exp]) and every
    operation rounds its exact result to 53 bits, ties to even. *)

Record float64 := F64 { f_man : Z; f_exp : Z }.

Definition pow2_pos (e : Z) : Z := 2 ^ Z.max e 0.
Definition pow2_neg (e : Z) : Z := 2 ^ Z.max (- e) 0.

(** The quotient of [n] by [d], rounded to the nearest integer, ties to even. *)
Definition div_nearest_even (n d : Z) : Z :=
  let q := n / d in
  let r := n `mod` d in
  if 2 * r <? d then q
  else if d <? 2 * r then q + 1
  else if Z.even q then q else q + 1.

(** The double nearest to the rational [n / d]. *)
Definition f64_of_ratio (n d : Z) : float64 :=
  if n <=? 0 then F64 0 0 else
  let e1 := Z.log2 n - Z.log2 d - 52 in
  let e := if (n * pow2_neg e1) / (d * pow2_pos e1) <? 2 ^ 52 then e1 - 1 else e1 in
  F64 (div_nearest_even (n * pow2_neg e) (d * pow2_pos e)) e.

Definition f64_of_int (z : Z) : float64 := f64_of_ratio z 1.

Definition f64_mul (a b : float64) : float64 :=
  let e := f_exp a + f_exp b in
  f64_of_ratio (f_man a * f_man b * pow2_pos e) (pow2_neg e).

(** Division by a positive integer constant. *)
Definition f64_div_int (a : float64) (k : Z) : float64 :=
  f64_of_ratio (f_man a * pow2_pos (f_exp a)) (k * pow2_neg (f_exp a)).

(** The conversion to an integer type, which truncates. *)
Definition f64_trunc (a : float64) : Z := f_man a * pow2_pos (f_exp a) / pow2_neg (f_exp a).

(** [a] is at most the rational [n / d]. *)
Definition f64_le (a : float64) (n d : Z) : Prop :=
  f_man a * pow2_pos (f_exp a) * d ≤ n * pow2_neg (f_exp a).

Lemma pow2_pos_gt e : 0 < pow2_pos e.
Proof. apply Z.pow_pos_nonneg; lia. Qed.
Lemma pow2_neg_gt e : 0 < pow2_neg e.
Proof. apply Z.pow_pos_nonneg; lia. Qed.
#[export] Hint Resolve pow2_pos_gt pow2_neg_gt : gateway.

Lemma div_nearest_even_bounds n d :
  0 ≤ n → 0 < d → 0 ≤ div_nearest_even n d ∧ div_nearest_even n d * d ≤ 2 * n.
Proof.
  intros Hn Hd. unfold div_nearest_even.
  pose proof (Z.div_mod n d ltac:(lia)) as Hdm.
  pose proof (Z.mod_pos_bound n d Hd). pose proof (Z.div_pos n d Hn Hd).
  repeat case_match; arith; nia.
Qed.

Lemma f64_of_ratio_bounds n d :
  0 ≤ n → 0 < d → 0 ≤ f_man (f64_of_ratio n d) ∧ f64_le (f64_of_ratio n d) (2 * n) d.
Proof.
  intros Hn Hd. unfold f64_of_ratio, f64_le.
  destruct (Z.leb_spec n 0); [simpl; unfold pow2_pos, pow2_neg; simpl; lia|].
  set (e := if _ <? _ then _ else _); simpl.
  pose proof (pow2_pos_gt e). pose proof (pow2_neg_gt e).
  destruct (div_nearest_even_bounds (n * pow2_neg e) (d * pow2_pos e)); nia.
Qed.

Lemma f64_trunc_le a n d : 0 < d → f64_le a n d → f64_trunc a * d ≤ n.
Proof.
  intros Hd Hle. unfold f64_le, f64_trunc in *.
  pose proof (pow2_neg_gt (f_exp a)) as Hneg.
  pose proof (Z.mul_div_le (f_man a * pow2_pos (f_exp a)) _ Hneg). nia.
Qed.

Lemma f64_trunc_nonneg a : 0 ≤ f_man a → 0 ≤ f64_trunc a.
Proof.
  intros. unfold f64_trunc. apply Z.div_pos; [|auto with gateway].
  pose proof (pow2_pos_gt (f_exp a)). nia.
Qed.

(** A double in [0, 1) on the 2^-53 grid: what [rand.Float64] draws. *)
Definition f64_fraction (a : float64) : Prop := 0 ≤ f_man a < 2 ^ 53 ∧ f_exp a = -53.

(** Scaling by such a fraction at most doubles a bound, rounding included. *)
Lemma f64_mul_fraction a b n :
  f64_fraction a → 0 ≤ f_man b → f64_le b n 1 →
  0 ≤ f_man (f64_mul a b) ∧ f64_le (f64_mul a b) (2 * n) 1.
Proof.
  intros [Ha He] Hb Hle. unfold f64_mul.
  set (e := f_exp a + f_exp b). set (m := f_man a * f_man b * pow2_pos e).
  pose proof (pow2_pos_gt e). pose proof (pow2_neg_gt e). pose proof (pow2_neg_gt (f_exp b)).
  assert (0 ≤ m) by (unfold m; apply Z.mul_nonneg_nonneg; nia).
  destruct (f64_of_ratio_bounds m (pow2_neg e)) as [? Hr]; [done..|].
  split; [done|]. unfold f64_le in *. set (f := f64_of_ratio m (pow2_neg e)) in *.
  assert (m ≤ n * pow2_neg e) as Hm.
  { assert (pow2_pos e * 2 ^ 53 * pow2_neg (f_exp b) = pow2_pos (f_exp b) * pow2_neg e) as Hid.
    { unfold e, pow2_pos, pow2_neg. rewrite He, <- !Z.pow_add_r by lia. f_equal. lia. }
    apply (Z.mul_le_mono_pos_r _ _ (pow2_neg (f_exp b))); [done|].
    transitivity (f_man b * (pow2_pos e * 2 ^ 53 * pow2_neg (f_exp b))).
    - replace (m * pow2_neg (f_exp b))
        with (f_man b * (pow2_pos e * pow2_neg (f_exp b)) * f_man a) by (unfold m; ring).
      replace (f_man b * (pow2_pos e * 2 ^ 53 * pow2_neg (f_exp b)))
        with (f_man b * (pow2_pos e * pow2_neg (f_exp b)) * 2 ^ 53) by ring.
      apply Z.mul_le_mono_nonneg_l; [|lia]. apply Z.mul_nonneg_nonneg; nia.
    - rewrite Hid, Z.mul_assoc. nia. }
  pose proof (pow2_neg_gt (f_exp f)).
  apply (Z.mul_le_mono_pos_r _ _ (pow2_neg e)); [done|].
  transitivity (2 * m * pow2_neg (f_exp f)); [lia|nia].
Qed.

(** A truncated quotient by a positive constant, one rounding later. *)
Lemma f64_div_int_trunc a k n :
  0 < k → 0 ≤ f_man a → f64_le a n 1 →
  0 ≤ f64_trunc (f64_div_int a k) ∧ k * f64_trunc (f64_div_int a k) ≤ 2 * n.
Proof.
  intros Hk Ha Hle. unfold f64_div_int.
  pose proof (pow2_neg_gt (f_exp a)). pose proof (pow2_pos_gt (f_exp a)).
  destruct (f64_of_ratio_bounds (f_man a * pow2_pos (f_exp a)) (k * pow2_neg (f_exp a)))
    as [Hm Hr]; [nia..|].
  split; [by apply f64_trunc_nonneg|].
  apply f64_trunc_le in Hr; [|nia]. unfold f64_le in Hle. nia.
Qed.

(** ** Sorted lists by index *)

Lemma sorted_pair {A} (R : A → A → Prop) (l : list A) i j x y :
  StronglySorted R l → (i < j)%nat → l !! i = Some x → l !! j = Some y → R x y.
Proof.
  intros Hs. revert i j. induction Hs as [|a l Hs IH Ha]; intros i j Hij Hi Hj; [done|].
  destruct j as [|j]; [lia|]. destruct i as [|i]; simpl in *.
  - simplify_eq. rewrite Forall_lookup in Ha. by eapply Ha.
  - apply (IH i j); [lia|done|done].
Qed.
