(* ===== verification/Crypto.v ===== *)
(** * The cryptography the program takes from Go's standard library

    crypto/sha256, crypto/aes, crypto/cipher's GCM, encoding/hex and
    encoding/base32, as far as internal/auth, internal/totp, internal/util and
    internal/webauthn use them: executable, after FIPS 180-4, FIPS 197, NIST
    SP 800-38D and RFC 4648. Table constants are computed from their definitions
    and the standards' test vectors are checked below. *)

From Stdlib Require Export Strings.Ascii Strings.Byte.
From S2P Require Import Prelude.

Abbreviation bytes := (list byte) (only parsing).

(** ** Bytes *)

#[export] Instance byte_eq_decision : EqDecision byte := Byte.byte_eq_dec.

Definition byte_of_N (n : N) : byte := default x00 (Byte.of_N (n `mod` 256)).

Definition bxor (a b : byte) : byte := byte_of_N (N.lxor (Byte.to_N a) (Byte.to_N b)).

(** [len] bytes of [n], most significant first. *)
Fixpoint be_bytes (len : nat) (n : N) : bytes :=
  match len with
  | O => []
  | S len => byte_of_N (N.shiftr n (8 * N.of_nat len)) :: be_bytes len n
  end.

Definition be_value (bs : bytes) : N :=
  foldl (λ acc b, (256 * acc + Byte.to_N b)%N) 0%N bs.

(** Consecutive pieces of [n] elements, the last one shorter. *)
Fixpoint chunks_go {A} (fuel n : nat) (l : list A) : list (list A) :=
  match fuel, l with
  | S fuel, _ :: _ => take n l :: chunks_go fuel n (drop n l)
  | _, _ => []
  end.

Definition chunks {A} (n : nat) (l : list A) : list (list A) := chunks_go (length l) n l.

(** ** encoding/hex *)

Definition hexDigits : list ascii := String.list_ascii_of_string "0123456789abcdef".

Definition hexDigit (n : N) : ascii := nth (N.to_nat n) hexDigits "0"%char.

Fixpoint hexEncode (bs : bytes) : string :=
  match bs with
  | [] => EmptyString
  | b :: bs => String (hexDigit (Byte.to_N b / 16)) (String (hexDigit (Byte.to_N b `mod` 16)) (hexEncode bs))
  end.

(** ** crypto/sha256 *)

Module SHA256.

Definition word (n : N) : N := n `mod` 2 ^ 32.
Definition rotr (n x : N) : N := N.lor (N.shiftr x n) (word (N.shiftl x (32 - n))).
Definition bsig (a b c x : N) : N := N.lxor (rotr a x) (N.lxor (rotr b x) (rotr c x)).
Definition ssig (a b c x : N) : N := N.lxor (rotr a x) (N.lxor (rotr b x) (N.shiftr x c)).

(** The [k]-th root of [n], rounded down, one bit at a time. *)
Definition iroot (k n : N) : N :=
  foldl (λ r i, let c := (r + 2 ^ N.of_nat i)%N in if (c ^ k <=? n)%N then c else r)
    0%N (rev (seq 0 37)).

(** The first 32 bits of the fractional part of the [k]-th root of [p]. *)
Definition rootBits (k p : N) : N := word (iroot k (p * 2 ^ (32 * k))).

Definition isPrime (p : nat) : bool := forallb (λ d, negb (p mod d =? 0)%nat) (seq 2 (p - 2)).
Definition primes : list N := Eval vm_compute in N.of_nat <$> List.filter isPrime (seq 2 310).

Definition roundConstants : list N := Eval vm_compute in rootBits 3 <$> primes.
Definition initialState : list N := Eval vm_compute in rootBits 2 <$> take 8 primes.

Definition pad (msg : bytes) : bytes :=
  let l := length msg in
  msg ++ x80 :: replicate ((119 - l mod 64) mod 64) x00 ++ be_bytes 8 (8 * N.of_nat l).

(** The message schedule, newest word first. *)
Fixpoint schedule (n : nat) (ws : list N) : list N :=
  match n with
  | O => ws
  | S n =>
      let w i := nth (i - 1) ws 0%N in
      schedule n (word (ssig 17 19 10 (w 2%nat) + w 7%nat + ssig 7 18 3 (w 15%nat) + w 16%nat) :: ws)
  end.

Definition round (st : list N) (kw : N * N) : list N :=
  match st with
  | [a; b; c; d; e; f; g; h] =>
      let ch := N.lxor (N.land e f) (N.land (N.lxor e (N.ones 32)) g) in
      let maj := N.lxor (N.land a b) (N.lxor (N.land a c) (N.land b c)) in
      let t := (h + bsig 6 11 25 e + ch + kw.1 + kw.2)%N in
      [word (t + bsig 2 13 22 a + maj); a; b; c; word (d + t); e; f; g]
  | _ => st
  end.

Definition compress (st : list N) (block : bytes) : list N :=
  let ws := rev (schedule 48 (rev (be_value <$> chunks 4 block))) in
  zip_with (λ a b, word (a + b)) st (foldl round st (zip roundConstants ws)).

Definition sum256 (msg : bytes) : bytes :=
  foldl compress initialState (chunks 64 (pad msg)) ≫= be_bytes 4.

End SHA256.

(** ** crypto/aes *)

Module AES.

(** GF(2^8) modulo x^8 + x^4 + x^3 + x + 1. *)
Definition xtime (a : N) : N :=
  let d := (2 * a)%N in if (d <? 256)%N then d else N.lxor d 283.

Fixpoint gmul (fuel : nat) (a b : N) : N :=
  match fuel with
  | O => 0
  | S fuel => N.lxor (if N.odd b then a else 0) (gmul fuel (xtime a) (N.div2 b))
  end.

Definition mul : N → N → N := gmul 8.

(** [a ^ 254], the inverse, and 0 for 0. *)
Definition inverse (a : N) : N := Nat.iter 254 (mul a) 1%N.

Definition rotl8 (n a : N) : N := N.lor (N.shiftl a n `mod` 256) (N.shiftr a (8 - n)).

Definition sboxAt (a : N) : N :=
  let b := inverse a in
  foldl N.lxor b [rotl8 1 b; rotl8 2 b; rotl8 3 b; rotl8 4 b; 99%N].

Definition sboxTable : list N := Eval vm_compute in (sboxAt ∘ N.of_nat) <$> seq 0 256.
Definition sbox (a : N) : N := nth (N.to_nat a) sboxTable 0%N.

Definition xorWord : list N → list N → list N := zip_with N.lxor.

(** The key schedule: words of four bytes, newest first; [nk] words of key. *)
Fixpoint expand (fuel : nat) (nk : nat) (i : nat) (rcon : N) (ws : list (list N)) : list (list N) :=
  match fuel with
  | O => ws
  | S fuel =>
      let prev := nth 0 ws [] in
      let fresh := (i mod nk =? 0)%nat in
      let t :=
        if fresh then xorWord (sbox <$> (drop 1 prev ++ take 1 prev)) [rcon; 0%N; 0%N; 0%N]
        else if ((6 <? nk) && (i mod nk =? 4))%nat then sbox <$> prev
        else prev in
      expand fuel nk (S i) (if fresh then xtime rcon else rcon) (xorWord (nth (nk - 1) ws []) t :: ws)
  end.

Definition roundKeys (key : bytes) : list (list N) :=
  let words := chunks 4 (List.map Byte.to_N key) in
  let nk := length words in
  List.map (@List.concat N) (chunks 4 (rev (expand (4 * (nk + 7) - nk) nk nk 1 (rev words)))).

Definition shiftRows (st : list N) : list N :=
  (λ i, nth ((5 * i) mod 16) st 0%N) <$> seq 0 16.

Definition mixColumn (c : list N) : list N :=
  match c with
  | [a; b; c; d] =>
      let m x y z w := foldl N.lxor (mul x 2) [mul y 3; z; w] in
      [m a b c d; m b c d a; m c d a b; m d a b c]
  | _ => c
  end.

Definition cipherRound (st rk : list N) : list N :=
  xorWord (chunks 4 (shiftRows (sbox <$> st)) ≫= mixColumn) rk.

(** One block under an expanded key. *)
Definition encryptBlock (rks : list (list N)) (block : bytes) : bytes :=
  let st := foldl cipherRound (xorWord (Byte.to_N <$> block) (nth 0 rks []))
              (take (length rks - 2) (drop 1 rks)) in
  let out := xorWord (shiftRows (sbox <$> st)) (nth (length rks - 1) rks []) in
  (λ i, byte_of_N (nth i out 0%N)) <$> seq 0 16.

End AES.

(** ** crypto/cipher: GCM with a twelve-byte nonce, a sixteen-byte tag and no
    additional data *)

Module GCM.

(** The product in GF(2^128), in GCM's reflected bit order. *)
Fixpoint gfmul (n : nat) (x v z : N) : N :=
  match n with
  | O => z
  | S n =>
      let z := if N.testbit x (N.of_nat n) then N.lxor z v else z in
      let v := if N.odd v then N.lxor (N.div2 v) (N.shiftl 225 120) else N.div2 v in
      gfmul n x v z
  end.

Definition padBlock (bs : bytes) : bytes := bs ++ replicate ((16 - length bs mod 16) mod 16) x00.

Section Mode.
Context (E : bytes → bytes).

Definition ghash (c : bytes) : N :=
  let h := be_value (E (replicate 16 x00)) in
  let lens := be_bytes 8 0 ++ be_bytes 8 (8 * N.of_nat (length c)) in
  foldl (λ y b, gfmul 128 (N.lxor y (be_value b)) h 0) 0%N (chunks 16 (padBlock c ++ lens)).

Definition counterBlock (nonce : bytes) (i : nat) : bytes :=
  E (nonce ++ be_bytes 4 (N.of_nat i `mod` 2 ^ 32)).

(** The key stream for [n] bytes; block 1 is kept for the tag. *)
Definition keystream (nonce : bytes) (n : nat) : bytes :=
  take n (seq 2 ((n + 15) / 16) ≫= counterBlock nonce).

Definition tag (nonce c : bytes) : bytes :=
  zip_with bxor (be_bytes 16 (ghash c)) (counterBlock nonce 1).

Definition crypt (nonce data : bytes) : bytes := zip_with bxor data (keystream nonce (length data)).

End Mode.
End GCM.

(** A call of the library: what it returns, an error, or a panic. *)
Inductive call (A : Type) :=
| Returns (a : A)
| Errs (msg : string)
| Panics (msg : string).
Arguments Returns {A}. Arguments Errs {A}. Arguments Panics {A}.

(** [cipher.Block] and [cipher.AEAD]. *)
Record Block := MkBlock { BlockSize : nat; blockEncrypt : bytes → bytes }.

Record AEAD := MkAEAD {
  NonceSize : nat;
  Overhead : nat;
  Seal : bytes → bytes → call bytes;
  Open : bytes → bytes → call bytes
}.

Module aes.
Definition NewCipher (key : bytes) : string + Block :=
  if decide (length key ∈ [16; 24; 32]%nat)
  then inr (MkBlock 16 (AES.encryptBlock (AES.roundKeys key)))
  else inl ("crypto/aes: invalid key size " +:+ pretty (length key)).
End aes.

Module cipher.
Definition gcmMaxPlaintext : Z := (2 ^ 32 - 2) * 16.

Definition NewGCM (b : Block) : string + AEAD :=
  if negb (BlockSize b =? 16)%nat then inl "cipher: NewGCM requires 128-bit block cipher" else
  inr (MkAEAD 12 16
    (λ nonce plaintext,
      if negb (length nonce =? 12)%nat then Panics "crypto/cipher: incorrect nonce length given to GCM"
      else if gcmMaxPlaintext <? Z.of_nat (length plaintext) then Panics "crypto/cipher: message too large for GCM"
      else
        let c := GCM.crypt (blockEncrypt b) nonce plaintext in
        Returns (c ++ GCM.tag (blockEncrypt b) nonce c))
    (λ nonce sealed,
      if negb (length nonce =? 12)%nat then Panics "crypto/cipher: incorrect nonce length given to GCM"
      else if (length sealed <? 16)%nat || (gcmMaxPlaintext + 16 <? Z.of_nat (length sealed))
      then Errs "cipher: message authentication failed"
      else
        let n := (length sealed - 16)%nat in
        let c := take n sealed in
        if bool_decide (drop n sealed = GCM.tag (blockEncrypt b) nonce c)
        then Returns (GCM.crypt (blockEncrypt b) nonce c)
        else Errs "cipher: message authentication failed")).
End cipher.

(** ** crypto/rand

    [crypto/rand.Reader] is the stream of bytes it is about to produce; a reader
    that breaks produces finitely many. *)

Abbreviation Entropy := (list byte) (only parsing).

(** [io.ReadFull]. *)
Definition ReadFull (n : nat) (r : Entropy) : (string + bytes) * Entropy :=
  if decide (n ≤ length r)%nat then (inr (take n r), drop n r)
  else (inl (if decide (length r = 0%nat) then "EOF" else "unexpected EOF"), []).

(** ** encoding/base32, without padding *)

Module base32.

Definition alphabet : list ascii := String.list_ascii_of_string "ABCDEFGHIJKLMNOPQRSTUVWXYZ234567".

(** The bits of a byte, most significant first. *)
Definition bits8 (b : byte) : list bool :=
  (λ i, N.testbit (Byte.to_N b) (N.of_nat i)) <$> [7; 6; 5; 4; 3; 2; 1; 0]%nat.

Definition value (bits : list bool) : nat := foldl (λ acc (b : bool), 2 * acc + Nat.b2n b)%nat 0%nat bits.

Definition symbol (bits : list bool) : ascii :=
  nth (value (take 5 (bits ++ replicate 5 false))) alphabet "A"%char.

Definition EncodeToString (bs : bytes) : string :=
  String.string_of_list_ascii (symbol <$> chunks 5 (bs ≫= bits8)).

End base32.

(** [base64.RawURLEncoding]. *)
Module base64.

Definition alphabet : list ascii :=
  String.list_ascii_of_string "ABCDEFGHIJKLMNOPQRSTUVWXYZabcdefghijklmnopqrstuvwxyz0123456789-_".

Definition symbol (bits : list bool) : ascii :=
  nth (base32.value (take 6 (bits ++ replicate 6 false))) alphabet "A"%char.

Definition EncodeToString (bs : bytes) : string :=
  String.string_of_list_ascii (symbol <$> chunks 6 (bs ≫= base32.bits8)).

End base64.

(** ** The standards' test vectors *)

Example sha256_abc :
  hexEncode (SHA256.sum256 (String.list_byte_of_string "abc"))
  = "ba7816bf8f01cfea414140de5dae2223b00361a396177a9cb410ff61f20015ad".
Proof. vm_compute. reflexivity. Qed.

Example sha256_two_blocks :
  hexEncode (SHA256.sum256 (String.list_byte_of_string "abcdbcdecdefdefgefghfghighijhijkijkljklmklmnlmnomnopnopq"))
  = "248d6a61d20638b8e5c026930c3e6039a33ce45964ff2167f6ecedd419db06c1".
Proof. vm_compute. reflexivity. Qed.

Definition counting (n : nat) : bytes := byte_of_N ∘ N.of_nat <$> seq 0 n.

Example aes256_fips197 :
  hexEncode (AES.encryptBlock (AES.roundKeys (counting 32)) (byte_of_N ∘ N.of_nat ∘ Nat.mul 17 <$> seq 0 16))
  = "8ea2b7ca516745bfeafc49904b496089".
Proof. vm_compute. reflexivity. Qed.

Definition sealHex (key nonce plaintext : bytes) : string :=
  match aes.NewCipher key with
  | inl e => e
  | inr b => match cipher.NewGCM b with
             | inl e => e
             | inr g => match Seal g nonce plaintext with Returns c => hexEncode c | Errs e | Panics e => e end
             end
  end.

Example gcm_empty : sealHex (replicate 32 x00) (replicate 12 x00) [] = "530f8afbc74536b9a963b4f1c4cb738b".
Proof. vm_compute. reflexivity. Qed.

Example gcm_zero_block :
  sealHex (replicate 32 x00) (replicate 12 x00) (replicate 16 x00)
  = "cea7403d4d606b6e074ec5d3baf39d18d0d1c8a799996bf0265b98b5d48ab919".
Proof. vm_compute. reflexivity. Qed.

Example base32_foobar : base32.EncodeToString (String.list_byte_of_string "foobar") = "MZXW6YTBOI".
Proof. vm_compute. reflexivity. Qed.

(** ** Lemmas *)

Lemma length_be_bytes len n : length (be_bytes len n) = len.
Proof. induction len; cbn; congruence. Qed.

Lemma byte_of_N_to_N b : byte_of_N (Byte.to_N b) = b.
Proof. destruct b; reflexivity. Qed.

Lemma to_N_byte_of_N n : (n < 256)%N → Byte.to_N (byte_of_N n) = n.
Proof.
  intros Hn. unfold byte_of_N. rewrite N.mod_small by done.
  destruct (Byte.of_N n) as [b|] eqn:Hb; cbn.
  - by apply Byte.to_of_N.
  - apply Byte.of_N_None_iff in Hb. lia.
Qed.

Lemma to_N_small b : (Byte.to_N b < 256)%N.
Proof. pose proof (Byte.to_N_bounded b). lia. Qed.

Lemma N_lxor_small a b : (a < 256)%N → (b < 256)%N → (N.lxor a b < 256)%N.
Proof.
  intros Ha Hb. destruct (decide (N.lxor a b = 0)%N) as [->|Hz]; [lia|].
  apply (N.log2_lt_pow2 _ 8); [lia|].
  pose proof (N.log2_lxor a b). destruct (decide (a = 0)%N), (decide (b = 0)%N); subst; try done.
  - rewrite N.lxor_0_l. by apply N.log2_lt_pow2; [lia|].
  - rewrite N.lxor_0_r. by apply N.log2_lt_pow2; [lia|].
  - pose proof (N.log2_lt_pow2 a 8). pose proof (N.log2_lt_pow2 b 8). lia.
Qed.

Lemma bxor_involutive a b : bxor (bxor a b) b = a.
Proof.
  unfold bxor. rewrite to_N_byte_of_N by (apply N_lxor_small; apply to_N_small).
  by rewrite N.lxor_assoc, N.lxor_nilpotent, N.lxor_0_r, byte_of_N_to_N.
Qed.

(** A block cipher's output is a block. *)
Definition blocks (E : bytes → bytes) : Prop := ∀ b, length (E b) = 16%nat.

Lemma AES_blocks rks : blocks (AES.encryptBlock rks).
Proof. intros b. unfold AES.encryptBlock. cbv zeta. by rewrite length_fmap, length_seq. Qed.

Section GCM.
Context (E : bytes → bytes) (HE : blocks E).

Lemma length_counterBlocks nonce l :
  length (l ≫= GCM.counterBlock E nonce) = (16 * length l)%nat.
Proof.
  induction l as [|i l IH]; [done|]. cbn [mbind list_bind]. rewrite length_app.
  change (list_bind _ _ (GCM.counterBlock E nonce) l) with (l ≫= GCM.counterBlock E nonce).
  rewrite IH. unfold GCM.counterBlock. rewrite HE. cbn. lia.
Qed.

Lemma length_keystream nonce n : length (GCM.keystream E nonce n) = n.
Proof.
  unfold GCM.keystream. rewrite length_take, length_counterBlocks, length_seq.
  pose proof (Nat.div_mod (n + 15) 16). pose proof (Nat.mod_upper_bound (n + 15) 16). lia.
Qed.

Lemma length_crypt nonce data : length (GCM.crypt E nonce data) = length data.
Proof. unfold GCM.crypt. rewrite length_zip_with, length_keystream. lia. Qed.

Lemma zip_with_bxor_involutive (data ks : bytes) :
  length data = length ks → zip_with bxor (zip_with bxor data ks) ks = data.
Proof.
  revert ks. induction data as [|x data IH]; intros [|k ks] Hl; cbn in *; try lia; [done|].
  by rewrite bxor_involutive, IH by lia.
Qed.

Lemma crypt_involutive nonce data : GCM.crypt E nonce (GCM.crypt E nonce data) = data.
Proof.
  unfold GCM.crypt at 1. rewrite length_crypt. unfold GCM.crypt.
  apply zip_with_bxor_involutive. by rewrite length_keystream.
Qed.

Lemma length_tag nonce c : length (GCM.tag E nonce c) = 16%nat.
Proof. unfold GCM.tag, GCM.counterBlock. by rewrite length_zip_with, length_be_bytes, HE. Qed.

Context (g : AEAD) (Hg : cipher.NewGCM (MkBlock 16 E) = inr g) (nonce : bytes) (Hn : length nonce = 12%nat).

(** What is sealed opens. *)
Lemma open_seal plaintext :
  Z.of_nat (length plaintext) ≤ cipher.gcmMaxPlaintext →
  ∃ sealed, Seal g nonce plaintext = Returns sealed ∧
    length sealed = (length plaintext + 16)%nat ∧ Open g nonce sealed = Returns plaintext.
Proof.
  intros Hp. unfold cipher.NewGCM in Hg. cbn [BlockSize Nat.eqb negb] in Hg. injection Hg as <-. cbn [Seal Open BlockSize blockEncrypt].
  rewrite Hn. cbn [negb Nat.eqb]. rewrite (proj2 (Z.ltb_ge _ _)) by done.
  eexists. split; [reflexivity|]. rewrite length_app, length_crypt, length_tag. split; [done|].
  rewrite (proj2 (Nat.ltb_ge _ _)) by lia. cbn [orb].
  rewrite (proj2 (Z.ltb_ge _ _)) by lia.
  replace (length plaintext + 16 - 16)%nat with (length (GCM.crypt E nonce plaintext)) by (rewrite length_crypt; lia).
  by rewrite take_app_length, drop_app_length, bool_decide_eq_true_2, crypt_involutive.
Qed.

(** What opens was sealed: the ciphertext is the one sealing gives. *)
Lemma seal_open sealed plaintext :
  Open g nonce sealed = Returns plaintext → Seal g nonce plaintext = Returns sealed.
Proof.
  unfold cipher.NewGCM in Hg. cbn [BlockSize Nat.eqb negb] in Hg. injection Hg as <-. cbn [Seal Open BlockSize blockEncrypt].
  rewrite Hn. cbn [negb Nat.eqb].
  destruct (_ || _) eqn:Hl; [done|]. apply orb_false_iff in Hl as [Hl1 Hl2].
  apply Nat.ltb_ge in Hl1. apply Z.ltb_ge in Hl2.
  case_bool_decide as Ht; [|done]. intros [= <-].
  rewrite length_crypt, length_take, crypt_involutive.
  rewrite (proj2 (Z.ltb_ge _ _)) by lia. by rewrite <- Ht, take_drop.
Qed.

(** With the right nonce length opening panics on nothing. *)
Lemma open_total sealed msg : Open g nonce sealed ≠ Panics msg.
Proof.
  unfold cipher.NewGCM in Hg. cbn [BlockSize Nat.eqb negb] in Hg. injection Hg as <-.
  cbn [Open BlockSize blockEncrypt]. rewrite Hn. cbn [negb Nat.eqb]. by repeat case_match.
Qed.
End GCM.

Lemma chunks_go_spec {A} (fuel n m : nat) (l : list A) :
  (0 < n)%nat → length l = (m * n)%nat → (m ≤ fuel)%nat →
  length (chunks_go fuel n l) = m ∧ Forall (λ c, length c = n) (chunks_go fuel n l) ∧
  chunks_go fuel n l ≫= id = l.
Proof.
  intros Hn. revert m l. induction fuel as [|fuel IH]; intros m l Hl Hm.
  - destruct m; [|lia]. destruct l; [|done]. done.
  - destruct l as [|x l].
    { destruct m; [done|]. cbn in Hl. lia. }
    destruct m as [|m]; [done|].
    cbn [chunks_go]. edestruct (IH m (drop n (x :: l))) as (H1 & H2 & H3); [rewrite length_drop; lia|lia|].
    split; [cbn; by rewrite H1|]. split.
    + constructor; [|done]. rewrite length_take. lia.
    + cbn [mbind list_bind]. change (list_bind _ _ id ?c) with (c ≫= id). rewrite H3. apply take_drop.
Qed.

Lemma chunks_spec {A} (n m : nat) (l : list A) :
  (0 < n)%nat → length l = (m * n)%nat →
  length (chunks n l) = m ∧ Forall (λ c, length c = n) (chunks n l) ∧ chunks n l ≫= id = l.
Proof. intros Hn Hl. apply chunks_go_spec; [done..|]. rewrite Hl. nia. Qed.

Lemma length_bits8 b : length (base32.bits8 b) = 8%nat.
Proof. done. Qed.

Lemma length_bits bs : length (bs ≫= base32.bits8) = (8 * length bs)%nat.
Proof. induction bs as [|b bs IH]; [done|]. cbn in *. lia. Qed.

Lemma bits8_inj b1 b2 : base32.bits8 b1 = base32.bits8 b2 → b1 = b2.
Proof.
  intros Hb. enough (∀ b, byte_of_N (foldl (λ a x, 2 * a + N.b2n x)%N 0%N (base32.bits8 b)) = b) as H
    by (rewrite <- (H b1), Hb; apply H).
  intros []; reflexivity.
Qed.

Lemma bits_inj bs1 bs2 :
  length bs1 = length bs2 → bs1 ≫= base32.bits8 = bs2 ≫= base32.bits8 → bs1 = bs2.
Proof.
  revert bs2. induction bs1 as [|b1 bs1 IH]; intros [|b2 bs2] Hl Hb; cbn [length] in Hl; try lia; [done|].
  cbn [mbind list_bind] in Hb. apply app_inj_1 in Hb as [H1 H2]; [|done].
  f_equal; [by apply bits8_inj|]. apply IH; [lia|done].
Qed.

Definition fives : list (list bool) :=
  (λ n, (λ i, N.testbit (N.of_nat n) (N.of_nat i)) <$> [4; 3; 2; 1; 0]%nat) <$> seq 0 32.

Lemma elem_of_fives c : length c = 5%nat → c ∈ fives.
Proof.
  destruct c as [|[] [|[] [|[] [|[] [|[] [|? ?]]]]]]; try done; intros _;
    apply (bool_decide_unpack _); vm_compute; exact I.
Qed.

Lemma symbol_inj c1 c2 :
  length c1 = 5%nat → length c2 = 5%nat → base32.symbol c1 = base32.symbol c2 → c1 = c2.
Proof.
  intros H1%elem_of_fives H2%elem_of_fives.
  assert (Forall (λ c, Forall (λ d, base32.symbol c = base32.symbol d → c = d) fives) fives) as Hall
    by (apply (bool_decide_unpack _); vm_compute; exact I).
  rewrite Forall_forall in Hall. specialize (Hall c1 H1). rewrite Forall_forall in Hall. by apply Hall.
Qed.

Lemma symbol_alphabet c : length c = 5%nat → base32.symbol c ∈ base32.alphabet.
Proof.
  intros H%elem_of_fives.
  assert (Forall (λ c, base32.symbol c ∈ base32.alphabet) fives) as Hall
    by (apply (bool_decide_unpack _); vm_compute; exact I).
  rewrite Forall_forall in Hall. by apply Hall.
Qed.

Lemma list_ascii_inj l1 l2 :
  String.string_of_list_ascii l1 = String.string_of_list_ascii l2 → l1 = l2.
Proof.
  intros H. rewrite <- (String.list_ascii_of_string_of_list_ascii l1), H.
  apply String.list_ascii_of_string_of_list_ascii.
Qed.

(** Ten bytes are sixteen symbols of the alphabet, and no two tens share them. *)
Lemma encode_symbols bs m :
  length bs = (5 * m)%nat →
  length (String.list_ascii_of_string (base32.EncodeToString bs)) = (8 * m)%nat ∧
  Forall (.∈ base32.alphabet) (String.list_ascii_of_string (base32.EncodeToString bs)).
Proof.
  intros Hl. unfold base32.EncodeToString. rewrite String.list_ascii_of_string_of_list_ascii.
  destruct (chunks_spec 5 (8 * m) (bs ≫= base32.bits8)) as (H1 & H2 & _); [lia|rewrite length_bits; lia|].
  split; [by rewrite length_fmap|]. apply Forall_fmap. eapply Forall_impl; [exact H2|].
  intros c Hc. by apply symbol_alphabet.
Qed.

Lemma encode_inj bs1 bs2 m :
  length bs1 = (5 * m)%nat → length bs2 = (5 * m)%nat →
  base32.EncodeToString bs1 = base32.EncodeToString bs2 → bs1 = bs2.
Proof.
  intros Hl1 Hl2 He%list_ascii_inj. apply bits_inj; [lia|].
  destruct (chunks_spec 5 (8 * m) (bs1 ≫= base32.bits8)) as (_ & H1 & <-); [lia|rewrite length_bits; lia|].
  destruct (chunks_spec 5 (8 * m) (bs2 ≫= base32.bits8)) as (_ & H2 & <-); [lia|rewrite length_bits; lia|].
  f_equal. revert He H1 H2. generalize (chunks 5 (bs1 ≫= base32.bits8)) (chunks 5 (bs2 ≫= base32.bits8)).
  intros l1. induction l1 as [|c1 l1 IH]; intros [|c2 l2] [=] H1 H2; [done|].
  inversion_clear H1. inversion_clear H2. f_equal; [by apply symbol_inj|by apply IH].
Qed.

Lemma length_list_byte_of_string s : length (String.list_byte_of_string s) = String.length s.
Proof.
  unfold String.list_byte_of_string.
  rewrite length_map. induction s as [|a s IH]; [done|]. cbn. by rewrite IH.
Qed.

(** ** A digest is 32 bytes *)

Lemma length_compress st block : length st = 8%nat → length (SHA256.compress st block) = 8%nat.
Proof.
  intros Hl. unfold SHA256.compress. rewrite length_zip_with, Hl.
  assert (∀ kws s, length s = 8%nat → length (foldl SHA256.round s kws) = 8%nat) as Hr.
  { intros kws. induction kws as [|kw kws IH]; intros s Hs; [done|]. cbn. apply IH.
    do 9 (destruct s as [|? s]; [done|]); done || (destruct s; done). }
  by rewrite Hr.
Qed.

Lemma length_sum256 msg : length (SHA256.sum256 msg) = 32%nat.
Proof.
  unfold SHA256.sum256. assert (∀ bs st, length st = 8%nat → length (foldl SHA256.compress st bs) = 8%nat) as Hf.
  { intros bs. induction bs as [|b bs IH]; intros st Hs; [done|]. cbn. apply IH. by apply length_compress. }
  specialize (Hf (chunks 64 (SHA256.pad msg)) SHA256.initialState eq_refl).
  generalize dependent (foldl SHA256.compress SHA256.initialState (chunks 64 (SHA256.pad msg))). intros l Hl.
  assert (∀ l : list N, length (l ≫= be_bytes 4) = (4 * length l)%nat) as Hb.
  { intros m. induction m as [|x m IH]; [done|]. cbn [mbind list_bind]. change (list_bind _ _ (be_bytes 4) m) with (m ≫= be_bytes 4).
    rewrite length_app, IH, length_be_bytes. cbn. lia. }
  by rewrite Hb, Hl.
Qed.

Lemma length_hexEncode bs : String.length (hexEncode bs) = (2 * length bs)%nat.
Proof. induction bs as [|b bs IH]; [done|]. cbn [hexEncode String.length length]. rewrite IH. lia. Qed.
