(* ===== verification/Encryption.v ===== *)
(** * Secrets at rest (internal/auth/encryption.go, internal/util/hash.go)

    Encryption of a secret under a key derived from the master key and a fresh
    salt, its inverse, and the digests and random tokens stored in place of
    secrets. Argon2id is golang.org/x/crypto and is the section variable
    [IDKey]; what is used of it is that it returns as many bytes as it was asked
    for. *)

From S2P Require Import Prelude Crypto.

Definition keyLength : nat := 32.
Definition nonceLength : nat := 12.
Definition argonTime : Z := 1.
Definition argonMem : Z := 8 * 1024.
Definition argonThr : Z := 4.

Record KeyPair := MkKeyPair { Ciphertext : bytes; Nonce : bytes; Salt : bytes }.

Definition keyPair_eta (k : KeyPair) : KeyPair := MkKeyPair (Ciphertext k) (Nonce k) (Salt k).
#[export] Instance upd_Salt : Updater Salt := ltac:(derive_updater keyPair_eta).
#[export] Instance keyPair_eq_decision : EqDecision KeyPair.
Proof. solve_decision. Defined.

Section Encryption.
Context (IDKey : bytes → bytes → Z → Z → Z → nat → bytes).

Definition deriveKey (masterKey : string) (salt : bytes) : bytes :=
  IDKey (String.list_byte_of_string masterKey) salt argonTime argonMem argonThr keyLength.

Definition encryptWithKey (plaintext : string) (key : bytes) (rnd : Entropy) : call KeyPair * Entropy :=
  match aes.NewCipher key with
  | inl err => (Errs ("failed to create cipher: " +:+ err), rnd)
  | inr block =>
      match cipher.NewGCM block with
      | inl err => (Errs ("failed to create GCM: " +:+ err), rnd)
      | inr gcm =>
          let '(read, rnd) := ReadFull nonceLength rnd in
          match read with
          | inl err => (Errs ("failed to generate nonce: " +:+ err), rnd)
          | inr nonce =>
              (match Seal gcm nonce (String.list_byte_of_string plaintext) with
               | Returns ciphertext => Returns (MkKeyPair ciphertext nonce [])
               | Errs err => Errs err
               | Panics msg => Panics msg
               end, rnd)
          end
      end
  end.

Definition decryptWithKey (ciphertext nonce key : bytes) : call string :=
  match aes.NewCipher key with
  | inl err => Errs ("failed to create cipher: " +:+ err)
  | inr block =>
      match cipher.NewGCM block with
      | inl err => Errs ("failed to create GCM: " +:+ err)
      | inr gcm =>
          if negb (length nonce =? NonceSize gcm)%nat then
            Errs ("failed to decrypt: invalid nonce length " +:+ pretty (length nonce)
                    +:+ " (want " +:+ pretty (NonceSize gcm) +:+ ")")
          else
            match Open gcm nonce ciphertext with
            | Returns plaintext => Returns (String.string_of_list_byte plaintext)
            | Errs err => Errs ("failed to decrypt: " +:+ err)
            | Panics msg => Panics msg
            end
      end
  end.

Definition Encrypt (plaintext masterKey : string) (rnd : Entropy) : call KeyPair * Entropy :=
  let '(read, rnd) := ReadFull 32 rnd in
  match read with
  | inl err => (Errs ("failed to generate salt: " +:+ err), rnd)
  | inr salt =>
      let '(r, rnd) := encryptWithKey plaintext (deriveKey masterKey salt) rnd in
      (match r with
       | Returns kp => Returns (kp ⟦ Salt := salt ⟧)
       | Errs err => Errs err
       | Panics msg => Panics msg
       end, rnd)
  end.

Definition Decrypt (ciphertext nonce salt : bytes) (masterKey : string) : call string :=
  if (length salt =? 0)%nat then Errs "cannot decrypt: salt is required"
  else decryptWithKey ciphertext nonce (deriveKey masterKey salt).

(** ** Theorems *)

Context (IDKey_length : ∀ password salt t m p n, length (IDKey password salt t m p n) = n).

(** The sealer of a derived key. *)
Lemma derived_sealer masterKey salt :
  ∃ E g, blocks E ∧ aes.NewCipher (deriveKey masterKey salt) = inr (MkBlock 16 E) ∧
    cipher.NewGCM (MkBlock 16 E) = inr g ∧ NonceSize g = 12%nat.
Proof.
  unfold aes.NewCipher, deriveKey. rewrite IDKey_length.
  rewrite decide_True by (apply (bool_decide_unpack _); exact I).
  eexists _, _. split; [apply AES_blocks|]. by repeat split.
Qed.

Lemma ReadFull_spec n rnd :
  (n ≤ length rnd)%nat → ReadFull n rnd = (inr (take n rnd), drop n rnd).
Proof. intros Hn. unfold ReadFull. by rewrite decide_True. Qed.

Lemma ReadFull_app n bs rnd : length bs = n → ReadFull n (bs ++ rnd) = (inr bs, rnd).
Proof.
  intros <-. rewrite ReadFull_spec by (rewrite length_app; lia).
  by rewrite take_app_length, drop_app_length.
Qed.

Lemma ReadFull_inr n rnd bs rnd' :
  ReadFull n rnd = (inr bs, rnd') → length bs = n ∧ rnd = bs ++ rnd'.
Proof.
  unfold ReadFull. case_decide; [|done]. intros [= <- <-].
  split; [rewrite length_take; lia|by rewrite take_drop].
Qed.


(** C23. Only what was encrypted decrypts, and nothing stored can crash the
    process. [Decrypt] never panics: a missing salt, a nonce of the wrong length
    and a ciphertext that fails its tag are errors, whatever the bytes. And when
    it does return a plaintext, the stored triple is exactly the one [Encrypt]
    writes for that plaintext when it draws that salt and nonce. *)
Theorem decryption_authentic ciphertext nonce salt masterKey :
  (length salt = 0%nat ∨ length nonce ≠ nonceLength →
    ∃ err, Decrypt ciphertext nonce salt masterKey = Errs err) ∧
  (∀ msg, Decrypt ciphertext nonce salt masterKey ≠ Panics msg) ∧
  (∀ plaintext rest, length salt = 32%nat →
    Decrypt ciphertext nonce salt masterKey = Returns plaintext →
    Encrypt plaintext masterKey (salt ++ nonce ++ rest) = (Returns (MkKeyPair ciphertext nonce salt), rest)).
Proof.
  destruct (derived_sealer masterKey salt) as (E & g & HE & Hc & Hg & Hn).
  unfold Decrypt, decryptWithKey. rewrite Hc, Hg, Hn.
  destruct (Nat.eqb_spec (length salt) 0) as [H0|H0].
  { split; [eauto|]. split; [done|]. intros. lia. }
  destruct (Nat.eqb_spec (length nonce) 12) as [Hnonce|Hnonce]; cbn [negb].
  2: { split; [eauto|]. split; done. }
  split; [by intros [?|?]|]. split.
  - intros msg. destruct (Open g nonce ciphertext) as [| |m] eqn:Ho; [done..|].
    destruct (open_total E g Hg nonce Hnonce ciphertext m Ho).
  - intros plaintext rest Hsalt Hd. destruct (Open g nonce ciphertext) as [p| |] eqn:Ho; simplify_eq/=.
    pose proof (seal_open E HE g Hg nonce Hnonce ciphertext p Ho) as Hs.
    unfold Encrypt. rewrite ReadFull_app by done. unfold encryptWithKey. rewrite Hc, Hg, ReadFull_app by done.
    by rewrite String.list_byte_of_string_of_list_byte, Hs.
Qed.
End Encryption.

(** A concrete derivation for the witnesses: the password's and the salt's digest. *)
Definition demoIDKey (password salt : bytes) (_ _ _ : Z) (n : nat) : bytes :=
  take n (SHA256.sum256 (password ++ salt) ++ replicate n x00).

Lemma demoIDKey_length password salt t m p n : length (demoIDKey password salt t m p n) = n.
Proof. unfold demoIDKey. rewrite length_take, length_app, length_replicate. lia. Qed.


Lemma decryption_authentic_witness :
  ∃ err, Decrypt demoIDKey (counting 20) (counting 11) (counting 32) "master" = Errs err.
Proof.
  destruct (decryption_authentic demoIDKey demoIDKey_length (counting 20) (counting 11) (counting 32) "master")
    as [He _]. apply He. right. vm_compute. discriminate.
Defined.

(** ** Digests and tokens (internal/util/hash.go) *)

Definition SHA256Hex (s : string) : string := hexEncode (SHA256.sum256 (String.list_byte_of_string s)).

Definition RandomHex (nBytes : nat) (rnd : Entropy) : (string + string) * Entropy :=
  let '(read, rnd) := ReadFull nBytes rnd in
  (match read with inl err => inl err | inr b => inr (hexEncode b) end, rnd).

(** A token and the digest stored in its place. *)
Definition MintHexToken (nBytes : nat) (rnd : Entropy) : (string + string * string) * Entropy :=
  let '(read, rnd) := RandomHex nBytes rnd in
  (match read with inl err => inl err | inr token => inr (token, SHA256Hex token) end, rnd).

Lemma length_SHA256Hex s : String.length (SHA256Hex s) = 64%nat.
Proof. unfold SHA256Hex. by rewrite length_hexEncode, length_sum256. Qed.
