(* ===== verification/Threads.v ===== *)
(** * Handlers as interleaved programs

    A handler is a finite tree of atomic actions - a database statement, a lock, an
    atomic load - between which every other goroutine may run. [wp] is a
    rely-guarantee weakest precondition; [pool_sound] turns one proof per handler
    into an invariant of every interleaving of any number of requests. *)

From S2P Require Import Prelude.

Section Threads.
Context {Env World Event : Type}.

(** An action of goroutine [tid] reads [Env] from outside the process (clock,
    entropy, whether a statement fails); [None] is an action that must wait. *)
Inductive prog (A : Type) : Type :=
| Ret (a : A)
| Atom {B : Set} (act : nat → Env → World → option (B * World * list Event)) (k : B → prog A).
#[global] Arguments Ret {A}.
#[global] Arguments Atom {A B}.

Fixpoint prog_bind {A B} (k : A → prog B) (p : prog A) : prog B :=
  match p with
  | Ret a => k a
  | Atom act k' => Atom act (λ b, prog_bind k (k' b))
  end.

#[export] Instance prog_ret : MRet prog := λ A a, Ret a.
#[export] Instance prog_mbind : MBind prog := λ A B k p, prog_bind k p.

Definition act {B : Set} (f : nat → Env → World → option (B * World * list Event)) : prog B := Atom f Ret.

(** The world and what has been said, oldest first. *)
Definition St : Type := World * list Event.

(** A handler run without interference, the outside world answering as [ok]
    allows. *)
Fixpoint runs (ok : Env → Prop) (tid : nat) {A} (p : prog A) (s : St) (a : A) (s' : St) : Prop :=
  match p with
  | Ret x => x = a ∧ s = s'
  | Atom f k => ∃ e b w' said, ok e ∧ f tid e s.1 = Some (b, w', said) ∧ runs ok tid (k b) (w', s.2 ++ said) a s'
  end.

(** A handler that waits for nobody. *)
Fixpoint flows (tid : nat) {A} (p : prog A) : Prop :=
  match p with
  | Ret _ => True
  | Atom f k => ∀ e w, ∃ b w' said, f tid e w = Some (b, w', said) ∧ flows tid (k b)
  end.

(** Whatever it finds, what it comes back with satisfies [P]. *)
Fixpoint returns {A} (P : A → Prop) (p : prog A) : Prop :=
  match p with
  | Ret a => P a
  | Atom f k => ∀ b, returns P (k b)
  end.

Lemma returns_bind {A B} (P : A → Prop) (Q : B → Prop) (p : prog A) (k : A → prog B) :
  returns P p → (∀ a, P a → returns Q (k a)) → returns Q (p ≫= k).
Proof. unfold mbind, prog_mbind. intros Hp Hk. induction p as [x|C f k' IH]; cbn in *; auto. Qed.

Lemma returns_any {A} (p : prog A) : returns (λ _, True) p.
Proof. induction p; cbn; auto. Qed.

(** The same, computed from the outside world's answers. *)
Fixpoint exec (tid : nat) {A} (p : prog A) (es : list Env) (s : St) : option (A * St) :=
  match p with
  | Ret a => Some (a, s)
  | Atom f k =>
      match es with
      | [] => None
      | e :: es =>
          match f tid e s.1 with
          | Some (b, w', said) => exec tid (k b) es (w', s.2 ++ said)
          | None => None
          end
      end
  end.

Lemma exec_runs (ok : Env → Prop) tid {A} (p : prog A) es s a s' :
  Forall ok es → exec tid p es s = Some (a, s') → runs ok tid p s a s'.
Proof.
  revert es s. induction p as [x|B f k IH]; intros es s Hes Hx; cbn in *; [by simplify_eq|].
  destruct es as [|e es]; [done|]. inversion_clear Hes.
  destruct (f tid e s.1) as [[[b w'] said]|] eqn:Hf; [|done]. eauto 10.
Qed.

Lemma flows_runs (ok : Env → Prop) e tid {A} (p : prog A) s :
  ok e → flows tid p → ∃ a s', runs ok tid p s a s'.
Proof.
  intros He. revert s. induction p as [x|B f k IH]; intros s Hp; cbn in *; [eauto|].
  destruct (Hp e s.1) as (b & w' & said & Hf & Hk).
  destruct (IH b (w', s.2 ++ said) Hk) as (a & s' & Hr). eauto 10.
Qed.

Lemma flows_bind tid {A B} (p : prog A) (k : A → prog B) :
  flows tid p → (∀ a, flows tid (k a)) → flows tid (p ≫= k).
Proof.
  unfold mbind, prog_mbind. intros Hp Hk. induction p as [x|C f k' IH]; cbn in *; [done|].
  intros e w. destruct (Hp e w) as (b & w' & said & Hf & Hw). eauto 10.
Qed.

Lemma runs_bind ok tid {A B} (p : prog A) (k : A → prog B) s b s' :
  runs ok tid (p ≫= k) s b s' ↔ ∃ a s1, runs ok tid p s a s1 ∧ runs ok tid (k a) s1 b s'.
Proof.
  unfold mbind, prog_mbind. revert s. induction p as [x|C f k' IH]; intros s; cbn.
  - split; [by exists x, s|]. by intros (a & s1 & [-> ->] & H).
  - setoid_rewrite IH. naive_solver.
Qed.

(** ** Rely and guarantee *)

Section Rely.
Context (ok : Env → Prop) (inv : St → Prop) (guar : nat → St → St → Prop).

(** What the other goroutines may do meanwhile. *)
Definition rely (tid : nat) : St → St → Prop :=
  rtc (λ s s', inv s' ∧ ∃ other, other ≠ tid ∧ guar other s s').

Fixpoint wp (tid : nat) {A} (p : prog A) (Q : A → St → Prop) (s : St) : Prop :=
  match p with
  | Ret a => ∀ s', inv s' → rely tid s s' → Q a s'
  | Atom f k =>
      ∀ s' e b w' said, ok e → inv s' → rely tid s s' → f tid e s'.1 = Some (b, w', said) →
        let s'' := (w', s'.2 ++ said) in
        inv s'' ∧ guar tid s' s'' ∧ wp tid (k b) Q s''
  end.

Lemma wp_rely tid {A} (p : prog A) Q s s' : rely tid s s' → wp tid p Q s → wp tid p Q s'.
Proof.
  intros Hr. destruct p as [a|B f k]; cbn.
  - intros Hw s2 Hi H2. apply Hw; [done|]. by etransitivity.
  - intros Hw s2 e b w' said He Hi H2. apply Hw; [done..|]. by etransitivity.
Qed.

Lemma wp_conseq tid {A} (p : prog A) (Q Q' : A → St → Prop) s :
  (∀ a s', inv s' → Q a s' → Q' a s') → wp tid p Q s → wp tid p Q' s.
Proof.
  intros HQ. revert s. induction p as [a|B f k IH]; intros s; cbn.
  - auto.
  - intros Hw s' e b w' said He Hi Hr Hf. destruct (Hw s' e b w' said He Hi Hr Hf) as (? & ? & ?). auto.
Qed.

Lemma wp_returns tid {A} (P : A → Prop) (p : prog A) (Q : A → St → Prop) s :
  returns P p → wp tid p Q s → wp tid p (λ a s', P a ∧ Q a s') s.
Proof.
  revert s. induction p as [a|B f k IH]; intros s HP; cbn in *; [auto|].
  intros Hw s' e b w' said He Hi Hr Hf. destruct (Hw s' e b w' said He Hi Hr Hf) as (? & ? & ?). auto.
Qed.

Lemma wp_seq tid {A B} (p : prog A) (k : A → prog B) Q s :
  inv s → wp tid (p ≫= k) Q s ↔ wp tid p (λ a s', wp tid (k a) Q s') s.
Proof.
  unfold mbind, prog_mbind. intros Hi. revert s Hi. induction p as [a|C f k' IH]; intros s Hi; cbn.
  - split; [|intros Hw; apply Hw; [done|apply rtc_refl]]. intros Hw s' _ Hr. by eapply wp_rely.
  - split; intros Hw s' e b w' said He Hi' Hr Hf; destruct (Hw s' e b w' said He Hi' Hr Hf) as (Hi2 & Hg & Hk);
      (split; [done|split; [done|by apply IH]]).
Qed.
End Rely.

(** A goroutine that runs undisturbed. *)
Definition undisturbed (tid : nat) : nat → St → St → Prop := λ other _ _, other = tid.

Lemma rely_undisturbed tid s s' : rely (λ _, True) (undisturbed tid) tid s s' → s' = s.
Proof. intros Hr. destruct Hr as [|s s1 s2 (_ & other & Hne & Ho) _]; [done|]. by destruct Hne. Qed.

Lemma runs_wp ok tid {A} (p : prog A) Q s a s' :
  wp ok (λ _, True) (undisturbed tid) tid p Q s → runs ok tid p s a s' → Q a s'.
Proof.
  revert s. induction p as [x|B f k IH]; intros s; cbn.
  - intros Hw [-> ->]. apply Hw; [done|apply rtc_refl].
  - intros Hw (e & b & w' & said & He & Hf & Hr).
    destruct (Hw s e b w' said He I (rtc_refl _ _) Hf) as (_ & _ & Hk). by eapply IH.
Qed.

(** Programs with the same specifications, as [(p >>= k) >>= h] and
    [p >>= fun a => k a >>= h] have. *)
#[export] Instance prog_equiv {A} : Equiv (prog A) := λ p q,
  ∀ ok inv guar tid Q s, inv s → wp ok inv guar tid p Q s ↔ wp ok inv guar tid q Q s.

#[export] Instance prog_equivalence {A} : Equivalence (≡@{prog A}).
Proof.
  split.
  - intros p ok inv guar tid Q s Hi. done.
  - intros p q H ok inv guar tid Q s Hi. symmetry. by apply H.
  - intros p q r H1 H2 ok inv guar tid Q s Hi. etransitivity; [by apply H1|by apply H2].
Qed.

#[export] Instance prog_bind_proper {A B} :
  Proper (pointwise_relation A (≡) ==> (≡) ==> (≡@{prog B})) (mbind (M := prog)).
Proof.
  intros k h Hk p q Hp ok inv guar tid Q s Hi. rewrite !wp_seq by done. rewrite (Hp _ _ _ _ _ _ Hi).
  split; apply wp_conseq; intros a s' Hi'; by apply Hk.
Qed.

Lemma prog_bind_assoc {A B C} (p : prog A) (k : A → prog B) (h : B → prog C) :
  (p ≫= k) ≫= h ≡ p ≫= (λ a, k a ≫= h).
Proof.
  intros ok inv guar tid Q s Hi. rewrite !wp_seq by done.
  split; apply wp_conseq; intros a s' Hi'; by apply wp_seq.
Qed.

(** ** The pool of requests in flight *)

Section Pool.
Context (ok : Env → Prop) (inv : St → Prop) (guar : nat → St → St → Prop) {R : Type}.

(** A request being served and what is promised of its result. *)
Record task := MkTask { body : prog R; promise : nat → R → St → Prop }.

Context (request : task → Prop).

Inductive pool_step : list task * St → list task * St → Prop :=
| step_arrive t ts s : request t → pool_step (ts, s) (ts ++ [t], s)
| step_act {B : Set} tid t f (k : B → prog R) ts e w h b w' said :
    ts !! tid = Some t → body t = Atom f k →
    ok e → f tid e w = Some (b, w', said) →
    pool_step (ts, (w, h)) (<[tid := MkTask (k b) (promise t)]> ts, (w', h ++ said)).

Lemma pool_sound (s0 : St) ts s :
  inv s0 →
  (∀ t, request t → ∀ tid s', inv s' → wp ok inv guar tid (body t) (promise t tid) s') →
  rtc pool_step ([], s0) (ts, s) →
  inv s ∧ ∀ tid t, ts !! tid = Some t → wp ok inv guar tid (body t) (promise t tid) s.
Proof.
  intros Hi Hreq Hr. revert ts s Hr.
  enough (∀ c, rtc pool_step ([], s0) c →
    inv c.2 ∧ ∀ tid t, c.1 !! tid = Some t → wp ok inv guar tid (body t) (promise t tid) c.2) as H
    by (intros ts s Hr; exact (H _ Hr)).
  refine (rtc_ind_r _ _ _ _); [by split|].
  intros c1 c2 _ Hs [Hinv Hwp]. destruct Hs as [t ts s Ht|B tid t f k ts e w h b w' said Ht Hb He Hf]; cbn in *.
  - split; [done|]. intros tid q [Hq|[_ Hq]]%lookup_app_Some; [by apply Hwp|].
    apply list_lookup_singleton_Some in Hq as [_ <-]. by apply Hreq.
  - pose proof (Hwp tid _ Ht) as Hw. rewrite Hb in Hw.
    destruct (Hw (w, h) e b w' said) as (Hi' & Hg & Hk); [done|done|apply rtc_refl|done|].
    split; [done|]. intros tid' q. destruct (decide (tid' = tid)) as [->|Hne].
    + rewrite list_lookup_insert_eq by (by eapply lookup_lt_Some). by intros [= <-].
    + rewrite list_lookup_insert_ne by done. intros Hq.
      eapply wp_rely; [|by apply Hwp]. apply rtc_once. split; [done|]. eauto.
Qed.

(** A request that has been answered keeps its promise, whatever ran meanwhile. *)
Lemma pool_promise (s0 : St) ts s tid t r :
  inv s0 →
  (∀ t, request t → ∀ tid s', inv s' → wp ok inv guar tid (body t) (promise t tid) s') →
  rtc pool_step ([], s0) (ts, s) →
  ts !! tid = Some t → body t = Ret r → promise t tid r s.
Proof.
  intros Hi Hreq Hr Ht Hb. destruct (pool_sound s0 ts s Hi Hreq Hr) as [Hinv Hw].
  specialize (Hw tid t Ht). rewrite Hb in Hw. apply Hw; [done|apply rtc_refl].
Qed.

(** Every step of the pool is one a goroutine guarantees. *)
Lemma pool_guarantee (s0 : St) ts s ts' s' :
  inv s0 →
  (∀ t, request t → ∀ tid s', inv s' → wp ok inv guar tid (body t) (promise t tid) s') →
  rtc pool_step ([], s0) (ts, s) → pool_step (ts, s) (ts', s') →
  s' = s ∨ ∃ tid t, ts !! tid = Some t ∧ inv s ∧ inv s' ∧ guar tid s s'.
Proof.
  intros Hi Hreq Hr Hs. destruct (pool_sound s0 ts s Hi Hreq Hr) as [Hinv Hw].
  remember (ts, s) as c1 eqn:H1. remember (ts', s') as c2 eqn:H2.
  destruct Hs as [t ts1 s1 Ht|B tid t f k ts1 e w h b w' said Ht Hb He Hf]; simplify_eq; [by left|].
  right. exists tid, t. pose proof (Hw tid t Ht) as Hwp. rewrite Hb in Hwp.
  destruct (Hwp (w, h) e b w' said) as (Hi' & Hg & _); [done|done|apply rtc_refl|done|]. done.
Qed.

(** A schedule: a request arrives, or one in flight makes its next action. *)
Fixpoint play (moves : list (task + nat * Env)) (c : list task * St) : option (list task * St) :=
  match moves with
  | [] => Some c
  | inl t :: moves => play moves (c.1 ++ [t], c.2)
  | inr (tid, e) :: moves =>
      match c.1 !! tid with
      | Some (MkTask (Atom f k) done_) =>
          match f tid e c.2.1 with
          | Some (b, w', said) => play moves (<[tid := MkTask (k b) done_]> c.1, (w', c.2.2 ++ said))
          | None => None
          end
      | _ => None
      end
  end.

Lemma play_steps moves c c' :
  Forall (λ m, match m with inl t => request t | inr (_, e) => ok e end) moves →
  play moves c = Some c' → rtc pool_step c c'.
Proof.
  revert c. induction moves as [|[t|[tid e]] moves IH]; intros [ts [w h]] Hm; cbn.
  - intros [= <-]. apply rtc_refl.
  - apply Forall_cons in Hm as [Ht Hm]. intros Hp. eapply rtc_l; [by apply step_arrive|]. by apply IH.
  - apply Forall_cons in Hm as [He Hm]. destruct (ts !! tid) as [[[r|B f k] done_]|] eqn:Ht; [done| |done].
    destruct (f tid e w) as [[[b w'] said]|] eqn:Hf; [|done]. intros Hp. eapply rtc_l; [|by apply IH].
    by apply (step_act tid (MkTask (Atom f k) done_) f k ts e w h b w' said).
Qed.

Lemma play_step tid e c c' : ok e → play [inr (tid, e)] c = Some c' → pool_step c c'.
Proof.
  destruct c as [ts [w h]]. intros He. cbn. destruct (ts !! tid) as [[[r|B f k] done_]|] eqn:Ht; [done| |done].
  destruct (f tid e w) as [[[b w'] said]|] eqn:Hf; [|done]. intros [= <-].
  by apply (step_act tid (MkTask (Atom f k) done_) f k ts e w h b w' said).
Qed.
End Pool.
End Threads.

(** An undisturbed goroutine finds what it left. *)
Ltac undisturbed := repeat match goal with H : rely _ _ _ _ _ |- _ => apply rely_undisturbed in H; subst end.

(** What a computed run ends in, for runs too large to destruct. *)
Lemma ends_in {A} (o : option A) (P : A → Prop) :
  match o with Some a => P a | None => False end → ∃ a, o = Some a ∧ P a.
Proof. destruct o as [a|]; [|done]. intros Ha. by exists a. Qed.
