(* ===== verification/Circuit.v ===== *)
(** * One model circuit (internal/failover: circuitbreaker.go, model_circuits.go,
      circuit_status.go)

    The record behind one (provider, resolved upstream model) pair and the
    methods that touch nothing else: the verdict stamp, the reopen window and
    the rate-limit-open streak. *)

From S2P Require Import Prelude.

(** ** Breaker states *)

Inductive State := StateClosed | StateOpen | StateHalfOpen.

#[export] Instance State_eq_dec : EqDecision State.
Proof. solve_decision. Defined.

Definition State_String (s : State) : string :=
  match s with
  | StateClosed => "closed"
  | StateOpen => "open"
  | StateHalfOpen => "half-open"
  end.

(** How much a logical state blocks traffic. *)
Definition stateRank (s : State) : Z :=
  match s with
  | StateOpen => 2
  | StateHalfOpen => 1
  | StateClosed => 0
  end.

(** ** Causes *)

Record Cause := MkCause { Status : Z; Reason : string }.

Definition UpstreamStatus (status : Z) (qualifier : string) : Cause :=
  let reason := "upstream status " +:+ pretty status in
  MkCause status
    (if decide (qualifier = "") then reason else reason +:+ " (" +:+ qualifier +:+ ")").

Definition causeSuccess := "success".
Definition causeSaturated := "saturated".
Definition causeExhausted := "exhausted".
Definition causeAlive := "alive".
Definition causePinRetargeted := "quota pin retargeted (advisor)".
Definition causeSeeded := "quota pin seeded (advisor)".
Definition causePinReleasedQuota := "quota pin released (provider no longer exhausted)".
Definition causePinReleasedOff := "quota pin released (quota polling disabled)".

(** ** The circuit *)

Record circuit := MkCircuit {
  state : State;
  consecutiveFails : Z;
  openedAt : Time;
  halfOpenProbes : Z;
  cooldownOverride : Duration;
  failedProbes : Z;
  cooldownBackoff : Duration;
  lastCharged : Time;
  lastSuccess : Time;
  pinSource : string;
  probeSeed : float64;
  lastCause : string;
  lastStatus : Z;
  lastAt : Time;
  opens429Streak : Z;
  open429WindowStart : Time;
  opens : Z;
  openWindowStart : Time;
  unstableReported : bool
}.

Definition circuit_eta (c : circuit) : circuit :=
  MkCircuit (state c) (consecutiveFails c) (openedAt c) (halfOpenProbes c)
    (cooldownOverride c) (failedProbes c) (cooldownBackoff c) (lastCharged c)
    (lastSuccess c) (pinSource c) (probeSeed c) (lastCause c) (lastStatus c)
    (lastAt c) (opens429Streak c) (open429WindowStart c) (opens c)
    (openWindowStart c) (unstableReported c).

#[export] Instance upd_state : Updater state := ltac:(derive_updater circuit_eta).
#[export] Instance upd_consecutiveFails : Updater consecutiveFails := ltac:(derive_updater circuit_eta).
#[export] Instance upd_openedAt : Updater openedAt := ltac:(derive_updater circuit_eta).
#[export] Instance upd_halfOpenProbes : Updater halfOpenProbes := ltac:(derive_updater circuit_eta).
#[export] Instance upd_cooldownOverride : Updater cooldownOverride := ltac:(derive_updater circuit_eta).
#[export] Instance upd_failedProbes : Updater failedProbes := ltac:(derive_updater circuit_eta).
#[export] Instance upd_cooldownBackoff : Updater cooldownBackoff := ltac:(derive_updater circuit_eta).
#[export] Instance upd_lastCharged : Updater lastCharged := ltac:(derive_updater circuit_eta).
#[export] Instance upd_lastSuccess : Updater lastSuccess := ltac:(derive_updater circuit_eta).
#[export] Instance upd_pinSource : Updater pinSource := ltac:(derive_updater circuit_eta).
#[export] Instance upd_probeSeed : Updater probeSeed := ltac:(derive_updater circuit_eta).
#[export] Instance upd_lastCause : Updater lastCause := ltac:(derive_updater circuit_eta).
#[export] Instance upd_lastStatus : Updater lastStatus := ltac:(derive_updater circuit_eta).
#[export] Instance upd_lastAt : Updater lastAt := ltac:(derive_updater circuit_eta).
#[export] Instance upd_opens429Streak : Updater opens429Streak := ltac:(derive_updater circuit_eta).
#[export] Instance upd_open429WindowStart : Updater open429WindowStart := ltac:(derive_updater circuit_eta).
#[export] Instance upd_opens : Updater opens := ltac:(derive_updater circuit_eta).
#[export] Instance upd_openWindowStart : Updater openWindowStart := ltac:(derive_updater circuit_eta).
#[export] Instance upd_unstableReported : Updater unstableReported := ltac:(derive_updater circuit_eta).

(** Reads of written fields reduced, and nothing else. *)
Ltac circuit_fields :=
  cbn [update_field
       state consecutiveFails openedAt halfOpenProbes cooldownOverride failedProbes
       cooldownBackoff lastCharged lastSuccess pinSource probeSeed lastCause lastStatus
       lastAt opens429Streak open429WindowStart opens openWindowStart unstableReported
       upd_state upd_consecutiveFails upd_openedAt upd_halfOpenProbes upd_cooldownOverride
       upd_failedProbes upd_cooldownBackoff upd_lastCharged upd_lastSuccess upd_pinSource
       upd_probeSeed upd_lastCause upd_lastStatus upd_lastAt upd_opens429Streak
       upd_open429WindowStart upd_opens upd_openWindowStart upd_unstableReported].

(** The zero value [&circuit{state: StateClosed}]. *)
Definition newCircuit : circuit :=
  MkCircuit StateClosed 0 zeroTime 0 0 0 0 zeroTime zeroTime "" (F64 0 (-53)) "" 0
    zeroTime 0 zeroTime 0 zeroTime false.

(** ** The verdict stamp and the open windows *)

Definition reopenWindow : Duration := 24 * Hour.
Definition opensBeforeEscalation : Z := 3.
Definition reopenWindowLabel : string := pretty (reopenWindow / Hour) +:+ "h".

Definition note (c : circuit) (now : Time) (cause : Cause) : circuit :=
  c ⟦ lastCause := Reason cause ⟧ ⟦ lastStatus := Status cause ⟧ ⟦ lastAt := now ⟧.

Definition noteOpen (c : circuit) (now : Time) : circuit * bool :=
  if IsZero (openWindowStart c) || (reopenWindow <? Sub now (openWindowStart c)) then
    (c ⟦ openWindowStart := now ⟧ ⟦ opens := 1 ⟧ ⟦ unstableReported := false ⟧, false)
  else
    let c := c ⟦ opens := opens c + 1 ⟧ in
    if (opens c <? opensBeforeEscalation) || unstableReported c then (c, false)
    else (c ⟦ unstableReported := true ⟧, true).

Definition note429Open (c : circuit) (now : Time) (by429 : bool) : circuit :=
  if negb by429 then c ⟦ opens429Streak := 0 ⟧ ⟦ open429WindowStart := zeroTime ⟧
  else if IsZero (open429WindowStart c) || (reopenWindow <? Sub now (open429WindowStart c)) then
    c ⟦ open429WindowStart := now ⟧ ⟦ opens429Streak := 1 ⟧
  else c ⟦ opens429Streak := opens429Streak c + 1 ⟧.

Definition exhaustedEscalated (c : circuit) : bool :=
  opensBeforeEscalation <=? opens429Streak c.

Definition clear429Escalation (c : circuit) : circuit :=
  c ⟦ opens429Streak := 0 ⟧ ⟦ open429WindowStart := zeroTime ⟧.

(** ** Pin sources *)

Definition pinSourceAdvisor := "advisor".
Definition pinSourceReserve := "reserve".
Definition pinSourceResponse := "response".
Definition pinSourceAccount := "account".

Definition pinProbes (source : string) : bool :=
  bool_decide (source = pinSourceResponse) || bool_decide (source = pinSourceAccount).

Definition pinSpeaksForAccount (source : string) : bool :=
  bool_decide (source = pinSourceAdvisor) || bool_decide (source = pinSourceReserve)
  || bool_decide (source = pinSourceAccount).

(** ** Runs of open transitions *)

(** The reports drawn along a run of opens, each with the start of the window
    it was drawn from. *)
Fixpoint unstableReports (c : circuit) (ts : list Time) : list (Time * Time) :=
  match ts with
  | [] => []
  | t :: ts =>
      let '(c', escalate) := noteOpen c t in
      (if escalate then [(openWindowStart c', t)] else []) ++ unstableReports c' ts
  end.

(** The instants are real and do not run backwards. *)
Fixpoint opensFrom (from : Time) (ts : list Time) : Prop :=
  match ts with
  | [] => True
  | t :: ts => from ≤ t ∧ 0 < t ∧ opensFrom t ts
  end.

(** ** Lemmas *)

Lemma window_over t w : reopenWindow <? Sub t w = (reopenWindow <? t - w).
Proof.
  unfold Sub, sat64, int64_min, int64_max, reopenWindow, Hour, Minute, Second.
  destruct (Z.ltb_spec (24 * (60 * (60 * 1000000000))) (t - w)); [apply Z.ltb_lt|apply Z.ltb_ge]; lia.
Qed.

(** The outcome of one open, case by case. *)
Lemma noteOpen_cases c t :
  let '(c', escalate) := noteOpen c t in
  (openWindowStart c' = t ∧ unstableReported c' = false ∧ opens c' = 1 ∧ escalate = false ∧
     (openWindowStart c = 0 ∨ openWindowStart c + reopenWindow < t)) ∨
  (openWindowStart c' = openWindowStart c ∧ openWindowStart c ≠ 0 ∧ t ≤ openWindowStart c + reopenWindow ∧
     opens c' = opens c + 1 ∧
     unstableReported c' = (unstableReported c || (opensBeforeEscalation <=? opens c + 1)) ∧
     escalate = negb (unstableReported c) && (opensBeforeEscalation <=? opens c + 1)).
Proof.
  unfold noteOpen. rewrite window_over. unfold IsZero, zeroTime.
  destruct (Z.eqb_spec (openWindowStart c) 0) as [H0|H0]; cbn [orb].
  { left. circuit_fields. auto 10. }
  destruct (Z.ltb_spec reopenWindow (t - openWindowStart c)) as [Hlt|Hge].
  { left. circuit_fields. split_and!; try done. right. lia. }
  change (opens (c ⟦ opens := opens c + 1 ⟧)) with (opens c + 1).
  change (unstableReported (c ⟦ opens := opens c + 1 ⟧)) with (unstableReported c). cbn zeta.
  destruct (Z.ltb_spec (opens c + 1) opensBeforeEscalation), (Z.leb_spec opensBeforeEscalation (opens c + 1)); try lia;
    cbn [orb]; destruct (unstableReported c) eqn:Hr; right; circuit_fields; rewrite ?Hr; split_and!; try done; lia.
Qed.

Lemma unstableReports_windows c from ts :
  opensFrom from ts → openWindowStart c ≤ from →
  (unstableReported c = true → openWindowStart c ≠ 0) →
  Forall (fun wr => openWindowStart c ≤ wr.1 ∧ wr.1 ≤ wr.2 ≤ wr.1 + reopenWindow ∧
     (unstableReported c = true → openWindowStart c + reopenWindow < wr.1)) (unstableReports c ts) ∧
  StronglySorted (fun a b => a.1 + reopenWindow < b.1) (unstableReports c ts).
Proof.
  revert c from. induction ts as [|t ts IH]; intros c from Hts Hw Hr; simpl; [split; constructor|].
  destruct Hts as (Hle & Hpos & Hts). pose proof (noteOpen_cases c t) as Hc.
  destruct (noteOpen c t) as [c' esc].
  assert (openWindowStart c ≤ openWindowStart c' ≤ t ∧ (unstableReported c' = true → openWindowStart c' ≠ 0)) as [Hw' Hr'].
  { destruct Hc as [(-> & -> & _)|(-> & ? & _)]; (split; [lia|done]). }
  destruct (IH c' t Hts ltac:(lia) Hr') as [Hall Hsort]. split.
  - apply Forall_app. split.
    + destruct esc; [|constructor]. constructor; [|constructor]. simpl.
      destruct Hc as [(_ & _ & _ & ? & _)|(-> & ? & ? & _ & _ & He)]; [done|]. symmetry in He.
      apply andb_true_iff in He as [He%negb_true_iff _]. split_and!; try lia. congruence.
    + eapply Forall_impl; [exact Hall|]. intros wr (H1 & H2 & H3). split_and!; try lia.
      intros Hrep. destruct Hc as [(Heq & _ & _ & _ & [H0|H0])|(Heq & _ & _ & _ & Hu & _)].
      * by destruct (Hr Hrep).
      * lia.
      * rewrite Heq in H3. apply H3. by rewrite Hu, Hrep.
  - destruct esc; simpl; [|done]. constructor; [done|]. eapply Forall_impl; [exact Hall|]. intros wr (_ & _ & H3). simpl.
    apply H3. destruct Hc as [(_ & _ & _ & ? & _)|(_ & _ & _ & _ & -> & He)]; [done|]. symmetry in He.
    apply andb_true_iff in He as [_ ->]. by rewrite orb_true_r.
Qed.

(** ** Properties *)

(** A chronically failing model is reported, and not per cooldown: along any
    run of opens, a report is drawn at most once per window, windows do not
    overlap, and so no three reports fall within one [reopenWindow]. *)
Lemma unstableReports_bounded ts :
  opensFrom 0 ts →
  let rs := unstableReports newCircuit ts in
  StronglySorted (fun a b => a.1 + reopenWindow < b.1) rs ∧
  Forall (fun wr => wr.1 ≤ wr.2 ≤ wr.1 + reopenWindow) rs ∧
  (∀ i a b c, rs !! i = Some a → rs !! S i = Some b → rs !! S (S i) = Some c → a.2 + reopenWindow < c.2).
Proof.
  intros Hts rs. destruct (unstableReports_windows newCircuit 0 ts Hts) as [Hall Hsort]; [done|done|].
  fold rs in Hall, Hsort. split; [done|]. split.
  { eapply Forall_impl; [exact Hall|]. intros wr (_ & H & _). done. }
  intros i a b c Ha Hb Hc. rewrite Forall_lookup in Hall.
  destruct (Hall _ _ Ha) as (_ & Ha' & _). destruct (Hall _ _ Hc) as (_ & Hc' & _).
  assert (∀ i j x y, (i < j)%nat → rs !! i = Some x → rs !! j = Some y → x.1 + reopenWindow < y.1) as Hs.
  { intros i' j x y Hij Hx Hy. by apply (sorted_pair _ _ _ _ _ _ Hsort Hij Hx Hy). }
  pose proof (Hs i (S i) a b ltac:(lia) Ha Hb). pose proof (Hs (S i) (S (S i)) b c ltac:(lia) Hb Hc). lia.
Qed.

Lemma unstableReports_bounded_witness :
  let ts := (fun i => Hour + Z.of_nat i * (2 * Hour)) <$> seq 0 40 in
  (unstableReports newCircuit ts).*2 = [5 * Hour; 31 * Hour; 57 * Hour] ∧
  StronglySorted (fun a b => a.1 + reopenWindow < b.1) (unstableReports newCircuit ts).
Proof.
  intros ts. split; [vm_compute; reflexivity|].
  apply (unstableReports_bounded ts). repeat split; evaluate.
Defined.

(** ** What modelling showed *)

(** One report does not cost a full [reopenWindow] before the next: a report
    late in one window can be followed minutes later by a report early in the
    next. *)
Theorem reports_minutes_apart :
  let ts := [Hour; Hour + Minute; 25 * Hour; 25 * Hour + Minute; 25 * Hour + 2 * Minute; 25 * Hour + 3 * Minute] in
  (unstableReports newCircuit ts).*2 = [25 * Hour; 25 * Hour + 3 * Minute].
Proof. vm_compute. reflexivity. Qed.

(** The open window is anchored at its first open, where the gone streak's is
    renewed by every strike: opens twenty hours apart never add up. *)
Theorem open_window_is_anchored :
  let ts := (fun i => Hour + Z.of_nat i * (20 * Hour)) <$> seq 0 12 in
  unstableReports newCircuit ts = [].
Proof. vm_compute. reflexivity. Qed.
