(* ===== verification/Cooldown.v ===== *)
(** * The cooldown governing a circuit (internal/failover: model_circuits.go,
      circuit_quota.go)

    The breaker value, the settings it reads, and the pure arithmetic of the
    three waits a circuit can serve: the configured cooldown, the probe backoff
    and the quota pin. *)

From S2P Require Import Prelude Circuit.

(** ** The breaker *)

(** The settings repository shim the breaker is built with; [GetInt] and
    [GetDuration] answer the default for an absent or unreadable row. *)
Record SettingsReader := {
  GetInt : string → Z → Z;
  GetDuration : string → Duration → Duration;
  GetBool : string → bool → bool
}.

Record QuotaAdvice := MkAdvice { ResetsAt : Time; Reserved : bool }.

(** [Advice] of the installed quota advisor, keyed by the provider's UUID
    string; [None] is the Go [ok == false]. *)
Definition QuotaAdvisor : Type := string → option QuotaAdvice.

Abbreviation modelCircuits := (gmap string circuit) (only parsing).

Record CircuitBreaker := MkBreaker {
  circuits : gmap string (gmap string circuit);
  names : gmap string string;
  settings : option SettingsReader;
  quota : option QuotaAdvisor;
  onOpen : bool;             (* whether an open-transition callback is wired *)
  Threshold : Z;
  SpanModels : Z;
  Cooldown : Duration;
  HalfOpenMaxProbes : Z
}.

Definition breaker_eta (cb : CircuitBreaker) : CircuitBreaker :=
  MkBreaker (circuits cb) (names cb) (settings cb) (quota cb) (onOpen cb)
    (Threshold cb) (SpanModels cb) (Cooldown cb) (HalfOpenMaxProbes cb).

#[export] Instance upd_circuits : Updater circuits := ltac:(derive_updater breaker_eta).
#[export] Instance upd_names : Updater names := ltac:(derive_updater breaker_eta).
#[export] Instance upd_quota : Updater quota := ltac:(derive_updater breaker_eta).
#[export] Instance upd_onOpen : Updater onOpen := ltac:(derive_updater breaker_eta).

Definition defaultSpanModels : Z := 2.
Definition defaultBackoffMax : Duration := 15 * Minute.
Definition defaultPinProbeInterval : Duration := Hour.
Definition defaultQuotaPinMax : Duration := 24 * Hour.
Definition maxModelCircuitsPerProvider : nat := 256.

Definition NewCircuitBreaker (s : option SettingsReader) : CircuitBreaker :=
  MkBreaker ∅ ∅ s None false 5 defaultSpanModels (60 * Second) 1.

Definition SetQuotaAdvisor (cb : CircuitBreaker) (a : option QuotaAdvisor) : CircuitBreaker :=
  cb ⟦ quota := a ⟧.

Definition SetOnOpen (cb : CircuitBreaker) (wired : bool) : CircuitBreaker :=
  cb ⟦ onOpen := wired ⟧.

(** What one critical section reads from outside the breaker: the clock, and
    the draws of [math/rand] (at most one integer and one float per circuit,
    so both are keyed by provider and model). [randFloat] is the 53-bit
    numerator of [rand.Float64]. *)
Record Env := MkEnv {
  now : Time;
  randInt64N : string → string → Z → Z;
  randFloat : string → string → Z
}.

Record env_ok (e : Env) : Prop := {
  env_now : 0 < now e;
  env_rand p m n : 0 < n → 0 ≤ randInt64N e p m n < n;
  env_float p m : 0 ≤ randFloat e p m < 2 ^ 53
}.

(** [rand.Float64()]: a multiple of 2^-53 in [0, 1). *)
Definition Float64 (e : Env) (p m : string) : float64 := F64 (randFloat e p m) (-53).

(** ** Settings reads *)

Definition effectiveThreshold (cb : CircuitBreaker) : Z :=
  match settings cb with
  | Some s =>
      let v := GetInt s "circuit_breaker_threshold" 0 in
      if 0 <? v then v else Threshold cb
  | None => Threshold cb
  end.

Definition effectiveSpan (cb : CircuitBreaker) : Z :=
  let span :=
    match settings cb with
    | Some s =>
        let v := GetInt s "circuit_breaker_span_models" 0 in
        if 0 <? v then v else SpanModels cb
    | None => SpanModels cb
    end in
  if span <? 1 then 1 else span.

Definition effectiveCooldown (cb : CircuitBreaker) : Duration :=
  match settings cb with
  | Some s =>
      let v := GetDuration s "circuit_breaker_cooldown" 0 in
      if 0 <? v then v else Cooldown cb
  | None => Cooldown cb
  end.

Definition ceilingOrDefault (reader : option SettingsReader) (key : string) (def : Duration) : Duration :=
  match reader with
  | None => def
  | Some s => Z.max (GetDuration s key def) 0
  end.

Definition backoffMax (cb : CircuitBreaker) : Duration :=
  ceilingOrDefault (settings cb) "circuit_breaker_backoff_max" defaultBackoffMax.

Definition quotaPinMax (cb : CircuitBreaker) : Duration :=
  ceilingOrDefault (settings cb) "circuit_breaker_quota_pin_max" defaultQuotaPinMax.

Definition quotaPinEnabled (cb : CircuitBreaker) : bool := 0 <? quotaPinMax cb.

Definition pinProbeInterval (cb : CircuitBreaker) : Duration :=
  match settings cb with
  | Some s => GetDuration s "circuit_breaker_pin_probe_interval" defaultPinProbeInterval
  | None => defaultPinProbeInterval
  end.

(** One walk's settings reads. The Go struct reads the three switches lazily
    and caches them; the values are those of the walk's settings either way. *)
Record cooldownReads := MkReads {
  base : Duration;
  r_backoffMax : Duration;
  r_pinMax : Duration;
  r_pinProbe : Duration
}.

Definition cooldowns (cb : CircuitBreaker) : cooldownReads :=
  MkReads (effectiveCooldown cb) (backoffMax cb) (quotaPinMax cb) (pinProbeInterval cb).

Definition backoffEnabled (r : cooldownReads) : bool := 0 <? r_backoffMax r.
Definition pinEnabled (r : cooldownReads) : bool := 0 <? r_pinMax r.

(** ** The wait a circuit serves *)

Definition backedOffForWith (c : circuit) (r : cooldownReads) : bool :=
  (base r <? cooldownBackoff c) && backoffEnabled r.

Definition quotaPinnedForWith (c : circuit) (r : cooldownReads) : bool :=
  (0 <? cooldownOverride c) && pinEnabled r.

Definition pinSourceForWith (c : circuit) (r : cooldownReads) : string :=
  if negb (quotaPinnedForWith c r) then "" else pinSource c.

Definition unpinnedCooldownWith (c : circuit) (r : cooldownReads) : Duration :=
  if backedOffForWith c r then cooldownBackoff c else base r.

(** [time.Duration(c.probeSeed*float64(probe)/20)]. *)
Definition probeSpread (c : circuit) (probe : Duration) : Duration :=
  f64_trunc (f64_div_int (f64_mul (probeSeed c) (f64_of_int probe)) 20).

Definition effectiveCooldownForWith (c : circuit) (r : cooldownReads) : Duration :=
  let cooldown := unpinnedCooldownWith c r in
  if negb (quotaPinnedForWith c r) || (cooldownOverride c <=? cooldown) then cooldown else
  let pinned := cooldownOverride c in
  if pinProbes (pinSource c) then
    let probe := r_pinProbe r in
    if 0 <? probe then
      Z.min pinned (wrap64 (Z.max probe cooldown + probeSpread c probe))
    else pinned
  else pinned.

Definition stillDark (e : Env) (c : circuit) (r : cooldownReads) : bool :=
  if IsZero (openedAt c) then true
  else Sub (now e) (openedAt c) <? effectiveCooldownForWith c r.

Definition blocking (e : Env) (c : circuit) (r : cooldownReads) : bool :=
  bool_decide (state c = StateOpen) && stillDark e c r.

Definition logicalStateWith (e : Env) (c : circuit) (r : cooldownReads) : State :=
  if bool_decide (state c = StateOpen) && negb (stillDark e c r) then StateHalfOpen
  else state c.

(** ** The probe backoff *)

(** The doubling loop, [n] iterations left. *)
Fixpoint doubleUpTo (n : nat) (d ceiling : Duration) : Duration :=
  match n with
  | O => d
  | S n => if Z.quot ceiling 2 <? d then ceiling else doubleUpTo n (wrap64 (d * 2)) ceiling
  end.

Definition applyBackoff (cb : CircuitBreaker) (c : circuit) : circuit :=
  let c := c ⟦ cooldownBackoff := 0 ⟧ in
  if failedProbes c =? 0 then c else
  let base := effectiveCooldown cb in
  let ceiling := backoffMax cb in
  if ceiling <=? 0 then c else
  let ceiling := if exhaustedEscalated c then Z.max ceiling (quotaPinMax cb) else ceiling in
  if (base <=? 0) || (ceiling <=? base) then c else
  c ⟦ cooldownBackoff := doubleUpTo (Z.to_nat (failedProbes c)) base ceiling ⟧.

(** ** The quota pin *)

Definition clampPin (e : Env) (p m : string) (d ceiling floor : Duration) : option Duration :=
  let d := if ceiling <? d then ceiling else d in
  if d <=? floor then None else
  let spread := Z.quot d 20 in
  Some (if 0 <? spread then wrap64 (d + randInt64N e p m (spread + 1)) else d).

Definition advisorPinSource (adv : QuotaAdvice) : string :=
  if Reserved adv then pinSourceReserve else pinSourceAdvisor.

Definition applyQuotaPin (e : Env) (cb : CircuitBreaker) (providerID model : string)
    (c : circuit) (exhaustHint : Duration) (account : bool) : circuit :=
  let c := c ⟦ cooldownOverride := 0 ⟧ ⟦ pinSource := "" ⟧ in
  if negb (quotaPinEnabled cb) then c else
  let hinted := (exhaustHint, if account then pinSourceAccount else pinSourceResponse) in
  let '(d, source) :=
    match quota cb with
    | Some advice =>
        match advice providerID with
        | Some adv =>
            if After (ResetsAt adv) (now e)
            then (Sub (ResetsAt adv) (now e), advisorPinSource adv) else hinted
        | None => hinted
        end
    | None => hinted
    end in
  match clampPin e providerID model d (quotaPinMax cb) (unpinnedCooldownWith c (cooldowns cb)) with
  | None => c
  | Some d =>
      c ⟦ cooldownOverride := d ⟧ ⟦ pinSource := source ⟧
        ⟦ probeSeed := Float64 e providerID model ⟧
  end.

(** ** Well-formed reads *)

(** Every duration a settings row can hold is an int64, and the operator has
    not configured a wait of more than 146 years (half the int64 range). *)
Definition sane (d : Duration) : Prop := int64_min ≤ d ≤ 2 ^ 62.

Record reads_ok (r : cooldownReads) : Prop := {
  base_pos : 0 < base r;
  base_sane : sane (base r);
  backoffMax_sane : sane (r_backoffMax r);
  pinMax_sane : sane (r_pinMax r);
  pinProbe_sane : sane (r_pinProbe r)
}.

(** ** Lemmas *)

Lemma doubleUpTo_closed_form n d ceiling :
  0 < d ≤ ceiling → in_int64 ceiling → doubleUpTo n d ceiling = Z.min ceiling (d * 2 ^ Z.of_nat n).
Proof.
  unfold in_int64, int64_max. revert d. induction n as [|n IH]; intros d Hd Hc; simpl.
  { rewrite Z.mul_1_r. lia. }
  rewrite Z.quot_div_nonneg by lia.
  replace (2 ^ Z.of_nat (S n)) with (2 * 2 ^ Z.of_nat n)
    by (rewrite Nat2Z.inj_succ, Z.pow_succ_r by lia; done).
  pose proof (Z.pow_pos_nonneg 2 (Z.of_nat n)).
  pose proof (Z.div_mod ceiling 2). pose proof (Z.mod_pos_bound ceiling 2).
  destruct (Z.ltb_spec (ceiling / 2) d); [nia|].
  rewrite wrap64_id by (unfold in_int64, int64_min, int64_max; lia).
  rewrite IH by lia. f_equal. lia.
Qed.

(** The spread is non-negative and stays well inside the interval it scales
    (each of the three roundings at most doubles the exact fraction of a
    twentieth). *)
Lemma probeSpread_bounds c probe :
  f64_fraction (probeSeed c) → 0 ≤ probe →
  0 ≤ probeSpread c probe ∧ 5 * probeSpread c probe ≤ 2 * probe.
Proof.
  intros Hseed Hp. unfold probeSpread.
  destruct (f64_of_ratio_bounds probe 1 Hp ltac:(lia)) as [Hm1 Hle1].
  destruct (f64_mul_fraction _ _ _ Hseed Hm1 Hle1) as [Hm2 Hle2].
  destruct (f64_div_int_trunc _ 20 _ ltac:(lia) Hm2 Hle2) as [? ?]. unfold f64_of_int. lia.
Qed.

Lemma quotaPinned_override c r : quotaPinnedForWith c r = true → 0 < cooldownOverride c.
Proof. unfold quotaPinnedForWith. arith. Qed.

Lemma unpinnedCooldown_base c r : base r ≤ unpinnedCooldownWith c r.
Proof. unfold unpinnedCooldownWith, backedOffForWith. branches; arith. Qed.

Lemma unpinnedCooldown_sane c r :
  reads_ok r → sane (cooldownBackoff c) → sane (unpinnedCooldownWith c r).
Proof. intros [? ? ? ? ?] ?. unfold unpinnedCooldownWith. by branches. Qed.

Lemma effectiveCooldown_unpinned c r :
  quotaPinnedForWith c r = false → effectiveCooldownForWith c r = unpinnedCooldownWith c r.
Proof. intros Hp. unfold effectiveCooldownForWith. by rewrite Hp. Qed.

Lemma effectiveCooldown_measured c r :
  quotaPinnedForWith c r = true → pinProbes (pinSource c) = false →
  effectiveCooldownForWith c r = Z.max (unpinnedCooldownWith c r) (cooldownOverride c).
Proof.
  intros Hp Hs. unfold effectiveCooldownForWith. rewrite Hp, Hs. simpl.
  branches; arith.
Qed.

(** A pin inferred from a response, when periodic probing is on. *)
Lemma effectiveCooldown_probed c r :
  reads_ok r → f64_fraction (probeSeed c) → sane (cooldownBackoff c) →
  quotaPinnedForWith c r = true → pinProbes (pinSource c) = true → 0 < r_pinProbe r →
  effectiveCooldownForWith c r =
    Z.max (unpinnedCooldownWith c r)
      (Z.min (cooldownOverride c)
         (Z.max (r_pinProbe r) (unpinnedCooldownWith c r) + probeSpread c (r_pinProbe r))).
Proof.
  intros Hr Hseed Hb Hp Hs Hprobe. unfold effectiveCooldownForWith.
  pose proof (unpinnedCooldown_sane _ _ Hr Hb) as Hu. destruct Hr as [? ? ? ? Hsane].
  destruct (probeSpread_bounds c (r_pinProbe r)) as [? ?]; [done|lia|].
  rewrite Hp, Hs. simpl. rewrite (proj2 (Z.ltb_lt _ _) Hprobe).
  unfold sane in *. rewrite wrap64_id
    by (revert Hsane Hu; unfold in_int64, int64_min, int64_max; lia).
  destruct (Z.leb_spec (cooldownOverride c) (unpinnedCooldownWith c r)); lia.
Qed.

Lemma effectiveCooldown_range c r :
  reads_ok r → f64_fraction (probeSeed c) → sane (cooldownBackoff c) →
  unpinnedCooldownWith c r ≤ effectiveCooldownForWith c r
    ≤ Z.max (unpinnedCooldownWith c r) (cooldownOverride c).
Proof.
  intros Hr Hseed Hb.
  destruct (quotaPinnedForWith c r) eqn:Hp;
    [|rewrite effectiveCooldown_unpinned by done; lia].
  destruct (pinProbes (pinSource c)) eqn:Hs;
    [|rewrite effectiveCooldown_measured by done; lia].
  destruct (Z.ltb_spec 0 (r_pinProbe r)) as [Hprobe|Hprobe].
  - rewrite effectiveCooldown_probed by done.
    destruct (probeSpread_bounds c (r_pinProbe r)); [done|lia|]. lia.
  - unfold effectiveCooldownForWith. rewrite Hp, Hs. simpl.
    rewrite (proj2 (Z.ltb_ge _ _) Hprobe). branches; arith.
Qed.

Lemma clampPin_Some e p m d ceiling floor d' :
  env_ok e → in_int64 ceiling → ceiling ≤ 2 ^ 62 → 0 ≤ floor →
  clampPin e p m d ceiling floor = Some d' →
  floor < Z.min d ceiling ∧ Z.min d ceiling ≤ d' ∧ 20 * (d' - Z.min d ceiling) ≤ Z.min d ceiling.
Proof.
  intros He Hc Hsane Hf. unfold clampPin, in_int64, int64_min in *.
  replace (if ceiling <? d then ceiling else d) with (Z.min d ceiling)
    by (destruct (Z.ltb_spec ceiling d); lia).
  set (v := Z.min d ceiling). destruct (Z.leb_spec v floor); [done|].
  rewrite Z.quot_div_nonneg by lia. pose proof (Z.div_mod v 20). pose proof (Z.mod_pos_bound v 20).
  destruct (Z.ltb_spec 0 (v / 20)); intros [= <-]; [|lia].
  pose proof (env_rand e He p m (v / 20 + 1)).
  rewrite wrap64_id by (unfold in_int64, int64_min, int64_max; lia). lia.
Qed.

(** ** Properties *)

(** [applyBackoff] stamps exactly [base * 2^failedProbes] capped at the
    ceiling in force (the quota-pin ceiling once the circuit is escalated), or
    nothing when no probe failed, backoff is off or it could add nothing: the
    step-by-step doubling never wraps, however large the probe count. *)
Lemma applyBackoff_closed_form cb c :
  in_int64 (backoffMax cb) → in_int64 (quotaPinMax cb) → 0 ≤ failedProbes c →
  let base := effectiveCooldown cb in
  let ceiling :=
    if exhaustedEscalated c then Z.max (backoffMax cb) (quotaPinMax cb) else backoffMax cb in
  cooldownBackoff (applyBackoff cb c) =
    if (0 <? failedProbes c) && (0 <? backoffMax cb) && (0 <? base) && (base <? ceiling)
    then Z.min ceiling (base * 2 ^ failedProbes c) else 0.
Proof.
  intros Hb Hq Hf base ceiling. unfold applyBackoff.
  change (exhaustedEscalated _) with (exhaustedEscalated c).
  change (failedProbes (_ ⟦ cooldownBackoff := 0 ⟧)) with (failedProbes c).
  fold base ceiling.
  destruct (Z.eqb_spec (failedProbes c) 0) as [->|?]; [done|].
  rewrite (proj2 (Z.ltb_lt 0 (failedProbes c))) by lia.
  destruct (Z.leb_spec (backoffMax cb) 0), (Z.ltb_spec 0 (backoffMax cb)); try lia; [done|]. simpl.
  destruct (Z.leb_spec base 0), (Z.ltb_spec 0 base); try lia; [done|]. simpl.
  destruct (Z.leb_spec ceiling base), (Z.ltb_spec base ceiling); try lia; [done|]. simpl.
  rewrite doubleUpTo_closed_form, Z2Nat.id; [done|lia|lia|].
  unfold ceiling, in_int64 in *. case_match; lia.
Qed.

Lemma applyBackoff_closed_form_witness :
  let cb := NewCircuitBreaker None in
  let c := newCircuit ⟦ failedProbes := 100 ⟧ in
  cooldownBackoff (applyBackoff cb c) = 15 * Minute.
Proof.
  intros cb c.
  transitivity (Z.min (15 * Minute) (60 * Second * 2 ^ 100)).
  - apply (applyBackoff_closed_form cb c); evaluate.
  - reflexivity.
Defined.

(** The wait a circuit serves is the longest of the configured cooldown,
    the probe backoff and the pin, except that a pin inferred from a response
    is served for one probe interval (plus a bounded spread). In every case it
    is at least the unpinned wait, which is at least the configured cooldown:
    a pin never makes the breaker probe sooner. *)
Lemma effectiveCooldown_governed c r :
  reads_ok r → f64_fraction (probeSeed c) → sane (cooldownBackoff c) →
  let wait := effectiveCooldownForWith c r in
  let unpinned := unpinnedCooldownWith c r in
  base r ≤ unpinned ≤ wait ∧
  (quotaPinnedForWith c r = false → wait = unpinned) ∧
  (quotaPinnedForWith c r = true → pinProbes (pinSource c) = false ∨ r_pinProbe r ≤ 0 →
     wait = Z.max unpinned (cooldownOverride c)) ∧
  (quotaPinnedForWith c r = true → pinProbes (pinSource c) = true → 0 < r_pinProbe r →
     ∃ spread, 0 ≤ 5 * spread ≤ 2 * r_pinProbe r ∧
       wait = Z.max unpinned (Z.min (cooldownOverride c) (Z.max (r_pinProbe r) unpinned + spread))).
Proof.
  intros Hr Hseed Hb wait unpinned. split_and!.
  - apply unpinnedCooldown_base.
  - by apply effectiveCooldown_range.
  - apply effectiveCooldown_unpinned.
  - intros Hp [Hs|Hprobe]; [by apply effectiveCooldown_measured|].
    unfold wait, effectiveCooldownForWith. rewrite Hp. fold unpinned. simpl.
    rewrite (proj2 (Z.ltb_ge _ _) Hprobe). branches; arith.
  - intros Hp Hs Hprobe. exists (probeSpread c (r_pinProbe r)).
    split; [|by apply effectiveCooldown_probed].
    destruct (probeSpread_bounds c (r_pinProbe r)); [done|lia|]. lia.
Qed.

Lemma default_reads_ok : reads_ok (cooldowns (NewCircuitBreaker None)).
Proof. split; evaluate. Qed.

Lemma effectiveCooldown_governed_witness :
  let r := cooldowns (NewCircuitBreaker None) in
  let c := newCircuit ⟦ cooldownOverride := 24 * Hour ⟧ ⟦ pinSource := pinSourceAccount ⟧
             ⟦ probeSeed := F64 (2 ^ 52) (-53) ⟧ in
  base r ≤ effectiveCooldownForWith c r ∧ effectiveCooldownForWith c r = Hour + 90 * Second.
Proof.
  intros r c. split; [|vm_compute; reflexivity].
  etransitivity; apply (effectiveCooldown_governed c r);
    first [apply default_reads_ok | evaluate].
Defined.

(** [clampPin] rejects a candidate whose capped value does not clear the
    floor, and otherwise returns the capped value spread by at most 5%: the
    ceiling is applied first, the jitter is never negative, and the addition
    does not wrap. *)
Lemma clampPin_spec e p m d ceiling floor :
  env_ok e → sane ceiling → 0 ≤ floor →
  (clampPin e p m d ceiling floor = None ↔ Z.min d ceiling ≤ floor) ∧
  ∀ d', clampPin e p m d ceiling floor = Some d' →
    floor < Z.min d ceiling ≤ d' ∧ 20 * (d' - Z.min d ceiling) ≤ Z.min d ceiling.
Proof.
  intros He [Hc1 Hc2] Hf. split.
  - unfold clampPin.
    replace (if ceiling <? d then ceiling else d) with (Z.min d ceiling)
      by (destruct (Z.ltb_spec ceiling d); lia).
    destruct (Z.leb_spec (Z.min d ceiling) floor); naive_solver lia.
  - intros d' Hd'. apply clampPin_Some in Hd'; [lia|done| |done..].
    unfold in_int64, int64_max. lia.
Qed.

(** An environment for the witnesses: noon of some day, middle draws. *)
Definition env_at (t : Time) : Env := MkEnv t (fun _ _ n => n / 2) (fun _ _ => 2 ^ 52).

Lemma env_at_ok t : 0 < t → env_ok (env_at t).
Proof.
  intros Ht. split; simpl; [done| |lia]. intros _ _ n Hn.
  pose proof (Z.div_mod n 2). pose proof (Z.mod_pos_bound n 2). lia.
Defined.

Lemma clampPin_spec_witness :
  clampPin (env_at 1) "p" "m" Hour (24 * Hour) Minute = Some (Hour + 90 * Second) ∧
  clampPin (env_at 1) "p" "m" Second (24 * Hour) Minute = None.
Proof.
  split; [reflexivity|].
  apply (clampPin_spec (env_at 1) "p" "m" Second (24 * Hour) Minute);
    first [by apply env_at_ok | evaluate].
Defined.
