(* ===== verification/CircuitEvents.v ===== *)
(** * What the breaker tells the outside (internal/failover: circuit_events.go)

    The sentences an operator reads, and the emissions a critical section
    collects in [afterUnlock] for the caller to run once the lock is released:
    log lines, the metric, bus events and the open callback. *)

From S2P Require Import Prelude Circuit Cooldown.

(** ** Rendering a duration *)

(** [fmtFrac]: the fraction of [v] over [10^prec], without trailing zeros. *)
Fixpoint fmtFrac (prec : nat) (v : Z) (print : bool) : string :=
  match prec with
  | O => if print then "." else ""
  | S prec =>
      let digit := v `mod` 10 in
      let print := print || negb (digit =? 0) in
      fmtFrac prec (v / 10) print +:+ (if print then pretty digit else "")
  end.

(** [time.Duration.String]. *)
Definition Duration_String (d : Duration) : string :=
  let u := Z.abs d in
  let sign := if d <? 0 then "-" else "" in
  sign +:+
  (if u =? 0 then "0s"
   else if u <? 1000 then pretty u +:+ "ns"
   else if u <? 1000000 then pretty (u / 1000) +:+ fmtFrac 3 u false +:+ "µs"
   else if u <? Second then pretty (u / 1000000) +:+ fmtFrac 6 u false +:+ "ms"
   else
     let secs := u / Second in
     let mins := secs / 60 in
     let hours := mins / 60 in
     (if 0 <? hours then pretty hours +:+ "h" else "") +:+
     (if 0 <? mins then pretty (mins `mod` 60) +:+ "m" else "") +:+
     pretty (secs `mod` 60) +:+ fmtFrac 9 u false +:+ "s").

(** [time.Duration.Round] for the non-negative durations it is called on. *)
Definition Round (d m : Duration) : Duration :=
  let r := Z.rem d m in
  if r + r <? m then d - r else d + (m - r).

Definition shortDuration (d : Duration) : string :=
  if (d <? Second) || negb (Z.rem d Second =? 0) then Duration_String d
  else if negb (Z.rem d Minute =? 0) then Duration_String (Round d Second)
  else
    let h := Z.quot d Hour in
    let m := Z.quot (Z.rem d Hour) Minute in
    if h =? 0 then pretty m +:+ "m"
    else if m =? 0 then pretty h +:+ "h"
    else pretty h +:+ "h" +:+ pretty m +:+ "m".

(** ** Messages *)

Definition backoffSuffix (cooldown : Duration) (failedProbes : Z) : string :=
  let noun := if failedProbes =? 1 then "retry" else "retries" in
  " (backing off after " +:+ pretty failedProbes +:+ " failed " +:+ noun +:+
  ", next retry in " +:+ shortDuration cooldown +:+ ")".

Definition breakerEventMessage (providerName state model : string) (providerOpen : bool)
    (cause : string) : string :=
  let msg := "Provider " +:+ providerName +:+ " circuit breaker: " +:+ state in
  if decide (model = "") then msg else
  let msg := msg +:+ " for model " +:+ model in
  let msg := if bool_decide (state = "open") && providerOpen
             then msg +:+ " (provider skipped)" else msg in
  if bool_decide (state = "open") && negb (bool_decide (cause = ""))
  then msg +:+ ": " +:+ cause else msg.

Definition severityForState (state : string) : string :=
  if decide (state = "open") then "warning"
  else if decide (state = "closed") then "success"
  else "info".

(** ** Emissions *)

(** The [circuit_breaker.<state>] bus event with its metadata map; an optional
    key of the map is an option here. *)
Record BreakerEvent := MkEvent {
  ev_Type : string;
  ev_Severity : string;
  ev_Source : string;
  ev_Message : string;
  ev_Timestamp : Time;
  ev_provider_id : string;
  ev_provider : string;
  ev_model : string;
  ev_state : string;
  ev_cause : string;
  ev_status : Z;
  ev_pin_source : string;
  ev_provider_open : bool;
  ev_consecutive_fails : Z;
  ev_quota_pinned : bool;
  ev_backed_off : bool;
  ev_failed_probes : Z;
  ev_model_id : option string;
  ev_cooldown_ms : option Z;
  ev_next_retry_at : option Time
}.

(** The [circuit_breaker.unstable] bus event of [reportUnstable]. *)
Record UnstableEvent := MkUnstable {
  un_Message : string;
  un_provider_id : string;
  un_provider : string;
  un_model : string;
  un_opens : Z;
  un_window : string
}.

Inductive Emission :=
| LogHalfOpen (provider provider_id model : string)
| LogClosed (provider provider_id model : string)
| WarnOpen (msg provider provider_id cause : string) (status fails cooldown_ms : Z)
    (quota_pinned backed_off : bool) (failed_probes : Z) (model : string)
| MetricOpen (provider model cause : string)
| PublishBreaker (ev : BreakerEvent)
| PublishUnstable (ev : UnstableEvent)
| CallOnOpen (provider_id : string)
| LogPinRetargeted (provider_id : string) (cooldown_ms : Z) (model : string)
| LogSeeded (verdict provider_id : string) (cooldown_ms : Z) (model : string)
| LogPinReleased (reason provider_id state : string) (cooldown_ms : Z) (model : string).

Definition reportUnstable (providerID providerName model : string) (opens : Z) : Emission :=
  PublishUnstable (MkUnstable
    (model +:+ " on " +:+ providerName +:+ " opened its circuit " +:+ pretty opens +:+
     " times in " +:+ reopenWindowLabel)
    providerID providerName model opens reopenWindowLabel).

Example shortDuration_4m : shortDuration (4 * Minute) = "4m".
Proof. reflexivity. Qed.
Example shortDuration_90m : shortDuration (90 * Minute) = "1h30m".
Proof. reflexivity. Qed.
Example shortDuration_90s : shortDuration (90 * Second) = "1m30s".
Proof. reflexivity. Qed.
Example shortDuration_sub : shortDuration 1500000 = "1.5ms".
Proof. reflexivity. Qed.
