(* ===== verification/Breaker.v ===== *)
(** * The circuit breaker (internal/failover: circuitbreaker.go,
      model_circuits.go, circuit_events.go)

    Health per (provider, resolved upstream model), the provider-wide verdict
    derived from it, and the request path's operations. Every operation is one
    critical section: it takes the breaker and the section's [Env] and returns
    the breaker left behind together with what [afterUnlock] runs afterwards. *)

From S2P Require Import Prelude Circuit Cooldown CircuitEvents.

(** ** The circuit store *)

(** [cb.circuits[id]]: a missing provider reads as the nil map. *)
Definition modelsOf (cb : CircuitBreaker) (id : string) : gmap string circuit :=
  default ∅ (circuits cb !! id).

(** [cb.circuits[id][model]]. *)
Definition circuitOf (cb : CircuitBreaker) (id model : string) : option circuit :=
  modelsOf cb id !! model.

(** A write through the [*circuit] held in the map. *)
Definition putCircuit (cb : CircuitBreaker) (id model : string) (c : circuit) : CircuitBreaker :=
  cb ⟦ circuits := <[id := <[model := c]> (modelsOf cb id)]> (circuits cb) ⟧.

Definition nameProvider (cb : CircuitBreaker) (id name : string) : CircuitBreaker :=
  cb ⟦ names := <[id := name]> (names cb) ⟧.

(** One step of the victim scan of [evictIfFull]. *)
Definition evictStep (e : Env) (r : cooldownReads) (acc : option (string * Time))
    (mc : string * circuit) : option (string * Time) :=
  let '(model, c) := mc in
  if negb (bool_decide (logicalStateWith e c r = StateClosed)) then acc else
  match acc with
  | None => Some (model, lastCharged c)
  | Some (victim, oldest) =>
      if Before (lastCharged c) oldest
         || (Equal (lastCharged c) oldest && String.ltb model victim)
      then Some (model, lastCharged c) else acc
  end.

Definition evictIfFull (e : Env) (cb : CircuitBreaker) (models : gmap string circuit) :
    gmap string circuit :=
  if bool_decide (size models < maxModelCircuitsPerProvider)%nat then models else
  let r := cooldowns cb in
  match foldl (evictStep e r) None (map_to_list models) with
  | Some (victim, _) => delete victim models
  | None => models
  end.

Definition getOrCreate (e : Env) (cb : CircuitBreaker) (id model : string) :
    CircuitBreaker * circuit :=
  let models := modelsOf cb id in
  match models !! model with
  | Some c => (cb, c)
  | None =>
      let models := evictIfFull e cb models in
      (cb ⟦ circuits := <[id := <[model := newCircuit]> models]> (circuits cb) ⟧, newCircuit)
  end.

Definition dropCircuit (cb : CircuitBreaker) (id model : string) : CircuitBreaker :=
  let models := delete model (modelsOf cb id) in
  if bool_decide (models = ∅)
  then cb ⟦ circuits := delete id (circuits cb) ⟧ ⟦ names := delete id (names cb) ⟧
  else cb ⟦ circuits := <[id := models]> (circuits cb) ⟧.

(** ** The provider-wide verdict *)

(** The models whose circuit is turning requests away. *)
Definition blockedModels (e : Env) (models : gmap string circuit) (r : cooldownReads) :
    gmap string circuit :=
  filter (fun mc => blocking e mc.2 r = true) models.

Definition providerReport (e : Env) (cb : CircuitBreaker) (models : gmap string circuit)
    (r : cooldownReads) : bool * list string * bool :=
  let rows := map_to_list (blockedModels e models r) in
  let blocked := merge_sort String.le rows.*1 in
  let pinned := existsb (fun mc => quotaPinnedForWith mc.2 r) rows in
  let providerPinned :=
    existsb (fun mc => quotaPinnedForWith mc.2 r && pinSpeaksForAccount (pinSource mc.2)) rows in
  (providerPinned || (effectiveSpan cb <=? Z.of_nat (length blocked)), blocked, pinned).

Definition providerOpen (e : Env) (cb : CircuitBreaker) (models : gmap string circuit) : bool :=
  let anyOpen := existsb (fun mc => bool_decide (state mc.2 = StateOpen)) (map_to_list models) in
  if negb anyOpen then false
  else (providerReport e cb models (cooldowns cb)).1.1.

(** ** Open, half-open and closed transitions *)

Definition probeIfCooldownElapsed (e : Env) (cb : CircuitBreaker) (c : circuit) : circuit * bool :=
  if negb (bool_decide (state c = StateOpen)) || stillDark e c (cooldowns cb) then (c, false)
  else (c ⟦ state := StateHalfOpen ⟧ ⟦ halfOpenProbes := 0 ⟧, true).

Definition publishEvent (e : Env) (cb : CircuitBreaker) (providerID providerName state model : string)
    (c : circuit) (r : cooldownReads) : Emission :=
  let pinned := quotaPinnedForWith c r in
  let backedOff := backedOffForWith c r in
  let cooldown := effectiveCooldownForWith c r in
  let providerOpen := providerOpen e cb (modelsOf cb providerID) in
  let isOpen := bool_decide (state = "open") in
  let msg := breakerEventMessage providerName state model providerOpen (lastCause c) in
  let msg := if isOpen && backedOff && (cooldown =? cooldownBackoff c)
             then msg +:+ backoffSuffix cooldown (failedProbes c) else msg in
  PublishBreaker {|
    ev_Type := "circuit_breaker." +:+ state;
    ev_Severity := severityForState state;
    ev_Source := "failover";
    ev_Message := msg;
    ev_Timestamp := now e;
    ev_provider_id := providerID;
    ev_provider := providerName;
    ev_model := model;
    ev_state := state;
    ev_cause := lastCause c;
    ev_status := lastStatus c;
    ev_pin_source := pinSourceForWith c r;
    ev_provider_open := providerOpen;
    ev_consecutive_fails := consecutiveFails c;
    ev_quota_pinned := pinned;
    ev_backed_off := backedOff;
    ev_failed_probes := failedProbes c;
    ev_model_id := if negb isOpen || negb providerOpen then Some model else None;
    ev_cooldown_ms := if isOpen then Some (Milliseconds cooldown) else None;
    ev_next_retry_at := if isOpen && (pinned || backedOff)
                        then Some (Add (openedAt c) cooldown) else None
  |}.

(** The stamps of one transition into Open, without the escalation counter. *)
Definition stampOpen (e : Env) (cb : CircuitBreaker) (providerID model : string) (c : circuit)
    (by429 : bool) (exhaustHint : Duration) (account : bool) : circuit :=
  let c := c ⟦ state := StateOpen ⟧ ⟦ openedAt := now e ⟧ in
  let c := note429Open c (now e) by429 in
  let c := applyBackoff cb c in
  applyQuotaPin e cb providerID model c exhaustHint account.

Definition openCircuit (e : Env) (cb : CircuitBreaker) (msg providerID providerName model : string)
    (c : circuit) (by429 : bool) (exhaustHint : Duration) (account : bool) :
    CircuitBreaker * list Emission :=
  let c := stampOpen e cb providerID model c by429 exhaustHint account in
  let cb := putCircuit cb providerID model c in
  let r := cooldowns cb in
  let line :=
    [WarnOpen msg providerName providerID (lastCause c) (lastStatus c) (consecutiveFails c)
       (Milliseconds (effectiveCooldownForWith c r)) (quotaPinnedForWith c r)
       (backedOffForWith c r) (failedProbes c) model;
     MetricOpen providerName model (lastCause c)] in
  let event := publishEvent e cb providerID providerName "open" model c r in
  let '(c, escalate) := noteOpen c (now e) in
  (putCircuit cb providerID model c,
   line ++ [event]
     ++ (if escalate then [reportUnstable providerID providerName model (opens c)] else [])
     ++ (if onOpen cb then [CallOnOpen providerID] else [])).

(** ** The request path *)

(** The read-locked half of [IsOpen]; [None] means the write lock is needed. *)
Definition isOpenRead (e : Env) (cb : CircuitBreaker) (id model : string) : option bool :=
  match circuits cb !! id with
  | None => Some false
  | Some models =>
      match models !! model with
      | Some c =>
          if negb (bool_decide (state c = StateOpen)) then Some (providerOpen e cb models)
          else if stillDark e c (cooldowns cb) then Some true
          else None
      | None => Some (providerOpen e cb models)
      end
  end.

(** The write-locked half, on whatever breaker the lock was granted over. *)
Definition isOpenWrite (e : Env) (cb : CircuitBreaker) (id name model : string) :
    CircuitBreaker * bool * list Emission :=
  match circuits cb !! id with
  | None => (cb, false, [])
  | Some models =>
      match models !! model with
      | Some c =>
          let '(c, probed) := probeIfCooldownElapsed e cb c in
          let cb := putCircuit cb id model c in
          (cb, providerOpen e cb (modelsOf cb id),
           if probed then [LogHalfOpen name id model] else [])
      | None => (cb, providerOpen e cb models, [])
      end
  end.

(** [IsOpen] with nothing between its two halves. *)
Definition IsOpen (e : Env) (cb : CircuitBreaker) (id name model : string) :
    CircuitBreaker * bool * list Emission :=
  match isOpenRead e cb id model with
  | Some open => (cb, open, [])
  | None => isOpenWrite e cb id name model
  end.

(** What every record path does first: the circuit found or created, stamped
    as charged, and moved to half-open when its cooldown has elapsed. *)
Definition recordFailure (e : Env) (cb : CircuitBreaker) (id name model : string) (by429 : bool)
    (cause : Cause) : CircuitBreaker * list Emission :=
  let cb := nameProvider cb id name in
  let '(cb, c) := getOrCreate e cb id model in
  let c := c ⟦ lastCharged := now e ⟧ in
  let '(c, _) := probeIfCooldownElapsed e cb c in
  let c := if negb (bool_decide (state c = StateOpen)) then note c (lastCharged c) cause else c in
  let cb := putCircuit cb id model c in
  match state c with
  | StateClosed =>
      let c := c ⟦ consecutiveFails := consecutiveFails c + 1 ⟧ in
      if effectiveThreshold cb <=? consecutiveFails c then
        openCircuit e cb "circuit-breaker: model state=closed→open" id name model c by429 0 false
      else (putCircuit cb id model c, [])
  | StateHalfOpen =>
      let c := c ⟦ consecutiveFails := effectiveThreshold cb ⟧ in
      let c := c ⟦ failedProbes := failedProbes c + 1 ⟧ in
      openCircuit e cb "circuit-breaker: model state=half-open→open (probe failed)"
        id name model c by429 0 false
  | StateOpen => (cb, [])
  end.

Definition RecordFailure (e : Env) (cb : CircuitBreaker) (id name model : string) (cause : Cause) :=
  recordFailure e cb id name model false cause.

Definition RecordRateLimited (e : Env) (cb : CircuitBreaker) (id name model : string) (cause : Cause) :=
  recordFailure e cb id name model true cause.

Definition recordExhausted (e : Env) (cb : CircuitBreaker) (id name model : string) (status : Z)
    (pinHint : Duration) (account : bool) : CircuitBreaker * list Emission :=
  let cb := nameProvider cb id name in
  let '(cb, c) := getOrCreate e cb id model in
  let c := c ⟦ lastCharged := now e ⟧ in
  let '(c, _) := probeIfCooldownElapsed e cb c in
  let c := if negb (bool_decide (state c = StateOpen))
           then note c (lastCharged c) (UpstreamStatus status causeExhausted) else c in
  let cb := putCircuit cb id model c in
  let by429 := status =? 429 in
  match state c with
  | StateClosed =>
      let c := c ⟦ consecutiveFails := effectiveThreshold cb ⟧ in
      openCircuit e cb "circuit-breaker: model state=closed→open (exhausted)"
        id name model c by429 pinHint account
  | StateHalfOpen =>
      let c := c ⟦ consecutiveFails := effectiveThreshold cb ⟧ in
      let c := if negb (pinProbes (pinSource c)) || (pinProbeInterval cb <=? 0)
               then c ⟦ failedProbes := failedProbes c + 1 ⟧ else c in
      openCircuit e cb "circuit-breaker: model state=half-open→open (probe drew exhaustion)"
        id name model c by429 pinHint account
  | StateOpen => (cb, [])
  end.

Definition RecordExhausted (e : Env) (cb : CircuitBreaker) (id name model : string) (status : Z)
    (pinHint : Duration) :=
  recordExhausted e cb id name model status pinHint false.

Definition RecordExhaustedAccount (e : Env) (cb : CircuitBreaker) (id name model : string)
    (status : Z) (pinHint : Duration) :=
  recordExhausted e cb id name model status pinHint true.

Definition RecordSaturated (e : Env) (cb : CircuitBreaker) (id name model : string) : CircuitBreaker :=
  let cb := nameProvider cb id name in
  let '(cb, c) := getOrCreate e cb id model in
  let '(c, _) := probeIfCooldownElapsed e cb c in
  let c := if negb (bool_decide (state c = StateOpen))
           then note c (now e) (UpstreamStatus 429 causeSaturated) else c in
  putCircuit cb id model c.

(** The stamps a closing probe clears. *)
Definition closeCircuit (c : circuit) : circuit :=
  clear429Escalation
    (c ⟦ state := StateClosed ⟧ ⟦ consecutiveFails := 0 ⟧ ⟦ halfOpenProbes := 0 ⟧
       ⟦ cooldownOverride := 0 ⟧ ⟦ pinSource := "" ⟧ ⟦ failedProbes := 0 ⟧ ⟦ cooldownBackoff := 0 ⟧).

Definition recordSuccess (e : Env) (cb : CircuitBreaker) (id name model : string) (served : bool)
    (cause : Cause) : CircuitBreaker * list Emission :=
  let cb := nameProvider cb id name in
  let '(cb, c) := getOrCreate e cb id model in
  let c := c ⟦ lastCharged := now e ⟧ in
  let '(c, _) := probeIfCooldownElapsed e cb c in
  let c := if negb (bool_decide (state c = StateOpen)) then note c (lastCharged c) cause else c in
  let c := if served then c ⟦ lastSuccess := lastCharged c ⟧ else c in
  match state c with
  | StateClosed => (putCircuit cb id model (c ⟦ consecutiveFails := 0 ⟧), [])
  | StateHalfOpen =>
      let c := c ⟦ halfOpenProbes := halfOpenProbes c + 1 ⟧ in
      if HalfOpenMaxProbes cb <=? halfOpenProbes c then
        let c := closeCircuit c in
        let cb := putCircuit cb id model c in
        (cb, [LogClosed name id model;
              publishEvent e cb id name "closed" model c (cooldowns cb)])
      else (putCircuit cb id model c, [])
  | StateOpen => (putCircuit cb id model c, [])
  end.

Definition RecordSuccess (e : Env) (cb : CircuitBreaker) (id name model : string) :=
  recordSuccess e cb id name model true (MkCause 0 causeSuccess).

Definition RecordAlive (e : Env) (cb : CircuitBreaker) (id name model : string) (status : Z) :=
  recordSuccess e cb id name model false (UpstreamStatus status causeAlive).

(** ** Queries *)

(** One step of the loop over the blocking set: the earliest retry instant so
    far, and whether every circuit seen is pinned. *)
Definition blockedUntilStep (models : gmap string circuit) (r : cooldownReads)
    (acc : Time * bool) (m : string) : Time * bool :=
  let '(retryAt, pinned) := acc in
  match models !! m with
  | Some c =>
      let at_ := Add (openedAt c) (effectiveCooldownForWith c r) in
      (if IsZero retryAt || Before at_ retryAt then at_ else retryAt,
       if negb (quotaPinnedForWith c r) then false else pinned)
  | None => acc
  end.

Definition BlockedUntil (e : Env) (cb : CircuitBreaker) (id model : string) : option (Time * bool) :=
  let models := modelsOf cb id in
  if bool_decide (models = ∅) then None else
  let r := cooldowns cb in
  let provider :=
    let '(open, blocked, _) := providerReport e cb models r in
    if negb open || bool_decide (blocked = []) then None
    else Some (foldl (blockedUntilStep models r) (zeroTime, true) blocked) in
  match models !! model with
  | Some c =>
      if blocking e c r
      then Some (Add (openedAt c) (effectiveCooldownForWith c r), quotaPinnedForWith c r)
      else provider
  | None => provider
  end.

Definition LastSuccessWithin (e : Env) (cb : CircuitBreaker) (id model : string) (window : Duration) :
    bool :=
  match circuitOf cb id model with
  | None => false
  | Some c => if IsZero (lastSuccess c) then false else Sub (now e) (lastSuccess c) <=? window
  end.

Definition GetState (e : Env) (cb : CircuitBreaker) (id model : string) : State :=
  match circuitOf cb id model with
  | None => StateClosed
  | Some c => logicalStateWith e c (cooldowns cb)
  end.

(** ** Lemmas: the store *)

Lemma modelsOf_put cb id m c id' :
  modelsOf (putCircuit cb id m c) id' =
    if decide (id = id') then <[m := c]> (modelsOf cb id) else modelsOf cb id'.
Proof.
  unfold modelsOf at 1, putCircuit; simpl. case_decide; subst.
  - by rewrite lookup_insert_eq.
  - by rewrite lookup_insert_ne.
Qed.

Lemma circuitOf_put cb id m c id' m' :
  circuitOf (putCircuit cb id m c) id' m' =
    if decide (id = id' ∧ m = m') then Some c else circuitOf cb id' m'.
Proof.
  unfold circuitOf. rewrite modelsOf_put.
  destruct (decide (id = id')) as [->|], (decide (m = m')) as [->|].
  - by rewrite decide_True, lookup_insert_eq.
  - rewrite decide_False by naive_solver. by rewrite lookup_insert_ne.
  - by rewrite decide_False by naive_solver.
  - by rewrite decide_False by naive_solver.
Qed.

Lemma circuitOf_put_eq cb id m c : circuitOf (putCircuit cb id m c) id m = Some c.
Proof. by rewrite circuitOf_put, decide_True. Qed.

Lemma circuitOf_put_ne cb id m c id' m' :
  (id, m) ≠ (id', m') → circuitOf (putCircuit cb id m c) id' m' = circuitOf cb id' m'.
Proof. intros. rewrite circuitOf_put, decide_False; naive_solver. Qed.

Lemma putCircuit_put cb id m c c' :
  putCircuit (putCircuit cb id m c) id m c' = putCircuit cb id m c'.
Proof.
  unfold putCircuit, update_field, upd_circuits, modelsOf; simpl.
  rewrite lookup_insert_eq; simpl. by rewrite !insert_insert_eq.
Qed.

Lemma putCircuit_id cb id m c : circuitOf cb id m = Some c → putCircuit cb id m c = cb.
Proof.
  unfold circuitOf, putCircuit, modelsOf. intros H.
  destruct (circuits cb !! id) as [ms|] eqn:Hid; simpl in *.
  - rewrite (insert_id ms) by done. unfold update_field, upd_circuits.
    rewrite insert_id by done. by destruct cb.
  - by rewrite lookup_empty in H.
Qed.

Lemma circuitOf_name cb id name : circuitOf (nameProvider cb id name) = circuitOf cb.
Proof. done. Qed.

(** The model's own circuits, as membership in the listing Go ranges over. *)
Lemma existsb_map_to_list (P : string * circuit → bool) (m : gmap string circuit) :
  existsb P (map_to_list m) = true ↔ ∃ k c, m !! k = Some c ∧ P (k, c) = true.
Proof.
  rewrite existsb_exists. split.
  - intros ([k c] & Hin%list_elem_of_In%elem_of_map_to_list & HP). eauto.
  - intros (k & c & Hk & HP). exists (k, c). split; [|done].
    by apply list_elem_of_In, elem_of_map_to_list.
Qed.

(** ** Lemmas: eviction and creation *)

(** The order eviction follows: least recently charged first, ties by model. *)
Definition evictsBefore (a b : string * circuit) : Prop :=
  lastCharged a.2 < lastCharged b.2 ∨
  (lastCharged a.2 = lastCharged b.2 ∧ String.le a.1 b.1).

Lemma String_ltb_leb a b : String.ltb a b = negb (String.leb b a).
Proof.
  unfold String.ltb, String.leb. rewrite (String.compare_antisym b a).
  by destruct (String.compare a b).
Qed.

Lemma String_ltb_le a b : String.ltb a b = true → String.le a b.
Proof.
  rewrite String_ltb_leb. intros H%negb_true_iff. unfold String.le.
  destruct (String.leb_total a b) as [->|Hba]; [done|congruence].
Qed.

Lemma String_ltb_nle a b : String.ltb a b = false → String.le b a.
Proof. rewrite String_ltb_leb. unfold String.le. intros Hle%negb_false_iff. by rewrite Hle. Qed.

(** The victim scan, on any listing: [None] when nothing is closed, else the
    closed entry no other closed entry precedes. *)
Lemma evict_scan e r l :
  match foldl (evictStep e r) None l with
  | None => ∀ mc, mc ∈ l → logicalStateWith e mc.2 r ≠ StateClosed
  | Some (v, t) => ∃ c, (v, c) ∈ l ∧ lastCharged c = t ∧ logicalStateWith e c r = StateClosed ∧
      ∀ mc, mc ∈ l → logicalStateWith e mc.2 r = StateClosed → evictsBefore (v, c) mc
  end.
Proof.
  induction l as [|[m c] l IH] using rev_ind.
  { by intros mc ?%elem_of_nil. }
  rewrite foldl_app. simpl foldl. destruct (foldl (evictStep e r) None l) as [[v t]|] eqn:Hfold;
    simpl; (case_bool_decide as Hc; simpl).
  - destruct IH as (cv & Hin & Hlc & Hcl & Hmin). unfold Before, Equal.
    destruct ((lastCharged c <? t) || (lastCharged c =? t) && String.ltb m v) eqn:Hcmp.
    + exists c. split_and!; [apply elem_of_app; right; by apply list_elem_of_singleton|done..|].
      intros mc [Hmc| ->%list_elem_of_singleton]%elem_of_app Hmcc.
      * destruct (Hmin mc Hmc Hmcc) as [Hlt|[Heq Hle]]; unfold evictsBefore in *; simpl in *;
          apply orb_true_iff in Hcmp as [Hcmp|Hcmp]; arith.
        right. split; [lia|]. etransitivity; [|done]. by apply String_ltb_le.
      * right. split; [done|]. reflexivity.
    + exists cv. split_and!; [apply elem_of_app; by left|done..|].
      intros mc [Hmc| ->%list_elem_of_singleton]%elem_of_app Hmcc; [by apply Hmin|].
      apply orb_false_iff in Hcmp as [Hlt Hand]. unfold evictsBefore; simpl.
      arith. apply andb_false_iff in Hand as [Hand|Hand]; arith.
      destruct (decide (lastCharged c = lastCharged cv)); [|lia].
      right. split; [done|]. by apply String_ltb_nle.
  - destruct IH as (cv & Hin & Hlc & Hcl & Hmin). exists cv.
    split_and!; [apply elem_of_app; by left|done..|].
    intros mc [Hmc| ->%list_elem_of_singleton]%elem_of_app Hmcc; [by apply Hmin|done].
  - exists c. split_and!; [apply elem_of_app; right; by apply list_elem_of_singleton|done..|].
    intros mc [Hmc| ->%list_elem_of_singleton]%elem_of_app Hmcc; [by destruct (IH mc)|].
    right. split; [done|]. reflexivity.
  - intros mc [Hmc| ->%list_elem_of_singleton]%elem_of_app; [by apply IH|done].
Qed.

Lemma evictIfFull_sub e cb models m c :
  evictIfFull e cb models !! m = Some c → models !! m = Some c.
Proof.
  unfold evictIfFull. case_bool_decide; [done|].
  destruct (foldl _ _ _) as [[v t]|]; [|done].
  rewrite lookup_delete. by case_decide.
Qed.

Lemma evictIfFull_keeps e cb models m c :
  models !! m = Some c → logicalStateWith e c (cooldowns cb) ≠ StateClosed →
  evictIfFull e cb models !! m = Some c.
Proof.
  intros Hm Hst. unfold evictIfFull. case_bool_decide; [done|].
  pose proof (evict_scan e (cooldowns cb) (map_to_list models)) as Hscan.
  destruct (foldl _ _ _) as [[v t]|]; [|done].
  destruct Hscan as (cv & Hin%elem_of_map_to_list & _ & Hcl & _).
  rewrite lookup_delete_ne; [done|]. intros ->. simplify_eq.
Qed.

(** [getOrCreate] finds the circuit, or files a fresh one after an eviction in
    the same provider's bucket; the other providers are left alone. *)
Lemma getOrCreate_spec e cb id m cb' c :
  getOrCreate e cb id m = (cb', c) →
  c = default newCircuit (circuitOf cb id m) ∧
  circuitOf cb' id m = Some c ∧
  (∀ id' m', id ≠ id' → circuitOf cb' id' m' = circuitOf cb id' m') ∧
  (∀ m', m ≠ m' → circuitOf cb' id m' = evictIfFull e cb (modelsOf cb id) !! m' ∨
                  circuitOf cb' id m' = circuitOf cb id m') ∧
  (is_Some (circuitOf cb id m) → cb' = cb).
Proof.
  unfold getOrCreate, circuitOf. intros Hg.
  destruct (modelsOf cb id !! m) as [c0|] eqn:Hm; simplify_eq/=.
  { split_and!; auto. }
  unfold modelsOf at 1; simpl. rewrite lookup_insert_eq; simpl.
  split_and!; [done|by rewrite lookup_insert_eq| | |by intros []].
  - intros. unfold modelsOf; simpl. by rewrite lookup_insert_ne.
  - intros. unfold modelsOf at 1; simpl. left. rewrite lookup_insert_eq; simpl.
    by rewrite lookup_insert_ne.
Qed.

Lemma getOrCreate_config e cb id m :
  cooldowns (getOrCreate e cb id m).1 = cooldowns cb ∧
  effectiveThreshold (getOrCreate e cb id m).1 = effectiveThreshold cb ∧
  HalfOpenMaxProbes (getOrCreate e cb id m).1 = HalfOpenMaxProbes cb.
Proof. unfold getOrCreate. by destruct (modelsOf cb id !! m). Qed.

(** ** Lemmas: the provider-wide verdict *)

Lemma blockedModels_lookup e models r m c :
  blockedModels e models r !! m = Some c ↔ models !! m = Some c ∧ blocking e c r = true.
Proof. unfold blockedModels. by rewrite map_lookup_filter_Some. Qed.

Lemma elem_of_keys {A} (models : gmap string A) m :
  m ∈ (map_to_list models).*1 ↔ is_Some (models !! m).
Proof.
  rewrite list_elem_of_fmap. split.
  - intros ([k c] & -> & ?%elem_of_map_to_list). eauto.
  - intros [c ?]. exists (m, c). by rewrite elem_of_map_to_list.
Qed.

Lemma sorted_keys {A} (models : gmap string A) :
  let l := merge_sort String.le (map_to_list models).*1 in
  StronglySorted String.le l ∧ NoDup l ∧ (∀ m, m ∈ l ↔ is_Some (models !! m)) ∧
  length l = size models.
Proof.
  simpl. pose proof (merge_sort_Permutation String.le (map_to_list models).*1) as Hp.
  split_and!.
  - apply StronglySorted_merge_sort; apply _.
  - rewrite Hp. apply NoDup_fst_map_to_list.
  - intros m. rewrite Hp. apply elem_of_keys.
  - rewrite Hp. by rewrite length_fmap, length_map_to_list.
Qed.

Lemma effectiveSpan_pos cb : 1 ≤ effectiveSpan cb.
Proof.
  unfold effectiveSpan. cbv zeta.
  match goal with |- context [if ?x <? 1 then _ else _] => destruct (Z.ltb_spec x 1) end; lia.
Qed.

Lemma blocking_open e c r : blocking e c r = true → state c = StateOpen.
Proof. unfold blocking. rewrite andb_true_iff, bool_decide_eq_true. tauto. Qed.

Lemma blocking_logical e c r : blocking e c r = true ↔ logicalStateWith e c r = StateOpen.
Proof.
  unfold blocking, logicalStateWith. destruct (state c), (stillDark e c r); naive_solver.
Qed.

(** A blocking circuit whose pin speaks for the account. *)
Definition accountPinnedBy (e : Env) (models : gmap string circuit) (r : cooldownReads) (m : string) : Prop :=
  ∃ c, models !! m = Some c ∧ blocking e c r = true ∧
       quotaPinnedForWith c r = true ∧ pinSpeaksForAccount (pinSource c) = true.

Lemma providerReport_open e cb models r :
  (providerReport e cb models r).1.1 = true ↔
    (∃ m, accountPinnedBy e models r m) ∨ effectiveSpan cb ≤ Z.of_nat (size (blockedModels e models r)).
Proof.
  unfold providerReport. simpl. rewrite orb_true_iff, existsb_map_to_list.
  destruct (sorted_keys (blockedModels e models r)) as (_ & _ & _ & ->).
  rewrite Z.leb_le. f_equiv. unfold accountPinnedBy. split.
  - intros (m & c & [? ?]%blockedModels_lookup & [? ?]%andb_true_iff). eauto 10.
  - intros (m & c & ? & ? & ? & ?). exists m, c.
    rewrite blockedModels_lookup, andb_true_iff. done.
Qed.

(** The allocation-free pre-pass answers the same verdict as the full walk. *)
Lemma providerOpen_report e cb models :
  providerOpen e cb models = (providerReport e cb models (cooldowns cb)).1.1.
Proof.
  unfold providerOpen.
  destruct (existsb _ (map_to_list models)) eqn:Hany; [done|]. cbv zeta. cbn [negb].
  assert (∀ m c, models !! m = Some c → state c ≠ StateOpen) as Hnone.
  { intros m c Hm Hst. apply not_true_iff_false in Hany. apply Hany.
    apply existsb_map_to_list. exists m, c. split; [done|]. by apply bool_decide_eq_true. }
  symmetry. apply not_true_iff_false. rewrite providerReport_open.
  intros [(m & c & Hm & Hb%blocking_open & _)|Hspan]; [by eapply Hnone|].
  assert (blockedModels e models (cooldowns cb) = ∅) as Hemp.
  { apply map_empty. intros m. apply eq_None_not_Some. intros [c [Hm Hb%blocking_open]%blockedModels_lookup].
    by eapply Hnone. }
  rewrite Hemp, map_size_empty in Hspan. pose proof (effectiveSpan_pos cb). lia.
Qed.

(** ** Lemmas: one circuit charged, the others framed

    A record operation touches its own circuit and, when that circuit is new,
    may evict one closed sibling; nothing else in the store moves. *)

Record framed (e : Env) (cb cb' : CircuitBreaker) (id m : string) : Prop := {
  frame_providers id' : id' ≠ id → circuits cb' !! id' = circuits cb !! id';
  frame_kept m' c : m' ≠ m → circuitOf cb id m' = Some c →
    logicalStateWith e c (cooldowns cb) ≠ StateClosed → circuitOf cb' id m' = Some c;
  frame_old m' c : m' ≠ m → circuitOf cb' id m' = Some c → circuitOf cb id m' = Some c
}.

Lemma framed_other e cb cb' id m id' m' :
  framed e cb cb' id m → id' ≠ id → circuitOf cb' id' m' = circuitOf cb id' m'.
Proof. intros [Hp _ _] Hne. unfold circuitOf, modelsOf. by rewrite Hp. Qed.

(** What a record operation leaves: [cb] with the provider named, its own
    circuit replaced by [c] and the rest framed. *)
Record charged (e : Env) (cb cb' : CircuitBreaker) (id name m : string) (c : circuit) : Prop := {
  charged_shape : ∃ ms, cb' = (nameProvider cb id name) ⟦ circuits := ms ⟧;
  charged_here : circuitOf cb' id m = Some c;
  charged_framed : framed e cb cb' id m
}.

Lemma getOrCreate_shape e cb id m :
  ∃ ms, getOrCreate e cb id m = (cb ⟦ circuits := ms ⟧, default newCircuit (circuitOf cb id m)).
Proof.
  unfold getOrCreate, circuitOf. destruct (modelsOf cb id !! m); [|by eexists].
  exists (circuits cb). by destruct cb.
Qed.

Lemma getOrCreate_framed e cb id m c ms :
  getOrCreate e cb id m = (cb ⟦ circuits := ms ⟧, default newCircuit (circuitOf cb id m)) →
  framed e cb (putCircuit (cb ⟦ circuits := ms ⟧) id m c) id m.
Proof.
  intros Hg. destruct (getOrCreate_spec _ _ _ _ _ _ Hg) as (_ & _ & Hother & Hsib & _).
  split.
  - intros id' ?. unfold putCircuit. simpl. rewrite lookup_insert_ne by done.
    unfold getOrCreate in Hg. destruct (modelsOf cb id !! m); injection Hg as Hms _.
    + by destruct cb; injection Hms as <-.
    + rewrite <- Hms. by rewrite lookup_insert_ne.
  - intros m' c' ? Hm' Hst. rewrite circuitOf_put_ne by naive_solver.
    destruct (Hsib m') as [-> | ->]; [done|by apply evictIfFull_keeps|done].
  - intros m' c' ?. rewrite circuitOf_put_ne by naive_solver.
    destruct (Hsib m') as [-> | ->]; [done|apply evictIfFull_sub|done].
Qed.

(** The common prologue: name, find or create, then write [f] of the circuit. *)
Lemma charged_prologue e cb id name m (f : circuit → circuit) :
  ∃ ms, getOrCreate e (nameProvider cb id name) id m =
          ((nameProvider cb id name) ⟦ circuits := ms ⟧, default newCircuit (circuitOf cb id m)) ∧
    ∀ c, charged e cb (putCircuit ((nameProvider cb id name) ⟦ circuits := ms ⟧) id m c) id name m c.
Proof.
  destruct (getOrCreate_shape e (nameProvider cb id name) id m) as [ms Hg]. exists ms.
  split; [exact Hg|]. intros c. split.
  - by eexists.
  - apply circuitOf_put_eq.
  - destruct (getOrCreate_framed _ _ _ _ c _ Hg) as [H1 H2 H3]. by split.
Qed.

(** The circuit a transition into Open leaves. *)
Definition opened (e : Env) (cb : CircuitBreaker) (id m : string) (c : circuit) (by429 : bool)
    (hint : Duration) (account : bool) : circuit :=
  (noteOpen (stampOpen e cb id m c by429 hint account) (now e)).1.

(** Two breakers that differ in their store alone decide alike. *)
Definition sameConfig (cb cb' : CircuitBreaker) : Prop :=
  cb' = cb ⟦ circuits := circuits cb' ⟧ ⟦ names := names cb' ⟧.

#[export] Instance sameConfig_equivalence : Equivalence sameConfig.
Proof.
  unfold sameConfig. split.
  - intros cb. by destruct cb.
  - intros cb cb' ->. by destruct cb.
  - intros cb cb' cb'' -> ->. by destruct cb.
Qed.

Lemma sameConfig_prologue cb id name ms m c :
  sameConfig (putCircuit ((nameProvider cb id name) ⟦ circuits := ms ⟧) id m c) cb.
Proof. by destruct cb. Qed.
#[export] Hint Resolve sameConfig_prologue : gateway.

#[export] Instance cooldowns_proper : Proper (sameConfig ==> (=)) cooldowns.
Proof. by intros cb cb' ->. Qed.
#[export] Instance effectiveThreshold_proper : Proper (sameConfig ==> (=)) effectiveThreshold.
Proof. by intros cb cb' ->. Qed.
#[export] Instance effectiveSpan_proper : Proper (sameConfig ==> (=)) effectiveSpan.
Proof. by intros cb cb' ->. Qed.
#[export] Instance quotaPinMax_proper : Proper (sameConfig ==> (=)) quotaPinMax.
Proof. by intros cb cb' ->. Qed.

#[export] Instance quotaPinEnabled_proper : Proper (sameConfig ==> (=)) quotaPinEnabled.
Proof. by intros cb cb' ->. Qed.
#[export] Instance effectiveCooldown_proper : Proper (sameConfig ==> (=)) effectiveCooldown.
Proof. by intros cb cb' ->. Qed.
#[export] Instance HalfOpenMaxProbes_proper : Proper (sameConfig ==> (=)) HalfOpenMaxProbes.
Proof. by intros cb cb' ->. Qed.

#[export] Instance stampOpen_proper e : Proper (sameConfig ==> (=)) (stampOpen e).
Proof. by intros cb cb' ->. Qed.

#[export] Instance providerReport_proper e : Proper (sameConfig ==> (=)) (providerReport e).
Proof. by intros cb cb' ->. Qed.
#[export] Instance providerOpen_proper e : Proper (sameConfig ==> (=)) (providerOpen e).
Proof. by intros cb cb' ->. Qed.

Lemma openCircuit_circuits e cb cb0 msg id name m c by429 hint account :
  sameConfig cb cb0 →
  (openCircuit e cb msg id name m c by429 hint account).1 =
    putCircuit cb id m (opened e cb0 id m c by429 hint account).
Proof.
  intros Hcfg. unfold openCircuit, opened. rewrite (stampOpen_proper e _ _ Hcfg).
  destruct (noteOpen _ _) as [c' esc]. cbn [fst]. by rewrite putCircuit_put.
Qed.

(** The circuit every record path reaches before its state switch. *)
Definition reached (e : Env) (cb : CircuitBreaker) (cause : Cause) (c : circuit) : circuit :=
  let c := (probeIfCooldownElapsed e cb (c ⟦ lastCharged := now e ⟧)).1 in
  if negb (bool_decide (state c = StateOpen)) then note c (lastCharged c) cause else c.

Definition failed (e : Env) (cb : CircuitBreaker) (id m : string) (by429 : bool) (cause : Cause)
    (c : circuit) : circuit :=
  let c := reached e cb cause c in
  match state c with
  | StateClosed =>
      let c := c ⟦ consecutiveFails := consecutiveFails c + 1 ⟧ in
      if effectiveThreshold cb <=? consecutiveFails c
      then opened e cb id m c by429 0 false else c
  | StateHalfOpen =>
      opened e cb id m (c ⟦ consecutiveFails := effectiveThreshold cb ⟧
                          ⟦ failedProbes := failedProbes c + 1 ⟧) by429 0 false
  | StateOpen => c
  end.

Lemma recordFailure_charged e cb id name m by429 cause :
  charged e cb (recordFailure e cb id name m by429 cause).1 id name m
    (failed e cb id m by429 cause (default newCircuit (circuitOf cb id m))).
Proof.
  destruct (charged_prologue e cb id name m (fun c => c)) as (ms & Hg & Hc).
  unfold recordFailure, failed, reached. rewrite Hg.
  set (c0 := (default newCircuit _) ⟦ lastCharged := now e ⟧).
  change (probeIfCooldownElapsed e ((nameProvider cb id name) ⟦ circuits := ms ⟧) c0)
    with (probeIfCooldownElapsed e cb c0).
  destruct (probeIfCooldownElapsed e cb c0) as [c1 p]. cbv zeta. cbn [fst].
  set (c2 := if negb _ then _ else _).
  destruct (state c2) eqn:Hst; [|apply Hc|].
  - change (effectiveThreshold (putCircuit _ _ _ _)) with (effectiveThreshold cb).
    destruct (_ <=? _); [rewrite (openCircuit_circuits _ _ cb) by auto with gateway|cbn [fst]];
      rewrite putCircuit_put; apply Hc.
  - rewrite (openCircuit_circuits _ _ cb), putCircuit_put by auto with gateway. apply Hc.
Qed.

Definition exhausted (e : Env) (cb : CircuitBreaker) (id m : string) (status : Z) (hint : Duration)
    (account : bool) (c : circuit) : circuit :=
  let c := reached e cb (UpstreamStatus status causeExhausted) c in
  match state c with
  | StateClosed =>
      opened e cb id m (c ⟦ consecutiveFails := effectiveThreshold cb ⟧) (status =? 429) hint account
  | StateHalfOpen =>
      let paced := negb (pinProbes (pinSource c)) || (pinProbeInterval cb <=? 0) in
      let c := c ⟦ consecutiveFails := effectiveThreshold cb ⟧ in
      opened e cb id m (if paced then c ⟦ failedProbes := failedProbes c + 1 ⟧ else c)
        (status =? 429) hint account
  | StateOpen => c
  end.

Definition saturated (e : Env) (cb : CircuitBreaker) (c : circuit) : circuit :=
  let c := (probeIfCooldownElapsed e cb c).1 in
  if negb (bool_decide (state c = StateOpen))
  then note c (now e) (UpstreamStatus 429 causeSaturated) else c.

Definition succeeded (e : Env) (cb : CircuitBreaker) (served : bool) (cause : Cause) (c : circuit) :
    circuit :=
  let c := reached e cb cause c in
  let c := if served then c ⟦ lastSuccess := lastCharged c ⟧ else c in
  match state c with
  | StateClosed => c ⟦ consecutiveFails := 0 ⟧
  | StateHalfOpen =>
      let c := c ⟦ halfOpenProbes := halfOpenProbes c + 1 ⟧ in
      if HalfOpenMaxProbes cb <=? halfOpenProbes c then closeCircuit c else c
  | StateOpen => c
  end.

(** Runs the shared prologue of a record operation down to its state switch. *)
Ltac charge_prologue Hc :=
  let ms := fresh "ms" in let Hg := fresh "Hg" in
  match goal with
  | |- charged ?e ?cb _ ?id ?name ?m _ =>
      destruct (charged_prologue e cb id name m (fun c => c)) as (ms & Hg & Hc);
      rewrite Hg; clear Hg
  end;
  match goal with
  | |- context [probeIfCooldownElapsed ?e (?cb' ⟦ circuits := ms ⟧) ?c] =>
      match goal with
      | |- charged _ ?cb _ _ _ _ _ =>
          change (probeIfCooldownElapsed e (cb' ⟦ circuits := ms ⟧) c)
            with (probeIfCooldownElapsed e cb c);
          destruct (probeIfCooldownElapsed e cb c) as [? ?]; cbv zeta; cbn [fst]
      end
  end.

Lemma recordExhausted_charged e cb id name m status hint account :
  charged e cb (recordExhausted e cb id name m status hint account).1 id name m
    (exhausted e cb id m status hint account (default newCircuit (circuitOf cb id m))).
Proof.
  unfold recordExhausted, exhausted, reached. charge_prologue Hc.
  set (c2 := if negb _ then _ else _).
  destruct (state c2) eqn:Hst; [|apply Hc|];
    rewrite (openCircuit_circuits _ _ cb), putCircuit_put by auto with gateway; apply Hc.
Qed.

Lemma RecordSaturated_charged e cb id name m :
  charged e cb (RecordSaturated e cb id name m) id name m
    (saturated e cb (default newCircuit (circuitOf cb id m))).
Proof. unfold RecordSaturated, saturated. charge_prologue Hc. apply Hc. Qed.

Lemma recordSuccess_charged e cb id name m served cause :
  charged e cb (recordSuccess e cb id name m served cause).1 id name m
    (succeeded e cb served cause (default newCircuit (circuitOf cb id m))).
Proof.
  unfold recordSuccess, succeeded, reached. charge_prologue Hc.
  set (c2 := if negb _ then _ else _). set (c3 := if served then _ else _).
  destruct (state c3) eqn:Hst; [apply Hc|apply Hc|].
  change (HalfOpenMaxProbes (_ ⟦ circuits := _ ⟧)) with (HalfOpenMaxProbes cb).
  destruct (_ <=? _); apply Hc.
Qed.

(** ** Lemmas: states *)

Lemma applyBackoff_shape cb c : ∃ d, applyBackoff cb c = c ⟦ cooldownBackoff := d ⟧.
Proof. unfold applyBackoff. repeat case_match; by eexists. Qed.

Lemma applyQuotaPin_shape e cb id m c hint account :
  ∃ d source seed, applyQuotaPin e cb id m c hint account =
    c ⟦ cooldownOverride := d ⟧ ⟦ pinSource := source ⟧ ⟦ probeSeed := seed ⟧.
Proof.
  unfold applyQuotaPin. destruct (negb _).
  { exists 0, "", (probeSeed c). done. }
  destruct (match quota cb with Some _ => _ | None => _ end) as [d source].
  destruct (clampPin _ _ _ _ _ _) as [d'|]; [by eexists _, _, _|].
  exists 0, "", (probeSeed c). done.
Qed.

Lemma stampOpen_fields e cb id m c by429 hint account :
  let c' := stampOpen e cb id m c by429 hint account in
  state c' = StateOpen ∧ openedAt c' = now e ∧ consecutiveFails c' = consecutiveFails c ∧
  failedProbes c' = failedProbes c ∧ lastCause c' = lastCause c ∧ lastCharged c' = lastCharged c.
Proof.
  unfold stampOpen. cbv zeta.
  destruct (applyBackoff_shape cb (note429Open (c ⟦ state := StateOpen ⟧ ⟦ openedAt := now e ⟧) (now e) by429))
    as [d ->].
  edestruct applyQuotaPin_shape as (d' & src & seed & ->). simpl.
  unfold note429Open. by repeat case_match.
Qed.

Lemma noteOpen_fields c t :
  let c' := (noteOpen c t).1 in
  state c' = state c ∧ openedAt c' = openedAt c ∧ consecutiveFails c' = consecutiveFails c ∧
  failedProbes c' = failedProbes c ∧ cooldownBackoff c' = cooldownBackoff c ∧
  cooldownOverride c' = cooldownOverride c ∧ pinSource c' = pinSource c ∧
  probeSeed c' = probeSeed c ∧ opens429Streak c' = opens429Streak c ∧
  lastCharged c' = lastCharged c ∧ halfOpenProbes c' = halfOpenProbes c.
Proof. unfold noteOpen. repeat case_match; done. Qed.

(** The wait reads only the pin, the backoff and the seed. *)
Lemma effectiveCooldown_ext c c' r :
  cooldownOverride c' = cooldownOverride c → cooldownBackoff c' = cooldownBackoff c →
  pinSource c' = pinSource c → probeSeed c' = probeSeed c →
  effectiveCooldownForWith c' r = effectiveCooldownForWith c r.
Proof.
  intros H1 H2 H3 H4.
  unfold effectiveCooldownForWith, unpinnedCooldownWith, backedOffForWith, quotaPinnedForWith, probeSpread.
  by rewrite H1, H2, H3, H4.
Qed.

(** ** Lemmas: the invariant of one circuit *)

Definition pinSources : list string :=
  [pinSourceAdvisor; pinSourceReserve; pinSourceResponse; pinSourceAccount].

Record circuit_ok (c : circuit) : Prop := {
  ok_opened : state c ≠ StateClosed → 0 < openedAt c;
  ok_clean : state c = StateClosed →
    cooldownOverride c = 0 ∧ cooldownBackoff c = 0 ∧ failedProbes c = 0 ∧ opens429Streak c = 0;
  ok_override : 0 ≤ cooldownOverride c ≤ int64_max;
  ok_source : (cooldownOverride c = 0 ∧ pinSource c = "") ∨
              (0 < cooldownOverride c ∧ pinSource c ∈ pinSources);
  ok_backoff : 0 ≤ cooldownBackoff c ≤ 2 ^ 62;
  ok_probes : 0 ≤ failedProbes c;
  ok_fails : 0 ≤ consecutiveFails c;
  ok_seed : f64_fraction (probeSeed c)
}.

(** The settings in force are sane (see [reads_ok]) and the breaker can both
    open and close. *)
Record config_ok (cb : CircuitBreaker) : Prop := {
  config_reads : reads_ok (cooldowns cb);
  config_threshold : 0 < effectiveThreshold cb;
  config_probes : 1 ≤ HalfOpenMaxProbes cb
}.

#[export] Instance config_ok_proper : Proper (sameConfig ==> iff) config_ok.
Proof. intros cb cb' Heq. split; intros []; split; by (rewrite Heq || rewrite <- Heq). Qed.

Lemma sane_nonneg d : 0 ≤ d ≤ 2 ^ 62 → sane d.
Proof. unfold sane, int64_min. lia. Qed.

Lemma sane_int64 d : sane d → in_int64 d.
Proof. unfold sane, in_int64, int64_max. lia. Qed.
#[export] Hint Resolve sane_nonneg sane_int64 : gateway.

Lemma ok_sane c : circuit_ok c → sane (cooldownBackoff c).
Proof. intros []. auto with gateway. Qed.
#[export] Hint Resolve ok_sane ok_seed : gateway.

Lemma newCircuit_ok : circuit_ok newCircuit.
Proof.
  split; simpl; try done; try (unfold int64_max; lia). by left.
Qed.
#[export] Hint Resolve newCircuit_ok : gateway.

Lemma effectiveCooldown_pos c r : reads_ok r → circuit_ok c → 0 < effectiveCooldownForWith c r.
Proof.
  intros Hr Hc. pose proof (unpinnedCooldown_base c r). pose proof (base_pos _ Hr).
  destruct (effectiveCooldown_range c r); [auto with gateway..|lia].
Qed.

Lemma applyBackoff_range cb c :
  config_ok cb → 0 ≤ failedProbes c →
  ∃ d, applyBackoff cb c = c ⟦ cooldownBackoff := d ⟧ ∧ 0 ≤ d ≤ 2 ^ 62.
Proof.
  intros [[Hb1 Hb2 Hm Hp _] _ _] Hf. unfold applyBackoff. simpl in *.
  destruct (failedProbes c =? 0); [by exists 0|].
  destruct (backoffMax cb <=? 0); [by exists 0|].
  change (exhaustedEscalated _) with (exhaustedEscalated c).
  set (ceiling := if exhaustedEscalated c then _ else _).
  assert (ceiling ≤ 2 ^ 62) by (unfold ceiling, sane in *; case_match; lia).
  destruct (Z.leb_spec (effectiveCooldown cb) 0), (Z.leb_spec ceiling (effectiveCooldown cb));
    simpl; try by exists 0.
  eexists. split; [done|]. rewrite doubleUpTo_closed_form.
  - pose proof (Z.pow_nonneg 2 (Z.of_nat (Z.to_nat (failedProbes c)))). lia.
  - lia.
  - unfold in_int64, int64_min, int64_max. lia.
Qed.

Lemma applyQuotaPin_cases e cb id m c hint account :
  env_ok e → config_ok cb →
  let c0 := c ⟦ cooldownOverride := 0 ⟧ ⟦ pinSource := "" ⟧ in
  applyQuotaPin e cb id m c hint account = c0 ∨
  ∃ d source, unpinnedCooldownWith c (cooldowns cb) < d ≤ int64_max ∧ source ∈ pinSources ∧
    applyQuotaPin e cb id m c hint account =
      c0 ⟦ cooldownOverride := d ⟧ ⟦ pinSource := source ⟧ ⟦ probeSeed := Float64 e id m ⟧.
Proof.
  intros He Hcb c0. unfold applyQuotaPin. fold c0.
  destruct (quotaPinEnabled cb); simpl; [|by left].
  set (ds := match quota cb with Some _ => _ | None => _ end).
  assert (ds.2 ∈ pinSources) as Hsrc.
  { unfold ds, advisorPinSource, pinSources. repeat case_match; simpl; set_solver. }
  destruct ds as [d source]. destruct (clampPin _ _ _ _ _ _) as [d'|] eqn:Hcl; [|by left].
  right. exists d', source. split; [|done].
  change (unpinnedCooldownWith c (cooldowns cb)) with (unpinnedCooldownWith c0 (cooldowns cb)).
  destruct Hcb as [Hr _ _]. pose proof (unpinnedCooldown_base c0 (cooldowns cb)).
  pose proof (base_pos _ Hr). destruct (pinMax_sane _ Hr) as [? ?].
  change (r_pinMax (cooldowns cb)) with (quotaPinMax cb) in *.
  apply clampPin_Some in Hcl; [unfold int64_max; lia|done| |done|lia].
  apply sane_int64, (pinMax_sane _ Hr).
Qed.

Lemma Float64_fraction e id m : env_ok e → f64_fraction (Float64 e id m).
Proof. intros He. split; simpl; [apply (env_float e He)|done]. Qed.
#[export] Hint Resolve Float64_fraction : gateway.

Lemma stampOpen_ok e cb id m c by429 hint account :
  env_ok e → config_ok cb → circuit_ok c →
  circuit_ok (stampOpen e cb id m c by429 hint account).
Proof.
  intros He Hcb [? ? ? ? ? ? ? ?]. unfold stampOpen.
  set (c1 := note429Open _ _ _).
  assert (state c1 = StateOpen ∧ openedAt c1 = now e ∧ failedProbes c1 = failedProbes c ∧
    consecutiveFails c1 = consecutiveFails c ∧ probeSeed c1 = probeSeed c) as (H1 & H2 & H3 & H4 & H5).
  { unfold c1, note429Open. repeat case_match; done. }
  destruct (applyBackoff_range cb c1 Hcb) as (d & -> & Hd); [lia|].
  pose proof (env_now e He).
  set (c2 := c1 ⟦ cooldownBackoff := d ⟧).
  pose proof (unpinnedCooldown_base c2 (cooldowns cb)).
  pose proof (base_pos _ (config_reads _ Hcb)).
  destruct (applyQuotaPin_cases e cb id m c2 hint account He Hcb) as [-> | (d' & src & ? & ? & ->)];
    (split; simpl; rewrite ?H1, ?H2, ?H3, ?H4, ?H5; auto with gateway; try done; try lia).
  right. split; [lia|done].
Qed.

Lemma noteOpen_ok c t : circuit_ok c → circuit_ok (noteOpen c t).1.
Proof.
  intros [? ? ? ? ? ? ? ?]. pose proof (noteOpen_fields c t) as Hn. cbv zeta in Hn. destruct_and! Hn.
  split; repeat match goal with H : _ (noteOpen c t).1 = _ |- _ => rewrite H; clear H end; done.
Qed.

Lemma opened_ok e cb id m c by429 hint account :
  env_ok e → config_ok cb → circuit_ok c → circuit_ok (opened e cb id m c by429 hint account).
Proof. intros. by apply noteOpen_ok, stampOpen_ok. Qed.

Lemma probeIfCooldownElapsed_ok e cb c :
  circuit_ok c → circuit_ok (probeIfCooldownElapsed e cb c).1.
Proof.
  intros Hc. unfold probeIfCooldownElapsed.
  destruct (bool_decide_reflect (state c = StateOpen)) as [Hst|]; simpl; [|done].
  destruct (stillDark _ _ _); simpl; [done|]. destruct Hc as [Hop ? ? ? ? ? ? ?].
  split; simpl; try done. intros _. apply Hop. by rewrite Hst.
Qed.

(** The invariant does not mention the verdict and charge stamps. *)
Lemma note_ok c t cause : circuit_ok c → circuit_ok (note c t cause).
Proof. intros []. by split. Qed.
Lemma lastCharged_ok c t : circuit_ok c → circuit_ok (c ⟦ lastCharged := t ⟧).
Proof. intros []. by split. Qed.
Lemma lastSuccess_ok c t : circuit_ok c → circuit_ok (c ⟦ lastSuccess := t ⟧).
Proof. intros []. by split. Qed.
Lemma consecutiveFails_ok c n : 0 ≤ n → circuit_ok c → circuit_ok (c ⟦ consecutiveFails := n ⟧).
Proof. intros ? []. by split. Qed.
Lemma halfOpenProbes_ok c n : circuit_ok c → circuit_ok (c ⟦ halfOpenProbes := n ⟧).
Proof. intros []. by split. Qed.
Lemma failedProbes_ok c n :
  0 ≤ n → state c ≠ StateClosed → circuit_ok c → circuit_ok (c ⟦ failedProbes := n ⟧).
Proof. intros ? ? []. by split. Qed.
Lemma clear429_ok c : circuit_ok c → circuit_ok (clear429Escalation c).
Proof. intros []. split; simpl; naive_solver. Qed.
Lemma closeCircuit_ok c : circuit_ok c → circuit_ok (closeCircuit c).
Proof. intros []. split; simpl; try done. by left. Qed.

#[export] Hint Extern 4 (0 ≤ _)%Z => lia : gateway.
#[export] Hint Resolve opened_ok probeIfCooldownElapsed_ok note_ok lastCharged_ok lastSuccess_ok
  consecutiveFails_ok halfOpenProbes_ok failedProbes_ok clear429_ok closeCircuit_ok : gateway.

Lemma reached_ok e cb cause c : circuit_ok c → circuit_ok (reached e cb cause c).
Proof. intros. unfold reached. case_match; auto with gateway. Qed.
#[export] Hint Resolve reached_ok : gateway.

Lemma failed_ok e cb id m by429 cause c :
  env_ok e → config_ok cb → circuit_ok c → circuit_ok (failed e cb id m by429 cause c).
Proof.
  intros He Hcb Hc%(reached_ok e cb cause). unfold failed.
  set (c1 := reached e cb cause c) in *. destruct (state c1) eqn:Hst; [|done|].
  - pose proof (ok_fails _ Hc). case_match; auto with gateway.
  - pose proof (ok_probes _ Hc). pose proof (config_threshold _ Hcb).
    apply opened_ok; [done..|]. apply failedProbes_ok; [lia|simpl; by rewrite Hst|]. auto with gateway.
Qed.

Lemma exhausted_ok e cb id m status hint account c :
  env_ok e → config_ok cb → circuit_ok c → circuit_ok (exhausted e cb id m status hint account c).
Proof.
  intros He Hcb Hc%(reached_ok e cb (UpstreamStatus status causeExhausted)). unfold exhausted.
  set (c1 := reached e cb _ c) in *. pose proof (config_threshold _ Hcb). pose proof (ok_probes _ Hc).
  destruct (state c1) eqn:Hst; [auto with gateway|done|].
  apply opened_ok; [done..|]. case_match; [|auto with gateway].
  apply failedProbes_ok; simpl; [lia|simpl; by rewrite Hst|auto with gateway].
Qed.

Lemma saturated_ok e cb c : circuit_ok c → circuit_ok (saturated e cb c).
Proof. intros. unfold saturated. case_match; auto with gateway. Qed.

Lemma succeeded_ok e cb served cause c : circuit_ok c → circuit_ok (succeeded e cb served cause c).
Proof.
  intros Hc%(reached_ok e cb cause). unfold succeeded.
  set (c1 := if served then _ else _).
  assert (circuit_ok c1) by (unfold c1; case_match; auto with gateway).
  destruct (state c1); [auto with gateway|done|]. case_match; auto with gateway.
Qed.

(** ** Lemmas: what each record path does to a logical state *)

(** A charge stamp changes no wait. *)
Lemma logicalState_charge e c t r :
  logicalStateWith e (c ⟦ lastCharged := t ⟧) r = logicalStateWith e c r.
Proof. done. Qed.

Lemma reached_logical e cb cause c :
  state (reached e cb cause c) = logicalStateWith e c (cooldowns cb) ∧
  consecutiveFails (reached e cb cause c) = consecutiveFails c ∧
  failedProbes (reached e cb cause c) = failedProbes c ∧
  pinSource (reached e cb cause c) = pinSource c ∧
  lastCharged (reached e cb cause c) = now e ∧
  (logicalStateWith e c (cooldowns cb) = StateOpen →
     reached e cb cause c = c ⟦ lastCharged := now e ⟧) ∧
  (logicalStateWith e c (cooldowns cb) ≠ StateOpen →
     lastCause (reached e cb cause c) = Reason cause).
Proof.
  unfold reached, probeIfCooldownElapsed. rewrite <- (logicalState_charge e c (now e)).
  set (c0 := c ⟦ lastCharged := now e ⟧). unfold logicalStateWith.
  assert (state c0 = state c) as Hs by done.
  destruct (state c0) eqn:Hst; simpl; rewrite <- ?Hs, ?Hst; simpl; try done.
  destruct (stillDark e c0 (cooldowns cb)); simpl; rewrite ?Hst; simpl; by rewrite <- ?Hs.
Qed.

Lemma opened_fields e cb id m c by429 hint account :
  let c' := opened e cb id m c by429 hint account in
  state c' = StateOpen ∧ openedAt c' = now e ∧ consecutiveFails c' = consecutiveFails c ∧
  failedProbes c' = failedProbes c.
Proof.
  unfold opened. cbv zeta.
  pose proof (noteOpen_fields (stampOpen e cb id m c by429 hint account) (now e)) as Hn.
  pose proof (stampOpen_fields e cb id m c by429 hint account) as Hs.
  cbv zeta in Hn, Hs. destruct_and!. split_and!; congruence.
Qed.

(** A circuit just opened blocks: the cooldown in force is positive. *)
Lemma fresh_open_dark e c r :
  env_ok e → reads_ok r → circuit_ok c → state c = StateOpen → openedAt c = now e →
  logicalStateWith e c r = StateOpen.
Proof.
  intros He Hr Hc Hst Hat. apply blocking_logical. unfold blocking, stillDark.
  rewrite Hst, Hat, bool_decide_true by done. simpl. unfold IsZero, zeroTime.
  pose proof (env_now e He). destruct (Z.eqb_spec (now e) 0); [done|].
  unfold Sub. rewrite Z.sub_diag. apply Z.ltb_lt.
  pose proof (effectiveCooldown_pos c r Hr Hc). unfold sat64, int64_min, int64_max. lia.
Qed.

Lemma opened_logical e cb id m c by429 hint account :
  env_ok e → config_ok cb → circuit_ok c →
  logicalStateWith e (opened e cb id m c by429 hint account) (cooldowns cb) = StateOpen.
Proof.
  intros He Hcb Hc. destruct (opened_fields e cb id m c by429 hint account) as (? & ? & _).
  apply fresh_open_dark; auto with gateway. apply Hcb.
Qed.

Lemma charged_GetState e cb cb' id name m c :
  charged e cb cb' id name m c → GetState e cb' id m = logicalStateWith e c (cooldowns cb).
Proof.
  intros [[ms ->] Hhere _]. unfold GetState. by rewrite Hhere.
Qed.

(** What an open transition emits, in order: the log line and the metric, the
    bus event, at most one instability report, and the open callback last. *)
Definition announcesOpen (e : Env) (cb : CircuitBreaker) (id name m : string) (out : list Emission) :
    Prop :=
  ∃ msg cause status fails ms pinned backed probes ev reports,
    out = [WarnOpen msg name id cause status fails ms pinned backed probes m; MetricOpen name m cause;
           PublishBreaker ev] ++ reports ++ (if onOpen cb then [CallOnOpen id] else []) ∧
    ev_state ev = "open" ∧ ev_provider_id ev = id ∧ ev_model ev = m ∧ ev_cause ev = cause ∧
    ev_Timestamp ev = now e ∧ ev_cooldown_ms ev = Some ms ∧
    (reports = [] ∨ ∃ n, reports = [reportUnstable id name m n]).

Lemma openCircuit_announces e cb cb0 msg id name m c by429 hint account :
  onOpen cb = onOpen cb0 →
  announcesOpen e cb0 id name m (openCircuit e cb msg id name m c by429 hint account).2.
Proof.
  intros Hon. unfold openCircuit, announcesOpen. rewrite <- Hon. destruct (noteOpen _ _) as [c' esc]. cbn [snd].
  do 10 eexists. split; [reflexivity|]. cbn.
  split_and!; try done. destruct esc; eauto.
Qed.

Lemma recordFailure_emits e cb id name m by429 cause :
  let c := default newCircuit (circuitOf cb id m) in
  let out := (recordFailure e cb id name m by429 cause).2 in
  match logicalStateWith e c (cooldowns cb) with
  | StateClosed =>
      if effectiveThreshold cb <=? consecutiveFails c + 1
      then announcesOpen e cb id name m out else out = []
  | StateHalfOpen => announcesOpen e cb id name m out
  | StateOpen => out = []
  end.
Proof.
  cbv zeta. set (c := default _ _).
  destruct (reached_logical e cb cause c) as (Hst & Hfails & _).
  destruct (charged_prologue e cb id name m (fun c => c)) as (ms & Hg & _).
  unfold recordFailure. rewrite Hg. fold c.
  change (probeIfCooldownElapsed e (_ ⟦ circuits := ms ⟧) (c ⟦ lastCharged := now e ⟧))
    with (probeIfCooldownElapsed e cb (c ⟦ lastCharged := now e ⟧)).
  unfold reached in Hst, Hfails.
  destruct (probeIfCooldownElapsed e cb (c ⟦ lastCharged := now e ⟧)) as [c1 p]. cbv zeta in *. cbn [fst] in *.
  set (c2 := if negb _ then _ else _) in *. rewrite <- Hst.
  destruct (state c2); [|done|].
  - change (effectiveThreshold (putCircuit _ _ _ _)) with (effectiveThreshold cb).
    change (consecutiveFails (c2 ⟦ consecutiveFails := consecutiveFails c2 + 1 ⟧))
      with (consecutiveFails c2 + 1).
    rewrite Hfails. destruct (_ <=? _); [|done].
    by apply openCircuit_announces.
  - by apply openCircuit_announces.
Qed.

(** ** Properties: the record paths *)

(** A failure is charged to its own model circuit and to nothing else.
    On a circuit that serves, it adds one to the failure streak and opens the
    circuit exactly when the streak reaches the threshold; on a circuit owed a
    probe it re-opens at once with one more failed probe and a fresh clock; on
    a circuit still dark it changes nothing but the charge stamp. An opening
    announces itself, and no other outcome emits anything. *)
Lemma recordFailure_spec e cb id name m by429 cause :
  env_ok e → config_ok cb →
  let c := default newCircuit (circuitOf cb id m) in
  circuit_ok c →
  let cb' := (recordFailure e cb id name m by429 cause).1 in
  let out := (recordFailure e cb id name m by429 cause).2 in
  framed e cb cb' id m ∧
  ∃ c', circuitOf cb' id m = Some c' ∧
    match GetState e cb id m with
    | StateClosed =>
        consecutiveFails c' = consecutiveFails c + 1 ∧
        if effectiveThreshold cb <=? consecutiveFails c + 1
        then GetState e cb' id m = StateOpen ∧ openedAt c' = now e ∧ announcesOpen e cb id name m out
        else GetState e cb' id m = StateClosed ∧ lastCause c' = Reason cause ∧ out = []
    | StateHalfOpen =>
        GetState e cb' id m = StateOpen ∧ openedAt c' = now e ∧
        consecutiveFails c' = effectiveThreshold cb ∧ failedProbes c' = failedProbes c + 1 ∧
        announcesOpen e cb id name m out
    | StateOpen => c' = c ⟦ lastCharged := now e ⟧ ∧ out = []
    end.
Proof.
  intros He Hcb c Hc cb' out.
  pose proof (recordFailure_charged e cb id name m by429 cause) as Hch. fold cb' c in Hch.
  split; [apply Hch|]. eexists. split; [apply Hch|].
  rewrite (charged_GetState _ _ _ _ _ _ _ Hch).
  pose proof (recordFailure_emits e cb id name m by429 cause) as Hout. cbv zeta in Hout. fold c out in Hout.
  assert (GetState e cb id m = logicalStateWith e c (cooldowns cb)) as ->.
  { unfold GetState, c. by destruct (circuitOf cb id m). }
  destruct (reached_logical e cb cause c) as (Hst & Hfails & Hprobes & _ & _ & Hdark & Hcause).
  pose proof (reached_ok e cb cause c Hc) as Hok. pose proof (config_threshold _ Hcb).
  pose proof (ok_fails _ Hc).
  unfold failed. set (c1 := reached e cb cause c) in *. rewrite <- Hst in *.
  destruct (state c1) eqn:Hs; [|by rewrite Hdark by done|].
  - change (consecutiveFails (c1 ⟦ consecutiveFails := consecutiveFails c1 + 1 ⟧))
      with (consecutiveFails c1 + 1). rewrite Hfails in *.
    destruct (_ <=? _).
    + edestruct opened_fields as (? & Hat & Hcf & _). rewrite Hcf, Hat.
      rewrite opened_logical by (auto with gateway). done.
    + split_and!; [done| |by apply Hcause|done].
      unfold logicalStateWith. circuit_fields. by rewrite Hs.
  - edestruct opened_fields as (? & Hat & Hcf & Hfp). rewrite Hcf, Hat, Hfp. circuit_fields.
    rewrite Hprobes. split_and!; try done.
    pose proof (ok_probes _ Hok). apply opened_logical; [done..|].
    apply failedProbes_ok; circuit_fields; [lia|by rewrite Hs|auto with gateway].
Qed.

(** A breaker with default settings for the witnesses. *)
Definition defaultBreaker : CircuitBreaker := NewCircuitBreaker None.

Lemma defaultBreaker_ok : config_ok defaultBreaker.
Proof. split; [apply default_reads_ok|evaluate|evaluate]. Qed.

(** One circuit four failures into its streak. *)
Definition fourFailures : CircuitBreaker :=
  putCircuit defaultBreaker "p" "m" (newCircuit ⟦ consecutiveFails := 4 ⟧).

Lemma fourFailures_ok : config_ok fourFailures.
Proof. split; [apply default_reads_ok|evaluate|evaluate]. Qed.

Lemma recordFailure_spec_witness :
  GetState (env_at Hour) fourFailures "p" "m" = StateClosed ∧
  GetState (env_at Hour)
    (recordFailure (env_at Hour) fourFailures "p" "prov" "m" false (MkCause 503 "upstream status 503")).1
    "p" "m" = StateOpen.
Proof.
  split; [reflexivity|].
  destruct (recordFailure_spec (env_at Hour) fourFailures "p" "prov" "m" false
    (MkCause 503 "upstream status 503")) as (_ & c' & _ & H);
    [apply env_at_ok; evaluate|apply fourFailures_ok| |apply H].
  apply consecutiveFails_ok; [evaluate|apply newCircuit_ok].
Defined.

Lemma GetState_default e cb id m :
  GetState e cb id m = logicalStateWith e (default newCircuit (circuitOf cb id m)) (cooldowns cb).
Proof. unfold GetState. by destruct (circuitOf cb id m). Qed.

(** One exhausted answer opens the circuit outright, whatever its streak:
    unless the circuit is still dark, it ends up dark from this instant with
    the streak at the threshold. Only a probe the breaker paced itself grows
    the backoff: the probe of a response pin, while periodic probing is on,
    does not. *)
Lemma recordExhausted_spec e cb id name m st hint account :
  env_ok e → config_ok cb →
  let c := default newCircuit (circuitOf cb id m) in
  circuit_ok c →
  let cb' := (recordExhausted e cb id name m st hint account).1 in
  framed e cb cb' id m ∧ GetState e cb' id m = StateOpen ∧
  ∃ c', circuitOf cb' id m = Some c' ∧
    match GetState e cb id m with
    | StateOpen => c' = c ⟦ lastCharged := now e ⟧
    | s =>
        openedAt c' = now e ∧ consecutiveFails c' = effectiveThreshold cb ∧
        failedProbes c' =
          if bool_decide (s = StateHalfOpen)
             && (negb (pinProbes (pinSource c)) || (pinProbeInterval cb <=? 0))
          then failedProbes c + 1 else failedProbes c
    end.
Proof.
  intros He Hcb c Hc cb'.
  pose proof (recordExhausted_charged e cb id name m st hint account) as Hch. fold cb' c in Hch.
  split; [apply Hch|]. rewrite (charged_GetState _ _ _ _ _ _ _ Hch), GetState_default. fold c.
  set (cause := UpstreamStatus st causeExhausted).
  destruct (reached_logical e cb cause c) as (Hst & _ & Hprobes & Hsrc & _ & Hdark & _).
  pose proof (reached_ok e cb cause c Hc) as Hok. pose proof (config_threshold _ Hcb).
  pose proof (ok_probes _ Hok).
  assert (∀ c0 b, circuit_ok c0 →
    let c' := opened e cb id m c0 b hint account in
    logicalStateWith e c' (cooldowns cb) = StateOpen ∧ openedAt c' = now e ∧
    consecutiveFails c' = consecutiveFails c0 ∧ failedProbes c' = failedProbes c0) as Hop.
  { intros c0 b Hc0 c'. split; [by apply opened_logical|].
    by destruct (opened_fields e cb id m c0 b hint account) as (_ & ? & ? & ?). }
  destruct Hch as [_ Hhere _]. revert Hhere. unfold exhausted. fold cause.
  set (c1 := reached e cb cause c) in *. rewrite <- Hst.
  destruct (state c1) eqn:Hs; intros Hhere.
  - edestruct Hop as (-> & ? & ? & ?); [apply consecutiveFails_ok; [lia|exact Hok]|].
    split; [done|]. eexists. split; [exact Hhere|]. circuit_fields. rewrite <- Hprobes. auto.
  - split; [by rewrite Hdark, logicalState_charge, <- Hst by done|].
    exists (c ⟦ lastCharged := now e ⟧). split; [by rewrite Hhere, Hdark by done|done].
  - rewrite <- Hsrc, <- Hprobes. set (paced := negb _ || _) in *.
    edestruct Hop as (-> & ? & Hf & Hp); [|split; [done|]].
    { destruct paced; [apply failedProbes_ok; simpl; [lia|by rewrite Hs|]|];
        (apply consecutiveFails_ok; [lia|exact Hok]). }
    eexists. split; [exact Hhere|]. rewrite bool_decide_true by done. cbn [andb].
    rewrite Hf, Hp. by destruct paced.
Qed.

Lemma recordExhausted_spec_witness :
  let cb' := (recordExhausted (env_at Hour) defaultBreaker "p" "prov" "m" 402 (2 * Hour) true).1 in
  GetState (env_at Hour) cb' "p" "m" = StateOpen ∧
  (pinSource <$> circuitOf cb' "p" "m") = Some pinSourceAccount.
Proof.
  intros cb'. split; [|reflexivity].
  apply (recordExhausted_spec (env_at Hour) defaultBreaker "p" "prov" "m" 402 (2 * Hour) true);
    [apply env_at_ok; evaluate|apply defaultBreaker_ok|apply newCircuit_ok].
Defined.

Lemma logicalState_success e c t r :
  logicalStateWith e (c ⟦ lastSuccess := t ⟧) r = logicalStateWith e c r.
Proof. done. Qed.

Lemma reached_probes e cb cause c :
  lastSuccess (reached e cb cause c) = lastSuccess c ∧
  (logicalStateWith e c (cooldowns cb) = StateHalfOpen →
   halfOpenProbes (reached e cb cause c) =
     if bool_decide (state c = StateOpen) then 0 else halfOpenProbes c).
Proof.
  unfold reached, probeIfCooldownElapsed. rewrite <- (logicalState_charge e c (now e)).
  set (c0 := c ⟦ lastCharged := now e ⟧). unfold logicalStateWith.
  change (state c) with (state c0).
  destruct (state c0) eqn:Hst, (stillDark e c0 (cooldowns cb)); circuit_fields;
    repeat (case_bool_decide; cbn [negb orb andb fst]; circuit_fields); try congruence; done.
Qed.

(** A success credits its own circuit alone: it clears the streak of one
    that serves, and the last of the [HalfOpenMaxProbes] probes of a half-open
    one closes it and clears pin, backoff, failed probes and the rate-limit
    streak. A circuit still dark is not closed by a late success. Only a
    served answer stamps the last success. *)
Lemma recordSuccess_spec e cb id name m served cause :
  let c := default newCircuit (circuitOf cb id m) in
  let cb' := (recordSuccess e cb id name m served cause).1 in
  framed e cb cb' id m ∧
  ∃ c', circuitOf cb' id m = Some c' ∧
    lastSuccess c' = (if served then now e else lastSuccess c) ∧
    match GetState e cb id m with
    | StateClosed => state c' = StateClosed ∧ consecutiveFails c' = 0
    | StateHalfOpen =>
        let banked := (if bool_decide (state c = StateOpen) then 0 else halfOpenProbes c) + 1 in
        if HalfOpenMaxProbes cb <=? banked
        then state c' = StateClosed ∧ consecutiveFails c' = 0 ∧ cooldownOverride c' = 0 ∧
             pinSource c' = "" ∧ failedProbes c' = 0 ∧ cooldownBackoff c' = 0 ∧
             opens429Streak c' = 0 ∧ halfOpenProbes c' = 0
        else state c' = StateHalfOpen ∧ halfOpenProbes c' = banked
    | StateOpen => state c' = StateOpen ∧ GetState e cb' id m = StateOpen
    end.
Proof.
  intros c cb'. pose proof (recordSuccess_charged e cb id name m served cause) as Hch.
  fold cb' c in Hch. split; [apply Hch|]. eexists. split; [apply Hch|].
  rewrite (charged_GetState _ _ _ _ _ _ _ Hch), GetState_default. fold c. clear Hch.
  destruct (reached_logical e cb cause c) as (Hst & _ & _ & _ & Hlc & Hdark & _).
  destruct (reached_probes e cb cause c) as [Hls Hprobes].
  unfold succeeded. set (c1 := reached e cb cause c) in *. rewrite <- Hst in *. cbv zeta.
  set (c2 := if served then _ else _).
  assert (state c2 = state c1 ∧ halfOpenProbes c2 = halfOpenProbes c1 ∧
    lastSuccess c2 = (if served then now e else lastSuccess c)) as (Hs2 & Hp2 & Hl2).
  { unfold c2. destruct served; circuit_fields; rewrite ?Hlc; split_and!; (reflexivity || exact Hls). }
  assert (logicalStateWith e c2 (cooldowns cb) = logicalStateWith e c1 (cooldowns cb)) as Hlog.
  { unfold c2. destruct served; [apply logicalState_success|reflexivity]. }
  rewrite Hs2. clearbody c2. destruct (state c1) eqn:Hs1.
  - circuit_fields. split_and!; [exact Hl2|exact Hs2|reflexivity].
  - split; [done|]. split; [done|]. rewrite Hlog, (Hdark eq_refl), logicalState_charge.
    by rewrite <- Hst.
  - circuit_fields. rewrite Hp2, (Hprobes eq_refl).
    destruct (_ <=? _); unfold closeCircuit, clear429Escalation; by circuit_fields.
Qed.

