(* ===== verification/BreakerGate.v ===== *)
(** * The routing gate (internal/failover: circuitbreaker.go, model_circuits.go)

    What the request path is promised by [IsOpen] and [BlockedUntil]: the
    question is decided as specified, asking is safe, retry instants are sound,
    and the bookkeeping around it (eviction, saturated answers, the provider
    report) does not disturb routing. *)

From S2P Require Import Prelude Circuit Cooldown CircuitEvents Breaker.

(** ** The routing question, decided *)

(** Every circuit of the store satisfies the invariant of one circuit. *)
Definition store_ok (cb : CircuitBreaker) : Prop :=
  ∀ id m c, circuitOf cb id m = Some c → circuit_ok c.

(** What [IsOpen] promises: the model's own circuit is dark, an account-wide
    pin holds, or the span of models dark at once is reached. *)
Definition skips (e : Env) (cb : CircuitBreaker) (id m : string) : Prop :=
  GetState e cb id m = StateOpen ∨
  (∃ m', accountPinnedBy e (modelsOf cb id) (cooldowns cb) m') ∨
  effectiveSpan cb ≤ Z.of_nat (size (blockedModels e (modelsOf cb id) (cooldowns cb))).

(** The circuit [IsOpen] leaves: half-open with no probe banked when the
    cooldown has elapsed, and the circuit it found otherwise. *)
Definition probedCircuit (e : Env) (cb : CircuitBreaker) (c : circuit) : circuit :=
  (probeIfCooldownElapsed e cb c).1.

(** The instant a blocking circuit is owed its next probe. *)
Definition retryOf (r : cooldownReads) (c : circuit) : Time :=
  Add (openedAt c) (effectiveCooldownForWith c r).

(** What a retry instant is worth: until then the request would be skipped
    again, and from then on some circuit of the provider answers a probe. *)
Record retry_sound (e : Env) (cb : CircuitBreaker) (id m : string) (t : Time) : Prop := {
  retry_future : now e < t;
  retry_not_early e' : env_ok e' → now e' < t → skips e' cb id m;
  retry_not_late : ∃ m', (GetState e cb id m = StateOpen → m' = m) ∧ GetState e cb id m' = StateOpen ∧
    ∀ e', env_ok e' → t ≤ now e' → GetState e' cb id m' = StateHalfOpen
}.

(** A provider with two of its models dark, so that every model is skipped. *)
Definition darkCircuit (t : Time) : circuit :=
  newCircuit ⟦ state := StateOpen ⟧ ⟦ openedAt := t ⟧.
Definition twoDark : CircuitBreaker :=
  putCircuit (putCircuit defaultBreaker "p" "a" (darkCircuit Hour)) "p" "b"
    (darkCircuit (Hour + Second)).

(** ** Lemmas *)

Lemma probed_logical e cb c :
  logicalStateWith e (probedCircuit e cb c) (cooldowns cb) = logicalStateWith e c (cooldowns cb).
Proof.
  unfold probedCircuit, probeIfCooldownElapsed, logicalStateWith.
  destruct (bool_decide_reflect (state c = StateOpen)) as [Hs|Hs]; cbn [negb orb andb fst].
  - destruct (stillDark e c (cooldowns cb)) eqn:Hd; cbn [negb fst]; rewrite ?Hd;
      circuit_fields; by rewrite ?bool_decide_true by done.
  - by rewrite bool_decide_false.
Qed.

Lemma probed_idle e cb c :
  state c ≠ StateOpen ∨ logicalStateWith e c (cooldowns cb) = StateOpen →
  probeIfCooldownElapsed e cb c = (c, false).
Proof.
  unfold probeIfCooldownElapsed, logicalStateWith.
  destruct (state c), (stillDark e c (cooldowns cb)); naive_solver.
Qed.

Lemma probed_blocking e cb c :
  blocking e (probedCircuit e cb c) (cooldowns cb) = blocking e c (cooldowns cb).
Proof. apply eq_true_iff_eq. by rewrite !blocking_logical, probed_logical. Qed.

(** Half-opening a circuit leaves the blocking set alone. *)
Lemma blockedModels_probed e cb models m c :
  models !! m = Some c → logicalStateWith e c (cooldowns cb) ≠ StateOpen →
  blockedModels e (<[m := probedCircuit e cb c]> models) (cooldowns cb) =
    blockedModels e models (cooldowns cb).
Proof.
  intros Hm Hst. apply map_eq. intros m'. apply option_eq. intros c'.
  rewrite !blockedModels_lookup. destruct (decide (m = m')) as [<-|].
  - rewrite lookup_insert_eq, Hm. split; intros [[= <-] Hb];
      [rewrite probed_blocking in Hb|]; by apply blocking_logical in Hb.
  - by rewrite lookup_insert_ne.
Qed.

Lemma providerReport_blocked e cb models models' r :
  blockedModels e models r = blockedModels e models' r →
  providerReport e cb models r = providerReport e cb models' r.
Proof. unfold providerReport. by intros ->. Qed.

Lemma modelsOf_circuits cb id models : circuits cb !! id = Some models → modelsOf cb id = models.
Proof. unfold modelsOf. by intros ->. Qed.

Lemma modelsOf_None cb id : circuits cb !! id = None → modelsOf cb id = ∅.
Proof. unfold modelsOf. by intros ->. Qed.

Lemma providerOpen_empty e cb : providerOpen e cb ∅ = false.
Proof. done. Qed.

(** [IsOpen], branch by branch, over the model's own circuit. *)
Lemma IsOpen_cases e cb id name m :
  IsOpen e cb id name m =
    match circuitOf cb id m with
    | Some c =>
        let '(c', probed) := probeIfCooldownElapsed e cb c in
        (putCircuit cb id m c',
         bool_decide (logicalStateWith e c (cooldowns cb) = StateOpen)
           || providerOpen e cb (modelsOf cb id),
         if probed then [LogHalfOpen name id m] else [])
    | None => (cb, providerOpen e cb (modelsOf cb id), [])
    end.
Proof.
  unfold IsOpen, isOpenRead, isOpenWrite. destruct (circuits cb !! id) as [models|] eqn:Hid.
  2: { unfold circuitOf. rewrite (modelsOf_None _ _ Hid). by rewrite lookup_empty. }
  pose proof (modelsOf_circuits _ _ _ Hid) as Hms. unfold circuitOf. rewrite Hms.
  destruct (models !! m) as [c|] eqn:Hm; [|done].
  assert (circuitOf cb id m = Some c) as Hc by (unfold circuitOf; by rewrite Hms).
  unfold probeIfCooldownElapsed, logicalStateWith.
  destruct (bool_decide_reflect (state c = StateOpen)) as [Hs|Hs]; cbn [negb orb andb].
  2: { by rewrite putCircuit_id, bool_decide_false. }
  destruct (stillDark e c (cooldowns cb)) eqn:Hd; cbn [negb].
  { by rewrite putCircuit_id, bool_decide_true. }
  rewrite bool_decide_false by done. cbn [orb].
  f_equal. f_equal. rewrite modelsOf_put, decide_True, Hms by done.
  set (c' := _ ⟦ halfOpenProbes := 0 ⟧).
  rewrite (providerOpen_proper e _ cb); [|by destruct cb].
  assert (c' = probedCircuit e cb c) as ->.
  { unfold probedCircuit, probeIfCooldownElapsed. by rewrite Hs, Hd. }
  rewrite !providerOpen_report. f_equal. f_equal. apply providerReport_blocked.
  apply blockedModels_probed; [done|]. unfold logicalStateWith. by rewrite Hs, Hd.
Qed.
Lemma IsOpen_skips e cb id name m : (IsOpen e cb id name m).1.2 = true ↔ skips e cb id m.
Proof.
  rewrite IsOpen_cases. unfold skips. rewrite GetState_default, <- providerReport_open, <- providerOpen_report.
  destruct (circuitOf cb id m) as [c|] eqn:Hc.
  - destruct (probeIfCooldownElapsed e cb c) as [c' p]. cbn [fst snd default].
    by rewrite orb_true_iff, bool_decide_eq_true.
  - cbn. naive_solver.
Qed.

Lemma GetState_put e cb id m c id' m' :
  GetState e (putCircuit cb id m c) id' m' =
    if decide (id = id' ∧ m = m') then logicalStateWith e c (cooldowns cb) else GetState e cb id' m'.
Proof. unfold GetState. rewrite circuitOf_put. by case_decide. Qed.

Lemma IsOpen_states e cb id name m id' m' :
  GetState e (IsOpen e cb id name m).1.1 id' m' = GetState e cb id' m'.
Proof.
  rewrite IsOpen_cases. destruct (circuitOf cb id m) as [c|] eqn:Hc; [|done].
  destruct (probeIfCooldownElapsed e cb c) as [c' p] eqn:Hp. cbn [fst].
  rewrite GetState_put. case_decide as Hd; [|done]. destruct Hd as [<- <-].
  unfold GetState. rewrite Hc. replace c' with (probedCircuit e cb c); [apply probed_logical|].
  unfold probedCircuit. by rewrite Hp.
Qed.

Lemma probed_again e cb c :
  probeIfCooldownElapsed e cb (probedCircuit e cb c) = (probedCircuit e cb c, false).
Proof.
  apply probed_idle. rewrite probed_logical. unfold probedCircuit, probeIfCooldownElapsed, logicalStateWith.
  destruct (bool_decide_reflect (state c = StateOpen)) as [Hs|Hs]; cbn [negb orb andb fst]; [|by left].
  destruct (stillDark e c (cooldowns cb)); cbn [negb fst]; [by right|by left].
Qed.

(** ** Properties: routing *)

(** C1. [IsOpen] answers exactly when the model or its whole provider is to be
    skipped, and asking is safe: no circuit's logical state moves, no other
    circuit is written, and the only write is the half-open transition of the
    circuit asked about, taken when its cooldown has elapsed and logged then
    and only then. *)
Theorem IsOpen_spec e cb id name m :
  let cb' := (IsOpen e cb id name m).1.1 in
  let out := (IsOpen e cb id name m).2 in
  ((IsOpen e cb id name m).1.2 = true ↔ skips e cb id m) ∧
  (∀ id' m', GetState e cb' id' m' = GetState e cb id' m') ∧
  (∀ id' m', (id', m') ≠ (id, m) → circuitOf cb' id' m' = circuitOf cb id' m') ∧
  (if bool_decide ((state <$> circuitOf cb id m) = Some StateOpen ∧ GetState e cb id m = StateHalfOpen)
   then out = [LogHalfOpen name id m] ∧
        circuitOf cb' id m =
          (fun c => c ⟦ state := StateHalfOpen ⟧ ⟦ halfOpenProbes := 0 ⟧) <$> circuitOf cb id m
   else out = [] ∧ cb' = cb).
Proof.
  intros cb' out. split; [apply IsOpen_skips|]. split; [intros; apply IsOpen_states|].
  unfold cb', out. rewrite IsOpen_cases, GetState_default.
  destruct (circuitOf cb id m) as [c|] eqn:Hc; cbn [default fmap option_fmap option_map Datatypes.id].
  2: { split; [done|]. by rewrite bool_decide_false by naive_solver. }
  unfold probeIfCooldownElapsed, logicalStateWith.
  destruct (bool_decide_reflect (state c = StateOpen)) as [Hs|Hs]; cbn [negb orb andb].
  2: { cbn [fst snd]. rewrite putCircuit_id by done. rewrite bool_decide_false by (intros []; simplify_eq/=; congruence). done. }
  destruct (stillDark e c (cooldowns cb)); cbn [negb fst snd].
  { rewrite putCircuit_id by done. rewrite bool_decide_false by (intros []; simplify_eq/=; congruence). done. }
  split; [intros; apply circuitOf_put_ne; naive_solver|].
  rewrite bool_decide_true by (cbn; by rewrite Hs).
  split; [done|]. by rewrite circuitOf_put_eq.
Qed.

(** Asking twice in the same instant gives the same answer and changes
    nothing the second time. *)
Lemma IsOpen_idempotent e cb id name m :
  let cb' := (IsOpen e cb id name m).1.1 in
  IsOpen e cb' id name m = (cb', (IsOpen e cb id name m).1.2, []).
Proof.
  intros cb'. unfold cb'. rewrite (IsOpen_cases e cb).
  destruct (circuitOf cb id m) as [c|] eqn:Hc; cbn [fst snd].
  2: { rewrite IsOpen_cases. by rewrite Hc. }
  destruct (probeIfCooldownElapsed e cb c) as [c' p] eqn:Hp. cbn [fst snd].
  assert (c' = probedCircuit e cb c) as Hc' by (unfold probedCircuit; by rewrite Hp).
  rewrite IsOpen_cases, circuitOf_put_eq.
  change (cooldowns (putCircuit cb id m c')) with (cooldowns cb).
  change (probeIfCooldownElapsed e (putCircuit cb id m c') c') with (probeIfCooldownElapsed e cb c').
  rewrite Hc', probed_again, <- Hc'.
  rewrite putCircuit_put. rewrite (providerOpen_proper e _ cb) by (by destruct cb).
  rewrite modelsOf_put, decide_True by done.
  f_equal. f_equal. rewrite Hc', probed_logical.
  destruct (bool_decide_reflect (logicalStateWith e c (cooldowns cb) = StateOpen)) as [|Hn]; [done|].
  cbn [orb]. rewrite !providerOpen_report. f_equal. f_equal.
  apply providerReport_blocked, blockedModels_probed; [exact Hc|done].
Qed.
(** ** Lemmas: retry instants *)

Lemma effectiveCooldown_int64 c r :
  reads_ok r → circuit_ok c → 0 < effectiveCooldownForWith c r ≤ int64_max.
Proof.
  intros Hr Hc. split; [by apply effectiveCooldown_pos|].
  destruct (effectiveCooldown_range c r) as [_ Hle]; [auto with gateway..|].
  destruct (ok_override _ Hc) as [_ Hov].
  destruct (unpinnedCooldown_sane c r) as [_ Hu]; [auto with gateway..|].
  revert Hle Hov. unfold int64_max. lia.
Qed.

(** For a circuit of the store, dark means: before its retry instant. *)
Lemma blocking_retry e c r :
  env_ok e → reads_ok r → circuit_ok c →
  blocking e c r = true ↔ state c = StateOpen ∧ now e < retryOf r c.
Proof.
  intros He Hr Hc. unfold blocking, stillDark, retryOf, Add, Sub, IsZero, zeroTime.
  rewrite andb_true_iff, bool_decide_eq_true. split; intros [Hs Hd]; (split; [done|]);
    (assert (0 < openedAt c) by (apply (ok_opened _ Hc); by rewrite Hs));
    destruct (Z.eqb_spec (openedAt c) 0); try lia;
    destruct (effectiveCooldown_int64 c r Hr Hc) as [? Hmax].
  - apply Z.ltb_lt, sat64_lt in Hd; [lia|]. unfold in_int64, int64_min. lia.
  - apply Z.ltb_lt, sat64_lt; [unfold in_int64, int64_min; lia|]. unfold int64_min. lia.
Qed.

Lemma retryOf_pos r c : reads_ok r → circuit_ok c → state c = StateOpen → 0 < retryOf r c.
Proof.
  intros Hr Hc Hs. pose proof (effectiveCooldown_pos c r Hr Hc).
  assert (0 < openedAt c) by (apply (ok_opened _ Hc); by rewrite Hs). unfold retryOf, Add. lia.
Qed.

(** The fold of [BlockedUntil]: the earliest retry instant of the listed
    circuits, and whether all of them are pinned. *)
Lemma blockedUntil_fold models r l :
  (∀ m, m ∈ l → ∃ c, models !! m = Some c ∧ 0 < retryOf r c) →
  let '(t, pinned) := foldl (blockedUntilStep models r) (zeroTime, true) l in
  (l = [] → t = zeroTime) ∧
  (l ≠ [] → ∃ m c, m ∈ l ∧ models !! m = Some c ∧ t = retryOf r c) ∧
  (∀ m c, m ∈ l → models !! m = Some c → t ≤ retryOf r c) ∧
  (pinned = true ↔ ∀ m c, m ∈ l → models !! m = Some c → quotaPinnedForWith c r = true).
Proof.
  induction l as [|m l IH] using rev_ind; intros Hl; simpl.
  { split_and!; try done. by intros ?? ?%elem_of_nil. by split; intros; [set_solver|]. }
  rewrite foldl_app. simpl foldl.
  assert (∀ m', m' ∈ l → ∃ c, models !! m' = Some c ∧ 0 < retryOf r c) as Hl'.
  { intros m' ?. apply Hl. set_solver. }
  specialize (IH Hl'). destruct (foldl _ _ l) as [t pinned].
  destruct IH as (Hz & Hin & Hmin & Hpin).
  destruct (Hl m) as (c & Hm & Hpos); [set_solver|].
  unfold blockedUntilStep. rewrite Hm. fold (retryOf r c).
  assert (IsZero t = bool_decide (l = [])) as Hzero.
  { unfold IsZero, zeroTime. destruct l as [|m0 l0]; [by rewrite Hz|].
    destruct (Hin ltac:(done)) as (m1 & c1 & H1 & H2 & ->).
    destruct (Hl' m1 H1) as (c2 & H3 & H4). simplify_eq. rewrite bool_decide_false by done.
    apply Z.eqb_neq. lia. }
  rewrite Hzero. unfold Before. split_and!.
  - by destruct l.
  - intros _. destruct (bool_decide_reflect (l = [])) as [->|Hne]; cbn [orb].
    { exists m, c. set_solver. }
    destruct (Z.ltb_spec (retryOf r c) t); [exists m, c; set_solver|].
    destruct (Hin Hne) as (m1 & c1 & ? & ? & ?). exists m1, c1. set_solver.
  - intros m' c' [Hm'|Hm'%list_elem_of_singleton]%elem_of_app Hc'.
    + specialize (Hmin m' c' Hm' Hc'). destruct l as [|m0 l0]; [set_solver|].
      rewrite bool_decide_false by done. cbn [orb].
      destruct (Z.ltb_spec (retryOf r c) t); lia.
    + subst m'. assert (c' = c) as -> by congruence. destruct (bool_decide (l = [])); cbn [orb]; [lia|].
      destruct (Z.ltb_spec (retryOf r c) t); lia.
  - destruct (quotaPinnedForWith c r) eqn:Hq; cbn [negb].
    + rewrite Hpin. split; [|set_solver].
      intros H m' c' [Hm'| ->%list_elem_of_singleton]%elem_of_app Hc'; [eauto|congruence].
    + split; [done|]. intros H. rewrite (H m c) in Hq; [done|set_solver|done].
Qed.

Lemma providerReport_models e cb models r :
  let blocked := (providerReport e cb models r).1.2 in
  StronglySorted String.le blocked ∧ NoDup blocked ∧
  (∀ m, m ∈ blocked ↔ ∃ c, models !! m = Some c ∧ blocking e c r = true) ∧
  length blocked = size (blockedModels e models r).
Proof.
  intros blocked. unfold blocked, providerReport. cbn [fst snd].
  destruct (sorted_keys (blockedModels e models r)) as (H1 & H2 & H3 & H4).
  split_and!; try done. intros m. rewrite H3. split.
  - intros [c ?%blockedModels_lookup]. by exists c.
  - intros (c & H). exists c. by apply blockedModels_lookup.
Qed.

Lemma report_nonempty e cb models r :
  (providerReport e cb models r).1.1 = true → (providerReport e cb models r).1.2 ≠ [].
Proof.
  destruct (providerReport_models e cb models r) as (_ & _ & Hin & Hlen).
  rewrite providerReport_open. intros [(m & c & Hm & Hb & _)|Hspan] Hnil.
  - assert (m ∈ (providerReport e cb models r).1.2) as Hel by (apply Hin; eauto).
    rewrite Hnil in Hel. by apply elem_of_nil in Hel.
  - rewrite Hnil in Hlen. simpl in Hlen. pose proof (effectiveSpan_pos cb). lia.
Qed.

(** As time passes and nothing is written, dark circuits stay dark until their
    retry instants, so the blocking set is kept until the earliest of them. *)
Lemma blocking_until e e' c r t :
  env_ok e → env_ok e' → reads_ok r → circuit_ok c →
  blocking e c r = true → now e' < t → t ≤ retryOf r c → blocking e' c r = true.
Proof.
  intros He He' Hr Hc [Hs _]%blocking_retry Ht Hle; [|done..].
  apply blocking_retry; [done..|]. split; [done|lia].
Qed.

Lemma report_until e e' cb models t :
  env_ok e → env_ok e' → config_ok cb → (∀ m c, models !! m = Some c → circuit_ok c) →
  now e' < t →
  (∀ m c, models !! m = Some c → blocking e c (cooldowns cb) = true → t ≤ retryOf (cooldowns cb) c) →
  (providerReport e cb models (cooldowns cb)).1.1 = true →
  (providerReport e' cb models (cooldowns cb)).1.1 = true.
Proof.
  intros He He' Hcb Hok Ht Hmin. rewrite !providerReport_open.
  assert (∀ m c, models !! m = Some c → blocking e c (cooldowns cb) = true →
    blocking e' c (cooldowns cb) = true) as Hkeep.
  { intros m c Hm Hb. eapply (blocking_until e e' c _ t); eauto; apply Hcb. }
  intros [(m & c & Hm & Hb & Hp)|Hspan].
  - left. exists m, c. split_and!; try done; [by eapply Hkeep|apply Hp..].
  - right. etransitivity; [exact Hspan|]. apply inj_le, map_subseteq_size, map_subseteq_spec.
    intros m c. rewrite !blockedModels_lookup. intros [? ?]. eauto.
Qed.
Lemma retry_due e c r :
  env_ok e → reads_ok r → circuit_ok c → state c = StateOpen → retryOf r c ≤ now e →
  logicalStateWith e c r = StateHalfOpen.
Proof.
  intros He Hr Hc Hs Ht. unfold logicalStateWith.
  assert (blocking e c r ≠ true) as Hb%not_true_iff_false.
  { rewrite blocking_retry by done. lia. }
  unfold blocking in Hb. rewrite Hs in *. by rewrite bool_decide_true in * by done; simpl in *; rewrite Hb.
Qed.

Lemma GetState_blocking e cb id m c :
  circuitOf cb id m = Some c →
  GetState e cb id m = StateOpen ↔ blocking e c (cooldowns cb) = true.
Proof. intros Hc. unfold GetState. rewrite Hc. by rewrite blocking_logical. Qed.

Lemma own_retry_sound e cb id m c :
  env_ok e → config_ok cb → circuit_ok c → circuitOf cb id m = Some c →
  blocking e c (cooldowns cb) = true → retry_sound e cb id m (retryOf (cooldowns cb) c).
Proof.
  intros He Hcb Hc Hm Hb. pose proof (config_reads _ Hcb) as Hr.
  destruct (proj1 (blocking_retry e c _ He Hr Hc) Hb) as [Hs Ht]. split; [done| |].
  - intros e' He' Ht'. left. apply (GetState_blocking _ _ _ _ c Hm).
    by apply blocking_retry.
  - exists m. split; [done|]. split; [by eapply GetState_blocking|].
    intros e' He' Ht'. unfold GetState. rewrite Hm. by apply retry_due.
Qed.

Lemma provider_retry_sound e cb id m t m' c :
  env_ok e → config_ok cb → store_ok cb →
  GetState e cb id m ≠ StateOpen →
  (providerReport e cb (modelsOf cb id) (cooldowns cb)).1.1 = true →
  circuitOf cb id m' = Some c → blocking e c (cooldowns cb) = true → t = retryOf (cooldowns cb) c →
  (∀ m1 c1, circuitOf cb id m1 = Some c1 → blocking e c1 (cooldowns cb) = true →
     t ≤ retryOf (cooldowns cb) c1) →
  retry_sound e cb id m t.
Proof.
  intros He Hcb Hok Hown Hrep Hm' Hb -> Hmin. pose proof (config_reads _ Hcb) as Hr.
  destruct (own_retry_sound e cb id m' c He Hcb (Hok _ _ _ Hm') Hm' Hb) as [? _ (m2 & Hm2 & Hst & Hdue)].
  split; [done| |].
  - intros e' He' Ht'. right. apply providerReport_open.
    eapply (report_until e e'); eauto.
  - exists m2. split; [by intros ?|]. done.
Qed.

Lemma BlockedUntil_provider e cb id m :
  GetState e cb id m ≠ StateOpen →
  BlockedUntil e cb id m =
    let models := modelsOf cb id in
    let r := cooldowns cb in
    if (providerReport e cb models r).1.1
    then Some (foldl (blockedUntilStep models r) (zeroTime, true) (providerReport e cb models r).1.2)
    else None.
Proof.
  intros Hst. unfold BlockedUntil. cbv zeta.
  assert (modelsOf cb id = ∅ → (providerReport e cb (modelsOf cb id) (cooldowns cb)).1.1 = false) as Hemp.
  { intros ->. by rewrite <- providerOpen_report, providerOpen_empty. }
  destruct (bool_decide_reflect (modelsOf cb id = ∅)) as [H0|H0]; [by rewrite (Hemp H0)|].
  pose proof (report_nonempty e cb (modelsOf cb id) (cooldowns cb)) as Hne.
  assert (∀ x : option (Time * bool), match modelsOf cb id !! m with
    | Some c => if blocking e c (cooldowns cb)
        then Some (Add (openedAt c) (effectiveCooldownForWith c (cooldowns cb)),
                   quotaPinnedForWith c (cooldowns cb)) else x
    | None => x end = x) as ->.
  { intros x. destruct (modelsOf cb id !! m) as [c|] eqn:Hm; [|done].
    destruct (blocking e c (cooldowns cb)) eqn:Hb; [|done].
    destruct Hst. by apply (GetState_blocking _ _ _ _ c). }
  destruct (providerReport _ _ _ _) as [[[] blocked] p]; cbn [fst snd negb orb] in *; [|done].
  rewrite bool_decide_false by auto. done.
Qed.

(** C24. [BlockedUntil] agrees with [IsOpen] and tells the truth about when to
    come back: it answers exactly when the request is skipped; until the
    instant it names the request stays skipped, and from that instant on a
    circuit of the provider (the model's own, when that is what blocks) is owed
    a probe. A provider-wide block is quota-pinned only if every dark circuit
    is. *)
Theorem BlockedUntil_spec e cb id m :
  env_ok e → config_ok cb → store_ok cb →
  match BlockedUntil e cb id m with
  | None => ¬ skips e cb id m
  | Some (t, pinned) =>
      skips e cb id m ∧ retry_sound e cb id m t ∧
      (pinned = true ↔ ∀ m' c, circuitOf cb id m' = Some c →
         blocking e c (cooldowns cb) = true → (GetState e cb id m = StateOpen → m' = m) →
         quotaPinnedForWith c (cooldowns cb) = true)
  end.
Proof.
  intros He Hcb Hok. pose proof (config_reads _ Hcb) as Hr.
  destruct (decide (GetState e cb id m = StateOpen)) as [Hst|Hst].
  - unfold GetState in Hst. destruct (circuitOf cb id m) as [c|] eqn:Hm; [|done].
    apply blocking_logical in Hst as Hb. unfold BlockedUntil.
    rewrite bool_decide_false; [|intros H0; unfold circuitOf in Hm; by rewrite H0, lookup_empty in Hm].
    unfold circuitOf in Hm. rewrite Hm, Hb. fold (circuitOf cb id m) in Hm.
    assert (GetState e cb id m = StateOpen) as Hopen by (by eapply GetState_blocking).
    split; [by left|]. split; [apply own_retry_sound; eauto|]. split.
    + intros Hq m' c' Hm' _ Heq. rewrite (Heq Hopen) in Hm'. congruence.
    + intros H. by apply (H m c).
  - rewrite BlockedUntil_provider by done. cbv zeta.
    destruct (providerReport e cb (modelsOf cb id) (cooldowns cb)).1.1 eqn:Hrep.
    2: { intros [?|Hsk]; [done|]. by rewrite <- providerReport_open, Hrep in Hsk. }
    pose proof (report_nonempty e cb _ _ Hrep) as Hne.
    destruct (providerReport_models e cb (modelsOf cb id) (cooldowns cb)) as (_ & _ & Hin & _).
    pose proof (blockedUntil_fold (modelsOf cb id) (cooldowns cb)
      (providerReport e cb (modelsOf cb id) (cooldowns cb)).1.2) as Hf.
    destruct (foldl _ _ _) as [t pinned]. destruct Hf as (_ & Hmem & Hmin & Hpin).
    { intros m1 (c1 & Hm1 & Hb1)%Hin. exists c1. split; [done|].
      apply retryOf_pos; [done|by apply (Hok id m1)|by eapply blocking_open]. }
    split; [right; by apply providerReport_open|].
    destruct (Hmem Hne) as (m1 & c1 & (c2 & Hm2 & Hb2)%Hin & Hm1 & ->). simplify_eq.
    split; [eapply provider_retry_sound; eauto|].
    + intros m3 c3 Hm3 Hb3. apply (Hmin m3); [apply Hin; eauto|done].
    + rewrite Hpin. split.
      * intros H m3 c3 Hm3 Hb3 _. apply (H m3); [apply Hin; eauto|done].
      * intros H m3 c3 (c4 & Hm4 & Hb4)%Hin Hm3. simplify_eq. by apply (H m3).
Qed.

Lemma store_ok_put cb id m c : store_ok cb → circuit_ok c → store_ok (putCircuit cb id m c).
Proof.
  intros Hok Hc id' m' c'. rewrite circuitOf_put. case_decide; [by intros [= <-]|apply Hok].
Qed.
#[export] Hint Resolve store_ok_put : gateway.

Lemma defaultBreaker_store : store_ok defaultBreaker.
Proof. by intros id m c. Qed.

Lemma twoDark_ok : config_ok twoDark ∧ store_ok twoDark.
Proof.
  split; [split; [apply default_reads_ok|evaluate|evaluate]|].
  repeat apply store_ok_put; [apply defaultBreaker_store|..];
    (split; simpl; try done; try (unfold int64_max; lia); by left).
Qed.

Lemma BlockedUntil_spec_witness :
  let e := env_at (Hour + 2 * Second) in
  BlockedUntil e twoDark "p" "c" = Some (Hour + Minute, false) ∧
  retry_sound e twoDark "p" "c" (Hour + Minute).
Proof.
  intros e. split; [vm_compute; reflexivity|].
  assert (BlockedUntil e twoDark "p" "c" = Some (Hour + Minute, false)) as Hb by (vm_compute; reflexivity).
  pose proof (BlockedUntil_spec e twoDark "p" "c") as H. rewrite Hb in H.
  apply H; [apply env_at_ok; evaluate|apply twoDark_ok..].
Defined.

Lemma logicalState_note e c t cause r :
  logicalStateWith e (note c t cause) r = logicalStateWith e c r.
Proof. done. Qed.

(** ** Properties: eviction and saturation *)

(** Creating a circuit in a full bucket evicts at most one entry, and only
    one whose loss reroutes nothing: the closed circuit charged longest ago,
    ties broken by model name. When every circuit is open or half-open the cap
    gives way instead, and below the cap nothing is evicted. *)
Lemma evictIfFull_spec e cb models :
  let models' := evictIfFull e cb models in
  let closed c := logicalStateWith e c (cooldowns cb) = StateClosed in
  if bool_decide (size models < maxModelCircuitsPerProvider)%nat then models' = models else
  (models' = models ∧ ∀ m c, models !! m = Some c → ¬ closed c) ∨
  (∃ v c, models !! v = Some c ∧ closed c ∧ models' = delete v models ∧
     S (size models') = size models ∧
     ∀ m c', models !! m = Some c' → closed c' → evictsBefore (v, c) (m, c')).
Proof.
  intros models' closed. unfold models', evictIfFull. case_bool_decide; [done|].
  pose proof (evict_scan e (cooldowns cb) (map_to_list models)) as Hscan. cbv zeta.
  destruct (foldl _ _ _) as [[v t]|].
  - right. destruct Hscan as (c & Hin%elem_of_map_to_list & _ & Hcl & Hmin).
    exists v, c. split_and!; try done.
    + rewrite map_size_delete_Some by (by eexists).
      assert (size models ≠ 0%nat); [|lia].
      intros Hz%map_size_empty_inv. by rewrite Hz, lookup_empty in Hin.
    + intros m c' Hm Hc'. apply Hmin; [by apply elem_of_map_to_list|done].
  - left. split; [done|]. intros m c Hm. by apply (Hscan (m, c)), elem_of_map_to_list.
Qed.

(** A rate-limit answer from a provider that is merely saturated is neutral
    evidence: it moves no logical state anywhere, and on its own circuit it
    writes the verdict stamp and at most the half-open transition that was due
    anyway: streaks, clocks, pins and the charge stamp all stay. *)
Lemma RecordSaturated_neutral e cb id name m :
  let cb' := RecordSaturated e cb id name m in
  let c := default newCircuit (circuitOf cb id m) in
  framed e cb cb' id m ∧
  GetState e cb' id m = GetState e cb id m ∧
  circuitOf cb' id m =
    Some (if decide (GetState e cb id m = StateOpen) then c
          else note (probedCircuit e cb c) (now e) (UpstreamStatus 429 causeSaturated)).
Proof.
  intros cb' c. pose proof (RecordSaturated_charged e cb id name m) as Hch. fold cb' c in Hch.
  split; [apply Hch|]. rewrite (charged_GetState _ _ _ _ _ _ _ Hch), (charged_here _ _ _ _ _ _ _ Hch).
  rewrite GetState_default. fold c. unfold saturated. fold (probedCircuit e cb c).
  rewrite <- (probed_logical e cb c).
  assert (state (probedCircuit e cb c) = logicalStateWith e (probedCircuit e cb c) (cooldowns cb)) as Hs.
  { rewrite probed_logical. unfold probedCircuit, probeIfCooldownElapsed, logicalStateWith.
    destruct (bool_decide_reflect (state c = StateOpen)), (stillDark e c (cooldowns cb)); done. }
  rewrite <- Hs. destruct (bool_decide_reflect (state (probedCircuit e cb c) = StateOpen)) as [Ho|Ho];
    cbn [negb].
  - rewrite <- Hs. split; [done|]. rewrite decide_True by done. f_equal.
    unfold probedCircuit. rewrite probed_idle; [done|]. right. by rewrite <- probed_logical, <- Hs.
  - rewrite decide_False by done. split; [|done]. by rewrite logicalState_note, Hs.
Qed.

(** The provider-wide report lists exactly the models whose circuits turn
    requests away, each once and in order, and calls the provider open when an
    account pin holds or the span of simultaneously dark models is reached. *)
Lemma providerReport_spec e cb id :
  let r := cooldowns cb in
  let '(open, blocked, pinned) := providerReport e cb (modelsOf cb id) r in
  StronglySorted String.le blocked ∧ NoDup blocked ∧
  (∀ m, m ∈ blocked ↔ GetState e cb id m = StateOpen) ∧
  (open = true ↔ (∃ m, accountPinnedBy e (modelsOf cb id) r m) ∨
                 effectiveSpan cb ≤ Z.of_nat (length blocked)) ∧
  (pinned = true ↔ ∃ m c, m ∈ blocked ∧ circuitOf cb id m = Some c ∧ quotaPinnedForWith c r = true) ∧
  providerOpen e cb (modelsOf cb id) = open.
Proof.
  intros r. rewrite providerOpen_report.
  destruct (providerReport_models e cb (modelsOf cb id) r) as (H1 & H2 & H3 & H4).
  pose proof (providerReport_open e cb (modelsOf cb id) r) as Ho.
  assert ((providerReport e cb (modelsOf cb id) r).2 = true ↔ ∃ m c,
    modelsOf cb id !! m = Some c ∧ blocking e c r = true ∧ quotaPinnedForWith c r = true) as Hp.
  { unfold providerReport. cbn [snd]. rewrite existsb_map_to_list.
    split; intros (m & c & H); exists m, c; rewrite blockedModels_lookup in *; naive_solver. }
  fold r. destruct (providerReport _ _ _ _) as [[open blocked] pinned]. cbn [fst snd] in *.
  split_and!; try done.
  - intros m. rewrite H3. unfold GetState, circuitOf. destruct (modelsOf cb id !! m) as [c|] eqn:Hm.
    + rewrite <- blocking_logical. naive_solver.
    + naive_solver.
  - by rewrite Ho, H4.
  - rewrite Hp. unfold circuitOf. split; intros (m & c & H); exists m, c; rewrite H3 in *; naive_solver.
Qed.
