(* ===== verification/BreakerPhases.v ===== *)
(** * The phase machine (internal/failover: circuitbreaker.go)

    What a circuit is to its callers, with pins, backoff, seeds and stamps
    abstracted away: it serves with a streak of failures, it is dark, or it is
    on trial with some probes banked. Every operation of the breaker on its own
    circuit refines one transition of this machine, and the machine's progress
    properties transfer. *)

From S2P Require Import Prelude Circuit Cooldown CircuitEvents Breaker BreakerGate.

(** ** The specification *)

Inductive phase :=
| Serving (fails : Z)
| Dark
| Probing (banked : Z).

(** The transitions, for a threshold [T] and [P] probes to close. *)
Definition onFailure (T : Z) (p : phase) : phase :=
  match p with
  | Serving k => if T <=? k + 1 then Dark else Serving (k + 1)
  | Probing _ | Dark => Dark
  end.

Definition onExhausted (p : phase) : phase := Dark.

Definition onSuccess (P : Z) (p : phase) : phase :=
  match p with
  | Serving _ => Serving 0
  | Probing j => if P <=? j + 1 then Serving 0 else Probing (j + 1)
  | Dark => Dark
  end.

(** The request-path operations on one circuit. *)
Inductive record_op :=
| Fail (by429 : bool) (cause : Cause)
| Exhaust (status : Z) (pinHint : Duration) (account : bool)
| Saturate
| Succeed (served : bool) (cause : Cause)
| Ask.

Definition perform (e : Env) (cb : CircuitBreaker) (id name m : string) (o : record_op) : CircuitBreaker :=
  match o with
  | Fail by429 cause => (recordFailure e cb id name m by429 cause).1
  | Exhaust status hint account => (recordExhausted e cb id name m status hint account).1
  | Saturate => RecordSaturated e cb id name m
  | Succeed served cause => (recordSuccess e cb id name m served cause).1
  | Ask => (IsOpen e cb id name m).1.1
  end.

Definition transition (T P : Z) (o : record_op) (p : phase) : phase :=
  match o with
  | Fail _ _ => onFailure T p
  | Exhaust _ _ _ => onExhausted p
  | Succeed _ _ => onSuccess P p
  | Saturate | Ask => p
  end.

(** ** The abstraction *)

Definition phaseOf (e : Env) (r : cooldownReads) (c : circuit) : phase :=
  match logicalStateWith e c r with
  | StateClosed => Serving (consecutiveFails c)
  | StateOpen => Dark
  | StateHalfOpen => Probing (if bool_decide (state c = StateOpen) then 0 else halfOpenProbes c)
  end.

(** The phase of a model: an untracked one serves with a clean record. *)
Definition phaseAt (e : Env) (cb : CircuitBreaker) (id m : string) : phase :=
  phaseOf e (cooldowns cb) (default newCircuit (circuitOf cb id m)).

(** Failures in a row, each at an instant of its own. *)
Definition failAll (id name m : string) (cause : Cause) (cb : CircuitBreaker) (es : list Env) : CircuitBreaker :=
  foldl (fun cb e => (RecordFailure e cb id name m cause).1) cb es.

Definition succeedAll (id name m : string) (cb : CircuitBreaker) (es : list Env) : CircuitBreaker :=
  foldl (fun cb e => (RecordSuccess e cb id name m).1) cb es.

(** A serving sibling may be evicted to make room; nothing else happens to the
    circuits an operation is not about. *)
Definition undisturbed (e : Env) (cb cb' : CircuitBreaker) (id m : string) : Prop :=
  (∀ id' m', id' ≠ id → phaseAt e cb' id' m' = phaseAt e cb id' m') ∧
  (∀ m', m' ≠ m → phaseAt e cb' id m' = phaseAt e cb id m' ∨
     (∃ k, phaseAt e cb id m' = Serving k) ∧ phaseAt e cb' id m' = Serving 0).

(** On trial with [j] probes banked, whatever the time. *)
Definition onTrial (cb : CircuitBreaker) (id m : string) (j : Z) : Prop :=
  ∃ c, circuitOf cb id m = Some c ∧ state c = StateHalfOpen ∧ halfOpenProbes c = j.

(** ** Lemmas *)

Lemma phaseOf_ext e r c c' :
  state c' = state c → consecutiveFails c' = consecutiveFails c → halfOpenProbes c' = halfOpenProbes c →
  stillDark e c' r = stillDark e c r → phaseOf e r c' = phaseOf e r c.
Proof. intros Hs Hf Hh Hd. unfold phaseOf, logicalStateWith. by rewrite Hs, Hf, Hh, Hd. Qed.

Lemma phaseOf_dark e r c : phaseOf e r c = Dark ↔ logicalStateWith e c r = StateOpen.
Proof. unfold phaseOf. by destruct (logicalStateWith e c r). Qed.

(** The circuit every record path reaches is in the phase it was found in, with
    the half-open transition written out. *)
Lemma reached_phase e cb cause c :
  let c' := reached e cb cause c in
  match phaseOf e (cooldowns cb) c with
  | Serving k => state c' = StateClosed ∧ consecutiveFails c' = k
  | Dark => c' = c ⟦ lastCharged := now e ⟧
  | Probing j => state c' = StateHalfOpen ∧ halfOpenProbes c' = j
  end.
Proof.
  cbv zeta. destruct (reached_logical e cb cause c) as (Hst & Hf & _ & _ & _ & Hdark & _).
  destruct (reached_probes e cb cause c) as [_ Hp]. unfold phaseOf.
  destruct (logicalStateWith e c (cooldowns cb)); auto.
Qed.

Lemma failed_phase e cb id m by429 cause c :
  env_ok e → config_ok cb → circuit_ok c →
  phaseOf e (cooldowns cb) (failed e cb id m by429 cause c) =
    onFailure (effectiveThreshold cb) (phaseOf e (cooldowns cb) c).
Proof.
  intros He Hcb Hc. pose proof (reached_phase e cb cause c) as Hr. cbv zeta in Hr.
  pose proof (reached_ok e cb cause c Hc) as Hok. pose proof (config_threshold _ Hcb).
  unfold failed. set (c1 := reached e cb cause c) in *. destruct (phaseOf e (cooldowns cb) c) as [k| |j] eqn:Hp.
  - destruct Hr as [Hs Hk]. rewrite Hs. circuit_fields. rewrite Hk. simpl. pose proof (ok_fails _ Hok).
    destruct (_ <=? _).
    + apply phaseOf_dark, opened_logical; auto with gateway.
    + unfold phaseOf, logicalStateWith. circuit_fields. by rewrite Hs.
  - rewrite Hr. circuit_fields. apply phaseOf_dark in Hp. destruct (state c) eqn:Hs.
    + unfold logicalStateWith in Hp. rewrite Hs in Hp. done.
    + by apply phaseOf_dark.
    + unfold logicalStateWith in Hp. rewrite Hs in Hp. done.
  - destruct Hr as [Hs _]. rewrite Hs. simpl. apply phaseOf_dark, opened_logical; [done..|].
    pose proof (ok_probes _ Hok). apply failedProbes_ok; circuit_fields; [lia|by rewrite Hs|auto with gateway].
Qed.

Lemma exhausted_phase e cb id m status hint account c :
  env_ok e → config_ok cb → circuit_ok c →
  phaseOf e (cooldowns cb) (exhausted e cb id m status hint account c) = Dark.
Proof.
  intros He Hcb Hc. pose proof (reached_phase e cb (UpstreamStatus status causeExhausted) c) as Hr. cbv zeta in Hr.
  pose proof (reached_ok e cb (UpstreamStatus status causeExhausted) c Hc) as Hok.
  pose proof (config_threshold _ Hcb). pose proof (ok_probes _ Hok).
  unfold exhausted. set (c1 := reached e cb _ c) in *. destruct (phaseOf e (cooldowns cb) c) as [k| |j] eqn:Hp.
  - destruct Hr as [Hs _]. rewrite Hs. apply phaseOf_dark, opened_logical; auto with gateway.
  - rewrite Hr. circuit_fields. apply phaseOf_dark in Hp.
    destruct (state c) eqn:Hs; [unfold logicalStateWith in Hp; by rewrite Hs in Hp|by apply phaseOf_dark
      |unfold logicalStateWith in Hp; by rewrite Hs in Hp].
  - destruct Hr as [Hs _]. rewrite Hs. apply phaseOf_dark, opened_logical; [done..|].
    case_match; [|auto with gateway]. apply failedProbes_ok; circuit_fields; [lia|by rewrite Hs|auto with gateway].
Qed.

Lemma phaseOf_served e r c t : phaseOf e r (c ⟦ lastSuccess := t ⟧) = phaseOf e r c.
Proof. done. Qed.

Lemma succeeded_phase e cb served cause c :
  phaseOf e (cooldowns cb) (succeeded e cb served cause c) =
    onSuccess (HalfOpenMaxProbes cb) (phaseOf e (cooldowns cb) c).
Proof.
  pose proof (reached_phase e cb cause c) as Hr. cbv zeta in Hr. unfold succeeded.
  set (c1 := reached e cb cause c) in *. set (c2 := if served then _ else c1).
  assert (state c2 = state c1 ∧ halfOpenProbes c2 = halfOpenProbes c1) as [Hs2 Hh2]
    by (unfold c2; by destruct served).
  assert (∀ r, phaseOf e r c2 = phaseOf e r c1) as Hp2.
  { intros r. unfold c2. destruct served; [apply phaseOf_served|reflexivity]. }
  cbv zeta. rewrite Hs2. clearbody c2. destruct (phaseOf e (cooldowns cb) c) as [k| |j] eqn:Hp.
  - destruct Hr as [Hs _]. rewrite Hs. unfold phaseOf, logicalStateWith. circuit_fields. by rewrite Hs2, Hs.
  - assert (state c1 = StateOpen) as Hs.
    { rewrite Hr. circuit_fields. apply phaseOf_dark, blocking_logical, blocking_open in Hp. done. }
    rewrite Hs, Hp2, Hr. simpl. by apply phaseOf_dark in Hp; apply phaseOf_dark.
  - destruct Hr as [Hs Hj]. rewrite Hs. circuit_fields. rewrite Hh2, Hj. simpl.
    destruct (_ <=? _); unfold phaseOf, logicalStateWith, closeCircuit, clear429Escalation; circuit_fields; [done|].
    by rewrite Hs2, Hs.
Qed.

(** The half-open transition is no change of phase. *)
Lemma probed_phase e cb c : phaseOf e (cooldowns cb) (probedCircuit e cb c) = phaseOf e (cooldowns cb) c.
Proof.
  unfold phaseOf. rewrite probed_logical. unfold probedCircuit, probeIfCooldownElapsed, logicalStateWith.
  destruct (bool_decide_reflect (state c = StateOpen)), (stillDark e c (cooldowns cb)); cbn [negb orb andb fst];
    circuit_fields; rewrite ?bool_decide_true by done; by rewrite ?bool_decide_false by done.
Qed.

Lemma saturated_phase e cb c : phaseOf e (cooldowns cb) (saturated e cb c) = phaseOf e (cooldowns cb) c.
Proof.
  unfold saturated. fold (probedCircuit e cb c). rewrite <- (probed_phase e cb c).
  generalize (probedCircuit e cb c). intros c1. destruct (negb _); [|done]. by apply phaseOf_ext.
Qed.

Lemma charged_config e cb cb' id name m c : charged e cb cb' id name m c → sameConfig cb' cb.
Proof. intros [[ms ->] _ _]. by destruct cb. Qed.

Lemma charged_phase e e' cb cb' id name m c :
  charged e cb cb' id name m c → phaseAt e' cb' id m = phaseOf e' (cooldowns cb) c.
Proof.
  intros Hch. unfold phaseAt. rewrite (charged_here _ _ _ _ _ _ _ Hch).
  by rewrite (charged_config _ _ _ _ _ _ _ Hch).
Qed.

Lemma charged_store_ok e cb cb' id name m c :
  charged e cb cb' id name m c → circuit_ok c → store_ok cb → store_ok cb'.
Proof.
  intros [_ Hhere Hfr] Hc Hok id' m' c' Hm. destruct (decide (id' = id)) as [->|Hne].
  - destruct (decide (m' = m)) as [->|Hm']; [congruence|].
    eapply Hok. by eapply (frame_old _ _ _ _ _ Hfr).
  - rewrite (framed_other _ _ _ _ _ _ _ Hfr) in Hm by done. by eapply Hok.
Qed.

Lemma store_ok_default cb id m : store_ok cb → circuit_ok (default newCircuit (circuitOf cb id m)).
Proof. intros Hok. destruct (circuitOf cb id m) eqn:Hm; [by eapply Hok|apply newCircuit_ok]. Qed.

Lemma charged_undisturbed e cb cb' id name m c : charged e cb cb' id name m c → undisturbed e cb cb' id m.
Proof.
  intros Hch. pose proof (charged_config _ _ _ _ _ _ _ Hch) as Hcfg. destruct Hch as [_ _ Hfr].
  unfold undisturbed, phaseAt. rewrite (cooldowns_proper _ _ Hcfg). split.
  - intros id' m' Hne. by rewrite (framed_other _ _ _ _ _ _ _ Hfr) by done.
  - intros m' Hne. destruct Hfr as [_ Hkept Hold]. destruct (circuitOf cb' id m') as [c'|] eqn:Hm'.
    + left. by rewrite (Hold _ _ Hne Hm').
    + destruct (circuitOf cb id m') as [c0|] eqn:Hm0; [|by left]. right. split; [|done]. simpl.
      destruct (decide (logicalStateWith e c0 (cooldowns cb) = StateClosed)) as [Hs|Hs].
      * unfold phaseOf. rewrite Hs. eauto.
      * by rewrite (Hkept _ _ Hne Hm0 Hs) in Hm'.
Qed.

(** [IsOpen] as one more operation: it disturbs no phase at all. *)
Lemma IsOpen_phase e cb id name m id' m' :
  phaseAt e (IsOpen e cb id name m).1.1 id' m' = phaseAt e cb id' m'.
Proof.
  rewrite IsOpen_cases. destruct (circuitOf cb id m) as [c|] eqn:Hc; [|done].
  pose proof (probed_phase e cb c) as Hp. unfold probedCircuit in Hp.
  destruct (probeIfCooldownElapsed e cb c) as [c' p]. cbn [fst] in *. unfold phaseAt.
  change (cooldowns (putCircuit cb id m c')) with (cooldowns cb). rewrite circuitOf_put.
  case_decide as Hd; [|done]. destruct Hd as [<- <-]. by rewrite Hc.
Qed.

Lemma IsOpen_kept e cb id name m :
  sameConfig (IsOpen e cb id name m).1.1 cb ∧ (store_ok cb → store_ok (IsOpen e cb id name m).1.1).
Proof.
  rewrite IsOpen_cases. destruct (circuitOf cb id m) as [c|] eqn:Hc; [|by split].
  pose proof (probeIfCooldownElapsed_ok e cb c) as Hp.
  destruct (probeIfCooldownElapsed e cb c) as [c' p]. cbn [fst] in *. split; [by destruct cb|].
  intros Hok. apply store_ok_put; [done|]. by eapply Hp, Hok.
Qed.

(** Every operation keeps the breaker's configuration and invariant. *)
Lemma perform_kept e cb id name m o :
  env_ok e → config_ok cb → store_ok cb →
  sameConfig (perform e cb id name m o) cb ∧ store_ok (perform e cb id name m o).
Proof.
  intros He Hcb Hok. pose proof (store_ok_default cb id m Hok) as Hc. destruct o as [by429 cause|st hint acc| |sv cause|]; simpl.
  - pose proof (recordFailure_charged e cb id name m by429 cause) as Hch.
    split; [by eapply charged_config|]. eapply charged_store_ok; [exact Hch|by apply failed_ok|done].
  - pose proof (recordExhausted_charged e cb id name m st hint acc) as Hch.
    split; [by eapply charged_config|]. eapply charged_store_ok; [exact Hch|by apply exhausted_ok|done].
  - pose proof (RecordSaturated_charged e cb id name m) as Hch.
    split; [by eapply charged_config|]. eapply charged_store_ok; [exact Hch|by apply saturated_ok|done].
  - pose proof (recordSuccess_charged e cb id name m sv cause) as Hch.
    split; [by eapply charged_config|]. eapply charged_store_ok; [exact Hch|by apply succeeded_ok|done].
  - destruct (IsOpen_kept e cb id name m) as [? Hk]. split; [done|by apply Hk].
Qed.

Lemma perform_undisturbed e cb id name m o : undisturbed e cb (perform e cb id name m o) id m.
Proof.
  destruct o as [by429 cause|st hint acc| |sv cause|]; cbn [perform].
  - eapply charged_undisturbed, recordFailure_charged.
  - eapply charged_undisturbed, recordExhausted_charged.
  - eapply charged_undisturbed, RecordSaturated_charged.
  - eapply charged_undisturbed, recordSuccess_charged.
  - split; intros; [|left]; apply IsOpen_phase.
Qed.

Lemma perform_phase e cb id name m o :
  env_ok e → config_ok cb → store_ok cb →
  phaseAt e (perform e cb id name m o) id m =
    transition (effectiveThreshold cb) (HalfOpenMaxProbes cb) o (phaseAt e cb id m).
Proof.
  intros He Hcb Hok. pose proof (store_ok_default cb id m Hok) as Hc.
  destruct o as [by429 cause|st hint acc| |sv cause|]; cbn [perform transition].
  - rewrite (charged_phase _ _ _ _ _ _ _ _ (recordFailure_charged e cb id name m by429 cause)). by apply failed_phase.
  - rewrite (charged_phase _ _ _ _ _ _ _ _ (recordExhausted_charged e cb id name m st hint acc)). by apply exhausted_phase.
  - rewrite (charged_phase _ _ _ _ _ _ _ _ (RecordSaturated_charged e cb id name m)). apply saturated_phase.
  - rewrite (charged_phase _ _ _ _ _ _ _ _ (recordSuccess_charged e cb id name m sv cause)). apply succeeded_phase.
  - apply IsOpen_phase.
Qed.

(** ** Lemmas: progress *)

(** Phases other than darkness do not move on their own. *)
Lemma serving_state e r c k : phaseOf e r c = Serving k ↔ state c = StateClosed ∧ consecutiveFails c = k.
Proof.
  unfold phaseOf, logicalStateWith. destruct (state c), (stillDark e c r); cbn; naive_solver.
Qed.

Lemma serving_anytime e e' cb id m k : phaseAt e cb id m = Serving k → phaseAt e' cb id m = Serving k.
Proof. unfold phaseAt. by rewrite !serving_state. Qed.

Lemma onTrial_phase e cb id m j : onTrial cb id m j → phaseAt e cb id m = Probing j.
Proof.
  intros (c & Hm & Hs & Hj). unfold phaseAt. rewrite Hm. unfold phaseOf, logicalStateWith. cbn [default].
  change (Datatypes.id c) with c. rewrite Hs. cbn. by rewrite Hj.
Qed.

Lemma failAll_streak id name m cause es cb k :
  Forall env_ok es → config_ok cb → store_ok cb → (∀ e, phaseAt e cb id m = Serving k) →
  k + Z.of_nat (length es) < effectiveThreshold cb →
  let cb' := failAll id name m cause cb es in
  sameConfig cb' cb ∧ store_ok cb' ∧ ∀ e, phaseAt e cb' id m = Serving (k + Z.of_nat (length es)).
Proof.
  revert cb k. induction es as [|e es IH]; intros cb k Hes Hcb Hok Hph Hlt; cbn [failAll foldl length] in *.
  { split; [reflexivity|]. split; [done|]. intros e. rewrite Hph. f_equal. lia. }
  apply Forall_cons in Hes as [He Hes].
  destruct (perform_kept e cb id name m (Fail false cause) He Hcb Hok) as [Hcfg Hok1].
  pose proof (perform_phase e cb id name m (Fail false cause) He Hcb Hok) as Hp1.
  cbn [perform transition] in *. fold (RecordFailure e cb id name m cause) in *. rewrite Hph in Hp1. simpl in Hp1.
  rewrite (proj2 (Z.leb_gt _ _)) in Hp1 by lia.
  set (cb1 := (RecordFailure e cb id name m cause).1) in *.
  destruct (IH cb1 (k + 1) Hes) as (H1 & H2 & H3).
  - by rewrite Hcfg.
  - done.
  - intros e'. by eapply serving_anytime.
  - rewrite Hcfg. lia.
  - split; [by etransitivity|]. split; [done|]. intros e'. rewrite H3. f_equal. lia.
Qed.

Lemma succeedAll_trial id name m es cb j :
  Forall env_ok es → config_ok cb → store_ok cb → onTrial cb id m j →
  j + Z.of_nat (length es) < HalfOpenMaxProbes cb →
  let cb' := succeedAll id name m cb es in
  sameConfig cb' cb ∧ store_ok cb' ∧ onTrial cb' id m (j + Z.of_nat (length es)).
Proof.
  revert cb j. induction es as [|e es IH]; intros cb j Hes Hcb Hok Htr Hlt; cbn [succeedAll foldl length] in *.
  { split; [reflexivity|]. split; [done|]. by rewrite Z.add_0_r. }
  apply Forall_cons in Hes as [He Hes].
  destruct (perform_kept e cb id name m (Succeed true (MkCause 0 causeSuccess)) He Hcb Hok) as [Hcfg Hok1].
  pose proof (recordSuccess_charged e cb id name m true (MkCause 0 causeSuccess)) as Hch.
  cbn [perform] in *. fold (RecordSuccess e cb id name m) in *.
  assert (onTrial (RecordSuccess e cb id name m).1 id m (j + 1)) as Htr1.
  { eexists. split; [apply (charged_here _ _ _ _ _ _ _ Hch)|].
    pose proof (onTrial_phase e _ _ _ _ Htr) as Hph. unfold phaseAt in Hph.
    set (c := default newCircuit (circuitOf cb id m)) in *.
    pose proof (reached_phase e cb (MkCause 0 causeSuccess) c) as Hr. cbv zeta in Hr. rewrite Hph in Hr. destruct Hr as [Hs Hj].
    unfold succeeded. cbv zeta. circuit_fields. rewrite Hs, Hj. rewrite (proj2 (Z.leb_gt _ _)) by lia.
    circuit_fields. done. }
  set (cb1 := (RecordSuccess e cb id name m).1) in *.
  destruct (IH cb1 (j + 1) Hes) as (H1 & H2 & H3).
  - by rewrite Hcfg.
  - done.
  - done.
  - rewrite Hcfg. lia.
  - split; [by etransitivity|]. split; [done|].
    replace (j + Z.of_nat (S (length es))) with (j + 1 + Z.of_nat (length es)) by lia. exact H3.
Qed.

(** ** Properties *)

(** C3. The breaker refines the phase machine: every request-path operation,
    whatever pins, backoff and stamps it also writes, takes its own circuit
    through exactly the specified transition, and leaves every other circuit in
    its phase (a serving sibling may lose its record to eviction). *)
Theorem perform_refines e cb id name m o :
  env_ok e → config_ok cb → store_ok cb →
  let cb' := perform e cb id name m o in
  phaseAt e cb' id m =
    transition (effectiveThreshold cb) (HalfOpenMaxProbes cb) o (phaseAt e cb id m) ∧
  undisturbed e cb cb' id m ∧
  sameConfig cb' cb ∧ store_ok cb'.
Proof.
  intros He Hcb Hok cb'. split; [by apply perform_phase|].
  split; [apply perform_undisturbed|by apply perform_kept].
Qed.

Lemma perform_refines_witness :
  let e := env_at (Hour + 2 * Minute) in
  phaseAt e twoDark "p" "a" = Probing 0 ∧
  phaseAt e (perform e twoDark "p" "prov" "a" (Fail true (MkCause 429 "slow down"))) "p" "a" = Dark.
Proof.
  intros e. split; [vm_compute; reflexivity|].
  destruct (perform_refines e twoDark "p" "prov" "a" (Fail true (MkCause 429 "slow down"))) as [H _];
    [apply env_at_ok; evaluate|apply twoDark_ok..|].
  rewrite H. vm_compute. reflexivity.
Defined.

(** A model opens after exactly the threshold of consecutive failures, no
    sooner and no later, whenever those failures happen: short of it, the model
    still serves with the streak counted; on reaching it, it is dark. *)
Lemma threshold_opens id name m cause cb es e k :
  Forall env_ok es → env_ok e → config_ok cb → store_ok cb →
  phaseAt e cb id m = Serving k → k + Z.of_nat (length es) < effectiveThreshold cb →
  let cb' := failAll id name m cause cb es in
  (∀ e', phaseAt e' cb' id m = Serving (k + Z.of_nat (length es))) ∧
  (k + Z.of_nat (length es) + 1 = effectiveThreshold cb →
     GetState e (RecordFailure e cb' id name m cause).1 id m = StateOpen ∧
     (IsOpen e (RecordFailure e cb' id name m cause).1 id name m).1.2 = true).
Proof.
  intros Hes He Hcb Hok Hph Hlt cb'.
  destruct (failAll_streak id name m cause es cb k Hes Hcb Hok) as (Hcfg & Hok' & Hser); [|done|].
  { intros e'. by eapply serving_anytime. }
  fold cb' in Hcfg, Hok', Hser. split; [exact Hser|]. intros Heq.
  assert (config_ok cb') as Hcb' by (by rewrite Hcfg).
  pose proof (perform_phase e cb' id name m (Fail false cause) He Hcb' Hok') as Hp.
  cbn [perform transition] in Hp. fold (RecordFailure e cb' id name m cause) in Hp.
  rewrite Hser, (effectiveThreshold_proper _ _ Hcfg) in Hp. simpl in Hp. rewrite (proj2 (Z.leb_le _ _)) in Hp by lia.
  apply phaseOf_dark in Hp. rewrite <- GetState_default in Hp. split; [exact Hp|].
  apply IsOpen_skips. by left.
Qed.

Lemma threshold_opens_witness :
  let es := (fun i => env_at (Hour + Z.of_nat i * Minute)) <$> seq 0 4 in
  let cb' := failAll "p" "prov" "m" (MkCause 503 "upstream status 503") defaultBreaker es in
  let e := env_at (2 * Hour) in
  phaseAt e cb' "p" "m" = Serving 4 ∧
  GetState e (RecordFailure e cb' "p" "prov" "m" (MkCause 503 "upstream status 503")).1 "p" "m" = StateOpen.
Proof.
  intros es cb' e.
  destruct (threshold_opens "p" "prov" "m" (MkCause 503 "upstream status 503") defaultBreaker es e 0) as [H1 H2];
    [apply Forall_fmap, Forall_true; intros i; apply env_at_ok; unfold Hour, Minute, Second; lia
    |apply env_at_ok; evaluate|apply defaultBreaker_ok
    |apply defaultBreaker_store|reflexivity|evaluate|].
  split; [exact (H1 e)|]. exact (proj1 (H2 eq_refl)).
Defined.

(** C39. A dark model recovers: once its wait is over, asking puts it on trial,
    and [HalfOpenMaxProbes] answered probes, no fewer, return it to service
    with a clean record, whenever the answers come. *)
Theorem recovers id name m cb c e es e1 :
  env_ok e → Forall env_ok es → env_ok e1 → config_ok cb → store_ok cb →
  circuitOf cb id m = Some c → state c = StateOpen → retryOf (cooldowns cb) c ≤ now e →
  Z.of_nat (length es) + 1 = HalfOpenMaxProbes cb →
  let asked := (IsOpen e cb id name m).1.1 in
  let probed := succeedAll id name m asked es in
  (∀ e', phaseAt e' asked id m = Probing 0) ∧
  (∀ e', phaseAt e' probed id m = Probing (Z.of_nat (length es))) ∧
  (∀ e', phaseAt e' (RecordSuccess e1 probed id name m).1 id m = Serving 0).
Proof.
  intros He Hes He1 Hcb Hok Hm Hs Ht Hlen asked probed.
  assert (onTrial asked id m 0) as Htr.
  { unfold asked. rewrite IsOpen_cases, Hm.
    pose proof (retry_due e c (cooldowns cb) He (config_reads _ Hcb) (Hok _ _ _ Hm) Hs Ht) as Hd.
    unfold probeIfCooldownElapsed. unfold logicalStateWith in Hd. rewrite Hs in *.
    rewrite bool_decide_true in * by done. destruct (stillDark e c (cooldowns cb)); [done|]. cbn [negb orb fst].
    eexists. rewrite circuitOf_put_eq. split; [reflexivity|]. by circuit_fields. }
  destruct (IsOpen_kept e cb id name m) as [Hcfg Hk]. fold asked in Hcfg, Hk. specialize (Hk Hok).
  assert (config_ok asked) as Hcb1 by (by rewrite Hcfg).
  destruct (succeedAll_trial id name m es asked 0 Hes Hcb1 Hk Htr) as (Hcfg2 & Hok2 & Htr2).
  { rewrite Hcfg. lia. }
  fold probed in Hcfg2, Hok2, Htr2. split_and!.
  - intros e'. by apply onTrial_phase.
  - intros e'. by apply onTrial_phase.
  - intros e'. apply (serving_anytime e1).
    assert (config_ok probed) as Hcb2 by (by rewrite Hcfg2).
    pose proof (perform_phase e1 probed id name m (Succeed true (MkCause 0 causeSuccess)) He1 Hcb2 Hok2) as Hp.
    cbn [perform transition] in Hp. fold (RecordSuccess e1 probed id name m) in Hp.
    rewrite (onTrial_phase e1 _ _ _ _ Htr2), (HalfOpenMaxProbes_proper _ _ Hcfg2),
      (HalfOpenMaxProbes_proper _ _ Hcfg) in Hp. simpl in Hp.
    by rewrite (proj2 (Z.leb_le _ _)) in Hp by lia.
Qed.

Lemma recovers_witness :
  let e := env_at (Hour + Minute) in
  let asked := (IsOpen e twoDark "p" "prov" "a").1.1 in
  phaseAt e asked "p" "a" = Probing 0 ∧
  phaseAt (env_at (3 * Hour)) (RecordSuccess (env_at (2 * Hour)) asked "p" "prov" "a").1 "p" "a" = Serving 0.
Proof.
  intros e asked.
  destruct (recovers "p" "prov" "a" twoDark (darkCircuit Hour) e [] (env_at (2 * Hour))) as (H1 & _ & H3);
    [apply env_at_ok; evaluate|constructor|apply env_at_ok; evaluate|apply twoDark_ok|apply twoDark_ok|reflexivity
    |reflexivity|evaluate|reflexivity|].
  split; [exact (H1 e)|exact (H3 (env_at (3 * Hour)))].
Defined.
