(* ===== verification/BreakerQuota.v ===== *)
(** * Quota pins after the open (internal/failover: circuit_quota.go)

    What a quota reading does to circuits that are already open: retarget,
    seed, sweep and release. Go ranges over maps whose loop body touches only
    the entry it visits; such a loop is the map's pointwise image here, and a
    loop over providers folds over the providers in turn. *)

From S2P Require Import Prelude Circuit Cooldown CircuitEvents Breaker BreakerGate.

Definition seededModel := "(account quota)".

(** ** Releasing *)

Definition releasePin (e : Env) (reason : string) (c : circuit) : circuit :=
  note (c ⟦ cooldownOverride := 0 ⟧ ⟦ pinSource := "" ⟧) (now e) (MkCause (lastStatus c) reason).

(** The line [releasePin] hands to [afterUnlock]. *)
Definition releaseLine (e : Env) (reason id model : string) (c : circuit) (r : cooldownReads) :
    Emission :=
  let c := releasePin e reason c in
  LogPinReleased reason id (State_String (logicalStateWith e c r))
    (Milliseconds (unpinnedCooldownWith c r)) model.

Definition retireIfSeeded (cb : CircuitBreaker) (id model : string) : CircuitBreaker :=
  if decide (model = seededModel) then dropCircuit cb id model else cb.

(** A release loop over one provider's circuits: [clear] runs on every circuit
    and [lifts] decides whether the loop body goes on to lift its pin. *)
Definition releaseProvider (e : Env) (reason : string) (clear : circuit → circuit)
    (lifts : circuit → bool) (r : cooldownReads) (cb : CircuitBreaker) (id : string) :
    CircuitBreaker * Z * list Emission :=
  match circuits cb !! id with
  | None => (cb, 0, [])
  | Some models =>
      let cleared := clear <$> models in
      let lifted := filter (fun mc => lifts mc.2 = true) cleared in
      let models := (fun c => if lifts c then releasePin e reason c else c) <$> cleared in
      let cb := cb ⟦ circuits := <[id := models]> (circuits cb) ⟧ in
      (if decide (is_Some (lifted !! seededModel)) then retireIfSeeded cb id seededModel else cb,
       Z.of_nat (size lifted),
       (fun mc => releaseLine e reason id mc.1 mc.2 r) <$> map_to_list lifted)
  end.

Definition releaseStep (e : Env) (reason : string) (clear : circuit → circuit)
    (lifts : circuit → bool) (r : cooldownReads)
    (acc : CircuitBreaker * Z * list Emission) (id : string) : CircuitBreaker * Z * list Emission :=
  let '(cb, released, after) := acc in
  let '(cb, n, lines) := releaseProvider e reason clear lifts r cb id in
  (cb, released + n, after ++ lines).

(** Only a pin that speaks for the account is lifted by a recovered reading. *)
Definition liftedByRecovery (c : circuit) : bool :=
  negb ((cooldownOverride c =? 0) || negb (pinSpeaksForAccount (pinSource c))).

Definition ReleaseQuotaPins (e : Env) (cb : CircuitBreaker) (recovered : gset string) :
    CircuitBreaker * Z * list Emission :=
  let r := cooldowns cb in
  foldl (releaseStep e causePinReleasedQuota clear429Escalation liftedByRecovery r)
    (cb, 0, []) (elements recovered).

Definition ReleaseAllQuotaPins (e : Env) (cb : CircuitBreaker) : CircuitBreaker * Z * list Emission :=
  let r := cooldowns cb in
  foldl (releaseStep e causePinReleasedOff (fun c => c) (fun c => negb (cooldownOverride c =? 0)) r)
    (cb, 0, []) (map_to_list (circuits cb)).*1.

(** ** Applying *)

(** The body of the retarget loop on one circuit; [Some d] is a change. *)
Definition retargetCircuit (e : Env) (maxPin : Duration) (r : cooldownReads) (id : string)
    (adv : QuotaAdvice) (model : string) (c : circuit) : circuit * option Duration :=
  if negb (bool_decide (logicalStateWith e c r = StateOpen)) then (c, None) else
  match clampPin e id model (Sub (ResetsAt adv) (openedAt c)) maxPin (effectiveCooldownForWith c r) with
  | None =>
      (if (0 <? cooldownOverride c)
          && (bool_decide (pinSource c = pinSourceAdvisor)
              || bool_decide (pinSource c = pinSourceReserve))
       then c ⟦ pinSource := advisorPinSource adv ⟧ else c, None)
  | Some d =>
      let c := c ⟦ cooldownOverride := d ⟧ ⟦ pinSource := advisorPinSource adv ⟧ in
      (note c (now e) (MkCause (lastStatus c) causePinRetargeted), Some d)
  end.

Definition retargetProvider (e : Env) (maxPin : Duration) (r : cooldownReads) (cb : CircuitBreaker)
    (id : string) (adv : QuotaAdvice) : CircuitBreaker * Z * list Emission :=
  match circuits cb !! id with
  | None => (cb, 0, [])
  | Some models =>
      let out := map_imap (fun model c => Some (retargetCircuit e maxPin r id adv model c)) models in
      let changed := omap snd out in
      (cb ⟦ circuits := <[id := fst <$> out]> (circuits cb) ⟧,
       Z.of_nat (size changed),
       (fun md => LogPinRetargeted id (Milliseconds md.2) md.1) <$> map_to_list changed)
  end.

Definition accountPinned (e : Env) (models : gmap string circuit) (r : cooldownReads) : bool :=
  existsb (fun mc => blocking e mc.2 r && quotaPinnedForWith mc.2 r
                     && pinSpeaksForAccount (pinSource mc.2)) (map_to_list models).

Definition seedQuotaPin (e : Env) (maxPin : Duration) (r : cooldownReads) (cb : CircuitBreaker)
    (id : string) (adv : QuotaAdvice) : CircuitBreaker * bool * list Emission :=
  if accountPinned e (modelsOf cb id) r then (cb, false, []) else
  match clampPin e id seededModel (Sub (ResetsAt adv) (now e)) maxPin (base r) with
  | None => (cb, false, [])
  | Some d =>
      let '(cb, c) := getOrCreate e cb id seededModel in
      let c := c ⟦ state := StateOpen ⟧ ⟦ openedAt := now e ⟧
                 ⟦ consecutiveFails := effectiveThreshold cb ⟧
                 ⟦ cooldownOverride := d ⟧ ⟦ pinSource := advisorPinSource adv ⟧
                 ⟦ probeSeed := Float64 e id seededModel ⟧ in
      let c := note c (now e) (MkCause 0 causeSeeded) in
      let verdict := if Reserved adv then "reserve reached" else "exhausted" in
      (putCircuit cb id seededModel c, true, [LogSeeded verdict id (Milliseconds d) seededModel])
  end.

Definition sweepStep (e : Env) (r : cooldownReads) (cb : CircuitBreaker) (id : string) :
    CircuitBreaker :=
  match circuitOf cb id seededModel with
  | None => cb
  | Some c => if negb (blocking e c r) then retireIfSeeded cb id seededModel else cb
  end.

Definition sweepExpiredSeeds (e : Env) (cb : CircuitBreaker) : CircuitBreaker :=
  foldl (sweepStep e (cooldowns cb)) cb (map_to_list (circuits cb)).*1.

(** The body of the loop over the advised providers. *)
Definition applyStep (e : Env) (names_ : gmap string string) (maxPin : Duration) (r : cooldownReads)
    (acc : CircuitBreaker * Z * list Emission) (ia : string * QuotaAdvice) :
    CircuitBreaker * Z * list Emission :=
  let '(cb, changed, after) := acc in
  let '(id, adv) := ia in
  let '(cb, n, lines) := retargetProvider e maxPin r cb id adv in
  let '(cb, seeded, seedLines) := seedQuotaPin e maxPin r cb id adv in
  let changed := changed + n + (if seeded then 1 else 0) in
  let cb :=
    match names_ !! id with
    | Some name =>
        if negb (bool_decide (name = "")) && negb (bool_decide (modelsOf cb id = ∅))
        then nameProvider cb id name else cb
    | None => cb
    end in
  (cb, changed, after ++ lines ++ seedLines).

Definition ApplyQuotaPins (e : Env) (cb : CircuitBreaker) (advice : gmap string QuotaAdvice)
    (names_ : gmap string string) : CircuitBreaker * Z * list Emission :=
  let cb := sweepExpiredSeeds e cb in
  if bool_decide (advice = ∅) || negb (quotaPinEnabled cb) then (cb, 0, []) else
  foldl (applyStep e names_ (quotaPinMax cb) (cooldowns cb)) (cb, 0, []) (map_to_list advice).

(** ** Specifications *)

(** A pin of this circuit speaks for the account and is in force. *)
Definition pinsAccount (e : Env) (r : cooldownReads) (c : circuit) : bool :=
  blocking e c r && quotaPinnedForWith c r && pinSpeaksForAccount (pinSource c).

(** What one release loop leaves of the circuit filed under [m]. *)
Definition releasedCircuit (e : Env) (reason : string) (clear : circuit → circuit)
    (lifts : circuit → bool) (m : string) (c : circuit) : option circuit :=
  let c := clear c in
  if lifts c then if decide (m = seededModel) then None else Some (releasePin e reason c) else Some c.

(** Nothing but the pin, the backoff escalation and the verdict stamp moved. *)
Definition sameVerdict (c c' : circuit) : Prop :=
  state c' = state c ∧ openedAt c' = openedAt c ∧ consecutiveFails c' = consecutiveFails c ∧
  failedProbes c' = failedProbes c ∧ cooldownBackoff c' = cooldownBackoff c ∧
  halfOpenProbes c' = halfOpenProbes c ∧ lastCharged c' = lastCharged c ∧
  lastSuccess c' = lastSuccess c ∧ lastStatus c' = lastStatus c.

(** What a quota reading may do to a circuit a request opened: lengthen its
    wait when it is dark, drop it when it is closed (its bucket was full and a
    seed needed the slot), and nothing else. *)
Definition lengthened (e : Env) (r : cooldownReads) (oc oc' : option circuit) : Prop :=
  match oc, oc' with
  | None, None => True
  | None, Some _ => False
  | Some c, None => logicalStateWith e c r = StateClosed
  | Some c, Some c' =>
      sameVerdict c c' ∧ effectiveCooldownForWith c r ≤ effectiveCooldownForWith c' r ∧
      logicalStateWith e c' r = logicalStateWith e c r ∧
      (logicalStateWith e c r ≠ StateOpen → c' = c)
  end.

(** A seeded circuit survives the sweep while it blocks. *)
Definition keepDark (e : Env) (r : cooldownReads) (oc : option circuit) : option circuit :=
  match oc with
  | Some c => if blocking e c r then Some c else None
  | None => None
  end.

(** A provider held dark by a seeded circuit of the default breaker. *)
Definition seededBreaker : CircuitBreaker :=
  putCircuit defaultBreaker "p" seededModel
    ((darkCircuit Hour) ⟦ cooldownOverride := 2 * Hour ⟧ ⟦ pinSource := pinSourceAdvisor ⟧).

(** ** Lemmas: the store *)

Lemma circuitOf_drop cb id m id' m' :
  circuitOf (dropCircuit cb id m) id' m' =
    if decide (id = id' ∧ m = m') then None else circuitOf cb id' m'.
Proof.
  unfold dropCircuit, circuitOf.
  assert (∀ ms, ms = delete m (modelsOf cb id) →
    ms !! m' = if decide (m = m') then None else modelsOf cb id !! m') as Hms.
  { intros ms ->. rewrite lookup_delete. by case_decide. }
  case_bool_decide as He; unfold modelsOf at 1; simpl.
  - destruct (decide (id = id')) as [<-|].
    + rewrite lookup_delete_eq. specialize (Hms _ eq_refl). rewrite He, lookup_empty in Hms.
      change (default ∅ None) with (∅ : gmap string circuit). rewrite lookup_empty, Hms.
      by destruct (decide (m = m')), (decide (id = id ∧ m = m')); naive_solver.
    + rewrite lookup_delete_ne, decide_False by naive_solver. done.
  - destruct (decide (id = id')) as [<-|].
    + rewrite lookup_insert_eq. simpl. rewrite (Hms _ eq_refl).
      by destruct (decide (m = m')), (decide (id = id ∧ m = m')); naive_solver.
    + rewrite lookup_insert_ne, decide_False by naive_solver. done.
Qed.

Lemma circuitOf_retire cb id m id' m' :
  circuitOf (retireIfSeeded cb id m) id' m' =
    if decide (m = seededModel ∧ id = id' ∧ m = m') then None else circuitOf cb id' m'.
Proof.
  unfold retireIfSeeded. case_decide.
  - rewrite circuitOf_drop. case_decide; case_decide; naive_solver.
  - rewrite decide_False by naive_solver. done.
Qed.

(** Rewriting one provider's whole bucket. *)
Lemma circuitOf_bucket cb id models id' m :
  circuitOf (cb ⟦ circuits := <[id := models]> (circuits cb) ⟧) id' m =
    if decide (id = id') then models !! m else circuitOf cb id' m.
Proof.
  unfold circuitOf, modelsOf. simpl. case_decide; subst.
  - by rewrite lookup_insert_eq.
  - by rewrite lookup_insert_ne.
Qed.

Lemma circuitOf_no_bucket cb id m : circuits cb !! id = None → circuitOf cb id m = None.
Proof. intros H. unfold circuitOf. rewrite modelsOf_None by done. apply lookup_empty. Qed.

Lemma circuitOf_found cb id models m : circuits cb !! id = Some models → circuitOf cb id m = models !! m.
Proof. intros H. unfold circuitOf, modelsOf. by rewrite H. Qed.

Lemma sameConfig_retire cb id m : sameConfig (retireIfSeeded cb id m) cb.
Proof. unfold retireIfSeeded, dropCircuit. case_decide; [case_bool_decide|]; by destruct cb. Qed.

(** ** Lemmas: the release loops *)

Section Release.
Context (e : Env) (reason : string) (clear : circuit → circuit) (lifts : circuit → bool)
        (r : cooldownReads).

Lemma releaseProvider_circuitOf cb id id' m :
  circuitOf (releaseProvider e reason clear lifts r cb id).1.1 id' m =
    if decide (id = id') then circuitOf cb id' m ≫= releasedCircuit e reason clear lifts m
    else circuitOf cb id' m.
Proof.
  unfold releaseProvider. destruct (circuits cb !! id) as [models|] eqn:Hid; cbn [fst].
  2: { case_decide; [subst id'|done]. by rewrite (circuitOf_no_bucket _ _ _ Hid). }
  set (models' := _ <$> (_ <$> models)).
  assert (∀ m, models' !! m = (fun c => if lifts (clear c) then releasePin e reason (clear c) else clear c)
    <$> models !! m) as Hms.
  { intros m1. unfold models'. rewrite !lookup_fmap. by destruct (models !! m1). }
  destruct (decide (is_Some _)) as [Hl|Hl].
  - destruct Hl as [c [Hc Hlift]%map_lookup_filter_Some]. rewrite lookup_fmap in Hc.
    destruct (models !! seededModel) as [c0|] eqn:Hs; simplify_eq/=.
    rewrite circuitOf_retire, circuitOf_bucket.
    destruct (decide (id = id')) as [<-|]; [|by rewrite decide_False by naive_solver].
    rewrite (circuitOf_found _ _ _ _ Hid), Hms. unfold releasedCircuit.
    destruct (decide (seededModel = m)) as [<-|].
    + rewrite decide_True, Hs by done. simpl. by rewrite Hlift.
    + rewrite decide_False by naive_solver. destruct (models !! m); simpl; [|done].
      rewrite decide_False by done. by destruct (lifts (clear c)).
  - rewrite circuitOf_bucket. destruct (decide (id = id')) as [<-|]; [|done].
    rewrite (circuitOf_found _ _ _ _ Hid), Hms. unfold releasedCircuit.
    destruct (models !! m) as [c|] eqn:Hm; simpl; [|done].
    destruct (lifts (clear c)) eqn:Hlift; [|done]. case_decide; [|done]. subst m.
    destruct Hl. exists (clear c). rewrite map_lookup_filter_Some, lookup_fmap, Hm. done.
Qed.

Lemma releaseProvider_config cb id :
  sameConfig (releaseProvider e reason clear lifts r cb id).1.1 cb.
Proof.
  unfold releaseProvider. destruct (circuits cb !! id); cbn [fst]; [|reflexivity].
  case_decide; [etransitivity; [apply sameConfig_retire|]|]; by destruct cb.
Qed.

Lemma releaseProvider_out cb id :
  let '(_, n, out) := releaseProvider e reason clear lifts r cb id in
  n = Z.of_nat (length out) ∧
  ∀ ln, ln ∈ out ↔ ∃ m c, circuitOf cb id m = Some c ∧ lifts (clear c) = true ∧
    ln = releaseLine e reason id m (clear c) r.
Proof.
  unfold releaseProvider. destruct (circuits cb !! id) as [models|] eqn:Hid.
  2: { split; [done|]. intros ln. rewrite elem_of_nil. split; [done|].
       intros (m & c & Hm & _). by rewrite (circuitOf_no_bucket _ _ _ Hid) in Hm. }
  split; [by rewrite length_fmap, length_map_to_list|].
  intros ln. rewrite list_elem_of_fmap. split.
  - intros ([m c] & -> & [Hm Hl]%elem_of_map_to_list%map_lookup_filter_Some).
    rewrite lookup_fmap in Hm. destruct (models !! m) as [c0|] eqn:Hc; simplify_eq/=.
    exists m, c0. by rewrite (circuitOf_found _ _ _ _ Hid).
  - intros (m & c & Hm & Hl & ->). exists (m, clear c). split; [done|].
    apply elem_of_map_to_list, map_lookup_filter_Some.
    rewrite lookup_fmap. rewrite (circuitOf_found _ _ _ _ Hid) in Hm. by rewrite Hm.
Qed.

(** The whole loop over a list of distinct providers. *)
Lemma releaseFold_spec l cb :
  NoDup l →
  let '(cb', n, out) := foldl (releaseStep e reason clear lifts r) (cb, 0, []) l in
  sameConfig cb' cb ∧ n = Z.of_nat (length out) ∧
  (∀ id m, circuitOf cb' id m =
     if decide (id ∈ l) then circuitOf cb id m ≫= releasedCircuit e reason clear lifts m
     else circuitOf cb id m) ∧
  (∀ ln, ln ∈ out ↔ ∃ id m c, id ∈ l ∧ circuitOf cb id m = Some c ∧ lifts (clear c) = true ∧
     ln = releaseLine e reason id m (clear c) r).
Proof.
  induction l as [|id l IH] using rev_ind; intros Hnd.
  { simpl. split_and!; [reflexivity|done|done|].
    intros ln. rewrite elem_of_nil. split; [done|]. intros (?&?&?&?%elem_of_nil&_). done. }
  rewrite foldl_app. apply NoDup_app in Hnd as (Hnd & Hdis & _). specialize (IH Hnd).
  destruct (foldl _ _ l) as [[cb1 n] out]. destruct IH as (Hcfg & Hn & Hcirc & Hout).
  simpl foldl. unfold releaseStep.
  pose proof (releaseProvider_circuitOf cb1 id) as Hc1. pose proof (releaseProvider_config cb1 id) as Hf1.
  pose proof (releaseProvider_out cb1 id) as Ho1.
  destruct (releaseProvider _ _ _ _ _ cb1 id) as [[cb2 n2] out2]. cbn [fst] in *.
  destruct Ho1 as [Hn2 Hout2].
  assert (id ∉ l) as Hid by (intros H; apply (Hdis id H); by apply list_elem_of_singleton).
  split_and!.
  - by transitivity cb1.
  - rewrite length_app. lia.
  - intros id' m. rewrite Hc1. destruct (decide (id = id')) as [<-|].
    + rewrite (decide_True (P := id ∈ l ++ [id])) by set_solver. by rewrite Hcirc, decide_False by done.
    + rewrite Hcirc. destruct (decide (id' ∈ l)); [rewrite decide_True by set_solver|rewrite decide_False by set_solver]; done.
  - intros ln. rewrite elem_of_app, Hout, Hout2. split.
    + intros [(id' & m & c & ? & ? & ? & ?)|(m & c & Hm & ? & ?)].
      * exists id', m, c. set_solver.
      * rewrite Hcirc, decide_False in Hm by done. exists id, m, c. set_solver.
    + intros (id' & m & c & [?| ->%list_elem_of_singleton]%elem_of_app & ? & ? & ?).
      * left. eauto 10.
      * right. exists m, c. rewrite Hcirc, decide_False by done. done.
Qed.
End Release.

Lemma clear429_waits c r :
  effectiveCooldownForWith (clear429Escalation c) r = effectiveCooldownForWith c r.
Proof. by apply effectiveCooldown_ext. Qed.

Lemma releasePin_wait e reason c r :
  effectiveCooldownForWith (releasePin e reason c) r = unpinnedCooldownWith c r.
Proof.
  rewrite effectiveCooldown_unpinned; [done|]. unfold quotaPinnedForWith, releasePin, note. circuit_fields.
  done.
Qed.

Lemma wait_shorter c r :
  reads_ok r → circuit_ok c → unpinnedCooldownWith c r ≤ effectiveCooldownForWith c r.
Proof. intros Hr Hc. apply effectiveCooldown_range; auto with gateway. Qed.

Lemma liftedByRecovery_true c :
  liftedByRecovery c = true ↔ cooldownOverride c ≠ 0 ∧ pinSpeaksForAccount (pinSource c) = true.
Proof.
  unfold liftedByRecovery. rewrite negb_true_iff, orb_false_iff, negb_false_iff, Z.eqb_neq. done.
Qed.

Lemma releaseLine_inj e reason reason' id id' m m' st ms c r :
  LogPinReleased reason id st ms m = releaseLine e reason' id' m' c r → id = id' ∧ m = m'.
Proof.
  unfold releaseLine. generalize (State_String (logicalStateWith e (releasePin e reason' c) r)).
  generalize (Milliseconds (unpinnedCooldownWith (releasePin e reason' c) r)).
  by intros ms' st' [= _ -> _ _ ->].
Qed.

(** ** Properties: releasing *)

(** A recovered reading only ever shortens waits, and only where it is
    evidence: circuits of other providers are untouched; on a recovered
    provider every pin that speaks for the account is lifted (the seeded
    circuit, which carries nothing else, goes with it), each circuit keeps its
    state, clock, failure counts and backoff, and a pin one model's response
    earned keeps its timer. Afterwards no account pin of a recovered provider
    is left, and one log line reports each pin lifted. *)
Lemma ReleaseQuotaPins_spec e cb recovered :
  config_ok cb → store_ok cb →
  let r := cooldowns cb in
  let '(cb', released, out) := ReleaseQuotaPins e cb recovered in
  (∀ id m, id ∉ recovered ∨ circuitOf cb id m = None → circuitOf cb' id m = circuitOf cb id m) ∧
  (∀ id m c, id ∈ recovered → circuitOf cb id m = Some c →
     match circuitOf cb' id m with
     | None => m = seededModel ∧ liftedByRecovery c = true
     | Some c' =>
         sameVerdict c c' ∧ opens429Streak c' = 0 ∧
         if liftedByRecovery c
         then cooldownOverride c' = 0 ∧ pinSource c' = "" ∧ lastCause c' = causePinReleasedQuota ∧
              effectiveCooldownForWith c' r = unpinnedCooldownWith c r ∧
              effectiveCooldownForWith c' r ≤ effectiveCooldownForWith c r
         else c' = clear429Escalation c
     end) ∧
  (∀ id m, id ∈ recovered → ¬ accountPinnedBy e (modelsOf cb' id) r m) ∧
  released = Z.of_nat (length out) ∧
  (∀ id m, (∃ st ms, LogPinReleased causePinReleasedQuota id st ms m ∈ out) ↔
     id ∈ recovered ∧ ∃ c, circuitOf cb id m = Some c ∧ liftedByRecovery c = true).
Proof.
  intros Hcb Hok r. unfold ReleaseQuotaPins. fold r.
  pose proof (releaseFold_spec e causePinReleasedQuota clear429Escalation liftedByRecovery r
    (elements recovered) cb (NoDup_elements _)) as Hspec.
  destruct (foldl _ _ _) as [[cb' n] out]. destruct Hspec as (_ & Hn & Hcirc & Hout).
  assert (∀ c, liftedByRecovery (clear429Escalation c) = liftedByRecovery c) as Hcl by done.
  split_and!.
  - intros id m Hid. rewrite Hcirc. case_decide as Hin; [|done]. apply elem_of_elements in Hin.
    destruct Hid as [|Hid]; [done|]. by rewrite Hid.
  - intros id m c Hid Hm. rewrite Hcirc, decide_True by (by apply elem_of_elements).
    rewrite Hm. cbn [mbind option_bind]. unfold releasedCircuit. rewrite Hcl.
    destruct (liftedByRecovery c) eqn:Hl; [|done]. case_decide; [done|].
    split; [done|]. split; [done|]. rewrite releasePin_wait.
    split_and!; try done. apply (wait_shorter c r); [apply Hcb|by eapply Hok].
  - intros id m Hid (c' & Hm & _ & Hq & Hp). fold (circuitOf cb' id m) in Hm.
    rewrite Hcirc, decide_True in Hm by (by apply elem_of_elements).
    destruct (circuitOf cb id m) as [c|]; [|done]. cbn [mbind option_bind] in Hm.
    unfold releasedCircuit in Hm. rewrite Hcl in Hm. apply quotaPinned_override in Hq.
    destruct (liftedByRecovery c) eqn:Hl.
    + by case_decide; simplify_eq.
    + simplify_eq. apply not_true_iff_false in Hl. destruct Hl.
      apply liftedByRecovery_true. change (cooldownOverride (clear429Escalation c)) with (cooldownOverride c) in Hq.
      split; [lia|done].
  - done.
  - intros id m. setoid_rewrite Hout. split.
    + intros (st & ms & id' & m' & c & Hid%elem_of_elements & Hm & Hl & [-> ->]%releaseLine_inj). eauto.
    + intros (Hid & c & Hm & Hl). do 2 eexists. exists id, m, c.
      split; [by apply elem_of_elements|]. split; [done|]. split; [done|]. reflexivity.
Qed.

Lemma pinned_ok t d :
  0 < t → 0 < d ≤ int64_max →
  circuit_ok ((darkCircuit t) ⟦ cooldownOverride := d ⟧ ⟦ pinSource := pinSourceAdvisor ⟧).
Proof.
  intros Ht Hd. split; simpl; try done; try lia. right. split; [lia|].
  apply list_elem_of_here.
Qed.

Lemma seededBreaker_ok : config_ok seededBreaker ∧ store_ok seededBreaker.
Proof.
  split; [split; [apply default_reads_ok|evaluate|evaluate]|].
  apply store_ok_put; [apply defaultBreaker_store|]. apply pinned_ok; evaluate.
Qed.

Lemma ReleaseQuotaPins_spec_witness :
  let '(cb', released, _) := ReleaseQuotaPins (env_at (Hour + Minute)) seededBreaker {["p"]} in
  released = 1 ∧ circuits cb' = ∅ ∧
  ¬ accountPinnedBy (env_at (Hour + Minute)) (modelsOf cb' "p") (cooldowns seededBreaker) seededModel.
Proof.
  pose proof (ReleaseQuotaPins_spec (env_at (Hour + Minute)) seededBreaker {["p"]}
    (proj1 seededBreaker_ok) (proj2 seededBreaker_ok)) as H.
  assert ((ReleaseQuotaPins (env_at (Hour + Minute)) seededBreaker {["p"]}).1.2 = 1 ∧
    circuits (ReleaseQuotaPins (env_at (Hour + Minute)) seededBreaker {["p"]}).1.1 = ∅) as Hev
    by (vm_compute; done).
  cbv zeta in H. destruct (ReleaseQuotaPins _ _ _) as [[cb' released] out].
  destruct Hev as [Hr Hc], H as (_ & _ & H & _).
  split; [exact Hr|]. split; [exact Hc|]. apply H. set_solver.
Defined.

(** Switching quota polling off lifts every pin in force, whatever it
    speaks for, touches nothing else, and is idempotent. *)
Lemma ReleaseAllQuotaPins_spec e cb :
  let '(cb', released, out) := ReleaseAllQuotaPins e cb in
  (∀ id m, match circuitOf cb id m, circuitOf cb' id m with
     | None, None => True
     | Some c, None => m = seededModel ∧ cooldownOverride c ≠ 0
     | Some c, Some c' =>
         if cooldownOverride c =? 0 then c' = c
         else sameVerdict c c' ∧ opens429Streak c' = opens429Streak c ∧
              cooldownOverride c' = 0 ∧ pinSource c' = ""
     | None, Some _ => False
     end) ∧
  released = Z.of_nat (length out) ∧
  (∀ e', let '(cb'', again, out') := ReleaseAllQuotaPins e' cb' in
     again = 0 ∧ out' = [] ∧ ∀ id m, circuitOf cb'' id m = circuitOf cb' id m).
Proof.
  set (lifts := fun c => negb (cooldownOverride c =? 0)).
  assert (∀ e cb, let '(cb', n, out) := ReleaseAllQuotaPins e cb in n = Z.of_nat (length out) ∧
    (∀ id m, circuitOf cb' id m = circuitOf cb id m ≫= releasedCircuit e causePinReleasedOff (fun c => c) lifts m) ∧
    (∀ ln, ln ∈ out → ∃ id m c, circuitOf cb id m = Some c ∧ lifts c = true)) as Hall.
  { clear e cb. intros e cb. unfold ReleaseAllQuotaPins. fold lifts.
    pose proof (releaseFold_spec e causePinReleasedOff (fun c => c) lifts (cooldowns cb)
      (map_to_list (circuits cb)).*1 cb (NoDup_fst_map_to_list _)) as Hspec.
    destruct (foldl _ _ _) as [[cb' n] out]. destruct Hspec as (_ & Hn & Hcirc & Hout).
    split_and!; [done| |].
    - intros id m. rewrite Hcirc. case_decide as Hin; [done|].
      unfold circuitOf, modelsOf. destruct (circuits cb !! id) eqn:Hid; [|by simpl; rewrite lookup_empty].
      destruct Hin. apply elem_of_keys. by rewrite Hid.
    - intros ln Hln. apply Hout in Hln as (id & m & c & _ & Hm & Hl & _). eauto. }
  pose proof (Hall e cb) as H. destruct (ReleaseAllQuotaPins e cb) as [[cb' n] out].
  destruct H as (Hn & Hcirc & _).
  assert (∀ id m c, circuitOf cb' id m = Some c → lifts c = false) as Hclean.
  { intros id m c. rewrite Hcirc. destruct (circuitOf cb id m) as [c0|]; [|done].
    cbn [mbind option_bind]. unfold releasedCircuit. destruct (lifts c0) eqn:Hl; [|naive_solver].
    case_decide; [done|]. by intros [= <-]. }
  split_and!; [|done|].
  - intros id m. rewrite Hcirc. destruct (circuitOf cb id m) as [c|]; [|done].
    cbn [mbind option_bind]. unfold releasedCircuit, lifts.
    destruct (Z.eqb_spec (cooldownOverride c) 0); cbn [negb]; [done|]. by case_decide.
  - intros e'. pose proof (Hall e' cb') as H'. destruct (ReleaseAllQuotaPins e' cb') as [[cb'' n'] out'].
    destruct H' as (Hn' & Hcirc' & Hout').
    assert (out' = []) as ->.
    { destruct out' as [|ln out']; [done|]. destruct (Hout' ln) as (id & m & c & Hm & Hl); [set_solver|].
      by rewrite (Hclean _ _ _ Hm) in Hl. }
    split_and!; [done..|]. intros id m. rewrite Hcirc'.
    destruct (circuitOf cb' id m) as [c|] eqn:Hm; [|done]. cbn [mbind option_bind].
    unfold releasedCircuit. by rewrite (Hclean _ _ _ Hm).
Qed.

(** ** Lemmas: applying *)

#[export] Instance lengthened_preorder e r : PreOrder (lengthened e r).
Proof.
  split.
  - intros [c|]; simpl; [|done]. split_and!; done.
  - intros [c|] [c'|] [c''|]; simpl; try tauto.
    + intros (H1 & ? & Hl & Hs) (H2 & ? & Hl' & Hs'). split; [|split; [lia|split; [congruence|]]].
      * unfold sameVerdict in *. destruct_and!. split_and!; congruence.
      * intros Hn. rewrite Hs' by congruence. by apply Hs.
    + intros (_ & _ & Hl & _) ?. congruence.
Qed.

Lemma advisorPinSource_spec adv :
  pinProbes (advisorPinSource adv) = false ∧ pinSpeaksForAccount (advisorPinSource adv) = true ∧
  advisorPinSource adv ∈ pinSources.
Proof. unfold advisorPinSource. destruct (Reserved adv); split_and!; try done; unfold pinSources; set_solver. Qed.

(** A circuit whose wait grew in place is as dark as it was. *)
Lemma longer_logical e r c c' :
  state c' = state c → openedAt c' = openedAt c →
  logicalStateWith e c r = StateOpen →
  effectiveCooldownForWith c r ≤ effectiveCooldownForWith c' r →
  logicalStateWith e c' r = StateOpen.
Proof.
  rewrite <- !blocking_logical. unfold blocking, stillDark. intros -> ->.
  rewrite !andb_true_iff. intros [Hs Hd] Hle. split; [done|].
  destruct (IsZero (openedAt c)); [done|]. apply Z.ltb_lt in Hd. apply Z.ltb_lt. lia.
Qed.

Lemma measured_wait c r d adv :
  pinEnabled r = true → 0 < d →
  effectiveCooldownForWith (c ⟦ cooldownOverride := d ⟧ ⟦ pinSource := advisorPinSource adv ⟧) r =
    Z.max (unpinnedCooldownWith c r) d.
Proof.
  intros Hp Hd. rewrite effectiveCooldown_measured; circuit_fields.
  - done.
  - unfold quotaPinnedForWith. circuit_fields. rewrite Hp. by rewrite (proj2 (Z.ltb_lt 0 d)).
  - apply advisorPinSource_spec.
Qed.

Section Apply.
Context (e : Env) (cb0 : CircuitBreaker) (He : env_ok e) (Hcb : config_ok cb0)
        (Hon : quotaPinEnabled cb0 = true).
Notation r := (cooldowns cb0).
Notation maxPin := (quotaPinMax cb0).

#[local] Lemma pins_on : pinEnabled r = true ∧ 0 < maxPin ≤ 2 ^ 62 ∧ reads_ok r.
Proof.
  pose proof (config_reads _ Hcb) as Hr. destruct (pinMax_sane _ Hr) as [_ Hm].
  unfold quotaPinEnabled in Hon. apply Z.ltb_lt in Hon. split_and!; try done.
  by apply Z.ltb_lt.
Qed.

Lemma clampPin_range p m d floor d' :
  0 ≤ floor → clampPin e p m d maxPin floor = Some d' → floor < d' ≤ int64_max.
Proof.
  destruct pins_on as (_ & Hm & _). intros Hf Hcl.
  apply clampPin_Some in Hcl; [unfold int64_max; lia|done| |lia|done].
  unfold in_int64, int64_min, int64_max. lia.
Qed.

Lemma retargetCircuit_spec id adv m c :
  circuit_ok c →
  let '(c', changed) := retargetCircuit e maxPin r id adv m c in
  circuit_ok c' ∧ lengthened e r (Some c) (Some c') ∧
  (is_Some changed → pinsAccount e r c' = true).
Proof.
  intros Hc. destruct pins_on as (Hp & _ & Hr). unfold retargetCircuit, lengthened.
  destruct (bool_decide_reflect (logicalStateWith e c r = StateOpen)) as [Hst|Hst]; cbn [negb].
  2: { split; [done|]. split; [|by intros []]. split_and!; done. }
  pose proof (effectiveCooldown_pos c r Hr Hc).
  destruct (clampPin _ _ _ _ _ _) as [d|] eqn:Hcl.
  - apply clampPin_range in Hcl; [|lia]. set (c1 := c ⟦ cooldownOverride := d ⟧ ⟦ pinSource := _ ⟧).
    assert (effectiveCooldownForWith c r ≤ effectiveCooldownForWith c1 r) as Hle.
    { unfold c1. rewrite measured_wait by (done || lia). lia. }
    assert (logicalStateWith e c1 r = StateOpen) as Hst1 by (by apply (longer_logical e r c c1)).
    change (logicalStateWith e (note c1 (now e) (MkCause (lastStatus c1) causePinRetargeted)) r)
      with (logicalStateWith e c1 r).
    change (effectiveCooldownForWith (note c1 (now e) (MkCause (lastStatus c1) causePinRetargeted)) r)
      with (effectiveCooldownForWith c1 r).
    split; [|split].
    + apply note_ok. destruct Hc. split; simpl; try done; [|lia|].
      * intros Hcl'. apply blocking_logical, blocking_open in Hst. congruence.
      * right. split; [lia|apply advisorPinSource_spec].
    + split_and!; [done..|by rewrite Hst1|done].
    + intros _. unfold pinsAccount. change (blocking e (note _ _ _) r) with (blocking e c1 r).
      rewrite (proj2 (blocking_logical _ _ _)) by done.
      change (quotaPinnedForWith (note _ _ _) r) with ((0 <? d) && pinEnabled r).
      rewrite Hp, (proj2 (Z.ltb_lt 0 d)) by lia. cbn [andb].
      change (pinSource (note _ _ _)) with (advisorPinSource adv). apply advisorPinSource_spec.
  - destruct ((0 <? cooldownOverride c) && _) eqn:Hren; [|split; [done|split; [split_and!; done|by intros []]]].
    apply andb_true_iff in Hren as [Hov Hsrc]. apply Z.ltb_lt in Hov.
    set (c1 := c ⟦ pinSource := _ ⟧).
    assert (effectiveCooldownForWith c1 r = effectiveCooldownForWith c r) as Heq.
    { replace c1 with (c ⟦ cooldownOverride := cooldownOverride c ⟧ ⟦ pinSource := advisorPinSource adv ⟧)
        by (by destruct c).
      rewrite measured_wait by done. rewrite effectiveCooldown_measured; [done| |].
      - unfold quotaPinnedForWith. by rewrite Hp, (proj2 (Z.ltb_lt _ _)).
      - apply orb_true_iff in Hsrc as [->%bool_decide_eq_true| ->%bool_decide_eq_true]; done. }
    assert (logicalStateWith e c1 r = logicalStateWith e c r) as Hl.
    { rewrite Hst. apply (longer_logical e r c c1); [done..|lia]. }
    split; [|split; [split; [by split_and!|]|by intros []]].
    2: { split; [lia|]. split; [exact Hl|]. intros Hn. destruct (Hn Hst). }
    clear Heq Hl Hst. destruct Hc. split; simpl; try assumption. right. split; [lia|apply advisorPinSource_spec].
Qed.

Lemma retargetProvider_circuitOf cb id adv id' m :
  circuitOf (retargetProvider e maxPin r cb id adv).1.1 id' m =
    if decide (id = id') then (fun c => (retargetCircuit e maxPin r id adv m c).1) <$> circuitOf cb id' m
    else circuitOf cb id' m.
Proof.
  unfold retargetProvider. destruct (circuits cb !! id) as [models|] eqn:Hid; cbn [fst].
  - rewrite circuitOf_bucket. case_decide; [subst id'|done].
    rewrite lookup_fmap, map_lookup_imap, (circuitOf_found _ _ _ _ Hid). by destruct (models !! m).
  - case_decide; [subst id'|done]. by rewrite (circuitOf_no_bucket _ _ _ Hid).
Qed.

Lemma retargetProvider_config cb id adv : sameConfig (retargetProvider e maxPin r cb id adv).1.1 cb.
Proof. unfold retargetProvider. destruct (circuits cb !! id); by destruct cb. Qed.
(** The seed, on a breaker configured like [cb0]. *)
Definition seededCircuit (id : string) (adv : QuotaAdvice) (d : Duration) (c : circuit) : circuit :=
  note (c ⟦ state := StateOpen ⟧ ⟦ openedAt := now e ⟧ ⟦ consecutiveFails := effectiveThreshold cb0 ⟧
          ⟦ cooldownOverride := d ⟧ ⟦ pinSource := advisorPinSource adv ⟧
          ⟦ probeSeed := Float64 e id seededModel ⟧) (now e) (MkCause 0 causeSeeded).

Lemma seededCircuit_ok id adv d c :
  0 < d ≤ int64_max → circuit_ok c →
  circuit_ok (seededCircuit id adv d c) ∧ pinsAccount e r (seededCircuit id adv d c) = true.
Proof.
  intros Hd [? ? ? ? ? ? ? ?]. destruct pins_on as (Hp & _ & Hr).
  pose proof (config_threshold _ Hcb). pose proof (env_now e He).
  assert (circuit_ok (seededCircuit id adv d c)) as Hok.
  { unfold seededCircuit. apply note_ok.
    split; circuit_fields; try (intros; lia); try done; try lia; auto with gateway.
    right. split; [lia|apply advisorPinSource_spec]. }
  split; [exact Hok|]. unfold pinsAccount.
  rewrite (proj2 (blocking_logical _ _ _)); [|by apply fresh_open_dark].
  change (quotaPinnedForWith (seededCircuit id adv d c) r) with ((0 <? d) && pinEnabled r).
  rewrite Hp, (proj2 (Z.ltb_lt 0 d)) by lia. cbn [andb].
  change (pinSource (seededCircuit id adv d c)) with (advisorPinSource adv). apply advisorPinSource_spec.
Qed.

Lemma accountPinned_spec models :
  accountPinned e models r = true ↔ ∃ m c, models !! m = Some c ∧ pinsAccount e r c = true.
Proof. unfold accountPinned. rewrite existsb_map_to_list. done. Qed.

Lemma seedQuotaPin_spec cb id adv :
  sameConfig cb cb0 →
  let '(cb', seeded, _) := seedQuotaPin e maxPin r cb id adv in
  sameConfig cb' cb0 ∧
  (seeded = false → cb' = cb) ∧
  (seeded = true → ∃ d, 0 < d ≤ int64_max ∧ framed e cb cb' id seededModel ∧
     circuitOf cb' id seededModel =
       Some (seededCircuit id adv d (default newCircuit (circuitOf cb id seededModel)))) ∧
  (base r < Z.min (Sub (ResetsAt adv) (now e)) maxPin → seeded = false →
     accountPinned e (modelsOf cb id) r = true).
Proof.
  intros Hcfg. unfold seedQuotaPin. destruct pins_on as (_ & Hm & Hr). pose proof (base_pos _ Hr).
  destruct (accountPinned _ _ _) eqn:Hap; [by split_and!|].
  destruct (clampPin _ _ _ _ _ _) as [d|] eqn:Hcl.
  - apply clampPin_range in Hcl; [|lia].
    destruct (getOrCreate_shape e cb id seededModel) as [ms Hg]. rewrite Hg.
    change (effectiveThreshold (cb ⟦ circuits := ms ⟧)) with (effectiveThreshold cb).
    rewrite (effectiveThreshold_proper _ _ Hcfg). split; [|split; [done|split; [|done]]].
    + etransitivity; [|exact Hcfg]. by destruct cb.
    + intros _. exists d. split; [lia|]. split; [by apply getOrCreate_framed|].
      apply circuitOf_put_eq.
  - split; [done|]. split; [done|]. split; [done|]. intros Hlt _. exfalso. revert Hcl. unfold clampPin.
    replace (if maxPin <? Sub (ResetsAt adv) (now e) then maxPin else Sub (ResetsAt adv) (now e))
      with (Z.min (Sub (ResetsAt adv) (now e)) maxPin)
      by (destruct (Z.ltb_spec maxPin (Sub (ResetsAt adv) (now e))); lia).
    rewrite (proj2 (Z.leb_gt _ _)) by exact Hlt. done.
Qed.

(** What the work on one advised provider does: other providers do not move,
    its request-opened circuits only lengthen, its seeded circuit stays dark. *)
Record appliedTo (id : string) (cb cb' : CircuitBreaker) : Prop := {
  ap_config : sameConfig cb' cb0;
  ap_ok : store_ok cb';
  ap_other id' m : id' ≠ id → circuitOf cb' id' m = circuitOf cb id' m;
  ap_lengthened m : m ≠ seededModel → lengthened e r (circuitOf cb id m) (circuitOf cb' id m);
  ap_dark : (∀ c, circuitOf cb id seededModel = Some c → logicalStateWith e c r = StateOpen) →
    ∀ c, circuitOf cb' id seededModel = Some c → logicalStateWith e c r = StateOpen
}.

Lemma appliedTo_trans id cb1 cb2 cb3 :
  appliedTo id cb1 cb2 → appliedTo id cb2 cb3 → appliedTo id cb1 cb3.
Proof.
  intros [H1 H2 H3 H4 H5] [G1 G2 G3 G4 G5]. split; try assumption.
  - intros id' m Hne. by rewrite G3, H3.
  - intros m Hne. etransitivity; [by apply H4|by apply G4].
  - auto.
Qed.

Lemma retargetProvider_applied cb id adv :
  sameConfig cb cb0 → store_ok cb →
  appliedTo id cb (retargetProvider e maxPin r cb id adv).1.1.
Proof.
  intros Hcfg Hok.
  pose proof (retargetProvider_circuitOf cb id adv) as Hrt.
  pose proof (retargetProvider_config cb id adv) as Hrc.
  destruct (retargetProvider e maxPin r cb id adv) as [[cb1 n1] o1]. cbn [fst] in *.
  assert (∀ m c', circuitOf cb1 id m = Some c' → ∃ c, circuitOf cb id m = Some c ∧ circuit_ok c' ∧
    lengthened e r (Some c) (Some c')) as Hlen.
  { intros m c'. rewrite Hrt, decide_True by done.
    destruct (circuitOf cb id m) as [c|] eqn:Hm; [|done]. intros Hc'. exists c. split; [done|].
    pose proof (retargetCircuit_spec id adv m c (Hok _ _ _ Hm)) as Hs.
    cbn [fmap option_fmap option_map] in Hc'. injection Hc' as <-.
    destruct (retargetCircuit _ _ _ _ _ _ _) as [c' ch]. by destruct Hs as (? & ? & _). }
  split.
  - by transitivity cb.
  - intros id' m c Hm. destruct (decide (id = id')) as [<-|].
    + by destruct (Hlen _ _ Hm) as (_ & _ & ? & _).
    + rewrite Hrt, decide_False in Hm by done. by eapply Hok.
  - intros id' m Hne. by rewrite Hrt, decide_False.
  - intros m _. destruct (circuitOf cb1 id m) as [c'|] eqn:Hm.
    + by destruct (Hlen _ _ Hm) as (c & -> & _ & ?).
    + rewrite Hrt, decide_True in Hm by done. by destruct (circuitOf cb id m).
  - intros Hdark c' Hm. destruct (Hlen _ _ Hm) as (c & Hc & _ & _ & _ & Hl & _).
    rewrite Hl. by apply Hdark.
Qed.

Lemma seedQuotaPin_applied cb id adv :
  sameConfig cb cb0 → store_ok cb →
  appliedTo id cb (seedQuotaPin e maxPin r cb id adv).1.1 ∧
  (base r < Z.min (Sub (ResetsAt adv) (now e)) maxPin →
    ∃ m c, circuitOf (seedQuotaPin e maxPin r cb id adv).1.1 id m = Some c ∧ pinsAccount e r c = true).
Proof.
  intros Hcfg Hok. pose proof (seedQuotaPin_spec cb id adv Hcfg) as Hseed.
  destruct (seedQuotaPin e maxPin r cb id adv) as [[cb2 seeded] o2]. cbn [fst].
  destruct Hseed as (Hc2 & Hno & Hyes & Hpin). destruct seeded.
  2: { rewrite (Hno eq_refl) in *. split; [by split; auto|].
       intros Hlt. by apply accountPinned_spec, Hpin. }
  destruct (Hyes eq_refl) as (d & Hd & Hfr & Hhere).
  pose proof (fun id' m' => framed_other _ _ _ _ _ id' m' Hfr) as Hfp. destruct Hfr as [_ Hfk Hfo]. clear Hyes Hno Hpin.
  destruct (seededCircuit_ok id adv d (default newCircuit (circuitOf cb id seededModel)) Hd) as [Hsok Hsp].
  { destruct (circuitOf cb id seededModel) eqn:Hs; [by eapply Hok|apply newCircuit_ok]. }
  revert Hsok Hsp Hhere. generalize (seededCircuit id adv d (default newCircuit (circuitOf cb id seededModel))).
  intros cs Hsok Hsp Hhere. split; [|by exists seededModel, cs]. split; [done|..].
  - intros id' m c Hm. destruct (decide (id' = id)) as [->|].
    + destruct (decide (m = seededModel)) as [->|]; [congruence|].
      eapply (Hok id m), Hfo; eauto.
    + rewrite Hfp in Hm by done. by eapply Hok.
  - intros id' m Hne. by apply Hfp.
  - intros m Hne. destruct (circuitOf cb2 id m) as [c2|] eqn:Hm2.
    + rewrite (Hfo _ _ Hne Hm2). reflexivity.
    + destruct (circuitOf cb id m) as [c1|] eqn:Hm1; [|done].
      destruct (decide (logicalStateWith e c1 r = StateClosed)) as [|Hn]; [done|].
      rewrite <- (cooldowns_proper _ _ Hcfg) in Hn. by rewrite (Hfk _ _ Hne Hm1 Hn) in Hm2.
  - intros _ c Hm. rewrite Hhere in Hm. injection Hm as <-.
    unfold pinsAccount in Hsp. apply andb_true_iff in Hsp as [[Hb _]%andb_true_iff _].
    by apply blocking_logical.
Qed.

Lemma applyStep_spec names_ cb n out id adv :
  sameConfig cb cb0 → store_ok cb →
  let cb' := (applyStep e names_ maxPin r (cb, n, out) (id, adv)).1.1 in
  appliedTo id cb cb' ∧
  (base r < Z.min (Sub (ResetsAt adv) (now e)) maxPin →
    ∃ m c, circuitOf cb' id m = Some c ∧ pinsAccount e r c = true).
Proof.
  intros Hcfg Hok. unfold applyStep.
  pose proof (retargetProvider_applied cb id adv Hcfg Hok) as Hrt.
  destruct (retargetProvider e maxPin r cb id adv) as [[cb1 n1] o1]. cbn [fst] in Hrt.
  destruct (seedQuotaPin_applied cb1 id adv) as [Hs Hpin]; [apply Hrt..|].
  destruct (seedQuotaPin e maxPin r cb1 id adv) as [[cb2 seeded] o2]. cbn [fst] in *. cbv zeta.
  assert (∀ b : bool, ∀ name, appliedTo id cb (if b then nameProvider cb2 id name else cb2) ∧
    (base r < Z.min (Sub (ResetsAt adv) (now e)) maxPin →
     ∃ m c, circuitOf (if b then nameProvider cb2 id name else cb2) id m = Some c ∧
            pinsAccount e r c = true)) as Hname.
  { intros b name. pose proof (appliedTo_trans _ _ _ _ Hrt Hs) as Hall.
    destruct b; [|by split]. destruct Hall as [H1 H2 H3 H4 H5].
    by split; [split; auto|]. }
  destruct (names_ !! id) as [name|]; [apply Hname|apply (Hname false "")].
Qed.
End Apply.

Lemma keepDark_Some e r oc c : keepDark e r oc = Some c ↔ blocking e c r = true ∧ oc = Some c.
Proof. 
  destruct oc as [c0|]; simpl; [|by split; [|intros [_ ?]]].
  destruct (blocking e c0 r) eqn:Hb; split; [intros [= ->]|intros [_ [= ->]]|done|intros [H [= ->]]];
    [done|done|congruence].
Qed.

Lemma sweepStep_circuitOf e r cb id id' m :
  circuitOf (sweepStep e r cb id) id' m =
    if decide (id = id' ∧ m = seededModel)
    then keepDark e r (circuitOf cb id' m) else circuitOf cb id' m.
Proof.
  unfold sweepStep. destruct (decide (id = id' ∧ m = seededModel)) as [[<- ->]|Hne].
  - destruct (circuitOf cb id seededModel) as [c|] eqn:Hs; [|by rewrite Hs].
    destruct (blocking e c r) eqn:Hb; cbn [negb].
    + rewrite Hs. simpl. by rewrite Hb.
    + rewrite circuitOf_retire, decide_True by done. simpl. by rewrite Hb.
  - destruct (circuitOf cb id seededModel); [|done]. destruct (negb _); [|done].
    rewrite circuitOf_retire, decide_False; naive_solver.
Qed.

(** After the sweep only dark seeded circuits are left, and nothing else moved. *)
Lemma sweepExpiredSeeds_spec e cb :
  sameConfig (sweepExpiredSeeds e cb) cb ∧
  ∀ id m, circuitOf (sweepExpiredSeeds e cb) id m =
    if decide (m = seededModel) then keepDark e (cooldowns cb) (circuitOf cb id m)
    else circuitOf cb id m.
Proof.
  unfold sweepExpiredSeeds. set (r := cooldowns cb).
  assert (∀ l, sameConfig (foldl (sweepStep e r) cb l) cb ∧
    ∀ id m, circuitOf (foldl (sweepStep e r) cb l) id m =
      if decide (id ∈ l ∧ m = seededModel) then keepDark e r (circuitOf cb id m)
      else circuitOf cb id m) as Hfold.
  { induction l as [|id l [IH1 IH2]] using rev_ind; [split; [done|]; intros; by rewrite decide_False by set_solver|].
    rewrite foldl_app. simpl foldl. split.
    - etransitivity; [|exact IH1]. unfold sweepStep. destruct (circuitOf _ id seededModel); [|reflexivity].
      destruct (negb _); [apply sameConfig_retire|reflexivity].
    - intros id' m. rewrite sweepStep_circuitOf, IH2.
      destruct (decide (id = id' ∧ m = seededModel)) as [[<- ->]|Hne].
      + rewrite (decide_True (P := id ∈ l ++ [id] ∧ _)) by set_solver. case_decide; [|done].
        destruct (circuitOf cb id seededModel) as [c|]; [|done]. simpl.
        destruct (blocking e c r) eqn:Hb; [|done]. simpl. by rewrite Hb.
      + destruct (decide (id' ∈ l ∧ m = seededModel)); [rewrite decide_True by set_solver
          |rewrite decide_False by set_solver]; done. }
  destruct (Hfold (map_to_list (circuits cb)).*1) as [H1 H2]. split; [done|].
  intros id m. rewrite H2. destruct (decide (m = seededModel)) as [->|]; [|by rewrite decide_False by naive_solver].
  destruct (circuitOf cb id seededModel) as [c|] eqn:Hs; [|by case_decide].
  rewrite decide_True; [done|]. split; [|done]. apply elem_of_keys.
  destruct (circuits cb !! id) eqn:Hid; [done|]. by rewrite (circuitOf_no_bucket _ _ _ Hid) in Hs.
Qed.

(** The sweep keeps the configuration and the invariant. *)
Lemma sweep_ok e cb :
  config_ok cb → store_ok cb → config_ok (sweepExpiredSeeds e cb) ∧ store_ok (sweepExpiredSeeds e cb).
Proof.
  intros Hcb Hok. destruct (sweepExpiredSeeds_spec e cb) as [Hcfg Hsw]. split; [by rewrite Hcfg|].
  intros id m c. rewrite Hsw. case_decide; [|apply Hok]. intros [_ Hc]%keepDark_Some. by eapply Hok.
Qed.

(** The loop over the advised providers, from the swept breaker. *)
Lemma applyFold_spec e cb names_ l :
  env_ok e → config_ok cb → store_ok cb → quotaPinEnabled cb = true → NoDup l.*1 →
  let r := cooldowns cb in
  let cb' := (foldl (applyStep e names_ (quotaPinMax cb) r) (cb, 0, []) l).1.1 in
  sameConfig cb' cb ∧ store_ok cb' ∧
  (∀ id m, id ∉ l.*1 → circuitOf cb' id m = circuitOf cb id m) ∧
  (∀ id m, m ≠ seededModel → lengthened e r (circuitOf cb id m) (circuitOf cb' id m)) ∧
  (∀ id, (∀ c, circuitOf cb id seededModel = Some c → logicalStateWith e c r = StateOpen) →
     ∀ c, circuitOf cb' id seededModel = Some c → logicalStateWith e c r = StateOpen) ∧
  (∀ id adv, (id, adv) ∈ l → base r < Z.min (Sub (ResetsAt adv) (now e)) (quotaPinMax cb) →
     ∃ m c, circuitOf cb' id m = Some c ∧ pinsAccount e r c = true).
Proof.
  intros He Hcb Hok Hon. cbv zeta. induction l as [|[id adv] l IH] using rev_ind; intros Hnd.
  { simpl. split_and!; try done; try (by intros ? ? ?%elem_of_nil). }
  rewrite fmap_app in Hnd. apply NoDup_app in Hnd as (Hnd & Hdis & _).
  assert (id ∉ l.*1) as Hid by (intros H; by apply (Hdis id H), list_elem_of_singleton).
  destruct (IH Hnd) as (H1 & H2 & H3 & H4 & H5 & H6). clear IH.
  rewrite foldl_app. simpl foldl. destruct (foldl _ _ l) as [[cb1 n] out]. cbn [fst] in *.
  destruct (applyStep_spec e cb He Hcb Hon names_ cb1 n out id adv H1 H2) as [[G1 G2 G3 G4 G5] Hpin].
  revert G1 G2 G3 G4 G5 Hpin. generalize (applyStep e names_ (quotaPinMax cb) (cooldowns cb) (cb1, n, out) (id, adv)).1.1.
  intros cb2 G1 G2 G3 G4 G5 Hpin. split_and!; try done.
  - intros id' m Hn. rewrite fmap_app in Hn. rewrite G3 by set_solver. apply H3. set_solver.
  - intros id' m Hm. transitivity (circuitOf cb1 id' m); [by apply H4|].
    destruct (decide (id' = id)) as [->|Hne]; [by apply G4|]. rewrite G3 by done. reflexivity.
  - intros id' Hd. destruct (decide (id' = id)) as [->|Hne]; [by apply G5, H5|].
    intros c. rewrite G3 by done. by apply H5.
  - intros id' adv' [Hin|Hin%list_elem_of_singleton]%elem_of_app Hlt.
    + assert (id' ≠ id) as Hne.
      { intros ->. apply Hid, list_elem_of_fmap. by exists (id, adv'). }
      destruct (H6 _ _ Hin Hlt) as (m & c & Hm & Hp). exists m, c. by rewrite G3.
    + simplify_eq. by apply Hpin.
Qed.

(** Applying advice keeps the configuration and the invariant. *)
Lemma ApplyQuotaPins_kept e cb advice names_ :
  env_ok e → config_ok cb → store_ok cb →
  sameConfig (ApplyQuotaPins e cb advice names_).1.1 cb ∧ store_ok (ApplyQuotaPins e cb advice names_).1.1.
Proof.
  intros He Hcb Hok. unfold ApplyQuotaPins. destruct (sweepExpiredSeeds_spec e cb) as [Hcfg _].
  destruct (sweep_ok e cb Hcb Hok) as [Hcb0 Hok0]. set (cb0 := sweepExpiredSeeds e cb) in *. clearbody cb0.
  destruct (bool_decide (advice = ∅)); [by split|]. destruct (quotaPinEnabled cb0) eqn:Hon; [|by split]. cbn [orb negb].
  destruct (applyFold_spec e cb0 names_ (map_to_list advice) He Hcb0 Hok0 Hon (NoDup_fst_map_to_list _))
    as (H1 & H2 & _).
  split; [by transitivity cb0|done].
Qed.

(** ** Properties: applying *)

(** Applying quota advice only ever lengthens the wait of a circuit that is
    dark right now: every circuit a request opened keeps its state, clock,
    counts and backoff, a closed or half-open one is left exactly as it was
    (or, closed, dropped when a seed needs its slot in a full bucket), and a
    provider without advice is untouched. Seeded circuits that stopped
    blocking are gone, and those that remain are dark. *)
Lemma ApplyQuotaPins_lengthens e cb advice names_ :
  env_ok e → config_ok cb → store_ok cb →
  let r := cooldowns cb in
  let cb' := (ApplyQuotaPins e cb advice names_).1.1 in
  store_ok cb' ∧
  (∀ id m, m ≠ seededModel → lengthened e r (circuitOf cb id m) (circuitOf cb' id m)) ∧
  (∀ id m, m ≠ seededModel → advice !! id = None → circuitOf cb' id m = circuitOf cb id m) ∧
  (∀ id c, circuitOf cb' id seededModel = Some c → GetState e cb' id seededModel = StateOpen).
Proof.
  intros He Hcb Hok r. unfold ApplyQuotaPins.
  destruct (sweepExpiredSeeds_spec e cb) as [Hcfg Hsw]. destruct (sweep_ok e cb Hcb Hok) as [Hcb0 Hok0].
  set (cb0 := sweepExpiredSeeds e cb) in *. clearbody cb0.
  assert (∀ id c, circuitOf cb0 id seededModel = Some c → logicalStateWith e c r = StateOpen) as Hdark.
  { intros id c. rewrite Hsw, decide_True by done. intros [Hb _]%keepDark_Some. by apply blocking_logical. }
  assert (cooldowns cb0 = r) as Hr by (by rewrite Hcfg).
  destruct (bool_decide_reflect (advice = ∅)) as [Ha|Ha]; [|destruct (quotaPinEnabled cb0) eqn:Hon]; cbn [orb negb].
  2: { destruct (applyFold_spec e cb0 names_ (map_to_list advice) He Hcb0 Hok0 Hon (NoDup_fst_map_to_list _))
         as (H1 & H2 & H3 & H4 & H5 & _). rewrite Hr in *.
       destruct (foldl _ _ _) as [[cb' n] out]. cbn [fst] in *. split_and!; [done|..].
       - intros id m Hm. specialize (H4 id m Hm). by rewrite Hsw, decide_False in H4.
       - intros id m Hm Hid. rewrite H3; [by rewrite Hsw, decide_False|].
         rewrite elem_of_keys, Hid. by intros [].
       - intros id c Hc. unfold GetState. rewrite Hc, H1, Hr. eapply H5; [apply Hdark|done]. }
  all: cbn [fst]; split_and!;
    [done|intros id m Hm; rewrite Hsw, decide_False by done; reflexivity
    |intros id m Hm _; by rewrite Hsw, decide_False by done
    |intros id c Hc; unfold GetState; rewrite Hc, Hr; by eapply Hdark].
Qed.

(** Advice takes effect at once: a provider whose exhaustion is dated
    beyond the configured cooldown is skipped for every model from the moment
    the advice is applied, whatever its circuits looked like, even models
    nothing has ever routed to. *)
Lemma ApplyQuotaPins_darkens e cb advice names_ id adv name m :
  env_ok e → config_ok cb → store_ok cb →
  quotaPinEnabled cb = true → advice !! id = Some adv →
  effectiveCooldown cb < Z.min (Sub (ResetsAt adv) (now e)) (quotaPinMax cb) →
  let cb' := (ApplyQuotaPins e cb advice names_).1.1 in
  (IsOpen e cb' id name m).1.2 = true.
Proof.
  intros He Hcb Hok Hon Hadv Hlt. unfold ApplyQuotaPins.
  destruct (sweepExpiredSeeds_spec e cb) as [Hcfg Hsw]. destruct (sweep_ok e cb Hcb Hok) as [Hcb0 Hok0].
  set (cb0 := sweepExpiredSeeds e cb) in *. clearbody cb0.
  assert (quotaPinEnabled cb0 = true) as Hon0 by (rewrite Hcfg; done).
  rewrite bool_decide_false, Hon0 by (intros ->; by rewrite lookup_empty in Hadv). cbn [orb negb].
  destruct (applyFold_spec e cb0 names_ (map_to_list advice) He Hcb0 Hok0 Hon0 (NoDup_fst_map_to_list _))
    as (H1 & _ & _ & _ & _ & H6).
  destruct (foldl _ _ _) as [[cb' n] out]. cbn [fst] in *.
  destruct (H6 id adv) as (m' & c & Hm' & Hp); [by apply elem_of_map_to_list| |].
  { rewrite Hcfg. exact Hlt. }
  apply IsOpen_skips. right. left. exists m', c. split; [exact Hm'|].
  rewrite H1. unfold pinsAccount in Hp. rewrite !andb_true_iff in Hp. tauto.
Qed.

Lemma ApplyQuotaPins_lengthens_witness :
  let e := env_at (Hour + 2 * Second) in
  let advice : gmap string QuotaAdvice := {["p" := MkAdvice (4 * Hour) false]} in
  let cb' := (ApplyQuotaPins e twoDark advice ∅).1.1 in
  lengthened e (cooldowns twoDark) (circuitOf twoDark "p" "a") (circuitOf cb' "p" "a") ∧
  (effectiveCooldownForWith (darkCircuit Hour) (cooldowns twoDark) = Minute ∧
   (pinSource <$> circuitOf cb' "p" "a") = Some pinSourceAdvisor).
Proof.
  intros e advice cb'. split; [|split; vm_compute; reflexivity].
  destruct (ApplyQuotaPins_lengthens e twoDark advice ∅) as (_ & H & _);
    [apply env_at_ok; evaluate|apply twoDark_ok..|]. exact (H "p" "a" ltac:(discriminate)).
Defined.

Lemma ApplyQuotaPins_darkens_witness :
  let e := env_at Hour in
  let advice : gmap string QuotaAdvice := {["p" := MkAdvice (4 * Hour) true]} in
  (IsOpen e defaultBreaker "p" "prov" "never-routed").1.2 = false ∧
  (IsOpen e (ApplyQuotaPins e defaultBreaker advice {["p" := "prov"]}).1.1 "p" "prov" "never-routed").1.2 = true.
Proof.
  intros e advice. split; [reflexivity|].
  apply (ApplyQuotaPins_darkens e defaultBreaker advice {["p" := "prov"]} "p" (MkAdvice (4 * Hour) true));
    [apply env_at_ok; evaluate|apply defaultBreaker_ok|apply defaultBreaker_store|reflexivity|reflexivity|evaluate].
Defined.
