(* ===== verification/BreakerStatus.v ===== *)
(** * Status rows and manual resets (internal/failover: circuitbreaker.go,
      circuit_status.go, circuit_reset.go, model_circuits.go)

    The per-provider row built from the most degraded circuit, the per-circuit
    rows of the detail endpoint, and the operator's resets. Instants are left
    unrendered (Go formats them as RFC 3339). *)

From S2P Require Import Prelude Circuit Cooldown CircuitEvents Breaker BreakerGate BreakerQuota.

(** ** The dominant circuit *)

Record circuitRank := MkRank {
  rank_model : string;
  rank_state : Z;
  rank_retry : Time;
  rank_fails : Z
}.

Definition beats (r o : circuitRank) : bool :=
  if negb (rank_state r =? rank_state o) then rank_state o <? rank_state r
  else if negb (Equal (rank_retry r) (rank_retry o)) then After (rank_retry r) (rank_retry o)
  else if negb (rank_fails r =? rank_fails o) then rank_fails o <? rank_fails r
  else String.ltb (rank_model r) (rank_model o).

Definition rankOf (e : Env) (r : cooldownReads) (model : string) (c : circuit) : circuitRank :=
  MkRank model (stateRank (logicalStateWith e c r))
    (Add (openedAt c) (effectiveCooldownForWith c r)) (consecutiveFails c).

Definition dominantStep (e : Env) (r : cooldownReads) (best : option (string * circuit))
    (mc : string * circuit) : option (string * circuit) :=
  match best with
  | None => Some mc
  | Some b => if beats (rankOf e r mc.1 mc.2) (rankOf e r b.1 b.2) then Some mc else best
  end.

Definition dominant (e : Env) (models : gmap string circuit) (r : cooldownReads) : option circuit :=
  snd <$> foldl (dominantStep e r) None (map_to_list models).

(** ** Status rows *)

Record CircuitStatus := MkCircuitStatus {
  cs_Model : string;
  cs_State : string;
  cs_ConsecutiveFails : Z;
  cs_OpenedAt : option Time;
  cs_CooldownMs : Z;
  cs_NextRetryAt : option Time;
  cs_QuotaPinned : bool;
  cs_PinSource : string;
  cs_BackedOff : bool;
  cs_FailedProbes : Z;
  cs_LastCause : string;
  cs_LastStatus : Z;
  cs_LastAt : option Time
}.

Record ProviderStatus := MkProviderStatus {
  ps_ProviderID : string;
  ps_ProviderName : string;
  ps_State : string;
  ps_ConsecutiveFails : Z;
  ps_OpenedAt : option Time;
  ps_CooldownMs : Z;
  ps_NextRetryAt : option Time;
  ps_QuotaPinned : bool;
  ps_PinSource : string;
  ps_BackedOff : bool;
  ps_FailedProbes : Z;
  ps_ProviderOpen : bool;
  ps_OpenModels : list string;
  ps_Circuits : list CircuitStatus
}.

Definition waitFields (c : circuit) (st : State) (r : cooldownReads) :
    option Time * Z * option Time :=
  if IsZero (openedAt c)
     || (negb (bool_decide (st = StateOpen)) && negb (bool_decide (st = StateHalfOpen)))
  then (None, 0, None)
  else if decide (st = StateOpen) then
    let cooldown := effectiveCooldownForWith c r in
    (Some (openedAt c), Milliseconds cooldown, Some (Add (openedAt c) cooldown))
  else (Some (openedAt c), 0, None).

Definition circuitStatus (e : Env) (r : cooldownReads) (model : string) (c : circuit) : CircuitStatus :=
  let st := logicalStateWith e c r in
  let '(openedAt_, cooldownMs, nextRetryAt) := waitFields c st r in
  {| cs_Model := model; cs_State := State_String st;
     cs_ConsecutiveFails := consecutiveFails c;
     cs_OpenedAt := openedAt_; cs_CooldownMs := cooldownMs; cs_NextRetryAt := nextRetryAt;
     cs_QuotaPinned := quotaPinnedForWith c r; cs_PinSource := pinSourceForWith c r;
     cs_BackedOff := backedOffForWith c r; cs_FailedProbes := failedProbes c;
     cs_LastCause := lastCause c; cs_LastStatus := lastStatus c;
     cs_LastAt := if IsZero (lastAt c) then None else Some (lastAt c) |}.

Definition circuitStatuses (e : Env) (models : gmap string circuit) (r : cooldownReads) :
    list CircuitStatus :=
  omap (fun m => circuitStatus e r m <$> models !! m)
    (merge_sort String.le (map_to_list models).*1).

Definition providerRow (e : Env) (cb : CircuitBreaker) (detail : bool) (r : cooldownReads)
    (im : string * gmap string circuit) : option ProviderStatus :=
  let '(id, models) := im in
  match dominant e models r with
  | None => None
  | Some c =>
      let st := logicalStateWith e c r in
      let '(providerOpen, openModels, quotaPinned) := providerReport e cb models r in
      let '(openedAt_, cooldownMs, nextRetryAt) := waitFields c st r in
      Some {| ps_ProviderID := id;
              ps_ProviderName := default "" (names cb !! id);
              ps_State := State_String st;
              ps_ConsecutiveFails := consecutiveFails c;
              ps_OpenedAt := openedAt_; ps_CooldownMs := cooldownMs;
              ps_NextRetryAt := nextRetryAt;
              ps_QuotaPinned := quotaPinned;
              ps_PinSource := pinSourceForWith c r;
              ps_BackedOff := backedOffForWith c r;
              ps_FailedProbes := failedProbes c;
              ps_ProviderOpen := providerOpen;
              ps_OpenModels := openModels;
              ps_Circuits := if detail then circuitStatuses e models r else [] |}
  end.

Definition status (e : Env) (cb : CircuitBreaker) (detail : bool) : list ProviderStatus :=
  let r := cooldowns cb in
  omap (providerRow e cb detail r) (map_to_list (circuits cb)).

Definition Status (e : Env) (cb : CircuitBreaker) : list ProviderStatus := status e cb false.
Definition StatusDetail (e : Env) (cb : CircuitBreaker) : list ProviderStatus := status e cb true.

(** ** Manual resets *)

Record manualReset := MkReset { reset_providerID : string; reset_model : string; reset_prev : State }.

Definition resetProvider (e : Env) (cb : CircuitBreaker) (id : string) :
    CircuitBreaker * State * list manualReset :=
  let r := cooldowns cb in
  let models := modelsOf cb id in
  match dominant e models r with
  | None => (cb, StateClosed, [])
  | Some c =>
      (cb ⟦ circuits := delete id (circuits cb) ⟧ ⟦ names := delete id (names cb) ⟧,
       logicalStateWith e c r,
       (fun mc => MkReset id mc.1 (logicalStateWith e mc.2 r)) <$> map_to_list models)
  end.

Definition resetModel (e : Env) (cb : CircuitBreaker) (id model : string) :
    CircuitBreaker * State * bool :=
  match circuitOf cb id model with
  | None => (cb, StateClosed, false)
  | Some c => (dropCircuit cb id model, logicalStateWith e c (cooldowns cb), true)
  end.

Definition resetAll (e : Env) (cb : CircuitBreaker) :
    CircuitBreaker * Z * Z * list manualReset :=
  let r := cooldowns cb in
  let resets := flat_map (fun im =>
      (fun mc => MkReset im.1 mc.1 (logicalStateWith e mc.2 r)) <$> map_to_list im.2)
    (map_to_list (circuits cb)) in
  (cb ⟦ circuits := ∅ ⟧ ⟦ names := ∅ ⟧,
   Z.of_nat (length resets),
   Z.of_nat (length (filter (fun m => reset_prev m ≠ StateClosed) resets)),
   resets).

(** The circuit a provider's row is built from. *)
Definition dominates (e : Env) (r : cooldownReads) (models : gmap string circuit) (m : string) (c : circuit) :
    Prop :=
  models !! m = Some c ∧
  ∀ m' c', models !! m' = Some c' → m' ≠ m → beats (rankOf e r m c) (rankOf e r m' c') = true.

(** ** Lemmas: the rank order *)

Lemma String_ltb_trans a b c :
  String.ltb a b = true → String.ltb b c = true → String.ltb a c = true.
Proof.
  rewrite !String_ltb_leb, !negb_true_iff. intros Hba Hcb. apply not_true_iff_false. intros Hca.
  assert (String.le a b) as Hab.
  { unfold String.le. destruct (String.leb_total a b) as [->|H]; [done|congruence]. }
  apply not_true_iff_false in Hcb. apply Hcb.
  assert (String.le c b) as Hle by (etransitivity; [|exact Hab]; unfold String.le; by rewrite Hca).
  unfold String.le in Hle. by destruct (String.leb c b).
Qed.

Lemma String_ltb_total a b : a ≠ b → String.ltb a b = true ∨ String.ltb b a = true.
Proof.
  intros Hne. rewrite !String_ltb_leb, !negb_true_iff.
  destruct (String.leb b a) eqn:Hba; [|by left]. right. apply not_true_iff_false. intros Hab. apply Hne.
  apply (anti_symm String.le); unfold String.le; by rewrite ?Hab, ?Hba.
Qed.

Lemma String_ltb_irrefl a : String.ltb a a = false.
Proof. rewrite String_ltb_leb. apply negb_false_iff. destruct (String.leb_total a a); done. Qed.

(** [beats] compares lexicographically; its cases as propositions. *)
Lemma beats_true x y :
  beats x y = true ↔
    rank_state y < rank_state x ∨
    (rank_state x = rank_state y ∧
      (rank_retry y < rank_retry x ∨
       (rank_retry x = rank_retry y ∧
         (rank_fails y < rank_fails x ∨
          (rank_fails x = rank_fails y ∧ String.ltb (rank_model x) (rank_model y) = true))))).
Proof.
  unfold beats, Equal, After.
  destruct (Z.eqb_spec (rank_state x) (rank_state y)) as [?|?]; cbn [negb]; [|rewrite Z.ltb_lt; lia].
  destruct (Z.eqb_spec (rank_retry x) (rank_retry y)) as [?|?]; cbn [negb]; [|rewrite Z.ltb_lt; lia].
  destruct (Z.eqb_spec (rank_fails x) (rank_fails y)) as [?|?]; cbn [negb]; [|rewrite Z.ltb_lt; lia].
  destruct (String.ltb _ _); intuition lia.
Qed.

Lemma beats_trans x y z : beats x y = true → beats y z = true → beats x z = true.
Proof.
  rewrite !beats_true. intros Hxy Hyz.
  destruct Hxy as [?|(? & [?|(? & [?|(? & Hm)])])], Hyz as [?|(? & [?|(? & [?|(? & Hm')])])];
    try (left; lia); right; (split; [lia|]); try (left; lia); right; (split; [lia|]);
    try (left; lia); right; (split; [lia|]). by eapply String_ltb_trans.
Qed.

Lemma beats_total x y : rank_model x ≠ rank_model y → beats x y = true ∨ beats y x = true.
Proof.
  intros Hm. rewrite !beats_true.
  destruct (Z.lt_total (rank_state x) (rank_state y)) as [?|[?|?]]; [right; left; lia| |left; left; lia].
  destruct (Z.lt_total (rank_retry x) (rank_retry y)) as [?|[?|?]]; [right; right; split; lia| |left; right; split; lia].
  destruct (Z.lt_total (rank_fails x) (rank_fails y)) as [?|[?|?]];
    [right; right; split; [lia|]; right; split; lia| |left; right; split; [lia|]; right; split; lia].
  destruct (String_ltb_total _ _ Hm); [left|right]; right; (split; [lia|]); right; (split; [lia|]);
    right; (split; [lia|done]).
Qed.

Lemma beats_irrefl x : beats x x = false.
Proof.
  apply not_true_iff_false. rewrite beats_true, String_ltb_irrefl. intuition (lia || done).
Qed.

(** The scan of [dominant] over any listing with distinct models. *)
Lemma dominant_scan e r l :
  NoDup l.*1 →
  match foldl (dominantStep e r) None l with
  | None => l = []
  | Some b => b ∈ l ∧
      ∀ mc, mc ∈ l → mc = b ∨ beats (rankOf e r b.1 b.2) (rankOf e r mc.1 mc.2) = true
  end.
Proof.
  induction l as [|[m c] l IH] using rev_ind; intros Hnd; [done|].
  rewrite fmap_app in Hnd. apply NoDup_app in Hnd as (Hnd & Hdis & _). specialize (IH Hnd).
  assert (m ∉ l.*1) as Hm by (intros H; by apply (Hdis m H), list_elem_of_singleton).
  rewrite foldl_app. simpl foldl. destruct (foldl _ None l) as [b|].
  2: { subst l. simpl. split; [apply list_elem_of_here|]. left. by apply list_elem_of_singleton. }
  destruct IH as [Hin Hbest]. simpl.
  assert (m ≠ b.1) as Hne.
  { intros ->. apply Hm, list_elem_of_fmap. by exists b. }
  destruct (beats (rankOf e r m c) (rankOf e r b.1 b.2)) eqn:Hb.
  - split; [apply elem_of_app; right; by apply list_elem_of_singleton|].
    intros mc [Hmc| ->%list_elem_of_singleton]%elem_of_app; [|by left]. right.
    destruct (Hbest mc Hmc) as [->|Hbb]; [exact Hb|]. eapply beats_trans; [exact Hb|exact Hbb].
  - split; [apply elem_of_app; by left|].
    intros mc [Hmc| ->%list_elem_of_singleton]%elem_of_app; [by apply Hbest|]. right.
    destruct (beats_total (rankOf e r b.1 b.2) (rankOf e r m c)) as [H|H]; [done|exact H|congruence].
Qed.

Lemma dominant_cases e models r :
  match dominant e models r with
  | None => models = ∅
  | Some c => ∃ m, dominates e r models m c
  end.
Proof.
  unfold dominant.
  pose proof (dominant_scan e r (map_to_list models) (NoDup_fst_map_to_list _)) as H.
  destruct (foldl _ _ _) as [[m c]|]; simpl.
  - destruct H as [Hin%elem_of_map_to_list Hbest]. exists m. split; [done|].
    intros m' c' Hm' Hne. destruct (Hbest (m', c')) as [|]; [by apply elem_of_map_to_list|naive_solver|done].
  - by apply map_to_list_empty_iff.
Qed.

Lemma dominates_unique e r models m c m' c' :
  dominates e r models m c → dominates e r models m' c' → m = m' ∧ c = c'.
Proof.
  intros [Hm Hb] [Hm' Hb']. destruct (decide (m' = m)) as [->|Hne]; [by simplify_eq|].
  pose proof (Hb _ _ Hm' Hne) as H1. pose proof (Hb' _ _ Hm (not_eq_sym Hne)) as H2.
  pose proof (beats_trans _ _ _ H1 H2) as H. by rewrite beats_irrefl in H.
Qed.

Lemma dominates_state e r models m c m' c' :
  dominates e r models m c → models !! m' = Some c' →
  stateRank (logicalStateWith e c' r) ≤ stateRank (logicalStateWith e c r).
Proof.
  intros [Hm Hb] Hm'. destruct (decide (m' = m)) as [->|Hne]; [by simplify_eq|].
  specialize (Hb _ _ Hm' Hne). apply beats_true in Hb. cbn [rankOf rank_state] in Hb. lia.
Qed.

(** ** Properties: the status row *)

(** A provider's row is built from one circuit, whatever order the map is
    walked in: the unique one every sibling loses to, comparing state, then
    retry instant, then failures, then model name. So the row's state is the
    worst state of any of the provider's circuits. *)
Lemma dominant_spec e models r c :
  let worst := fun c => ∀ m' c', models !! m' = Some c' →
    stateRank (logicalStateWith e c' r) ≤ stateRank (logicalStateWith e c r) in
  (dominant e models r = None ↔ models = ∅) ∧
  (dominant e models r = Some c ↔ ∃ m, dominates e r models m c) ∧
  (∀ m c1 m' c2, dominates e r models m c1 ∧ dominates e r models m' c2 → m = m' ∧ c1 = c2) ∧
  match dominant e models r with Some c => worst c | None => True end.
Proof.
  intros worst. pose proof (dominant_cases e models r) as H.
  assert (∀ m c, dominates e r models m c → models ≠ ∅) as Hne.
  { intros m c0 [Hm _] ->. by rewrite lookup_empty in Hm. }
  split_and!.
  - destruct (dominant e models r) as [c0|]; [|done]. split; [done|]. intros ->.
    destruct H as [m Hd]. by destruct (Hne _ _ Hd).
  - destruct (dominant e models r) as [c0|]; split.
    + by intros [= <-].
    + intros [m Hd]. destruct H as [m0 Hd0]. by destruct (dominates_unique _ _ _ _ _ _ _ Hd Hd0) as [_ ->].
    + done.
    + intros [m Hd]. by destruct (Hne _ _ Hd).
  - intros m c1 m' c2 [H1 H2]. by eapply dominates_unique.
  - destruct (dominant e models r) as [c0|]; [|done]. destruct H as [m Hd].
    intros m' c' Hm'. by eapply dominates_state.
Qed.

Lemma statuses_models e models r :
  cs_Model <$> circuitStatuses e models r = merge_sort String.le (map_to_list models).*1 ∧
  ∀ cs, cs ∈ circuitStatuses e models r →
    ∃ c, models !! cs_Model cs = Some c ∧ cs = circuitStatus e r (cs_Model cs) c.
Proof.
  unfold circuitStatuses. destruct (sorted_keys models) as (_ & _ & Hin & _).
  assert (∀ m c, cs_Model (circuitStatus e r m c) = m) as Hname.
  { intros m c. unfold circuitStatus. by destruct (waitFields _ _ _) as [[? ?] ?]. }
  revert Hin. generalize (merge_sort String.le (map_to_list models).*1). intros l Hin.
  assert (∀ m, m ∈ l → is_Some (models !! m)) as Hl by naive_solver. clear Hin.
  induction l as [|m l IH]; [split; [done|by intros cs ?%elem_of_nil]|].
  destruct IH as [IH1 IH2]; [set_solver|]. destruct (Hl m) as [c Hc]; [set_solver|]. simpl. rewrite Hc. simpl. split.
  - rewrite Hname. f_equal. exact IH1.
  - intros cs [->|Hcs]%elem_of_cons; [|by apply IH2]. exists c. by rewrite Hname.
Qed.

Lemma providerRow_Some e cb detail r id models row :
  providerRow e cb detail r (id, models) = Some row →
  ∃ c, dominant e models r = Some c ∧ ps_ProviderID row = id ∧
    ps_State row = State_String (logicalStateWith e c r) ∧
    (ps_ProviderOpen row, ps_OpenModels row, ps_QuotaPinned row) = providerReport e cb models r ∧
    ps_Circuits row = (if detail then circuitStatuses e models r else []).
Proof.
  unfold providerRow. destruct (dominant e models r) as [c|]; [|done].
  destruct (providerReport e cb models r) as [[o bl] q].
  destruct (waitFields _ _ _) as [[? ?] ?]. intros [= <-]. exists c. done.
Qed.

(** ** Lemmas: rows *)

Lemma providerRow_id e cb detail r im row : providerRow e cb detail r im = Some row → ps_ProviderID row = im.1.
Proof. destruct im as [id models]. intros (c & _ & -> & _)%providerRow_Some. done. Qed.

Lemma status_rows e cb detail row :
  row ∈ status e cb detail ↔
    ∃ id models, circuits cb !! id = Some models ∧ providerRow e cb detail (cooldowns cb) (id, models) = Some row.
Proof.
  unfold status. rewrite list_elem_of_omap. split.
  - intros ([id models] & Hin%elem_of_map_to_list & Hr). eauto.
  - intros (id & models & Hin & Hr). exists (id, models). by rewrite elem_of_map_to_list.
Qed.

Lemma status_nodup e cb detail : NoDup (ps_ProviderID <$> status e cb detail).
Proof.
  unfold status. pose proof (NoDup_fst_map_to_list (circuits cb)) as Hnd.
  induction (map_to_list (circuits cb)) as [|im l IH]; simpl; [constructor|].
  apply NoDup_cons in Hnd as [Hni Hnd]. destruct (providerRow _ _ _ _ im) as [row|] eqn:Hr; [|by apply IH].
  simpl. constructor; [|by apply IH]. rewrite (providerRow_id _ _ _ _ _ _ Hr). intros (row' & Heq & Hin)%list_elem_of_fmap.
  apply list_elem_of_omap in Hin as (im' & Hin & Hr'). apply providerRow_id in Hr'. apply Hni, list_elem_of_fmap.
  exists im'. split; [congruence|done].
Qed.

(** A provider has a row when it has a circuit. *)
Lemma status_present e cb detail id : id ∈ (ps_ProviderID <$> status e cb detail) ↔ modelsOf cb id ≠ ∅.
Proof.
  rewrite list_elem_of_fmap. setoid_rewrite status_rows. unfold modelsOf. split.
  - intros (row & -> & id' & models & Hm & Hr). apply providerRow_id in Hr as Hi. simpl in Hi. rewrite Hi, Hm. simpl.
    apply providerRow_Some in Hr as (c & Hd & _). intros ->.
    pose proof (dominant_cases e ∅ (cooldowns cb)) as H. rewrite Hd in H. by destruct H as (? & H & _).
  - intros Hne. destruct (circuits cb !! id) as [models|] eqn:Hm; [|done]. simpl in Hne.
    pose proof (dominant_cases e models (cooldowns cb)) as Hd. destruct (dominant e models _) as [c|] eqn:Hdom; [|done].
    destruct (providerRow e cb detail (cooldowns cb) (id, models)) as [row|] eqn:Hr.
    + exists row. apply providerRow_id in Hr as Hi. eauto.
    + exfalso. revert Hr. unfold providerRow. rewrite Hdom.
      destruct (providerReport _ _ _ _) as [[? ?] ?], (waitFields _ _ _) as [[? ?] ?]. done.
Qed.

(** The status report has one row per provider that has circuits; a row
    reads "closed" exactly when every circuit of the provider is closed, its
    provider-open flag is the verdict [IsOpen] routes by, the models it lists
    as open are exactly the dark ones, and the detail form lists every circuit
    once, in model order, in the state [GetState] reports. *)
Lemma status_spec e cb detail :
  NoDup (ps_ProviderID <$> status e cb detail) ∧
  (∀ id, id ∈ (ps_ProviderID <$> status e cb detail) ↔ modelsOf cb id ≠ ∅) ∧
  (∀ row, row ∈ status e cb detail →
     let id := ps_ProviderID row in
     (ps_State row = "closed" ↔ ∀ m, GetState e cb id m = StateClosed) ∧
     ps_ProviderOpen row = providerOpen e cb (modelsOf cb id) ∧
     (∀ m, m ∈ ps_OpenModels row ↔ GetState e cb id m = StateOpen) ∧
     (cs_Model <$> ps_Circuits row =
        if detail then merge_sort String.le (map_to_list (modelsOf cb id)).*1 else []) ∧
     (∀ cs, cs ∈ ps_Circuits row → cs_State cs = State_String (GetState e cb id (cs_Model cs)))).
Proof.
  split; [apply status_nodup|]. split; [intros; apply status_present|].
  intros row (id & models & Hm & Hr)%status_rows. apply providerRow_Some in Hr as (c & Hd & -> & Hst & Hrep & Hcs).
  set (r := cooldowns cb) in *. cbv zeta. assert (modelsOf cb id = models) as Hms by (by apply modelsOf_circuits). rewrite Hms.
  pose proof (providerReport_models e cb models r) as (_ & _ & Hin & _).
  rewrite <- Hrep in Hin. rewrite providerOpen_report. fold r. rewrite <- Hrep. cbn [fst snd] in *.
  assert (∀ m c, models !! m = Some c → GetState e cb id m = logicalStateWith e c r) as Hgs.
  { intros m c0 Hc0. unfold GetState, circuitOf. by rewrite Hms, Hc0. }
  split_and!.
  + rewrite Hst. pose proof (dominant_cases e models r) as Hdom. rewrite Hd in Hdom. destruct Hdom as [m Hdom].
    split.
    * intros Hclosed m'. unfold GetState, circuitOf. rewrite Hms. destruct (models !! m') as [c'|] eqn:Hm'; [|done].
      pose proof (dominates_state _ _ _ _ _ _ _ Hdom Hm') as Hle. fold r.
      by destruct (logicalStateWith e c r), (logicalStateWith e c' r).
    * intros Hall. destruct Hdom as [Hc _]. by rewrite <- (Hgs _ _ Hc), Hall.
  + done.
  + intros m. rewrite Hin. unfold GetState, circuitOf. rewrite Hms. fold r.
    destruct (models !! m) as [c0|]; [|naive_solver]. rewrite <- blocking_logical. naive_solver.
  + rewrite Hcs. destruct detail; [apply statuses_models|done].
  + intros cs. rewrite Hcs. destruct detail; [|by intros ?%elem_of_nil].
    intros (c0 & Hc0 & Heq)%(proj2 (statuses_models e models r)). rewrite (Hgs _ _ Hc0), Heq at 1.
    unfold circuitStatus. by destruct (waitFields _ _ _) as [[? ?] ?].
Qed.

(** ** Properties: manual resets *)

Lemma IsOpen_forgotten e cb id name m :
  (∀ m, circuitOf cb id m = None) → IsOpen e cb id name m = (cb, false, []).
Proof.
  intros Hnone. rewrite IsOpen_cases, Hnone.
  assert (modelsOf cb id = ∅) as -> by (apply map_empty; apply Hnone). done.
Qed.

(** A manual reset forgets one provider: all its circuits are gone, so it
    is routed to again for every model, whenever asked; every other provider
    keeps its circuits; the state reported back is "closed" exactly when
    nothing was tripped; and the log names each circuit with the state it was
    in. *)
Lemma resetProvider_spec e cb id :
  let '(cb', prev, resets) := resetProvider e cb id in
  (∀ id' m, circuitOf cb' id' m = if decide (id' = id) then None else circuitOf cb id' m) ∧
  (∀ e' name m, IsOpen e' cb' id name m = (cb', false, [])) ∧
  (prev = StateClosed ↔ ∀ m, GetState e cb id m = StateClosed) ∧
  (∀ id' m st, MkReset id' m st ∈ resets ↔
     id' = id ∧ is_Some (circuitOf cb id m) ∧ st = GetState e cb id m).
Proof.
  unfold resetProvider. pose proof (dominant_cases e (modelsOf cb id) (cooldowns cb)) as Hd.
  destruct (dominant e (modelsOf cb id) (cooldowns cb)) as [c|].
  - destruct Hd as [md Hd]. set (cb' := _ ⟦ names := _ ⟧).
    assert (∀ id' m, circuitOf cb' id' m = if decide (id' = id) then None else circuitOf cb id' m) as Hc.
    { intros id' m. unfold circuitOf, modelsOf, cb'. simpl. case_decide.
      - subst. rewrite lookup_delete_eq. apply lookup_empty.
      - by rewrite lookup_delete_ne. }
    split_and!; [done|..].
    + intros e' name m. apply IsOpen_forgotten. intros m'. by rewrite Hc, decide_True.
    + split.
      * intros Hcl m. unfold GetState, circuitOf. destruct (modelsOf cb id !! m) as [c'|] eqn:Hm; [|done].
        pose proof (dominates_state _ _ _ _ _ _ _ Hd Hm) as Hle. rewrite Hcl in Hle.
        by destruct (logicalStateWith e c' (cooldowns cb)).
      * intros Hall. specialize (Hall md). unfold GetState, circuitOf in Hall. destruct Hd as [Hm _].
        by rewrite Hm in Hall.
    + intros id' m st. rewrite list_elem_of_fmap. unfold GetState, circuitOf. split.
      * intros ([m' c'] & [= -> -> ->] & Hm%elem_of_map_to_list). rewrite Hm. done.
      * intros (-> & [c' Hm] & ->). exists (m, c'). rewrite Hm. split; [done|]. by apply elem_of_map_to_list.
  - assert (∀ m, circuitOf cb id m = None) as Hnone by (intros m; unfold circuitOf; rewrite Hd; apply lookup_empty).
    split_and!.
    + intros id' m. case_decide; [by subst|done].
    + intros. by apply IsOpen_forgotten.
    + split; [|done]. intros _ m. unfold GetState. by rewrite Hnone.
    + intros id' m st. rewrite elem_of_nil. split; [done|]. intros (_ & [? Hm] & _). by rewrite Hnone in Hm.
Qed.

(** Resetting one model forgets that circuit and no other, reports whether
    there was one and the state it was in, and takes the provider's bucket and
    name along with its last circuit. *)
Lemma resetModel_spec e cb id m :
  let '(cb', prev, existed) := resetModel e cb id m in
  (∀ id' m', circuitOf cb' id' m' = if decide (id = id' ∧ m = m') then None else circuitOf cb id' m') ∧
  prev = GetState e cb id m ∧
  (existed = true ↔ is_Some (circuitOf cb id m)) ∧
  (existed = true ∧ (∀ m', m' ≠ m → circuitOf cb id m' = None) →
     circuits cb' !! id = None ∧ names cb' !! id = None).
Proof.
  unfold resetModel, GetState. destruct (circuitOf cb id m) as [c|] eqn:Hm.
  - split_and!; [apply circuitOf_drop|done|by split|].
    intros [_ Hlast]. unfold dropCircuit. rewrite bool_decide_true; simpl.
    + by rewrite !lookup_delete_eq.
    + apply map_empty. intros m'. rewrite lookup_delete. case_decide; [done|]. by apply Hlast.
  - split_and!; [|done|by split; [|intros []]|by intros [? _]].
    intros id' m'. case_decide as Hd; [|done]. by destruct Hd as [<- <-].
Qed.

Lemma NoDup_resets e r (l : list (string * gmap string circuit)) :
  NoDup l.*1 →
  NoDup ((fun r => (reset_providerID r, reset_model r)) <$> flat_map (fun im =>
    (fun mc => MkReset im.1 mc.1 (logicalStateWith e mc.2 r)) <$> map_to_list im.2) l).
Proof.
  induction l as [|[id ms] l IH]; simpl; [constructor|]. intros [Hni Hnd]%NoDup_cons.
  rewrite fmap_app. apply NoDup_app. split_and!; [| |by apply IH].
  - rewrite <- list_fmap_compose.
    change (NoDup ((fun mc : string * circuit => (id, mc.1)) <$> map_to_list ms)).
    change (fun mc : string * circuit => (id, mc.1)) with (pair (B := string) id ∘ @fst string circuit).
    rewrite list_fmap_compose. apply NoDup_fmap_2; [by intros ? ? [= ->]|apply NoDup_fst_map_to_list].
  - intros [p m] ([p' m' st] & [= -> ->] & (mc & [= -> _ _] & _)%list_elem_of_fmap)%list_elem_of_fmap
      (rs & Heq & Hin)%list_elem_of_fmap.
    apply list_elem_of_In, in_flat_map in Hin as ([id' ms'] & Hl & Hin).
    apply list_elem_of_In, list_elem_of_fmap in Hin as (mc' & -> & _). simpl in Heq. apply Hni.
    apply list_elem_of_fmap. injection Heq as -> _. exists (id', ms'). split; [done|]. by apply list_elem_of_In.
Qed.

(** Resetting everything empties the breaker; the first count is the number
    of circuits there were, the second how many of them were not closed, and
    the log names each circuit once. *)
Lemma resetAll_spec e cb :
  let '(cb', cleared, recovered, resets) := resetAll e cb in
  (∀ id m, circuitOf cb' id m = None) ∧ circuits cb' = ∅ ∧ names cb' = ∅ ∧
  NoDup ((fun r => (reset_providerID r, reset_model r)) <$> resets) ∧
  (∀ id m st, MkReset id m st ∈ resets ↔ is_Some (circuitOf cb id m) ∧ st = GetState e cb id m) ∧
  cleared = Z.of_nat (length resets) ∧
  recovered = Z.of_nat (length (filter (fun r => reset_prev r ≠ StateClosed) resets)).
Proof.
  unfold resetAll. set (r := cooldowns cb). split_and!; try done.
  - apply NoDup_resets, NoDup_fst_map_to_list.
  - intros id m st. rewrite list_elem_of_In, in_flat_map. setoid_rewrite <- list_elem_of_In.
    unfold GetState, circuitOf, modelsOf. fold r. split.
    + intros ([id' ms] & Hid%elem_of_map_to_list & ([m' c] & [= -> -> ->] & Hm%elem_of_map_to_list)%list_elem_of_fmap).
      rewrite Hid. simpl in *. rewrite Hm. done.
    + destruct (circuits cb !! id) as [ms|] eqn:Hid; simpl; [|rewrite lookup_empty; by intros [[] _]].
      intros [[c Hm] ->]. exists (id, ms). split; [by apply elem_of_map_to_list|].
      apply list_elem_of_fmap. exists (m, c). rewrite Hm. split; [done|]. by apply elem_of_map_to_list.
Qed.
