(* ===== verification/BreakerSystem.v ===== *)
(** * The breaker as a system (internal/failover)

    Every entry point of the breaker as a step on one shared value, in any order,
    at any instant and under any sane settings: the states so reached, and what
    holds of all of them. [IsOpen] takes its two locks separately, so its write
    half is a step of its own that may land on any breaker. *)

From S2P Require Import Prelude Circuit Cooldown CircuitEvents Breaker BreakerGate BreakerPhases.
From S2P Require Import BreakerQuota BreakerStatus.

(** ** Steps *)

(** One critical section of the write lock, or a change of what the breaker
    reads from outside. *)
Inductive breaker_step (e : Env) : CircuitBreaker → CircuitBreaker → Prop :=
| step_isOpenWrite cb id name m : breaker_step e cb (isOpenWrite e cb id name m).1.1
| step_record cb id name m o : breaker_step e cb (perform e cb id name m o)
| step_release cb recovered : breaker_step e cb (ReleaseQuotaPins e cb recovered).1.1
| step_releaseAll cb : breaker_step e cb (ReleaseAllQuotaPins e cb).1.1
| step_apply cb advice names_ : breaker_step e cb (ApplyQuotaPins e cb advice names_).1.1
| step_reset cb id : breaker_step e cb (resetProvider e cb id).1.1
| step_resetModel cb id m : breaker_step e cb (resetModel e cb id m).1.1
| step_resetAll cb : breaker_step e cb (resetAll e cb).1.1.1
| step_advisor cb a : breaker_step e cb (SetQuotaAdvisor cb a)
| step_onOpen cb wired : breaker_step e cb (SetOnOpen cb wired)
| step_settings cb s :
    config_ok (MkBreaker (circuits cb) (names cb) s (quota cb) (onOpen cb) (Threshold cb)
      (SpanModels cb) (Cooldown cb) (HalfOpenMaxProbes cb)) →
    breaker_step e cb (MkBreaker (circuits cb) (names cb) s (quota cb) (onOpen cb) (Threshold cb)
      (SpanModels cb) (Cooldown cb) (HalfOpenMaxProbes cb)).

Inductive breaker_reachable : CircuitBreaker → Prop :=
| reach_new s : config_ok (NewCircuitBreaker s) → breaker_reachable (NewCircuitBreaker s)
| reach_by e cb cb' : env_ok e → breaker_reachable cb → breaker_step e cb cb' → breaker_reachable cb'.

(** ** The invariant *)

(** Nothing lingers: no provider is tracked without a circuit, and no name is
    kept for a provider that is not tracked. *)
Record buckets_ok (cb : CircuitBreaker) : Prop := {
  bucket_nonempty id models : circuits cb !! id = Some models → models ≠ ∅;
  bucket_named id : is_Some (names cb !! id) → is_Some (circuits cb !! id)
}.

Record breaker_ok (cb : CircuitBreaker) : Prop := {
  breaker_config : config_ok cb;
  breaker_store : store_ok cb;
  breaker_buckets : buckets_ok cb
}.

(** ** Lemmas: buckets *)

Lemma tracked_iff cb id : buckets_ok cb → is_Some (circuits cb !! id) ↔ ∃ m c, circuitOf cb id m = Some c.
Proof.
  intros [Hne _]. unfold circuitOf, modelsOf. split.
  - intros [ms Hms]. rewrite Hms. simpl. specialize (Hne _ _ Hms). apply map_choose in Hne as (m & c & ?). eauto.
  - intros (m & c & Hm). destruct (circuits cb !! id); [by eexists|]. simpl in Hm. by rewrite lookup_empty in Hm.
Qed.

(** A write that leaves a circuit in one provider's bucket. *)
Lemma buckets_touched cb cb' id m c :
  buckets_ok cb →
  (∀ id', id' ≠ id → circuits cb' !! id' = circuits cb !! id') →
  circuitOf cb' id m = Some c →
  (∀ id', id' ≠ id → is_Some (names cb' !! id') → is_Some (names cb !! id')) →
  buckets_ok cb'.
Proof.
  intros [Hne Hnm] Hother Hm Hnames.
  assert (∃ ms, circuits cb' !! id = Some ms ∧ ms !! m = Some c) as (ms & Hms & Hc).
  { unfold circuitOf, modelsOf in Hm. destruct (circuits cb' !! id) as [ms|]; [by exists ms|].
    simpl in Hm. by rewrite lookup_empty in Hm. }
  split.
  - intros id' ms' Hms'. destruct (decide (id' = id)) as [->|]; [|eapply Hne; by rewrite <- Hother].
    simplify_eq. intros ->. by rewrite lookup_empty in Hc.
  - intros id' Hn. destruct (decide (id' = id)) as [->|Hd]; [by rewrite Hms|].
    rewrite Hother by done. by apply Hnm, Hnames.
Qed.

Lemma buckets_charged e cb cb' id name m c : buckets_ok cb → charged e cb cb' id name m c → buckets_ok cb'.
Proof.
  intros Hb [[ms ->] Hhere Hfr]. eapply buckets_touched; [exact Hb|apply Hfr|exact Hhere|].
  intros id' Hne. simpl. by rewrite lookup_insert_ne.
Qed.

Lemma buckets_put cb id m c0 c : buckets_ok cb → circuitOf cb id m = Some c0 → buckets_ok (putCircuit cb id m c).
Proof.
  intros Hb Hm. eapply (buckets_touched cb _ id m c); [done| |apply circuitOf_put_eq|done].
  intros id' Hne. unfold putCircuit. simpl. by rewrite lookup_insert_ne.
Qed.

Lemma buckets_drop cb id m : buckets_ok cb → buckets_ok (dropCircuit cb id m).
Proof.
  intros [Hne Hnm]. unfold dropCircuit. case_bool_decide as Hd; split; simpl.
  - intros id' ms. rewrite lookup_delete_Some. intros [_ ?]. eauto.
  - intros id'. rewrite !lookup_delete. case_decide; [by intros []|apply Hnm].
  - intros id' ms. rewrite lookup_insert_Some. intros [[_ <-]|[_ ?]]; eauto.
  - intros id' Hn. rewrite lookup_insert. case_decide; [by eexists|by apply Hnm].
Qed.

Lemma buckets_retire cb id m : buckets_ok cb → buckets_ok (retireIfSeeded cb id m).
Proof. unfold retireIfSeeded. case_decide; [apply buckets_drop|done]. Qed.

(** Rewriting a tracked provider's bucket key by key. *)
Lemma buckets_rewrite cb id models models' :
  buckets_ok cb → circuits cb !! id = Some models → models' ≠ ∅ →
  buckets_ok (cb ⟦ circuits := <[id := models']> (circuits cb) ⟧).
Proof.
  intros [Hne Hnm] Hid Hm. split; simpl.
  - intros id' ms. rewrite lookup_insert_Some. intros [[_ <-]|[_ ?]]; eauto.
  - intros id' Hn. rewrite lookup_insert. case_decide; [by eexists|by apply Hnm].
Qed.

Lemma buckets_release e reason clear lifts r l acc :
  buckets_ok acc.1.1 → buckets_ok (foldl (releaseStep e reason clear lifts r) acc l).1.1.
Proof.
  revert acc. induction l as [|id l IH]; intros [[cb n] out] Hb; [done|]. simpl. apply IH.
  cbn [fst] in Hb. unfold releaseProvider. destruct (circuits cb !! id) as [models|] eqn:Hid; [|done]. cbn [fst].
  set (models' := (fun c => if lifts c then _ else c) <$> (clear <$> models)).
  assert (buckets_ok (cb ⟦ circuits := <[id := models']> (circuits cb) ⟧)) as Hb'.
  { eapply buckets_rewrite; [done|exact Hid|]. unfold models'. rewrite !fmap_empty_iff. by eapply bucket_nonempty. }
  case_decide; [by apply buckets_retire|done].
Qed.

Lemma buckets_apply e names_ maxPin r l acc :
  buckets_ok acc.1.1 → buckets_ok (foldl (applyStep e names_ maxPin r) acc l).1.1.
Proof.
  revert acc. induction l as [|[id adv] l IH]; intros [[cb n] out] Hb; [done|].
  cbn [foldl]. apply IH. cbn [fst] in Hb. unfold applyStep.
  assert (buckets_ok (retargetProvider e maxPin r cb id adv).1.1) as H1.
  { unfold retargetProvider. destruct (circuits cb !! id) as [models|] eqn:Hid; [|done]. cbn [fst].
    eapply buckets_rewrite; [done|exact Hid|]. apply (bucket_nonempty _ Hb) in Hid.
    apply map_choose in Hid as (m & c & Hm). intros Hemp.
    apply (f_equal (.!! m)) in Hemp. rewrite lookup_fmap, map_lookup_imap, Hm, lookup_empty in Hemp. done. }
  destruct (retargetProvider e maxPin r cb id adv) as [[cb1 n1] o1]. cbn [fst] in H1.
  assert (buckets_ok (seedQuotaPin e maxPin r cb1 id adv).1.1) as H2.
  { unfold seedQuotaPin. destruct (accountPinned _ _ _); [done|]. destruct (clampPin _ _ _ _ _ _); [|done].
    destruct (getOrCreate_shape e cb1 id seededModel) as [ms Hg]. rewrite Hg. cbn [fst].
    eapply buckets_touched; [exact H1| |apply circuitOf_put_eq|done].
    apply (getOrCreate_framed _ _ _ _ _ _ Hg). }
  destruct (seedQuotaPin e maxPin r cb1 id adv) as [[cb2 seeded] o2]. cbn [fst] in *. cbv zeta.
  destruct (names_ !! id) as [name|]; [|done]. destruct (_ && _) eqn:Hg; [|done].
  apply andb_true_iff in Hg as [_ Hg%negb_true_iff%bool_decide_eq_false].
  destruct H2 as [Hne Hnm]. split; [done|]. intros id'. simpl. rewrite lookup_insert. case_decide; [|apply Hnm].
  intros _. subst id'. unfold modelsOf in Hg. by destruct (circuits cb2 !! id).
Qed.

(** ** Lemmas: every step keeps the invariant *)

Lemma releasedCircuit_ok e reason clear lifts m c c' :
  (∀ c, circuit_ok c → circuit_ok (clear c)) → circuit_ok c →
  releasedCircuit e reason clear lifts m c = Some c' → circuit_ok c'.
Proof.
  intros Hclear Hc%Hclear. unfold releasedCircuit. destruct (lifts (clear c)); [|by intros [= <-]].
  case_decide; [done|]. intros [= <-]. unfold releasePin. apply note_ok. destruct Hc.
  split; circuit_fields; try done; [|by left]. intros Hs. by destruct (ok_clean Hs) as (_ & ? & ? & ?).
Qed.

Lemma release_kept e reason clear lifts cb l :
  (∀ c, circuit_ok c → circuit_ok (clear c)) → NoDup l → breaker_ok cb →
  breaker_ok (foldl (releaseStep e reason clear lifts (cooldowns cb)) (cb, 0, []) l).1.1.
Proof.
  intros Hclear Hnd [Hcb Hok Hb].
  pose proof (buckets_release e reason clear lifts (cooldowns cb) l (cb, 0, []) Hb) as Hb'.
  pose proof (releaseFold_spec e reason clear lifts (cooldowns cb) l cb Hnd) as Hspec.
  destruct (foldl _ _ l) as [[cb' n] out]. destruct Hspec as (Hcfg & _ & Hcirc & _). split; [by rewrite Hcfg| |done].
  intros id m c. rewrite Hcirc. case_decide; [|apply Hok].
  destruct (circuitOf cb id m) as [c0|] eqn:Hm; [|done]. by eapply releasedCircuit_ok, Hok.
Qed.

Lemma isOpenWrite_kept e cb id name m : breaker_ok cb → breaker_ok (isOpenWrite e cb id name m).1.1.
Proof.
  intros [Hcb Hok Hb]. unfold isOpenWrite. destruct (circuits cb !! id) as [models|] eqn:Hid; [|done].
  destruct (models !! m) as [c|] eqn:Hm; [|done].
  assert (circuitOf cb id m = Some c) as Hc by (by rewrite (circuitOf_found _ _ _ _ Hid)).
  pose proof (probeIfCooldownElapsed_ok e cb c (Hok _ _ _ Hc)) as Hp.
  destruct (probeIfCooldownElapsed e cb c) as [c' p]. cbn [fst] in *.
  split; [by destruct Hcb|by apply store_ok_put|by eapply buckets_put].
Qed.

Lemma perform_buckets e cb id name m o :
  buckets_ok cb → buckets_ok (perform e cb id name m o).
Proof.
  intros Hb. destruct o as [by429 cause|st hint acc| |sv cause|]; cbn [perform].
  - eapply buckets_charged, recordFailure_charged. done.
  - eapply buckets_charged, recordExhausted_charged. done.
  - eapply buckets_charged, RecordSaturated_charged. done.
  - eapply buckets_charged, recordSuccess_charged. done.
  - rewrite IsOpen_cases. destruct (circuitOf cb id m) as [c|] eqn:Hc; [|done].
    destruct (probeIfCooldownElapsed e cb c) as [c' p]. by eapply buckets_put.
Qed.

Lemma buckets_sweep e cb : buckets_ok cb → buckets_ok (sweepExpiredSeeds e cb).
Proof.
  unfold sweepExpiredSeeds. generalize (cooldowns cb) (map_to_list (circuits cb)).*1. intros r l. revert cb.
  induction l as [|id l IH]; intros cb Hb; [done|]. simpl. apply IH. unfold sweepStep.
  destruct (circuitOf cb id seededModel); [|done]. destruct (negb _); [by apply buckets_retire|done].
Qed.

Lemma reset_kept cb ms ns :
  breaker_ok cb → (∀ id models, ms !! id = Some models → circuits cb !! id = Some models) →
  (∀ id, is_Some (ns !! id) → is_Some (names cb !! id) ∧ ms !! id = circuits cb !! id) →
  breaker_ok (cb ⟦ circuits := ms ⟧ ⟦ names := ns ⟧).
Proof.
  intros [Hcb Hok [Hne Hnm]] Hms Hns. split; [by destruct Hcb| |split; simpl].
  - intros id m c. unfold circuitOf, modelsOf. simpl. destruct (ms !! id) as [models|] eqn:Hid; simpl;
      [|by rewrite lookup_empty]. intros Hm. apply (Hok id m). by rewrite (circuitOf_found _ _ _ _ (Hms _ _ Hid)).
  - intros id models Hid. eapply Hne. by apply Hms.
  - intros id Hn. destruct (Hns _ Hn) as [Hn' ->]. by apply Hnm.
Qed.

Lemma dropCircuit_kept cb id m : breaker_ok cb → breaker_ok (dropCircuit cb id m).
Proof.
  intros [Hcb Hok Hb]. split; [|intros id' m' c; rewrite circuitOf_drop; case_decide; [done|apply Hok]|by apply buckets_drop].
  unfold dropCircuit. case_bool_decide; by destruct Hcb.
Qed.

Lemma breaker_step_ok e cb cb' : env_ok e → breaker_step e cb cb' → breaker_ok cb → breaker_ok cb'.
Proof.
  intros He Hstep Hinv. pose proof Hinv as [Hcb Hok Hb]. destruct Hstep as
    [cb id name m|cb id name m o|cb rec|cb|cb adv ns|cb id|cb id m|cb|cb a|cb w|cb s Hs].
  - by apply isOpenWrite_kept.
  - destruct (perform_kept e cb id name m o He Hcb Hok) as [Hcfg Hok'].
    split; [by rewrite Hcfg|done|by apply perform_buckets].
  - unfold ReleaseQuotaPins. cbv zeta. apply release_kept; [apply clear429_ok|apply NoDup_elements|done].
  - unfold ReleaseAllQuotaPins. cbv zeta. apply release_kept; [done|apply NoDup_fst_map_to_list|done].
  - destruct (ApplyQuotaPins_kept e cb adv ns He Hcb Hok) as [Hcfg Hok']. split; [by rewrite Hcfg|done|].
    unfold ApplyQuotaPins. destruct (_ || _); [by apply buckets_sweep|]. by apply buckets_apply, buckets_sweep.
  - unfold resetProvider. destruct (dominant _ _ _); [|done]. apply reset_kept; [done|..].
    + intros id' models. rewrite lookup_delete_Some. tauto.
    + intros id'. rewrite !lookup_delete. case_decide; [by intros []|done].
  - unfold resetModel. destruct (circuitOf cb id m); [by apply dropCircuit_kept|done].
  - apply reset_kept; [done|..]; intros id; [intros models|]; rewrite lookup_empty; [done|by intros []].
  - split; [by destruct Hcb|done|by destruct Hb].
  - split; [by destruct Hcb|done|by destruct Hb].
  - split; [done|done|by destruct Hb].
Qed.

(** ** Properties *)

(** C2. The invariant holds in every reachable state: whatever calls arrive, in
    whatever order, at whatever instants and under any sane settings, every
    circuit stays well-formed (a tripped one has a real opening instant, a
    closed one carries no pin, backoff or escalation, waits fit an int64), no
    provider is tracked without a circuit and no name lingers for one. *)
Theorem breaker_invariant cb : breaker_reachable cb → breaker_ok cb.
Proof.
  induction 1 as [s Hs|e cb cb' He _ IH Hstep]; [|by eapply breaker_step_ok].
  split; [done| |split; simpl].
  - intros id m c. unfold circuitOf, modelsOf. simpl. by rewrite !lookup_empty.
  - intros id models. by rewrite lookup_empty.
  - intros id. rewrite lookup_empty. by intros [].
Qed.

Lemma breaker_invariant_witness :
  let e := env_at Hour in
  let cb1 := perform e defaultBreaker "p" "prov" "m" (Exhaust 402 (2 * Hour) true) in
  let cb2 := (ReleaseQuotaPins (env_at (Hour + Minute)) cb1 {["p"]}).1.1 in
  breaker_ok cb2 ∧ is_Some (circuitOf cb2 "p" "m").
Proof.
  intros e cb1 cb2. split; [|by eexists; vm_compute].
  apply breaker_invariant. eapply (reach_by (env_at (Hour + Minute)) cb1).
  - apply env_at_ok; evaluate.
  - eapply (reach_by e defaultBreaker); [apply env_at_ok; evaluate|apply reach_new, defaultBreaker_ok|apply step_record].
  - apply step_release.
Defined.

(** ** What modelling showed *)

(** Between the read lock and the write lock of one [IsOpen] call, another
    request can take the half-open transition and have its probe refused, which
    re-opens the circuit. The first call then answers from the provider-wide
    verdict alone and lets its request through to a model whose circuit is dark
    at that very instant, though the breaker asked afresh would skip it. *)
Lemma IsOpen_race :
  let e := env_at (Hour + 2 * Minute) in
  let cb := putCircuit defaultBreaker "p" "m" (darkCircuit Hour) in
  let other := (recordFailure e (IsOpen e cb "p" "prov" "m").1.1 "p" "prov" "m" false
                  (MkCause 503 "upstream status 503")).1 in
  isOpenRead e cb "p" "m" = None ∧
  GetState e other "p" "m" = StateOpen ∧
  (isOpenWrite e other "p" "prov" "m").1.2 = false ∧
  (IsOpen e other "p" "prov" "m").1.2 = true.
Proof. split_and!; vm_compute; reflexivity. Qed.
