(* ===== verification/LoginThrottle.v ===== *)
(** * The login throttle (internal/totp/throttle.go)

    Per-key exponential backoff over repeated login failures: the lock a failure
    count earns, the admission question, and the bounded map behind them. The
    theorems hold for any hash that keys the map, the section variable [digest]
    ([Encryption.SHA256Hex] in the gateway); each operation is one critical section and takes the
    instant it reads from the clock. *)

From S2P Require Import Prelude.

Definition maxThrottleEntries : nat := 4096.

Record throttleEntry := MkEntry {
  failures : Z;
  lockedUntil : Time;
  lastSeen : Time
}.

Record Throttle := MkThrottle {
  entries : gmap string throttleEntry;
  maxFailures : Z;
  baseDelay : Duration;
  maxDelay : Duration
}.

Definition throttle_eta (t : Throttle) : Throttle :=
  MkThrottle (entries t) (maxFailures t) (baseDelay t) (maxDelay t).
#[export] Instance upd_entries : Updater entries := ltac:(derive_updater throttle_eta).

Definition NewThrottle (maxFailures : Z) (baseDelay maxDelay : Duration) : Throttle :=
  MkThrottle ∅ maxFailures baseDelay maxDelay.

(** The lock a failure count earns. [baseDelay << shift] is an int64 shift: the
    bits shifted out are lost. *)
Definition backoffFor (t : Throttle) (failures : Z) : Duration :=
  let shift := failures - maxFailures t - 1 in
  if shift <? 0 then 0
  else if 63 <=? shift then maxDelay t
  else
    let d := wrap64 (Z.shiftl (baseDelay t) shift) in
    if (d <=? 0) || (maxDelay t <? d) then maxDelay t else d.

(** Forgets the entries no longer locked and idle for longer than [maxDelay]. *)
Definition sweepLocked (t : Throttle) (now : Time) : Throttle :=
  t ⟦ entries := filter (fun ke =>
        negb (After now (lockedUntil ke.2) && (maxDelay t <? Sub now (lastSeen ke.2))) = true)
      (entries t) ⟧.

Section Throttle.
Context (digest : string → string).

Definition Allowed (t : Throttle) (now : Time) (key : string) : bool * Duration :=
  match entries t !! digest key with
  | None => (true, 0)
  | Some e =>
      if Before now (lockedUntil e) then (false, Sub (lockedUntil e) now) else (true, 0)
  end.

Definition RecordFailure (t : Throttle) (now : Time) (key : string) : Throttle :=
  let t := if bool_decide (maxThrottleEntries < size (entries t))%nat then sweepLocked t now else t in
  let k := digest key in
  let e := default (MkEntry 0 zeroTime zeroTime) (entries t !! k) in
  let n := failures e + 1 in
  let d := backoffFor t n in
  let until := if 0 <? d then Add now d else lockedUntil e in
  t ⟦ entries := <[k := MkEntry n until now]> (entries t) ⟧.

Definition RecordSuccess (t : Throttle) (key : string) : Throttle :=
  t ⟦ entries := delete (digest key) (entries t) ⟧.

(** ** Specifications *)

(** The calls the login handlers make, in the order the lock admits them. *)
Inductive event :=
| Failed (at_ : Time) (key : string)
| Succeeded (key : string).

Definition step (t : Throttle) (ev : event) : Throttle :=
  match ev with
  | Failed now key => RecordFailure t now key
  | Succeeded key => RecordSuccess t key
  end.

Definition run (t : Throttle) (evs : list event) : Throttle := foldl step t evs.

(** Failures of [key] since its last success, and the instant of the last. *)
Definition pendingStep (key : string) (acc : option (Z * Time)) (ev : event) : option (Z * Time) :=
  match ev with
  | Failed now k => if decide (k = key) then Some (default 0 (fst <$> acc) + 1, now) else acc
  | Succeeded k => if decide (k = key) then None else acc
  end.

Definition pending (key : string) (evs : list event) : option (Z * Time) :=
  foldl (pendingStep key) None evs.

(** The clock never runs backwards along the log, and ends no later than
    [last]. *)
Fixpoint clocked (from : Time) (evs : list event) (last : Time) : Prop :=
  match evs with
  | [] => from ≤ last
  | Failed now _ :: evs => from ≤ now ∧ clocked now evs last
  | Succeeded _ :: evs => clocked from evs last
  end.
End Throttle.

(** Delays under which the shift cannot wrap into a short lock: [baseDelay] is
    [odd * 2 ^ k] and the odd part times the cap fits an int64. *)
Definition delays_ok (t : Throttle) : Prop :=
  0 < baseDelay t ≤ maxDelay t ∧
  ∃ k odd, 0 ≤ k ∧ 0 < odd ∧ baseDelay t = odd * 2 ^ k ∧ odd * maxDelay t < 2 ^ 63.

(** The delays every production throttle is built with. *)
Definition loginThrottle : Throttle := NewThrottle 5 Second (5 * Minute).

(** What an entry says, exactly: the lock its failure count earned, counted
    from the last failure. *)
Record entry_ok (t : Throttle) (now : Time) (e : throttleEntry) : Prop := {
  entry_failures : 0 < failures e;
  entry_seen : 0 ≤ lastSeen e ≤ now;
  entry_lock : lockedUntil e =
    if failures e <=? maxFailures t then zeroTime else lastSeen e + backoffFor t (failures e)
}.

(** The throttle at some instant: its delays, and every entry well-formed. *)
Record throttle_ok (t : Throttle) (now : Time) : Prop := {
  throttle_delays : delays_ok t;
  throttle_entries k e : entries t !! k = Some e → entry_ok t now e
}.

Definition failedKeys (evs : list event) : list string :=
  omap (fun ev => match ev with Failed _ k => Some k | Succeeded _ => None end) evs.

Definition keyOf (ev : event) : string := match ev with Failed _ k | Succeeded k => k end.

(** The entry a pending streak of failures stands for. *)
Definition pendingEntry (t : Throttle) (p : Z * Time) : throttleEntry :=
  MkEntry p.1 (if p.1 <=? maxFailures t then zeroTime else p.2 + backoffFor t p.1) p.2.

(** The lock specified by the log alone. *)
Definition specAllowed (t : Throttle) (p : option (Z * Time)) (now : Time) : bool * Duration :=
  match p with
  | Some (n, at_) =>
      if now <? at_ + backoffFor t n then (false, at_ + backoffFor t n - now) else (true, 0)
  | None => (true, 0)
  end.

(** ** Lemmas: the lock *)

Lemma shift_lossless base odd k s maxd :
  0 ≤ k → 0 < odd → 0 ≤ s → base = odd * 2 ^ k → odd * maxd < 2 ^ 63 →
  let d := wrap64 (Z.shiftl base s) in
  d = base * 2 ^ s ∧ base * 2 ^ s < 2 ^ 63 ∨ (2 ^ 63 ≤ base * 2 ^ s ∧ (d ≤ 0 ∨ maxd < d)).
Proof.
  intros Hk Ho Hs Hb Hm. rewrite Z.shiftl_mul_pow2 by done.
  pose proof (Z.pow_pos_nonneg 2 s). pose proof (Z.pow_pos_nonneg 2 k).
  destruct (Z.lt_ge_cases (base * 2 ^ s) (2 ^ 63)) as [Hlt|Hge]; cbv zeta.
  { left. split; [|done]. apply wrap64_id. unfold in_int64, int64_min, int64_max. nia. }
  right. split; [done|]. set (d := wrap64 (base * 2 ^ s)).
  destruct (Z.le_gt_cases d 0) as [|Hd]; [by left|right].
  assert (∃ q, d = base * 2 ^ s - q * 2 ^ 64) as [q Hq].
  { exists ((base * 2 ^ s + 2 ^ 63) / 2 ^ 64). unfold d, wrap64. rewrite Z.mod_eq by lia. lia. }
  assert (base * 2 ^ s = odd * 2 ^ (k + s)) as Hbs by (rewrite Hb, Z.pow_add_r by lia; ring).
  destruct (Z.le_gt_cases 64 (k + s)) as [Hbig|Hsmall].
  - exfalso. assert (2 ^ (k + s) = 2 ^ 64 * 2 ^ (k + s - 64)) as Hp by (rewrite <- Z.pow_add_r by lia; f_equal; lia).
    pose proof (wrap64_range (base * 2 ^ s)) as Hr. fold d in Hr. unfold in_int64, int64_max in Hr.
    rewrite Hbs, Hp in Hq. assert (d = (odd * 2 ^ (k + s - 64) - q) * 2 ^ 64) by lia. nia.
  - assert (2 ^ 64 = 2 ^ (k + s) * 2 ^ (64 - (k + s))) as Hp by (rewrite <- Z.pow_add_r by lia; f_equal; lia).
    pose proof (Z.pow_pos_nonneg 2 (k + s)).
    assert (d = (odd - q * 2 ^ (64 - (k + s))) * 2 ^ (k + s)) by (rewrite Hq, Hbs, Hp; ring).
    assert (2 ^ (k + s) ≤ d) by nia. nia.
Qed.

Lemma backoffFor_min t n :
  delays_ok t →
  backoffFor t n =
    if n <=? maxFailures t then 0
    else Z.min (maxDelay t) (baseDelay t * 2 ^ (n - maxFailures t - 1)).
Proof.
  intros ([Hb1 Hb2] & k & odd & Hk & Ho & Hb & Hm). unfold backoffFor. set (s := n - maxFailures t - 1).
  destruct (Z.ltb_spec s 0), (Z.leb_spec n (maxFailures t)); try lia.
  assert (maxDelay t < 2 ^ 63) by nia.
  destruct (Z.leb_spec 63 s).
  { assert (2 ^ 63 ≤ 2 ^ s) by (apply Z.pow_le_mono_r; lia). nia. }
  destruct (shift_lossless (baseDelay t) odd k s (maxDelay t)) as [[Hd Hlt]|[Hge Hd]]; try done; try lia.
  - rewrite Hd. pose proof (Z.pow_pos_nonneg 2 s).
    destruct (Z.leb_spec (baseDelay t * 2 ^ s) 0); [nia|]. simpl.
    destruct (Z.ltb_spec (maxDelay t) (baseDelay t * 2 ^ s)); lia.
  - set (d := wrap64 _) in *. destruct (Z.leb_spec d 0); simpl; [lia|].
    destruct (Z.ltb_spec (maxDelay t) d); lia.
Qed.

Lemma loginThrottle_ok : delays_ok loginThrottle.
Proof. split; [evaluate|]. exists 9, 1953125. repeat split; evaluate. Qed.

(** ** Lemmas: reachable entries *)

Lemma backoffFor_bounds t n :
  delays_ok t → 0 ≤ backoffFor t n ≤ maxDelay t ∧ (maxFailures t < n → 0 < backoffFor t n).
Proof.
  intros Ht. rewrite backoffFor_min by done. destruct Ht as [Hb _].
  destruct (Z.leb_spec n (maxFailures t)); [lia|].
  pose proof (Z.pow_pos_nonneg 2 (n - maxFailures t - 1)). nia.
Qed.

Lemma delays_entries t es : delays_ok (t ⟦ entries := es ⟧) ↔ delays_ok t.
Proof. done. Qed.

Lemma entry_ok_entries t es now e : entry_ok t now e → entry_ok (t ⟦ entries := es ⟧) now e.
Proof. intros []. by split. Qed.

Lemma entry_ok_later t now now' e : now ≤ now' → entry_ok t now e → entry_ok t now' e.
Proof. intros ? []. split; try done. lia. Qed.

Lemma throttle_ok_later t now now' : now ≤ now' → throttle_ok t now → throttle_ok t now'.
Proof. intros ? []. split; eauto using entry_ok_later. Qed.

Lemma sweepLocked_lookup t now k e :
  entries (sweepLocked t now) !! k = Some e ↔
    entries t !! k = Some e ∧ ¬ (lockedUntil e < now ∧ maxDelay t < Sub now (lastSeen e)).
Proof.
  unfold sweepLocked. simpl. rewrite map_lookup_filter_Some. simpl.
  rewrite negb_true_iff, <- not_true_iff_false, andb_true_iff. unfold After.
  by rewrite !Z.ltb_lt.
Qed.

Lemma sweepLocked_ok t now : throttle_ok t now → throttle_ok (sweepLocked t now) now.
Proof. intros [Hd He]. split; [done|]. intros k e [Hk _]%sweepLocked_lookup.
  apply entry_ok_entries. by apply (He k).
Qed.

(** One more failure on an entry that may be new. *)
Lemma next_entry_ok t now e0 :
  delays_ok t → 0 ≤ now →
  (e0 = MkEntry 0 zeroTime zeroTime ∨ entry_ok t now e0) →
  entry_ok t now (MkEntry (failures e0 + 1)
    (if 0 <? backoffFor t (failures e0 + 1) then Add now (backoffFor t (failures e0 + 1)) else lockedUntil e0) now).
Proof.
  intros Hd Hnow He0.
  assert (0 ≤ failures e0 ∧ (failures e0 ≤ maxFailures t → lockedUntil e0 = zeroTime)) as [Hf Hl].
  { destruct He0 as [->|[? _ ->]]; [done|]. split; [lia|]. intros. by rewrite (proj2 (Z.leb_le _ _)). }
  destruct (backoffFor_bounds t (failures e0 + 1) Hd) as [Hb Hpos].
  split; simpl; [lia|lia|]. destruct (Z.leb_spec (failures e0 + 1) (maxFailures t)) as [Hle|Hgt].
  - rewrite backoffFor_min by done. rewrite (proj2 (Z.leb_le _ _) Hle). simpl. apply Hl. lia.
  - rewrite (proj2 (Z.ltb_lt _ _)) by (apply Hpos; lia). done.
Qed.

Section Run.
Context (digest : string → string).

Lemma RecordFailure_ok t now key :
  0 ≤ now → throttle_ok t now → throttle_ok (RecordFailure digest t now key) now.
Proof.
  intros Hnow Ht. unfold RecordFailure. set (t1 := if bool_decide _ then _ else t).
  assert (throttle_ok t1 now) as [Hd He] by (unfold t1; case_bool_decide; auto using sweepLocked_ok).
  split; [done|]. intros k e. simpl.
  destruct (decide (digest key = k)) as [<-|]; [|rewrite lookup_insert_ne by done; intros ?; by eapply entry_ok_entries, He].
  rewrite lookup_insert_eq. intros [= <-]. apply entry_ok_entries, next_entry_ok; [done..|].
  destruct (entries t1 !! digest key) as [e|] eqn:Hk; [right; by apply (He _ _ Hk)|by left].
Qed.

Lemma RecordSuccess_ok t now key : throttle_ok t now → throttle_ok (RecordSuccess digest t key) now.
Proof. intros [Hd He]. split; [done|]. intros k e. simpl. rewrite lookup_delete_Some. intros [_ ?].
  by eapply entry_ok_entries, He.
Qed.

Lemma run_ok t from evs last :
  0 ≤ from → throttle_ok t from → clocked from evs last → throttle_ok (run digest t evs) last ∧ from ≤ last.
Proof.
  revert t from. induction evs as [|[now key|key] evs IH]; intros t from Hfrom Ht Hc; simpl in *.
  - split; [by eapply throttle_ok_later|done].
  - destruct Hc as [Hle Hc]. destruct (IH (RecordFailure digest t now key) now) as [? ?]; [lia| |done|].
    + apply RecordFailure_ok; [lia|]. by eapply throttle_ok_later.
    + split; [done|lia].
  - apply (IH _ from); [done|by apply RecordSuccess_ok|done].
Qed.

Lemma fresh_ok m b d from : delays_ok (NewThrottle m b d) → throttle_ok (NewThrottle m b d) from.
Proof. intros. split; [done|]. intros k e. simpl. by rewrite lookup_empty. Qed.

(** A refusal on a well-formed throttle, and when it ends. *)
Lemma Allowed_refused t now key d :
  throttle_ok t now → 0 ≤ now → maxDelay t ≤ int64_max → Allowed digest t now key = (false, d) →
  0 < d ≤ maxDelay t ∧ (∀ now', 0 ≤ now' → (Allowed digest t now' key).1 = true ↔ now + d ≤ now').
Proof.
  intros [Hdel He] Hnow Hmax. unfold LoginThrottle.Allowed.
  destruct (entries t !! digest key) as [e|] eqn:Hk; [|done]. destruct (He _ _ Hk) as [Hf Hs Hl].
  unfold Before, Sub. destruct (Z.ltb_spec now (lockedUntil e)) as [Hlt|]; [|done].
  destruct (backoffFor_bounds t (failures e) Hdel) as [Hb _].
  destruct (Z.leb_spec (failures e) (maxFailures t)); [unfold zeroTime in *; lia|].
  rewrite sat64_id by (unfold in_int64, int64_min; lia). intros [= <-]. split; [lia|].
  intros now' Hnow'. destruct (Z.ltb_spec now' (lockedUntil e)); simpl; split; (done || lia).
Qed.
End Run.

(** ** Properties *)

(** A failure count earns no lock up to [maxFailures], then [baseDelay]
    doubled once per further failure and capped at [maxDelay]: the closed form
    holds for every count, however far the shift would overflow. *)
Lemma backoffFor_closed_form t n :
  delays_ok t →
  backoffFor t n =
    (if n <=? maxFailures t then 0
     else Z.min (maxDelay t) (baseDelay t * 2 ^ (n - maxFailures t - 1))) ∧
  0 ≤ backoffFor t n ≤ backoffFor t (n + 1) ∧ backoffFor t (n + 1) ≤ maxDelay t.
Proof.
  intros Ht. split; [by apply backoffFor_min|]. split; [|by apply backoffFor_bounds].
  split; [by apply backoffFor_bounds|]. rewrite !backoffFor_min by done. destruct Ht as [Hb _].
  destruct (Z.leb_spec n (maxFailures t)), (Z.leb_spec (n + 1) (maxFailures t)); try lia.
  replace (n + 1 - maxFailures t - 1) with (Z.succ (n - maxFailures t - 1)) by lia.
  rewrite Z.pow_succ_r by lia. pose proof (Z.pow_pos_nonneg 2 (n - maxFailures t - 1)).
  assert (0 ≤ baseDelay t * 2 ^ (n - maxFailures t - 1)) by (apply Z.mul_nonneg_nonneg; lia). lia.
Qed.

Lemma backoffFor_closed_form_witness :
  backoffFor loginThrottle 5 = 0 ∧ backoffFor loginThrottle 8 = 4 * Second ∧
  backoffFor loginThrottle 60 = 5 * Minute.
Proof.
  destruct (backoffFor_closed_form loginThrottle 60 loginThrottle_ok) as [H _].
  split; [reflexivity|]. split; [reflexivity|]. exact H.
Defined.

(** The throttle slows a key down and never shuts it out: after any log of
    failures and successes, a refusal quotes a wait of at most [maxDelay], the
    key is admitted again exactly when that wait is over, every key is admitted
    once [maxDelay] has passed since the log's end, and a success admits its key
    at once. *)
Lemma throttle_self_clears digest m b d evs last now key :
  let t0 := NewThrottle m b d in
  delays_ok t0 → d ≤ int64_max → clocked 0 evs last → last ≤ now →
  let t := run digest t0 evs in
  (∀ wait, Allowed digest t now key = (false, wait) →
     0 < wait ≤ d ∧ ∀ now', 0 ≤ now' → (Allowed digest t now' key).1 = true ↔ now + wait ≤ now') ∧
  (last + d ≤ now → Allowed digest t now key = (true, 0)) ∧
  Allowed digest (RecordSuccess digest t key) now key = (true, 0).
Proof.
  intros t0 Hd Hmax Hc Hnow t.
  destruct (run_ok digest t0 0 evs last) as [Hok Hlast]; [done|by apply fresh_ok|done|]. fold t in Hok.
  assert (∀ es t, maxDelay (run digest t es) = maxDelay t) as Hmd.
  { intros es. induction es as [|[] es IH]; intros t'; simpl; [done|rewrite IH..]; [|done].
    unfold RecordFailure. by case_bool_decide. }
  specialize (Hmd evs t0). fold t in Hmd. simpl in Hmd. split_and!.
  - intros wait Hw. rewrite <- Hmd. apply Allowed_refused; [by eapply throttle_ok_later|lia|lia|done].
  - intros Hlate. unfold Allowed. destruct (entries t !! digest key) as [e|] eqn:Hk; [|done].
    destruct (throttle_entries _ _ Hok _ _ Hk) as [Hf Hs Hl].
    destruct (backoffFor_bounds t (failures e) (throttle_delays _ _ Hok)) as [Hb _].
    unfold Before. destruct (Z.ltb_spec now (lockedUntil e)) as [Hlt|]; [|done].
    destruct (Z.leb_spec (failures e) (maxFailures t)); unfold zeroTime in *; lia.
  - unfold Allowed, RecordSuccess. simpl. by rewrite lookup_delete_eq.
Qed.

Lemma throttle_self_clears_witness :
  let evs := (fun i => Failed (Hour + Z.of_nat i * Second) "admin") <$> seq 0 10 in
  let t := run id loginThrottle evs in
  (Allowed id t (Hour + 10 * Second) "admin").1 = false ∧
  Allowed id t (Hour + 9 * Second + 5 * Minute) "admin" = (true, 0).
Proof.
  intros evs t. split; [vm_compute; reflexivity|].
  destruct (throttle_self_clears id 5 Second (5 * Minute) evs (Hour + 9 * Second)
    (Hour + 9 * Second + 5 * Minute) "admin") as (_ & H & _);
    [apply loginThrottle_ok|evaluate|simpl; repeat split; evaluate|evaluate|].
  apply H. evaluate.
Defined.

(** The sweep that bounds the map is invisible to admission: no answer
    changes for any key at the instant it runs, and an entry is dropped only
    when its lock is over and it has been idle for more than [maxDelay]. *)
Lemma sweepLocked_invisible digest t now :
  (∀ key, Allowed digest (sweepLocked t now) now key = Allowed digest t now key) ∧
  (∀ k e, entries t !! k = Some e →
     entries (sweepLocked t now) !! k = None ↔
       lockedUntil e < now ∧ maxDelay t < Sub now (lastSeen e)) ∧
  (∀ k e, entries (sweepLocked t now) !! k = Some e → entries t !! k = Some e).
Proof.
  split_and!.
  - intros key. unfold Allowed. destruct (entries (sweepLocked t now) !! digest key) as [e|] eqn:Hs.
    + apply sweepLocked_lookup in Hs as [-> _]. done.
    + destruct (entries t !! digest key) as [e|] eqn:Hk; [|done]. unfold Before.
      destruct (Z.ltb_spec now (lockedUntil e)); [|done].
      assert (entries (sweepLocked t now) !! digest key = Some e) as Hs'; [|congruence].
      apply sweepLocked_lookup. split; [done|lia].
  - intros k e Hk. split.
    + intros Hs. destruct (Z.lt_ge_cases (lockedUntil e) now), (Z.lt_ge_cases (maxDelay t) (Sub now (lastSeen e)));
        try done; (assert (entries (sweepLocked t now) !! k = Some e) as Hs'; [|congruence]);
        apply sweepLocked_lookup; (split; [done|lia]).
    + intros Hx. apply eq_None_not_Some. intros [e' [Hk' Hn]%sweepLocked_lookup]. by simplify_eq.
  - intros k e [Hk _]%sweepLocked_lookup. done.
Qed.

(** ** Lemmas: the map against the log *)

Lemma pendingEntry_entries t es : pendingEntry (t ⟦ entries := es ⟧) = pendingEntry t.
Proof. done. Qed.

(** One more failure, seen through [pendingEntry]. *)
Lemma next_pending t0 p now :
  delays_ok t0 →
  let e := default (MkEntry 0 zeroTime zeroTime) (pendingEntry t0 <$> p) in
  MkEntry (failures e + 1)
    (if 0 <? backoffFor t0 (failures e + 1) then Add now (backoffFor t0 (failures e + 1)) else lockedUntil e) now =
  pendingEntry t0 (default 0 (fst <$> p) + 1, now).
Proof.
  intros Hd e. set (n := default 0 (fst <$> p)).
  assert (failures e = n ∧ (n ≤ maxFailures t0 → lockedUntil e = zeroTime)) as [-> Hl].
  { unfold e, n. destruct p as [[n0 at_]|]; simpl; [|done]. split; [done|].
    intros Hle. by rewrite (proj2 (Z.leb_le _ _)). }
  destruct (backoffFor_bounds t0 (n + 1) Hd) as [Hb Hpos]. unfold pendingEntry. simpl. f_equal.
  destruct (Z.leb_spec (n + 1) (maxFailures t0)) as [Hle|Hgt].
  - rewrite (backoffFor_min t0 (n + 1) Hd), (proj2 (Z.leb_le _ _) Hle). simpl. apply Hl. lia.
  - rewrite (proj2 (Z.ltb_lt _ _)) by (apply Hpos; lia). done.
Qed.

Section Refines.
Context (digest : string → string) (key : string) (S : gset string)
        (Hsize : (size S ≤ maxThrottleEntries)%nat).

(** The throttle agrees with the log about [key], and holds no digest outside
    [S], so that no sweep is due. *)
Record tracks (t0 t : Throttle) (p : option (Z * Time)) : Prop := {
  track_config : t = t0 ⟦ entries := entries t ⟧;
  track_dom : dom (entries t) ⊆ S;
  track_key : entries t !! digest key = pendingEntry t0 <$> p;
  track_pos n at_ : p = Some (n, at_) → 0 < n
}.

Lemma RecordFailure_no_sweep t now k :
  dom (entries t) ⊆ S →
  RecordFailure digest t now k =
    let e := default (MkEntry 0 zeroTime zeroTime) (entries t !! digest k) in
    let n := failures e + 1 in
    let d := backoffFor t n in
    t ⟦ entries := <[digest k := MkEntry n (if 0 <? d then Add now d else lockedUntil e) now]> (entries t) ⟧.
Proof.
  intros Hdom. unfold RecordFailure. rewrite bool_decide_false; [done|].
  pose proof (subseteq_size _ _ Hdom) as Hs. rewrite size_dom in Hs. lia.
Qed.

Lemma step_tracks t0 t p ev :
  delays_ok t0 → tracks t0 t p →
  (digest (keyOf ev) = digest key → keyOf ev = key) →
  (∀ now k, ev = Failed now k → digest k ∈ S) →
  tracks t0 (step digest t ev) (pendingStep key p ev).
Proof.
  intros Hd [Hcfg Hdom Hkey Hpos] Hinj Hin. destruct ev as [now k|k]; simpl in *.
  - rewrite RecordFailure_no_sweep by done. cbv zeta. set (e := default _ _).
    assert (∀ n, backoffFor t n = backoffFor t0 n) as Hb by (intros n; by rewrite Hcfg).
    split.
    + by rewrite Hcfg.
    + simpl. rewrite dom_insert. apply union_subseteq. split; [|done].
      apply singleton_subseteq_l. by eapply Hin.
    + simpl. destruct (decide (k = key)) as [->|Hne].
      * rewrite lookup_insert_eq. unfold e. rewrite Hkey, Hb. simpl. f_equal. by apply next_pending.
      * rewrite lookup_insert_ne by naive_solver. done.
    + intros n at_. destruct (decide (k = key)); [|by apply Hpos]. intros [= <- _].
      destruct p as [[n' ?]|]; simpl; [|lia]. specialize (Hpos _ _ eq_refl). lia.
  - split.
    + by rewrite Hcfg.
    + simpl. rewrite dom_delete. set_solver.
    + simpl. destruct (decide (k = key)) as [->|Hne]; [by rewrite lookup_delete_eq|].
      rewrite lookup_delete_ne by naive_solver. done.
    + intros n at_. destruct (decide (k = key)); [done|by apply Hpos].
Qed.

Lemma run_tracks t0 evs t p :
  delays_ok t0 → tracks t0 t p →
  (∀ ev, ev ∈ evs → digest (keyOf ev) = digest key → keyOf ev = key) →
  (∀ k, k ∈ failedKeys evs → digest k ∈ S) →
  tracks t0 (run digest t evs) (foldl (pendingStep key) p evs).
Proof.
  intros Hd. revert t p. induction evs as [|ev evs IH]; intros t p Ht Hinj Hin; [done|].
  simpl. apply IH.
  - apply step_tracks; [done|done|apply Hinj, list_elem_of_here|].
    intros now k ->. apply Hin. simpl. apply list_elem_of_here.
  - intros ev' ?. apply Hinj. by apply list_elem_of_further.
  - intros k Hk. apply Hin. destruct ev; simpl; [by apply list_elem_of_further|done].
Qed.
End Refines.

(** The streak's last failure is no later than the log's end. *)
Lemma pending_time key evs from last p n at_ :
  clocked from evs last → (∀ n at_, p = Some (n, at_) → at_ ≤ from) →
  foldl (pendingStep key) p evs = Some (n, at_) → at_ ≤ last.
Proof.
  revert from p. induction evs as [|[now k|k] evs IH]; intros from p Hc Hp; simpl in *.
  - intros Heq. specialize (Hp _ _ Heq). lia.
  - destruct Hc as [Hle Hc]. apply (IH now); [done|]. intros n' at' Heq.
    case_decide; [by injection Heq as _ <-|]. specialize (Hp _ _ Heq). lia.
  - apply (IH from); [done|]. intros n' at' Heq. case_decide; [done|]. by eapply Hp.
Qed.

(** The throttle implements its specification: while at most
    [maxThrottleEntries] distinct keys have failed and no two keys of the log
    share a digest, the admission answer for a key is decided by the log alone:
    the number of that key's failures since its last success, and the instant
    of the latest. Other keys' traffic does not enter. *)
Lemma throttle_refines_log digest m b d evs last now key :
  let t0 := NewThrottle m b d in
  delays_ok t0 → d ≤ int64_max → clocked 0 evs last → last ≤ now →
  (∀ ev, ev ∈ evs → digest (keyOf ev) = digest key → keyOf ev = key) →
  (size (list_to_set (digest <$> failedKeys evs) : gset string) ≤ maxThrottleEntries)%nat →
  Allowed digest (run digest t0 evs) now key = specAllowed t0 (pending key evs) now.
Proof.
  intros t0 Hd Hmax Hc Hnow Hinj Hsize.
  destruct (run_tracks digest key (list_to_set (digest <$> failedKeys evs)) Hsize t0 evs t0 None) as [_ _ Hk Hp].
  - done.
  - split; try done.
  - done.
  - intros k Hk. apply elem_of_list_to_set, list_elem_of_fmap. eauto.
  - unfold Allowed. rewrite Hk. unfold pending, specAllowed.
    destruct (run_ok digest t0 0 evs last) as [_ Hlast]; [done|by apply fresh_ok|done|].
    destruct (foldl (pendingStep key) None evs) as [[n at_]|] eqn:Hf; simpl; [|done].
    pose proof (pending_time key evs 0 last None n at_ Hc ltac:(done) Hf) as Hat.
    destruct (backoffFor_bounds t0 n Hd) as [Hb _]. unfold Before, Sub. simpl in Hb.
    destruct (Z.leb_spec n m) as [Hle|Hgt].
    + rewrite (backoffFor_min t0 n Hd). simpl. rewrite (proj2 (Z.leb_le _ _) Hle).
      rewrite (proj2 (Z.ltb_ge _ _)) by (unfold zeroTime; lia). by rewrite (proj2 (Z.ltb_ge _ _)) by lia.
    + destruct (Z.ltb_spec now (at_ + backoffFor t0 n)); [|done].
      rewrite sat64_id by (unfold in_int64, int64_min; lia). done.
Qed.

Lemma throttle_refines_log_witness :
  let evs := [Failed Hour "eve"; Failed Hour "admin"; Succeeded "admin"; Failed (Hour + Second) "admin"] ++
             ((fun i => Failed (Hour + Second + Z.of_nat i * Second) "eve") <$> seq 1 6) in
  Allowed id (run id loginThrottle evs) (Hour + 7 * Second) "eve" = (false, 2 * Second) ∧
  Allowed id (run id loginThrottle evs) (Hour + 7 * Second) "admin" = (true, 0).
Proof.
  intros evs. split; [vm_compute; reflexivity|].
  transitivity (specAllowed loginThrottle (pending "admin" evs) (Hour + 7 * Second)); [|reflexivity].
  apply (throttle_refines_log id 5 Second (5 * Minute) evs (Hour + 7 * Second));
    [apply loginThrottle_ok|evaluate|simpl; repeat split; evaluate|evaluate|done|apply (bool_decide_unpack _); vm_compute; exact I].
Defined.
