(* ===== verification/AuthWorld.v ===== *)
(** * What the authentication code shares

    The tables of internal/db/migrations 039-052 that the second factor and the
    sessions live in, the statements and transactions that read and change them,
    and the in-process state of internal/adminauth: the cached gate, its lock and
    the throttle. The gateway keeps these tables in PostgreSQL, the front desk in
    SQLite. *)

From S2P Require Import Prelude Crypto Encryption Threads LoginThrottle.

(** ** Tables *)

(** A row of admin_totp or user_totp. *)
Record totpRow := MkTotp {
  secret_cipher : bytes;
  secret_nonce : bytes;
  secret_salt : bytes;
  enabled : bool;
  created_at : Time;
  confirmed_at : option Time;
  last_used_step : option Z
}.

Definition totpRow_eta (r : totpRow) : totpRow :=
  MkTotp (secret_cipher r) (secret_nonce r) (secret_salt r) (enabled r) (created_at r) (confirmed_at r) (last_used_step r).
#[export] Instance upd_enabled : Updater enabled := ltac:(derive_updater totpRow_eta).
#[export] Instance upd_confirmed_at : Updater confirmed_at := ltac:(derive_updater totpRow_eta).
#[export] Instance upd_last_used_step : Updater last_used_step := ltac:(derive_updater totpRow_eta).

(** The recovery codes of one account: [used_at] by [code_hash]. *)
Abbreviation recoveryCodes := (gmap string (option Time)) (only parsing).

(** A row of webauthn_sessions. *)
Record SessionRecord := MkSession {
  Challenge : string;
  SessionData : bytes;
  Type_ : string;
  UserID : string;
  TokenHash : option string;
  CredentialID : option bytes;
  ExpiresAt : Time;
  CreatedAt : Time;
  UserAgent : string;
  IP : string;
  LastSeenAt : option Time
}.

Definition session_eta (s : SessionRecord) : SessionRecord :=
  MkSession (Challenge s) (SessionData s) (Type_ s) (UserID s) (TokenHash s) (CredentialID s)
    (ExpiresAt s) (CreatedAt s) (UserAgent s) (IP s) (LastSeenAt s).
#[export] Instance upd_ExpiresAt : Updater ExpiresAt := ltac:(derive_updater session_eta).
#[export] Instance upd_CreatedAt : Updater CreatedAt := ltac:(derive_updater session_eta).
#[export] Instance upd_LastSeenAt : Updater LastSeenAt := ltac:(derive_updater session_eta).

(** admin_totp holds at most the row [id = 1]; user_totp is keyed by user, and
    its rows reference the users table. *)
Record DB := MkDB {
  admin_totp : option totpRow;
  admin_totp_recovery : recoveryCodes;
  users : gset string;
  user_totp : gmap string totpRow;
  user_totp_recovery : gmap string recoveryCodes;
  webauthn_sessions : gmap string SessionRecord
}.

Definition db_eta (d : DB) : DB :=
  MkDB (admin_totp d) (admin_totp_recovery d) (users d) (user_totp d) (user_totp_recovery d) (webauthn_sessions d).
#[export] Instance upd_admin_totp : Updater admin_totp := ltac:(derive_updater db_eta).
#[export] Instance upd_admin_totp_recovery : Updater admin_totp_recovery := ltac:(derive_updater db_eta).
#[export] Instance upd_users : Updater users := ltac:(derive_updater db_eta).
#[export] Instance upd_user_totp : Updater user_totp := ltac:(derive_updater db_eta).
#[export] Instance upd_user_totp_recovery : Updater user_totp_recovery := ltac:(derive_updater db_eta).
#[export] Instance upd_webauthn_sessions : Updater webauthn_sessions := ltac:(derive_updater db_eta).

Definition emptyDB : DB := MkDB None ∅ ∅ ∅ ∅ ∅.

(** ** The process *)

Record World := MkWorld {
  db : DB;
  totpEnabled : bool;                  (* Handler.totpEnabled, the cached gate *)
  totpMu : gmap (option string) nat;   (* who holds TotpHandler.enrollMu ([None]) or a user's Handler.userTotpMu *)
  loginThrottle : LoginThrottle.Throttle;
  pwThrottle : LoginThrottle.Throttle;
  ipThrottle : LoginThrottle.Throttle;
  userThrottle : LoginThrottle.Throttle;
  enabledAtCache : option Time;
  enabledAtGen : Z;
  drawn : gmap string nat              (* the uuids drawn so far and the goroutine that drew each *)
}.

Definition world_eta (w : World) : World :=
  MkWorld (db w) (totpEnabled w) (totpMu w) (loginThrottle w) (pwThrottle w) (ipThrottle w) (userThrottle w)
    (enabledAtCache w) (enabledAtGen w) (drawn w).
#[export] Instance upd_db : Updater db := ltac:(derive_updater world_eta).
#[export] Instance upd_totpEnabled : Updater totpEnabled := ltac:(derive_updater world_eta).
#[export] Instance upd_totpMu : Updater totpMu := ltac:(derive_updater world_eta).
#[export] Instance upd_loginThrottle : Updater loginThrottle := ltac:(derive_updater world_eta).
#[export] Instance upd_pwThrottle : Updater pwThrottle := ltac:(derive_updater world_eta).
#[export] Instance upd_ipThrottle : Updater ipThrottle := ltac:(derive_updater world_eta).
#[export] Instance upd_userThrottle : Updater userThrottle := ltac:(derive_updater world_eta).
#[export] Instance upd_enabledAtCache : Updater enabledAtCache := ltac:(derive_updater world_eta).
#[export] Instance upd_enabledAtGen : Updater enabledAtGen := ltac:(derive_updater world_eta).
#[export] Instance upd_drawn : Updater drawn := ltac:(derive_updater world_eta).

(** What becomes of a statement sent to the database: done and confirmed, not
    done, or done although the reply was lost and the caller sees an error. *)
Inductive Fate := Works | Fails | Unheard.

Record Env := MkEnv {
  env_now : Time;
  env_fate : Fate;
  env_entropy : Entropy;
  env_uuid : option string
}.

(** What happened and who did it, for the theorems. An account is the admin
    ([None]) or a user; [GateMoved] is a store to the cached gate, [SignedOut] a
    sweep of an identity's sessions but one, [Handed] a session that a single
    factor bought given to its client. *)
Inductive Event :=
| Enrolled (who : option string)
| StepRecorded (by_ : nat) (who : option string) (step : Z)
| CodesReplaced (who : option string)
| CodeConsumed (by_ : nat) (who : option string) (hash : string)
| Wiped (who : option string)
| GateMoved (by_ : nat) (closed : bool)
| SignedOut (by_ : nat) (identity keep : string)
| Dropped (by_ : nat) (id : string)
| Handed (by_ : nat) (id : string).

Abbreviation program := (@prog Env World Event) (only parsing).

(** Reading the clock and the entropy source. *)
Definition Now : program Time := act (λ _ e w, Some (env_now e, w, [])).
Definition Rand : program bytes := act (λ _ e w, Some (env_entropy e, w, [])).

(** [uuid.NewRandom], which never repeats a value. *)
Definition NewRandom : program (string + string)%type :=
  act (λ tid e w,
    match env_uuid e with
    | None => Some (inl "uuid: entropy", w, [])
    | Some id =>
        match drawn w !! id with
        | None => Some (inr id, w ⟦ drawn := <[id := tid]> (drawn w) ⟧, [])
        | Some _ => None
        end
    end).

(** ** Statements *)

(** What a statement leaves: its reply, the tables, and what it did to them;
    [None] is a constraint violation. *)
Abbreviation SQL B := (nat → Env → DB → option (B * DB * list Event)) (only parsing).

(** One autocommit statement; [failed] is the error its caller wraps. *)
Definition statement {B : Set} (failed : string) (sql : SQL B) : program (string + B)%type :=
  act (λ tid e w, Some
    match env_fate e, sql tid e (db w) with
    | Works, Some (b, d, said) => (inr b, w ⟦ db := d ⟧, said)
    | Unheard, Some (_, d, said) => (inl failed, w ⟦ db := d ⟧, said)
    | _, _ => (inl failed, w, [])
    end).

(** A statement that only reads. *)
Definition query {B : Set} (failed : string) (read : Env → DB → B) : program (string + B)%type :=
  statement failed (λ _ e d, Some (read e d, d, [])).

(** An open transaction: its writes so far, in order. They are invisible to
    others, and evaluated when it commits. *)
Abbreviation Tx := (list (DB → option (DB * list Event))) (only parsing).

Fixpoint applyTx (tx : Tx) (d : DB) : option (DB * list Event) :=
  match tx with
  | [] => Some (d, [])
  | wr :: tx =>
      match wr d with
      | None => None
      | Some (d, said) =>
          match applyTx tx d with
          | None => None
          | Some (d, said') => Some (d, said ++ said')
          end
      end
  end.

Definition Begin (failed : string) : program (string + unit)%type := query failed (λ _ _, tt).

(** Reads inside a transaction; every transaction here reads before it writes. *)
Definition txQuery {B : Set} (failed : string) (read : Env → DB → B) : program (string + B)%type :=
  query failed read.

(** A write inside a transaction: it may fail, and does when it violates a
    constraint. *)
Definition txExec (failed : string) (tx : Tx) (wr : DB → option (DB * list Event)) : program (string + unit)%type :=
  act (λ _ e w, Some
    match env_fate e, applyTx (tx ++ [wr]) (db w) with
    | Works, Some _ => (inr tt, w, [])
    | _, _ => (inl failed, w, [])
    end).

Definition Commit (failed : string) (tx : Tx) : program (string + unit)%type :=
  statement failed (λ _ _ d, match applyTx tx d with Some (d, said) => Some (tt, d, said) | None => None end).

(** [if err != nil { return ... err }]. *)
Definition try {A B : Set} (k : A → program (string + B)%type) (r : string + A) : program (string + B)%type :=
  match r with inl err => Ret (inl err) | inr a => k a end.

Notation "'let?' x ':=' p 'in' q" := (p ≫= try (λ x, q))
  (at level 200, x pattern, p at level 200, q at level 200,
   format "'let?'  x  ':='  p  'in' '/' q") : go_scope.

(** ** What an operation promises *)

(** One account's rows: its enrolment and its recovery codes. *)
Abbreviation view := (option totpRow * recoveryCodes)%type (only parsing).

Definition view_of (who : option string) (d : DB) : view :=
  match who with
  | None => (admin_totp d, admin_totp_recovery d)
  | Some uid => (user_totp d !! uid, default ∅ (user_totp_recovery d !! uid))
  end.

(** Only this account's rows changed. *)
Definition only (who : option string) (w w' : World) : Prop :=
  w' = w ⟦ db := db w' ⟧ ∧ (∀ other, other ≠ who → view_of other (db w') = view_of other (db w)) ∧
  users (db w') = users (db w) ∧ webauthn_sessions (db w') = webauthn_sessions (db w).

(** What an operation of a store does to its account's rows, by whom and with
    which reply. *)
Abbreviation contract A := (nat → DB → A → DB → list Event → Prop) (only parsing).

(** An operation is atomic: whatever fails and whatever the others do in between,
    it waits for nobody, changes nothing before its last action, and that one
    keeps the contract. It reports an error only when a statement fails or a
    constraint refuses it ([refuses]), and reports its success unless the reply
    is lost. *)
Fixpoint atomically (who : option string) (refuses : DB → Prop) {A : Set} (eff : contract A)
    (p : program (string + A)%type) : Prop :=
  match p with
  | Ret r => False
  | Atom f k =>
      ∀ tid e w, ∃ b w' said, f tid e w = Some (b, w', said) ∧
        ((w' = w ∧ said = [] ∧ atomically who refuses eff (k b)) ∨
         (w' = w ∧ said = [] ∧ (env_fate e ≠ Works ∨ refuses (db w)) ∧ ∃ err, k b = Ret (inl err)) ∨
         (∃ a, eff tid (db w) a (db w') said ∧ only who w w' ∧
           (k b = Ret (inr a) ∨ env_fate e ≠ Works ∧ ∃ err, k b = Ret (inl err))))
  end.

Definition never : DB → Prop := λ _, False.

Definition reads (who : option string) {A} (g : view → A) : contract A := λ _ d a d' said,
  a = g (view_of who d) ∧ d' = d ∧ said = [].

(** A stretch of a transaction before its commit: nothing changes, and what it
    returns satisfies [P]. *)
Fixpoint silently (refuses : DB → Prop) {A : Set} (P : A → Prop) (p : program (string + A)%type) : Prop :=
  match p with
  | Ret r => match r with inl _ => False | inr a => P a end
  | Atom f k =>
      ∀ tid e w, ∃ b, f tid e w = Some (b, w, []) ∧
        (silently refuses P (k b) ∨ ((env_fate e ≠ Works ∨ refuses (db w)) ∧ ∃ err, k b = Ret (inl err)))
  end.

Lemma only_refl who w : only who w w.
Proof. by destruct w. Qed.

Lemma set_db_id w : w ⟦ db := db w ⟧ = w.
Proof. by destruct w. Qed.

(** A statement that changes an account's rows and no others. *)
Definition keeps (who : option string) (d d' : DB) : Prop :=
  (∀ other, other ≠ who → view_of other d' = view_of other d) ∧ users d' = users d ∧
  webauthn_sessions d' = webauthn_sessions d.

Lemma keeps_refl who d : keeps who d d.
Proof. done. Qed.

Lemma atomically_statement who (refuses : DB → Prop) {A B : Set} failed (sql : nat → Env → DB → option (B * DB * list Event))
    (k : B → program (string + A)%type) (post : B → A) (eff : contract A) :
  (∀ b, k b = Ret (inr (post b))) →
  (∀ tid e d, match sql tid e d with
   | Some (b, d', said) => eff tid d (post b) d' said ∧ keeps who d d'
   | None => refuses d
   end) →
  atomically who refuses eff (let? b := statement failed sql in k b).
Proof.
  intros Hk He tid e w. cbn. specialize (He tid e (db w)).
  destruct (sql tid e (db w)) as [[[b d'] said]|], (env_fate e) eqn:Hfate; eexists _, _, _; (split; [reflexivity|]).
  2, 4-6: right; left; do 2 (split; [done|]); (split; [first [by left|by right]|]); by eexists.
  all: destruct He as [Heff Hrest]; right; right; exists (post b); (split; [exact Heff|]);
    (split; [by destruct w|]); first [left; apply Hk|right; split; [done|by eexists]].
Qed.

Lemma atomically_bare who (refuses : DB → Prop) {A : Set} failed (sql : nat → Env → DB → option (A * DB * list Event)) (eff : contract A) :
  (∀ tid e d, match sql tid e d with
   | Some (b, d', said) => eff tid d b d' said ∧ keeps who d d'
   | None => refuses d
   end) →
  atomically who refuses eff (statement failed sql).
Proof.
  intros He. pose proof (atomically_statement who refuses failed sql (λ b, Ret (inr b)) id eff (λ _, eq_refl) He) as H.
  intros tid e w. destruct (H tid e w) as (r & w' & said & Hf & Hc). exists r, w', said. split; [exact Hf|].
  destruct r; exact Hc.
Qed.

Lemma atomically_query who {A B : Set} failed (read : Env → DB → B) (k : B → program (string + A)%type)
    (post : B → A) (g : view → A) :
  (∀ b, k b = Ret (inr (post b))) → (∀ e d, post (read e d) = g (view_of who d)) →
  atomically who never (reads who g) (let? b := query failed read in k b).
Proof. intros Hk Hg. apply atomically_statement with post; [done|]. intros tid e d. by repeat split. Qed.

Lemma atomically_query_bare who {A : Set} failed (read : Env → DB → A) (g : view → A) :
  (∀ e d, read e d = g (view_of who d)) → atomically who never (reads who g) (query failed read).
Proof. intros Hg. apply atomically_bare. intros tid e d. by repeat split. Qed.

Lemma silently_query refuses {A : Set} failed (read : Env → DB → A) (P : A → Prop) :
  (∀ e d, P (read e d)) → silently refuses P (query failed read).
Proof.
  intros HP tid e w. cbn. destruct (env_fate e); eexists; (split; [by rewrite ?set_db_id|]); cbn;
    first [by left|right; split; [by left|by eexists]].
Qed.

Lemma silently_txExec (refuses : DB → Prop) failed tx wr :
  (∀ d, applyTx (tx ++ [wr]) d = None → refuses d) → silently refuses (λ _, True) (txExec failed tx wr).
Proof.
  intros Hn tid e w. cbn. destruct (applyTx (tx ++ [wr]) (db w)) eqn:Ha, (env_fate e);
    (eexists; split; [reflexivity|]; cbn); first [by left|right; split; [by auto|by eexists]].
Qed.

Lemma silently_Commit_empty refuses failed : silently refuses (λ _, True) (Commit failed []).
Proof.
  intros tid e w. cbn. destruct (env_fate e); eexists; (split; [by rewrite ?set_db_id|]); cbn;
    first [by left|right; split; [by left|by eexists]].
Qed.

Lemma silently_try refuses {A B : Set} (P : A → Prop) (Q : B → Prop) p (k : A → program (string + B)%type) :
  silently refuses P p → (∀ a, P a → silently refuses Q (k a)) → silently refuses Q (let? a := p in k a).
Proof.
  unfold mbind, prog_mbind. intros Hp Hk. induction p as [[err|a]|C f k' IH]; cbn in *; [done|by apply Hk|].
  intros tid e w. destruct (Hp tid e w) as (b & Hf & [H|(Hc & err & H)]); exists b; (split; [done|]); [by left; apply IH|].
  right. split; [done|]. rewrite H. by eexists.
Qed.

Lemma atomically_try who refuses {A B : Set} (P : A → Prop) (eff : contract B) p (k : A → program (string + B)%type) :
  silently refuses P p → (∀ a, P a → atomically who refuses eff (k a)) → atomically who refuses eff (let? a := p in k a).
Proof.
  unfold mbind, prog_mbind. intros Hp Hk. induction p as [[err|a]|C f k' IH]; cbn in *; [done|by apply Hk|].
  intros tid e w. destruct (Hp tid e w) as (b & Hf & [H|(Hc & err & H)]); exists b, w, []; (split; [done|]).
  - left. auto.
  - right; left. repeat split; [done|]. rewrite H. by eexists.
Qed.

Lemma flows_atomically who refuses {A : Set} (eff : contract A) tid p : atomically who refuses eff p → flows tid p.
Proof.
  induction p as [r|B f k IH]; cbn; [done|]. intros Hp e w.
  destruct (Hp tid e w) as (b & w' & said & Hf & Hc). exists b, w', said. split; [done|].
  destruct Hc as [(_ & _ & H)|[(_ & _ & _ & err & ->)|(a & _ & _ & [->|(_ & err & ->)])]]; [by apply IH|done..].
Qed.

Lemma flows_silently refuses {A : Set} (P : A → Prop) tid p : silently refuses P p → flows tid p.
Proof.
  induction p as [r|B f k IH]; cbn; [done|]. intros Hp e w.
  destruct (Hp tid e w) as (b & Hf & Hc). exists b, w, []. split; [done|].
  destruct Hc as [H|(_ & err & ->)]; [by apply IH|done].
Qed.

(** ** The rules for handlers *)

(** Statements may fail, as far as [ok] says. *)
Definition faulty (ok : Env → Prop) : Prop := ∃ e, ok e ∧ env_fate e ≠ Works.

Section Rules.
Context (ok : Env → Prop) (inv : @St World Event → Prop) (guar : nat → @St World Event → @St World Event → Prop) (tid : nat).
Context (Hrefl : ∀ s1, inv s1 → guar tid s1 s1).

(** An atomic operation among others. *)
Lemma wp_atomically who refuses {A : Set} (eff : contract A) p Q s :
  atomically who refuses eff p →
  (∀ s1, inv s1 → rely inv guar tid s s1 →
    (∀ err, faulty ok ∨ refuses (db s1.1) → ∀ s2, inv s2 → rely inv guar tid s1 s2 → Q (inl err) s2) ∧
    (∀ a w' said, eff tid (db s1.1) a (db w') said → only who s1.1 w' →
      inv (w', s1.2 ++ said) ∧ guar tid s1 (w', s1.2 ++ said) ∧
      ∀ s3, inv s3 → rely inv guar tid (w', s1.2 ++ said) s3 → Q (inr a) s3 ∧ ∀ err, faulty ok → Q (inl err) s3)) →
  wp ok inv guar tid p Q s.
Proof using Hrefl.
  intros Hp HQ. revert s HQ. induction p as [r|B f k IH]; intros s HQ; cbn in *; [done|].
  intros s1 e b w' said He Hi Hr Hf. destruct (HQ s1 Hi Hr) as [Herr Hok]. destruct s1 as [w h].
  destruct (Hp tid e w) as (b' & w1 & said1 & Hf' & Hc). cbn [fst snd] in *. rewrite Hf in Hf'. injection Hf' as <- <- <-.
  destruct Hc as [(-> & -> & Hk)|[(-> & -> & Hc & err & Hk)|(a & Heff & Honly & Hk)]].
  - rewrite app_nil_r. split; [done|]. split; [by apply Hrefl|].
    apply IH; [done|]. intros s2 Hi2 Hr2. apply HQ; [done|]. by etransitivity.
  - rewrite app_nil_r, Hk. split; [done|]. split; [by apply Hrefl|]. cbn. intros s2 Hi2 Hr2.
    apply Herr; [|done..]. destruct Hc; [left; by exists e|by right].
  - destruct (Hok a w' said Heff Honly) as (Hi' & Hg & HQ'). split; [done|]. split; [done|].
    destruct Hk as [->|[Hc [err ->]]]; cbn; intros s3 Hi3 Hr3; [by apply HQ'|]. apply HQ'; [done..|]. by exists e.
Qed.

(** The silent stretch of a transaction. *)
Lemma wp_silently refuses {A : Set} (P : A → Prop) p Q s :
  silently refuses P p →
  (∀ s1, inv s1 → rely inv guar tid s s1 →
    (∀ err, faulty ok ∨ refuses (db s1.1) → ∀ s2, inv s2 → rely inv guar tid s1 s2 → Q (inl err) s2) ∧
    ∀ a, P a → Q (inr a) s1) →
  wp ok inv guar tid p Q s.
Proof using Hrefl.
  intros Hp HQ. revert s HQ. induction p as [r|B f k IH]; intros s HQ; cbn in *.
  - intros s1 Hi Hr. destruct r; [done|]. by apply HQ.
  - intros s1 e b w' said He Hi Hr Hf. destruct (HQ s1 Hi Hr) as [Herr _]. destruct s1 as [w h].
    destruct (Hp tid e w) as (b' & Hf' & Hc). cbn [fst snd] in *. rewrite Hf in Hf'. injection Hf' as <- -> ->.
    rewrite app_nil_r. split; [done|]. split; [by apply Hrefl|]. destruct Hc as [Hk|(Hc & err & ->)].
    + apply IH; [done|]. intros s2 Hi2 Hr2. apply HQ; [done|]. by etransitivity.
    + cbn. intros s2 Hi2 Hr2. apply Herr; [|done..]. destruct Hc; [left; by exists e|by right].
Qed.

(** [let?] under the rules. *)
Lemma wp_let {A B : Set} (p : program (string + A)%type) (k : A → program (string + B)%type) Q s :
  inv s →
  wp ok inv guar tid p (λ r s1, match r with
    | inl err => ∀ s2, inv s2 → rely inv guar tid s1 s2 → Q (inl err) s2
    | inr a => wp ok inv guar tid (k a) Q s1
    end) s →
  wp ok inv guar tid (let? a := p in k a) Q s.
Proof using Type.
  intros Hi Hw. apply wp_seq; [done|]. eapply wp_conseq; [|exact Hw]. intros [err|a] s' Hi'; done.
Qed.

Lemma wp_try_silently refuses {A B : Set} (P : A → Prop) p (k : A → program (string + B)%type) Q s :
  inv s → silently refuses P p →
  (∀ s1, inv s1 → rely inv guar tid s s1 →
    (∀ err, faulty ok ∨ refuses (db s1.1) → ∀ s2, inv s2 → rely inv guar tid s1 s2 → Q (inl err) s2) ∧
    ∀ a, P a → wp ok inv guar tid (k a) Q s1) →
  wp ok inv guar tid (let? a := p in k a) Q s.
Proof using Hrefl.
  intros Hi Hp HQ. apply wp_let; [done|]. eapply wp_silently; [exact Hp|].
  intros s1 Hi1 Hr1. destruct (HQ s1 Hi1 Hr1) as [Herr Hk]. split; [|exact Hk].
  intros err Hc s2 Hi2 Hr2 s3 Hi3 Hr3. apply (Herr err Hc); [done|]. by etransitivity.
Qed.

Lemma wp_try_atomically who refuses {A B : Set} (eff : contract A) p (k : A → program (string + B)%type) Q s :
  inv s → atomically who refuses eff p →
  (∀ s1, inv s1 → rely inv guar tid s s1 →
    (∀ err, faulty ok ∨ refuses (db s1.1) → ∀ s2, inv s2 → rely inv guar tid s1 s2 → Q (inl err) s2) ∧
    (∀ a w' said, eff tid (db s1.1) a (db w') said → only who s1.1 w' →
      inv (w', s1.2 ++ said) ∧ guar tid s1 (w', s1.2 ++ said) ∧
      wp ok inv guar tid (k a) Q (w', s1.2 ++ said) ∧
      ∀ err, faulty ok → ∀ s3, inv s3 → rely inv guar tid (w', s1.2 ++ said) s3 → Q (inl err) s3)) →
  wp ok inv guar tid (let? a := p in k a) Q s.
Proof using Hrefl.
  intros Hi Hp HQ. apply wp_let; [done|]. eapply wp_atomically; [exact Hp|].
  intros s1 Hi1 Hr1. destruct (HQ s1 Hi1 Hr1) as [Herr Hok].
  split; [intros err Hc s2 Hi2 Hr2 s3 Hi3 Hr3; apply (Herr err Hc); [done|by etransitivity]|].
  intros a w' said He Ho. destruct (Hok a w' said He Ho) as (Hi' & Hg & Hk & Hl). split; [done|]. split; [done|].
  intros s3 Hi3 Hr3. split; [by eapply wp_rely|]. intros err Hf s4 Hi4 Hr4. apply (Hl err Hf); [done|]. by etransitivity.
Qed.

(** A read: what it returns was there at some moment. *)
Lemma wp_try_reads who {A B : Set} (g : view → A) p (k : A → program (string + B)%type) Q s :
  inv s → atomically who never (reads who g) p →
  (∀ s1, inv s1 → rely inv guar tid s s1 →
    (∀ err, faulty ok → ∀ s2, inv s2 → rely inv guar tid s1 s2 → Q (inl err) s2) ∧
    wp ok inv guar tid (k (g (view_of who (db s1.1)))) Q s1) →
  wp ok inv guar tid (let? a := p in k a) Q s.
Proof using Hrefl.
  intros Hi Hp HQ. eapply wp_try_atomically; [done|exact Hp|]. intros s1 Hi1 Hr1.
  destruct (HQ s1 Hi1 Hr1) as [Herr Hk]. split; [intros err [Hf|[]]; by apply Herr|].
  intros a w' said (-> & Hd & ->) [Hw _]. rewrite Hd, set_db_id in Hw. subst w'. rewrite app_nil_r.
  destruct s1 as [w h]. split; [done|]. split; [by apply Hrefl|]. split; [done|]. exact Herr.
Qed.

Lemma wp_try_query {A B : Set} failed (read : Env → DB → A) (k : A → program (string + B)%type) Q s :
  inv s →
  (∀ s1, inv s1 → rely inv guar tid s s1 →
    (∀ err, faulty ok → ∀ s2, inv s2 → rely inv guar tid s1 s2 → Q (inl err) s2) ∧
    ∀ e, wp ok inv guar tid (k (read e (db s1.1))) Q s1) →
  wp ok inv guar tid (let? a := query failed read in k a) Q s.
Proof using Hrefl.
  intros Hi HQ. cbn. intros [w h] e r w' said He Hi1 Hr1 Hf. cbn [fst snd] in *.
  destruct (HQ (w, h) Hi1 Hr1) as [Herr Hk].
  assert (w' = w ∧ said = [] ∧ (r = inr (read e (db w)) ∨ env_fate e ≠ Works ∧ ∃ err, r = inl err)) as (-> & -> & Hr).
  { destruct (env_fate e); simplify_eq/=; (split; [first [done|by destruct w]|]); split; eauto. }
  rewrite app_nil_r. split; [done|]. split; [by apply Hrefl|].
  destruct Hr as [->|[Hfate [err ->]]]; cbn [try]; [apply Hk|]. cbn. intros s2 Hi2 Hr2. apply (Herr err); [by exists e|done..].
Qed.

End Rules.

Lemma flows_try {A B : Set} tid (p : program (string + A)%type) (k : A → program (string + B)%type) :
  flows tid p → (∀ a, flows tid (k a)) → flows tid (let? a := p in k a).
Proof. intros Hp Hk. apply flows_bind; [done|]. intros [err|a]; [done|apply Hk]. Qed.

Lemma flows_statement {A : Set} tid failed (sql : nat → Env → DB → option (A * DB * list Event)) :
  flows tid (statement failed sql).
Proof. intros e w. cbn. by destruct (env_fate e), (sql tid e (db w)) as [[[]]|]; eexists _, _, _. Qed.
