(* ===== verification/TotpStore.v ===== *)
(** * The second factor's storage (internal/totp: store.go, postgres_store.go;
    internal/frontdesk/authstore.go)

    The contract of [totp.Store] as a class with its laws, and the two stores that
    keep it: PostgreSQL, for the admin or for one user, and the front desk's
    SQLite. *)

From S2P Require Import Prelude Crypto Encryption Threads LoginThrottle AuthWorld.

Record EncryptedSecret := MkSecret { Cipher : bytes; Nonce_ : bytes; Salt_ : bytes }.

#[export] Instance secret_eq_decision : EqDecision EncryptedSecret.
Proof. solve_decision. Defined.

Definition secretOf (r : totpRow) : EncryptedSecret := MkSecret (secret_cipher r) (secret_nonce r) (secret_salt r).

Definition DisableAuthorizer : Type :=
  EncryptedSecret → option Z → (string → program (string + bool)%type) → program (string + bool)%type.

(** ** Two stores *)

(** *** PostgreSQL *)

Inductive pgTable := AdminTable | UserTable.

Record pgStore := MkPg {
  pg_table : pgTable;
  pg_keyArgs : list string;
  pg_keyed : bool;
  pg_label : string
}.

Definition NewPostgresStore : pgStore := MkPg AdminTable [] false "".
Definition NewUserPostgresStore (userID : string) : pgStore := MkPg UserTable [userID] true "user ".

Module pg.

Definition who (s : pgStore) : option string := head (pg_keyArgs s).

(** [NOW()]: a timestamptz counts microseconds. *)
Definition NOW (e : Env) : Time := env_now e - env_now e `mod` 1000.

Definition errf (s : pgStore) (what : string) : string := "totp: " +:+ pg_label s +:+ what.

(** The row [where()] selects in the config table: [id = 1], or the user's. *)
Definition config (s : pgStore) (d : DB) : option totpRow :=
  match pg_table s, pg_keyArgs s with
  | AdminTable, _ => admin_totp d
  | UserTable, uid :: _ => user_totp d !! uid
  | UserTable, [] => None
  end.

Definition putConfig (s : pgStore) (r : option totpRow) (d : DB) : DB :=
  match pg_table s, pg_keyArgs s with
  | AdminTable, _ => d ⟦ admin_totp := r ⟧
  | UserTable, uid :: _ => d ⟦ user_totp := partial_alter (λ _, r) uid (user_totp d) ⟧
  | UserTable, [] => d
  end.

(** The rows [recoveryWhere()] selects: a store that is not keyed owns them all. *)
Definition recovery (s : pgStore) (d : DB) : recoveryCodes :=
  match pg_keyed s, pg_keyArgs s with
  | false, _ => admin_totp_recovery d
  | true, uid :: _ => default ∅ (user_totp_recovery d !! uid)
  | true, [] => ∅
  end.

Definition putRecovery (s : pgStore) (m : recoveryCodes) (d : DB) : DB :=
  match pg_keyed s, pg_keyArgs s with
  | false, _ => d ⟦ admin_totp_recovery := m ⟧
  | true, uid :: _ => d ⟦ user_totp_recovery := <[uid := m]> (user_totp_recovery d) ⟧
  | true, [] => d
  end.

(** The foreign key of user_totp and user_totp_recovery. *)
Definition owned (s : pgStore) (d : DB) : bool :=
  match pg_table s, pg_keyArgs s with
  | AdminTable, _ => true
  | UserTable, uid :: _ => bool_decide (uid ∈ users d)
  | UserTable, [] => false
  end.

Definition UpsertEnrollment (s : pgStore) (cipher nonce salt : bytes) : program (string + unit)%type :=
  statement (errf s "upsert enrollment") (λ _ e d,
    if negb (owned s d) then None else
    let row := match config s d with
               | None => MkTotp cipher nonce salt false (NOW e) None None
               | Some r => MkTotp cipher nonce salt false (created_at r) None None
               end in
    Some (tt, putConfig s (Some row) d, [Enrolled (who s)])).

Definition LoadSecret (s : pgStore) : program (string + option EncryptedSecret)%type :=
  query (B := option EncryptedSecret) (errf s "load secret") (λ _ d, secretOf <$> config s d).

(** [UPDATE ... SET last_used_step = $1 WHERE ... (last_used_step IS NULL OR
    last_used_step < $1)]: the number of rows changed. *)
Definition newer (step : Z) (r : totpRow) : bool :=
  match last_used_step r with None => true | Some l => l <? step end.

Definition RecordUsedStep (s : pgStore) (step : Z) : program (string + bool)%type :=
  let? rows := statement (errf s "record used step") (λ tid _ d, Some
    match config s d with
    | Some r =>
        if newer step r
        then (1%nat, putConfig s (Some (r ⟦ last_used_step := Some step ⟧)) d, [StepRecorded tid (who s) step])
        else (0%nat, d, [])
    | None => (0%nat, d, [])
    end) in
  Ret (inr (rows =? 1)%nat).

Definition Enable (s : pgStore) : program (string + bool)%type :=
  let? rows := statement (errf s "enable") (λ _ e d, Some
    match config s d with
    | Some r => (1%nat, putConfig s (Some (r ⟦ enabled := true ⟧ ⟦ confirmed_at := Some (NOW e) ⟧)) d, [])
    | None => (0%nat, d, [])
    end) in
  Ret (inr (0 <? rows)%nat).

Definition deleteConfig (s : pgStore) (d : DB) : option (DB * list Event) := Some (putConfig s None d, []).
Definition deleteRecovery (s : pgStore) (d : DB) : option (DB * list Event) :=
  Some (putRecovery s ∅ d, [Wiped (who s)]).

(** [deleteAll], up to the transaction it leaves open. *)
Definition deleteAll (s : pgStore) (tx : Tx) (what : string) : program (string + Tx)%type :=
  let? _ := txExec (errf s (what +:+ " (delete config)")) tx (deleteConfig s) in
  let? _ := txExec (errf s (what +:+ " (delete recovery)")) (tx ++ [deleteConfig s]) (deleteRecovery s) in
  Ret (inr (tx ++ [deleteConfig s; deleteRecovery s])).

Definition Disable (s : pgStore) : program (string + unit)%type :=
  let? _ := Begin (errf s "disable (begin)") in
  let? tx := deleteAll s [] "disable" in
  let? _ := Commit (errf s "disable (commit)") tx in
  Ret (inr tt).

Definition recoveryUnused (s : pgStore) (codeHash : string) : program (string + bool)%type :=
  let? n := txQuery (errf s "disable (check recovery)")
    (λ _ d, if decide (recovery s d !! codeHash = Some None) then 1%nat else 0%nat) in
  Ret (inr (n =? 1)%nat).

Definition DisableIfAuthorized (s : pgStore) (authorize : DisableAuthorizer) : program (string + bool)%type :=
  let? _ := Begin (errf s "disable (begin)") in
  let? row := txQuery (B := option (EncryptedSecret * option Z)) (errf s "disable (load secret)")
    (λ _ d, (λ r, (secretOf r, last_used_step r)) <$> config s d) in
  match row with
  | None => Ret (inr false)
  | Some (sec, lastUsedStep) =>
      let? authorized := authorize sec lastUsedStep (recoveryUnused s) in
      if negb authorized then Ret (inr false) else
      let? tx := deleteAll s [] "disable" in
      let? _ := Commit (errf s "disable (commit)") tx in
      Ret (inr true)
  end.

Definition IsEnabled (s : pgStore) : program (string + bool)%type :=
  let? row := query (B := option bool) (errf s "is_enabled") (λ _ d, enabled <$> config s d) in
  match row with None => Ret (inr false) | Some enabled => Ret (inr enabled) end.

Definition EnabledAt (s : pgStore) : program (string + option Time)%type :=
  let? row := query (B := option (option Time)) (errf s "enabled_at")
    (λ _ d, match config s d with
            | Some r => if enabled r then Some (confirmed_at r) else None
            | None => None
            end) in
  match row with None => Ret (inr None) | Some None => Ret (inr None) | Some (Some t) => Ret (inr (Some t)) end.

Definition RecoveryCounts (s : pgStore) : program (string + nat * nat)%type :=
  query (B := nat * nat) (errf s "recovery counts")
    (λ _ d, (size (filter (λ hu, hu.2 = None) (recovery s d)), size (recovery s d))).

Definition LastUsedStep (s : pgStore) : program (string + option (option Z))%type :=
  query (B := option (option Z)) (errf s "last used") (λ _ d, last_used_step <$> config s d).

(** The insert of one batch of hashes, refused when a hash is already there or
    the user is not. *)
Definition insertCodes (s : pgStore) (hashes : list string) (d : DB) : option (DB * list Event) :=
  if negb (owned s d) then None
  else if decide (NoDup hashes ∧ Forall (λ h, recovery s d !! h = None) hashes)
  then Some (putRecovery s (foldr (λ h, <[h := None]>) (recovery s d) hashes) d, [])
  else None.

Definition clearCodes (s : pgStore) (d : DB) : option (DB * list Event) :=
  Some (putRecovery s ∅ d, [CodesReplaced (who s)]).

Definition ReplaceRecoveryCodes (s : pgStore) (codeHashes : list string) : program (string + unit)%type :=
  let? _ := Begin (errf s "recovery codes (begin)") in
  let? _ := txExec (errf s "recovery codes (delete)") [] (clearCodes s) in
  let? tx :=
    if (0 <? length codeHashes)%nat then
      let? _ := txExec (errf s "recovery codes (insert)") [clearCodes s] (insertCodes s codeHashes) in
      Ret (inr [clearCodes s; insertCodes s codeHashes])
    else Ret (inr [clearCodes s]) in
  let? _ := Commit (errf s "recovery codes (commit)") tx in
  Ret (inr tt).

Definition ConsumeRecoveryCode (s : pgStore) (codeHash : string) : program (string + bool)%type :=
  let? rows := statement (errf s "consume recovery code") (λ tid e d, Some
    (if decide (recovery s d !! codeHash = Some None)
     then (1%nat, putRecovery s (<[codeHash := Some (NOW e)]> (recovery s d)) d, [CodeConsumed tid (who s) codeHash])
     else (0%nat, d, []))) in
  Ret (inr (rows =? 1)%nat).

End pg.

(** *** SQLite *)

(** [TOTPStore]: its database holds the admin's tables alone; flags are integers
    and instants Unix nanoseconds. *)
Record TOTPStore := NewTOTPStore { }.

Module sqlite.

Definition inTx {A : Set} (prefix : string) (fn : program (string + A * Tx)%type) : program (string + A)%type :=
  let? _ := Begin (prefix +:+ " (begin)") in
  let? (a, tx) := fn in
  let? _ := Commit (prefix +:+ " (commit)") tx in
  Ret (inr a).

Definition UpsertEnrollment (_ : TOTPStore) (cipher nonce salt : bytes) : program (string + unit)%type :=
  statement "totp: upsert enrollment" (λ _ e d,
    let created := match admin_totp d with None => env_now e | Some r => created_at r end in
    Some (tt, d ⟦ admin_totp := Some (MkTotp cipher nonce salt false created None None) ⟧, [Enrolled None])).

Definition LoadSecret (_ : TOTPStore) : program (string + option EncryptedSecret)%type :=
  query (B := option EncryptedSecret) "totp: load secret" (λ _ d, secretOf <$> admin_totp d).

Definition RecordUsedStep (_ : TOTPStore) (step : Z) : program (string + bool)%type :=
  let? n := statement "totp: record used step" (λ tid _ d, Some
    match admin_totp d with
    | Some r =>
        if pg.newer step r
        then (1%nat, d ⟦ admin_totp := Some (r ⟦ last_used_step := Some step ⟧) ⟧, [StepRecorded tid None step])
        else (0%nat, d, [])
    | None => (0%nat, d, [])
    end) in
  Ret (inr (n =? 1)%nat).

Definition Enable (_ : TOTPStore) : program (string + bool)%type :=
  let? n := statement "totp: enable" (λ _ e d, Some
    match admin_totp d with
    | Some r => (1%nat, d ⟦ admin_totp := Some (r ⟦ enabled := true ⟧ ⟦ confirmed_at := Some (env_now e) ⟧) ⟧, [])
    | None => (0%nat, d, [])
    end) in
  Ret (inr (0 <? n)%nat).

Definition deleteConfig (d : DB) : option (DB * list Event) := Some (d ⟦ admin_totp := None ⟧, []).
Definition deleteRecovery (d : DB) : option (DB * list Event) :=
  Some (d ⟦ admin_totp_recovery := ∅ ⟧, [Wiped None]).

Definition Disable (_ : TOTPStore) : program (string + unit)%type :=
  inTx "totp: tx"
    (let? _ := txExec "totp: disable (delete config)" [] deleteConfig in
     let? _ := txExec "totp: disable (delete recovery)" [deleteConfig] deleteRecovery in
     Ret (inr (tt, [deleteConfig; deleteRecovery]))).

Definition recoveryUnused (codeHash : string) : program (string + bool)%type :=
  let? n := txQuery "totp: disable (check recovery)"
    (λ _ d, if decide (admin_totp_recovery d !! codeHash = Some None) then 1%nat else 0%nat) in
  Ret (inr (n =? 1)%nat).

Definition DisableIfAuthorized (_ : TOTPStore) (authorize : DisableAuthorizer) : program (string + bool)%type :=
  inTx "totp: tx"
    (let? row := txQuery (B := option (EncryptedSecret * option Z)) "totp: disable (load secret)"
       (λ _ d, (λ r, (secretOf r, last_used_step r)) <$> admin_totp d) in
     match row with
     | None => Ret (inr (false, []))
     | Some (sec, lastUsedStep) =>
         let? ok := authorize sec lastUsedStep recoveryUnused in
         if negb ok then Ret (inr (false, [])) else
         let? _ := txExec "totp: disable (delete config)" [] deleteConfig in
         let? _ := txExec "totp: disable (delete recovery)" [deleteConfig] deleteRecovery in
         Ret (inr (true, [deleteConfig; deleteRecovery]))
     end).

Definition IsEnabled (_ : TOTPStore) : program (string + bool)%type :=
  let? row := query (B := option bool) "totp: is enabled" (λ _ d, enabled <$> admin_totp d) in
  match row with None => Ret (inr false) | Some enabled => Ret (inr enabled) end.

Definition EnabledAt (_ : TOTPStore) : program (string + option Time)%type :=
  let? row := query (B := option (bool * option Time)) "totp: enabled at"
    (λ _ d, (λ r, (enabled r, confirmed_at r)) <$> admin_totp d) in
  match row with
  | None => Ret (inr None)
  | Some (enabled, confirmedAt) =>
      match negb enabled, confirmedAt with
      | true, _ | _, None => Ret (inr None)
      | false, Some t => Ret (inr (Some t))
      end
  end.

Definition RecoveryCounts (_ : TOTPStore) : program (string + nat * nat)%type :=
  query (B := nat * nat) "totp: recovery counts"
    (λ _ d, (size (filter (λ hu, hu.2 = None) (admin_totp_recovery d)), size (admin_totp_recovery d))).

Definition LastUsedStep (_ : TOTPStore) : program (string + option (option Z))%type :=
  query (B := option (option Z)) "totp: last used step" (λ _ d, last_used_step <$> admin_totp d).

Definition clearCodes (d : DB) : option (DB * list Event) :=
  Some (d ⟦ admin_totp_recovery := ∅ ⟧, [CodesReplaced None]).

Definition insertCode (h : string) (d : DB) : option (DB * list Event) :=
  if decide (admin_totp_recovery d !! h = None)
  then Some (d ⟦ admin_totp_recovery := <[h := None]> (admin_totp_recovery d) ⟧, [])
  else None.

Fixpoint insertCodes (hashes : list string) (tx : Tx) : program (string + unit * Tx)%type :=
  match hashes with
  | [] => Ret (inr (tt, tx))
  | h :: hashes =>
      let? _ := txExec "totp: recovery codes (insert)" tx (insertCode h) in
      insertCodes hashes (tx ++ [insertCode h])
  end.

Definition ReplaceRecoveryCodes (_ : TOTPStore) (codeHashes : list string) : program (string + unit)%type :=
  inTx "totp: tx"
    (let? _ := txExec "totp: recovery codes (delete)" [] clearCodes in
     insertCodes codeHashes [clearCodes]).

Definition ConsumeRecoveryCode (_ : TOTPStore) (codeHash : string) : program (string + bool)%type :=
  let? n := statement "totp: consume recovery code" (λ tid e d, Some
    (if decide (admin_totp_recovery d !! codeHash = Some None)
     then (1%nat, d ⟦ admin_totp_recovery := <[codeHash := Some (env_now e)]> (admin_totp_recovery d) ⟧,
           [CodeConsumed tid None codeHash])
     else (0%nat, d, []))) in
  Ret (inr (n =? 1)%nat).

End sqlite.

(** ** The contract (store.go) *)

Section Contracts.
Context (who : option string).

Definition upserts (cipher nonce salt : bytes) : contract unit := λ _ d _ d' said,
  (∃ t, view_of who d' = (Some (MkTotp cipher nonce salt false t None None), (view_of who d).2)) ∧
  said = [Enrolled who].

Definition records (step : Z) : contract bool := λ tid d a d' said,
  match (view_of who d).1 with
  | Some r => if pg.newer step r
              then a = true ∧ view_of who d' = (Some (r ⟦ last_used_step := Some step ⟧), (view_of who d).2) ∧
                   said = [StepRecorded tid who step]
              else a = false ∧ d' = d ∧ said = []
  | None => a = false ∧ d' = d ∧ said = []
  end.

Definition enables : contract bool := λ _ d a d' said,
  match (view_of who d).1 with
  | Some r => ∃ t, a = true ∧
      view_of who d' = (Some (r ⟦ enabled := true ⟧ ⟦ confirmed_at := Some t ⟧), (view_of who d).2) ∧ said = []
  | None => a = false ∧ d' = d ∧ said = []
  end.

Definition wipes {A} (reply : A) : contract A := λ _ d a d' said,
  a = reply ∧ view_of who d' = (None, ∅) ∧ said = [Wiped who].

Definition replaces (hashes : list string) : contract unit := λ _ d _ d' said,
  NoDup hashes ∧ (view_of who d').1 = (view_of who d).1 ∧
  (∀ h, (view_of who d').2 !! h = if decide (h ∈ hashes) then Some None else None) ∧
  said = [CodesReplaced who].

Definition consumes (hash : string) : contract bool := λ tid d a d' said,
  match (view_of who d).2 !! hash with
  | Some None => ∃ t, a = true ∧
      view_of who d' = ((view_of who d).1, <[hash := Some t]> (view_of who d).2) ∧ said = [CodeConsumed tid who hash]
  | _ => a = false ∧ d' = d ∧ said = []
  end.

(** Constraints: a user's rows belong to a user, and a set of codes has no
    duplicates. *)
Definition stranger (d : DB) : Prop := match who with None => False | Some uid => uid ∉ users d end.
Definition unfit (hashes : list string) (d : DB) : Prop := stranger d ∨ ¬ NoDup hashes.

Definition secretView (v : view) : option EncryptedSecret := secretOf <$> v.1.

Definition lastStepView (v : view) : option (option Z) := last_used_step <$> v.1.

Definition enabledOf (v : view) : bool := match v.1 with Some r => enabled r | None => false end.

Definition enabledAtOf (v : view) : option Time :=
  match v.1 with Some r => if enabled r then confirmed_at r else None | None => None end.

Definition unusedOf (hash : string) (v : view) : bool := bool_decide (v.2 !! hash = Some None).

Definition countsOf (v : view) : nat * nat := (size (filter (λ hu, hu.2 = None) v.2), size v.2).

(** What is asked of the decision [DisableIfAuthorized] calls back: from the
    secret and the last step of some moment, by a probe into the recovery codes;
    only after a yes are the rows deleted, and all of them. *)
Definition disables (authorize : DisableAuthorizer) (op : program (string + bool)%type) : Prop :=
  ∀ ok inv guar tid Q (s : @St World Event),
    inv s → (∀ s1, inv s1 → guar tid s1 s1) →
    (faulty ok → ∀ s1, inv s1 → rely inv guar tid s s1 → ∀ err, Q (inl err) s1) →
    (∀ s1, inv s1 → rely inv guar tid s s1 →
      match (view_of who (db s1.1)).1 with
      | None => ∀ s2, inv s2 → rely inv guar tid s1 s2 → Q (inr false) s2
      | Some r => ∀ probe, (∀ h, atomically who never (reads who (unusedOf h)) (probe h)) →
          wp ok inv guar tid (authorize (secretOf r) (last_used_step r) probe)
            (λ answer s2, ∀ s3, inv s3 → rely inv guar tid s2 s3 →
              (faulty ok → ∀ err, Q (inl err) s3) ∧
              match answer with
              | inl err => Q (inl err) s3
              | inr false => Q (inr false) s3
              | inr true => ∀ w', view_of who (db w') = (None, ∅) → only who s3.1 w' →
                  inv (w', s3.2 ++ [Wiped who]) ∧ guar tid s3 (w', s3.2 ++ [Wiped who]) ∧
                  ∀ s4, inv s4 → rely inv guar tid (w', s3.2 ++ [Wiped who]) s4 →
                    Q (inr true) s4 ∧ (faulty ok → ∀ err, Q (inl err) s4)
              end) s1
      end) →
    wp ok inv guar tid op Q s.
End Contracts.

Class TotpStore (S : Type) := {
  account : S → option string;
  UpsertEnrollment : S → bytes → bytes → bytes → program (string + unit)%type;
  LoadSecret : S → program (string + option EncryptedSecret)%type;
  RecordUsedStep : S → Z → program (string + bool)%type;
  Enable : S → program (string + bool)%type;
  Disable : S → program (string + unit)%type;
  DisableIfAuthorized : S → DisableAuthorizer → program (string + bool)%type;
  IsEnabled : S → program (string + bool)%type;
  EnabledAt : S → program (string + option Time)%type;
  RecoveryCounts : S → program (string + nat * nat)%type;
  LastUsedStep : S → program (string + option (option Z))%type;
  ReplaceRecoveryCodes : S → list string → program (string + unit)%type;
  ConsumeRecoveryCode : S → string → program (string + bool)%type
}.

Class TotpStoreLaws (S : Type) `{!TotpStore S} := {
  UpsertEnrollment_law s c n sa :
    atomically (account s) (stranger (account s)) (upserts (account s) c n sa) (UpsertEnrollment s c n sa);
  LoadSecret_law s : atomically (account s) never (reads (account s) secretView) (LoadSecret s);
  RecordUsedStep_law s step : atomically (account s) never (records (account s) step) (RecordUsedStep s step);
  Enable_law s : atomically (account s) never (enables (account s)) (Enable s);
  Disable_law s : atomically (account s) never (wipes (account s) tt) (Disable s);
  DisableIfAuthorized_law s authorize : disables (account s) authorize (DisableIfAuthorized s authorize);
  DisableIfAuthorized_flows s authorize tid :
    (∀ sec last probe, (∀ h, flows tid (probe h)) → flows tid (authorize sec last probe)) →
    flows tid (DisableIfAuthorized s authorize);
  IsEnabled_law s : atomically (account s) never (reads (account s) enabledOf) (IsEnabled s);
  EnabledAt_law s : atomically (account s) never (reads (account s) enabledAtOf) (EnabledAt s);
  RecoveryCounts_law s : atomically (account s) never (reads (account s) countsOf) (RecoveryCounts s);
  LastUsedStep_law s : atomically (account s) never (reads (account s) lastStepView) (LastUsedStep s);
  ReplaceRecoveryCodes_law s hashes :
    atomically (account s) (unfit (account s) hashes) (replaces (account s) hashes) (ReplaceRecoveryCodes s hashes);
  ConsumeRecoveryCode_law s hash :
    atomically (account s) never (consumes (account s) hash) (ConsumeRecoveryCode s hash)
}.

(** ** Both stores keep the contract *)

(** Transactions end in their commit. *)
Lemma atomically_commit who (refuses : DB → Prop) {A : Set} failed tx (a : A) (eff : contract A) :
  (∀ tid d, match applyTx tx d with
   | Some (d', said) => eff tid d a d' said ∧ keeps who d d'
   | None => refuses d
   end) →
  atomically who refuses eff (let? _ := Commit failed tx in Ret (inr a)).
Proof.
  intros He. apply (atomically_statement who refuses failed _ _ (λ _, a)); [done|].
  intros tid e d. specialize (He tid d). by destruct (applyTx tx d) as [[d1 said1]|].
Qed.

Lemma atomically_begin who refuses {A : Set} failed (eff : contract A) (k : unit → program (string + A)%type) :
  atomically who refuses eff (k tt) → atomically who refuses eff (let? u := Begin failed in k u).
Proof.
  intros Hk. eapply atomically_try; [by apply (silently_query _ _ _ (λ _, True))|]. by intros [] _.
Qed.

(** The deletion that follows a yes. *)
Lemma wp_wipe ok inv guar tid who p Q (s s0 : @St World Event) :
  (∀ s1, inv s1 → guar tid s1 s1) → atomically who never (wipes who true) p →
  rely inv guar tid s0 s →
  (∀ s3, inv s3 → rely inv guar tid s0 s3 →
    (faulty ok → ∀ err, Q (inl err) s3) ∧
    ∀ w', view_of who (db w') = (None, ∅) → only who s3.1 w' →
      inv (w', s3.2 ++ [Wiped who]) ∧ guar tid s3 (w', s3.2 ++ [Wiped who]) ∧
      ∀ s4, inv s4 → rely inv guar tid (w', s3.2 ++ [Wiped who]) s4 →
        Q (inr true) s4 ∧ (faulty ok → ∀ err, Q (inl err) s4)) →
  wp ok inv guar tid p Q s.
Proof.
  intros Hrefl Hp Hr0 Hok. eapply wp_atomically; [exact Hrefl|exact Hp|].
  intros s3 Hi3 Hr3. assert (rely inv guar tid s0 s3) as Hr03 by (by etransitivity).
  destruct (Hok s3 Hi3 Hr03) as [Herr Hw].
  split; [intros err [Hf|[]] s4 Hi4 Hr4; apply Hok; [done|by etransitivity|done]|]. intros a w' said (-> & Hv & ->) Ho.
  destruct (Hw w' Hv Ho) as (Hi' & Hg & HQ). split; [done|]. split; [done|].
  intros s4 Hi4 Hr4. destruct (HQ s4 Hi4 Hr4) as [H1 H2]. split; [done|]. intros err Hf. by apply H2.
Qed.

(** *** PostgreSQL, under its two constructors *)

Record PgAccount := MkPgAccount { pg_account : option string }.

Definition pgFor (s : PgAccount) : pgStore :=
  match pg_account s with None => NewPostgresStore | Some uid => NewUserPostgresStore uid end.

#[export] Instance pg_store : TotpStore PgAccount := {
  account := pg_account;
  UpsertEnrollment s := pg.UpsertEnrollment (pgFor s);
  LoadSecret s := pg.LoadSecret (pgFor s);
  RecordUsedStep s := pg.RecordUsedStep (pgFor s);
  Enable s := pg.Enable (pgFor s);
  Disable s := pg.Disable (pgFor s);
  DisableIfAuthorized s := pg.DisableIfAuthorized (pgFor s);
  IsEnabled s := pg.IsEnabled (pgFor s);
  EnabledAt s := pg.EnabledAt (pgFor s);
  RecoveryCounts s := pg.RecoveryCounts (pgFor s);
  LastUsedStep s := pg.LastUsedStep (pgFor s);
  ReplaceRecoveryCodes s := pg.ReplaceRecoveryCodes (pgFor s);
  ConsumeRecoveryCode s := pg.ConsumeRecoveryCode (pgFor s)
}.

Section PgLaws.
Context (s : PgAccount).
Let who := pg_account s.

Lemma pg_view d : view_of who d = (pg.config (pgFor s) d, pg.recovery (pgFor s) d).
Proof. unfold who, pgFor. by destruct (pg_account s). Qed.

Lemma pg_who : pg.who (pgFor s) = who.
Proof. unfold who, pgFor. by destruct (pg_account s). Qed.

Lemma pg_owned d : pg.owned (pgFor s) d = false → stranger who d.
Proof. unfold who, pgFor, stranger. destruct (pg_account s); cbn; [|done]. by case_bool_decide. Qed.

(** Writing the row, or the codes, changes that half of the account's view and
    nothing else. *)
Lemma pg_put_config r d :
  view_of who (pg.putConfig (pgFor s) r d) = (r, (view_of who d).2) ∧ keeps who d (pg.putConfig (pgFor s) r d).
Proof.
  unfold who, pgFor, keeps. destruct (pg_account s) as [uid|]; cbn.
  - rewrite lookup_partial_alter_eq. repeat split. intros [o|] Hne; [|done]. cbn.
    by rewrite lookup_partial_alter_ne by congruence.
  - repeat split. by intros [o|].
Qed.

Lemma pg_put_recovery m d :
  view_of who (pg.putRecovery (pgFor s) m d) = ((view_of who d).1, m) ∧ keeps who d (pg.putRecovery (pgFor s) m d).
Proof.
  unfold who, pgFor, keeps. destruct (pg_account s) as [uid|]; cbn.
  - rewrite lookup_insert_eq. repeat split. intros [o|] Hne; [|done]. cbn.
    by rewrite lookup_insert_ne by congruence.
  - repeat split. by intros [o|].
Qed.

Lemma keeps_trans d1 d2 d3 : keeps who d1 d2 → keeps who d2 d3 → keeps who d1 d3.
Proof.
  intros (A1 & A2 & A3) (B1 & B2 & B3). split; [intros o Ho; by rewrite B1, A1|]. by rewrite B2, B3, A2, A3.
Qed.

Lemma pg_UpsertEnrollment c n sa :
  atomically who (stranger who) (upserts who c n sa) (pg.UpsertEnrollment (pgFor s) c n sa).
Proof.
  apply atomically_bare. intros tid e d.
  destruct (pg.owned _ d) eqn:Ho; [|by apply pg_owned]. cbn [negb].
  match goal with |- context [pg.putConfig _ (Some ?r) d] => destruct (pg_put_config (Some r) d) as [Hv Hk] end.
  split; [|exact Hk]. rewrite pg_who. split; [|done]. rewrite Hv. destruct (pg.config _ d); eauto.
Qed.

Lemma pg_RecordUsedStep step : atomically who never (records who step) (pg.RecordUsedStep (pgFor s) step).
Proof.
  apply atomically_statement with (λ rows, (rows =? 1)%nat); [done|].
  intros tid e d. pose proof (f_equal fst (pg_view d)) as Hd. cbn [fst] in Hd.
  destruct (pg.config (pgFor s) d) as [r|]; [destruct (pg.newer step r) eqn:Hn|]; unfold records; rewrite Hd, ?Hn; [|done..].
  destruct (pg_put_config (Some (r ⟦ last_used_step := Some step ⟧)) d) as [Hv Hk].
  split; [|exact Hk]. by rewrite Hv, pg_who.
Qed.

Lemma pg_Enable : atomically who never (enables who) (pg.Enable (pgFor s)).
Proof.
  apply atomically_statement with (λ rows, (0 <? rows)%nat); [done|].
  intros tid e d. pose proof (f_equal fst (pg_view d)) as Hd. cbn [fst] in Hd.
  destruct (pg.config (pgFor s) d) as [r|]; unfold enables; rewrite Hd; [|done].
  match goal with |- context [pg.putConfig _ ?r d] => destruct (pg_put_config r d) as [Hv Hk] end.
  split; [|exact Hk]. rewrite Hv. by eexists.
Qed.

(** The deletions, read as one change of the view. *)
Lemma pg_wiped tid {A} (a : A) d :
  match applyTx [pg.deleteConfig (pgFor s); pg.deleteRecovery (pgFor s)] d with
  | Some (d', said) => wipes who a tid d a d' said ∧ keeps who d d'
  | None => never d
  end.
Proof.
  cbn. destruct (pg_put_config None d) as [Hc Kc].
  destruct (pg_put_recovery ∅ (pg.putConfig (pgFor s) None d)) as [Hr Kr].
  split; [|by eapply keeps_trans]. by rewrite pg_who; unfold wipes; rewrite Hr, Hc.
Qed.

Lemma pg_deleteAll what :
  silently never (λ tx, tx = [pg.deleteConfig (pgFor s); pg.deleteRecovery (pgFor s)]) (pg.deleteAll (pgFor s) [] what).
Proof.
  eapply silently_try; [by apply silently_txExec|]. intros _ _.
  eapply silently_try; [by apply silently_txExec|]. by intros _ _.
Qed.

Lemma pg_Disable : atomically who never (wipes who tt) (pg.Disable (pgFor s)).
Proof.
  apply atomically_begin. eapply atomically_try; [apply pg_deleteAll|]. intros tx ->.
  apply atomically_commit. intros tid d. apply pg_wiped.
Qed.

Lemma pg_recoveryUnused hash : atomically who never (reads who (unusedOf hash)) (pg.recoveryUnused (pgFor s) hash).
Proof.
  apply (atomically_query who _ _ _ (λ n, (n =? 1)%nat)); [done|].
  intros e d. rewrite pg_view. unfold unusedOf. cbn [snd]. by repeat case_decide.
Qed.

Lemma pg_DisableIfAuthorized authorize : disables who authorize (pg.DisableIfAuthorized (pgFor s) authorize).
Proof.
  intros ok inv guar tid Q s0 Hi Hrefl Hgive Hcb. unfold pg.DisableIfAuthorized.
  apply (wp_try_silently _ _ _ _ Hrefl never (λ _ : unit, True)); [done|by apply (silently_query _ _ _ (λ _, True))|].
  intros s1 Hi1 Hr1. split; [intros err [Hf|[]] s2 Hi2 Hr2; apply Hgive; [done..|by etransitivity]|]. intros _ _.
  apply (wp_try_query _ _ _ _ Hrefl); [done|]. intros s2 Hi2 Hr2.
  assert (rely inv guar tid s0 s2) as Hr02 by (by etransitivity).
  split; [intros err Hf s3 Hi3 Hr3; apply Hgive; [done..|by etransitivity]|].
  intros e. specialize (Hcb s2 Hi2 Hr02). rewrite pg_view in Hcb. cbn [fst] in Hcb.
  destruct (pg.config (pgFor s) (db s2.1)) as [r|]; cbn [fmap option_fmap option_map]; [|done].
  apply wp_let; [done|]. eapply wp_conseq; [|apply Hcb; intros h; apply pg_recoveryUnused].
  intros [err|[]] s3 Hi3 Hans; cbn [negb] in *.
  - intros s4 Hi4 Hr4. by apply Hans.
  - apply (wp_try_silently _ _ _ _ Hrefl never (λ tx, tx = [pg.deleteConfig (pgFor s); pg.deleteRecovery (pgFor s)]));
      [done|apply pg_deleteAll|].
    intros s4 Hi4 Hr4. split; [intros err [Hf|[]] s5 Hi5 Hr5; apply Hans; [done|by etransitivity|done]|].
    intros tx ->. apply (wp_wipe _ _ _ _ who _ _ _ s3 Hrefl); [|done|exact Hans].
    apply atomically_commit. intros tid' d. apply pg_wiped.
  - intros s4 Hi4 Hr4. by apply Hans.
Qed.

Lemma pg_DisableIfAuthorized_flows authorize tid :
  (∀ sec last probe, (∀ h, flows tid (probe h)) → flows tid (authorize sec last probe)) →
  flows tid (pg.DisableIfAuthorized (pgFor s) authorize).
Proof.
  intros Ha. apply flows_try; [by eapply flows_silently, (silently_query never _ _ (λ _, True))|]. intros _.
  apply flows_try; [by eapply flows_silently, (silently_query never _ _ (λ _, True))|].
  intros [[sec last]|]; [|done]. apply flows_try.
  { apply Ha. intros h. eapply flows_atomically, pg_recoveryUnused. }
  intros []; [|done]. cbn [negb]. apply flows_try; [by eapply flows_silently, pg_deleteAll|]. intros tx.
  apply flows_try; [apply flows_statement|done].
Qed.

Lemma pg_ConsumeRecoveryCode hash :
  atomically who never (consumes who hash) (pg.ConsumeRecoveryCode (pgFor s) hash).
Proof.
  apply atomically_statement with (λ rows, (rows =? 1)%nat); [done|].
  intros tid e d. pose proof (f_equal snd (pg_view d)) as Hd. cbn [snd] in Hd.
  destruct (decide (pg.recovery (pgFor s) d !! hash = Some None)) as [Hc|Hc]; unfold consumes; rewrite Hd.
  2: { by destruct (pg.recovery (pgFor s) d !! hash) as [[]|]. }
  rewrite Hc. match goal with |- context [pg.putRecovery _ ?m d] => destruct (pg_put_recovery m d) as [Hv Hk] end.
  split; [|exact Hk]. rewrite Hv, pg_who. by eexists.
Qed.

Lemma foldr_insert_lookup (hashes : list string) (m : recoveryCodes) h :
  foldr (λ h, <[h := None]>) m hashes !! h = if decide (h ∈ hashes) then Some None else m !! h.
Proof.
  induction hashes as [|h' hashes IH]; cbn [foldr]; [by rewrite decide_False by set_solver|].
  destruct (decide (h' = h)) as [->|Hne].
  - rewrite lookup_insert_eq, decide_True by set_solver. done.
  - rewrite lookup_insert_ne, IH by done. by repeat case_decide; set_solver.
Qed.

(** Clearing the set and inserting the new one. *)
Lemma pg_replaced hashes tid d :
  match applyTx [pg.clearCodes (pgFor s); pg.insertCodes (pgFor s) hashes] d with
  | Some (d', said) => replaces who hashes tid d tt d' said ∧ keeps who d d'
  | None => unfit who hashes d
  end.
Proof.
  cbn. destruct (pg_put_recovery ∅ d) as [Hr Kr]. set (d1 := pg.putRecovery (pgFor s) ∅ d) in *.
  assert (pg.recovery (pgFor s) d1 = ∅) as Hempty by (pose proof (pg_view d1) as Hv; rewrite Hr in Hv; congruence).
  unfold pg.insertCodes. destruct (pg.owned _ d1) eqn:Ho; cbn [negb].
  2: { left. apply pg_owned in Ho. unfold stranger in *. destruct who; [|done]. by destruct Kr as (_ & <- & _). }
  rewrite Hempty. destruct (decide _) as [[Hnd _]|Hn].
  - match goal with |- context [pg.putRecovery _ ?m d1] => destruct (pg_put_recovery m d1) as [Hv Kv] end.
    split; [|by eapply keeps_trans]. unfold replaces. rewrite Hv, Hr, pg_who. split; [done|]. split; [done|].
    split; [|done]. intros h. cbn [snd]. by rewrite foldr_insert_lookup.
  - right. intros Hnd. apply Hn. split; [done|]. by apply Forall_forall.
Qed.

Lemma pg_cleared tid d :
  match applyTx [pg.clearCodes (pgFor s)] d with
  | Some (d', said) => replaces who [] tid d tt d' said ∧ keeps who d d'
  | None => unfit who [] d
  end.
Proof.
  cbn. destruct (pg_put_recovery ∅ d) as [Hr Kr]. split; [|exact Kr].
  unfold replaces. rewrite Hr, pg_who. split; [constructor|]. by repeat split.
Qed.

Lemma pg_ReplaceRecoveryCodes hashes :
  atomically who (unfit who hashes) (replaces who hashes) (pg.ReplaceRecoveryCodes (pgFor s) hashes).
Proof.
  apply atomically_begin. eapply atomically_try; [by apply silently_txExec|]. intros _ _.
  destruct hashes as [|h hashes]; cbn [length Nat.ltb Nat.leb].
  - apply atomically_commit. intros tid d. apply pg_cleared.
  - eapply (atomically_try _ _ (λ tx, tx = [pg.clearCodes (pgFor s); pg.insertCodes (pgFor s) (h :: hashes)])).
    + eapply silently_try; [apply silently_txExec|by intros _ _]. intros d Hd.
      pose proof (pg_replaced (h :: hashes) 0 d) as H. change ([?a] ++ [?b]) with [a; b] in Hd. by rewrite Hd in H.
    + intros tx ->. apply atomically_commit. intros tid d. apply pg_replaced.
Qed.

Lemma pg_reads :
  atomically who never (reads who secretView) (pg.LoadSecret (pgFor s)) ∧
  atomically who never (reads who enabledOf) (pg.IsEnabled (pgFor s)) ∧
  atomically who never (reads who enabledAtOf) (pg.EnabledAt (pgFor s)) ∧
  atomically who never (reads who countsOf) (pg.RecoveryCounts (pgFor s)) ∧
  atomically who never (reads who lastStepView) (pg.LastUsedStep (pgFor s)).
Proof.
  repeat split.
  - apply atomically_query_bare. intros e d. by rewrite pg_view.
  - apply (atomically_query _ _ _ _ (λ row : option bool, default false row)); [by intros []|].
    intros e d. rewrite pg_view. unfold enabledOf. cbn [fst]. by destruct (pg.config _ d).
  - apply (atomically_query _ _ _ _ (λ row : option (option Time), default None row)); [by intros [[]|]|].
    intros e d. rewrite pg_view. unfold enabledAtOf. cbn [fst]. by destruct (pg.config _ d) as [[? ? ? []]|].
  - apply atomically_query_bare. intros e d. by rewrite pg_view.
  - apply atomically_query_bare. intros e d. by rewrite pg_view.
Qed.
End PgLaws.

#[export] Instance pg_store_laws : TotpStoreLaws PgAccount.
Proof.
  split; intros; first [apply pg_UpsertEnrollment|apply pg_RecordUsedStep|apply pg_Enable|apply pg_Disable|
    apply pg_DisableIfAuthorized|by apply pg_DisableIfAuthorized_flows|apply pg_ReplaceRecoveryCodes|
    apply pg_ConsumeRecoveryCode|apply pg_reads].
Qed.

(** *** SQLite *)

#[export] Instance sqlite_store : TotpStore TOTPStore := {
  account _ := None;
  UpsertEnrollment := sqlite.UpsertEnrollment;
  LoadSecret := sqlite.LoadSecret;
  RecordUsedStep := sqlite.RecordUsedStep;
  Enable := sqlite.Enable;
  Disable := sqlite.Disable;
  DisableIfAuthorized := sqlite.DisableIfAuthorized;
  IsEnabled := sqlite.IsEnabled;
  EnabledAt := sqlite.EnabledAt;
  RecoveryCounts := sqlite.RecoveryCounts;
  LastUsedStep := sqlite.LastUsedStep;
  ReplaceRecoveryCodes := sqlite.ReplaceRecoveryCodes;
  ConsumeRecoveryCode := sqlite.ConsumeRecoveryCode
}.

Section SqliteLaws.
Context (s : TOTPStore).

(** Nothing but the admin's tables is here to change. *)
Lemma sqlite_keeps d r m :
  keeps None d (d ⟦ admin_totp := r ⟧) ∧ keeps None d (d ⟦ admin_totp_recovery := m ⟧) ∧
  keeps None d (d ⟦ admin_totp := r ⟧ ⟦ admin_totp_recovery := m ⟧).
Proof. repeat split; by intros [o|]. Qed.

Lemma sqlite_UpsertEnrollment c n sa :
  atomically None (stranger None) (upserts None c n sa) (sqlite.UpsertEnrollment s c n sa).
Proof.
  apply atomically_bare. intros tid e d. split; [|apply (sqlite_keeps d _ ∅)].
  split; [|done]. cbn. destruct (admin_totp d); eauto.
Qed.

Lemma sqlite_RecordUsedStep step : atomically None never (records None step) (sqlite.RecordUsedStep s step).
Proof.
  apply atomically_statement with (λ rows, (rows =? 1)%nat); [done|].
  intros tid e d. unfold records. cbn [view_of fst].
  destruct (admin_totp d) as [r|] eqn:Hc; [destruct (pg.newer step r) eqn:Hn|]; rewrite ?Hn; [|done..].
  split; [done|apply (sqlite_keeps d _ ∅)].
Qed.

Lemma sqlite_Enable : atomically None never (enables None) (sqlite.Enable s).
Proof.
  apply atomically_statement with (λ rows, (0 <? rows)%nat); [done|].
  intros tid e d. unfold enables. cbn [view_of fst].
  destruct (admin_totp d) as [r|] eqn:Hc; [|done]. split; [by eexists|apply (sqlite_keeps d _ ∅)].
Qed.

Lemma sqlite_wiped tid {A} (a : A) d :
  match applyTx [sqlite.deleteConfig; sqlite.deleteRecovery] d with
  | Some (d', said) => wipes None a tid d a d' said ∧ keeps None d d'
  | None => never d
  end.
Proof. split; [done|apply (sqlite_keeps d None ∅)]. Qed.

(** The two deletions of a transaction that will commit them. *)
Lemma sqlite_deletes {A : Set} (a : A) :
  silently never (λ r, r = (a, [sqlite.deleteConfig; sqlite.deleteRecovery]))
    (let? _ := txExec "totp: disable (delete config)" [] sqlite.deleteConfig in
     let? _ := txExec "totp: disable (delete recovery)" [sqlite.deleteConfig] sqlite.deleteRecovery in
     Ret (inr (a, [sqlite.deleteConfig; sqlite.deleteRecovery]))).
Proof.
  eapply silently_try; [by apply silently_txExec|]. intros _ _.
  eapply silently_try; [by apply silently_txExec|]. by intros _ _.
Qed.

(** [inTx] around a silent body that returns one transaction. *)
Lemma sqlite_inTx (refuses : DB → Prop) {A : Set} prefix (fn : program (string + A * Tx)%type) a tx (eff : contract A) :
  silently refuses (λ r, r = (a, tx)) fn →
  (∀ tid d, match applyTx tx d with
   | Some (d', said) => eff tid d a d' said ∧ keeps None d d'
   | None => refuses d
   end) →
  atomically None refuses eff (sqlite.inTx prefix fn).
Proof.
  intros Hfn He. apply atomically_begin. eapply atomically_try; [exact Hfn|].
  intros r ->. by apply atomically_commit.
Qed.

Lemma sqlite_Disable : atomically None never (wipes None tt) (sqlite.Disable s).
Proof. eapply sqlite_inTx; [apply sqlite_deletes|]. intros tid d. apply sqlite_wiped. Qed.

Lemma sqlite_recoveryUnused hash :
  atomically None never (reads None (unusedOf hash)) (sqlite.recoveryUnused hash).
Proof.
  apply (atomically_query None _ _ _ (λ n, (n =? 1)%nat)); [done|].
  intros e d. unfold unusedOf. cbn [view_of snd]. by repeat case_decide.
Qed.

Lemma sqlite_DisableIfAuthorized authorize : disables None authorize (sqlite.DisableIfAuthorized s authorize).
Proof.
  intros ok inv guar tid Q s0 Hi Hrefl Hgive Hcb. unfold sqlite.DisableIfAuthorized, sqlite.inTx.
  apply (wp_try_silently _ _ _ _ Hrefl never (λ _ : unit, True)); [done|by apply (silently_query _ _ _ (λ _, True))|].
  intros s1 Hi1 Hr1. split; [intros err [Hf|[]] s2 Hi2 Hr2; apply Hgive; [done..|by etransitivity]|]. intros _ _.
  apply wp_let; [done|]. apply (wp_try_query _ _ _ _ Hrefl); [done|]. intros s2 Hi2 Hr2.
  assert (rely inv guar tid s0 s2) as Hr02 by (by etransitivity).
  split; [intros err Hf s3 Hi3 Hr3 s4 Hi4 Hr4; apply Hgive; [done..|by repeat (etransitivity; [eassumption|])]|].
  intros e. specialize (Hcb s2 Hi2 Hr02). cbn [view_of fst] in Hcb.
  (* a transaction that wrote nothing commits too *)
  assert (∀ s3, inv s3 → (∀ s4, inv s4 → rely inv guar tid s3 s4 → Q (inr false) s4 ∧ (faulty ok → ∀ err, Q (inl err) s4)) →
    wp ok inv guar tid (let? _ := Commit "totp: tx (commit)" [] in Ret (inr false)) Q s3) as Hempty.
  { intros s3 Hi3 HQ. apply (wp_try_silently _ _ _ _ Hrefl never (λ _, True)); [done|apply silently_Commit_empty|].
    intros s4 Hi4 Hr4. split.
    - intros err [Hf|[]] s5 Hi5 Hr5. apply HQ; [done|by etransitivity|done].
    - intros _ _ s5 Hi5 Hr5. apply HQ; [done|]. by etransitivity. }
  destruct (admin_totp (db s2.1)) as [r|]; cbn [fmap option_fmap option_map].
  2: { intros s3 Hi3 Hr3. apply Hempty; [done|]. intros s4 Hi4 Hr4.
       assert (rely inv guar tid s2 s4) by (by etransitivity).
       split; [by apply Hcb|]. intros Hf err. apply Hgive; [done..|]. by etransitivity. }
  apply wp_let; [done|]. eapply wp_conseq; [|apply Hcb; intros h; apply sqlite_recoveryUnused].
  intros [err|[]] s3 Hi3 Hans; cbn [negb] in *.
  - intros s4 Hi4 Hr4 s5 Hi5 Hr5. apply Hans; [done|]. by etransitivity.
  - apply (wp_silently _ _ _ _ Hrefl never (λ r, r = (true, [sqlite.deleteConfig; sqlite.deleteRecovery]))); [apply sqlite_deletes|].
    intros s4 Hi4 Hr4. split.
    { intros err [Hf|[]] s5 Hi5 Hr5 s6 Hi6 Hr6. apply Hans; [done|by repeat (etransitivity; [eassumption|])|done]. }
    intros _ ->. apply (wp_wipe _ _ _ _ None _ _ _ s3 Hrefl); [|done|exact Hans].
    apply atomically_commit. intros tid' d. apply sqlite_wiped.
  - intros s4 Hi4 Hr4. apply Hempty; [done|]. intros s5 Hi5 Hr5.
    by destruct (Hans s5 Hi5 ltac:(by etransitivity)) as [Herr Hok].
Qed.

Lemma sqlite_DisableIfAuthorized_flows authorize tid :
  (∀ sec last probe, (∀ h, flows tid (probe h)) → flows tid (authorize sec last probe)) →
  flows tid (sqlite.DisableIfAuthorized s authorize).
Proof.
  intros Ha. apply flows_try; [by eapply flows_silently, (silently_query never _ _ (λ _, True))|]. intros _.
  apply flows_try; [|intros [a tx]; apply flows_try; [apply flows_statement|done]].
  apply flows_try; [by eapply flows_silently, (silently_query never _ _ (λ _, True))|].
  intros [[sec last]|]; [|done]. apply flows_try.
  { apply Ha. intros h. eapply flows_atomically, sqlite_recoveryUnused. }
  intros []; [|done]. cbn [negb]. eapply flows_silently, sqlite_deletes.
Qed.

Lemma sqlite_ConsumeRecoveryCode hash :
  atomically None never (consumes None hash) (sqlite.ConsumeRecoveryCode s hash).
Proof.
  apply atomically_statement with (λ rows, (rows =? 1)%nat); [done|].
  intros tid e d. unfold consumes. cbn [view_of snd].
  destruct (decide (admin_totp_recovery d !! hash = Some None)) as [Hc|Hc].
  - rewrite Hc. split; [by eexists|]. by apply (sqlite_keeps d None).
  - by destruct (admin_totp_recovery d !! hash) as [[]|].
Qed.

(** What inserting one code after another leaves, and that a set without
    duplicates can be inserted. *)
Lemma sqlite_inserted hashes d :
  match applyTx (sqlite.insertCode <$> hashes) d with
  | Some (d', said) => NoDup hashes ∧ said = [] ∧ ∃ m, d' = d ⟦ admin_totp_recovery := m ⟧ ∧
      ∀ h, m !! h = if decide (h ∈ hashes) then Some None else admin_totp_recovery d !! h
  | None => ¬ NoDup hashes ∨ ∃ h, h ∈ hashes ∧ admin_totp_recovery d !! h ≠ None
  end ∧
  (∀ d' said h, applyTx (sqlite.insertCode <$> hashes) d = Some (d', said) → h ∈ hashes →
     admin_totp_recovery d !! h = None).
Proof.
  revert d. induction hashes as [|h hashes IH]; intros d; cbn.
  { split; [|set_solver]. split; [constructor|]. split; [done|].
    exists (admin_totp_recovery d). split; [by destruct d|]. intros h. by rewrite decide_False by set_solver. }
  unfold sqlite.insertCode at 1 3. case_decide as Hh.
  2: { split; [|done]. right. exists h. split; [by left|done]. }
  match goal with |- context [applyTx _ ?d1] => destruct (IH d1) as [Hm Hfree] end.
  destruct (applyTx _ _) as [[d2 said2]|] eqn:Ha.
  - destruct Hm as (Hnd & -> & m & -> & Hm). cbn in Hm.
    assert (h ∉ hashes) as Hni by (intros Hin; specialize (Hfree _ _ h eq_refl Hin); cbn in Hfree; by rewrite lookup_insert_eq in Hfree).
    split.
    + split; [by constructor|]. split; [done|]. exists m. split; [done|]. intros h'. rewrite Hm.
      destruct (decide (h' = h)) as [->|Hne].
      * by rewrite decide_False, decide_True, lookup_insert_eq by set_solver.
      * rewrite lookup_insert_ne by done. by repeat case_decide; set_solver.
    + intros d' said h' _ [->|Hin]%elem_of_cons; [done|]. specialize (Hfree _ _ h' eq_refl Hin). cbn in Hfree.
      destruct (decide (h' = h)) as [->|Hne]; [done|]. by rewrite lookup_insert_ne in Hfree.
  - split; [|done]. destruct Hm as [Hm|(h' & Hin & Hm)]; [left; by inversion 1|]. cbn in Hm.
    destruct (decide (h' = h)) as [->|Hne]; [left; by inversion 1|].
    rewrite lookup_insert_ne in Hm by done. right. exists h'. split; [by right|done].
Qed.

Lemma sqlite_replaced hashes tid d :
  match applyTx ([sqlite.clearCodes] ++ (sqlite.insertCode <$> hashes)) d with
  | Some (d', said) => replaces None hashes tid d tt d' said ∧ keeps None d d'
  | None => unfit None hashes d
  end.
Proof.
  cbn. set (d1 := d ⟦ admin_totp_recovery := ∅ ⟧).
  destruct (sqlite_inserted hashes d1) as [Hm _]. destruct (applyTx _ d1) as [[d2 said2]|].
  - destruct Hm as (Hnd & -> & m & -> & Hm). split; [|by split; [intros [o|]|]].
    split; [done|]. split; [done|]. split; [|done]. intros h. exact (Hm h).
  - right. destruct Hm as [?|(h & _ & [])]; done.
Qed.

Lemma sqlite_insertCodes_silent hashes inserted all :
  inserted ++ hashes = all →
  silently (unfit None all) (λ r, r = (tt, [sqlite.clearCodes] ++ (sqlite.insertCode <$> all)))
    (sqlite.insertCodes hashes ([sqlite.clearCodes] ++ (sqlite.insertCode <$> inserted))).
Proof.
  revert inserted. induction hashes as [|h hashes IH]; intros inserted Hall; cbn [sqlite.insertCodes].
  { cbn. by rewrite <- Hall, app_nil_r. }
  assert (([sqlite.clearCodes] ++ (sqlite.insertCode <$> inserted)) ++ [sqlite.insertCode h] =
          [sqlite.clearCodes] ++ (sqlite.insertCode <$> (inserted ++ [h]))) as Htx
    by (by rewrite fmap_app, <- app_assoc).
  eapply silently_try.
  - apply silently_txExec. intros d Hd. rewrite Htx in Hd. pose proof (sqlite_replaced (inserted ++ [h]) 0 d) as H.
    rewrite Hd in H. destruct H as [[]|H]. right. intros Hnd. apply H.
    rewrite <- Hall in Hnd. change (h :: hashes) with ([h] ++ hashes) in Hnd. rewrite app_assoc in Hnd.
    by apply NoDup_app in Hnd as [? _].
  - intros _ _. rewrite Htx. apply IH. by rewrite <- app_assoc.
Qed.

Lemma sqlite_ReplaceRecoveryCodes hashes :
  atomically None (unfit None hashes) (replaces None hashes) (sqlite.ReplaceRecoveryCodes s hashes).
Proof.
  eapply sqlite_inTx; [|intros tid d; apply sqlite_replaced].
  eapply silently_try; [by apply silently_txExec|]. intros _ _.
  by apply (sqlite_insertCodes_silent hashes []).
Qed.

Lemma sqlite_reads :
  atomically None never (reads None secretView) (sqlite.LoadSecret s) ∧
  atomically None never (reads None enabledOf) (sqlite.IsEnabled s) ∧
  atomically None never (reads None enabledAtOf) (sqlite.EnabledAt s) ∧
  atomically None never (reads None countsOf) (sqlite.RecoveryCounts s) ∧
  atomically None never (reads None lastStepView) (sqlite.LastUsedStep s).
Proof.
  repeat split.
  - by apply atomically_query_bare.
  - apply (atomically_query _ _ _ _ (λ row : option bool, default false row)); [by intros []|].
    intros e d. unfold enabledOf. cbn [view_of fst]. by destruct (admin_totp d).
  - apply (atomically_query _ _ _ _ (λ row : option (bool * option Time),
      match row with Some (true, Some t) => Some t | _ => None end)); [by intros [[[] []]|]|].
    intros e d. unfold enabledAtOf. cbn [view_of fst]. by destruct (admin_totp d) as [[? ? ? [] ? []]|].
  - by apply atomically_query_bare.
  - by apply atomically_query_bare.
Qed.
End SqliteLaws.

#[export] Instance sqlite_store_laws : TotpStoreLaws TOTPStore.
Proof.
  split; intros; first [apply sqlite_UpsertEnrollment|apply sqlite_RecordUsedStep|apply sqlite_Enable|
    apply sqlite_Disable|apply sqlite_DisableIfAuthorized|by apply sqlite_DisableIfAuthorized_flows|
    apply sqlite_ReplaceRecoveryCodes|apply sqlite_ConsumeRecoveryCode|apply sqlite_reads].
Qed.
