(* ===== verification/SecondFactor.v ===== *)
(** * The second factor (internal/totp/totp.go)

    [totp.Repository]: enrolment, verification, disabling and recovery codes, over
    any store that keeps the contract of TotpStore.v. Argon2id and the RFC 6238
    code generator of github.com/pquerna/otp are parameters. *)

From S2P Require Import Prelude Crypto Encryption Threads LoginThrottle AuthWorld TotpStore.

Definition totpPeriodSeconds : Z := 30.

(** Seconds from Go's zero time to the Unix epoch. *)
Definition unixToInternal : Z := 62135596800.

(** [time.Time.Unix] and [time.Unix(sec, 0)]. *)
Definition Unix (t : Time) : Z := t / Second - unixToInternal.
Definition timeUnix (sec : Z) : Time := (sec + unixToInternal) * Second.

(** ** Recovery codes, as text *)

Module utf8.

(** [unicode/utf8.DecodeRune] over the whole string: an invalid byte is
    U+FFFD and one byte wide. *)
Definition cont (b : N) : bool := (128 <=? b)%N && (b <=? 191)%N.

Definition rune1 (bs : list N) : N * nat :=
  match bs with
  | [] => (65533%N, 1%nat)
  | a :: bs =>
      if (a <? 128)%N then (a, 1%nat) else
      match bs with
      | b :: bs' =>
          if ((194 <=? a) && (a <=? 223))%N && cont b
          then ((a - 192) * 64 + (b - 128), 2%nat)%N
          else match bs' with
          | c :: bs'' =>
              if ((224 <=? a) && (a <=? 239))%N && cont b && cont c
                 && negb ((a =? 224) && (b <? 160))%N && negb ((a =? 237) && (160 <=? b))%N
              then (((a - 224) * 64 + (b - 128)) * 64 + (c - 128), 3%nat)%N
              else match bs'' with
              | d :: _ =>
                  if ((240 <=? a) && (a <=? 244))%N && cont b && cont c && cont d
                     && negb ((a =? 240) && (b <? 144))%N && negb ((a =? 244) && (144 <=? b))%N
                  then ((((a - 240) * 64 + (b - 128)) * 64 + (c - 128)) * 64 + (d - 128), 4%nat)%N
                  else (65533%N, 1%nat)
              | [] => (65533%N, 1%nat)
              end
          | [] => (65533%N, 1%nat)
          end
      | [] => (65533%N, 1%nat)
      end
  end.

Fixpoint runes_go (fuel : nat) (bs : list N) : list N :=
  match fuel, bs with
  | S fuel, _ :: _ => let '(r, n) := rune1 bs in r :: runes_go fuel (drop n bs)
  | _, _ => []
  end.

Definition runes (s : string) : list N :=
  let bs := N_of_ascii <$> String.list_ascii_of_string s in runes_go (length bs) bs.

End utf8.

(** [unicode.ToUpper], exact on every rune whose upper case is ASCII; the other
    runes have upper cases outside ASCII and stand for themselves. *)
Definition ToUpper (r : N) : N :=
  if ((97 <=? r) && (r <=? 122))%N then r - 32
  else if (r =? 305)%N then 73       (* dotless i *)
  else if (r =? 383)%N then 83       (* long s *)
  else r.

Definition inBase32 (r : N) : bool := ((65 <=? r) && (r <=? 90))%N || ((50 <=? r) && (r <=? 55))%N.

(** [XXXX-XXXX-XXXX-XXXX]. *)
Definition grouped (s : string) : string :=
  String.substring 0 4 s +:+ "-" +:+ String.substring 4 4 s +:+ "-" +:+ String.substring 8 4 s +:+ "-" +:+ String.substring 12 4 s.

Definition normalizeRecoveryCode (code : string) : string :=
  let kept := List.filter inBase32 (ToUpper <$> utf8.runes code) in
  let s := String.string_of_list_ascii (ascii_of_N <$> kept) in
  if (String.length s =? 16)%nat then grouped s else s.

(** One code from the next ten bytes of entropy. [strings.ToUpper] leaves an
    encoded string as it is: the alphabet is upper case already. *)
Definition generateRecoveryCode (rnd : Entropy) : (string + string) * Entropy :=
  let '(read, rnd) := ReadFull 10 rnd in
  (match read with
   | inl err => inl err
   | inr buf =>
       let enc := String.string_of_list_ascii
         (ascii_of_N <$> (ToUpper <$> utf8.runes (base32.EncodeToString buf))) in
       inr (grouped enc)
   end, rnd).

Fixpoint generateCodes (n : nat) (rnd : Entropy) : (string + list string) * Entropy :=
  match n with
  | O => (inr [], rnd)
  | S n =>
      let '(r, rnd) := generateRecoveryCode rnd in
      match r with
      | inl err => (inl ("totp: generate recovery code: " +:+ err), rnd)
      | inr code =>
          let '(rest, rnd) := generateCodes n rnd in
          (match rest with inl err => inl err | inr codes => inr (code :: codes) end, rnd)
      end
  end.

(** ** The repository *)

Record SecurityInfo := MkInfo {
  RecoveryRemaining : nat;
  RecoveryTotal : nat;
  LastUsed : Time
}.

Section Repository.
Context (IDKey : bytes → bytes → Z → Z → Z → nat → bytes).
(** [totp.Generate]: a URI and a base32 secret; [totp.GenerateCode]: the code of a
    secret at an instant, or an error for a secret that is not base32. *)
Context (Generate : string → string → Entropy → (string + string * string) * Entropy).
Context (GenerateCode : string → Time → string + string).
Context {S : Type} `{!TotpStore S}.

Record Repository := MkRepository { store : S; masterKey : string }.

(** A panic unwinds the handler: net/http answers for it. *)
Definition orPanic {A : Set} (c : call A) : string + A :=
  match c with Returns a => inr a | Errs err => inl err | Panics msg => inl ("panic: " +:+ msg) end.

Definition EnrollAs (r : Repository) (accountName : string) : program (string + string * string)%type :=
  rnd ← Rand;
  let '(key, rnd) := Generate "Model Hotel" accountName rnd in
  match key with
  | inl err => Ret (inl ("totp: generate secret: " +:+ err))
  | inr (url, secret) =>
      match orPanic (Encrypt IDKey secret (masterKey r) rnd).1 with
      | inl err => Ret (inl ("totp: encrypt secret: " +:+ err))
      | inr kp =>
          let? _ := UpsertEnrollment (store r) (Ciphertext kp) (Nonce kp) (Salt kp) in
          Ret (inr (url, secret))
      end
  end.

Definition Enroll (r : Repository) : program (string + string * string)%type := EnrollAs r "admin".

(** The step whose code this is, of the previous, the current and the next; -1
    for none. *)
Definition matchStep (now : Time) (secret code : string) : Z :=
  let nowStep := Z.quot (Unix now) totpPeriodSeconds in
  let matches step := match GenerateCode secret (timeUnix (step * totpPeriodSeconds)) with
                      | inr cand => bool_decide (cand = code)
                      | inl _ => false
                      end in
  default (-1) (List.find matches [nowStep - 1; nowStep; nowStep + 1]).

Definition decryptSecret (r : Repository) (sec : EncryptedSecret) : call string :=
  Decrypt IDKey (Cipher sec) (Nonce_ sec) (Salt_ sec) (masterKey r).

Definition Verify (r : Repository) (code : string) : program (string + bool)%type :=
  let? sec := LoadSecret (store r) in
  match sec with
  | None => Ret (inr false)
  | Some sec =>
      match orPanic (decryptSecret r sec) with
      | inl err => Ret (inl ("totp: decrypt secret: " +:+ err))
      | inr secret =>
          now ← Now;
          let matched := matchStep now secret code in
          if matched <? 0 then Ret (inr false)
          else RecordUsedStep (store r) matched
      end
  end.

Definition ConsumeCode (r : Repository) (code : string) : program (string + bool)%type :=
  ConsumeRecoveryCode (store r) (SHA256Hex (normalizeRecoveryCode code)).

(** Which factor was accepted, if any. *)
Definition VerifyOrRecover (r : Repository) (code : string) : program (string + bool * bool)%type :=
  let? ok := Verify r code in
  if (ok : bool) then Ret (inr (true, false)) else
  let? ok := ConsumeCode r code in
  Ret (inr (ok, ok)).

Definition EnableTotp (r : Repository) : program (string + unit)%type :=
  let? enabled := Enable (store r) in
  if negb enabled then Ret (inl "totp: no provisional enrollment to enable") else Ret (inr tt).

Definition DisableTotp (r : Repository) : program (string + unit)%type :=
  let? _ := Disable (store r) in Ret (inr tt).

(** The callback [DisableWithCode] hands to its store. *)
Definition authorizeCode (r : Repository) (code : string) : DisableAuthorizer :=
  λ sec lastUsedStep recoveryUnused,
    now ← Now;
    let authorized :=
      match orPanic (decryptSecret r sec) with
      | inl _ => false
      | inr secret =>
          let step := matchStep now secret code in
          (0 <=? step) && match lastUsedStep with None => true | Some last => last <? step end
      end in
    if negb authorized then recoveryUnused (SHA256Hex (normalizeRecoveryCode code))
    else Ret (inr true).

Definition DisableWithCode (r : Repository) (code : string) : program (string + bool)%type :=
  let? ok := DisableIfAuthorized (store r) (authorizeCode r code) in
  Ret (inr ok).

Definition Info (r : Repository) : program (string + SecurityInfo)%type :=
  let? (remaining, total) := RecoveryCounts (store r) in
  let? step := LastUsedStep (store r) in
  Ret (inr (MkInfo remaining total
    match step with
    | Some (Some step) => if 0 <? step then timeUnix (step * totpPeriodSeconds) else zeroTime
    | _ => zeroTime
    end)).

Definition GenerateRecoveryCodes (r : Repository) : program (string + list string)%type :=
  rnd ← Rand;
  match (generateCodes 10 rnd).1 with
  | inl err => Ret (inl err)
  | inr codes =>
      let? _ := ReplaceRecoveryCodes (store r) (SHA256Hex <$> codes) in
      Ret (inr codes)
  end.
End Repository.

(** ** Recovery codes as text *)

Definition isSymbol (c : ascii) : Prop := c ∈ base32.alphabet.
Definition lower (c : ascii) : ascii := let n := N_of_ascii c in if (65 <=? n)%N && (n <=? 90)%N then ascii_of_N (n + 32) else c.

(** ASCII that is neither a letter nor 2-7: spaces, dashes, stray digits. *)
Definition noise (c : ascii) : bool :=
  let n := N_of_ascii c in
  (n <? 128)%N && negb (inBase32 n) && negb ((97 <=? n)%N && (n <=? 122)%N).

(** [typed] is [code] as a person may type it: in any case, its dashes kept or
    dropped, with anything that is no letter or base32 digit in between. *)
Inductive retyped : list ascii → list ascii → Prop :=
| retyped_nil : retyped [] []
| retyped_symbol c l t : isSymbol c → retyped l t → retyped (c :: l) (c :: t)
| retyped_lower c l t : isSymbol c → retyped l t → retyped (c :: l) (lower c :: t)
| retyped_dash l t : retyped l t → retyped ("-"%char :: l) t
| retyped_noise c l t : noise c = true → retyped l t → retyped l (c :: t).

Definition kept (l : list ascii) : list N := List.filter inBase32 (ToUpper <$> (N_of_ascii <$> l)).

Definition isASCII (c : ascii) : Prop := (N_of_ascii c < 128)%N.

Lemma runes_go_ascii fuel l :
  (length l ≤ fuel)%nat → Forall isASCII l → utf8.runes_go fuel (N_of_ascii <$> l) = N_of_ascii <$> l.
Proof.
  revert l. induction fuel as [|fuel IH]; intros [|c l] Hl Ha; cbn in Hl; try lia; [done..|].
  inversion_clear Ha. cbn [fmap list_fmap utf8.runes_go]. unfold utf8.rune1 at 1.
  rewrite (proj2 (N.ltb_lt _ _)) by done. cbn [drop]. f_equal. apply IH; [lia|done].
Qed.

Lemma normalize_ascii l :
  Forall isASCII l →
  normalizeRecoveryCode (String.string_of_list_ascii l) =
  let s := String.string_of_list_ascii (ascii_of_N <$> kept l) in
  if (String.length s =? 16)%nat then grouped s else s.
Proof.
  intros Ha. unfold normalizeRecoveryCode, utf8.runes.
  rewrite String.list_ascii_of_string_of_list_ascii, runes_go_ascii; [done|by rewrite length_fmap|done].
Qed.

Lemma symbol_facts c :
  isSymbol c → isASCII c ∧ isASCII (lower c) ∧ kept [c] = [N_of_ascii c] ∧ kept [lower c] = [N_of_ascii c].
Proof.
  assert (Forall (λ c, (N_of_ascii c < 128)%N ∧ (N_of_ascii (lower c) < 128)%N ∧
    kept [c] = [N_of_ascii c] ∧ kept [lower c] = [N_of_ascii c]) base32.alphabet) as H
    by (apply (bool_decide_unpack _); vm_compute; exact I).
  rewrite Forall_forall in H. apply H.
Qed.

Lemma noise_facts c : noise c = true → isASCII c ∧ kept [c] = [].
Proof.
  unfold noise, kept, isASCII, ToUpper. intros [[Ha Hb]%andb_true_iff Hl]%andb_true_iff.
  apply N.ltb_lt in Ha. split; [done|]. cbn [fmap list_fmap]. apply negb_true_iff in Hb, Hl. rewrite Hl.
  rewrite (proj2 (N.eqb_neq _ _)) by lia. rewrite (proj2 (N.eqb_neq _ _)) by lia. cbn. by rewrite Hb.
Qed.

Lemma kept_cons c l : kept (c :: l) = kept [c] ++ kept l.
Proof. unfold kept. cbn. by destruct (inBase32 _). Qed.

Lemma kept_dash l : kept ("-"%char :: l) = kept l.
Proof. done. Qed.

Lemma kept_retyped l t : retyped l t → Forall isASCII t ∧ kept t = kept l.
Proof.
  induction 1 as [|c l t Hc _ [IH1 IH2]|c l t Hc _ [IH1 IH2]|l t _ [IH1 IH2]|c l t Hc _ [IH1 IH2]].
  - by split.
  - split; [constructor; [by apply symbol_facts|done]|]. by rewrite (kept_cons c t), (kept_cons c l), IH2.
  - destruct (symbol_facts c Hc) as (_ & ? & H1 & H2). split; [by constructor|].
    by rewrite (kept_cons c l), (kept_cons (lower c) t), IH2, H1, H2.
  - split; [done|]. by rewrite kept_dash.
  - destruct (noise_facts c Hc) as [? Hk]. split; [by constructor|]. by rewrite (kept_cons c t), Hk.
Qed.

Lemma kept_symbols l : Forall isSymbol l → kept l = N_of_ascii <$> l.
Proof.
  induction 1 as [|c l Hc _ IH]; [done|]. rewrite kept_cons, IH. by destruct (symbol_facts c Hc) as (_ & _ & -> & _).
Qed.

Lemma ascii_N_list (l : list ascii) : ascii_of_N <$> (N_of_ascii <$> l) = l.
Proof. induction l as [|c l IH]; [done|]. rewrite !fmap_cons, ascii_N_embedding. by f_equal. Qed.

Lemma upper_symbols l : Forall isSymbol l → ToUpper <$> (N_of_ascii <$> l) = N_of_ascii <$> l.
Proof.
  assert (Forall (λ c, ToUpper (N_of_ascii c) = N_of_ascii c) base32.alphabet) as H
    by (apply (bool_decide_unpack _); vm_compute; exact I).
  rewrite Forall_forall in H. induction 1 as [|c l Hc _ IH]; [done|]. rewrite !fmap_cons, IH, H by done. done.
Qed.

Definition groups (l : list ascii) : list ascii :=
  take 4 l ++ "-"%char :: take 4 (drop 4 l) ++ "-"%char :: take 4 (drop 8 l) ++ "-"%char :: take 4 (drop 12 l).

Lemma grouped_list l :
  length l = 16%nat → grouped (String.string_of_list_ascii l) = String.string_of_list_ascii (groups l).
Proof.
  intros H. do 16 (destruct l as [|? l]; [discriminate H|]). destruct l; [vm_compute; reflexivity|discriminate H].
Qed.

Lemma length_groups l : length l = 16%nat → length (groups l) = 19%nat.
Proof.
  intros H. unfold groups. repeat (rewrite length_app || rewrite length_cons || rewrite length_take || rewrite length_drop). lia.
Qed.

Lemma kept_app l1 l2 : kept (l1 ++ l2) = kept l1 ++ kept l2.
Proof. unfold kept. by rewrite !fmap_app, List.filter_app. Qed.

Lemma kept_groups l : length l = 16%nat → kept (groups l) = kept l.
Proof.
  intros Hl. unfold groups. repeat (rewrite kept_app || rewrite kept_dash). rewrite <- !kept_app. f_equal.
  rewrite (take_ge (drop 12 l)) by (rewrite length_drop; lia).
  pose proof (take_drop 4 (drop 8 l)) as H3. pose proof (take_drop 4 (drop 4 l)) as H2.
  rewrite drop_drop in H2, H3. cbn [Nat.add] in H2, H3. by rewrite H3, H2, take_drop.
Qed.

Lemma groups_inj l l' :
  length l = 16%nat → length l' = 16%nat → Forall isSymbol l → Forall isSymbol l' → groups l = groups l' → l = l'.
Proof.
  intros Hl Hl' Hs Hs' Hg. apply (f_equal kept) in Hg.
  rewrite !kept_groups, !kept_symbols in Hg by done. by rewrite <- (ascii_N_list l), Hg, ascii_N_list.
Qed.

Lemma string_of_list_ascii_length l : String.length (String.string_of_list_ascii l) = length l.
Proof. induction l as [|c l IH]; [done|]. cbn. by rewrite IH. Qed.

(** The encoding of ten bytes: sixteen symbols. *)
Lemma encoded buf :
  length buf = 10%nat →
  ∃ l, base32.EncodeToString buf = String.string_of_list_ascii l ∧ length l = 16%nat ∧ Forall isSymbol l.
Proof.
  intros Hb. destruct (encode_symbols buf 2 Hb) as [Hl Hs].
  exists (String.list_ascii_of_string (base32.EncodeToString buf)).
  by rewrite String.string_of_list_ascii_of_string.
Qed.

Lemma symbols_ascii l : Forall isSymbol l → Forall isASCII l.
Proof. intros H. eapply Forall_impl; [exact H|]. intros c Hc. by apply symbol_facts. Qed.

Lemma generateRecoveryCode_spec buf rest l :
  length buf = 10%nat → base32.EncodeToString buf = String.string_of_list_ascii l → Forall isSymbol l →
  length l = 16%nat →
  generateRecoveryCode (buf ++ rest) = (inr (String.string_of_list_ascii (groups l)), rest).
Proof.
  intros Hb He Hs Hl. unfold generateRecoveryCode. rewrite ReadFull_app by done. rewrite He.
  unfold utf8.runes. rewrite String.list_ascii_of_string_of_list_ascii.
  rewrite runes_go_ascii by (rewrite ?length_fmap; auto using symbols_ascii).
  by rewrite upper_symbols, ascii_N_list, grouped_list.
Qed.

(** A recovery code survives being read out and typed back. Ten bytes of
    entropy give a code of four dashed groups of four base32 symbols; typed in
    any mixture of cases, with the dashes dropped or moved and with spaces, stray
    digits or punctuation added, it is normalised to exactly that code; and two
    draws that differ give codes that differ, so no typing of one code is ever
    taken for another. *)
Lemma recovery_code_roundtrip buf rest :
  length buf = 10%nat →
  ∃ code, generateRecoveryCode (buf ++ rest) = (inr code, rest) ∧
    String.length code = 19%nat ∧
    (∀ typed, retyped (String.list_ascii_of_string code) typed →
       normalizeRecoveryCode (String.string_of_list_ascii typed) = code) ∧
    (∀ buf' rest', length buf' = 10%nat → generateRecoveryCode (buf' ++ rest') = (inr code, rest') → buf' = buf).
Proof.
  intros Hb. destruct (encoded buf Hb) as (l & He & Hl & Hs).
  exists (String.string_of_list_ascii (groups l)). split; [by apply generateRecoveryCode_spec|].
  split; [by rewrite string_of_list_ascii_length, length_groups|]. split.
  - intros typed. rewrite String.list_ascii_of_string_of_list_ascii. intros [Ha Hk]%kept_retyped.
    rewrite normalize_ascii, Hk, kept_groups, kept_symbols, ascii_N_list by done.
    cbv zeta. rewrite <- grouped_list by done.
    by replace (String.length _) with 16%nat by (rewrite <- Hl; symmetry; apply string_of_list_ascii_length).
  - intros buf' rest' Hb'. destruct (encoded buf' Hb') as (l' & He' & Hl' & Hs').
    rewrite (generateRecoveryCode_spec buf' rest' l') by done. intros [= Hg%list_ascii_inj].
    apply (encode_inj _ _ 2); [done..|]. rewrite He, He'. f_equal. by apply groups_inj.
Qed.

(** ** What the repository decides *)

Section Codes.
Context (GenerateCode : string → Time → string + string).

(** [step] is one of the three around [now] and [code] is its code. *)
Definition codeFor (now : Time) (secret code : string) (step : Z) : Prop :=
  let nowStep := Z.quot (Unix now) totpPeriodSeconds in
  step ∈ [nowStep - 1; nowStep; nowStep + 1] ∧ GenerateCode secret (timeUnix (step * totpPeriodSeconds)) = inr code.

Lemma matchStep_spec now secret code :
  timeUnix totpPeriodSeconds ≤ now →
  if matchStep GenerateCode now secret code <? 0
  then ∀ step, ¬ codeFor now secret code step
  else codeFor now secret code (matchStep GenerateCode now secret code).
Proof.
  intros Hnow. unfold matchStep, codeFor. set (nowStep := Z.quot (Unix now) totpPeriodSeconds).
  assert (1 ≤ nowStep) as Hpos.
  { unfold nowStep, Unix, timeUnix, totpPeriodSeconds, unixToInternal, Second in *. Z.to_euclidean_division_equations. lia. }
  match goal with |- context [List.find ?f ?l] => destruct (List.find f l) as [step|] eqn:Hf end; cbn [default from_option id].
  - apply List.find_some in Hf as [Hin Hm]. destruct (GenerateCode _ _) as [|cand] eqn:Hg; [done|].
    apply bool_decide_eq_true in Hm as ->. apply list_elem_of_In in Hin.
    assert (step <? 0 = false) as -> by (apply Z.ltb_ge; set_solver by lia). done.
  - intros step [Hin%list_elem_of_In Hg]. pose proof (List.find_none _ _ Hf step Hin) as Hm. cbn in Hm.
    rewrite Hg in Hm. by rewrite bool_decide_eq_true_2 in Hm.
Qed.

End Codes.

Section Decisions.
Context (IDKey : bytes → bytes → Z → Z → Z → nat → bytes) (GenerateCode : string → Time → string + string).
Context {S : Type} `{!TotpStore S, !TotpStoreLaws S} (r : Repository (S := S)).

Let who := account (store r).
Abbreviation Verify := (Verify IDKey GenerateCode).
Abbreviation matchStep := (matchStep GenerateCode).
Abbreviation decryptSecret := (decryptSecret IDKey).

(** The reference decision: what a code is worth against an account's rows at an
    instant; [None] when the stored secret cannot be read. *)
Definition verdict (now : Time) (code : string) (row : option totpRow) : option (option Z) :=
  match row with
  | None => Some None
  | Some row =>
      match decryptSecret r (secretOf row) with
      | Returns secret =>
          let step := matchStep now secret code in
          Some (if (0 <=? step) && pg.newer step row then Some step else None)
      | _ => None
      end
  end.

(** A step taken: the account's [last_used_step] moves to it, nothing else. *)
Definition took (tid : nat) (step : Z) (w w' : World) (h h' : list Event) : Prop :=
  (∃ row, (view_of who (db w)).1 = Some row ∧
     view_of who (db w') = (Some (row ⟦ last_used_step := Some step ⟧), (view_of who (db w)).2)) ∧
  only who w w' ∧ h' = h ++ [StepRecorded tid who step].

Lemma alone_guar tid (s : @St World Event) : undisturbed tid tid s s.
Proof using Type. done. Qed.

Lemma wp_now ok inv guar tid {A : Set} (k : Time → program A) Q (s : @St World Event) :
  (∀ s1, inv s1 → guar tid s1 s1) →
  (∀ s1 e, ok e → inv s1 → rely inv guar tid s s1 → wp ok inv guar tid (k (env_now e)) Q s1) →
  wp ok inv guar tid (now ← Now; k now) Q s.
Proof using Type.
  intros Hrefl HQ. cbn. intros [w h] e b w' said He Hi Hr [= <- <- <-]. cbn [fst snd]. rewrite app_nil_r.
  split; [done|]. split; [by apply Hrefl|]. by apply HQ.
Qed.

Lemma wp_Verify (ok : Env → Prop) now tid code w h :
  (∀ e, ok e → env_now e = now) →
  wp ok (λ _, True) (undisturbed tid) tid (Verify r code)
    (λ a s, let v := verdict now code (view_of who (db w)).1 in
      match a with
      | inr true => ∃ step, v = Some (Some step) ∧ took tid step w s.1 h s.2
      | inr false => v = Some None ∧ s = (w, h)
      | inl _ => (v = None ∧ s = (w, h)) ∨
                 (faulty ok ∧ (s = (w, h) ∨ ∃ step, v = Some (Some step) ∧ took tid step w s.1 h s.2))
      end) (w, h).
Proof using TotpStoreLaws0.
  intros Hnow. set (Q := λ (a : string + bool) s, _).
  eapply (wp_try_reads _ _ _ _ (λ _ _, eq_refl)); [done|apply LoadSecret_law|].
  intros s1 _ Hr1. undisturbed. cbn [fst snd].
  split; [intros err Hf s2 _ Hr2; undisturbed; right; split; [done|by left]|].
  unfold secretView. fold who. destruct (view_of who (db w)).1 as [row|] eqn:Hrow; cbn [fmap option_fmap option_map].
  2: { intros s2 _ Hr2. undisturbed. done. }
  assert (∀ err, orPanic (decryptSecret r (secretOf row)) = inl err → verdict now code (Some row) = None) as Hbad.
  { intros err. unfold verdict. by destruct (decryptSecret r (secretOf row)). }
  destruct (orPanic _) as [err|secret] eqn:Hd.
  { intros s2 _ Hr2. undisturbed. left. split; [by eapply Hbad|done]. }
  assert (decryptSecret r (secretOf row) = Returns secret) as Hsec by (destruct (decryptSecret r (secretOf row)); by simplify_eq/=).
  apply wp_now; [done|]. intros s2 e He _ Hr2. undisturbed. rewrite (Hnow e He).
  assert (verdict now code (Some row) = Some (if (0 <=? matchStep now secret code) && pg.newer (matchStep now secret code) row
    then Some (matchStep now secret code) else None)) as Hv by (unfold verdict; by rewrite Hsec).
  destruct (Z.ltb_spec (matchStep now secret code) 0) as [Hneg|Hpos].
  { intros s3 _ Hr3. undisturbed. unfold Q. rewrite Hv, (proj2 (Z.leb_gt _ _)) by done. done. }
  rewrite (proj2 (Z.leb_le _ _)) in Hv by done. cbn [andb] in Hv.
  eapply wp_atomically; [done|apply RecordUsedStep_law|]. intros s3 _ Hr3. undisturbed. cbn [fst snd].
  split; [intros err [Hf|[]] s4 _ Hr4; undisturbed; right; split; [done|by left]|].
  intros a w' said Heff Honly. split; [done|]. split; [done|]. intros s4 _ Hr4. undisturbed.
  unfold records in Heff. fold who in Heff. rewrite Hrow in Heff.
  destruct (pg.newer (matchStep now secret code) row) eqn:Hnew.
  - destruct Heff as (-> & Hview & ->).
    assert (took tid (matchStep now secret code) w w' h (h ++ [StepRecorded tid who (matchStep now secret code)])) as Htook
      by (split; [by exists row|done]).
    unfold Q. cbn [fst snd]. rewrite Hv. split; [by eexists|]. intros err Hf. right. split; [done|]. right. by eexists.
  - destruct Heff as (-> & Hd' & ->). destruct Honly as [Hw _]. rewrite Hd', set_db_id in Hw. subst w'.
    unfold Q. cbn [fst snd]. rewrite Hv, app_nil_r. split; [done|]. intros err Hf. right. split; [done|by left].
Qed.

(** A recovery code taken: marked used, nothing else. *)
Definition spent (tid : nat) (hash : string) (w w' : World) (h h' : list Event) : Prop :=
  (∃ t, view_of who (db w') = ((view_of who (db w)).1, <[hash := Some t]> (view_of who (db w)).2)) ∧
  only who w w' ∧ h' = h ++ [CodeConsumed tid who hash].

Definition codeHash (code : string) : string := SHA256Hex (normalizeRecoveryCode code).

Lemma flows_Verify tid code : flows tid (Verify r code).
Proof using TotpStoreLaws0.
  apply flows_try; [eapply flows_atomically, LoadSecret_law|]. intros [sec|]; [|done].
  destruct (orPanic _) as [err|secret]; [done|]. apply flows_bind; [by intros e w; do 3 eexists|].
  intros now. cbv zeta. destruct (Z.ltb_spec (matchStep now secret code) 0); [done|]. eapply flows_atomically, RecordUsedStep_law.
Qed.

Lemma flows_VerifyOrRecover tid code : flows tid (VerifyOrRecover IDKey GenerateCode r code).
Proof using TotpStoreLaws0.
  apply flows_try; [apply flows_Verify|]. intros []; [done|].
  apply flows_try; [eapply flows_atomically, ConsumeRecoveryCode_law|done].
Qed.

(** What a second factor presented at login does, by what it is. *)
Definition outcome (now : Time) (code : string) (tid : nat) (a : string + bool * bool) (w : World) (h : list Event)
    (w' : World) (h' : list Event) : Prop :=
  let v := view_of who (db w) in
  match a with
  | inr (ok, usedRecovery) =>
      match verdict now code v.1 with
      | Some (Some step) => ok = true ∧ usedRecovery = false ∧ took tid step w w' h h'
      | Some None =>
          if decide (v.2 !! codeHash code = Some None)
          then ok = true ∧ usedRecovery = true ∧ spent tid (codeHash code) w w' h h'
          else ok = false ∧ usedRecovery = false ∧ w' = w ∧ h' = h
      | None => False
      end
  | inl _ => False
  end.

Lemma wp_VerifyOrRecover (ok : Env → Prop) now tid code w h :
  (∀ e, ok e → env_now e = now) →
  wp ok (λ _, True) (undisturbed tid) tid (VerifyOrRecover IDKey GenerateCode r code)
    (λ a s, match a with
      | inr _ => outcome now code tid a w h s.1 s.2
      | inl _ => (verdict now code (view_of who (db w)).1 = None ∧ s = (w, h)) ∨
                 (faulty ok ∧ (s = (w, h) ∨ ∃ b, outcome now code tid (inr (true, b)) w h s.1 s.2))
      end) (w, h).
Proof using TotpStoreLaws0.
  intros Hnow. apply wp_let; [done|]. eapply wp_conseq; [|by apply (wp_Verify ok now)].
  intros [err|[]] s _ Ha; cbn in Ha |- *.
  - intros s2 _ Hr2. undisturbed. destruct Ha as [?|[Hf [->|(step & Hv & Ht)]]]; [by left|right; split; [done|by left]|].
    right. split; [done|]. right. exists false. unfold outcome. by rewrite Hv.
  - destruct Ha as (step & Hv & Ht). intros s2 _ Hr2. undisturbed. unfold outcome. by rewrite Hv.
  - destruct Ha as [Hv ->]. eapply wp_try_atomically; [done|done|apply ConsumeRecoveryCode_law|].
    intros s1 _ Hr1. undisturbed. cbn [fst snd]. fold who.
    split; [intros err [Hf|[]] s2 _ Hr2; undisturbed; right; split; [done|by left]|].
    intros a w' said Heff Honly. split; [done|]. split; [done|].
    unfold consumes in Heff. fold who (codeHash code) in Heff. unfold outcome. rewrite Hv.
    destruct (decide ((view_of who (db w)).2 !! codeHash code = Some None)) as [Hc|Hc].
    + rewrite Hc in Heff. destruct Heff as (t & -> & Hview & ->).
      assert (spent tid (codeHash code) w w' h (h ++ [CodeConsumed tid who (codeHash code)])) as Hs
        by (split; [by exists t|done]).
      split; [intros s2 _ Hr2; by undisturbed|]. intros err Hf s2 _ Hr2. undisturbed.
      right. split; [done|]. right. by exists true.
    + assert (a = false ∧ db w' = db w ∧ said = []) as (-> & Hd & ->)
        by (destruct ((view_of who (db w)).2 !! codeHash code) as [[]|]; done).
      destruct Honly as [Hw _]. rewrite Hd, set_db_id in Hw. subst w'. rewrite app_nil_r.
      split; [intros s2 _ Hr2; by undisturbed|]. intros err Hf s2 _ Hr2. undisturbed. right. split; [done|by left].
Qed.

(** C20. The second factor decides as RFC 6238 with single use asks, over any store
    that keeps the contract. A login check always comes back; when every statement
    works and the secret can be read it accepts exactly a code of one of the three
    steps around now that is newer than the last step taken, which it takes, or
    else an unused recovery code however typed, which it spends, never both and
    nothing otherwise; and an error means a failed statement or an unreadable
    secret, and leaves the account untouched unless only the reply was lost. *)
Theorem second_factor_decides (ok : Env → Prop) e now tid code w h :
  ok e → (∀ e, ok e → env_now e = now) →
  let run a w' h' := runs ok tid (VerifyOrRecover IDKey GenerateCode r code) (w, h) a (w', h') in
  let v := view_of who (db w) in
  (∃ a w' h', run a w' h') ∧
  (∀ res w' h', run (inr res) w' h' → outcome now code tid (inr res) w h w' h') ∧
  (∀ err w' h', run (inl err) w' h' →
    (verdict now code v.1 = None ∧ w' = w ∧ h' = h) ∨
    (faulty ok ∧ (w' = w ∧ h' = h ∨ ∃ b, outcome now code tid (inr (true, b)) w h w' h'))) ∧
  (timeUnix totpPeriodSeconds ≤ now → ∀ row secret, v.1 = Some row → decryptSecret r (secretOf row) = Returns secret →
    match verdict now code v.1 with
    | Some (Some step) => codeFor GenerateCode now secret code step ∧ pg.newer step row = true
    | Some None => ∀ step, codeFor GenerateCode now secret code step →
        ∃ first, codeFor GenerateCode now secret code first ∧ pg.newer first row = false
    | None => False
    end).
Proof using TotpStoreLaws0.
  intros He Hnow run v. pose proof (wp_VerifyOrRecover ok now tid code w h Hnow) as Hw.
  split; [|split; [|split]].
  - destruct (flows_runs ok e tid _ (w, h) He (flows_VerifyOrRecover tid code)) as (a & [w' h'] & Hr). by exists a, w', h'.
  - intros res w' h' Hr. exact (runs_wp _ _ _ _ _ _ _ Hw Hr).
  - intros err w' h' Hr. destruct (runs_wp _ _ _ _ _ _ _ Hw Hr) as [[Hv Hs]|[Hf Hs]]; [left; by simplify_eq|].
    right. split; [done|]. destruct Hs as [Hs|Hs]; [left; by simplify_eq|by right].
  - intros Ht row secret Hrow Hsec. rewrite Hrow. unfold verdict. rewrite Hsec.
    pose proof (matchStep_spec GenerateCode now secret code Ht) as Hm.
    destruct (Z.ltb_spec (matchStep now secret code) 0) as [Hneg|Hpos].
    + rewrite (proj2 (Z.leb_gt _ _)) by done. cbn [andb]. intros step Hc. by destruct (Hm step).
    + rewrite (proj2 (Z.leb_le _ _)) by done. cbn [andb].
      destruct (pg.newer (matchStep now secret code) row) eqn:Hn; [done|]. intros step _. by eexists.
Qed.

(** Whether a code may disable the factor: it needs to be valid, not to be
    spent. *)
Definition mayDisable (now : Time) (code : string) (v : view) : bool :=
  match v.1 with
  | None => false
  | Some _ =>
      match verdict now code v.1 with
      | Some (Some _) => true
      | _ => bool_decide (v.2 !! codeHash code = Some None)
      end
  end.

Definition wiped (w w' : World) (h h' : list Event) : Prop :=
  view_of who (db w') = (None, ∅) ∧ only who w w' ∧ h' = h ++ [Wiped who].

(** How a run of the disabling ends. *)
Definition disabled (ok : Env → Prop) (now : Time) (code : string) (w : World) (h : list Event)
    (a : string + bool) (s : @St World Event) : Prop :=
  let may := mayDisable now code (view_of who (db w)) in
  match a with
  | inr true => may = true ∧ wiped w s.1 h s.2
  | inr false => may = false ∧ s = (w, h)
  | inl _ => faulty ok ∧ (s = (w, h) ∨ (may = true ∧ wiped w s.1 h s.2))
  end.

Lemma wp_DisableIfAuthorized (ok : Env → Prop) now tid code w h :
  (∀ e, ok e → env_now e = now) →
  wp ok (λ _, True) (undisturbed tid) tid
    (DisableIfAuthorized (store r) (authorizeCode IDKey GenerateCode r code)) (disabled ok now code w h) (w, h).
Proof using TotpStoreLaws0.
  intros Hnow. apply DisableIfAuthorized_law; [done..| |].
  { intros Hf s1 _ Hr1 err. undisturbed. split; [done|by left]. }
  intros s1 _ Hr1. undisturbed. cbn [fst snd]. fold who. destruct (view_of who (db w)).1 as [row|] eqn:Hrow.
  2: { intros s2 _ Hr2. undisturbed. unfold disabled, mayDisable. by rewrite Hrow. }
  intros probe Hprobe. apply wp_now; [done|]. intros s2 e He _ Hr2. undisturbed. rewrite (Hnow e He).
  set (stepOk := match orPanic (decryptSecret r (secretOf row)) with inl _ => false | inr secret => _ end).
  assert (mayDisable now code (view_of who (db w)) =
    stepOk || bool_decide ((view_of who (db w)).2 !! codeHash code = Some None)) as Hmay.
  { unfold mayDisable, verdict, stepOk. rewrite Hrow. destruct (decryptSecret r (secretOf row)); [|done..].
    cbn [orPanic]. unfold pg.newer. by destruct (_ && _). }
  destruct stepOk; cbn [negb orb] in *.
  - intros s3 _ Hr3 s4 _ Hr4. undisturbed. split; [intros Hf err; split; [done|by left]|].
    intros w' Hv Ho. split; [done|]. split; [done|]. intros s5 _ Hr5. undisturbed.
    split; [done|]. intros Hf err. split; [done|]. by right.
  - eapply wp_atomically; [done|apply Hprobe|]. intros s3 _ Hr3. undisturbed. cbn [fst snd].
    split; [intros err [Hf|[]] s4 _ Hr4 s5 _ Hr5; undisturbed; split; [intros _ err'|]; (split; [done|by left])|].
    intros a w' said (-> & Hd & ->) [Hw _]. rewrite Hd, set_db_id in Hw. subst w'. rewrite app_nil_r.
    split; [done|]. split; [done|]. intros s4 _ Hr4. undisturbed. split.
    2: { intros err Hf s5 _ Hr5. undisturbed. split; [intros _ err'|]; (split; [done|by left]). }
    intros s5 _ Hr5. undisturbed. split; [intros Hf err; split; [done|by left]|].
    unfold unusedOf. fold who (codeHash code). rewrite <- Hmay.
    destruct (mayDisable now code (view_of who (db w))) eqn:Hm; [|unfold disabled; by rewrite Hm].
    intros w' Hv Ho. split; [done|]. split; [done|]. intros s6 _ Hr6. undisturbed. unfold disabled. rewrite Hm.
    split; [done|]. intros Hf err. split; [done|]. by right.
Qed.

Lemma wp_DisableWithCode (ok : Env → Prop) now tid code w h :
  (∀ e, ok e → env_now e = now) →
  wp ok (λ _, True) (undisturbed tid) tid (DisableWithCode IDKey GenerateCode r code) (disabled ok now code w h) (w, h).
Proof using TotpStoreLaws0.
  intros Hnow. apply wp_let; [done|]. eapply wp_conseq; [|by apply wp_DisableIfAuthorized].
  intros [err|b] s _ Ha s2 _ Hr2; by undisturbed.
Qed.

Lemma flows_DisableWithCode tid code : flows tid (DisableWithCode IDKey GenerateCode r code).
Proof using TotpStoreLaws0.
  apply flows_try; [|done]. apply DisableIfAuthorized_flows. intros sec last probe Hp.
  apply flows_bind; [by intros e w; do 3 eexists|]. intros now. cbv zeta. by case_match.
Qed.

(** Disabling the second factor is all or nothing. It always comes back, and
    whichever of its statements fail - the begin, the reads, either deletion, the
    commit - the account afterwards either is exactly what it was or has neither
    secret nor recovery codes; the latter only for a code that is currently valid
    or an unused recovery code, reported as done unless the commit's reply was
    lost; and a code that is not accepted changes nothing and is no error. *)
Lemma disable_all_or_nothing (ok : Env → Prop) e now tid code w h :
  ok e → (∀ e, ok e → env_now e = now) →
  let run a w' h' := runs ok tid (DisableWithCode IDKey GenerateCode r code) (w, h) a (w', h') in
  let v := view_of who (db w) in
  (∃ a w' h', run a w' h') ∧
  ∀ a w' h', run a w' h' →
    ((w' = w ∧ h' = h) ∨ (mayDisable now code v = true ∧ wiped w w' h h')) ∧
    (∀ b, a = inr b → b = mayDisable now code v ∧ if b then wiped w w' h h' else w' = w ∧ h' = h) ∧
    (∀ err, a = inl err → faulty ok).
Proof using TotpStoreLaws0.
  intros He Hnow run v. pose proof (wp_DisableWithCode ok now tid code w h Hnow) as Hw. split.
  - destruct (flows_runs ok e tid _ (w, h) He (flows_DisableWithCode tid code)) as (a & [w' h'] & Hr). by exists a, w', h'.
  - intros a w' h' Hr. pose proof (runs_wp _ _ _ _ _ _ _ Hw Hr) as Hd. unfold disabled in Hd. fold v in Hd.
    destruct a as [err|[]]; cbn [fst snd] in Hd.
    + destruct Hd as [Hf Hd]. split; [|by split]. destruct Hd as [Hd|Hd]; [left; by simplify_eq|by right].
    + destruct Hd as [Hm Hd]. split; [by right|]. split; [intros b Hb; by simplify_eq|done].
    + destruct Hd as [Hm Hd]. simplify_eq. split; [by left|]. split; [intros b Hb; by simplify_eq|done].
Qed.
End Decisions.

(** ** Concrete inputs *)

Definition demoGenerateCode (secret : string) (t : Time) : string + string :=
  inr (pretty (Z.to_N ((Unix t / totpPeriodSeconds) `mod` 1000000))).

Definition demoSecret : string := "JBSWY3DPEHPK3PXP".

Definition demoRow : totpRow :=
  match (Encryption.Encrypt demoIDKey demoSecret "master" (counting 50)).1 with
  | Returns kp => MkTotp (Ciphertext kp) (Nonce kp) (Salt kp) true 0 (Some 0) (Some 56666665)
  | _ => MkTotp [] [] [] false 0 None None
  end.

(** The code of ten counted bytes, typed in lower case with spaces. *)
Definition demoRecovery : string := "AAAQ-EAYE-AUDA-OCAJ".
Definition demoTyped : string := "aaaq eaye auda ocaj".

Definition freshThrottle : LoginThrottle.Throttle := LoginThrottle.NewThrottle 5 Second (5 * Minute).

Definition demoWorld : World :=
  MkWorld (emptyDB ⟦ admin_totp := Some demoRow ⟧ ⟦ admin_totp_recovery := {[ SHA256Hex demoRecovery := None ]} ⟧)
    true ∅ freshThrottle freshThrottle freshThrottle freshThrottle None 0 ∅.

Definition demoNow : Time := timeUnix 1700000000.
Definition demoEnv (f : Fate) : Env := MkEnv demoNow f [] None.
Definition demoRepository : Repository := MkRepository (MkPgAccount None) "master".

Definition atDemo (f : Fate → Prop) (e : Env) : Prop := env_now e = demoNow ∧ f (env_fate e).

Lemma recovery_code_roundtrip_witness :
  ∃ code, generateRecoveryCode (counting 10 ++ []) = (inr code, []) ∧ String.length code = 19%nat.
Proof.
  destruct (recovery_code_roundtrip (counting 10) [] eq_refl) as (code & Hg & Hl & _). by exists code.
Defined.

Example demoTyped_normal : normalizeRecoveryCode demoTyped = demoRecovery.
Proof. vm_compute. reflexivity. Qed.

(** A current code is accepted and its step taken. *)
Lemma second_factor_decides_witness :
  ∃ w', outcome demoIDKey demoGenerateCode demoRepository demoNow "666666" 7 (inr (true, false)) demoWorld []
    w' [StepRecorded 7 None 56666666].
Proof.
  destruct (exec 7 (VerifyOrRecover demoIDKey demoGenerateCode demoRepository "666666")
    (replicate 3 (demoEnv Works)) (demoWorld, [])) as [[a [w' h']]|] eqn:He; [|exfalso; vm_compute in He; discriminate He].
  assert (a = inr (true, false) ∧ h' = [StepRecorded 7 None 56666666]) as [-> ->]
    by (vm_compute in He; injection He as <- _ <-; by split).
  exists w'. apply (exec_runs (atDemo (eq Works))) in He; [|by repeat constructor].
  destruct (second_factor_decides demoIDKey demoGenerateCode demoRepository (atDemo (eq Works)) (demoEnv Works)
    demoNow 7 "666666" demoWorld []) as (_ & H & _); [done|by intros e [? _]|]. by apply H.
Defined.

(** A recovery code disables the factor although the commit's reply is lost. *)
Lemma disable_all_or_nothing_witness :
  ∃ err w' h', wiped demoRepository demoWorld w' [] h' ∧
    runs (atDemo (λ _, True)) 7 (DisableWithCode demoIDKey demoGenerateCode demoRepository demoTyped) (demoWorld, [])
      (inl err) (w', h').
Proof.
  destruct (exec 7 (DisableWithCode demoIDKey demoGenerateCode demoRepository demoTyped)
    (replicate 6 (demoEnv Works) ++ [demoEnv Unheard]) (demoWorld, [])) as [[a [w' h']]|] eqn:He;
    [|exfalso; vm_compute in He; discriminate He].
  assert (∃ err, a = inl err ∧ h' = [Wiped None]) as (err & -> & ->)
    by (vm_compute in He; injection He as <- _ <-; by eexists).
  apply (exec_runs (atDemo (λ _, True))) in He; [|by repeat constructor]. exists err, w', [Wiped None]. split; [|exact He].
  destruct (disable_all_or_nothing demoIDKey demoGenerateCode demoRepository (atDemo (λ _, True)) (demoEnv Works)
    demoNow 7 demoTyped demoWorld []) as [_ H]; [done|by intros e [? _]|].
  destruct (H _ _ _ He) as [[[_ Hh]|[_ Hw]] _]; [discriminate Hh|exact Hw].
Defined.
