(* ===== verification/SecondFactorSystem.v ===== *)
(** * The second factor among concurrent requests

    Any number of requests of internal/totp's repository, of any accounts, over
    any store that keeps the contract, interleaved statement by statement and
    failing anywhere. An abstract machine says what single use means; the tables
    refine it. *)

From S2P Require Import Prelude Crypto Encryption Threads LoginThrottle AuthWorld TotpStore SecondFactor.

(** ** Single use, as a machine *)

(** What an account has used up: the last TOTP step, and the recovery codes of
    the current set. *)
Abbreviation usage := (option Z * gset string)%type (only parsing).

Section Machine.
Context (who : option string).

Definition use (u : usage) (e : Event) : usage :=
  match e with
  | Enrolled w => if decide (w = who) then (None, u.2) else u
  | StepRecorded _ w step => if decide (w = who) then (Some step, u.2) else u
  | CodesReplaced w => if decide (w = who) then (u.1, ∅) else u
  | CodeConsumed _ w hash => if decide (w = who) then (u.1, {[ hash ]} ∪ u.2) else u
  | Wiped w => if decide (w = who) then (None, ∅) else u
  | _ => u
  end.

(** A step is newer than the last; a code was not used. *)
Definition allowed (u : usage) (e : Event) : Prop :=
  match e with
  | StepRecorded _ w step => w = who → match u.1 with None => True | Some last => last < step end
  | CodeConsumed _ w hash => w = who → hash ∉ u.2
  | _ => True
  end.

Fixpoint legal (u : usage) (h : list Event) : Prop :=
  match h with
  | [] => True
  | e :: h => allowed u e ∧ legal (use u e) h
  end.

(** What the tables say has been used up. *)
Definition usageOf (v : view) : usage :=
  (v.1 ≫= last_used_step, dom (filter (λ hu, is_Some hu.2) v.2)).

Lemma legal_app u h h' : legal u (h ++ h') ↔ legal u h ∧ legal (foldl use u h) h'.
Proof. revert u. induction h as [|e h IH]; intros u; cbn; [tauto|]. rewrite IH. tauto. Qed.

(** The two readings of legality. *)
Definition restarts (e : Event) : Prop := e = Enrolled who ∨ e = Wiped who.
Definition renews (e : Event) : Prop := e = CodesReplaced who ∨ e = Wiped who.

Lemma use_keeps_step u h last :
  legal u h → Forall (λ e, ¬ restarts e) h → (∃ l, u.1 = Some l ∧ last ≤ l) →
  ∃ l, (foldl use u h).1 = Some l ∧ last ≤ l.
Proof.
  revert u. induction h as [|e h IH]; intros u; cbn; [done|]. intros [Ha Hl] [Hn Hf]%Forall_cons Hu.
  apply IH; [done..|]. destruct e as [w|by_ w step|w|by_ w hash|w| | | |]; cbn in *; try done;
    (case_decide; [subst|done]); cbn; try done.
  - by destruct Hn; left.
  - destruct Hu as (l & Hu & Hle). specialize (Ha eq_refl). rewrite Hu in Ha. exists step. split; [done|lia].
  - by destruct Hn; right.
Qed.

Lemma use_keeps_code u h hash :
  Forall (λ e, ¬ renews e) h → hash ∈ u.2 → hash ∈ (foldl use u h).2.
Proof.
  revert u. induction h as [|e h IH]; intros u; cbn; [done|]. intros [Hn Hf]%Forall_cons Hu.
  apply IH; [done|]. destruct e as [w|by_ w step|w|by_ w x|w| | | |]; cbn in *; try done;
    (case_decide; [subst|done]); cbn; try done.
  - by destruct Hn; left.
  - set_solver.
  - by destruct Hn; right.
Qed.

Lemma legal_steps u h h1 h2 h3 i j si sj :
  legal u h → h = h1 ++ StepRecorded i who si :: h2 ++ StepRecorded j who sj :: h3 →
  Forall (λ e, ¬ restarts e) h2 → si < sj.
Proof.
  intros Hl -> Hf. rewrite legal_app in Hl. destruct Hl as [_ [_ Hl]]. rewrite legal_app in Hl.
  destruct Hl as [Hl2 [Ha _]]. cbn in Ha. specialize (Ha eq_refl).
  destruct (use_keeps_step (use (foldl use u h1) (StepRecorded i who si)) h2 si Hl2 Hf) as (l & Hu & Hle).
  { cbn. rewrite decide_True by done. cbn. by exists si. }
  cbn in Hu. rewrite Hu in Ha. lia.
Qed.

Lemma legal_codes u h h1 h2 h3 i j x y :
  legal u h → h = h1 ++ CodeConsumed i who x :: h2 ++ CodeConsumed j who y :: h3 →
  Forall (λ e, ¬ renews e) h2 → x ≠ y.
Proof.
  intros Hl -> Hf ->. rewrite legal_app in Hl. destruct Hl as [_ [_ Hl]]. rewrite legal_app in Hl.
  destruct Hl as [Hl2 [Ha _]]. cbn in Ha. apply (Ha eq_refl).
  apply (use_keeps_code (use (foldl use u h1) (CodeConsumed i who y))); [done|].
  cbn. rewrite decide_True by done. cbn. set_solver.
Qed.
End Machine.

(** ** The tables refine it *)

(** A row is enabled exactly when it says since when. *)
Definition row_ok (v : view) : Prop :=
  match v.1 with Some row => enabled row = true ↔ is_Some (confirmed_at row) | None => True end.

Section System.
Context (d0 : DB).

(** The history is legal for every account from what its rows said at the start,
    and the rows say what the history used up. *)
Definition faithful (s : @St World Event) : Prop :=
  ∀ who, let v := view_of who (db s.1) in
    row_ok v ∧ legal who (usageOf (view_of who d0)) s.2 ∧
    foldl (use who) (usageOf (view_of who d0)) s.2 = usageOf v.

(** History only grows. *)
Definition grows (tid : nat) (s s' : @St World Event) : Prop := ∃ said, s'.2 = s.2 ++ said.

(** What a statement says concerns its own account. *)
Lemma faithful_step who w w' h said :
  faithful (w, h) → only who w w' →
  (∀ other u, other ≠ who → foldl (use other) u said = u ∧ legal other u said) →
  (let v := view_of who (db w) in let v' := view_of who (db w') in
   row_ok v → row_ok v' ∧ legal who (usageOf v) said ∧ foldl (use who) (usageOf v) said = usageOf v') →
  faithful (w', h ++ said).
Proof.
  intros Hf (_ & Ho & _) Hothers Hown a. cbn [fst snd].
  destruct (Hf a) as (Hrow & Hl & Hu). cbn [fst snd] in *. rewrite legal_app, foldl_app, Hu.
  destruct (decide (a = who)) as [->|Hne].
  - destruct (Hown Hrow) as (? & ? & ?). by repeat split.
  - destruct (Hothers a (usageOf (view_of a (db w))) Hne) as [-> ?]. rewrite Ho by done. by repeat split.
Qed.

(** ** The operations *)

(** A contract whose events are the account's own and agree with what becomes of
    its rows. *)
Definition careful (who : option string) {A} (eff : contract A) : Prop :=
  ∀ tid d a d' said, eff tid d a d' said →
    (∀ other u, other ≠ who → foldl (use other) u said = u ∧ legal other u said) ∧
    (let v := view_of who d in let v' := view_of who d' in
     row_ok v → row_ok v' ∧ legal who (usageOf v) said ∧ foldl (use who) (usageOf v) said = usageOf v').

Ltac others := let o := fresh "o" in let u := fresh "u" in let Ho := fresh "Ho" in
  intros o u Ho; cbn; rewrite ?decide_False by congruence; done.

Lemma careful_silent who {A} (eff : contract A) :
  (∀ tid d a d' said, eff tid d a d' said → d' = d ∧ said = []) → careful who eff.
Proof using Type. intros He tid d a d' said [-> ->]%He. split; [others|]. by cbn. Qed.

Lemma careful_reads who {A} (g : view → A) : careful who (reads who g).
Proof using Type. apply careful_silent. by intros tid d a d' said (_ & ? & ?). Qed.

Lemma careful_upserts who c n sa : careful who (upserts who c n sa).
Proof using Type.
  intros tid d [] d' said [[t Hv] ->]. split; [others|]. intros v v' Hrow. subst v v'. rewrite Hv. cbn.
  rewrite !decide_True by done. split; [|done]. split; [done|]. by intros [].
Qed.

Lemma careful_enables who : careful who (enables who).
Proof using Type.
  intros tid d a d' said He. unfold enables in He. destruct (view_of who d) as [[row|] m] eqn:Hd; cbn in He.
  - destruct He as (t & -> & Hv & ->). split; [others|]. rewrite ?Hd, Hv. cbn. split; [|done]. split; [by eexists|done].
  - destruct He as (-> & -> & ->). split; [others|]. rewrite ?Hd. by cbn.
Qed.

Lemma careful_records who step : careful who (records who step).
Proof using Type.
  intros tid d a d' said He. unfold records in He. destruct (view_of who d) as [[row|] m] eqn:Hd; cbn in He.
  2: { destruct He as (-> & -> & ->). split; [others|]. rewrite ?Hd. by cbn. }
  destruct (pg.newer step row) eqn:Hn; destruct He as (-> & Hv & ->); [|subst d'; split; [others|]; rewrite ?Hd; by cbn].
  split; [others|]. rewrite ?Hd, Hv. cbn. rewrite decide_True by done. intros Hrow. split; [done|]. split; [|done].
  split; [|done]. intros _. unfold pg.newer in Hn. destruct (last_used_step row); [|done]. by apply Z.ltb_lt.
Qed.

Lemma careful_wipes who {A} (b : A) : careful who (wipes who b).
Proof using Type.
  intros tid d a d' said (-> & Hv & ->). split; [others|]. intros v v' _. subst v v'. rewrite Hv. cbn.
  rewrite decide_True by done. split; [done|]. split; [done|]. unfold usageOf. cbn.
  by rewrite map_filter_empty, dom_empty_L.
Qed.

Lemma careful_replaces who hashes : careful who (replaces who hashes).
Proof using Type.
  intros tid d [] d' said (_ & Hr & Hm & ->). split; [others|]. intros v v' Hrow. subst v v'.
  unfold row_ok, usageOf in *. rewrite Hr. split; [done|]. cbn. rewrite decide_True by done. split; [done|].
  f_equal. symmetry. apply dom_empty_iff_L, map_empty. intros x. apply map_lookup_filter_None. right.
  intros u Hx [t Ht]. rewrite Hm in Hx. case_decide; by simplify_eq/=.
Qed.

Lemma careful_consumes who hash : careful who (consumes who hash).
Proof using Type.
  intros tid d a d' said He. unfold consumes in He. destruct (view_of who d) as [row m] eqn:Hd; cbn in He.
  destruct (m !! hash) as [[t|]|] eqn:Hh; [by destruct He as (_ & -> & ->); split; [others|]; rewrite ?Hd; cbn| |
    by destruct He as (_ & -> & ->); split; [others|]; rewrite ?Hd; cbn].
  destruct He as (t & -> & Hv & ->). split; [others|]. rewrite ?Hd, Hv. intros v v' Hrow. split; [done|].
  cbn. rewrite decide_True by done. unfold usageOf. cbn. split.
  - split; [|done]. intros _ [x [Hx Hs]%map_lookup_filter_Some]%elem_of_dom. rewrite Hh in Hx. simplify_eq. by destruct Hs.
  - f_equal. rewrite map_filter_insert_True by (by eexists). by rewrite dom_insert_L.
Qed.

(** An operation that keeps a careful contract keeps the history faithful. *)
Lemma careful_step who {A} (eff : contract A) tid w w' h a said :
  careful who eff → faithful (w, h) → eff tid (db w) a (db w') said → only who w w' → faithful (w', h ++ said).
Proof using Type.
  intros Hc Hf He Ho. destruct (Hc _ _ _ _ _ He) as [Hothers Hown]. by apply (faithful_step who w w').
Qed.

Context (ok : Env → Prop).
Abbreviation safely tid := (wp ok faithful grows tid).

Lemma grows_refl tid s : faithful s → grows tid s s.
Proof using Type. exists []. by rewrite app_nil_r. Qed.

Lemma rely_said tid s s' e : rely faithful grows tid s s' → e ∈ s.2 → e ∈ s'.2.
Proof using Type.
  intros Hr. induction Hr as [|s s1 s2 (_ & other & _ & said & Hs) _ IH]; [done|].
  intros He. apply IH. rewrite Hs. apply elem_of_app. by left.
Qed.

Lemma safely_op tid who refuses {A : Set} (eff : contract A) p Q s :
  atomically who refuses eff p → careful who eff →
  (∀ s1, faithful s1 → rely faithful grows tid s s1 →
    (∀ err s2, faithful s2 → rely faithful grows tid s1 s2 → Q (inl err) s2) ∧
    (∀ a w' said s2, eff tid (db s1.1) a (db w') said → only who s1.1 w' →
       faithful s2 → rely faithful grows tid (w', s1.2 ++ said) s2 → Q (inr a) s2 ∧ ∀ err, Q (inl err) s2)) →
  safely tid p Q s.
Proof using Type.
  intros Hp Hc HQ. eapply wp_atomically; [apply grows_refl|exact Hp|]. intros [w h] Hi1 Hr1.
  destruct (HQ _ Hi1 Hr1) as [Herr Hok]. split; [intros err _; apply Herr|].
  intros a w' said He Ho. split; [by eapply careful_step|]. split; [by exists said|].
  intros s3 Hi3 Hr3. destruct (Hok a w' said s3 He Ho Hi3 Hr3) as [H1 H2]. split; [done|]. intros err _. apply H2.
Qed.

(** Whatever it answers. *)
Lemma safely_any tid who refuses {A : Set} (eff : contract A) p s :
  atomically who refuses eff p → careful who eff → safely tid p (λ _ _, True) s.
Proof using Type. intros Hp Hc. by eapply safely_op. Qed.

(** ** Requests *)

Context (IDKey : bytes → bytes → Z → Z → Z → nat → bytes).
Context (Generate : string → string → Entropy → (string + string * string) * Entropy).
Context (GenerateCode : string → Time → string + string).
Context {S : Type} `{!TotpStore S, !TotpStoreLaws S}.

Inductive reply := Checked (res : string + bool * bool) | Answered.

(** The entry points of [totp.Repository], for any account. *)
Inductive serves (r : Repository (S := S)) : prog (Env := Env) (World := World) (Event := Event) reply → Prop :=
| serve_check code : serves r (res ← VerifyOrRecover IDKey GenerateCode r code; Ret (Checked res))
| serve_verify code : serves r (_ ← Verify IDKey GenerateCode r code; Ret Answered)
| serve_enroll name : serves r (_ ← EnrollAs IDKey Generate r name; Ret Answered)
| serve_enable : serves r (_ ← EnableTotp r; Ret Answered)
| serve_disable : serves r (_ ← DisableTotp r; Ret Answered)
| serve_disable_with code : serves r (_ ← DisableWithCode IDKey GenerateCode r code; Ret Answered)
| serve_codes : serves r (_ ← GenerateRecoveryCodes r; Ret Answered)
| serve_info : serves r (_ ← Info r; Ret Answered)
| serve_enabled : serves r (_ ← IsEnabled (store r); Ret Answered)
| serve_enabled_at : serves r (_ ← EnabledAt (store r); Ret Answered).

(** An accepted code was taken by this very request. *)
Definition accepted (who : option string) (tid : nat) (a : reply) (s : @St World Event) : Prop :=
  match a with
  | Checked (inr (true, false)) => ∃ step, StepRecorded tid who step ∈ s.2
  | Checked (inr (true, true)) => ∃ hash, CodeConsumed tid who hash ∈ s.2
  | Checked (inr (false, true)) => False
  | _ => True
  end.

Definition request (t : task (R := reply)) : Prop :=
  ∃ r, serves r (body t) ∧ promise t = accepted (account (store r)).

Lemma safely_try_any {A B : Set} tid p (k : A → program (string + B)%type) s :
  faithful s → safely tid p (λ _ _, True) s →
  (∀ a s1, faithful s1 → safely tid (k a) (λ _ _, True) s1) → safely tid (let? a := p in k a) (λ _ _, True) s.
Proof using Type.
  intros Hi Hp Hk. apply wp_let; [done|]. eapply wp_conseq; [|exact Hp]. intros [err|a] s1 Hi1 _; [done|by apply Hk].
Qed.

Lemma safely_then {A : Set} tid (p : program A) s (b : reply) (Q : reply → @St World Event → Prop) :
  faithful s → (∀ s1, Q b s1) → safely tid p (λ _ _, True) s → safely tid (_ ← p; Ret b) Q s.
Proof using Type.
  intros Hi HQ Hp. apply wp_seq; [done|]. eapply wp_conseq; [|exact Hp]. intros a s1 _ _ s2 _ _. apply HQ.
Qed.

Lemma safely_Verify (r : Repository (S := S)) tid code s :
  faithful s → safely tid (Verify IDKey GenerateCode r code)
    (λ a s1, a = inr true → ∃ step, StepRecorded tid (account (store r)) step ∈ s1.2) s.
Proof using TotpStoreLaws0.
  intros Hi. eapply (wp_try_reads _ _ _ _ (grows_refl tid)); [done|apply LoadSecret_law|].
  intros s1 Hi1 Hr1. split; [by intros|]. destruct (secretView _) as [sec|]; [|by intros s2 _ _].
  destruct (orPanic _) as [err|secret]; [by intros s2 _ _|]. apply wp_now; [apply grows_refl|].
  intros s2 e _ Hi2 Hr2. cbv zeta. destruct (_ <? 0); [by intros s3 _ _|].
  eapply safely_op; [apply RecordUsedStep_law|apply careful_records|]. intros s3 Hi3 Hr3.
  split; [done|]. intros a w' said s4 He Ho Hi4 Hr4. split; [|done]. intros [= ->].
  unfold records in He. destruct (view_of _ _).1 as [row|]; [|by destruct He]. destruct (pg.newer _ row); [|by destruct He].
  destruct He as (_ & _ & ->). eexists. eapply rely_said; [exact Hr4|]. cbn. apply elem_of_app. right. by left.
Qed.

Lemma safely_check (r : Repository (S := S)) tid code s :
  faithful s → safely tid (VerifyOrRecover IDKey GenerateCode r code)
    (λ a, accepted (account (store r)) tid (Checked a)) s.
Proof using TotpStoreLaws0.
  intros Hi. apply wp_let; [done|]. eapply wp_conseq; [|by apply safely_Verify].
  intros [err|[]] s1 Hi1 Ha; cbn in Ha |- *; [by intros| |].
  - intros s2 Hi2 Hr2. destruct (Ha eq_refl) as [step He]. exists step. by eapply rely_said.
  - apply wp_let; [done|]. eapply safely_op; [apply ConsumeRecoveryCode_law|apply careful_consumes|].
    intros s2 Hi2 Hr2. split; [done|]. intros a w' said s3 He Ho Hi3 Hr3. split; [|done].
    intros s4 Hi4 Hr4. unfold consumes in He.
    destruct ((view_of _ _).2 !! _) as [[]|]; [by destruct He as [-> _]| |by destruct He as [-> _]].
    destruct He as (t & -> & _ & ->). eexists. eapply rely_said; [exact Hr4|]. eapply rely_said; [exact Hr3|].
    cbn. apply elem_of_app. right. by left.
Qed.

Lemma safely_DisableWithCode (r : Repository (S := S)) tid code s :
  faithful s → safely tid (DisableWithCode IDKey GenerateCode r code) (λ _ _, True) s.
Proof using TotpStoreLaws0.
  intros Hi. apply safely_try_any; [done| |by intros]. apply DisableIfAuthorized_law; [done|apply grows_refl|done|].
  intros s1 Hi1 Hr1. destruct (view_of _ _).1 as [row|]; [|done]. intros probe Hprobe.
  assert (∀ answer s2, ∀ s3, faithful s3 → rely faithful grows tid s2 s3 →
    (faulty ok → string → True) ∧ match answer : string + bool with
    | inl _ => True | inr false => True
    | inr true => ∀ w', view_of (account (store r)) (db w') = (None, ∅) → only (account (store r)) s3.1 w' →
        faithful (w', s3.2 ++ [Wiped (account (store r))]) ∧ grows tid s3 (w', s3.2 ++ [Wiped (account (store r))]) ∧
        ∀ s4, faithful s4 → rely faithful grows tid (w', s3.2 ++ [Wiped (account (store r))]) s4 → True ∧ (faulty ok → string → True)
    end) as Hans.
  { intros [|[]] s2 [w3 h3] Hi3 Hr3; (split; [done|]); [done| |done]. intros w' Hv Ho. split; [|split; [by eexists|done]].
    by eapply (careful_step _ (wipes _ true) tid w3 w' h3 true), Ho; [apply careful_wipes| |]. }
  apply wp_now; [apply grows_refl|]. intros s2 e _ Hi2 Hr2. cbv zeta. destruct (negb _).
  - eapply safely_op; [apply Hprobe|apply careful_reads|]. intros s3 Hi3 Hr3. split; [by intros err s4 _ _ s5 _ _|].
    intros a w' said s4 He Ho Hi4 Hr4. split; [intros s5 Hi5 Hr5; exact (Hans (inr a) s4 s5 Hi5 Hr5)|by intros err s5 _ _].
  - intros s3 Hi3 Hr3 s4 Hi4 Hr4. exact (Hans (inr true) s3 s4 Hi4 Hr4).
Qed.

Lemma serves_safely (r : Repository (S := S)) p tid s :
  serves r p → faithful s → safely tid p (accepted (account (store r)) tid) s.
Proof using TotpStoreLaws0.
  intros Hs Hi. destruct Hs as [code|code|name| | |code| | | |].
  - apply wp_seq; [done|]. eapply wp_conseq; [|by apply (safely_check r tid code)].
    intros a s1 Hi1 Ha s2 Hi2 Hr2. destruct a as [|[[] []]]; cbn in *; try done;
      destruct Ha as [x Ha]; exists x; by eapply rely_said.
  - apply safely_then; [done..|]. eapply wp_conseq; [|by apply safely_Verify]. done.
  - apply safely_then; [done..|]. intros [w h] e b w' said He Hi1 Hr1 [= <- <- <-]. cbn [fst snd]. rewrite app_nil_r.
    split; [done|]. split; [by apply grows_refl|]. cbn. destruct (Generate _ _ _) as [[err|[url secret]] rnd]; [by intros s2|].
    destruct (orPanic _) as [err|kp]; [by intros s2|]. apply safely_try_any; [done| |by intros].
    eapply safely_any; [apply UpsertEnrollment_law|apply careful_upserts].
  - apply safely_then; [done..|]. apply safely_try_any; [done| |by intros [] s1 Hi1 s2].
    eapply safely_any; [apply Enable_law|apply careful_enables].
  - apply safely_then; [done..|]. apply safely_try_any; [done| |by intros].
    eapply safely_any; [apply Disable_law|apply careful_wipes].
  - apply safely_then; [done..|]. by apply safely_DisableWithCode.
  - apply safely_then; [done..|]. intros [w h] e b w' said He Hi1 Hr1 [= <- <- <-]. cbn [fst snd]. rewrite app_nil_r.
    split; [done|]. split; [by apply grows_refl|]. cbn -[generateCodes]. destruct (generateCodes 10 (env_entropy e)).1 as [err|codes]; [by intros s2|].
    apply safely_try_any; [done| |by intros]. eapply safely_any; [apply ReplaceRecoveryCodes_law|apply careful_replaces].
  - apply safely_then; [done..|]. apply safely_try_any; [done| |].
    { eapply safely_any; [apply RecoveryCounts_law|apply careful_reads]. }
    intros [remaining total] s1 Hi1. apply safely_try_any; [done| |by intros].
    eapply safely_any; [apply LastUsedStep_law|apply careful_reads].
  - apply safely_then; [done..|]. eapply safely_any; [apply IsEnabled_law|apply careful_reads].
  - apply safely_then; [done..|]. eapply safely_any; [apply EnabledAt_law|apply careful_reads].
Qed.

End System.

(** ** Every interleaving *)

Section Interleavings.
Context (ok : Env → Prop).
Context (IDKey : bytes → bytes → Z → Z → Z → nat → bytes).
Context (Generate : string → string → Entropy → (string + string * string) * Entropy).
Context (GenerateCode : string → Time → string + string).
Context {S : Type} `{!TotpStore S, !TotpStoreLaws S}.

(** The requests in flight, the process and the history, reached from tables
    [w0] whose rows are well typed. *)
Definition interleaved (w0 : World) (ts : list (task (R := reply))) (w : World) (h : list Event) : Prop :=
  (∀ who, row_ok (view_of who (db w0))) ∧
  rtc (pool_step ok (request IDKey Generate GenerateCode (S := S))) ([], (w0, [])) (ts, (w, h)).

Lemma pool_faithful w0 ts w h :
  interleaved w0 ts w h →
  faithful (db w0) (w, h) ∧ ∀ tid t a, ts !! tid = Some t → body t = Ret a → promise t tid a (w, h).
Proof using TotpStoreLaws0.
  intros [Hrow Hr].
  assert (∀ t, request IDKey Generate GenerateCode t → ∀ tid s, faithful (db w0) s →
    wp ok (faithful (db w0)) grows tid (body t) (promise t tid) s) as Hreq
    by (intros t (r & Hs & ->) tid s Hi; exact (serves_safely _ _ _ _ _ r _ tid s Hs Hi)).
  assert (faithful (db w0) (w0, [])) as Hi by (intros who; repeat split; apply Hrow).
  split; [exact (proj1 (pool_sound _ _ _ _ _ _ _ Hi Hreq Hr))|].
  intros tid t a Ht Hb. exact (pool_promise _ _ _ _ _ _ _ tid t a Hi Hreq Hr Ht Hb).
Qed.


(** C22. The TOTP rows stay well typed: in every state any interleaving of requests
    reaches from well-typed tables, an account's row is enabled exactly when it
    holds the time of its confirmation, which is the time sessions are dated
    against, and what [IsEnabled] and [EnabledAt] read agree. *)
Theorem rows_typed w0 ts w h who :
  interleaved w0 ts w h →
  row_ok (view_of who (db w)) ∧
  enabledOf (view_of who (db w)) = bool_decide (is_Some (enabledAtOf (view_of who (db w)))).
Proof using TotpStoreLaws0.
  intros Hp. destruct (pool_faithful w0 ts w h Hp) as [Hf _]. destruct (Hf who) as [Hrow _]. cbn [fst snd] in Hrow.
  split; [done|]. unfold row_ok, enabledOf, enabledAtOf in *. destruct (view_of who (db w)).1 as [row|]; [|done].
  destruct (enabled row); [|done]. symmetry. apply bool_decide_eq_true. by apply Hrow.
Qed.
End Interleavings.


(** ** A race for one code *)

(** Two logins with the same code, and one with a recovery code. *)
Definition demoCheck (code : string) : @task Env World Event reply :=
  MkTask (res ← VerifyOrRecover demoIDKey demoGenerateCode demoRepository code; Ret (Checked res))
    (accepted (account (store demoRepository))).

Definition demoRace : list (@task Env World Event reply + nat * Env) :=
  map inl [demoCheck "666666"; demoCheck "666666"; demoCheck demoTyped] ++
  map (λ tid, inr (tid, demoEnv Works)) [0; 1; 0; 1; 2; 1; 2; 0; 2; 0]%nat.

Definition demoAnswers (c : option (list (@task Env World Event reply) * @St World Event)) : option (list (option reply) * list Event) :=
  match c with
  | Some (ts, (_, h)) => Some (map (λ t, match body t with Ret a => Some a | Atom _ _ => None end) ts, h)
  | None => None
  end.

Example demoRace_once : demoAnswers (play demoRace ([], (demoWorld, []))) =
  Some ([Some (Checked (inr (false, false))); Some (Checked (inr (true, false))); Some (Checked (inr (true, true)))],
    [StepRecorded 1 None 56666666; CodeConsumed 2 None (SHA256Hex demoRecovery)]).
Proof. vm_compute. reflexivity. Qed.

Lemma demoWorld_typed who : row_ok (view_of who (db demoWorld)).
Proof. destruct who as [uid|]; [done|]. vm_compute. split; [intros _; by eexists|done]. Qed.

Definition demoEnd : option (list (@task Env World Event reply) * @St World Event) :=
  play demoRace ([], (demoWorld, [])).

Definition demoFinal (c : list (@task Env World Event reply) * @St World Event) : Prop :=
  c.2.2 = [StepRecorded 1 None 56666666; CodeConsumed 2 None (SHA256Hex demoRecovery)] ∧
  c.1 !! 1%nat = Some (MkTask (Ret (Checked (inr (true, false)))) (accepted None)).

Lemma demoEnd_says : match demoEnd with Some c => demoFinal c | None => False end.
Proof. vm_compute. split; reflexivity. Qed.

Lemma demoCheck_request code :
  request demoIDKey (λ _ _ rnd, (inl EmptyString, rnd)) demoGenerateCode (S := PgAccount) (demoCheck code).
Proof. exists demoRepository. split; [apply serve_check|reflexivity]. Qed.

Lemma demoRace_allowed :
  Forall (λ m, match m with
    | inl t => request demoIDKey (λ _ _ rnd, (inl EmptyString, rnd)) demoGenerateCode (S := PgAccount) t
    | inr (_, e) => atDemo (eq Works) e
    end) demoRace.
Proof.
  apply Forall_app. split; [repeat (apply Forall_cons; split; [apply demoCheck_request|]); apply Forall_nil_2|].
  repeat (apply Forall_cons; split; [by split|]). apply Forall_nil_2.
Qed.

Lemma demoEnd_plays : demoEnd = play demoRace ([], (demoWorld, [])).
Proof. reflexivity. Qed.

Lemma demoRace_reached :
  ∃ ts w, interleaved (atDemo (eq Works)) demoIDKey (λ _ _ rnd, (inl EmptyString, rnd)) demoGenerateCode
      (S := PgAccount) demoWorld ts w [StepRecorded 1 None 56666666; CodeConsumed 2 None (SHA256Hex demoRecovery)] ∧
    ts !! 1%nat = Some (MkTask (Ret (Checked (inr (true, false)))) (accepted None)).
Proof.
  destruct (ends_in demoEnd demoFinal demoEnd_says) as ([ts [w h]] & Hp & Hh & Ht). cbn [fst snd] in Hh, Ht. subst h.
  exists ts, w. split; [|exact Ht]. split; [exact demoWorld_typed|]. rewrite demoEnd_plays in Hp.
  exact (play_steps _ _ demoRace _ _ demoRace_allowed Hp).
Qed.


Lemma rows_typed_witness :
  ∃ ts w h, interleaved (atDemo (eq Works)) demoIDKey (λ _ _ rnd, (inl EmptyString, rnd)) demoGenerateCode
      (S := PgAccount) demoWorld ts w h ∧ h ≠ [] ∧ row_ok (view_of None (db w)).
Proof.
  destruct demoRace_reached as (ts & w & Hi & _). eexists ts, w, _. split; [exact Hi|].
  split; [discriminate|]. by apply (rows_typed _ _ _ _ _ ts w _ None Hi).
Defined.
