(* ===== verification/SessionStore.v ===== *)
(** * Where sessions live

    The statements of internal/webauthn/webauthn.go (the gateway's PostgreSQL
    store) and of the WebAuthn half of internal/frontdesk/authstore.go (the front
    desk's SQLite store) on the sessions table, and the contract both keep: each
    operation is one atomic statement. *)

From S2P Require Import Prelude Crypto Encryption Threads LoginThrottle AuthWorld TotpStore.

Abbreviation sessions := (gmap string SessionRecord) (only parsing).

Definition byId (id : string) (m : sessions) : option (string * SessionRecord) :=
  match m !! id with Some s => Some (id, s) | None => None end.

(** [SELECT ... WHERE token_hash = $1 AND type = 'auth_token']: the unique index on
    token_hash leaves at most one row. *)
Definition byTokenHash (hash : string) (m : sessions) : option (string * SessionRecord) :=
  head (filter (λ kv, TokenHash kv.2 = Some hash ∧ Type_ kv.2 = "auth_token") (map_to_list m)).

(** What the primary key and that index refuse. *)
Definition collides (id : string) (s : SessionRecord) (m : sessions) : bool :=
  bool_decide (is_Some (m !! id)) ||
  match TokenHash s with
  | None => false
  | Some h => existsb (λ kv, bool_decide (TokenHash kv.2 = Some h)) (map_to_list m)
  end.

Definition newerFirst (a b : string * SessionRecord) : Prop := CreatedAt b.2 ≤ CreatedAt a.2.
#[export] Instance newerFirst_dec : RelDecision newerFirst := λ a b, decide (CreatedAt b.2 ≤ CreatedAt a.2).

(** The live logins of an identity, newest first. *)
Definition listed (userID : string) (now : Time) (m : sessions) : list (string * SessionRecord) :=
  merge_sort newerFirst
    (filter (λ kv, UserID kv.2 = userID ∧ Type_ kv.2 = "auth_token" ∧ now < ExpiresAt kv.2) (map_to_list m)).

(** The rows a sign-out elsewhere leaves: NULL is distinct from any kept hash. *)
Definition othersGone (userID keep : string) (m : sessions) : sessions :=
  filter (λ kv, ¬ (UserID kv.2 = userID ∧ Type_ kv.2 = "auth_token" ∧ TokenHash kv.2 ≠ Some keep)) m.

Definition unexpired (now : Time) (m : sessions) : sessions := filter (λ kv, ¬ ExpiresAt kv.2 < now) m.

(** An [UPDATE] of one row; none is no error. *)
Definition alterSession (f : SessionRecord → SessionRecord) (id : string) (d : DB) : DB :=
  d ⟦ webauthn_sessions := alter f id (webauthn_sessions d) ⟧.

Definition dropSession (tid : nat) (id : string) (d : DB) : bool * DB * list Event :=
  match webauthn_sessions d !! id with
  | None => (false, d, [])
  | Some _ => (true, d ⟦ webauthn_sessions := delete id (webauthn_sessions d) ⟧, [Dropped tid id])
  end.

(** [false] and [None] stand for [ErrNotFound]. *)
Class SessionStore (S : Type) := {
  CreateSession : S → string → SessionRecord → program (string + unit)%type;
  GetSession : S → string → program (string + option (string * SessionRecord))%type;
  GetSessionByTokenHash : S → string → program (string + option (string * SessionRecord))%type;
  ListAuthSessionsForUser : S → string → program (string + list (string * SessionRecord))%type;
  TouchSessionLastSeen : S → string → Time → program (string + unit)%type;
  ExtendSession : S → string → Time → program (string + unit)%type;
  DeleteSession : S → string → program (string + bool)%type;
  DeleteOtherSessionsForUser : S → string → string → program (string + nat)%type;
  CleanupExpiredSessions : S → program (string + nat)%type
}.

(** ** PostgreSQL *)

Record webauthnRepository := NewRepository { }.

Module pgSessions.

(** timestamptz counts microseconds. *)
Definition stamp (t : Time) : Time := t - t `mod` 1000.

Definition CreateSession (_ : webauthnRepository) (id : string) (s : SessionRecord) : program (string + unit)%type :=
  statement "create session" (λ _ e d,
    if collides id s (webauthn_sessions d) then None else
    let row := MkSession (Challenge s) (SessionData s) (Type_ s) (UserID s) (TokenHash s) (CredentialID s)
                 (stamp (ExpiresAt s)) (pg.NOW e) (UserAgent s) (IP s) None in
    Some (tt, d ⟦ webauthn_sessions := <[id := row]> (webauthn_sessions d) ⟧, [])).

Definition GetSession (_ : webauthnRepository) (id : string) : program (string + option (string * SessionRecord))%type :=
  query "get session" (λ _ d, byId id (webauthn_sessions d)).

Definition GetSessionByTokenHash (_ : webauthnRepository) (tokenHash : string) : program (string + option (string * SessionRecord))%type :=
  query "get session" (λ _ d, byTokenHash tokenHash (webauthn_sessions d)).

Definition ListAuthSessionsForUser (_ : webauthnRepository) (userID : string) : program (string + list (string * SessionRecord))%type :=
  query "list sessions" (λ e d, listed userID (pg.NOW e) (webauthn_sessions d)).

Definition TouchSessionLastSeen (_ : webauthnRepository) (id : string) (at_ : Time) : program (string + unit)%type :=
  statement "touch session" (λ _ _ d,
    Some (tt, alterSession (λ s, s ⟦ LastSeenAt := Some (stamp at_) ⟧) id d, [])).

Definition ExtendSession (_ : webauthnRepository) (id : string) (expiresAt : Time) : program (string + unit)%type :=
  statement "extend session" (λ _ _ d,
    Some (tt, alterSession (λ s, s ⟦ ExpiresAt := stamp expiresAt ⟧) id d, [])).

Definition DeleteSession (_ : webauthnRepository) (id : string) : program (string + bool)%type :=
  statement "delete session" (λ tid _ d, Some (dropSession tid id d)).

(** Revokes every session of a user, whatever its kind; the dashboard's users
    live in PostgreSQL only. *)
Definition DeleteSessionsByUserID (_ : webauthnRepository) (userID : string) : program (string + nat)%type :=
  statement "delete sessions" (λ _ _ d,
    let gone := filter (λ kv, UserID kv.2 = userID) (webauthn_sessions d) in
    Some (size gone, d ⟦ webauthn_sessions := webauthn_sessions d ∖ gone ⟧, [])).

Definition DeleteOtherSessionsForUser (_ : webauthnRepository) (userID keepTokenHash : string) : program (string + nat)%type :=
  statement "delete sessions" (λ tid _ d,
    let left_ := othersGone userID keepTokenHash (webauthn_sessions d) in
    Some ((size (webauthn_sessions d) - size left_)%nat, d ⟦ webauthn_sessions := left_ ⟧,
      [SignedOut tid userID keepTokenHash])).

Definition CleanupExpiredSessions (_ : webauthnRepository) : program (string + nat)%type :=
  statement "cleanup sessions" (λ _ e d,
    let left_ := unexpired (pg.NOW e) (webauthn_sessions d) in
    Some ((size (webauthn_sessions d) - size left_)%nat, d ⟦ webauthn_sessions := left_ ⟧, [])).

End pgSessions.

#[export] Instance pg_sessions : SessionStore webauthnRepository := {
  CreateSession := pgSessions.CreateSession;
  GetSession := pgSessions.GetSession;
  GetSessionByTokenHash := pgSessions.GetSessionByTokenHash;
  ListAuthSessionsForUser := pgSessions.ListAuthSessionsForUser;
  TouchSessionLastSeen := pgSessions.TouchSessionLastSeen;
  ExtendSession := pgSessions.ExtendSession;
  DeleteSession := pgSessions.DeleteSession;
  DeleteOtherSessionsForUser := pgSessions.DeleteOtherSessionsForUser;
  CleanupExpiredSessions := pgSessions.CleanupExpiredSessions
}.

(** ** SQLite *)

Record WebAuthnStore := NewWebAuthnStore { }.

(** Instants are kept to the nanosecond, and the process's own clock dates the
    rows. *)
Module sqliteSessions.

Definition CreateSession (_ : WebAuthnStore) (id : string) (s : SessionRecord) : program (string + unit)%type :=
  statement "frontdesk: create session" (λ _ e d,
    if collides id s (webauthn_sessions d) then None else
    let row := MkSession (Challenge s) (SessionData s) (Type_ s) (UserID s) (TokenHash s) (CredentialID s)
                 (ExpiresAt s) (env_now e) (UserAgent s) (IP s) None in
    Some (tt, d ⟦ webauthn_sessions := <[id := row]> (webauthn_sessions d) ⟧, [])).

Definition GetSession (_ : WebAuthnStore) (id : string) : program (string + option (string * SessionRecord))%type :=
  query "get session" (λ _ d, byId id (webauthn_sessions d)).

Definition GetSessionByTokenHash (_ : WebAuthnStore) (tokenHash : string) : program (string + option (string * SessionRecord))%type :=
  query "get session" (λ _ d, byTokenHash tokenHash (webauthn_sessions d)).

Definition ListAuthSessionsForUser (_ : WebAuthnStore) (userID : string) : program (string + list (string * SessionRecord))%type :=
  query "frontdesk: list auth sessions" (λ e d, listed userID (env_now e) (webauthn_sessions d)).

Definition TouchSessionLastSeen (_ : WebAuthnStore) (id : string) (at_ : Time) : program (string + unit)%type :=
  statement "frontdesk: touch session last-seen" (λ _ _ d,
    Some (tt, alterSession (λ s, s ⟦ LastSeenAt := Some at_ ⟧) id d, [])).

Definition ExtendSession (_ : WebAuthnStore) (id : string) (expiresAt : Time) : program (string + unit)%type :=
  statement "frontdesk: extend session" (λ _ _ d,
    Some (tt, alterSession (λ s, s ⟦ ExpiresAt := expiresAt ⟧) id d, [])).

Definition DeleteSession (_ : WebAuthnStore) (id : string) : program (string + bool)%type :=
  statement "delete session" (λ tid _ d, Some (dropSession tid id d)).

Definition DeleteOtherSessionsForUser (_ : WebAuthnStore) (userID keepTokenHash : string) : program (string + nat)%type :=
  statement "frontdesk: revoke other sessions" (λ tid _ d,
    let left_ := othersGone userID keepTokenHash (webauthn_sessions d) in
    Some ((size (webauthn_sessions d) - size left_)%nat, d ⟦ webauthn_sessions := left_ ⟧,
      [SignedOut tid userID keepTokenHash])).

Definition CleanupExpiredSessions (_ : WebAuthnStore) : program (string + nat)%type :=
  statement "frontdesk: cleanup expired sessions" (λ _ e d,
    let left_ := unexpired (env_now e) (webauthn_sessions d) in
    Some ((size (webauthn_sessions d) - size left_)%nat, d ⟦ webauthn_sessions := left_ ⟧, [])).

End sqliteSessions.

#[export] Instance sqlite_sessions : SessionStore WebAuthnStore := {
  CreateSession := sqliteSessions.CreateSession;
  GetSession := sqliteSessions.GetSession;
  GetSessionByTokenHash := sqliteSessions.GetSessionByTokenHash;
  ListAuthSessionsForUser := sqliteSessions.ListAuthSessionsForUser;
  TouchSessionLastSeen := sqliteSessions.TouchSessionLastSeen;
  ExtendSession := sqliteSessions.ExtendSession;
  DeleteSession := sqliteSessions.DeleteSession;
  DeleteOtherSessionsForUser := sqliteSessions.DeleteOtherSessionsForUser;
  CleanupExpiredSessions := sqliteSessions.CleanupExpiredSessions
}.

(** ** The contract *)

(** What a store keeps of an instant: the microsecond at least. *)
Definition rounded (t t' : Time) : Prop := t - 1000 < t' ≤ t.

Abbreviation effect A := (nat → Env → DB → A → DB → list Event → Prop) (only parsing).

(** One autocommit statement: it has its effect or, refused by a constraint, none. *)
Definition does (refuses : DB → Prop) {A : Set} (eff : effect A) (p : program (string + A)%type) : Prop :=
  ∃ failed sql, p = statement failed sql ∧
    ∀ tid e d, match sql tid e d with
    | Some (a, d', said) => eff tid e d a d' said
    | None => refuses d
    end.

Definition looks {A} (g : Time → sessions → A) : effect A := λ _ e d a d' said,
  d' = d ∧ said = [] ∧ ∃ now, rounded (env_now e) now ∧ a = g now (webauthn_sessions d).

(** The row an insertion stores. *)
Definition asStored (s : SessionRecord) (now : Time) (row : SessionRecord) : Prop :=
  rounded (ExpiresAt s) (ExpiresAt row) ∧ rounded now (CreatedAt row) ∧
  row = s ⟦ ExpiresAt := ExpiresAt row ⟧ ⟦ CreatedAt := CreatedAt row ⟧ ⟦ LastSeenAt := None ⟧.

Definition creates (id : string) (s : SessionRecord) : effect unit := λ _ e d _ d' said,
  said = [] ∧ collides id s (webauthn_sessions d) = false ∧
  ∃ row, asStored s (env_now e) row ∧ d' = d ⟦ webauthn_sessions := <[id := row]> (webauthn_sessions d) ⟧.

Definition touches (id : string) (at_ : Time) : effect unit := λ _ _ d _ d' said,
  said = [] ∧ ∃ t, rounded at_ t ∧ d' = alterSession (λ s, s ⟦ LastSeenAt := Some t ⟧) id d.

Definition extends (id : string) (at_ : Time) : effect unit := λ _ _ d _ d' said,
  said = [] ∧ ∃ t, rounded at_ t ∧ d' = alterSession (λ s, s ⟦ ExpiresAt := t ⟧) id d.

Definition drops (id : string) : effect bool := λ tid _ d a d' said, (a, d', said) = dropSession tid id d.

Definition thins {A} (left_ : Time → sessions → sessions) (say : nat → list Event) : effect A := λ tid e d _ d' said,
  said = say tid ∧ ∃ now, rounded (env_now e) now ∧ d' = d ⟦ webauthn_sessions := left_ now (webauthn_sessions d) ⟧.

Class SessionStoreLaws (S : Type) `{!SessionStore S} := {
  CreateSession_law st id s : does (λ d, collides id s (webauthn_sessions d) = true) (creates id s) (CreateSession st id s);
  GetSession_law st id : does never (looks (λ _ m, byId id m)) (GetSession st id);
  GetSessionByTokenHash_law st hash : does never (looks (λ _ m, byTokenHash hash m)) (GetSessionByTokenHash st hash);
  ListAuthSessionsForUser_law st userID : does never (looks (listed userID)) (ListAuthSessionsForUser st userID);
  TouchSessionLastSeen_law st id at_ : does never (touches id at_) (TouchSessionLastSeen st id at_);
  ExtendSession_law st id at_ : does never (extends id at_) (ExtendSession st id at_);
  DeleteSession_law st id : does never (drops id) (DeleteSession st id);
  DeleteOtherSessionsForUser_law st userID keep :
    does never (thins (λ _, othersGone userID keep) (λ tid, [SignedOut tid userID keep])) (DeleteOtherSessionsForUser st userID keep);
  CleanupExpiredSessions_law st : does never (thins unexpired (λ _, [])) (CleanupExpiredSessions st)
}.

Lemma rounded_refl t : rounded t t.
Proof. unfold rounded. lia. Qed.

Lemma rounded_stamp t : rounded t (pgSessions.stamp t).
Proof. unfold rounded, pgSessions.stamp. pose proof (Z.mod_pos_bound t 1000). lia. Qed.

Lemma rounded_NOW e : rounded (env_now e) (pg.NOW e).
Proof. exact (rounded_stamp (env_now e)). Qed.

#[local] Hint Resolve rounded_refl rounded_stamp rounded_NOW : core.

(** Each operation is a statement by definition; what is left is its effect. *)
Ltac by_statement := intros; eexists _, _; split; [reflexivity|]; intros tid e d; cbn.

#[export] Instance pg_session_laws : SessionStoreLaws webauthnRepository.
Proof.
  split; by_statement.
  - destruct (collides _ _ _) eqn:Hc; [done|]. split; [done|]. split; [done|]. eexists. split; [|reflexivity]. split; [|split]; cbn; auto.
  - split; [done|]. split; [done|]. by exists (env_now e).
  - split; [done|]. split; [done|]. by exists (env_now e).
  - split; [done|]. split; [done|]. by exists (pg.NOW e).
  - split; [done|]. eexists. split; [|reflexivity]. auto.
  - split; [done|]. eexists. split; [|reflexivity]. auto.
  - by destruct (dropSession tid id d) as [[]] eqn:Hd.
  - split; [done|]. by exists (env_now e).
  - split; [done|]. by exists (pg.NOW e).
Qed.

#[export] Instance sqlite_session_laws : SessionStoreLaws WebAuthnStore.
Proof.
  split; by_statement.
  - destruct (collides _ _ _) eqn:Hc; [done|]. split; [done|]. split; [done|]. eexists. split; [|reflexivity]. split; [|split]; cbn; auto.
  - split; [done|]. split; [done|]. by exists (env_now e).
  - split; [done|]. split; [done|]. by exists (env_now e).
  - split; [done|]. split; [done|]. by exists (env_now e).
  - split; [done|]. eexists. split; [|reflexivity]. auto.
  - split; [done|]. eexists. split; [|reflexivity]. auto.
  - by destruct (dropSession tid id d) as [[]] eqn:Hd.
  - split; [done|]. by exists (env_now e).
  - split; [done|]. by exists (env_now e).
Qed.

(** ** The rule for such a statement *)

Section Rules.
Context (ok : Env → Prop) (inv : @St World Event → Prop) (guar : nat → @St World Event → @St World Event → Prop) (tid : nat).
Context (Hrefl : ∀ s1, inv s1 → guar tid s1 s1).

Lemma wp_does refuses {A : Set} (eff : effect A) p Q s :
  does refuses eff p →
  (∀ s1, inv s1 → rely inv guar tid s s1 →
    (∀ err, faulty ok ∨ refuses (db s1.1) → ∀ s2, inv s2 → rely inv guar tid s1 s2 → Q (inl err) s2) ∧
    ∀ e a d' said, ok e → eff tid e (db s1.1) a d' said →
      let s2 := (s1.1 ⟦ db := d' ⟧, s1.2 ++ said) in
      inv s2 ∧ guar tid s1 s2 ∧
      ∀ s3, inv s3 → rely inv guar tid s2 s3 → Q (inr a) s3 ∧ ∀ err, faulty ok → Q (inl err) s3) →
  wp ok inv guar tid p Q s.
Proof using Hrefl.
  intros (failed & sql & -> & Heff) HQ. cbn. intros [w h] e r w' said He Hi1 Hr1 Hf. cbn [fst snd] in *.
  destruct (HQ (w, h) Hi1 Hr1) as [Herr Hok]. specialize (Heff tid e (db w)). cbn [fst snd] in *.
  destruct (sql tid e (db w)) as [[[a d'] said']|].
  - destruct (Hok e a d' said' He Heff) as (Hi2 & Hg & HQ2).
    assert (env_fate e ≠ Works → faulty ok) as Hfy by (intros; by exists e).
    destruct (env_fate e) eqn:Hfate; simplify_eq/=.
    + do 2 (split; [done|]). intros s3 Hi3 Hr3. by apply HQ2.
    + rewrite app_nil_r. split; [done|]. split; [by apply Hrefl|]. intros s3 Hi3 Hr3.
      apply Herr; [left; by apply Hfy|done..].
    + do 2 (split; [done|]). intros s3 Hi3 Hr3. apply HQ2; [done..|]. by apply Hfy.
  - assert (w' = w ∧ said = [] ∧ r = inl failed) as (-> & -> & ->) by (destruct (env_fate e); by simplify_eq/=).
    rewrite app_nil_r. split; [done|]. split; [by apply Hrefl|]. intros s3 Hi3 Hr3. by apply Herr; [right|..].
Qed.

(** A lookup, whose answer was true at some moment. *)
Lemma wp_looks {A : Set} (g : Time → sessions → A) p Q s :
  does never (looks g) p →
  (∀ s1, inv s1 → rely inv guar tid s s1 →
    (∀ err, faulty ok → ∀ s2, inv s2 → rely inv guar tid s1 s2 → Q (inl err) s2) ∧
    ∀ e now, ok e → rounded (env_now e) now → ∀ s2, inv s2 → rely inv guar tid s1 s2 → Q (inr (g now (webauthn_sessions (db s1.1)))) s2) →
  wp ok inv guar tid p Q s.
Proof using Hrefl.
  intros Hp HQ. eapply wp_does; [exact Hp|]. intros [w h] Hi1 Hr1. destruct (HQ _ Hi1 Hr1) as [Herr Hok].
  split; [intros err [Hf|[]]; by apply Herr|]. intros e a d' said He (-> & -> & now & Hnow & ->). cbn [fst snd].
  rewrite app_nil_r, set_db_id. split; [done|]. split; [by apply Hrefl|]. intros s3 Hi3 Hr3.
  split; [by eapply Hok|]. intros err Hf. by apply Herr.
Qed.

Lemma wp_Now {B} (k : Time → program B) Q s :
  (∀ s1 e, ok e → inv s1 → rely inv guar tid s s1 → wp ok inv guar tid (k (env_now e)) Q s1) →
  wp ok inv guar tid (now ← Now; k now) Q s.
Proof using Hrefl.
  intros HQ. cbn. intros [w h] e b w' said He Hi1 Hr1 [= <- <- <-]. cbn [fst snd]. rewrite app_nil_r.
  split; [done|]. split; [by apply Hrefl|]. by apply HQ.
Qed.

Lemma wp_Rand {B} (k : bytes → program B) Q s :
  (∀ s1 e, ok e → inv s1 → rely inv guar tid s s1 → wp ok inv guar tid (k (env_entropy e)) Q s1) →
  wp ok inv guar tid (rnd ← Rand; k rnd) Q s.
Proof using Hrefl.
  intros HQ. cbn. intros [w h] e b w' said He Hi1 Hr1 [= <- <- <-]. cbn [fst snd]. rewrite app_nil_r.
  split; [done|]. split; [by apply Hrefl|]. by apply HQ.
Qed.
End Rules.

Lemma does_flows refuses {A : Set} (eff : effect A) tid p : does refuses eff p → flows tid p.
Proof. intros (failed & sql & -> & _). apply flows_statement. Qed.

(** ** What lookups find *)

Lemma byTokenHash_Some hash m id s :
  byTokenHash hash m = Some (id, s) → m !! id = Some s ∧ TokenHash s = Some hash ∧ Type_ s = "auth_token".
Proof.
  unfold byTokenHash. intros Hh. apply head_Some_elem_of in Hh.
  apply list_elem_of_filter in Hh as [[H1 H2] Hm]. by apply elem_of_map_to_list in Hm.
Qed.

Lemma byTokenHash_None hash m id s :
  byTokenHash hash m = None → m !! id = Some s → TokenHash s = Some hash → Type_ s = "auth_token" → False.
Proof.
  unfold byTokenHash. intros Hh Hm Ht Hty. assert ((id, s) ∈ filter (λ kv, TokenHash kv.2 = Some hash ∧ Type_ kv.2 = "auth_token") (map_to_list m)) as He
    by (apply list_elem_of_filter; split; [done|by apply elem_of_map_to_list]).
  destruct (filter _ _); [by apply not_elem_of_nil in He|done].
Qed.

Lemma collides_false id s m :
  collides id s m = false → m !! id = None ∧ ∀ h id' s', TokenHash s = Some h → m !! id' = Some s' → TokenHash s' ≠ Some h.
Proof.
  unfold collides. intros [Hid Hh]%orb_false_iff. split; [apply bool_decide_eq_false in Hid; by apply eq_None_not_Some|].
  intros h id' s' Hs Hm Heq. rewrite Hs in Hh.
  assert (existsb (λ kv : string * SessionRecord, bool_decide (TokenHash kv.2 = Some h)) (map_to_list m) = true) as Ht;
    [|by rewrite Ht in Hh].
  apply existsb_exists. exists (id', s'). split; [by apply list_elem_of_In, elem_of_map_to_list|]. by apply bool_decide_eq_true.
Qed.
