(* ===== verification/Sessions.v ===== *)
(** * The session manager (internal/webauthn/session.go)

    Minting, validating, sliding, listing and revoking login sessions, and the
    single-use login state of the single-sign-on flows, over any store that keeps
    the contract of SessionStore.v. *)

From S2P Require Import Prelude Crypto Encryption Threads LoginThrottle AuthWorld TotpStore SecondFactor SessionStore.

Definition AuthTokenTTL : Duration := 72 * Hour.
Definition AuthTokenMaxLifetime : Duration := 30 * 24 * Hour.
Definition lastSeenThrottle : Duration := 5 * Minute.
Definition minSlide : Duration := Minute.

Record AuthResult := MkAuthResult {
  res_UserID : string;
  res_ExpiresAt : Time;
  Extended : bool
}.

Record SessionMeta := MkMeta { meta_UserAgent : string; meta_IP : string }.

Record AuthSessionInfo := MkSessionInfo {
  info_ID : string;
  info_UserAgent : string;
  info_IP : string;
  info_CreatedAt : Time;
  info_LastSeenAt : option Time;
  Current : bool
}.

Definition errInvalidLoginState : string := "invalid or expired login state".
Definition ErrNotFound : string := "webauthn record not found".

Inductive revocation := RevokedIt | NoSuchSession | ErrCurrentSession.

(** The digests of the non-empty tokens a request carried. *)
Definition candidateHashes (tokens : list string) : list string :=
  SHA256Hex <$> filter (λ t, t ≠ "") tokens.

(** The minimal JSON object an auth token stores in its NOT NULL column. *)
Definition authTokenData : bytes :=
  let q := String (ascii_of_N 34) EmptyString in
  String.list_byte_of_string ("{" +:+ q +:+ "type" +:+ q +:+ ":" +:+ q +:+ "auth_token" +:+ q +:+ "}").

Section Manager.
Context {S : Type} `{!SessionStore S}.

Record SessionManager := NewSessionManager { sessionStore : S }.

(** What is due to a session that has just been used: [None], or its next expiry
    if that is worth writing. *)
Definition slideDue (session : SessionRecord) (now : Time) : option (option Time) :=
  let lifetimeEnd := Add (CreatedAt session) AuthTokenMaxLifetime in
  let lastSeenAge := t ← LastSeenAt session; TrustedAge now t in
  if match lastSeenAge with None => true | Some age => lastSeenThrottle <=? age end then
    let next := Add now AuthTokenTTL in
    let next := if negb (IsZero (CreatedAt session)) && After next lifetimeEnd then lifetimeEnd else next in
    Some (if After next (Add (ExpiresAt session) minSlide) then Some next else None)
  else None.

Definition authenticate (m : SessionManager) (token : string) (slide : bool) : program (option AuthResult) :=
  if decide (token = "") then Ret None else
  let tokenHash := SHA256Hex token in
  found ← GetSessionByTokenHash (sessionStore m) tokenHash;
  match found with
  | inl _ | inr None => Ret None
  | inr (Some (id, session)) =>
      now ← Now;
      if Before (ExpiresAt session) now then Ret None else
      let lifetimeEnd := Add (CreatedAt session) AuthTokenMaxLifetime in
      if negb (IsZero (CreatedAt session)) && Before lifetimeEnd now then Ret None else
      if decide (TokenHash session = Some tokenHash) then
        let res := MkAuthResult (UserID session) (ExpiresAt session) false in
        if negb slide then Ret (Some res) else
        match slideDue session now with
        | None => Ret (Some res)
        | Some due =>
            _ ← TouchSessionLastSeen (sessionStore m) id now;
            match due with
            | None => Ret (Some res)
            | Some next =>
                extended ← ExtendSession (sessionStore m) id next;
                Ret (Some match extended with
                     | inl _ => res
                     | inr _ => MkAuthResult (UserID session) next true
                     end)
            end
        end
      else Ret None
  end.

Definition Authenticate (m : SessionManager) (token : string) : program (option AuthResult) := authenticate m token true.
Definition VerifySession (m : SessionManager) (token : string) : program (option AuthResult) := authenticate m token false.

Definition Validate (m : SessionManager) (token : string) : program bool :=
  res ← authenticate m token true;
  Ret (bool_decide (is_Some res)).

Definition TokenUser (m : SessionManager) (token : string) : program (option string) :=
  res ← Authenticate m token;
  Ret (match res with Some r => Some (res_UserID r) | None => None end).

(** The token, and for the theorems the id of its row. *)
Definition CreateAuthToken (m : SessionManager) (userID : string) (credentialID : option bytes) (meta : SessionMeta)
  : program (string + string * string)%type :=
  rnd ← Rand;
  match (MintHexToken 32 rnd).1 with
  | inl err => Ret (inl err)
  | inr (token, tokenHash) =>
      let? id := NewRandom in
      rnd ← Rand;
      match (RandomHex 32 rnd).1 with
      | inl err => Ret (inl err)
      | inr challenge =>
          now ← Now;
          let? _ := CreateSession (sessionStore m) id
            (MkSession challenge authTokenData "auth_token" userID (Some tokenHash)
               credentialID (Add now AuthTokenTTL) zeroTime (meta_UserAgent meta) (meta_IP meta) None) in
          Ret (inr (token, id))
      end
  end.

Definition CreateLoginState (m : SessionManager) (data : bytes) (ttl : Duration) : program (string + string)%type :=
  let? id := NewRandom in
  rnd ← Rand;
  match (RandomHex 32 rnd).1 with
  | inl err => Ret (inl err)
  | inr challenge =>
      now ← Now;
      let? _ := CreateSession (sessionStore m) id
        (MkSession challenge data "oidc_login" "admin" None None (Add now ttl) zeroTime "" "" None) in
      Ret (inr id)
  end.

Definition ConsumeLoginState (m : SessionManager) (id : string) : program (string + bytes)%type :=
  let? session := GetSession (sessionStore m) id in
  match session with
  | None => Ret (inl ErrNotFound)
  | Some (_, session) =>
      if decide (Type_ session = "oidc_login") then
        deleted ← DeleteSession (sessionStore m) id;
        match deleted with
        | inl _ | inr false => Ret (inl errInvalidLoginState)
        | inr true =>
            now ← Now;
            if Before (ExpiresAt session) now then Ret (inl errInvalidLoginState)
            else Ret (inr (SessionData session))
        end
      else Ret (inl errInvalidLoginState)
  end.

(** The hash of the caller's own live session among the tokens it carried. *)
Fixpoint keepFor (m : SessionManager) (identity : string) (hashes : list string) : program (string + string)%type :=
  match hashes with
  | [] => Ret (inr "")
  | hash :: hashes =>
      let? session := GetSessionByTokenHash (sessionStore m) hash in
      match session with
      | None => keepFor m identity hashes
      | Some (_, session) =>
          now ← Now;
          if Before (ExpiresAt session) now then keepFor m identity hashes
          else if decide (UserID session = identity) then Ret (inr hash)
          else keepFor m identity hashes
      end
  end.

Definition RevokeOtherSessions (m : SessionManager) (identity : string) (candidateTokens : list string) : program (string + nat)%type :=
  if decide (identity = "") then Ret (inr 0%nat) else
  let? keepHash := keepFor m identity (candidateHashes candidateTokens) in
  DeleteOtherSessionsForUser (sessionStore m) identity keepHash.

(** The list the operator sees of the rows the store found. *)
Definition currentHash (hashes : list string) (records : list (string * SessionRecord)) : string :=
  default "" (list_find (λ h, Exists (λ r, TokenHash r.2 = Some h) records) hashes ≫= λ ih, Some ih.2).

Definition sessionInfo (current : string) (r : string * SessionRecord) : AuthSessionInfo :=
  MkSessionInfo r.1 (UserAgent r.2) (IP r.2) (CreatedAt r.2) (LastSeenAt r.2)
    (bool_decide (current ≠ "" ∧ TokenHash r.2 = Some current)).

Definition currentFirst (current : string) (records : list (string * SessionRecord)) : list AuthSessionInfo :=
  foldl (λ acc r, let info := sessionInfo current r in if Current info then info :: acc else acc ++ [info]) [] records.

Definition ListAuthSessions (m : SessionManager) (identity : string) (candidateTokens : list string)
  : program (string + list AuthSessionInfo)%type :=
  if decide (identity = "") then Ret (inr []) else
  let? records := ListAuthSessionsForUser (sessionStore m) identity in
  Ret (inr (currentFirst (currentHash (candidateHashes candidateTokens) records) records)).

Definition RevokeSessionByID (m : SessionManager) (identity id : string) (candidateTokens : list string)
  : program (string + revocation)%type :=
  if decide (identity = "") then Ret (inr NoSuchSession) else
  let? session := GetSession (sessionStore m) id in
  match session with
  | None => Ret (inr NoSuchSession)
  | Some (_, session) =>
      if decide (Type_ session = "auth_token" ∧ UserID session = identity) then
        if match TokenHash session with
           | None => false
           | Some h => bool_decide (h ∈ candidateHashes candidateTokens)
           end
        then Ret (inr ErrCurrentSession) else
        let? deleted := DeleteSession (sessionStore m) id in
        Ret (inr (if (deleted : bool) then RevokedIt else NoSuchSession))
      else Ret (inr NoSuchSession)
  end.

Definition RevokeAuthToken (m : SessionManager) (token : string) : program bool :=
  if decide (token = "") then Ret false else
  session ← GetSessionByTokenHash (sessionStore m) (SHA256Hex token);
  match session with
  | inl _ | inr None => Ret false
  | inr (Some (id, _)) =>
      deleted ← DeleteSession (sessionStore m) id;
      Ret (match deleted with inr b => b | inl _ => false end)
  end.
End Manager.

(** ** How long a login lives *)

Definition live (now : Time) (s : SessionRecord) : bool :=
  negb (Before (ExpiresAt s) now) &&
  (IsZero (CreatedAt s) || negb (Before (Add (CreatedAt s) AuthTokenMaxLifetime) now)).

Lemma dead_or_live {A} (s : SessionRecord) (now : Time) (dead alive : A) :
  (if Before (ExpiresAt s) now then dead else
   if negb (IsZero (CreatedAt s)) && Before (Add (CreatedAt s) AuthTokenMaxLifetime) now then dead else alive) =
  if live now s then alive else dead.
Proof. unfold live. by destruct (Before _ now), (IsZero _), (Before _ now). Qed.

(** A later expiry, within both lifetimes. *)
Definition laterExpiry (now : Time) (s : SessionRecord) (t : Time) : Prop :=
  ExpiresAt s < t ≤ now + AuthTokenTTL ∧ (CreatedAt s ≠ zeroTime → t ≤ CreatedAt s + AuthTokenMaxLifetime).

Definition presented (token : string) (d : DB) : option (string * SessionRecord) :=
  if decide (token = "") then None else byTokenHash (SHA256Hex token) (webauthn_sessions d).

Lemma slideDue_later s now next t :
  slideDue s now = Some (Some next) → rounded next t → laterExpiry now s t.
Proof.
  unfold slideDue, laterExpiry, rounded, Add, After, IsZero, zeroTime, minSlide, Minute, Second.
  destruct (t ← LastSeenAt s; TrustedAge now t) as [age|]; branches; intros; simplify_eq; bool_to_arith; lia.
Qed.

Lemma slideDue_throttled s now seen :
  LastSeenAt s = Some seen → seen ≠ zeroTime → 0 ≤ now - seen < lastSeenThrottle → slideDue s now = None.
Proof.
  intros Hs Hz Hd. unfold slideDue. rewrite Hs. simpl. unfold TrustedAge, IsZero.
  rewrite (proj2 (Z.eqb_neq _ _)) by done.
  assert (Sub now seen = now - seen) as ->.
  { unfold Sub. apply sat64_id. unfold in_int64, int64_min, int64_max, lastSeenThrottle, Minute, Second in *. lia. }
  rewrite (proj2 (Z.ltb_ge _ _)) by lia. by rewrite (proj2 (Z.leb_gt _ _)) by lia.
Qed.

(** The row after a validation: at most its two dates moved. *)
Definition slid (now : Time) (slide : bool) (s s' : SessionRecord) : Prop :=
  s' = s ⟦ ExpiresAt := ExpiresAt s' ⟧ ⟦ LastSeenAt := LastSeenAt s' ⟧ ∧
  (ExpiresAt s' = ExpiresAt s ∨ laterExpiry now s (ExpiresAt s')) ∧
  (live now s = false ∨ slide = false ∨ slideDue s now = None → s' = s).

Definition withSession (id : string) (s : SessionRecord) (w : World) : World :=
  w ⟦ db := (db w) ⟦ webauthn_sessions := <[id := s]> (webauthn_sessions (db w)) ⟧ ⟧.

(** The outcome of a validation whose session was found at [id]. *)
Definition validated (ok : Env → Prop) (now : Time) (slide : bool) (id : string) (s : SessionRecord) (a : option AuthResult)
    (w w' : World) : Prop :=
  (∃ s', w' = withSession id s' w ∧ slid now slide s s' ∧
     ∀ res, a = Some res → live now s = true ∧ res_UserID res = UserID s ∧
       if Extended res then rounded (res_ExpiresAt res) (ExpiresAt s') ∧ ExpiresAt s < ExpiresAt s'
       else res_ExpiresAt res = ExpiresAt s) ∧
  (a = None → live now s = false ∨ faulty ok).

Section Lifetime.
Context {S : Type} `{!SessionStore S, !SessionStoreLaws S} (m : SessionManager (S := S)).

Lemma flows_authenticate tid token slide : flows tid (authenticate m token slide).
Proof using SessionStoreLaws0.
  unfold authenticate. case_decide; [done|]. apply flows_bind; [eapply does_flows, GetSessionByTokenHash_law|].
  intros [|[[id s]|]]; [done| |done]. apply flows_bind; [by intros e w; do 3 eexists|]. intros now.
  case_match; [done|]. case_match; [done|]. case_decide; [|done]. case_match; [done|]. case_match; [|done].
  apply flows_bind; [eapply does_flows, TouchSessionLastSeen_law|]. intros _. case_match; [|done].
  apply flows_bind; [eapply does_flows, ExtendSession_law|]. done.
Qed.

Lemma withSession_id id s w : webauthn_sessions (db w) !! id = Some s → withSession id s w = w.
Proof using Type. intros Hs. unfold withSession. rewrite insert_id by done. by destruct w as [[]]. Qed.

Lemma alterSession_with id f s w :
  webauthn_sessions (db w) !! id = Some s → w ⟦ db := alterSession f id (db w) ⟧ = withSession id (f s) w.
Proof using Type.
  intros Hs. unfold withSession, alterSession.
  assert (alter f id (webauthn_sessions (db w)) = <[id := f s]> (webauthn_sessions (db w))) as ->; [|done].
  apply map_eq. intros i. destruct (decide (i = id)) as [->|];
    [by rewrite lookup_alter_eq, lookup_insert_eq, Hs|by rewrite lookup_alter_ne, lookup_insert_ne].
Qed.

Lemma withSession_with id s s' w : withSession id s' (withSession id s w) = withSession id s' w.
Proof using Type. unfold withSession. cbn. by rewrite insert_insert_eq. Qed.

(** A row whose dates moved as they may. *)
Lemma slid_refl now slide s : slid now slide s s.
Proof using Type. split; [by destruct s|]. split; [by left|done]. Qed.

Lemma wp_touch ok now tid id row w h :
  webauthn_sessions (db w) !! id = Some row →
  wp ok (λ _, True) (undisturbed tid) tid (TouchSessionLastSeen (sessionStore m) id now)
    (λ _ s, s.2 = h ∧ ∃ seen, s.1 = withSession id (row ⟦ LastSeenAt := seen ⟧) w) (w, h).
Proof using SessionStoreLaws0.
  intros Hrow. eapply wp_does; [done|apply TouchSessionLastSeen_law|]. intros s4 _ Hr4. undisturbed. cbn [fst snd]. split.
  - intros err _ s5 _ Hr5. undisturbed. split; [done|]. exists (LastSeenAt row). rewrite withSession_id; [done|]. by destruct row.
  - intros e' a d' said _ (-> & t & _ & ->). rewrite app_nil_r. split; [done|]. split; [done|]. intros s5 _ Hr5. undisturbed.
    assert (∃ seen, w ⟦ db := alterSession (λ s, s ⟦ LastSeenAt := Some t ⟧) id (db w) ⟧ = withSession id (row ⟦ LastSeenAt := seen ⟧) w)
      by (exists (Some t); by rewrite (alterSession_with _ _ row)).
    by split; [|intros].
Qed.

Lemma validated_moved ok now id row seen t (res : AuthResult) w :
  webauthn_sessions (db w) !! id = Some row → live now row = true → slideDue row now ≠ None →
  (t = ExpiresAt row ∨ laterExpiry now row t) → res_UserID res = UserID row →
  (if Extended res then rounded (res_ExpiresAt res) t ∧ ExpiresAt row < t else res_ExpiresAt res = ExpiresAt row) →
  validated ok now true id row (Some res) w (withSession id (row ⟦ LastSeenAt := seen ⟧ ⟦ ExpiresAt := t ⟧) w).
Proof using Type.
  intros Hrow Hlive Hdue Ht Hu Hres. split; [|done]. eexists. split; [done|]. split; [split; [by destruct row|split; [exact Ht|]]|].
  - intros [?|[?|?]]; [by rewrite Hlive in *|done|congruence].
  - intros res' [= <-]. done.
Qed.

Lemma wp_authenticate (ok : Env → Prop) now tid token slide w h :
  (∀ e, ok e → env_now e = now) →
  wp ok (λ _, True) (undisturbed tid) tid (authenticate m token slide)
    (λ a s, s.2 = h ∧
      match presented token (db w) with
      | None => a = None ∧ s.1 = w
      | Some (id, row) => validated ok now slide id row a w s.1
      end ∧ (a = None → s.1 = w)) (w, h).
Proof using SessionStoreLaws0.
  intros Hnow. unfold authenticate, presented. case_decide; [intros s _ Hr; by undisturbed|].
  apply wp_seq; [done|]. eapply wp_looks; [done|apply GetSessionByTokenHash_law|]. intros s1 _ Hr1. undisturbed. cbn [fst snd].
  split.
  { intros err Hf s2 _ Hr2 s3 _ Hr3. undisturbed. split; [done|]. split; [|done].
    destruct (byTokenHash _ _) as [[id row]|] eqn:Hfind; [|done]. apply byTokenHash_Some in Hfind as [Hrow _].
    split; [|by right]. exists row. rewrite withSession_id by done. split; [done|]. split; [apply slid_refl|done]. }
  intros _ _ _ _ s2 _ Hr2. undisturbed. destruct (byTokenHash _ _) as [[id row]|] eqn:Hfind; [|intros s3 _ Hr3; by undisturbed].
  apply byTokenHash_Some in Hfind as (Hrow & Hhash & _).
  cbv zeta. apply wp_Now; [done|]. intros s3 e He _ Hr3. undisturbed. rewrite (Hnow e He), dead_or_live.
  assert (∀ a, (∀ res, a = Some res → live now row = true ∧ res = MkAuthResult (UserID row) (ExpiresAt row) false) →
    (a = None → live now row = false) → validated ok now slide id row a w w) as Hstay.
  { intros a Ha Hn. split; [|by left; apply Hn]. exists row. split; [by rewrite withSession_id|]. split; [apply slid_refl|].
    intros res Hres. by destruct (Ha res Hres) as [? ->]. }
  destruct (live now row) eqn:Hlive; [|intros s4 _ Hr4; undisturbed; split; [done|]; split; [by apply Hstay|done]].
  rewrite decide_True by done. cbn [negb]. destruct slide; cbn [negb].
  2: { intros s4 _ Hr4. undisturbed. split; [done|]. split; [|done]. apply Hstay; [|done]. by intros res [= <-]. }
  destruct (slideDue row now) as [due|] eqn:Hdue.
  2: { intros s4 _ Hr4. undisturbed. split; [done|]. split; [|done]. apply Hstay; [|done]. by intros res [= <-]. }
  apply wp_seq; [done|]. eapply wp_conseq; [|by apply wp_touch].
  intros _ [w4 h4] _ [Hh [seen Hw4]]. cbn [fst snd] in Hh, Hw4. subst w4 h4.
  assert (validated ok now true id row (Some (MkAuthResult (UserID row) (ExpiresAt row) false)) w
    (withSession id (row ⟦ LastSeenAt := seen ⟧) w)) as Htouched.
  { replace (row ⟦ LastSeenAt := seen ⟧) with (row ⟦ LastSeenAt := seen ⟧ ⟦ ExpiresAt := ExpiresAt row ⟧) by (by destruct row).
    apply validated_moved; [done|done|congruence|by left|done|done]. }
  destruct due as [next|]; [|intros s5 _ Hr5; undisturbed; split; [done|]; split; [by apply Htouched|done]].
  apply wp_seq; [done|]. eapply wp_does; [done|apply ExtendSession_law|]. intros s5 _ Hr5. undisturbed. cbn [fst snd].
  assert (webauthn_sessions (db (withSession id (row ⟦ LastSeenAt := seen ⟧) w)) !! id = Some (row ⟦ LastSeenAt := seen ⟧)) as Hat
    by apply lookup_insert_eq.
  split.
  - intros err _ s6 _ Hr6 s7 _ Hr7. undisturbed. split; [done|]. split; [by apply Htouched|done].
  - intros e' a d' said _ (-> & t & Ht & ->). rewrite app_nil_r, (alterSession_with _ _ _ _ Hat), withSession_with.
    assert (laterExpiry now row t) as Hlater by by eapply slideDue_later.
    split; [done|]. split; [done|]. intros s6 _ Hr6. undisturbed.
    split; [|intros err _]; intros s7 _ Hr7; undisturbed; (split; [done|]); (split; [|done]); apply validated_moved; try done; try congruence; try (by right).
    split; [done|apply Hlater].
Qed.

(** C7. How long a login lives. Validating a token always comes back, whatever the
    store does, and touches no row but the token's own, of which at most the two
    dates move. It is accepted exactly while the row is unexpired and no older
    than thirty days, unless the store cannot be read. The expiry never moves
    back, and a use pushes it out by no more than the idle lifetime from now and
    never past thirty days from login; the answer says so only when it was stored.
    A re-check, a dead session, and a use within five minutes of the last write
    nothing. *)
Theorem session_lifetime (ok : Env → Prop) e now tid token slide w h :
  ok e → (∀ e, ok e → env_now e = now) →
  let run a w' h' := runs ok tid (authenticate m token slide) (w, h) a (w', h') in
  (∃ a w' h', run a w' h') ∧
  ∀ a w' h', run a w' h' →
    h' = h ∧ (a = None → w' = w) ∧
    match presented token (db w) with
    | None => a = None
    | Some (id, s) =>
        (a = None → live now s = false ∨ faulty ok) ∧
        ∃ s', w' = withSession id s' w ∧ s' = s ⟦ ExpiresAt := ExpiresAt s' ⟧ ⟦ LastSeenAt := LastSeenAt s' ⟧ ∧
          (ExpiresAt s' = ExpiresAt s ∨ laterExpiry now s (ExpiresAt s')) ∧
          (∀ res, a = Some res → live now s = true ∧ res_UserID res = UserID s ∧
             if Extended res then rounded (res_ExpiresAt res) (ExpiresAt s') ∧ ExpiresAt s < ExpiresAt s'
             else res_ExpiresAt res = ExpiresAt s) ∧
          (live now s = false ∨ slide = false ∨
           (∃ seen, LastSeenAt s = Some seen ∧ seen ≠ zeroTime ∧ 0 ≤ now - seen < lastSeenThrottle) → s' = s)
    end.
Proof using SessionStoreLaws0.
  intros He Hnow run. split.
  - destruct (flows_runs ok e tid _ (w, h) He (flows_authenticate tid token slide)) as (a & [w' h'] & Hr). by exists a, w', h'.
  - intros a w' h' Hr. destruct (runs_wp _ _ _ _ _ _ _ (wp_authenticate ok now tid token slide w h Hnow) Hr) as (Hh & Hv & Hn).
    split; [done|]. split; [exact Hn|]. destruct (presented token (db w)) as [[id s]|]; [|by destruct Hv].
    destruct Hv as [(s' & Hw & (Heta & Hexp & Hsame) & Hres) Hnone]. split; [done|]. exists s'. repeat (split; [done|]).
    intros [?|[?|(seen & H1 & H2 & H3)]]; apply Hsame; [by left|right; by left|right; right; by eapply slideDue_throttled].
Qed.
End Lifetime.

(** ** Concrete inputs *)

Definition demoLogin (who token : string) (since : Time) : SessionRecord :=
  MkSession "" authTokenData "auth_token" who (Some (SHA256Hex token)) None (since + AuthTokenTTL) since "agent" "10.0.0.1" None.

Definition demoManager : SessionManager := NewSessionManager NewWebAuthnStore.

Definition demoStale : World :=
  demoWorld ⟦ db := emptyDB ⟦ webauthn_sessions := {["a" := demoLogin "admin" "own" (demoNow - 60 * Hour)]} ⟧ ⟧.

(** A login unused for sixty hours is used, and has three days again. *)
Lemma session_lifetime_witness :
  ∃ w' h' res, runs (atDemo (eq Works)) 3 (authenticate demoManager "own" true) (demoStale, []) (Some res) (w', h') ∧
    live demoNow (demoLogin "admin" "own" (demoNow - 60 * Hour)) = true ∧ res_UserID res = "admin".
Proof.
  destruct (exec 3 (authenticate demoManager "own" true) (replicate 4 (demoEnv Works)) (demoStale, [])) as [[a [w' h']]|] eqn:He;
    [|exfalso; vm_compute in He; discriminate He].
  assert (∃ res, a = Some res) as [res ->] by (vm_compute in He; injection He as <- _ _; by eexists).
  apply (exec_runs (atDemo (eq Works))) in He; [|by repeat constructor]. exists w', h', res. split; [exact He|].
  destruct (session_lifetime demoManager (atDemo (eq Works)) (demoEnv Works) demoNow 3 "own" true demoStale []) as [_ Hall];
    [done|by intros e [? _]|].
  destruct (Hall _ _ _ He) as (_ & _ & Hm).
  assert (presented "own" (db demoStale) = Some ("a", demoLogin "admin" "own" (demoNow - 60 * Hour))) as Hp by (vm_compute; reflexivity).
  rewrite Hp in Hm. destruct Hm as (_ & s' & _ & _ & _ & Hres & _). destruct (Hres res eq_refl) as (Hl & Hu & _).
  split; [exact Hl|exact Hu].
Defined.
