(* ===== verification/AuthCookie.v ===== *)
(** * Sessions over cookies (internal/authcookie)

    The HttpOnly session cookie and the readable CSRF cookie that travels with it,
    and the request parts the authentication layer reads. *)

From S2P Require Import Prelude Crypto Encryption Threads LoginThrottle AuthWorld TotpStore SecondFactor.

(** What these handlers read of an [http.Request]: cookies by name, headers by
    canonical name, the address the limiter resolves, and whether the body's media
    type is application/json. *)
Record Request := MkRequest {
  Method : string;
  Cookies : gmap string string;
  Header : gmap string string;
  TLS : bool;
  contentJSON : bool;
  RemoteIP : string;
  RequestAgent : string
}.

Definition header (r : Request) (name : string) : string := default "" (Header r !! name).

Definition cutPrefix (s prefix : string) : option string :=
  if String.prefix prefix s then Some (String.substring (String.length prefix) (String.length s - String.length prefix) s) else None.

(** internal/util/httputil.go *)
Definition ParseBearerToken (r : Request) : option string :=
  match cutPrefix (header r "Authorization") "Bearer " with
  | None => None
  | Some token => if decide (token = "") then None else Some token
  end.

Definition CSRFHeader : string := "X-CSRF-Token".

Record Jar := MkJar { SessionCookie : string; CSRFCookie : string }.

Definition Dashboard : Jar := MkJar "mh_session" "mh_csrf".
Definition FrontDesk : Jar := MkJar "fd_session" "fd_csrf".

(** A [Set-Cookie]; all of them have Path=/ and SameSite=Strict. *)
Record setCookie := MkCookie {
  cookie_Name : string;
  cookie_Value : string;
  HttpOnly : bool;
  cookie_Secure : bool;
  MaxAge : Z
}.

Definition randomToken (rnd : Entropy) : (string + string) * Entropy :=
  let '(read, rnd) := ReadFull 32 rnd in
  (match read with inl err => inl err | inr b => inr (base64.EncodeToString b) end, rnd).

Definition mintedTokenLen : nat := 43.

Definition isMintedToken (v : string) : bool :=
  (String.length v =? mintedTokenLen)%nat &&
  forallb (λ c, bool_decide (c ∈ base64.alphabet)) (String.list_ascii_of_string v).

(** [int(d.Seconds())]. *)
Definition wholeSeconds (d : Duration) : Z := Z.quot d Second.

Definition writePair (j : Jar) (token csrf : string) (secure : bool) (age : Z) : list setCookie :=
  [MkCookie (SessionCookie j) token true secure age; MkCookie (CSRFCookie j) csrf false secure age].

Definition SetSession (j : Jar) (token : string) (secure : bool) (maxAge : Duration) : program (string + list setCookie)%type :=
  rnd ← Rand;
  Ret (match (randomToken rnd).1 with
       | inl err => inl err
       | inr csrf => inr (writePair j token csrf secure (wholeSeconds maxAge))
       end).

Definition RefreshSession (j : Jar) (r : Request) (token : string) (secure : bool) (maxAge : Duration)
  : program (string + list setCookie)%type :=
  let age := wholeSeconds maxAge in
  if age <=? 0 then Ret (inr []) else
  match Cookies r !! CSRFCookie j with
  | Some c =>
      if isMintedToken c then Ret (inr (writePair j token c secure age)) else
      rnd ← Rand;
      Ret (match (randomToken rnd).1 with inl err => inl err | inr fresh => inr (writePair j token fresh secure age) end)
  | None =>
      rnd ← Rand;
      Ret (match (randomToken rnd).1 with inl err => inl err | inr fresh => inr (writePair j token fresh secure age) end)
  end.

Definition ClearSession (j : Jar) (secure : bool) : list setCookie :=
  (λ name, MkCookie name "" (bool_decide (name = SessionCookie j)) secure (-1)) <$> [SessionCookie j; CSRFCookie j].

Definition SessionToken (j : Jar) (r : Request) : option string :=
  match Cookies r !! SessionCookie j with
  | None => None
  | Some v => if decide (v = "") then None else Some v
  end.

Definition ValidCSRF (j : Jar) (r : Request) : bool :=
  match Cookies r !! CSRFCookie j with
  | None => false
  | Some v => negb (bool_decide (v = "")) && negb (bool_decide (header r CSRFHeader = "")) && bool_decide (v = header r CSRFHeader)
  end.

Definition IsSafeMethod (method : string) : bool := bool_decide (method ∈ ["GET"; "HEAD"; "OPTIONS"]).

(** [strings.EqualFold] with "https": the runes of that word fold to their upper
    case, the long s included, and to nothing else. *)
Definition isHTTPS (s : string) : bool :=
  bool_decide ((ToUpper <$> utf8.runes s) = (N_of_ascii <$> String.list_ascii_of_string "HTTPS")).

Definition Secure (r : Request) (mode : string) : bool :=
  if decide (mode = "always") then true
  else if decide (mode = "never") then false
  else TLS r || isHTTPS (header r "X-Forwarded-Proto").

(** ** A minted token is recognised *)

Lemma length_chunks_go {A} (fuel n : nat) (l : list A) :
  (0 < n)%nat → (length l ≤ fuel)%nat → length (chunks_go fuel n l) = ((length l + n - 1) / n)%nat.
Proof.
  intros Hn. revert l. induction fuel as [|fuel IH]; intros [|x l] Hl; cbn [chunks_go length] in *.
  1, 3: symmetry; apply Nat.div_small; lia.
  - lia.
  - rewrite IH by (rewrite length_drop; cbn; lia). rewrite length_drop. cbn [length].
    destruct (decide (n ≤ S (length l))%nat) as [Hle|Hgt].
    + replace (S (length l) + n - 1)%nat with (S (length l) - n + n - 1 + 1 * n)%nat by lia.
      rewrite Nat.div_add by lia. lia.
    + replace (S (length l) - n)%nat with 0%nat by lia. rewrite (Nat.div_small (0 + n - 1)) by lia.
      replace (S (length l) + n - 1)%nat with (length l + 1 * n)%nat by lia. rewrite Nat.div_add, Nat.div_small by lia. done.
Qed.

Lemma base64_symbol bits : base64.symbol bits ∈ base64.alphabet.
Proof.
  unfold base64.symbol. destruct (nth_in_or_default (base32.value (take 6 (bits ++ replicate 6 false))) base64.alphabet "A"%char) as [Hin| ->];
    [by apply list_elem_of_In|]. by left.
Qed.

(** What [SetSession] mints, [RefreshSession] keeps. *)
Lemma randomToken_minted rnd csrf : (randomToken rnd).1 = inr csrf → isMintedToken csrf = true.
Proof.
  unfold randomToken, ReadFull. case_decide as Hl; cbn; [|done]. intros [= <-].
  unfold isMintedToken, base64.EncodeToString. apply andb_true_iff. split.
  - rewrite <- (length_list_byte_of_string (String.string_of_list_ascii _)). unfold String.list_byte_of_string.
    rewrite length_map, String.list_ascii_of_string_of_list_ascii, length_fmap. unfold chunks.
    rewrite length_chunks_go, length_bits, length_take_le by lia. done.
  - rewrite String.list_ascii_of_string_of_list_ascii. apply forallb_forall. intros c Hc.
    apply bool_decide_eq_true. apply list_elem_of_In, list_elem_of_fmap in Hc as (b & -> & _). apply base64_symbol.
Qed.
