(* ===== verification/AdminAuth.v ===== *)
(** * Admin login and its gate (internal/adminauth: middleware.go, exchange.go, totp.go)

    The handlers as programs of atomic actions: database statements, the cached
    gate of internal/api/admin.go, the enrolment lock, the throttle, the clock and
    the entropy source. Between any two of them other requests run. *)

From S2P Require Import Prelude Crypto Encryption Threads LoginThrottle AuthWorld TotpStore SecondFactor SessionStore Sessions AuthCookie.

(** ** Answers *)

Inductive content :=
| Text (message : string)
| Success
| Token (token : string)
| Provisional (uri secret : string)
| RecoveryCodes (codes : list string) (token : option string) (success : bool)
| DisabledIt
| StatusIs (enabled : bool) (enabledAt : option Time)
| InfoIs (info : SecurityInfo).

Record response := MkResponse {
  status : Z;
  retryAfter : option Z;
  setCookies : list setCookie;
  payload : content
}.

(** [respondError], [http.Error]: a cancelled caller's 499 is not told from the
    500 it replaces. *)
Definition refuse (code : Z) (message : string) : response := MkResponse code None [] (Text message).
Definition answer (c : content) : response := MkResponse 200 None [] c.

(** [httpx.RespondTooManyAttempts]. *)
Definition tooMany (retry : Duration) : response :=
  MkResponse 429 (Some (SetRetryAfter retry)) [] (Text "too many failed attempts, try again later").

Definition withCookies (cs : list setCookie) (r : response) : response :=
  MkResponse (status r) (retryAfter r) (cs ++ setCookies r) (payload r).

(** ** Shared state *)

(** The throttle's calls, each one critical section of its own. *)
Section Throttles.
Context (throttle : World → Throttle) (put : Throttle → World → World).

Definition Admit (key : string) : program (option response) :=
  act (λ _ e w, Some (
    let '(ok, retry) := Allowed SHA256Hex (throttle w) (env_now e) key in
    if ok then None else Some (tooMany retry), w, [])).

Definition noteFailure (key : string) : program unit :=
  act (λ _ e w, Some (tt, put (RecordFailure SHA256Hex (throttle w) (env_now e) key) w, [])).

Definition noteSuccess (key : string) : program unit :=
  act (λ _ e w, Some (tt, put (RecordSuccess SHA256Hex (throttle w) key) w, [])).
End Throttles.

(** The mutex of an account's enrolment. *)
Definition Lock (who : option string) : program unit :=
  act (λ tid _ w,
    match totpMu w !! who with
    | None => Some (tt, w ⟦ totpMu := <[who := tid]> (totpMu w) ⟧, [])
    | Some _ => None
    end).

Definition Unlock (who : option string) : program unit :=
  act (λ _ _ w, Some (tt, w ⟦ totpMu := delete who (totpMu w) ⟧, [])).

(** [mu.Lock(); defer mu.Unlock()]. *)
Definition locked {A : Set} (who : option string) (p : program A) : program A :=
  _ ← Lock who; r ← p; _ ← Unlock who; Ret r.

(** A session bought with one factor goes out to its client. *)
Definition hand (id : string) : program unit := act (λ tid _ w, Some (tt, w, [Handed tid id])).

(** internal/admin [Manager.Validate]. *)
Definition ValidateAdmin (tokenHash token : string) : bool :=
  negb (bool_decide (token = "")) && bool_decide (SHA256Hex token = tokenHash).

Definition accountThrottleKey : string := "account:login".
Definition codeThrottleKey : string := "account:code".

Section Handlers.
Context (IDKey : bytes → bytes → Z → Z → Z → nat → bytes).
Context (Generate : string → string → Entropy → (string + string * string) * Entropy).
Context (GenerateCode : string → Time → string + string).
Context {T : Type} `{!TotpStore T} {S : Type} `{!SessionStore S}.

(** What the handlers are wired with; [sessionMgr] and [totpWired] may be nil. *)
Record AdminHandlers := MkAdminHandlers {
  totpRepo : Repository (S := T);
  adminTokenHash : string;
  sessionMgr : option (SessionManager (S := S));
  totpWired : bool;
  jar : Jar;
  cookieSecure : string;
  useCookieAuth : bool;
  demoReadOnly : bool
}.

Context (h : AdminHandlers).

(** [webauthn.MetaFromRequest]: what is shown of the device, no part of any decision. *)
Definition metaFrom (r : Request) : SessionMeta := MkMeta (RequestAgent r) (RemoteIP r).

(** ** The cached gate (internal/api/admin.go) *)

Definition TotpEnabled : program bool := act (λ _ _ w, Some (totpWired h && totpEnabled w, w, [])).

Definition storeGate (closed : bool) : program unit :=
  act (λ tid _ w, Some (tt, w ⟦ totpEnabled := closed ⟧, [GateMoved tid closed])).

(** Fails closed. [SetTotpStatus] seeds the cache the same way at start-up. *)
Definition RefreshTotpEnabled : program unit :=
  if negb (totpWired h) then Ret tt else
  enabled ← IsEnabled (store (totpRepo h));
  storeGate (match enabled with inl _ => true | inr b => b end).

(** ** The admin gate (middleware.go) *)

Definition sessionAuth (mgr : SessionManager (S := S)) (token : string) (use : bool) : program (option AuthResult) :=
  if use then Authenticate mgr token else VerifySession mgr token.

Definition isAdmin (res : AuthResult) : bool := bool_decide (res_UserID res = "admin").

Definition adminCookieSession (r : Request) (use : bool) : program (option (string * AuthResult)) :=
  match SessionToken (jar h) r, sessionMgr h with
  | Some tok, Some mgr =>
      res ← sessionAuth mgr tok use;
      Ret (match res with Some res => if isAdmin res then Some (tok, res) else None | None => None end)
  | _, _ => Ret None
  end.

Definition validAdminBearer (token : string) (use : bool) : program bool :=
  enabled ← TotpEnabled;
  if negb enabled && ValidateAdmin (adminTokenHash h) token then Ret true else
  match sessionMgr h with
  | None => Ret false
  | Some mgr =>
      res ← sessionAuth mgr token use;
      Ret (match res with Some res => isAdmin res | None => false end)
  end.

(** Best effort: the request proceeds without the new cookies. *)
Definition RefreshSessionCookies (r : Request) (token : string) (res : AuthResult) : program (list setCookie) :=
  now ← Now;
  set ← RefreshSession (jar h) r token (Secure r (cookieSecure h)) (Sub (res_ExpiresAt res) now);
  Ret (match set with inl _ => [] | inr cs => cs end).

(** The cookies the admitted request re-issues, or the refusal. *)
Definition RequireAdminOrSession (r : Request) : program (response + list setCookie)%type :=
  cookie ← adminCookieSession r true;
  match cookie with
  | Some (tok, res) =>
      if negb (IsSafeMethod (Method r)) && negb (ValidCSRF (jar h) r) then
        Ret (inl (refuse 403 "CSRF token missing or invalid"))
      else if Extended res then
        cs ← RefreshSessionCookies r tok res;
        Ret (inr cs)
      else Ret (inr [])
  | None =>
      match ParseBearerToken r with
      | None => Ret (inl (refuse 401 "Authorization header required (Bearer token)"))
      | Some token =>
          ok ← validAdminBearer token true;
          Ret (if (ok : bool) then inr [] else inl (refuse 401 "Invalid admin token or session token"))
      end
  end.

(** The heartbeat of a long-lived stream asks again, and writes nothing. *)
Definition ValidAdminOrSession (r : Request) : program bool :=
  cookie ← adminCookieSession r false;
  match cookie with
  | Some _ => Ret true
  | None =>
      match ParseBearerToken r with
      | None => Ret false
      | Some token => validAdminBearer token false
      end
  end.

(** [BearerTokenGate]. *)
Definition BearerTokenGate (want what : string) (r : Request) : option response :=
  let tok := default "" (ParseBearerToken r) in
  if negb (bool_decide (want = "")) && bool_decide (tok = want) then None
  else Some (refuse 401 ("invalid " +:+ what +:+ " token")).

(** The routes behind the gate: gate, then the demo refusal (internal/httpx
    [ReadOnlyGuard]; none of these paths is exempt), then the handler. *)
Definition gated (r : Request) (handler : program response) : program response :=
  admitted ← RequireAdminOrSession r;
  match admitted with
  | inl refusal => Ret refusal
  | inr cs =>
      if demoReadOnly h && negb (IsSafeMethod (Method r)) then
        Ret (withCookies cs (refuse 403 "this is a read-only demo: creating, editing, and deleting are disabled"))
      else
        resp ← handler;
        Ret (withCookies cs resp)
  end.

(** ** The exchange (exchange.go) *)

(** A body is what [decodeJSON] made of it: its value, or the status it wrote. *)
Abbreviation body A := (Z + A)%type (only parsing).

Definition badBody (code : Z) : response := refuse code "invalid request body".

Definition TokenExchange (r : Request) (req : body string) : program response :=
  if negb (contentJSON r) then Ret (refuse 415 "content type must be application/json") else
  match req with
  | inl code => Ret (badBody code)
  | inr adminToken =>
      if decide (adminToken = "") then Ret (refuse 400 "invalid request body") else
      enabled ← TotpEnabled;
      if (enabled : bool) then Ret (refuse 400 "use TOTP login") else
      match sessionMgr h with
      | None => Ret (refuse 500 "session manager unavailable")
      | Some mgr =>
          if negb (ValidateAdmin (adminTokenHash h) adminToken) then Ret (refuse 401 "unauthorized") else
          minted ← CreateAuthToken mgr "admin" None (metaFrom r);
          match minted with
          | inl _ => Ret (refuse 500 "failed to create session")
          | inr (tok, id) =>
              enabled ← TotpEnabled;
              if (enabled : bool) then
                _ ← RevokeAuthToken mgr tok;
                Ret (refuse 400 "use TOTP login")
              else
                set ← SetSession (jar h) tok (Secure r (cookieSecure h)) AuthTokenTTL;
                match set with
                | inl _ => Ret (refuse 500 "failed to set session cookie")
                | inr cs =>
                    _ ← hand id;
                    Ret (withCookies cs (answer Success))
                end
          end
      end
  end.

(** ** TOTP (totp.go) *)

Abbreviation ask key := (Admit loginThrottle key).
Abbreviation failed key := (noteFailure loginThrottle (λ t w, w ⟦ loginThrottle := t ⟧) key).
Abbreviation succeeded key := (noteSuccess loginThrottle (λ t w, w ⟦ loginThrottle := t ⟧) key).

(** [false]: the sweep failed, and the caller was answered 500. *)
Definition revokeAdminSessions : program bool :=
  match sessionMgr h with
  | None => Ret true
  | Some mgr =>
      n ← RevokeOtherSessions mgr "admin" [];
      Ret (match n with inl _ => false | inr _ => true end)
  end.

(** The memo of confirmed_at: a read that raced an invalidation is not kept. *)
Definition publishEnabledAt (gen : Z) (at_ : Time) : program unit :=
  act (λ _ _ w, Some (tt, if enabledAtGen w =? gen then w ⟦ enabledAtCache := Some at_ ⟧ else w, [])).

Definition invalidateEnabledAt : program unit :=
  act (λ _ _ w, Some (tt, w ⟦ enabledAtGen := (enabledAtGen w + 1) `mod` 2 ^ 64 ⟧ ⟦ enabledAtCache := None ⟧, [])).

Definition cachedEnabledAt : program (option Time) :=
  cached ← act (λ _ _ w, Some (enabledAtCache w, w, []));
  match cached with
  | Some t => Ret (Some t)
  | None =>
      gen ← act (λ _ _ w, Some (enabledAtGen w, w, []));
      at_ ← EnabledAt (store (totpRepo h));
      match at_ with
      | inr (Some t) => _ ← publishEnabledAt gen t; Ret (Some t)
      | _ => Ret None
      end
  end.

Definition Status : program response :=
  enabled ← TotpEnabled;
  if (enabled : bool) then
    at_ ← cachedEnabledAt;
    Ret (answer (StatusIs true at_))
  else Ret (answer (StatusIs false None)).

Definition TotpInfo : program response :=
  info ← Info (totpRepo h);
  Ret (match info with
       | inl _ => refuse 500 "failed to read TOTP info"
       | inr i => answer (InfoIs i)
       end).

Definition EnrollStart : program response :=
  locked None (
    enabled ← TotpEnabled;
    if (enabled : bool) then Ret (refuse 409 "disable TOTP before re-enrolling") else
    enrolled ← Enroll IDKey Generate (totpRepo h);
    Ret (match enrolled with
         | inl _ => refuse 500 "totp: enroll failed"
         | inr (uri, secret) => answer (Provisional uri secret)
         end)).

(** What follows the sweep that came after the gate closed. *)
Definition finishEnrolment (r : Request) (codes : list string) : program response :=
  _ ← invalidateEnabledAt;
  tok ← match sessionMgr h with
        | None => Ret None
        | Some mgr =>
            minted ← CreateAuthToken mgr "admin" None (metaFrom r);
            Ret (match minted with inl _ => None | inr (tok, _) => Some tok end)
        end;
  if negb (useCookieAuth h) then Ret (answer (RecoveryCodes codes tok false)) else
  match tok with
  | None => Ret (answer (RecoveryCodes codes None true))
  | Some tok =>
      set ← SetSession (jar h) tok (Secure r (cookieSecure h)) AuthTokenTTL;
      Ret (withCookies (match set with inl _ => [] | inr cs => cs end) (answer (RecoveryCodes codes None true)))
  end.

Definition EnrollVerify (r : Request) (req : body string) : program response :=
  match req with
  | inl code => Ret (badBody code)
  | inr code =>
      locked None (
        enabled ← TotpEnabled;
        if (enabled : bool) then Ret (refuse 409 "disable TOTP before re-enrolling") else
        throttled ← ask codeThrottleKey;
        match throttled with
        | Some refusal => Ret refusal
        | None =>
            verified ← Verify IDKey GenerateCode (totpRepo h) code;
            match verified with
            | inl _ => Ret (refuse 500 "totp: verify failed")
            | inr false => _ ← failed codeThrottleKey; Ret (refuse 400 "invalid TOTP code")
            | inr true =>
                _ ← succeeded codeThrottleKey;
                codes ← GenerateRecoveryCodes (totpRepo h);
                match codes with
                | inl _ => Ret (refuse 500 "totp: recovery codes failed")
                | inr codes =>
                    swept ← revokeAdminSessions;
                    if negb swept then Ret (refuse 500 "totp: could not revoke the admin sessions before 2FA") else
                    on ← EnableTotp (totpRepo h);
                    match on with
                    | inl _ => Ret (refuse 500 "totp: enable failed")
                    | inr _ =>
                        _ ← RefreshTotpEnabled;
                        swept ← revokeAdminSessions;
                        if negb swept then
                          _ ← DisableTotp (totpRepo h);
                          _ ← RefreshTotpEnabled;
                          Ret (refuse 500 "totp: could not revoke the admin sessions after the gate closed")
                        else finishEnrolment r codes
                    end
                end
            end
        end)
  end.

Definition DisableHandler (r : Request) (req : body string) : program response :=
  match req with
  | inl code => Ret (badBody code)
  | inr code =>
      locked None (
        throttled ← ask codeThrottleKey;
        match throttled with
        | Some refusal => Ret refusal
        | None =>
            off ← DisableWithCode IDKey GenerateCode (totpRepo h) code;
            match off with
            | inl _ => Ret (refuse 500 "totp: disable failed")
            | inr false => _ ← failed codeThrottleKey; Ret (refuse 403 "invalid TOTP or recovery code")
            | inr true =>
                _ ← succeeded codeThrottleKey;
                _ ← RefreshTotpEnabled;
                _ ← invalidateEnabledAt;
                Ret (answer DisabledIt)
            end
        end)
  end.

(** A token and a code for a session; the body carries both. *)
Definition Login (r : Request) (req : body (string * string)) : program response :=
  enabled ← TotpEnabled;
  if negb enabled then Ret (refuse 400 "TOTP is not enabled") else
  let throttleKey := RemoteIP r in
  throttled ← ask throttleKey;
  match throttled with
  | Some refusal => Ret refusal
  | None =>
      throttled ← ask accountThrottleKey;
      match throttled with
      | Some refusal => Ret refusal
      | None =>
          if negb (contentJSON r) then Ret (refuse 415 "content type must be application/json") else
          match req with
          | inl code => Ret (badBody code)
          | inr (token, code) =>
              if negb (ValidateAdmin (adminTokenHash h) token) then
                _ ← failed throttleKey;
                Ret (refuse 401 "invalid admin token or TOTP code")
              else
                checked ← VerifyOrRecover IDKey GenerateCode (totpRepo h) code;
                match checked with
                | inl _ => Ret (refuse 500 "totp: login verify failed")
                | inr (false, _) =>
                    _ ← failed throttleKey;
                    _ ← failed accountThrottleKey;
                    Ret (refuse 401 "invalid admin token or TOTP code")
                | inr (true, _) =>
                    match sessionMgr h with
                    | None => Ret (refuse 500 "session infrastructure not available")
                    | Some mgr =>
                        minted ← CreateAuthToken mgr "admin" None (metaFrom r);
                        match minted with
                        | inl _ => Ret (refuse 500 "failed to create session")
                        | inr (tok, _) =>
                            _ ← succeeded throttleKey;
                            _ ← succeeded accountThrottleKey;
                            if negb (useCookieAuth h) then Ret (answer (Token tok)) else
                            set ← SetSession (jar h) tok (Secure r (cookieSecure h)) AuthTokenTTL;
                            Ret (match set with
                                 | inl _ => refuse 500 "failed to create session"
                                 | inr cs => withCookies cs (answer Success)
                                 end)
                        end
                    end
                end
          end
      end
  end.
End Handlers.
