(* ===== verification/AdminLogin.v ===== *)
(** * What the admin gate admits, and what a login takes

    The gate in front of the admin's routes and the two-factor login, each run by
    itself against a fixed clock, with any statement failing. *)

From S2P Require Import Prelude Crypto Encryption Threads LoginThrottle AuthWorld TotpStore SecondFactor SessionStore Sessions AuthCookie AdminAuth.

(** A live login of the administrator. *)
Definition loggedIn (now : Time) (w : World) (token : string) : Prop :=
  token ≠ "" ∧ ∃ id s, webauthn_sessions (db w) !! id = Some s ∧ TokenHash s = Some (SHA256Hex token) ∧
    Type_ s = "auth_token" ∧ live now s = true ∧ UserID s = "admin".

(** The unique index on token_hash. *)
Definition indexed (w : World) : Prop := ∀ i j r r' hash,
  webauthn_sessions (db w) !! i = Some r → webauthn_sessions (db w) !! j = Some r' →
  TokenHash r = Some hash → TokenHash r' = Some hash → i = j.

(** What the dates of a row do not decide. *)
Definition sameLogins (now : Time) (w w' : World) : Prop :=
  w' = w ⟦ db := (db w) ⟦ webauthn_sessions := webauthn_sessions (db w') ⟧ ⟧ ∧
  (∀ token, loggedIn now w' token ↔ loggedIn now w token) ∧ (indexed w → indexed w').

Lemma sameLogins_refl now w : sameLogins now w w.
Proof. split; [by destruct w as [[]]|done]. Qed.

Lemma live_slid now slide s s' : slid now slide s s' → live now s' = live now s.
Proof.
  intros (Heta & He & Hsame). destruct (live now s) eqn:Hl; [|by rewrite Hsame; [|by left]].
  assert (CreatedAt s' = CreatedAt s) as Hc by (rewrite Heta; done).
  unfold live, Before in *. rewrite Hc. apply andb_true_iff in Hl as [H1 H2]. rewrite H2, andb_true_r.
  destruct He as [->|[Hlt _]]; [done|]. bool_to_arith. apply negb_true_iff, Z.ltb_ge. lia.
Qed.

Lemma slid_sameLogins now slide id s s' w :
  webauthn_sessions (db w) !! id = Some s → slid now slide s s' → sameLogins now w (withSession id s' w).
Proof.
  intros Hs Hslid. pose proof (live_slid _ _ _ _ Hslid) as Hl. destruct Hslid as (Heta & _ & _).
  assert (UserID s' = UserID s ∧ TokenHash s' = TokenHash s ∧ Type_ s' = Type_ s) as (Hu & Ht & Hy) by (rewrite Heta; done).
  split; [done|]. split.
  - intros token. unfold loggedIn, withSession. cbn. split; intros (Hne & i & r & Hr & H1 & H2 & H3 & H4); (split; [done|]).
    + destruct (decide (i = id)) as [->|Hi]; [|rewrite lookup_insert_ne in Hr by done; by exists i, r].
      rewrite lookup_insert_eq in Hr. simplify_eq. exists id, s. split; [done|]. split; [congruence|]. split; [congruence|]. split; congruence.
    + destruct (decide (i = id)) as [->|Hi]; [|exists i, r; by rewrite lookup_insert_ne].
      simplify_eq. exists id, s'. rewrite lookup_insert_eq. split; [done|]. split; [congruence|]. split; [congruence|]. split; congruence.
  - intros Hix i j r r' hash. unfold withSession. cbn. intros Hi Hj H1 H2.
    assert (∀ k x, <[id := s']> (webauthn_sessions (db w)) !! k = Some x → ∃ y, webauthn_sessions (db w) !! k = Some y ∧ TokenHash y = TokenHash x) as Hback.
    { intros k x Hx. destruct (decide (k = id)) as [->|Hk]; [rewrite lookup_insert_eq in Hx; simplify_eq; by exists s|].
      rewrite lookup_insert_ne in Hx by done. by exists x. }
    destruct (Hback _ _ Hi) as (y & Hy1 & Hy2), (Hback _ _ Hj) as (y' & Hy1' & Hy2').
    apply (Hix i j y y' hash); congruence.
Qed.

Lemma presented_loggedIn token w :
  match presented token (db w) with
  | Some (id, s) => token ≠ "" ∧ webauthn_sessions (db w) !! id = Some s ∧ TokenHash s = Some (SHA256Hex token) ∧ Type_ s = "auth_token"
  | None => ∀ now, ¬ loggedIn now w token
  end.
Proof.
  unfold presented. case_decide as Hne; [by intros now [? _]|].
  destruct (byTokenHash _ _) as [[id s]|] eqn:Hf; [by apply byTokenHash_Some in Hf as (? & ? & ?)|].
  intros now (_ & id & s & H1 & H2 & H3 & _). exact (byTokenHash_None _ _ _ _ Hf H1 H2 H3).
Qed.

Section Gate.
Context {T : Type} `{!TotpStore T} {S : Type} `{!SessionStore S, !SessionStoreLaws S}.
Context (h : AdminHandlers (T := T) (S := S)).
Context (ok : Env → Prop) (now : Time) (Hnow : ∀ e, ok e → env_now e = now) (tid : nat).
Abbreviation alone := (wp ok (λ _, True) (undisturbed tid) tid) (only parsing).

(** An answer is right, up to failing statements. *)
Definition decides (w : World) (b : bool) (P : Prop) : Prop :=
  (b = true → P) ∧ (b = false → indexed w → P → faulty ok).

Lemma wp_sessionAuth (mgr : SessionManager (S := S)) token (use : bool) w hist :
  alone (sessionAuth mgr token use) (λ a s, s.2 = hist ∧ sameLogins now w s.1 ∧ (use = false → s.1 = w) ∧
    decides w (match a with Some res => isAdmin res | None => false end) (loggedIn now w token)) (w, hist).
Proof using SessionStoreLaws0 Hnow.
  assert (alone (authenticate mgr token use) (λ a s, s.2 = hist ∧ sameLogins now w s.1 ∧ (use = false → s.1 = w) ∧
    decides w (match a with Some res => isAdmin res | None => false end) (loggedIn now w token)) (w, hist)) as Hgo; [|by destruct use].
  eapply wp_conseq; [|by apply wp_authenticate]. intros a s _ (Hh & Hv & _). split; [done|].
  pose proof (presented_loggedIn token w) as Hp. destruct (presented token (db w)) as [[id row]|].
  2: { destruct Hv as [-> ->]. split; [apply sameLogins_refl|]. split; [done|]. split; [done|]. intros _ _ Hl. by destruct (Hp now). }
  destruct Hp as (Hne & Hrow & Hhash & Hty). destruct Hv as [(s' & Hw & Hslid & Hres) Hnone]. rewrite Hw.
  split; [by eapply slid_sameLogins|]. split.
  { intros ->. destruct Hslid as (_ & _ & Hsame). rewrite Hsame by (right; by left). by apply withSession_id. }
  destruct a as [res|].
  - destruct (Hres res eq_refl) as (Hlive & Hu & _). unfold isAdmin. rewrite Hu. split.
    + intros Ha%bool_decide_eq_true. split; [done|]. by exists id, row.
    + intros Ha%bool_decide_eq_false Hix (_ & i & r & H1 & H2 & _ & _ & H5). exfalso. apply Ha.
      assert (i = id) as -> by (by eapply Hix). by simplify_eq.
  - split; [done|]. intros _ Hix (_ & i & r & H1 & H2 & _ & H4 & _). destruct (Hnone eq_refl) as [Hdead|]; [|done].
    assert (i = id) as -> by (by eapply Hix). simplify_eq. congruence.
Qed.

(** The two ways in. *)
Definition cookieLogin (w : World) (r : Request) : Prop :=
  is_Some (sessionMgr h) ∧ ∃ tok, SessionToken (jar h) r = Some tok ∧ loggedIn now w tok.

Definition bearerLogin (w : World) (r : Request) : Prop :=
  ∃ token, ParseBearerToken r = Some token ∧
    (totpWired h && totpEnabled w = false ∧ ValidateAdmin (adminTokenHash h) token = true ∨
     is_Some (sessionMgr h) ∧ loggedIn now w token).

Lemma wp_adminCookieSession r use w hist :
  alone (adminCookieSession h r use) (λ a s, s.2 = hist ∧ sameLogins now w s.1 ∧ (use = false → s.1 = w) ∧
    decides w (bool_decide (is_Some a)) (cookieLogin w r)) (w, hist).
Proof using SessionStoreLaws0 Hnow.
  unfold adminCookieSession, cookieLogin. destruct (SessionToken (jar h) r) as [tok|].
  2: { intros s _ Hr. undisturbed. split; [done|]. split; [apply sameLogins_refl|]. split; [done|]. split; [done|]. intros _ _ (_ & ? & ? & _). done. }
  destruct (sessionMgr h) as [mgr|].
  2: { intros s _ Hr. undisturbed. split; [done|]. split; [apply sameLogins_refl|]. split; [done|]. split; [done|]. intros _ _ [[? ?] _]. done. }
  apply wp_seq; [done|]. eapply wp_conseq; [|apply wp_sessionAuth]. intros a s1 _ (Hh & Hsame & Huse & Hd1 & Hd2) s2 _ Hr2. undisturbed.
  split; [done|]. split; [done|]. split; [done|].
  assert (bool_decide (is_Some (match a with Some res => if isAdmin res then Some (tok, res) else None | None => None end)) =
    match a with Some res => isAdmin res | None => false end) as -> by (by destruct a as [res|]; [destruct (isAdmin res)|]).
  split; [intros Ha; split; [done|]; exists tok; split; [done|]; by apply Hd1|].
  intros Ha Hix (_ & tok' & [= <-] & Hl). by apply Hd2.
Qed.

Lemma wp_validAdminBearer token use w hist :
  alone (validAdminBearer h token use) (λ b s, s.2 = hist ∧ sameLogins now w s.1 ∧ (use = false → s.1 = w) ∧
    decides w b (totpWired h && totpEnabled w = false ∧ ValidateAdmin (adminTokenHash h) token = true ∨
      is_Some (sessionMgr h) ∧ loggedIn now w token)) (w, hist).
Proof using SessionStoreLaws0 Hnow.
  unfold validAdminBearer. apply wp_seq; [done|]. intros s e b w' said _ _ Hr [= <- <- <-]. undisturbed. cbn [fst snd]. rewrite app_nil_r.
  split; [done|]. split; [done|]. intros s1 _ Hr1. undisturbed.
  destruct (negb (totpWired h && totpEnabled w) && ValidateAdmin (adminTokenHash h) token) eqn:Hraw.
  { intros s2 _ Hr2. undisturbed. apply andb_true_iff in Hraw as [Hg%negb_true_iff Hv].
    split; [done|]. split; [apply sameLogins_refl|]. split; [done|]. split; [by left|done]. }
  assert (¬ (totpWired h && totpEnabled w = false ∧ ValidateAdmin (adminTokenHash h) token = true)) as Hno
    by (intros [Hg Hv]; by rewrite Hg, Hv in Hraw).
  destruct (sessionMgr h) as [mgr|].
  2: { intros s2 _ Hr2. undisturbed. split; [done|]. split; [apply sameLogins_refl|]. split; [done|]. split; [done|].
       by intros _ _ [?|[[? ?] _]]. }
  apply wp_seq; [done|]. eapply wp_conseq; [|apply wp_sessionAuth]. intros a s1 _ (Hh & Hsame & Huse & Hd1 & Hd2) s2 _ Hr2. undisturbed.
  split; [done|]. split; [done|]. split; [done|]. split.
  - intros Ha. right. split; [done|]. by apply Hd1.
  - intros Ha Hix [?|[_ Hl]]; [done|]. by apply Hd2.
Qed.

Lemma bearer_same w w1 r : sameLogins now w w1 → bearerLogin w1 r ↔ bearerLogin w r.
Proof using Type.
  intros (Hw & Hl & _). unfold bearerLogin. assert (totpEnabled w1 = totpEnabled w) as -> by (by rewrite Hw). by setoid_rewrite Hl.
Qed.

Lemma sameLogins_trans w1 w2 w3 : sameLogins now w1 w2 → sameLogins now w2 w3 → sameLogins now w1 w3.
Proof using Type.
  intros (H1 & H2 & H3) (H4 & H5 & H6). split; [|split; [|auto]].
  - etransitivity; [exact H4|]. revert H1. generalize (webauthn_sessions (db w2)) (webauthn_sessions (db w3)). by intros ? ? ->.
  - intros token. by rewrite H5.
Qed.

Lemma wp_RefreshSessionCookies r tok res w hist :
  alone (RefreshSessionCookies h r tok res) (λ _ s, s = (w, hist)) (w, hist).
Proof using Type.
  unfold RefreshSessionCookies. apply wp_Now; [done|]. intros s1 e _ _ Hr1. undisturbed.
  apply wp_seq; [done|]. eapply (wp_conseq _ _ _ _ _ (λ _ s, s = (w, hist))); [intros a s2 _ -> s3 _ Hr3; by undisturbed|].
  unfold RefreshSession. repeat case_match; try (intros s2 _ Hr2; by undisturbed);
    (apply wp_Rand; [done|]; intros s2 e2 _ _ Hr2; undisturbed; intros s3 _ Hr3; by undisturbed).
Qed.

Definition entered (r : Request) (w : World) (a : response + list setCookie) : Prop :=
  match a with
  | inr _ => cookieLogin w r ∧ (IsSafeMethod (Method r) = true ∨ ValidCSRF (jar h) r = true) ∨ bearerLogin w r
  | inl refusal =>
      status refusal = 403 ∧ cookieLogin w r ∧ IsSafeMethod (Method r) = false ∧ ValidCSRF (jar h) r = false ∨
      status refusal = 401 ∧ (indexed w → cookieLogin w r ∨ bearerLogin w r → faulty ok)
  end.

Lemma wp_RequireAdminOrSession r w hist :
  alone (RequireAdminOrSession h r) (λ a s, s.2 = hist ∧ sameLogins now w s.1 ∧ entered r w a) (w, hist).
Proof using SessionStoreLaws0 Hnow.
  unfold RequireAdminOrSession. apply wp_seq; [done|]. eapply wp_conseq; [|apply wp_adminCookieSession].
  intros [[tok res]|] [w1 h1] _ (Hh1 & Hsame & _ & Hd1 & Hd2); cbn [fst snd] in *; subst h1.
  - specialize (Hd1 eq_refl). destruct (IsSafeMethod (Method r)) eqn:Hsafe, (ValidCSRF (jar h) r) eqn:Hcsrf; cbn [negb andb].
    4: { intros s2 _ Hr2. undisturbed. split; [done|]. split; [done|]. by left. }
    all: assert (∀ cs, entered r w (inr cs)) as Hin by (left; split; [done|]; auto);
      (destruct (Extended res); [|intros s2 _ Hr2; by undisturbed]); (apply wp_seq; [done|]);
      (eapply wp_conseq; [|apply wp_RefreshSessionCookies]); intros cs s2 _ -> s3 _ Hr3; by undisturbed.
  - specialize (Hd2 eq_refl). destruct (ParseBearerToken r) as [token|] eqn:Htok.
    2: { intros s2 _ Hr2. undisturbed. split; [done|]. split; [done|]. right. split; [done|]. intros Hix [Hc|(t & Ht & _)]; [by apply Hd2|congruence]. }
    apply wp_seq; [done|]. eapply wp_conseq; [|apply wp_validAdminBearer]. intros b [w2 h2] _ (Hh2 & Hsame2 & _ & Hb1 & Hb2) s3 _ Hr3.
    undisturbed. cbn [fst snd] in *. pose proof (bearer_same w w1 r Hsame) as Hbs.
    split; [done|]. split; [by eapply sameLogins_trans|]. destruct b.
    + right. apply Hbs. exists token. split; [done|]. by apply Hb1.
    + right. split; [done|]. intros Hix [Hc|Hb]; [by apply Hd2|]. apply Hb2; [done|by apply Hsame|].
      apply Hbs in Hb as (t & Ht & Hb). rewrite Htok in Ht. by injection Ht as <-.
Qed.

Lemma wp_ValidAdminOrSession r w hist :
  alone (ValidAdminOrSession h r) (λ b s, s = (w, hist) ∧ decides w b (cookieLogin w r ∨ bearerLogin w r)) (w, hist).
Proof using SessionStoreLaws0 Hnow.
  unfold ValidAdminOrSession. apply wp_seq; [done|]. eapply wp_conseq; [|apply wp_adminCookieSession].
  intros a [w1 h1] _ (Hh1 & _ & Huse & Hd1 & Hd2); cbn [fst snd] in *; subst h1. rewrite (Huse eq_refl) in *. destruct a as [[tok res]|].
  - intros s2 _ Hr2. undisturbed. split; [done|]. split; [|done]. intros _. left. by apply Hd1.
  - specialize (Hd2 eq_refl). destruct (ParseBearerToken r) as [token|] eqn:Htok.
    2: { intros s2 _ Hr2. undisturbed. split; [done|]. split; [done|]. intros _ Hix [Hc|(t & Ht & _)]; [by apply Hd2|congruence]. }
    eapply wp_conseq; [|apply wp_validAdminBearer]. intros b [w2 h2] _ (Hh2 & _ & Huse2 & Hb1 & Hb2). cbn [fst snd] in *. subst h2.
    rewrite (Huse2 eq_refl). split; [done|]. split.
    + intros Hb. right. exists token. split; [done|]. by apply Hb1.
    + intros Hb Hix [Hc|(t & Ht & Hl)]; [by apply Hd2|]. rewrite Htok in Ht. injection Ht as <-. by apply Hb2.
Qed.

Lemma flows_sessionAuth (mgr : SessionManager (S := S)) token use : flows tid (sessionAuth mgr token use).
Proof using SessionStoreLaws0. destruct use; apply flows_authenticate. Qed.

Lemma flows_adminCookieSession r use : flows tid (adminCookieSession h r use).
Proof using SessionStoreLaws0.
  unfold adminCookieSession. case_match; [|done]. case_match; [|done]. apply flows_bind; [apply flows_sessionAuth|done].
Qed.

Lemma flows_validAdminBearer token use : flows tid (validAdminBearer h token use).
Proof using SessionStoreLaws0.
  unfold validAdminBearer. apply flows_bind; [by intros e w; do 3 eexists|]. intros enabled. case_match; [done|].
  case_match; [|done]. apply flows_bind; [apply flows_sessionAuth|done].
Qed.

Lemma flows_RequireAdminOrSession r : flows tid (RequireAdminOrSession h r).
Proof using SessionStoreLaws0.
  unfold RequireAdminOrSession. apply flows_bind; [apply flows_adminCookieSession|]. intros [[tok res]|].
  - case_match; [done|]. case_match; [|done]. apply flows_bind; [|done]. unfold RefreshSessionCookies.
    apply flows_bind; [by intros e w; do 3 eexists|]. intros t. apply flows_bind; [|done]. unfold RefreshSession.
    repeat case_match; try done; by intros e w; do 3 eexists.
  - case_match; [|done]. apply flows_bind; [apply flows_validAdminBearer|done].
Qed.

Lemma flows_ValidAdminOrSession r : flows tid (ValidAdminOrSession h r).
Proof using SessionStoreLaws0.
  unfold ValidAdminOrSession. apply flows_bind; [apply flows_adminCookieSession|]. intros [?|]; [done|].
  case_match; [apply flows_validAdminBearer|done].
Qed.

End Gate.

(** ** The two-factor login *)

Definition freely (w : World) (now : Time) (key : string) : bool := (Allowed SHA256Hex (loginThrottle w) now key).1.

Definition charged (now : Time) (key : string) (w : World) : World :=
  w ⟦ loginThrottle := RecordFailure SHA256Hex (loginThrottle w) now key ⟧.

Definition cleared (key : string) (w : World) : World :=
  w ⟦ loginThrottle := RecordSuccess SHA256Hex (loginThrottle w) key ⟧.

(** A login of the administrator, as it is first stored. *)
Definition mintedLogin (tid : nat) (now : Time) (tok : string) (w w' : World) : Prop :=
  ∃ id row, drawn w !! id = None ∧ webauthn_sessions (db w) !! id = None ∧
    UserID row = "admin" ∧ Type_ row = "auth_token" ∧ TokenHash row = Some (SHA256Hex tok) ∧
    rounded (now + AuthTokenTTL) (ExpiresAt row) ∧ rounded now (CreatedAt row) ∧
    w' = withSession id row (w ⟦ drawn := <[id := tid]> (drawn w) ⟧).

Section Login.
Context (IDKey : bytes → bytes → Z → Z → Z → nat → bytes).
Context (GenerateCode : string → Time → string + string).
Context {T : Type} `{!TotpStore T, !TotpStoreLaws T} {S : Type} `{!SessionStore S, !SessionStoreLaws S}.
Context (h : AdminHandlers (T := T) (S := S)).
Context (ok : Env → Prop) (now : Time) (Hnow : ∀ e, ok e → env_now e = now) (tid : nat).
Abbreviation alone := (wp ok (λ _, True) (undisturbed tid) tid) (only parsing).

Lemma wp_mint (mgr : SessionManager (S := S)) cred meta w hist :
  alone (CreateAuthToken mgr "admin" cred meta) (λ a s, s.2 = hist ∧
    match a with inr (tok, _) => mintedLogin tid now tok w s.1 | inl _ => True end) (w, hist).
Proof using SessionStoreLaws0 Hnow.
  unfold CreateAuthToken. apply wp_Rand; [done|]. intros s e _ _ Hr. undisturbed.
  destruct (MintHexToken 32 (env_entropy e)).1 as [err|[token tokenHash]] eqn:Hmint; [intros s2 _ Hr2; by undisturbed|].
  assert (tokenHash = SHA256Hex token) as ->.
  { revert Hmint. unfold MintHexToken. intros Hm. by repeat case_match; simplify_eq/=. }
  clear e Hmint. apply wp_let; [done|].
  eapply (wp_conseq _ _ _ _ _ (λ a s, match a with
    | inl _ => s = (w, hist)
    | inr id => drawn w !! id = None ∧ s = (w ⟦ drawn := <[id := tid]> (drawn w) ⟧, hist)
    end)).
  2: { intros s e b w' said _ _ Hr Hx. undisturbed. cbn [fst snd] in *. destruct (env_uuid e) as [id|]; [destruct (drawn w !! id) eqn:Hid; [done|]|];
       simplify_eq; rewrite app_nil_r; (split; [done|]; split; [done|]); intros s2 _ Hr2; by undisturbed. }
  intros [err|id] s _ Hs; [subst s; intros s2 _ Hr2; by undisturbed|]. destruct Hs as [Hid ->].
  apply wp_Rand; [done|]. intros s e _ _ Hr. undisturbed. destruct (RandomHex 32 (env_entropy e)).1 as [err|challenge]; [intros s2 _ Hr2; by undisturbed|].
  apply wp_Now; [done|]. intros s e2 He2 _ Hr2. undisturbed. rewrite (Hnow e2 He2). apply wp_let; [done|].
  eapply wp_does; [done|apply CreateSession_law|]. intros s _ Hr3. undisturbed. cbn [fst snd].
  split; [intros err _ s3 _ Hr3 s4 _ Hr4; by undisturbed|].
  intros e3 [] d' said He3 (-> & Hfree & row & (Hexp & Hcr & Hrow) & ->). rewrite (Hnow e3 He3) in Hcr. rewrite app_nil_r.
  split; [done|]. split; [done|]. intros s _ Hr4. undisturbed. split; [|intros err _ s5 _ Hr5; by undisturbed].
  intros s5 _ Hr5. undisturbed. split; [done|]. exists id, row. apply collides_false in Hfree as [Hfree _].
  split; [done|]. split; [exact Hfree|]. rewrite Hrow. cbn. done.
Qed.

(** What the answer to an admitted login carries. *)
Definition carries (r : Request) (tok : string) (a : response) : Prop :=
  if useCookieAuth h
  then ∃ csrf, a = withCookies (writePair (jar h) tok csrf (Secure r (cookieSecure h)) (wholeSeconds AuthTokenTTL)) (answer Success)
  else a = answer (Token tok).

(** The end of a login whose code was accepted: [w1] is the world the code left. *)
Definition rewarded (r : Request) (a : response) (w1 w' : World) : Prop :=
  status a = 500 ∨
  ∃ tok w2, mintedLogin tid now tok w1 w2 ∧ carries r tok a ∧ w' = cleared accountThrottleKey (cleared (RemoteIP r) w2).

Definition tried (r : Request) (code : string) (a : response) (w w' : World) (hist hist' : list Event) : Prop :=
  let outcome := outcome IDKey GenerateCode (totpRepo h) now code tid in
  (outcome (inr (false, false)) w hist w hist ∧ status a = 401 ∧
     w' = charged now accountThrottleKey (charged now (RemoteIP r) w) ∧ hist' = hist) ∨
  (∃ used w1, outcome (inr (true, used)) w hist w1 hist' ∧ rewarded r a w1 w') ∨
  (status a = 500 ∧ (w' = w ∧ hist' = hist ∨ faulty ok ∧ ∃ used, outcome (inr (true, used)) w hist w' hist')).

Definition loginAnswer (r : Request) (req : Z + string * string) (a : response) (w w' : World) (hist hist' : list Event) : Prop :=
  if totpWired h && totpEnabled w then
    if freely w now (RemoteIP r) && freely w now accountThrottleKey then
      if contentJSON r then
        match req with
        | inl code => a = badBody code ∧ w' = w ∧ hist' = hist
        | inr (token, code) =>
            if ValidateAdmin (adminTokenHash h) token then tried r code a w w' hist hist'
            else status a = 401 ∧ w' = charged now (RemoteIP r) w ∧ hist' = hist
        end
      else status a = 415 ∧ w' = w ∧ hist' = hist
    else status a = 429 ∧ w' = w ∧ hist' = hist
  else status a = 400 ∧ w' = w ∧ hist' = hist.

(** A call of the throttle is one step. *)
Lemma wp_failed key (k : unit → program response) Q w hist :
  alone (k tt) Q (charged now key w, hist) →
  alone (_ ← noteFailure loginThrottle (λ t w, w ⟦ loginThrottle := t ⟧) key; k tt) Q (w, hist).
Proof using Hnow.
  intros Hk. cbn. intros s e b w' said He _ Hr [= <- <- <-]. undisturbed. cbn [fst snd]. rewrite app_nil_r, (Hnow e He). done.
Qed.

Lemma wp_succeeded key (k : unit → program response) Q w hist :
  alone (k tt) Q (cleared key w, hist) →
  alone (_ ← noteSuccess loginThrottle (λ t w, w ⟦ loginThrottle := t ⟧) key; k tt) Q (w, hist).
Proof using Type.
  intros Hk. cbn. intros s e b w' said He _ Hr [= <- <- <-]. undisturbed. cbn [fst snd]. by rewrite app_nil_r.
Qed.

Lemma wp_admits key (k : option response → program response) Q w hist :
  (freely w now key = true → alone (k None) Q (w, hist)) →
  (freely w now key = false → ∀ retry, alone (k (Some (tooMany retry))) Q (w, hist)) →
  alone (throttled ← Admit loginThrottle key; k throttled) Q (w, hist).
Proof using Hnow.
  intros Hin Hout. cbn. intros s e b w' said He _ Hr Hx. undisturbed. cbn [fst snd] in *. unfold freely in *.
  rewrite (Hnow e He) in Hx. destruct (Allowed _ _ _ _) as [[] retry]; injection Hx as <- <- <-; rewrite app_nil_r; cbn in *;
    (split; [done|]; split; [done|]); auto.
Qed.

Lemma wp_reward r w1 hist :
  alone (match sessionMgr h with
         | None => Ret (refuse 500 "session infrastructure not available")
         | Some mgr =>
             minted ← CreateAuthToken mgr "admin" None (metaFrom r);
             match minted with
             | inl _ => Ret (refuse 500 "failed to create session")
             | inr (tok, _) =>
                 _ ← noteSuccess loginThrottle (λ t w, w ⟦ loginThrottle := t ⟧) (RemoteIP r);
                 _ ← noteSuccess loginThrottle (λ t w, w ⟦ loginThrottle := t ⟧) accountThrottleKey;
                 if negb (useCookieAuth h) then Ret (answer (Token tok)) else
                 set ← SetSession (jar h) tok (Secure r (cookieSecure h)) AuthTokenTTL;
                 Ret (match set with
                      | inl _ => refuse 500 "failed to create session"
                      | inr cs => withCookies cs (answer Success)
                      end)
             end
         end) (λ a s, s.2 = hist ∧ rewarded r a w1 s.1) (w1, hist).
Proof using SessionStoreLaws0 Hnow.
  destruct (sessionMgr h) as [mgr|]; [|intros s _ Hr; undisturbed; split; [done|by left]].
  apply wp_seq; [done|]. eapply wp_conseq; [|apply wp_mint]. intros [err|[tok id]] [w2 h2] _ [Hh2 Hm]; cbn in Hh2; subst h2.
  { intros s _ Hr. undisturbed. split; [done|by left]. }
  apply (wp_succeeded _ (λ _, _)), (wp_succeeded _ (λ _, _)). destruct (useCookieAuth h) eqn:Hcookie; cbn [negb].
  - apply wp_seq; [done|]. apply wp_Rand; [done|]. intros s e _ _ Hr. undisturbed. intros s _ Hr.  undisturbed.
    destruct (randomToken _).1 as [err|csrf]; intros s _ Hr3; undisturbed; (split; [done|]); [by left|].
    right. exists tok, w2. split; [done|]. split; [|done]. unfold carries. rewrite Hcookie. by exists csrf.
  - intros s _ Hr. undisturbed. split; [done|]. right. exists tok, w2. split; [done|]. split; [|done]. unfold carries. by rewrite Hcookie.
Qed.

Lemma wp_Login r req w hist :
  alone (Login IDKey GenerateCode h r req) (λ a s, loginAnswer r req a w s.1 hist s.2) (w, hist).
Proof using SessionStoreLaws0 TotpStoreLaws0 Hnow.
  unfold Login, loginAnswer. apply wp_seq; [done|]. intros s e b w' said _ _ Hr [= <- <- <-]. undisturbed. cbn [fst snd]. rewrite app_nil_r.
  split; [done|]. split; [done|]. intros s _ Hr. undisturbed.
  destruct (totpWired h && totpEnabled w); cbn [negb]; [|intros s _ Hr; by undisturbed].
  apply wp_admits; intros Hip; rewrite Hip; [|intros retry s _ Hr; by undisturbed].
  apply wp_admits; intros Hacc; rewrite Hacc; cbn [andb]; [|intros retry s _ Hr; by undisturbed].
  destruct (contentJSON r); cbn [negb]; [|intros s _ Hr; by undisturbed].
  destruct req as [code|[token code]]; [intros s _ Hr; by undisturbed|].
  destruct (ValidateAdmin (adminTokenHash h) token); cbn [negb].
  2: { apply (wp_failed _ (λ _, _)). intros s _ Hr. by undisturbed. }
  apply wp_seq; [done|]. eapply wp_conseq; [|by apply wp_VerifyOrRecover]. unfold tried.
  intros [err|[[] used]] [w1 h1] _ Ho; cbn [fst snd] in Ho.
  - intros s _ Hr. undisturbed. cbn [fst snd]. right; right. split; [done|].
    destruct Ho as [[_ [= -> ->]]|[Hf [[= -> ->]|(used & Ho)]]]; [by left|by left|]. right. split; [done|]. by exists used.
  - eapply wp_conseq; [|apply wp_reward]. intros a [w2 h2] _ [Hh2 Hrew]. cbn in Hh2. subst h2. right; left. by exists used, w1.
  - assert (used = false ∧ w1 = w ∧ h1 = hist) as (-> & -> & ->).
    { unfold outcome in Ho. destruct (verdict _ _ _ _ _) as [[|]|]; [by destruct Ho| |done]. case_decide; [by destruct Ho|]. by destruct Ho as (_ & ? & ? & ?). }
    apply (wp_failed _ (λ _, _)), (wp_failed _ (λ _, _)). intros s _ Hr. undisturbed. cbn [fst snd]. left. done.
Qed.

(** ** It answers *)

Lemma runs_seq {A B : Set} (p : program A) (k : A → program B) s :
  (∃ a s1, runs ok tid p s a s1) → (∀ a s1, runs ok tid p s a s1 → ∃ b s2, runs ok tid (k a) s1 b s2) →
  ∃ b s2, runs ok tid (p ≫= k) s b s2.
Proof using Type.
  intros (a & s1 & Hp) Hk. destruct (Hk a s1 Hp) as (b & s2 & Hb). exists b, s2. apply runs_bind. by exists a, s1.
Qed.

Lemma runs_still e {A B : Set} (p : program A) (k : A → program B) s :
  ok e → flows tid p → alone p (λ _ s1, s1 = s) s → (∀ a, ∃ b s2, runs ok tid (k a) s b s2) →
  ∃ b s2, runs ok tid (p ≫= k) s b s2.
Proof using Type.
  intros He Hp Hs Hk. apply runs_seq; [by eapply flows_runs|]. intros a s1 Hr. rewrite (runs_wp _ _ _ _ _ _ _ Hs Hr). apply Hk.
Qed.

Lemma runs_mint e (mgr : SessionManager (S := S)) who cred meta w hist :
  ok e → (∀ id, env_uuid e = Some id → drawn w !! id = None) →
  ∃ a s, runs ok tid (CreateAuthToken mgr who cred meta) (w, hist) a s.
Proof using SessionStoreLaws0.
  intros He Hid. unfold CreateAuthToken. eapply runs_still; [done|by intros e' w'; do 3 eexists| |].
  { intros s e' b w' said _ _ Hr [= <- <- <-]. undisturbed. cbn. rewrite app_nil_r. split; [done|]. split; [done|]. intros s _ Hr2. by undisturbed. }
  intros rnd. destruct (MintHexToken 32 rnd).1 as [err|[token tokenHash]]; [by eexists _, _|].
  apply runs_seq.
  - destruct (env_uuid e) as [id|] eqn:Hu; eexists _, _, e, _, _, []; rewrite Hu; cbn; rewrite ?(Hid _ eq_refl);
      (split; [done|]; split; [reflexivity|]); by split.
  - intros a s1 _. destruct a as [err|id]; [by eexists _, _|]. eapply flows_runs; [done|]. apply flows_bind; [by intros e' w'; do 3 eexists|].
    intros rnd2. destruct (RandomHex 32 rnd2).1; [done|]. apply flows_bind; [by intros e' w'; do 3 eexists|]. intros t.
    apply flows_try; [eapply does_flows, CreateSession_law|done].
Qed.

Lemma outcome_drawn code a w hist w1 hist1 :
  outcome IDKey GenerateCode (totpRepo h) now code tid a w hist w1 hist1 → drawn w1 = drawn w.
Proof using Type.
  unfold outcome. destruct a as [|[b used]]; [done|]. destruct (verdict _ _ _ _ _) as [[step|]|]; [| |done].
  - by intros (_ & _ & _ & [-> _] & _).
  - case_decide; [by intros (_ & _ & _ & [-> _] & _)|by intros (_ & _ & -> & _)].
Qed.

Lemma runs_Login e r req w hist :
  ok e → (∀ id, env_uuid e = Some id → drawn w !! id = None) →
  ∃ a s, runs ok tid (Login IDKey GenerateCode h r req) (w, hist) a s.
Proof using SessionStoreLaws0 TotpStoreLaws0 Hnow.
  intros He Hid. unfold Login. eapply runs_still; [done|by intros e' w'; do 3 eexists| |].
  { intros s e' b w' said _ _ Hr [= <- <- <-]. undisturbed. cbn. rewrite app_nil_r. split; [done|]. split; [done|]. intros s _ Hr2. by undisturbed. }
  intros []; cbn [negb]; [|by eexists _, _].
  assert (∀ key (k : option response → program response), (∀ a, ∃ b s2, runs ok tid (k a) (w, hist) b s2) →
    ∃ b s2, runs ok tid (throttled ← Admit loginThrottle key; k throttled) (w, hist) b s2) as Hadmit.
  { intros key k Hk. eapply runs_still; [done|by intros e' w'; do 3 eexists| |done].
    intros s e' b w' said _ _ Hr Hx. undisturbed. cbn in Hx. destruct (Allowed _ _ _ _) as [[] retry]; injection Hx as <- <- <-;
      cbn; rewrite app_nil_r; (split; [done|]; split; [done|]); intros s _ Hr2; by undisturbed. }
  apply Hadmit. intros [refusal|]; [by eexists _, _|]. apply Hadmit. intros [refusal|]; [by eexists _, _|].
  destruct (contentJSON r); cbn [negb]; [|by eexists _, _]. destruct req as [code|[token code]]; [by eexists _, _|].
  destruct (ValidateAdmin (adminTokenHash h) token); cbn [negb].
  2: { eapply flows_runs; [done|]. apply flows_bind; [by intros e' w'; do 3 eexists|done]. }
  apply runs_seq; [eapply flows_runs; [done|eapply flows_VerifyOrRecover; apply _]|]. intros a [w1 h1] Hr.
  pose proof (runs_wp _ _ _ _ _ _ _ (wp_VerifyOrRecover IDKey GenerateCode (totpRepo h) ok now tid code w hist Hnow) Hr) as Ho.
  destruct a as [err|[[] used]]; [by eexists _, _| |].
  - cbn [fst snd] in Ho. apply outcome_drawn in Ho. destruct (sessionMgr h) as [mgr|]; [|by eexists _, _].
    apply runs_seq; [apply (runs_mint e); [done|by rewrite Ho]|]. intros a s1 _. destruct a as [err|[tok id]]; [by eexists _, _|].
    eapply flows_runs; [done|]. do 2 (apply flows_bind; [by intros e' w'; do 3 eexists|]; intros _).
    case_match; [done|]. apply flows_bind; [|done]. apply flows_bind; [by intros e' w'; do 3 eexists|done].
  - eapply flows_runs; [done|]. do 2 (apply flows_bind; [by intros e' w'; do 3 eexists|]; intros _). done.
Qed.

End Login.

(** ** Concrete inputs *)

Definition demoHandlers : AdminHandlers (T := PgAccount) (S := WebAuthnStore) :=
  MkAdminHandlers demoRepository (SHA256Hex "raw") (Some demoManager) true Dashboard "never" true false.

Definition demoBearer : Request :=
  MkRequest "POST" ∅ {["Authorization" := "Bearer raw"]} false true "10.0.0.1" "agent".

Definition demoTick (tid : nat) : Env := MkEnv demoNow Works (drop tid (counting 110)) (Some (pretty (N.of_nat tid))).

Lemma demo_clock f e : atDemo f e → env_now e = demoNow.
Proof. by intros [? _]. Qed.

Lemma demo_ticks n tid : Forall (atDemo (eq Works)) (replicate n (demoTick tid)).
Proof. apply Forall_replicate. split; reflexivity. Qed.

Definition demoRefused : option ((response + list setCookie) * @St World Event) :=
  exec 3 (RequireAdminOrSession demoHandlers demoBearer) (replicate 2 (demoTick 3)) (demoWorld, []).

Definition refusedStill (c : (response + list setCookie) * @St World Event) : Prop :=
  c.2 = (demoWorld, []) ∧ match c.1 with inl _ => True | inr _ => False end.

Lemma demoRefused_says : match demoRefused with Some c => refusedStill c | None => False end.
Proof. vm_compute. split; [reflexivity|exact I]. Qed.

Lemma demoRefused_run :
  ∃ refusal, runs (atDemo (eq Works)) 3 (RequireAdminOrSession demoHandlers demoBearer) (demoWorld, []) (inl refusal) (demoWorld, []).
Proof.
  destruct (ends_in demoRefused refusedStill demoRefused_says) as ([[refusal|cs] s] & He & Hs & Hin); [|destruct Hin].
  cbn [fst snd] in Hs. subst s. exists refusal. apply (exec_runs (atDemo (eq Works))) in He; [exact He|apply demo_ticks].
Qed.


Definition demoLoggedIn : option (response * @St World Event) :=
  exec 3 (Login demoIDKey demoGenerateCode demoHandlers demoBearer (inr ("raw", "666666"))) (replicate 14 (demoTick 3)) (demoWorld, []).

Definition steppedIn (c : response * @St World Event) : Prop := status c.1 = 200 ∧ c.2.2 = [StepRecorded 3 None 56666666].

Lemma demoLoggedIn_says : match demoLoggedIn with Some c => steppedIn c | None => False end.
Proof. vm_compute. split; reflexivity. Qed.

Lemma demoLoggedIn_run :
  ∃ a w', status a = 200 ∧ runs (atDemo (eq Works)) 3 (Login demoIDKey demoGenerateCode demoHandlers demoBearer (inr ("raw", "666666")))
    (demoWorld, []) a (w', [StepRecorded 3 None 56666666]).
Proof.
  destruct (ends_in demoLoggedIn steppedIn demoLoggedIn_says) as ([a [w' h']] & He & Hst & Hh). cbn [fst snd] in Hst, Hh. subst h'.
  exists a, w'. split; [exact Hst|]. apply (exec_runs (atDemo (eq Works))) in He; [exact He|apply demo_ticks].
Qed.

Lemma demo_open :
  totpWired demoHandlers && totpEnabled demoWorld = true ∧
  freely demoWorld demoNow (RemoteIP demoBearer) && freely demoWorld demoNow accountThrottleKey = true ∧
  ValidateAdmin (adminTokenHash demoHandlers) "raw" = true.
Proof. vm_compute. repeat split. Qed.


(** Disabling whose commit is done but not heard of: the caller is told 500, the
    enrolment is gone, and the gate stays closed. *)
Example disable_strands_gate :
  match exec 3 (DisableHandler demoIDKey demoGenerateCode demoHandlers demoBearer (inr demoTyped))
    (replicate 8 (demoEnv Works) ++ [demoEnv Unheard; demoEnv Works]) (demoWorld, []) with
  | Some (a, (w, _)) => (status a, admin_totp (db w), totpEnabled w) = (500, None, true)
  | None => False
  end.
Proof. vm_compute. reflexivity. Qed.
