(* ===== verification/UserAuth.v ===== *)
(** * A user's own second factor (internal/api/usertotp.go)

    The self-service handlers of a users-row identity and the administrator's
    reset, each under that user's lock. *)

From S2P Require Import Prelude Crypto Encryption Threads LoginThrottle AuthWorld TotpStore SecondFactor SessionStore Sessions AuthCookie AdminAuth.

(** What the authentication middleware resolved: the env-token admin has no
    users row. *)
Record Identity := MkIdentity { id_UserID : option string; id_Username : string }.

Inductive userAnswer :=
| Refused (resp : response)
| UserStatus (enabled : bool) (enabledAt : option Time) (recovery : option (nat * nat))
| UserProvisional (uri secret : string)
| UserCodes (codes : list string)
| OKTrue.

Section UserHandlers.
Context (IDKey : bytes → bytes → Z → Z → Z → nat → bytes).
Context (Generate : string → string → Entropy → (string + string * string) * Entropy).
Context (GenerateCode : string → Time → string + string).
Context {T : Type} `{!TotpStore T}.

(** The factory of per-user repositories, nil when the surface is not wired. *)
Context (userTotp : option (string → Repository (S := T))).

Definition callerTotpRepo (id : option Identity) : response + Repository (S := T) * string * string :=
  match userTotp with
  | None => inl (refuse 404 "per-user TOTP is not available")
  | Some make =>
      match id with
      | Some (MkIdentity (Some uid) name) => inr (make uid, uid, name)
      | _ => inl (refuse 400 "not a user account; admins use /api/totp")
      end
  end.

Definition lockUserTotp {A : Set} (userID : string) (p : program A) : program A := locked (Some userID) p.

Definition UserTotpStatus (id : option Identity) : program userAnswer :=
  match callerTotpRepo id with
  | inl refusal => Ret (Refused refusal)
  | inr (repo, _, _) =>
      enabled ← IsEnabled (store repo);
      match enabled with
      | inl _ => Ret (Refused (refuse 500 "failed to read TOTP status"))
      | inr false => Ret (UserStatus false None None)
      | inr true =>
          at_ ← EnabledAt (store repo);
          info ← Info repo;
          Ret (UserStatus true
                 (match at_ with inr (Some t) => Some t | _ => None end)
                 (match info with inr i => Some (RecoveryRemaining i, RecoveryTotal i) | inl _ => None end))
      end
  end.

Definition UserTotpEnrollStart (id : option Identity) : program userAnswer :=
  match callerTotpRepo id with
  | inl refusal => Ret (Refused refusal)
  | inr (repo, uid, name) =>
      lockUserTotp uid (
        enabled ← IsEnabled (store repo);
        match enabled with
        | inl _ => Ret (Refused (refuse 500 "failed to read TOTP status"))
        | inr true => Ret (Refused (refuse 409 "disable TOTP before re-enrolling"))
        | inr false =>
            enrolled ← EnrollAs IDKey Generate repo name;
            Ret (match enrolled with
                 | inl _ => Refused (refuse 500 "totp: enroll failed")
                 | inr (uri, secret) => UserProvisional uri secret
                 end)
        end)
  end.

Abbreviation ask key := (Admit pwThrottle key).
Abbreviation failed key := (noteFailure pwThrottle (λ t w, w ⟦ pwThrottle := t ⟧) key).
Abbreviation succeeded key := (noteSuccess pwThrottle (λ t w, w ⟦ pwThrottle := t ⟧) key).

Definition UserTotpEnrollVerify (id : option Identity) (req : Z + string) : program userAnswer :=
  match callerTotpRepo id with
  | inl refusal => Ret (Refused refusal)
  | inr (repo, uid, _) =>
      match req with
      | inl code => Ret (Refused (badBody code))
      | inr code =>
          lockUserTotp uid (
            enabled ← IsEnabled (store repo);
            match enabled with
            | inl _ => Ret (Refused (refuse 500 "failed to read TOTP status"))
            | inr true => Ret (Refused (refuse 409 "disable TOTP before re-enrolling"))
            | inr false =>
                throttled ← ask uid;
                match throttled with
                | Some refusal => Ret (Refused refusal)
                | None =>
                    verified ← Verify IDKey GenerateCode repo code;
                    match verified with
                    | inl _ => Ret (Refused (refuse 500 "totp: verify failed"))
                    | inr false => _ ← failed uid; Ret (Refused (refuse 400 "invalid TOTP code"))
                    | inr true =>
                        _ ← succeeded uid;
                        codes ← GenerateRecoveryCodes repo;
                        match codes with
                        | inl _ => Ret (Refused (refuse 500 "totp: failed to generate recovery codes"))
                        | inr codes =>
                            on ← EnableTotp repo;
                            Ret (match on with
                                 | inl _ => Refused (refuse 500 "totp: enable failed")
                                 | inr _ => UserCodes codes
                                 end)
                        end
                    end
                end
            end)
      end
  end.

Definition UserTotpDisable (id : option Identity) (req : Z + string) : program userAnswer :=
  match callerTotpRepo id with
  | inl refusal => Ret (Refused refusal)
  | inr (repo, uid, _) =>
      match req with
      | inl code => Ret (Refused (badBody code))
      | inr code =>
          lockUserTotp uid (
            throttled ← ask uid;
            match throttled with
            | Some refusal => Ret (Refused refusal)
            | None =>
                authorized ← DisableWithCode IDKey GenerateCode repo code;
                match authorized with
                | inl _ => Ret (Refused (refuse 500 "totp: disable failed"))
                | inr false => _ ← failed uid; Ret (Refused (refuse 403 "invalid TOTP or recovery code"))
                | inr true => _ ← succeeded uid; Ret OKTrue
                end
            end)
      end
  end.

(** The administrator's way out of a lockout; [id] is the parsed path parameter. *)
Definition ResetUserTotp (id : string) : program userAnswer :=
  match userTotp with
  | None => Ret (Refused (refuse 404 "per-user TOTP is not available"))
  | Some make =>
      known ← query "load user" (λ _ d, bool_decide (id ∈ users d));
      match known with
      | inl _ => Ret (Refused (refuse 500 "failed to load user"))
      | inr false => Ret (Refused (refuse 404 "user not found"))
      | inr true =>
          lockUserTotp id (
            off ← DisableTotp (make id);
            Ret (match off with inl _ => Refused (refuse 500 "failed to reset TOTP") | inr _ => OKTrue end))
      end
  end.
End UserHandlers.
