(* ===== verification/SessionHandlers.v ===== *)
(** * Signing out (internal/api/auth_logout.go, auth_sessions.go,
    internal/frontdesk/server_sessions.go and server.go)

    Logout and the active-sessions surface of both front ends, and how far a
    sign-out reaches. *)

From S2P Require Import Prelude Crypto Encryption Threads LoginThrottle AuthWorld TotpStore SecondFactor SessionStore Sessions AuthCookie AdminAuth UserAuth.

Inductive sessionAnswer :=
| Failed (code : Z) (message : string)
| LoggedOut (cookies : list setCookie)
| Listing (sessions : list AuthSessionInfo)
| NoContent
| Revoked (n : nat).

Section Handlers.
Context {S : Type} `{!SessionStore S}.

(** *** The dashboard *)

Section Dashboard.
Context (webauthnSessionMgr : option (SessionManager (S := S))) (CookieSecure : string).

Definition AuthLogout (r : Request) : program sessionAnswer :=
  let tok := match SessionToken Dashboard r with Some tok => Some tok | None => ParseBearerToken r end in
  _ ← match tok, webauthnSessionMgr with
      | Some tok, Some mgr => RevokeAuthToken mgr tok
      | _, _ => Ret false
      end;
  let csrfPresent := match Cookies r !! CSRFCookie Dashboard with Some v => negb (bool_decide (v = "")) | None => false end in
  Ret (LoggedOut (if bool_decide (is_Some tok) || csrfPresent then ClearSession Dashboard (Secure r CookieSecure) else [])).

(** The identity is the middleware's; a missing credential is the empty string. *)
Definition sessionCallerContext (id : option Identity) (r : Request) : option (string * list string) :=
  match id with
  | None => None
  | Some id =>
      Some (default "admin" (id_UserID id), [default "" (SessionToken Dashboard r); default "" (ParseBearerToken r)])
  end.

Definition sessionCaller (id : option Identity) (r : Request)
  : sessionAnswer + SessionManager (S := S) * string * list string :=
  match webauthnSessionMgr with
  | None => inl (Failed 412 "session management is not configured")
  | Some mgr =>
      match sessionCallerContext id r with
      | None => inl (Failed 401 "unauthenticated")
      | Some (identity, candidates) => inr (mgr, identity, candidates)
      end
  end.

Definition ListAuthSessionsHandler (id : option Identity) (r : Request) : program sessionAnswer :=
  match sessionCaller id r with
  | inl refusal => Ret refusal
  | inr (mgr, identity, candidates) =>
      sessions ← ListAuthSessions mgr identity candidates;
      Ret (match sessions with inl _ => Failed 500 "failed to list sessions" | inr l => Listing l end)
  end.

(** [param] is the path's id as [parseUUIDParam] read it. *)
Definition RevokeAuthSessionByID (id : option Identity) (r : Request) (param : option string) : program sessionAnswer :=
  match sessionCaller id r with
  | inl refusal => Ret refusal
  | inr (mgr, identity, candidates) =>
      match param with
      | None => Ret (Failed 400 "invalid session id")
      | Some sessionID =>
          revoked ← RevokeSessionByID mgr identity sessionID candidates;
          Ret (match revoked with
               | inr RevokedIt => NoContent
               | inr ErrCurrentSession => Failed 409 "cannot sign out the current session; use logout instead"
               | inr NoSuchSession => Failed 404 "session not found"
               | inl _ => Failed 500 "failed to revoke session"
               end)
      end
  end.

Definition RevokeOtherSessionsHandler (id : option Identity) (r : Request) : program sessionAnswer :=
  match sessionCaller id r with
  | inl refusal => Ret refusal
  | inr (mgr, identity, candidates) =>
      revoked ← RevokeOtherSessions mgr identity candidates;
      Ret (match revoked with inl _ => Failed 500 "failed to revoke other sessions" | inr n => Revoked n end)
  end.
End Dashboard.

(** *** The front desk: one identity *)

Section FrontDesk.
Context (sessionMgr : SessionManager (S := S)) (cookieSecure : string).

Definition fdAdminIdentity : string := "admin".

Definition sessionCandidates (r : Request) : list string :=
  [default "" (SessionToken FrontDesk r); default "" (ParseBearerToken r)].

Definition listAuthSessions (r : Request) : program sessionAnswer :=
  sessions ← ListAuthSessions sessionMgr fdAdminIdentity (sessionCandidates r);
  Ret (match sessions with inl _ => Failed 500 "internal error" | inr l => Listing l end).

Definition revokeAuthSession (r : Request) (param : option string) : program sessionAnswer :=
  match param with
  | None => Ret (Failed 400 "session id must be a UUID")
  | Some sessionID =>
      revoked ← RevokeSessionByID sessionMgr fdAdminIdentity sessionID (sessionCandidates r);
      Ret (match revoked with
           | inr RevokedIt => NoContent
           | inr ErrCurrentSession => Failed 409 "cannot sign out the current session; use logout instead"
           | inr NoSuchSession => Failed 404 "session not found"
           | inl _ => Failed 500 "internal error"
           end)
  end.

Definition revokeOtherSessions (r : Request) : program sessionAnswer :=
  revoked ← RevokeOtherSessions sessionMgr fdAdminIdentity (sessionCandidates r);
  Ret (match revoked with inl _ => Failed 500 "internal error" | inr n => Revoked n end).

Definition logout (r : Request) : program sessionAnswer :=
  let token := match SessionToken FrontDesk r with Some token => Some token | None => ParseBearerToken r end in
  _ ← match token with Some token => RevokeAuthToken sessionMgr token | None => Ret false end;
  let csrfPresent := match Cookies r !! CSRFCookie FrontDesk with Some v => negb (bool_decide (v = "")) | None => false end in
  Ret (LoggedOut (if bool_decide (is_Some token) || csrfPresent then ClearSession FrontDesk (Secure r cookieSecure) else [])).
End FrontDesk.
End Handlers.

(** ** How far a sign-out reaches *)

(** The caller's own login among the credentials its request carried: the first
    that is live and its own. *)
Definition ownLogin (identity : string) (now : Time) (m : sessions) (hash : string) : bool :=
  match byTokenHash hash m with
  | None => false
  | Some (_, s) => negb (Before (ExpiresAt s) now) && bool_decide (UserID s = identity)
  end.

Definition spared (identity : string) (now : Time) (m : sessions) (tokens : list string) : string :=
  default "" (List.find (ownLogin identity now m) (candidateHashes tokens)).

Section Reach.
Context {S : Type} `{!SessionStore S, !SessionStoreLaws S} (m : SessionManager (S := S)).
Context (ok : Env → Prop) (now : Time) (Hnow : ∀ e, ok e → env_now e = now) (tid : nat).
Abbreviation alone := (wp ok (λ _, True) (undisturbed tid) tid) (only parsing).

Lemma wp_keepFor identity hashes w h :
  alone (keepFor m identity hashes) (λ a s, s = (w, h) ∧ match a with
    | inl _ => faulty ok
    | inr keep => keep = default "" (List.find (ownLogin identity now (webauthn_sessions (db w))) hashes)
    end) (w, h).
Proof using SessionStoreLaws0 Hnow.
  induction hashes as [|hash hashes IH]; cbn [keepFor List.find]; [intros s _ Hr; by undisturbed|].
  apply wp_let; [done|]. eapply wp_looks; [done|apply GetSessionByTokenHash_law|]. intros s1 _ Hr1. undisturbed. cbn [fst snd].
  split; [intros err Hf s2 _ Hr2 s3 _ Hr3; by undisturbed|]. intros _ _ _ _ s2 _ Hr2. undisturbed.
  assert (∀ b, ownLogin identity now (webauthn_sessions (db w)) hash = b →
    (if b then alone (Ret (inr hash)) else alone (keepFor m identity hashes)) (λ a s, s = (w, h) ∧ match a with
      | inl _ => faulty ok
      | inr keep => keep = default "" (if ownLogin identity now (webauthn_sessions (db w)) hash then Some hash
          else List.find (ownLogin identity now (webauthn_sessions (db w))) hashes)
      end) (w, h)) as Hgo.
  { intros [] ->; [intros s3 _ Hr3; by undisturbed|exact IH]. }
  unfold ownLogin in Hgo at 1. destruct (byTokenHash hash (webauthn_sessions (db w))) as [[id row]|]; [|exact (Hgo false eq_refl)].
  apply wp_Now; [done|]. intros s3 e He _ Hr3. undisturbed. rewrite (Hnow e He) in *.
  destruct (Before (ExpiresAt row) now); [exact (Hgo false eq_refl)|]. cbn [negb andb] in Hgo.
  case_decide as Hu; [apply (Hgo true); by apply bool_decide_eq_true|apply (Hgo false); by apply bool_decide_eq_false].
Qed.

Lemma flows_keepFor identity hashes : flows tid (keepFor m identity hashes).
Proof using SessionStoreLaws0.
  induction hashes as [|hash hashes IH]; cbn [keepFor]; [done|]. apply flows_try; [eapply does_flows, GetSessionByTokenHash_law|].
  intros [[id s]|]; [|done]. apply flows_bind; [by intros e w; do 3 eexists|]. intros t. case_match; [done|]. by case_decide.
Qed.

Lemma flows_RevokeOtherSessions identity tokens : flows tid (RevokeOtherSessions m identity tokens).
Proof using SessionStoreLaws0.
  unfold RevokeOtherSessions. case_decide; [done|]. apply flows_try; [apply flows_keepFor|].
  intros keep. eapply does_flows, DeleteOtherSessionsForUser_law.
Qed.

Definition withSessions (rows : sessions) (w : World) : World := w ⟦ db := (db w) ⟦ webauthn_sessions := rows ⟧ ⟧.

Lemma withSessions_id w : withSessions (webauthn_sessions (db w)) w = w.
Proof using Type. by destruct w as [[]]. Qed.

Lemma wp_RevokeOtherSessions identity tokens w h :
  let gone := othersGone identity (spared identity now (webauthn_sessions (db w)) tokens) (webauthn_sessions (db w)) in
  alone (RevokeOtherSessions m identity tokens) (λ a s,
    (s.1 = w ∧ (∀ n, a = inr n → identity = "") ∨ identity ≠ "" ∧ s.1 = withSessions gone w) ∧
    (∀ err, a = inl err → faulty ok)) (w, h).
Proof using SessionStoreLaws0 Hnow.
  intros gone. unfold RevokeOtherSessions. case_decide as Hid; [intros s _ Hr; undisturbed; split; [by left|done]|].
  apply wp_let; [done|]. eapply wp_conseq; [|apply wp_keepFor]. intros [err|keep] s1 _ [-> Hk].
  { intros s2 _ Hr2. undisturbed. split; [by left|done]. }
  eapply wp_does; [done|apply DeleteOtherSessionsForUser_law|]. intros s2 _ Hr2. undisturbed. cbn [fst snd].
  split; [intros err [Hf|[]] s3 _ Hr3; undisturbed; split; [by left|done]|].
  intros e a d' said _ (-> & t & _ & ->). split; [done|]. split; [done|]. intros s3 _ Hr3. undisturbed.
  split; [|intros err Hf]; (split; [by right|]); [done|by intros].
Qed.

Lemma wp_RevokeSessionByID identity id tokens w h :
  let rows := webauthn_sessions (db w) in
  alone (RevokeSessionByID m identity id tokens) (λ a s,
    (s.1 = w ∧ a ≠ inr RevokedIt ∨
     (∃ r, rows !! id = Some r ∧ UserID r = identity ∧ Type_ r = "auth_token" ∧
        ∀ t, t ∈ tokens → t ≠ "" → TokenHash r ≠ Some (SHA256Hex t)) ∧ s.1 = withSessions (delete id rows) w ∧
       (a = inr RevokedIt ∨ faulty ok)) ∧
    (a = inr ErrCurrentSession → ∃ r t, rows !! id = Some r ∧ t ∈ tokens ∧ t ≠ "" ∧ TokenHash r = Some (SHA256Hex t)) ∧
    (∀ err, a = inl err → faulty ok)) (w, h).
Proof using SessionStoreLaws0.
  intros rows. unfold RevokeSessionByID. case_decide; [intros s _ Hr; undisturbed; by split; [left|]|].
  apply wp_let; [done|]. eapply wp_looks; [done|apply GetSession_law|]. intros s1 _ Hr1. undisturbed. cbn [fst snd].
  split; [intros err Hf s2 _ Hr2 s3 _ Hr3; undisturbed; by split; [left|]|]. intros _ _ _ _ s2 _ Hr2. undisturbed.
  unfold byId. fold rows. destruct (rows !! id) as [r|] eqn:Hrow; [|intros s3 _ Hr3; undisturbed; by split; [left|]].
  case_decide as Hmine; [|intros s3 _ Hr3; undisturbed; by split; [left|]]. destruct Hmine as [Ht Hu].
  destruct (match TokenHash r with Some hash => bool_decide (hash ∈ candidateHashes tokens) | None => false end) eqn:Hcur.
  { intros s3 _ Hr3. undisturbed. split; [by left|]. split; [|done]. intros _.
    destruct (TokenHash r) as [hash|] eqn:Hhash; [|done]. apply bool_decide_eq_true in Hcur.
    apply list_elem_of_fmap in Hcur as (t & -> & Ht'). apply list_elem_of_filter in Ht' as [Hne Hin]. by exists r, t. }
  assert (∀ t, t ∈ tokens → t ≠ "" → TokenHash r ≠ Some (SHA256Hex t)) as Hother.
  { intros t Hin Hne Hh. rewrite Hh in Hcur. apply bool_decide_eq_false in Hcur. apply Hcur.
    apply list_elem_of_fmap. exists t. split; [done|]. by apply list_elem_of_filter. }
  apply wp_let; [done|]. eapply wp_does; [done|apply DeleteSession_law|]. intros s3 _ Hr3. undisturbed. cbn [fst snd].
  split; [intros err [Hf|[]] s4 _ Hr4 s5 _ Hr5; undisturbed; by split; [left|]|].
  intros e a d' said _ Hd. unfold drops, dropSession in Hd. fold rows in Hd. rewrite Hrow in Hd. simplify_eq.
  split; [done|]. split; [done|]. intros s4 _ Hr4. undisturbed. split.
  - intros s5 _ Hr5. undisturbed. split; [right; split; [by exists r|by split; [|left]]|]. by split.
  - intros err Hf s5 _ Hr5. undisturbed. split; [right; split; [by exists r|by split; [|right]]|]. by split.
Qed.

Lemma flows_RevokeSessionByID identity id tokens : flows tid (RevokeSessionByID m identity id tokens).
Proof using SessionStoreLaws0.
  unfold RevokeSessionByID. case_decide; [done|]. apply flows_try; [eapply does_flows, GetSession_law|].
  intros [[i s]|]; [|done]. case_decide; [|done]. case_match; [done|]. apply flows_try; [eapply does_flows, DeleteSession_law|done].
Qed.

Lemma spared_spec identity rows tokens :
  let own t := t ≠ "" ∧ ownLogin identity now rows (SHA256Hex t) = true in
  (spared identity now rows tokens = "" ∧ ∀ t, t ∈ tokens → ¬ own t) ∨
  ∃ t, t ∈ tokens ∧ own t ∧ spared identity now rows tokens = SHA256Hex t.
Proof using Type.
  intros own. unfold spared. destruct (List.find _ _) as [hash|] eqn:Hf; cbn [default from_option].
  - right. apply find_some in Hf as [Hin Hown]. apply list_elem_of_In, list_elem_of_fmap in Hin as (t & -> & Ht).
    apply list_elem_of_filter in Ht as [Hne Hin]. by exists t.
  - left. split; [done|]. intros t Hin [Hne Hown].
    assert (SHA256Hex t ∈ candidateHashes tokens) as Ht by (apply list_elem_of_fmap; exists t; split; [done|]; by apply list_elem_of_filter).
    apply list_elem_of_In in Ht. by rewrite (find_none _ _ Hf _ Ht) in Hown.
Qed.

(** C18. How far signing out reaches. Both sign-outs always come back, and change
    nothing but the sessions table. Signing the other devices out deletes no row
    of another identity, no login state or ceremony, and not the caller's own
    login - the first credential of the request that is a live login of that
    identity, if there is one; when it reports success, every other login of the
    identity is gone. Signing one session out deletes that row only, and only if
    it is a login of the identity that none of the request's credentials opens:
    the session the request rides on is refused, and survives. An error means the
    store failed. *)
Theorem sign_out_scoped e identity tokens id w h :
  ok e →
  let rows := webauthn_sessions (db w) in
  let keep := spared identity now rows tokens in
  let login r := UserID r = identity ∧ Type_ r = "auth_token" in
  ((keep = "" ∧ ∀ t, t ∈ tokens → t ≠ "" → ownLogin identity now rows (SHA256Hex t) = false) ∨
   ∃ t, t ∈ tokens ∧ t ≠ "" ∧ ownLogin identity now rows (SHA256Hex t) = true ∧ keep = SHA256Hex t) ∧
  (∃ a s, runs ok tid (RevokeOtherSessions m identity tokens) (w, h) a s) ∧
  (∀ a w' h', runs ok tid (RevokeOtherSessions m identity tokens) (w, h) a (w', h') →
     ∃ left_, w' = withSessions left_ w ∧
       (∀ i r, left_ !! i = Some r → rows !! i = Some r) ∧
       (∀ i r, rows !! i = Some r → ¬ login r ∨ TokenHash r = Some keep → left_ !! i = Some r) ∧
       (∀ n i r, a = inr n → identity ≠ "" → left_ !! i = Some r → login r → TokenHash r = Some keep) ∧
       (∀ err, a = inl err → faulty ok)) ∧
  (∃ a s, runs ok tid (RevokeSessionByID m identity id tokens) (w, h) a s) ∧
  (∀ a w' h', runs ok tid (RevokeSessionByID m identity id tokens) (w, h) a (w', h') →
     (w' = w ∧ a ≠ inr RevokedIt ∨
      w' = withSessions (delete id rows) w ∧ (a = inr RevokedIt ∨ faulty ok) ∧
        ∃ r, rows !! id = Some r ∧ login r ∧ ∀ t, t ∈ tokens → t ≠ "" → TokenHash r ≠ Some (SHA256Hex t)) ∧
     (a = inr ErrCurrentSession → w' = w ∧ ∃ r t, rows !! id = Some r ∧ t ∈ tokens ∧ TokenHash r = Some (SHA256Hex t)) ∧
     (∀ err, a = inl err → faulty ok)).
Proof using SessionStoreLaws0 Hnow.
  intros He rows keep login. split; [|split; [|split; [|split]]].
  - destruct (spared_spec identity rows tokens) as [[Hk Hn]|(t & Ht & [Hne Ho] & Hk)]; [left; split; [done|]|right; by exists t].
    intros t Ht Hne. apply not_true_iff_false. intros Ho. by apply (Hn t Ht).
  - destruct (flows_runs ok e tid _ (w, h) He (flows_RevokeOtherSessions identity tokens)) as (a & s & Hr). by exists a, s.
  - intros a w' h' Hr. destruct (runs_wp _ _ _ _ _ _ _ (wp_RevokeOtherSessions identity tokens w h) Hr) as [Hw Herr]. cbn [fst] in Hw.
    destruct Hw as [[-> Hn]|[Hid ->]].
    + exists rows. split; [symmetry; apply withSessions_id|]. repeat (split; [done|]). split; [|done].
      intros n i r Ha Hne. by destruct Hne; apply (Hn n).
    + eexists. split; [done|]. split; [by intros i r [? _]%map_lookup_filter_Some|]. split; [|split; [|done]].
      * intros i r Hrow Hkeep. apply map_lookup_filter_Some. split; [done|]. cbn. intros (? & ? & Hh). by destruct Hkeep as [Hl|?]; [apply Hl|].
      * intros n i r _ _ [_ Hl]%map_lookup_filter_Some [Hu Ht]. destruct (decide (TokenHash r = Some keep)); [done|]. by destruct Hl.
  - destruct (flows_runs ok e tid _ (w, h) He (flows_RevokeSessionByID identity id tokens)) as (a & s & Hr). by exists a, s.
  - intros a w' h' Hr. destruct (runs_wp _ _ _ _ _ _ _ (wp_RevokeSessionByID identity id tokens w h) Hr) as (Hw & Hcur & Herr).
    cbn [fst] in Hw. split; [|split; [|done]].
    + destruct Hw as [?|((r & H1 & H2 & H3 & H4) & -> & Ha)]; [by left|]. right. split; [done|]. split; [done|]. by exists r.
    + intros Ha. destruct (Hcur Ha) as (r & t & H1 & H2 & Hne & H3). split; [|by exists r, t].
      destruct Hw as [[-> _]|((r' & H1' & _ & _ & H4) & _ & _)]; [done|]. exfalso. rewrite H1 in H1'. simplify_eq. by apply (H4 t).
Qed.
End Reach.

(** ** Concrete inputs *)

Definition demoSessions : World :=
  let login who token := demoLogin who token demoNow in
  demoWorld ⟦ db := emptyDB ⟦ webauthn_sessions :=
    <["here" := login "admin" "own"]> (<["there" := login "admin" "other"]> {["bob" := login "bob" "bobs"]}) ⟧ ⟧.

(** Of two logins of the administrator and one of a user, only the caller's own
    and the user's are left. *)
Lemma sign_out_scoped_witness :
  ∃ w' h', runs (atDemo (eq Works)) 3 (RevokeOtherSessions demoManager "admin" ["own"; ""]) (demoSessions, []) (inr 1%nat) (w', h') ∧
    is_Some (webauthn_sessions (db w') !! "here") ∧ is_Some (webauthn_sessions (db w') !! "bob") ∧
    ∀ r, webauthn_sessions (db w') !! "there" ≠ Some r.
Proof.
  destruct (exec 3 (RevokeOtherSessions demoManager "admin" ["own"; ""])
    (replicate 3 (demoEnv Works)) (demoSessions, [])) as [[a [w' h']]|] eqn:He; [|exfalso; vm_compute in He; discriminate He].
  assert (a = inr 1%nat) as -> by (vm_compute in He; by injection He as <- _ _).
  apply (exec_runs (atDemo (eq Works))) in He; [|by repeat constructor]. exists w', h'. split; [exact He|].
  destruct (sign_out_scoped demoManager (atDemo (eq Works)) demoNow ltac:(by intros e [? _]) 3 (demoEnv Works) "admin" ["own"; ""] "here"
    demoSessions []) as (_ & _ & Hall & _); [done|].
  destruct (Hall _ _ _ He) as (left_ & -> & Hsub & Hstay & Hgone & _).
  assert (spared "admin" demoNow (webauthn_sessions (db demoSessions)) ["own"; ""] = SHA256Hex "own") as Hk by (vm_compute; reflexivity).
  rewrite Hk in Hstay, Hgone. split; [|split].
  - eexists. apply (Hstay "here"); [reflexivity|by right].
  - eexists. apply (Hstay "bob"); [reflexivity|left; by intros [Hu _]].
  - intros r Hr. change (left_ !! "there" = Some r) in Hr.
    assert (r = demoLogin "admin" "other" demoNow) as -> by (by injection (Hsub "there" r Hr)).
    pose proof (Hgone 1%nat "there" _ eq_refl ltac:(discriminate) Hr (conj eq_refl eq_refl)) as Hh. vm_compute in Hh. discriminate Hh.
Defined.
