(* ===== verification/AuthSystem.v ===== *)
(** * Logins, enrolments and sessions among concurrent requests

    Every request of the authentication surface in any number and order, each
    statement, lock, atomic load and store of one interleaved with those of the
    others, statements failing anywhere. The rely-guarantee invariant that the
    second factor's gate, the sweeps of sessions and the single-use login states
    rest on. *)

From S2P Require Import Prelude Crypto Encryption Threads LoginThrottle AuthWorld TotpStore SecondFactor SessionStore Sessions AuthCookie AdminAuth UserAuth.

(** ** What the history says *)

(** The cached gate, and whether the admin's sessions were all swept since it last
    closed. *)
Definition watch (g : bool * bool) (e : Event) : bool * bool :=
  match e with
  | GateMoved _ closed => (closed, closed && g.2)
  | SignedOut _ who keep => if bool_decide (who = "admin" ∧ keep = "") then (g.1, g.1) else g
  | _ => g
  end.

Definition droppedId (e : Event) : option string := match e with Dropped _ id => Some id | _ => None end.

Definition adminLogin (r : SessionRecord) : Prop := UserID r = "admin" ∧ Type_ r = "auth_token".

Definition sameRow (r r' : SessionRecord) : Prop :=
  UserID r' = UserID r ∧ Type_ r' = Type_ r ∧ TokenHash r' = TokenHash r.

(** What an event of the TOTP tables leaves alone. *)
Definition neutral (e : Event) : Prop :=
  match e with GateMoved _ _ | SignedOut _ _ _ | Dropped _ _ | Handed _ _ => False | _ => True end.

Lemma watch_neutral g said : Forall neutral said → foldl watch g said = g.
Proof. revert g. induction said as [|e said IH]; intros g Hn; [done|]. inversion_clear Hn. cbn. rewrite IH by done. by destruct e. Qed.

Lemma droppedIds_neutral said : Forall neutral said → omap droppedId said = [].
Proof. induction said as [|e said IH]; intros Hn; [done|]. inversion_clear Hn. cbn. rewrite IH by done. by destruct e. Qed.

Lemma sameRow_refl r : sameRow r r.
Proof. done. Qed.

Lemma sameRow_admin r r' : sameRow r r' → adminLogin r' ↔ adminLogin r.
Proof. unfold sameRow, adminLogin. intros (-> & -> & _). done. Qed.

Section System.
Context (g0 : bool).

Abbreviation state := (@St World Event) (only parsing).
Definition ghost (s : state) : bool * bool := foldl watch (g0, false) s.2.
Definition rows (s : state) : sessions := webauthn_sessions (db s.1).
Definition enrolment (who : option string) (s : state) : option EncryptedSecret * bool :=
  (secretView (view_of who (db s.1)), enabledOf (view_of who (db s.1))).

(** ** The invariant *)

Record sound (s : state) : Prop := {
  sound_gate : (ghost s).1 = totpEnabled s.1;
  sound_sealed : (ghost s).2 = true → (ghost s).1 = true;
  sound_out by_ id : (ghost s).2 = true → Handed by_ id ∈ s.2 → rows s !! id = None;
  sound_handed by_ id : Handed by_ id ∈ s.2 → drawn s.1 !! id = Some by_ ∧ ∀ r, rows s !! id = Some r → adminLogin r;
  sound_dropped by_ id : Dropped by_ id ∈ s.2 → rows s !! id = None ∧ is_Some (drawn s.1 !! id);
  sound_once : NoDup (omap droppedId s.2);
  sound_rows id r : rows s !! id = Some r → is_Some (drawn s.1 !! id) ∧ TokenHash r ≠ Some ""
}.

(** What one action of goroutine [tid] may do. *)
Record allows (tid : nat) (s s' : state) : Prop := {
  allows_said : ∃ said, s'.2 = s.2 ++ said ∧
    (∀ by_ id, Handed by_ id ∈ said → by_ = tid ∧ drawn s.1 !! id = Some tid) ∧
    (∀ by_ id, Dropped by_ id ∈ said → is_Some (rows s !! id));
  allows_drawn id o : drawn s.1 !! id = Some o → drawn s'.1 !! id = Some o;
  allows_rows id r' : rows s' !! id = Some r' → (∃ r, rows s !! id = Some r ∧ sameRow r r') ∨ drawn s.1 !! id = Some tid;
  allows_mu who o : o ≠ tid → totpMu s.1 !! who = Some o → totpMu s'.1 !! who = Some o;
  allows_gate : totpMu s.1 !! None ≠ Some tid → (ghost s').1 = (ghost s).1;
  allows_enrolment who : totpMu s.1 !! who ≠ Some tid → enrolment who s' = enrolment who s;
  allows_seal : (ghost s').2 = true → (ghost s).2 = true ∨ ∀ id r, rows s' !! id = Some r → ¬ adminLogin r
}.

Lemma allows_refl tid s : sound s → allows tid s s.
Proof using Type.
  intros _. split; try done; [|intros id r Hr; left; exists r; split; [done|apply sameRow_refl]|by left].
  exists []. rewrite app_nil_r. split; [done|]. split; intros ?? []%not_elem_of_nil.
Qed.

(** ** Kinds of actions *)

Lemma elem_app_neutral (e : Event) h said : Forall neutral said → ¬ neutral e → e ∈ h ++ said → e ∈ h.
Proof using Type. intros Hn He [?|Hs]%elem_of_app; [done|]. rewrite Forall_forall in Hn. by apply Hn in Hs. Qed.

(** The tables of the second factor, the throttles, the memo: nothing here
    concerns the sessions or the gate. *)
Lemma quiet_step tid w w' h said :
  Forall neutral said → webauthn_sessions (db w') = webauthn_sessions (db w) → drawn w' = drawn w →
  totpEnabled w' = totpEnabled w → totpMu w' = totpMu w →
  (∀ who, totpMu w !! who ≠ Some tid → enrolment who (w', h ++ said) = enrolment who (w, h)) →
  sound (w, h) → sound (w', h ++ said) ∧ allows tid (w, h) (w', h ++ said).
Proof using Type.
  intros Hn Hs Hd Hg Hm He Hi.
  assert (ghost (w', h ++ said) = ghost (w, h)) as Hgh by (unfold ghost; cbn; by rewrite foldl_app, watch_neutral).
  assert (rows (w', h ++ said) = rows (w, h)) as Hrows by done.
  destruct Hi as [I1 I2 I3 I4 I5 I6 I7]. cbn [fst snd] in *. split.
  - split; cbn [fst snd]; rewrite ?Hgh, ?Hrows, ?Hd, ?Hg; try done.
    + intros by_ id Hse Hin. apply (I3 by_ id Hse). exact (elem_app_neutral (Handed by_ id) h said Hn (λ H, H) Hin).
    + intros by_ id Hin. apply I4. exact (elem_app_neutral (Handed by_ id) h said Hn (λ H, H) Hin).
    + intros by_ id Hin. apply (I5 by_). exact (elem_app_neutral (Dropped by_ id) h said Hn (λ H, H) Hin).
    + by rewrite omap_app, (droppedIds_neutral said), app_nil_r.
  - split; cbn [fst snd]; rewrite ?Hgh, ?Hrows, ?Hd, ?Hm; try done; [|intros id r Hr; left; exists r; split; [done|apply sameRow_refl]|by left].
    exists said. split; [done|]. rewrite Forall_forall in Hn. split; intros by_ id Hin; by apply Hn in Hin.
Qed.

(** Rows of sessions disappear, or change their dates. *)
Lemma shrink_step tid w m h said :
  (∀ id r', m !! id = Some r' → ∃ r, webauthn_sessions (db w) !! id = Some r ∧ sameRow r r') →
  said = [] ∨ (∃ who keep, said = [SignedOut tid who keep] ∧ (who = "admin" → keep = "" → ∀ id r, m !! id = Some r → ¬ adminLogin r)) ∨
    (∃ id, said = [Dropped tid id] ∧ is_Some (webauthn_sessions (db w) !! id) ∧ m !! id = None) →
  let w' := w ⟦ db := (db w) ⟦ webauthn_sessions := m ⟧ ⟧ in
  sound (w, h) → sound (w', h ++ said) ∧ allows tid (w, h) (w', h ++ said).
Proof using Type.
  intros Hm Hsaid w' [I1 I2 I3 I4 I5 I6 I7]. cbn [fst snd] in *.
  assert (∀ id, webauthn_sessions (db w) !! id = None → m !! id = None) as Hnone.
  { intros id Hid. destruct (m !! id) as [r'|] eqn:Hr; [|done]. destruct (Hm id r' Hr) as (r & Hr' & _). by rewrite Hid in Hr'. }
  assert (∀ by_ id, Handed by_ id ∈ h ++ said → Handed by_ id ∈ h) as Hhand.
  { intros by_ id [?|Hin]%elem_of_app; [done|]. destruct Hsaid as [->|[(who & keep & -> & _)|(i & -> & _)]]; [by apply not_elem_of_nil in Hin| |];
      by apply list_elem_of_singleton in Hin. }
  assert ((ghost (w', h ++ said)).1 = (ghost (w, h)).1) as Hg1.
  { unfold ghost. cbn. rewrite foldl_app. destruct Hsaid as [->|[(who & keep & -> & _)|(i & -> & _)]]; cbn; [done| |done]. by case_bool_decide. }
  assert ((ghost (w', h ++ said)).2 = true →
    (ghost (w, h)).2 = true ∨ ((ghost (w, h)).1 = true ∧ ∀ id r, m !! id = Some r → ¬ adminLogin r)) as Hg2.
  { unfold ghost. cbn. rewrite foldl_app. destruct Hsaid as [->|[(who & keep & -> & Hall)|(i & -> & _)]]; cbn; [by left| |by left].
    case_bool_decide as Hwk; [|by left]. intros Hg. right. split; [done|]. destruct Hwk. by apply Hall. }
  split.
  - split; cbn [fst snd].
    + by rewrite Hg1.
    + rewrite Hg1. intros [?|[? _]]%Hg2; [by apply I2|done].
    + intros by_ id Hse Hin%Hhand. destruct (Hg2 Hse) as [Hs|[_ Hall]]; [by apply Hnone, (I3 by_)|].
      destruct (m !! id) as [r'|] eqn:Hr; [|done]. destruct (Hm id r' Hr) as (r & Hr' & Hsame).
      exfalso. apply (Hall id r' Hr), (sameRow_admin r r' Hsame). by apply (I4 by_ id Hin).
    + intros by_ id Hin%Hhand. destruct (I4 by_ id Hin) as [Hd Hadm]. split; [done|]. intros r' Hr.
      destruct (Hm id r' Hr) as (r & Hr' & Hsame). apply (sameRow_admin r r' Hsame). by apply Hadm.
    + intros by_ id [Hin|Hin]%elem_of_app; [destruct (I5 by_ id Hin); split; [by apply Hnone|done]|].
      destruct Hsaid as [->|[(who & keep & -> & _)|(i & -> & [r Hr] & Hi)]]; [by apply not_elem_of_nil in Hin|by apply list_elem_of_singleton in Hin|].
      apply list_elem_of_singleton in Hin. simplify_eq. split; [done|]. by eapply I7.
    + rewrite omap_app. destruct Hsaid as [->|[(who & keep & -> & _)|(i & -> & [r Hr] & Hi)]]; cbn; rewrite ?app_nil_r; [done..|].
      apply NoDup_app. split; [done|]. split; [|apply NoDup_singleton]. intros id Hin ->%list_elem_of_singleton.
      apply list_elem_of_omap in Hin as (e & Hin & He). destruct e; simplify_eq/=. destruct (I5 _ _ Hin) as [Hrow _].
      unfold rows in Hrow. cbn in Hrow. by rewrite Hr in Hrow.
    + intros id r' Hr. destruct (Hm id r' Hr) as (r & Hr' & (_ & _ & Hth)). rewrite Hth. by apply (I7 id).
  - split; cbn [fst snd]; try done.
    + exists said. split; [done|]. split; intros by_ id Hin; destruct Hsaid as [->|[(who & keep & -> & _)|(i & -> & Hi & _)]];
        try (by apply not_elem_of_nil in Hin); apply list_elem_of_singleton in Hin; by simplify_eq.
    + intros id r' Hr. left. by apply Hm.
    + intros [?|[_ ?]]%Hg2; [by left|by right].
Qed.
(** A uuid nobody drew before. *)
Lemma draw_step tid id w h :
  drawn w !! id = None → let w' := w ⟦ drawn := <[id := tid]> (drawn w) ⟧ in
  sound (w, h) → sound (w', h) ∧ allows tid (w, h) (w', h).
Proof using Type.
  intros Hid w' [I1 I2 I3 I4 I5 I6 I7]. cbn [fst snd] in *.
  assert (∀ i o, drawn w !! i = Some o → drawn w' !! i = Some o) as Hd.
  { intros i o Ho. cbn. rewrite lookup_insert_ne; [done|]. intros <-. by rewrite Hid in Ho. }
  assert (∀ i, is_Some (drawn w !! i) → is_Some (drawn w' !! i)) as Hd' by (intros i [o Ho]; exists o; by apply Hd).
  split.
  - split; cbn [fst snd]; try done.
    + intros by_ i Hin. destruct (I4 by_ i Hin). split; [by apply Hd|done].
    + intros by_ i Hin. destruct (I5 by_ i Hin). split; [done|by apply Hd'].
    + intros i r Hr. destruct (I7 i r Hr). split; [by apply Hd'|done].
  - split; cbn [fst snd]; try done; [|intros i r Hr; left; exists r; split; [done|apply sameRow_refl]|by left].
    exists []. rewrite app_nil_r. split; [done|]. split; intros ?? []%not_elem_of_nil.
Qed.

(** An id drawn by [tid] and not used yet. *)
Definition fresh (tid : nat) (id : string) (s : state) : Prop :=
  drawn s.1 !! id = Some tid ∧ rows s !! id = None ∧ (∀ by_, Handed by_ id ∉ s.2) ∧ (∀ by_, Dropped by_ id ∉ s.2).

Lemma draw_fresh tid id w h :
  sound (w, h) → drawn w !! id = None → fresh tid id (w ⟦ drawn := <[id := tid]> (drawn w) ⟧, h).
Proof using Type.
  intros [I1 I2 I3 I4 I5 I6 I7] Hid. cbn [fst snd] in *. split; [apply lookup_insert_eq|]. split; [|split].
  - destruct (rows (w, h) !! id) as [r|] eqn:Hr; [|done]. destruct (I7 id r Hr) as [[o Ho] _]. by rewrite Hid in Ho.
  - intros by_ Hin. destruct (I4 by_ id Hin) as [Ho _]. by rewrite Hid in Ho.
  - intros by_ Hin. destruct (I5 by_ id Hin) as [_ [o Ho]]. by rewrite Hid in Ho.
Qed.

Lemma insert_step tid id r w h :
  fresh tid id (w, h) → TokenHash r ≠ Some "" →
  let w' := w ⟦ db := (db w) ⟦ webauthn_sessions := <[id := r]> (webauthn_sessions (db w)) ⟧ ⟧ in
  sound (w, h) → sound (w', h) ∧ allows tid (w, h) (w', h).
Proof using Type.
  intros (F1 & F2 & F3 & F4) Hr w' [I1 I2 I3 I4 I5 I6 I7]. cbn [fst snd] in *.
  assert (∀ i, i ≠ id → rows (w', h) !! i = rows (w, h) !! i) as Hne by (intros i Hi; unfold rows; cbn; by apply lookup_insert_ne).
  assert (∀ by_ i, Handed by_ i ∈ h → i ≠ id) as Hh by (intros by_ i Hin ->; by apply (F3 by_)).
  assert (∀ by_ i, Dropped by_ i ∈ h → i ≠ id) as Hdr by (intros by_ i Hin ->; by apply (F4 by_)).
  split.
  - split; cbn [fst snd]; try done.
    + intros by_ i Hse Hin. rewrite Hne by (by eapply Hh). by eapply I3.
    + intros by_ i Hin. rewrite Hne by (by eapply Hh). by apply I4.
    + intros by_ i Hin. rewrite Hne by (by eapply Hdr). by eapply I5.
    + intros i r'. destruct (decide (i = id)) as [->|Hi]; [|rewrite Hne by done; apply I7].
      unfold rows. cbn. rewrite lookup_insert_eq. intros [= <-]. split; [by eexists|done].
  - split; cbn [fst snd]; try done; [| |by left].
    + exists []. rewrite app_nil_r. split; [done|]. split; intros ?? []%not_elem_of_nil.
    + intros i r' Hr'. destruct (decide (i = id)) as [->|Hi]; [by right|]. rewrite Hne in Hr' by done.
      left. exists r'. split; [done|apply sameRow_refl].
Qed.

(** The gate moves under the lock. *)
Lemma gate_step tid closed w h :
  totpMu w !! None = Some tid →
  let w' := w ⟦ totpEnabled := closed ⟧ in let h' := h ++ [GateMoved tid closed] in
  sound (w, h) → sound (w', h') ∧ allows tid (w, h) (w', h').
Proof using Type.
  intros Hmu w' h' [I1 I2 I3 I4 I5 I6 I7]. cbn [fst snd] in *.
  assert (ghost (w', h') = (closed, closed && (ghost (w, h)).2)) as Hg by (unfold ghost, h'; cbn; by rewrite foldl_app).
  assert (∀ e, e ∈ h' → neutral e ∨ (∃ b i, e = Handed b i ∨ e = Dropped b i) → e ∈ h) as Hin.
  { intros e [?|He%list_elem_of_singleton]%elem_of_app; [done|]. subst e. intros [[]|(b & i & [H|H])]; done. }
  split.
  - split; cbn [fst snd]; rewrite ?Hg; cbn [fst snd]; try done.
    + by destruct closed.
    + intros by_ id [_ Hse]%andb_true_iff He. apply (I3 by_); [done|]. apply Hin; [done|]. right. by exists by_, id; left.
    + intros by_ id He. apply I4, Hin; [done|]. right. by exists by_, id; left.
    + intros by_ id He. apply (I5 by_), Hin; [done|]. right. by exists by_, id; right.
    + unfold h'. by rewrite omap_app, app_nil_r.
  - split; cbn [fst snd]; rewrite ?Hg; cbn [fst snd]; try done; [|intros i r Hr; left; exists r; split; [done|apply sameRow_refl]|].
    + exists [GateMoved tid closed]. split; [done|]. split; intros by_ id He%list_elem_of_singleton; done.
    + intros [_ ?]%andb_true_iff. by left.
Qed.

(** Handing out a session that no sweep will meet: it is gone if one came by. *)
Definition gone (tid : nat) (id : string) (s : state) : Prop :=
  drawn s.1 !! id = Some tid ∧ (∀ r, rows s !! id = Some r → adminLogin r) ∧ ((ghost s).2 = true → rows s !! id = None).

Lemma hand_step tid id w h :
  gone tid id (w, h) → let h' := h ++ [Handed tid id] in
  sound (w, h) → sound (w, h') ∧ allows tid (w, h) (w, h').
Proof using Type.
  intros (G1 & G2 & G3) h' [I1 I2 I3 I4 I5 I6 I7]. cbn [fst snd] in *.
  assert (ghost (w, h') = ghost (w, h)) as Hg by (unfold ghost, h'; cbn; by rewrite foldl_app).
  assert (∀ by_ i, Handed by_ i ∈ h' → Handed by_ i ∈ h ∨ (by_ = tid ∧ i = id)) as Hh.
  { intros by_ i [?|He%list_elem_of_singleton]%elem_of_app; [by left|]. right. by simplify_eq. }
  split.
  - split; cbn [fst snd]; rewrite ?Hg; try done.
    + intros by_ i Hse [Hin|[-> ->]]%Hh; [by apply (I3 by_)|by apply G3].
    + intros by_ i [Hin|[-> ->]]%Hh; [by apply I4|by split].
    + intros by_ i [Hin|He%list_elem_of_singleton]%elem_of_app; [by apply (I5 by_)|done].
    + unfold h'. by rewrite omap_app, app_nil_r.
  - split; cbn [fst snd]; rewrite ?Hg; try done; [|intros i r Hr; left; exists r; split; [done|apply sameRow_refl]|by left].
    exists [Handed tid id]. split; [done|]. split; intros by_ i He%list_elem_of_singleton; by simplify_eq.
Qed.

(** The locks. *)
Lemma mu_step tid w h mu :
  (∀ who o, o ≠ tid → totpMu w !! who = Some o → mu !! who = Some o) →
  let w' := w ⟦ totpMu := mu ⟧ in
  sound (w, h) → sound (w', h) ∧ allows tid (w, h) (w', h).
Proof using Type.
  intros Hmu w' [I1 I2 I3 I4 I5 I6 I7]. cbn [fst snd] in *. split; [by split|].
  split; cbn [fst snd]; try done; [|intros i r Hr; left; exists r; split; [done|apply sameRow_refl]|by left].
  exists []. rewrite app_nil_r. split; [done|]. split; intros ?? []%not_elem_of_nil.
Qed.

(** ** What the others leave true *)

Lemma rely_stable (tid : nat) (P : state → Prop) s s' :
  (∀ s1 s2 other, other ≠ tid → sound s2 → allows other s1 s2 → P s1 → P s2) →
  rely sound allows tid s s' → P s → P s'.
Proof using Type. intros HP Hr. induction Hr as [|s1 s2 s3 (Hi & other & Hne & Ha) _ IH]; [done|]. intros H. apply IH. exact (HP _ _ other Hne Hi Ha H). Qed.

Lemma said_stable tid s s' : rely sound allows tid s s' → ∃ said, s'.2 = s.2 ++ said.
Proof using Type.
  intros Hr. induction Hr as [s|s1 s2 s3 (_ & other & _ & Ha) _ [said IH]]; [exists []; by rewrite app_nil_r|].
  destruct (allows_said _ _ _ Ha) as (more & Hs & _). exists (more ++ said). by rewrite IH, Hs, app_assoc.
Qed.

Definition holds (tid : nat) (who : option string) (s : state) : Prop := totpMu s.1 !! who = Some tid.

Lemma holds_stable tid who s s' : rely sound allows tid s s' → holds tid who s → holds tid who s'.
Proof using Type. apply rely_stable. intros s1 s2 other Hne _ Ha. apply (allows_mu _ _ _ Ha). congruence. Qed.

(** Under the lock, the gate and the enrolment stand still. *)
Lemma held_stable tid g en s s' :
  rely sound allows tid s s' →
  holds tid None s ∧ (ghost s).1 = g ∧ enrolment None s = en → holds tid None s' ∧ (ghost s').1 = g ∧ enrolment None s' = en.
Proof using Type.
  apply (rely_stable tid (λ s, holds tid None s ∧ (ghost s).1 = g ∧ enrolment None s = en)).
  intros s1 s2 other Hne _ Ha (Hh & Hg & He). unfold holds in *. split; [|split].
  - apply (allows_mu _ _ _ Ha); [congruence|done].
  - rewrite (allows_gate _ _ _ Ha); [done|]. rewrite Hh. congruence.
  - rewrite (allows_enrolment _ _ _ Ha); [done|]. rewrite Hh. congruence.
Qed.

Lemma fresh_stable tid id s s' : rely sound allows tid s s' → fresh tid id s → fresh tid id s'.
Proof using Type.
  apply rely_stable. intros s1 s2 other Hne _ Ha (F1 & F2 & F3 & F4). destruct (allows_said _ _ _ Ha) as (said & Hs & Hh & Hd).
  split; [by apply (allows_drawn _ _ _ Ha)|]. split; [|split].
  - destruct (rows s2 !! id) as [r'|] eqn:Hr; [|done]. destruct (allows_rows _ _ _ Ha id r' Hr) as [(r & Hr1 & _)|Ho]; congruence.
  - intros by_ Hin. rewrite Hs in Hin. apply elem_of_app in Hin as [Hin|Hin]; [by apply (F3 by_)|].
    destruct (Hh by_ id Hin) as [_ Ho]. congruence.
  - intros by_ Hin. rewrite Hs in Hin. apply elem_of_app in Hin as [Hin|Hin]; [by apply (F4 by_)|].
    destruct (Hd by_ id Hin) as [r Hr]. congruence.
Qed.

(** A row of one's own making keeps its owner. *)
Definition minted (tid : nat) (id : string) (s : state) : Prop :=
  drawn s.1 !! id = Some tid ∧ ∀ r, rows s !! id = Some r → adminLogin r.

Lemma minted_step tid id s1 s2 other : other ≠ tid → allows other s1 s2 → minted tid id s1 → minted tid id s2.
Proof using Type.
  intros Hne Ha [M1 M2]. split; [by apply (allows_drawn _ _ _ Ha)|]. intros r' Hr.
  destruct (allows_rows _ _ _ Ha id r' Hr) as [(r & Hr1 & Hsame)|Ho]; [|congruence].
  apply (sameRow_admin r r' Hsame). by apply M2.
Qed.

Lemma minted_stable tid id s s' : rely sound allows tid s s' → minted tid id s → minted tid id s'.
Proof using Type. apply rely_stable. intros s1 s2 other Hne _. by apply minted_step. Qed.

Lemma gone_stable tid id s s' : rely sound allows tid s s' → gone tid id s → gone tid id s'.
Proof using Type.
  apply rely_stable. intros s1 s2 other Hne _ Ha (G1 & G2 & G3).
  destruct (minted_step tid id s1 s2 other Hne Ha (conj G1 G2)) as [M1 M2]. split; [done|]. split; [done|].
  intros Hse. destruct (rows s2 !! id) as [r'|] eqn:Hr; [|done]. exfalso.
  destruct (allows_seal _ _ _ Ha Hse) as [Hs|Hall]; [|by apply (Hall id r' Hr), M2].
  destruct (allows_rows _ _ _ Ha id r' Hr) as [(r & Hr1 & _)|Ho]; [rewrite G3 in Hr1 by done; done|congruence].
Qed.
End System.
