(* ===== verification/AuthRequests.v ===== *)
(** * Each request under the invariant of AuthSystem.v *)

From S2P Require Import Prelude Crypto Encryption Threads LoginThrottle AuthWorld TotpStore SecondFactor SessionStore Sessions AuthCookie AdminAuth UserAuth SessionHandlers AuthSystem.

Section Requests.
Context (g0 : bool) (ok : Env → Prop).
Abbreviation sound := (sound g0).
Abbreviation allows := (allows g0).
Abbreviation state := (@St World Event) (only parsing).
Abbreviation wps tid := (wp ok sound allows tid).
Abbreviation others tid := (rely sound allows tid).

(** The lock a request holds, if any. *)
Definition held (L : option (option string)) (tid : nat) (s : state) : Prop :=
  match L with None => True | Some who => holds tid who s end.

Lemma held_rely L tid s s' : others tid s s' → held L tid s → held L tid s'.
Proof using Type. destruct L as [who|]; [|done]. apply holds_stable. Qed.

(** A stretch of a request that keeps the invariant, and the lock. *)
Definition safe (L : option (option string)) {A} (p : program A) : Prop :=
  ∀ tid s, sound s → held L tid s → wps tid p (λ _ s', held L tid s') s.

Lemma safe_Ret L {A} (a : A) : safe L (Ret a).
Proof using Type. intros tid s Hi Hh s' Hi' Hr. by eapply held_rely. Qed.

Lemma safe_bind L {A B} (p : program A) (k : A → program B) : safe L p → (∀ a, safe L (k a)) → safe L (p ≫= k).
Proof using Type.
  intros Hp Hk tid s Hi Hh. apply wp_seq; [done|]. eapply wp_conseq; [|by apply Hp]. intros a s' Hi' Hh'. by apply Hk.
Qed.

(** One action: [f] leaves what [quiet_step] asks, or is one of the others. *)
Lemma safe_act L {B : Set} (f : nat → Env → World → option (B * World * list Event)) :
  (∀ tid e w h b w' said, ok e → f tid e w = Some (b, w', said) → sound (w, h) → held L tid (w, h) →
     sound (w', h ++ said) ∧ allows tid (w, h) (w', h ++ said) ∧ held L tid (w', h ++ said)) →
  safe L (act f).
Proof using Type.
  intros Hf tid s Hi Hh. cbn. intros [w h] e b w' said He Hi1 Hr1 Hx. cbn [fst snd] in *.
  destruct (Hf tid e w h b w' said He Hx Hi1) as (H1 & H2 & H3); [by eapply held_rely|].
  do 2 (split; [done|]). intros s2 Hi2 Hr2. by eapply held_rely.
Qed.

Lemma held_totpMu L tid w h w' h' : totpMu w' = totpMu w → held L tid (w, h) → held L tid (w', h').
Proof using Type. destruct L as [who|]; [|done]. unfold held, holds. cbn. by intros ->. Qed.

(** Actions that touch neither the tables, nor the gate, nor the locks. *)
Lemma safe_local L {B : Set} (f : nat → Env → World → option (B * World * list Event)) :
  (∀ tid e w b w' said, f tid e w = Some (b, w', said) →
     said = [] ∧ db w' = db w ∧ drawn w' = drawn w ∧ totpEnabled w' = totpEnabled w ∧ totpMu w' = totpMu w) →
  safe L (act f).
Proof using Type.
  intros Hf. apply safe_act. intros tid e w h b w' said _ Hx Hi Hh. destruct (Hf _ _ _ _ _ _ Hx) as (-> & Hd & Hdr & Hg & Hm).
  destruct (quiet_step g0 tid w w' h []) as [H1 H2]; [done|by rewrite Hd|done..| |done|].
  - intros who _. unfold enrolment. cbn. by rewrite Hd.
  - split; [done|]. split; [done|]. by apply (held_totpMu L tid w h).
Qed.

Ltac local := apply safe_local; intros tid e w b w' said Hx; branches; simplify_eq; repeat split.

Lemma safe_Now L : safe L Now.
Proof using Type. local. Qed.
Lemma safe_Rand L : safe L Rand.
Proof using Type. local. Qed.

Lemma wp_NewRandom L tid s :
  sound s → held L tid s →
  wps tid NewRandom (λ r s', held L tid s' ∧ ∀ id, r = inr id → fresh tid id s') s.
Proof using Type.
  intros Hi Hh. cbn. intros [w h] e b w' said _ Hi1 Hr1 Hx. cbn [fst snd] in *.
  assert (held L tid (w, h)) as Hh1 by (by eapply held_rely).
  destruct (env_uuid e) as [id|]; [destruct (drawn w !! id) eqn:Hid; [done|]|]; simplify_eq; rewrite app_nil_r.
  - destruct (draw_step g0 tid id w h Hid Hi1) as [H1 H2]. split; [done|]. split; [done|]. intros s2 Hi2 Hr2. split.
    + eapply held_rely; [done|]. by apply (held_totpMu L tid w h).
    + intros ? [= <-]. eapply fresh_stable; [done|]. by eapply draw_fresh.
  - split; [done|]. split; [by apply allows_refl|]. intros s2 Hi2 Hr2. split; [by eapply held_rely|done].
Qed.

(** A statement of the sessions table, a refusal or fault leaving nothing. *)
Lemma safe_does L refuses {A : Set} (eff : effect A) p :
  does refuses eff p →
  (∀ tid e w h a d' said, sound (w, h) → eff tid e (db w) a d' said →
     let w' := w ⟦ db := d' ⟧ in sound (w', h ++ said) ∧ allows tid (w, h) (w', h ++ said)) →
  safe L p.
Proof using Type.
  intros Hp Heff tid s Hi Hh. eapply wp_does; [apply allows_refl|exact Hp|]. intros [w h] Hi1 Hr1. cbn [fst snd].
  assert (held L tid (w, h)) as Hh1 by (by eapply held_rely).
  split; [intros err _ s2 Hi2 Hr2; by eapply held_rely|]. intros e a d' said _ He.
  destruct (Heff tid e w h a d' said Hi1 He) as [H1 H2]. split; [done|]. split; [done|].
  assert (held L tid (w ⟦ db := d' ⟧, h ++ said)) as Hh2 by (by apply (held_totpMu L tid w h)).
  intros s3 Hi3 Hr3. split; [|intros err _]; by eapply held_rely.
Qed.

Lemma safe_looks L {A : Set} (g : Time → sessions → A) p : does never (looks g) p → safe L p.
Proof using Type.
  intros Hp. eapply safe_does; [exact Hp|]. intros tid e w h a d' said Hi (-> & -> & _).
  cbn. rewrite app_nil_r, set_db_id. split; [done|by apply allows_refl].
Qed.

Lemma safe_shrinks L {A : Set} (eff : effect A) p :
  does never eff p →
  (∀ tid e w h a d' said, sound (w, h) → eff tid e (db w) a d' said →
     ∃ m, d' = (db w) ⟦ webauthn_sessions := m ⟧ ∧
       (∀ id r', m !! id = Some r' → ∃ r, webauthn_sessions (db w) !! id = Some r ∧ sameRow r r') ∧
       (said = [] ∨ (∃ who keep, said = [SignedOut tid who keep] ∧ (who = "admin" → keep = "" → ∀ id r, m !! id = Some r → ¬ adminLogin r)) ∨
        (∃ id, said = [Dropped tid id] ∧ is_Some (webauthn_sessions (db w) !! id) ∧ m !! id = None))) →
  safe L p.
Proof using Type.
  intros Hp Heff. eapply safe_does; [exact Hp|]. intros tid e w h a d' said Hi He.
  destruct (Heff tid e w h a d' said Hi He) as (m & -> & Hm & Hsaid). by apply shrink_step.
Qed.

Lemma alter_rows (f : SessionRecord → SessionRecord) id (m : sessions) i r' :
  (∀ r, sameRow r (f r)) → alter f id m !! i = Some r' → ∃ r, m !! i = Some r ∧ sameRow r r'.
Proof using Type.
  intros Hf. destruct (decide (i = id)) as [->|Hne]; [rewrite lookup_alter_eq|rewrite lookup_alter_ne by done; by exists r'].
  destruct (m !! id) as [r|]; [|done]. intros [= <-]. by exists r.
Qed.

Lemma filter_rows (P : string * SessionRecord → Prop) `{!∀ kv, Decision (P kv)} (m : sessions) i r' :
  filter P m !! i = Some r' → ∃ r, m !! i = Some r ∧ sameRow r r'.
Proof using Type. intros [Hr _]%map_lookup_filter_Some. by exists r'. Qed.

(** ** The second factor's stores *)

(** What an operation of a store does to an account's enrolment. *)
Definition spares (who : option string) {A} (eff : contract A) : Prop :=
  ∀ tid d a d' said, eff tid d a d' said → Forall neutral said ∧
    secretView (view_of who d') = secretView (view_of who d) ∧ enabledOf (view_of who d') = enabledOf (view_of who d).

Definition moves (who : option string) {A} (eff : contract A) : Prop :=
  ∀ tid d a d' said, eff tid d a d' said → Forall neutral said.

Lemma only_step who tid w w' h said :
  only who w w' → Forall neutral said →
  (secretView (view_of who (db w')) = secretView (view_of who (db w)) ∧ enabledOf (view_of who (db w')) = enabledOf (view_of who (db w)))
    ∨ holds tid who (w, h) →
  sound (w, h) → sound (w', h ++ said) ∧ allows tid (w, h) (w', h ++ said).
Proof using Type.
  intros (Hw & Hother & _ & Hsess) Hn Hc. apply quiet_step; try done; try (by rewrite Hw).
  intros a Ha. unfold enrolment. cbn. destruct (decide (a = who)) as [->|Hne]; [|by rewrite Hother].
  destruct Hc as [[-> ->]|Hh]; [done|]. by destruct Ha.
Qed.

Lemma safe_op L who refuses {A : Set} (eff : contract A) p :
  atomically who refuses eff p → spares who eff ∨ (L = Some who ∧ moves who eff) → safe L p.
Proof using Type.
  intros Hp Hc tid s Hi Hh. eapply wp_atomically; [apply allows_refl|exact Hp|]. intros [w h] Hi1 Hr1. cbn [fst snd].
  assert (held L tid (w, h)) as Hh1 by (by eapply held_rely).
  split; [intros err _ s2 Hi2 Hr2; by eapply held_rely|]. intros a w' said He Ho.
  destruct (only_step who tid w w' h said) as [H1 H2]; [done| | |done|].
  { destruct Hc as [Hc|[_ Hc]]; by eapply Hc. }
  { destruct Hc as [Hc|[-> _]]; [left; by eapply Hc|by right]. }
  split; [done|]. split; [done|].
  assert (held L tid (w', h ++ said)) as Hh2 by (destruct Ho as [-> _]; by apply (held_totpMu L tid w h)).
  intros s3 Hi3 Hr3. split; [|intros err _]; by eapply held_rely.
Qed.

Lemma spares_reads who {A} (g : view → A) : spares who (reads who g).
Proof using Type. intros tid d a d' said (_ & -> & ->). done. Qed.

Lemma spares_records who step : spares who (records who step).
Proof using Type.
  intros tid d a d' said He. unfold records in He. destruct (view_of who d) as [[row|] m] eqn:Hd; cbn in He.
  2: { destruct He as (-> & -> & ->). by rewrite Hd. }
  destruct (pg.newer step row); destruct He as (-> & Hv & ->); [rewrite Hv|subst d'; rewrite Hd]; split; try done.
  by constructor.
Qed.

Lemma spares_consumes who hash : spares who (consumes who hash).
Proof using Type.
  intros tid d a d' said He. unfold consumes in He. destruct (view_of who d) as [row m] eqn:Hd; cbn in He.
  destruct (m !! hash) as [[t|]|].
  - destruct He as (_ & -> & ->). by rewrite Hd.
  - destruct He as (t & -> & Hv & ->). rewrite Hv. split; [by constructor|done].
  - destruct He as (_ & -> & ->). by rewrite Hd.
Qed.

Lemma spares_replaces who hashes : spares who (replaces who hashes).
Proof using Type.
  intros tid d [] d' said (_ & Hr & _ & ->). unfold secretView, enabledOf. rewrite Hr. split; [by constructor|done].
Qed.

Lemma moves_upserts who c n sa : moves who (upserts who c n sa).
Proof using Type. intros tid d [] d' said [_ ->]. by constructor. Qed.

Lemma moves_enables who : moves who (enables who).
Proof using Type. intros tid d a d' said He. unfold enables in He. destruct (view_of who d).1; destruct He as (? & He); naive_solver. Qed.

Lemma moves_wipes who {A} (b : A) : moves who (wipes who b).
Proof using Type. intros tid d a d' said (_ & _ & ->). by constructor. Qed.

Lemma safe_try L {A B : Set} (p : program (string + A)%type) (k : A → program (string + B)%type) :
  safe L p → (∀ a, safe L (k a)) → safe L (p ≫= try k).
Proof using Type. intros Hp Hk. apply safe_bind; [done|]. intros [err|a]; [apply safe_Ret|apply Hk]. Qed.

(** ** Sessions *)

Context {S : Type} `{!SessionStore S, !SessionStoreLaws S}.

Lemma safe_GetSession L st id : safe L (GetSession st id).
Proof using SessionStoreLaws0. eapply safe_looks, GetSession_law. Qed.
Lemma safe_GetSessionByTokenHash L st hash : safe L (GetSessionByTokenHash st hash).
Proof using SessionStoreLaws0. eapply safe_looks, GetSessionByTokenHash_law. Qed.
Lemma safe_ListAuthSessionsForUser L st who : safe L (ListAuthSessionsForUser st who).
Proof using SessionStoreLaws0. eapply safe_looks, ListAuthSessionsForUser_law. Qed.

Lemma safe_TouchSessionLastSeen L st id t : safe L (TouchSessionLastSeen st id t).
Proof using SessionStoreLaws0.
  eapply safe_shrinks; [apply TouchSessionLastSeen_law|]. intros tid e w h a d' said _ (-> & t' & _ & ->). eexists. split; [done|].
  split; [|by left]. intros i r' Hr. eapply alter_rows; [|exact Hr]. done.
Qed.

Lemma safe_ExtendSession L st id t : safe L (ExtendSession st id t).
Proof using SessionStoreLaws0.
  eapply safe_shrinks; [apply ExtendSession_law|]. intros tid e w h a d' said _ (-> & t' & _ & ->). eexists. split; [done|].
  split; [|by left]. intros i r' Hr. eapply alter_rows; [|exact Hr]. done.
Qed.

Lemma dropSession_shrinks tid e w h a d' said id :
  sound (w, h) → drops id tid e (db w) a d' said →
  ∃ m, d' = (db w) ⟦ webauthn_sessions := m ⟧ ∧
    (∀ i r', m !! i = Some r' → ∃ r, webauthn_sessions (db w) !! i = Some r ∧ sameRow r r') ∧
    (said = [] ∧ a = false ∨ said = [Dropped tid id] ∧ a = true ∧ is_Some (webauthn_sessions (db w) !! id) ∧ m !! id = None).
Proof using Type.
  intros _ Hd. unfold drops, dropSession in Hd. destruct (webauthn_sessions (db w) !! id) as [r|] eqn:Hr; simplify_eq.
  - eexists. split; [done|]. split; [intros i r' Hi; exists r'; split; [by eapply lookup_delete_Some in Hi as [_ ?]|apply sameRow_refl]|].
    right. rewrite lookup_delete_eq. repeat split. by eexists.
  - exists (webauthn_sessions (db w)). split; [by destruct (db w)|]. split; [|by left].
    intros i r' Hi. exists r'. split; [done|apply sameRow_refl].
Qed.

Lemma safe_DeleteSession L st id : safe L (DeleteSession st id).
Proof using SessionStoreLaws0.
  eapply safe_shrinks; [apply DeleteSession_law|]. intros tid e w h a d' said Hi Hd.
  destruct (dropSession_shrinks tid e w h a d' said id Hi Hd) as (m & -> & Hm & Hs). exists m. split; [done|]. split; [done|].
  destruct Hs as [[-> _]|(-> & _ & Hr & Hn)]; [by left|]. right; right. by exists id.
Qed.

Lemma othersGone_admin (m : sessions) :
  (∀ id r, m !! id = Some r → TokenHash r ≠ Some "") → ∀ id r, othersGone "admin" "" m !! id = Some r → ¬ adminLogin r.
Proof using Type.
  intros Hm id r [Hr Hn]%map_lookup_filter_Some [Hu Ht]. apply Hn. split; [done|]. split; [done|]. by apply (Hm id).
Qed.

Lemma safe_DeleteOtherSessionsForUser L st who keep : safe L (DeleteOtherSessionsForUser st who keep).
Proof using SessionStoreLaws0.
  eapply safe_shrinks; [apply DeleteOtherSessionsForUser_law|]. intros tid e w h a d' said Hi (-> & now & _ & ->). eexists.
  split; [done|]. split; [intros i r'; apply filter_rows|]. right; left. exists who, keep. split; [done|]. intros -> ->.
  apply othersGone_admin. intros id r Hr. by apply (sound_rows _ _ Hi id r).
Qed.

Lemma safe_CleanupExpiredSessions L st : safe L (CleanupExpiredSessions st).
Proof using SessionStoreLaws0.
  eapply safe_shrinks; [apply CleanupExpiredSessions_law|]. intros tid e w h a d' said _ (-> & now & _ & ->). eexists.
  split; [done|]. split; [intros i r'; apply filter_rows|by left].
Qed.

(** A row under a fresh id, and whose it is. *)
Lemma wp_CreateSession L tid st id r s :
  sound s → held L tid s → fresh tid id s → TokenHash r ≠ Some "" →
  wps tid (CreateSession st id r) (λ a s', held L tid s' ∧ (a = inr tt → adminLogin r → minted tid id s')) s.
Proof using SessionStoreLaws0.
  intros Hi Hh Hf Hr. eapply wp_does; [apply allows_refl|apply CreateSession_law|]. intros [w h] Hi1 Hr1. cbn [fst snd].
  assert (held L tid (w, h)) as Hh1 by (by eapply held_rely). assert (fresh tid id (w, h)) as Hf1 by (by eapply fresh_stable).
  split; [intros err _ s2 Hi2 Hr2; split; [by eapply held_rely|done]|].
  intros e [] d' said _ (-> & _ & row & (_ & _ & Hrow) & ->). rewrite app_nil_r.
  destruct (insert_step g0 tid id row w h Hf1) as [H1 H2]; [by rewrite Hrow|done|]. split; [done|]. split; [done|].
  set (w2 := w ⟦ db := _ ⟧) in *. intros s3 Hi3 Hr3.
  assert (held L tid s3) as Hh3 by (eapply held_rely; [done|]; by apply (held_totpMu L tid w h)).
  split; [|done]. split; [done|]. intros _ Ha. eapply minted_stable; [done|]. split; [apply Hf1|].
  intros r' Hr'. unfold rows in Hr'. cbn in Hr'. rewrite lookup_insert_eq in Hr'. simplify_eq. rewrite Hrow. exact Ha.
Qed.

(** ** The session manager *)

Create HintDb safe.
#[local] Hint Resolve safe_Ret safe_Now safe_Rand safe_GetSession safe_GetSessionByTokenHash safe_ListAuthSessionsForUser
  safe_TouchSessionLastSeen safe_ExtendSession safe_DeleteSession safe_DeleteOtherSessionsForUser
  safe_CleanupExpiredSessions : safe.

(** Follows the code, down to what the database of hints knows. *)
Ltac safely := repeat first
  [ progress intros | solve [auto 2 with safe nocore] | apply safe_try | apply safe_bind | case_match ].

Lemma safe_keeps L {A : Set} (p : program A) (Q : nat → A → state → Prop) :
  (∀ tid s, sound s → held L tid s → wps tid p (λ a s', held L tid s' ∧ Q tid a s') s) → safe L p.
Proof using Type. intros Hp tid s Hi Hh. eapply wp_conseq; [|by apply Hp]. by intros a s' _ [? _]. Qed.

Lemma safe_then L tid {A : Set} (p : program A) (Q : A → state → Prop) s :
  sound s → held L tid s → safe L p → (∀ a s', sound s' → held L tid s' → Q a s') → wps tid p Q s.
Proof using Type. intros Hi Hh Hp HQ. eapply wp_conseq; [|by apply Hp]. auto. Qed.

Lemma wp_first L tid {A B : Set} (p : program A) (k : A → program B) Q s :
  sound s → held L tid s → safe L p → (∀ a s', sound s' → held L tid s' → wps tid (k a) Q s') → wps tid (p ≫= k) Q s.
Proof using Type. intros Hi Hh Hp HQ. apply wp_seq; [done|]. by eapply safe_then. Qed.

Lemma hash_not_empty token : Some (SHA256Hex token) ≠ Some "".
Proof using Type. intros [= Ht]. pose proof (length_SHA256Hex token) as Hl. by rewrite Ht in Hl. Qed.

(** What minting a token and a login state have in common. *)
Lemma wp_newRow {C : Set} L tid st (row : string → Time → SessionRecord) (res : string → C) s :
  (∀ c now, TokenHash (row c now) ≠ Some "") → sound s → held L tid s →
  wps tid (let? id := NewRandom in
           rnd ← Rand;
           match (RandomHex 32 rnd).1 with
           | inl err => Ret (inl err)
           | inr challenge =>
               now ← Now;
               let? _ := CreateSession st id (row challenge now) in
               Ret (inr (res id))
           end)
    (λ a s', held L tid s' ∧
       match a with inr x => ∃ id, x = res id ∧ ((∀ c now, adminLogin (row c now)) → minted tid id s') | inl _ => True end) s.
Proof using SessionStoreLaws0.
  intros Hrow Hi Hh. apply wp_let; [done|]. eapply wp_conseq; [|by apply wp_NewRandom].
  intros [err|id] s2 Hi2 [Hh2 Hf2]; [intros s3 _ Hr3; split; [by eapply held_rely|done]|].
  specialize (Hf2 id eq_refl).
  apply wp_seq; [done|]. eapply (wp_conseq _ _ _ _ _ (λ _ s', held L tid s' ∧ fresh tid id s')).
  2: { intros [w h] e b w' said _ Hi3 Hr3 [= <- <- <-]. cbn [fst snd] in *. rewrite app_nil_r. split; [done|]. split; [by apply allows_refl|].
       intros s4 _ Hr4. split; [eapply held_rely; [done|]; by eapply held_rely|]. eapply fresh_stable; [done|]. by eapply fresh_stable. }
  intros rnd2 s3 Hi3 [Hh3 Hf3]. destruct (RandomHex 32 rnd2).1 as [err|challenge].
  { intros s4 _ Hr4. split; [by eapply held_rely|done]. }
  apply wp_Now; [apply allows_refl|]. intros s4 e He Hi4 Hr4. apply wp_let; [done|].
  eapply wp_conseq; [|apply wp_CreateSession; [done|by eapply held_rely|by eapply fresh_stable|done]].
  intros [err|[]] s5 Hi5 [Hh5 Hm]; intros s6 _ Hr6; (split; [by eapply held_rely|]); [done|].
  exists id. split; [done|]. intros Ha. eapply minted_stable; [done|]. by apply Hm.
Qed.

Lemma wp_CreateAuthToken L tid (mgr : SessionManager (S := S)) who cred meta s :
  sound s → held L tid s →
  wps tid (CreateAuthToken mgr who cred meta) (λ a s', held L tid s' ∧
    match a with inr (_, id) => who = "admin" → minted tid id s' | inl _ => True end) s.
Proof using SessionStoreLaws0.
  intros Hi Hh. eapply wp_first; [done..|apply safe_Rand|]. intros rnd s1 Hi1 Hh1.
  destruct (MintHexToken 32 rnd).1 as [err|[token tokenHash]] eqn:Hmint.
  { intros s2 _ Hr2. split; [by eapply held_rely|done]. }
  assert (tokenHash = SHA256Hex token) as ->.
  { revert Hmint. unfold MintHexToken. intros Hm. by repeat case_match; simplify_eq/=. }
  eapply wp_conseq; [|eapply (wp_newRow L tid (sessionStore mgr) (λ c now, MkSession c _ _ _ _ _ _ _ _ _ _) (λ id, (token, id)));
    [intros; apply hash_not_empty|done..]].
  intros [err|[tok id]] s2 _ [Hh2 Hm]; (split; [done|]); [done|]. intros ->.
  destruct Hm as (id' & [= _ ->] & Hm). by apply Hm.
Qed.

Lemma safe_CreateAuthToken L (mgr : SessionManager (S := S)) who cred meta : safe L (CreateAuthToken mgr who cred meta).
Proof using SessionStoreLaws0.
  apply (safe_keeps _ _ (λ tid a s, match a with inr (_, id) => who = "admin" → minted tid id s | inl _ => True end)).
  intros tid s Hi Hh. by apply wp_CreateAuthToken.
Qed.

Lemma safe_authenticate L (mgr : SessionManager (S := S)) token slide : safe L (authenticate mgr token slide).
Proof using SessionStoreLaws0. unfold authenticate. safely. Qed.

Lemma safe_RevokeAuthToken L (mgr : SessionManager (S := S)) token : safe L (RevokeAuthToken mgr token).
Proof using SessionStoreLaws0. unfold RevokeAuthToken. safely. Qed.

Lemma safe_RevokeOtherSessions L (mgr : SessionManager (S := S)) who tokens : safe L (RevokeOtherSessions mgr who tokens).
Proof using SessionStoreLaws0.
  unfold RevokeOtherSessions. case_match; [apply safe_Ret|]. apply safe_try; [|safely].
  induction (candidateHashes tokens) as [|hash hashes IH]; cbn [keepFor]; safely.
Qed.

Lemma safe_RevokeSessionByID L (mgr : SessionManager (S := S)) who id tokens : safe L (RevokeSessionByID mgr who id tokens).
Proof using SessionStoreLaws0. unfold RevokeSessionByID. safely. Qed.

Lemma safe_ListAuthSessions L (mgr : SessionManager (S := S)) who tokens : safe L (ListAuthSessions mgr who tokens).
Proof using SessionStoreLaws0. unfold ListAuthSessions. safely. Qed.

Lemma safe_CreateLoginState L (mgr : SessionManager (S := S)) data ttl : safe L (CreateLoginState mgr data ttl).
Proof using SessionStoreLaws0.
  apply (safe_keeps _ _ (λ _ _ _, True)). intros tid s Hi Hh.
  eapply wp_conseq; [|eapply (wp_newRow L tid (sessionStore mgr) (λ c now, MkSession c _ _ _ _ _ _ _ _ _ _) id); done].
  by intros a s' _ [? _].
Qed.

(** What is consumed was dropped by this very request. *)
Lemma wp_ConsumeLoginState L tid (mgr : SessionManager (S := S)) id s :
  sound s → held L tid s →
  wps tid (ConsumeLoginState mgr id) (λ a s', held L tid s' ∧ ∀ blob, a = inr blob → Dropped tid id ∈ s'.2) s.
Proof using SessionStoreLaws0.
  intros Hi Hh. apply wp_let; [done|]. eapply safe_then; [done..|apply safe_GetSession|].
  intros [err|[[i row]|]] s1 Hi1 Hh1; [intros s2 _ Hr2; split; [by eapply held_rely|done]| |intros s2 _ Hr2; split; [by eapply held_rely|done]].
  case_decide; [|intros s2 _ Hr2; split; [by eapply held_rely|done]].
  apply wp_seq; [done|]. eapply (wp_conseq _ _ _ _ _ (λ a s', held L tid s' ∧ (a = inr true → Dropped tid id ∈ s'.2))).
  - intros [err|[]] s2 Hi2 [Hh2 Hd]; [intros s3 _ Hr3; split; [by eapply held_rely|done]| |intros s3 _ Hr3; split; [by eapply held_rely|done]].
    apply wp_Now; [apply allows_refl|]. intros s3 e He Hi3 Hr3.
    assert (∀ s4, others tid s3 s4 → held L tid s4 ∧ Dropped tid id ∈ s4.2) as Hgo.
    { intros s4 Hr4. assert (others tid s2 s4) as Hr24 by (by etransitivity). split; [by eapply held_rely|].
      destruct (said_stable _ _ _ _ Hr24) as [more ->]. apply elem_of_app. left. by apply Hd. }
    case_match; intros s4 _ Hr4; destruct (Hgo s4 Hr4); by split.
  - eapply wp_does; [apply allows_refl|apply DeleteSession_law|]. intros [w h] Hi2 Hr2. cbn [fst snd].
    assert (held L tid (w, h)) as Hh2 by (by eapply held_rely).
    split; [intros err _ s3 _ Hr3; split; [by eapply held_rely|done]|]. intros e a d' said _ He.
    destruct (dropSession_shrinks tid e w h a d' said id Hi2 He) as (m & -> & Hm & Hs).
    destruct (shrink_step g0 tid w m h said Hm) as [H1 H2]; [|done|].
    { destruct Hs as [[-> _]|(-> & _ & Hr & Hn)]; [by left|]. right; right. by exists id. }
    split; [done|]. split; [done|]. intros s3 Hi3 Hr3.
    assert (held L tid s3) as Hh3 by (eapply held_rely; [done|]; by apply (held_totpMu L tid w h)).
    split; [|done]. split; [done|]. intros [= ->]. destruct Hs as [[_ ?]|(-> & _)]; [done|].
    destruct (said_stable _ _ _ _ Hr3) as [more ->]. cbn [snd]. apply elem_of_app. left. apply elem_of_app. right. by left.
Qed.

Lemma safe_ConsumeLoginState L (mgr : SessionManager (S := S)) id : safe L (ConsumeLoginState mgr id).
Proof using SessionStoreLaws0.
  apply (safe_keeps _ _ (λ tid a s', ∀ blob, a = inr blob → Dropped tid id ∈ s'.2)). intros tid s Hi Hh. by apply wp_ConsumeLoginState.
Qed.

(** ** The second factor's repository *)

Context (IDKey : bytes → bytes → Z → Z → Z → nat → bytes).
Context (Generate : string → string → Entropy → (string + string * string) * Entropy).
Context (GenerateCode : string → Time → string + string).
Context {T : Type} `{!TotpStore T, !TotpStoreLaws T}.

Lemma safe_read L who {A : Set} (g : view → A) p : atomically who never (reads who g) p → safe L p.
Proof using Type. intros Hp. eapply safe_op; [exact Hp|]. left. apply spares_reads. Qed.

Lemma safe_IsEnabled L (st : T) : safe L (IsEnabled st).
Proof using TotpStoreLaws0. eapply safe_read, IsEnabled_law. Qed.
Lemma safe_EnabledAt L (st : T) : safe L (EnabledAt st).
Proof using TotpStoreLaws0. eapply safe_read, EnabledAt_law. Qed.
Lemma safe_LoadSecret L (st : T) : safe L (LoadSecret st).
Proof using TotpStoreLaws0. eapply safe_read, LoadSecret_law. Qed.
Lemma safe_RecoveryCounts L (st : T) : safe L (RecoveryCounts st).
Proof using TotpStoreLaws0. eapply safe_read, RecoveryCounts_law. Qed.
Lemma safe_LastUsedStep L (st : T) : safe L (LastUsedStep st).
Proof using TotpStoreLaws0. eapply safe_read, LastUsedStep_law. Qed.
Lemma safe_RecordUsedStep L (st : T) step : safe L (RecordUsedStep st step).
Proof using TotpStoreLaws0. eapply safe_op; [apply RecordUsedStep_law|]. left. apply spares_records. Qed.
Lemma safe_ConsumeRecoveryCode L (st : T) hash : safe L (ConsumeRecoveryCode st hash).
Proof using TotpStoreLaws0. eapply safe_op; [apply ConsumeRecoveryCode_law|]. left. apply spares_consumes. Qed.
Lemma safe_ReplaceRecoveryCodes L (st : T) hashes : safe L (ReplaceRecoveryCodes st hashes).
Proof using TotpStoreLaws0. eapply safe_op; [apply ReplaceRecoveryCodes_law|]. left. apply spares_replaces. Qed.
Lemma safe_UpsertEnrollment (st : T) c n sa : safe (Some (account st)) (UpsertEnrollment st c n sa).
Proof using TotpStoreLaws0. eapply safe_op; [apply UpsertEnrollment_law|]. right. split; [done|apply moves_upserts]. Qed.
Lemma safe_Enable (st : T) : safe (Some (account st)) (Enable st).
Proof using TotpStoreLaws0. eapply safe_op; [apply Enable_law|]. right. split; [done|apply moves_enables]. Qed.
Lemma safe_Disable (st : T) : safe (Some (account st)) (Disable st).
Proof using TotpStoreLaws0. eapply safe_op; [apply Disable_law|]. right. split; [done|apply moves_wipes]. Qed.

#[local] Hint Resolve safe_IsEnabled safe_EnabledAt safe_LoadSecret safe_RecoveryCounts safe_LastUsedStep safe_RecordUsedStep
  safe_ConsumeRecoveryCode safe_ReplaceRecoveryCodes safe_UpsertEnrollment safe_Enable safe_Disable : safe.

Lemma safe_Verify L (r : Repository (S := T)) code : safe L (Verify IDKey GenerateCode r code).
Proof using TotpStoreLaws0. unfold Verify. safely. Qed.
Lemma safe_VerifyOrRecover L (r : Repository (S := T)) code : safe L (VerifyOrRecover IDKey GenerateCode r code).
Proof using TotpStoreLaws0. unfold VerifyOrRecover, ConsumeCode. apply safe_try; [apply safe_Verify|]. safely. Qed.
Lemma safe_Info L (r : Repository (S := T)) : safe L (Info r).
Proof using TotpStoreLaws0. unfold Info. safely. Qed.
Lemma safe_GenerateRecoveryCodes L (r : Repository (S := T)) : safe L (GenerateRecoveryCodes r).
Proof using TotpStoreLaws0. unfold GenerateRecoveryCodes. safely. Qed.
Lemma safe_EnrollAs (r : Repository (S := T)) name : safe (Some (account (store r))) (EnrollAs IDKey Generate r name).
Proof using TotpStoreLaws0. unfold EnrollAs. safely. Qed.
Lemma safe_EnableTotp (r : Repository (S := T)) : safe (Some (account (store r))) (EnableTotp r).
Proof using TotpStoreLaws0. unfold EnableTotp. safely. Qed.
Lemma safe_DisableTotp (r : Repository (S := T)) : safe (Some (account (store r))) (DisableTotp r).
Proof using TotpStoreLaws0. unfold DisableTotp. safely. Qed.

Lemma safe_authorizeCode L (r : Repository (S := T)) code sec last probe :
  (∀ h, safe L (probe h)) → safe L (authorizeCode IDKey GenerateCode r code sec last probe).
Proof using Type. intros Hp. unfold authorizeCode. safely. Qed.

(** The deletion under the lock. *)
Lemma wiped_step tid who w w' h :
  holds tid who (w, h) → view_of who (db w') = (None, ∅) → only who w w' → sound (w, h) →
  let s' := (w', h ++ [Wiped who]) in sound s' ∧ allows tid (w, h) s' ∧ holds tid who s'.
Proof using Type.
  intros Hh Hv Ho Hi s'. destruct (only_step who tid w w' h [Wiped who] Ho) as [H1 H2]; [by constructor|by right|done|].
  split; [done|]. split; [done|]. apply (held_totpMu (Some who) tid w h); [by destruct Ho as [-> _]|done].
Qed.

Lemma safe_DisableWithCode (r : Repository (S := T)) code :
  safe (Some (account (store r))) (DisableWithCode IDKey GenerateCode r code).
Proof using TotpStoreLaws0.
  set (who := account (store r)). unfold DisableWithCode. apply safe_try; [|intros; apply safe_Ret].
  intros tid s Hi Hh. apply DisableIfAuthorized_law; [done|intros; by apply allows_refl| |].
  { intros _ s1 _ Hr1 err. by eapply (held_rely (Some who)). }
  intros s1 Hi1 Hr1. assert (held (Some who) tid s1) as Hh1 by (by eapply held_rely).
  destruct (view_of _ _).1 as [row|]; [|intros s2 _ Hr2; by eapply (held_rely (Some who))].
  intros probe Hprobe. eapply wp_conseq; [|apply (safe_authorizeCode (Some who)); [|done..]].
  2: { intros h. eapply safe_read, Hprobe. }
  intros answer s2 Hi2 Hh2 s3 Hi3 Hr3. assert (held (Some who) tid s3) as Hh3 by (by eapply held_rely).
  split; [done|]. destruct answer as [err|[]]; [done| |done]. destruct s3 as [w3 h3]. intros w' Hv Ho.
  destruct (wiped_step tid who w3 w' h3 Hh3 Hv Ho Hi3) as (H1 & H2 & H3). split; [done|]. split; [done|].
  intros s4 _ Hr4. assert (held (Some who) tid s4) as Hh4 by (by eapply (held_rely (Some who))). by split.
Qed.

(** ** Locks, throttles, and the gate *)

Lemma safe_Admit L throttle key : safe L (Admit throttle key).
Proof using Type. local. Qed.

Lemma safe_throttle L (put : Throttle → World → World) (f : Env → World → Throttle) :
  (∀ t w, db (put t w) = db w ∧ drawn (put t w) = drawn w ∧ totpEnabled (put t w) = totpEnabled w ∧ totpMu (put t w) = totpMu w) →
  safe L (act (λ _ e w, Some (tt, put (f e w) w, []))).
Proof using Type. intros Hput. apply safe_local. intros tid e w b w' said [= <- <- <-]. split; [done|apply Hput]. Qed.

Lemma safe_failed L key : safe L (noteFailure loginThrottle (λ t w, w ⟦ loginThrottle := t ⟧) key).
Proof using Type. by apply (safe_throttle L (λ t w, w ⟦ loginThrottle := t ⟧) (λ e w, _)). Qed.
Lemma safe_succeeded L key : safe L (noteSuccess loginThrottle (λ t w, w ⟦ loginThrottle := t ⟧) key).
Proof using Type. by apply (safe_throttle L (λ t w, w ⟦ loginThrottle := t ⟧) (λ e w, _)). Qed.
Lemma safe_pwFailed L key : safe L (noteFailure pwThrottle (λ t w, w ⟦ pwThrottle := t ⟧) key).
Proof using Type. by apply (safe_throttle L (λ t w, w ⟦ pwThrottle := t ⟧) (λ e w, _)). Qed.
Lemma safe_pwSucceeded L key : safe L (noteSuccess pwThrottle (λ t w, w ⟦ pwThrottle := t ⟧) key).
Proof using Type. by apply (safe_throttle L (λ t w, w ⟦ pwThrottle := t ⟧) (λ e w, _)). Qed.

(** A critical section: what is proved inside holds of the whole. *)
Lemma wp_locked tid who {A : Set} (p : program A) (Q : A → state → Prop) s :
  (∀ a s1 s2, (∃ said, s2.2 = s1.2 ++ said) → Q a s1 → Q a s2) → sound s →
  (∀ s1, sound s1 → holds tid who s1 → wps tid p (λ a s2, holds tid who s2 ∧ Q a s2) s1) →
  wps tid (locked who p) Q s.
Proof using Type.
  intros HQ Hi Hp. unfold locked. apply wp_seq; [done|]. cbn. intros [w h] e b w' said _ Hi1 Hr1 Hx. cbn [fst snd] in *.
  destruct (totpMu w !! who) eqn:Hmu; [done|]. simplify_eq. rewrite app_nil_r.
  destruct (mu_step g0 tid w h (<[who := tid]> (totpMu w))) as [H1 H2]; [|done|].
  { intros a o Hne Ho. rewrite lookup_insert_ne; [done|]. intros <-. by rewrite Hmu in Ho. }
  split; [done|]. split; [done|]. intros s2 Hi2 Hr2. apply wp_seq; [done|].
  eapply wp_conseq; [|apply Hp; [done|]]; [|eapply holds_stable; [done|]; apply lookup_insert_eq].
  intros a s3 Hi3 [Hh3 Ha]. cbn. intros [w4 h4] e4 b4 w4' said4 _ Hi4 Hr4 [= <- <- <-]. cbn [fst snd] in *. rewrite app_nil_r.
  assert (holds tid who (w4, h4)) as Hh4 by (by eapply holds_stable).
  destruct (mu_step g0 tid w4 h4 (delete who (totpMu w4))) as [H3 H4]; [|done|].
  { intros b o Hne Ho. rewrite lookup_delete_ne; [done|]. intros <-. unfold holds in Hh4. cbn in Hh4. congruence. }
  split; [done|]. split; [done|]. intros s5 _ Hr5. eapply HQ; [|exact Ha].
  destruct (said_stable _ _ _ _ Hr4) as [m1 Hm1], (said_stable _ _ _ _ Hr5) as [m2 Hm2].
  cbn in *. exists (m1 ++ m2). by rewrite Hm2, Hm1, <- app_assoc.
Qed.

Lemma safe_locked who {A : Set} (p : program A) : safe (Some who) p → safe None (locked who p).
Proof using Type.
  intros Hp tid s Hi _. apply wp_locked; [done..|]. intros s1 Hi1 Hh1.
  eapply wp_conseq; [|by apply Hp]. by intros a s2 _ Hh2.
Qed.

Context (h : AdminHandlers (T := T) (S := S)).

Lemma safe_TotpEnabled L : safe L (TotpEnabled h).
Proof using Type. local. Qed.
Lemma safe_publishEnabledAt L gen t : safe L (publishEnabledAt gen t).
Proof using Type. local. Qed.
Lemma safe_invalidateEnabledAt L : safe L invalidateEnabledAt.
Proof using Type. local. Qed.

(** Whoever holds the lock may move the gate. *)
Lemma wp_storeGate tid closed s :
  sound s → holds tid None s → wps tid (storeGate closed) (λ _ s', holds tid None s' ∧ (ghost g0 s').1 = closed) s.
Proof using Type.
  intros Hi Hh. cbn. intros [w h'] e b w' said _ Hi1 Hr1 [= <- <- <-]. cbn [fst snd].
  assert (holds tid None (w, h')) as Hh1 by (by eapply holds_stable).
  destruct (gate_step g0 tid closed w h' Hh1 Hi1) as [H1 H2]. split; [done|]. split; [done|]. intros s2 _ Hr2.
  destruct (held_stable g0 tid closed (enrolment None (w ⟦ totpEnabled := closed ⟧, h' ++ [GateMoved tid closed])) _ s2 Hr2)
    as (? & ? & _); [|done]. split; [exact Hh1|]. split; [|done]. unfold ghost. cbn. by rewrite foldl_app.
Qed.

Lemma safe_storeGate closed : safe (Some None) (storeGate closed).
Proof using Type. apply (safe_keeps _ _ (λ _ _ s, (ghost g0 s).1 = closed)). intros tid s Hi Hh. by apply wp_storeGate. Qed.

#[local] Hint Resolve safe_authenticate safe_RevokeAuthToken safe_RevokeOtherSessions safe_CreateAuthToken safe_Verify safe_VerifyOrRecover
  safe_Info safe_GenerateRecoveryCodes safe_EnrollAs safe_EnableTotp safe_DisableTotp safe_DisableWithCode safe_Admit
  safe_failed safe_succeeded safe_pwFailed safe_pwSucceeded safe_TotpEnabled safe_publishEnabledAt safe_invalidateEnabledAt
  safe_storeGate : safe.

(** ** The admin's handlers *)

Lemma safe_sessionAuth L mgr token use : safe L (sessionAuth (S := S) mgr token use).
Proof using SessionStoreLaws0. unfold sessionAuth, Authenticate, VerifySession. destruct use; apply safe_authenticate. Qed.
#[local] Hint Resolve safe_sessionAuth : safe.

Lemma safe_adminCookieSession L r use : safe L (adminCookieSession h r use).
Proof using SessionStoreLaws0. unfold adminCookieSession. safely. Qed.

Lemma safe_validAdminBearer L token use : safe L (validAdminBearer h token use).
Proof using SessionStoreLaws0. unfold validAdminBearer. safely. Qed.

Lemma safe_SetSession L j token secure maxAge : safe L (SetSession j token secure maxAge).
Proof using Type. unfold SetSession. safely. Qed.

Lemma safe_RefreshSessionCookies L r token res : safe L (RefreshSessionCookies h r token res).
Proof using Type. unfold RefreshSessionCookies, RefreshSession. safely. Qed.

#[local] Hint Resolve safe_adminCookieSession safe_validAdminBearer safe_SetSession safe_RefreshSessionCookies : safe.

Lemma safe_RequireAdminOrSession L r : safe L (RequireAdminOrSession h r).
Proof using SessionStoreLaws0. unfold RequireAdminOrSession. safely. Qed.

Lemma safe_ValidAdminOrSession L r : safe L (ValidAdminOrSession h r).
Proof using SessionStoreLaws0. unfold ValidAdminOrSession. safely. Qed.

Lemma safe_gated r handler : safe None handler → safe None (gated h r handler).
Proof using SessionStoreLaws0. intros Hh. unfold gated. apply safe_bind; [apply safe_RequireAdminOrSession|]. safely. Qed.

Lemma safe_Status L : safe L (Status h).
Proof using TotpStoreLaws0. unfold Status, cachedEnabledAt. safely; by local. Qed.

Lemma safe_TotpInfo L : safe L (TotpInfo h).
Proof using TotpStoreLaws0. unfold TotpInfo. safely. Qed.

Lemma safe_revokeAdminSessions L : safe L (revokeAdminSessions h).
Proof using SessionStoreLaws0. unfold revokeAdminSessions. safely. Qed.

Lemma safe_finishEnrolment L r codes : safe L (finishEnrolment h r codes).
Proof using SessionStoreLaws0. unfold finishEnrolment. safely. Qed.

Lemma safe_Login r req : safe None (Login IDKey GenerateCode h r req).
Proof using SessionStoreLaws0 TotpStoreLaws0. unfold Login. safely. Qed.

Lemma safe_RefreshTotpEnabled : safe (Some None) (RefreshTotpEnabled h).
Proof using TotpStoreLaws0. unfold RefreshTotpEnabled. safely. Qed.

(** The front end's store is the administrator's. *)
Context (Hadmin : account (store (totpRepo h)) = None).

Lemma safe_EnrollStart : safe None (EnrollStart IDKey Generate h).
Proof using SessionStoreLaws0 TotpStoreLaws0 Hadmin.
  apply safe_locked. apply safe_bind; [apply safe_TotpEnabled|]. intros []; [apply safe_Ret|].
  apply safe_bind; [|safely]. rewrite <- Hadmin. apply safe_EnrollAs.
Qed.

Lemma safe_DisableHandler r req : safe None (DisableHandler IDKey GenerateCode h r req).
Proof using TotpStoreLaws0 Hadmin.
  unfold DisableHandler. destruct req as [code|code]; [apply safe_Ret|]. apply safe_locked.
  apply safe_bind; [apply safe_Admit|]. intros [refusal|]; [apply safe_Ret|].
  apply safe_bind; [rewrite <- Hadmin; apply safe_DisableWithCode|]. pose proof safe_RefreshTotpEnabled. safely.
Qed.

(** ** The exchange *)

Context (Hwired : totpWired h = true).

(** The gate found open: no sweep of the closed gate has been by yet. *)
Lemma wp_recheck tid id s :
  sound s → minted tid id s → wps tid (TotpEnabled h) (λ b s', b = false → gone g0 tid id s') s.
Proof using Hwired.
  intros Hi Hm. cbn. intros [w h'] e b w' said _ Hi1 Hr1 [= <- <- <-]. cbn [fst snd]. rewrite app_nil_r.
  split; [done|]. split; [by apply allows_refl|]. intros s2 _ Hr2 Hoff. eapply gone_stable; [done|].
  assert (minted tid id (w, h')) as [M1 M2] by (by eapply minted_stable). split; [done|]. split; [done|]. intros Hse. exfalso.
  rewrite Hwired in Hoff. cbn in Hoff. pose proof (sound_sealed _ _ Hi1 Hse) as Hg.
  rewrite (sound_gate _ _ Hi1) in Hg. cbn in Hg. by rewrite Hoff in Hg.
Qed.

Lemma wp_hand tid id s : sound s → gone g0 tid id s → wps tid (hand id) (λ _ _, True) s.
Proof using Type.
  intros Hi Hg. cbn. intros [w h'] e b w' said _ Hi1 Hr1 [= <- <- <-]. cbn [fst snd].
  assert (gone g0 tid id (w, h')) as Hg1 by (by eapply gone_stable).
  by destruct (hand_step g0 tid id w h' Hg1 Hi1).
Qed.

Lemma safe_TokenExchange r req : safe None (TokenExchange h r req).
Proof using SessionStoreLaws0 Hwired.
  unfold TokenExchange. destruct (negb (contentJSON r)); [apply safe_Ret|]. destruct req as [code|adminToken]; [apply safe_Ret|].
  case_match; [apply safe_Ret|]. apply safe_bind; [apply safe_TotpEnabled|]. intros []; [apply safe_Ret|].
  destruct (sessionMgr h) as [mgr|]; [|apply safe_Ret]. destruct (negb _); [apply safe_Ret|].
  intros tid s Hi Hh. apply wp_seq; [done|]. eapply wp_conseq; [|by apply (wp_CreateAuthToken None)].
  intros [err|[tok id]] s1 Hi1 [_ Hm]; [by intros s2 _ _|]. specialize (Hm eq_refl).
  apply wp_seq; [done|]. eapply wp_conseq; [|by apply wp_recheck]. intros [] s2 Hi2 Hg.
  { apply (safe_then None tid); [done..| |done]. safely. }
  specialize (Hg eq_refl). apply wp_seq; [done|]. unfold SetSession. apply wp_Rand; [apply allows_refl|].
  intros s3 e _ Hi3 Hr3. intros s4 Hi4 Hr4. destruct (randomToken _).1 as [err|csrf]; [by intros s5 _ _|].
  apply wp_seq; [done|]. eapply wp_conseq; [|apply wp_hand; [done|]]; [by intros ? s5 _ _ s6 _ _|].
  eapply gone_stable; [done|]. by eapply gone_stable.
Qed.

(** ** The enrolment that closes the gate *)

Definition gateOf (hist : list Event) : bool := (foldl watch (g0, false) hist).1.

(** A sweep of the admin's sessions by this goroutine, while the gate was closed. *)
Definition swept (tid : nat) (hist : list Event) : Prop :=
  ∃ h1 h2, hist = h1 ++ SignedOut tid "admin" "" :: h2 ∧ gateOf h1 = true.

Lemma swept_grows tid hist said : swept tid hist → swept tid (hist ++ said).
Proof using Type. intros (h1 & h2 & -> & Hg). exists h1, (h2 ++ said). split; [by rewrite <- app_assoc|done]. Qed.

Lemma swept_stable tid s s' : others tid s s' → swept tid s.2 → swept tid s'.2.
Proof using Type. intros Hr Hs. destruct (said_stable _ _ _ _ Hr) as [said ->]. by apply swept_grows. Qed.

(** What was swept stays so, whatever the request does next. *)
Lemma wp_still tid {A : Set} (p : program A) (Q : A → state → Prop) s :
  sound s → wps tid p Q s → swept tid s.2 → wps tid p (λ a s', Q a s' ∧ swept tid s'.2) s.
Proof using Type.
  revert s. induction p as [a|B f k IH]; intros s Hi Hw Hs.
  - intros s' Hi' Hr. split; [by apply Hw|]. by eapply swept_stable.
  - intros s' e b w' said He Hi' Hr Hf. destruct (Hw s' e b w' said He Hi' Hr Hf) as (H1 & H2 & H3).
    split; [done|]. split; [done|]. apply IH; [done..|]. cbn. apply swept_grows. by eapply swept_stable.
Qed.

Lemma wp_sweep tid (mgr : SessionManager (S := S)) s :
  sound s → holds tid None s → (ghost g0 s).1 = true →
  wps tid (RevokeOtherSessions mgr "admin" []) (λ a s', holds tid None s' ∧ ∀ n, a = inr n → swept tid s'.2) s.
Proof using SessionStoreLaws0.
  intros Hi Hh Hg. unfold RevokeOtherSessions. rewrite decide_False by done. cbn [candidateHashes keepFor filter list_filter fmap list_fmap].
  apply wp_let; [done|]. intros s1 Hi1 Hr1.
  destruct (held_stable g0 tid true _ s s1 Hr1 (conj Hh (conj Hg eq_refl))) as (Hh1 & Hg1 & _).
  eapply wp_does; [apply allows_refl|apply DeleteOtherSessionsForUser_law|]. intros [w h'] Hi2 Hr2. cbn [fst snd].
  destruct (held_stable g0 tid true _ s1 (w, h') Hr2 (conj Hh1 (conj Hg1 eq_refl))) as (Hh2 & Hg2 & _).
  split; [intros err _ s3 _ Hr3; split; [by eapply holds_stable|done]|].
  intros e a d' said _ (-> & now & _ & ->).
  destruct (shrink_step g0 tid w (othersGone "admin" "" (webauthn_sessions (db w))) h' [SignedOut tid "admin" ""]) as [H1 H2]; [| |done|].
  { intros i r'. apply filter_rows. }
  { right; left. exists "admin", "". split; [done|]. intros _ _. apply othersGone_admin. intros id r Hr. by apply (sound_rows _ _ Hi2 id r). }
  split; [done|]. split; [done|]. intros s3 _ Hr3. assert (holds tid None s3) as Hh3 by (by eapply holds_stable).
  split; [|done]. split; [done|]. intros n _. eapply swept_stable; [done|]. cbn. exists h', []. by split.
Qed.

(** The enrolment is on, and nobody else can turn it off. *)
Definition enrolled (tid : nat) (s : state) : Prop := holds tid None s ∧ (enrolment None s).2 = true.

Lemma enrolled_stable tid s s' : others tid s s' → enrolled tid s → enrolled tid s'.
Proof using Type. intros Hr [Hh He]. destruct (held_stable g0 tid _ _ s s' Hr (conj Hh (conj eq_refl eq_refl))) as (? & _ & Heq). split; [done|]. by rewrite Heq. Qed.

Lemma wp_EnableTotp tid s :
  sound s → holds tid None s →
  wps tid (EnableTotp (totpRepo h)) (λ a s', holds tid None s' ∧ ∀ u, a = inr u → enrolled tid s') s.
Proof using TotpStoreLaws0 Hadmin.
  intros Hi Hh. apply wp_let; [done|]. eapply wp_atomically; [apply allows_refl|apply Enable_law|]. rewrite Hadmin.
  intros [w h'] Hi1 Hr1. cbn [fst snd]. assert (holds tid None (w, h')) as Hh1 by (by eapply holds_stable).
  split; [intros err _ s2 _ Hr2 s3 _ Hr3; split; [|done]; eapply holds_stable; [done|]; by eapply holds_stable|].
  intros a w' said He Ho. destruct (only_step None tid w w' h' said Ho) as [H1 H2]; [by eapply moves_enables|by right|done|].
  split; [done|]. split; [done|].
  assert (a = true → enrolled tid (w', h' ++ said)) as Hon.
  { intros ->. split; [destruct Ho as [-> _]; exact Hh1|]. unfold enables in He. destruct (view_of None (db w)).1; [|by destruct He].
    destruct He as (since & _ & Hv & _). unfold enrolment. cbn [fst snd]. rewrite Hv. done. }
  assert (holds tid None (w', h' ++ said)) as Hh2 by (destruct Ho as [-> _]; exact Hh1).
  intros s3 Hi3 Hr3. assert (holds tid None s3) as Hh3 by (by eapply holds_stable). split.
  - destruct a; cbn; intros s4 _ Hr4; (split; [by eapply holds_stable|]); [|done].
    intros u _. eapply enrolled_stable; [done|]. eapply enrolled_stable; [done|]. by apply Hon.
  - intros err _ s4 _ Hr4. split; [by eapply holds_stable|done].
Qed.

Lemma wp_RefreshTotpEnabled tid s :
  sound s → enrolled tid s → wps tid (RefreshTotpEnabled h) (λ _ s', holds tid None s' ∧ (ghost g0 s').1 = true) s.
Proof using TotpStoreLaws0 Hadmin Hwired.
  intros Hi He. unfold RefreshTotpEnabled. rewrite Hwired. cbn [negb]. apply wp_seq; [done|].
  eapply (wp_conseq _ _ _ _ _ (λ a s', holds tid None s' ∧ a ≠ inr false)).
  - intros a s1 Hi1 [Hh1 Ha]. eapply wp_conseq; [|by apply wp_storeGate]. intros ? s2 Hi2 [Hh2 ->]. split; [done|].
    destruct a as [|[]]; done.
  - eapply wp_atomically; [apply allows_refl|apply IsEnabled_law|]. rewrite Hadmin. intros [w h'] Hi1 Hr1. cbn [fst snd].
    destruct (enrolled_stable _ _ _ Hr1 He) as [Hh1 He1].
    split; [intros err _ s2 _ Hr2; split; [by eapply holds_stable|done]|]. intros a w' said (-> & Hd & ->) [Hw _].
    rewrite Hd, set_db_id in Hw. subst w'. rewrite app_nil_r. split; [done|]. split; [by apply allows_refl|].
    change (enabledOf (view_of None (db w)) = true) in He1. rewrite He1. intros s3 _ Hr3. split; [|intros err _]; (split; [by eapply holds_stable|done]).
Qed.

(** A successful enrolment swept under a closed gate. *)
Definition handsCodes (a : response) : bool := match payload a with RecoveryCodes _ _ _ => true | _ => false end.

Definition closedFirst (tid : nat) (a : response) (hist : list Event) : Prop :=
  handsCodes a = true → is_Some (sessionMgr h) → swept tid hist.

Abbreviation verified tid := (λ a s, holds tid None s ∧ closedFirst tid a s.2).

Lemma wp_refuse tid a s : handsCodes a = false → holds tid None s → wps tid (Ret a) (verified tid) s.
Proof using Type. intros Ha Hh s' _ Hr. split; [by eapply holds_stable|]. unfold closedFirst. by rewrite Ha. Qed.

Lemma wp_admitted tid key (k : option response → program response) s :
  sound s → holds tid None s →
  (∀ s', sound s' → holds tid None s' → wps tid (k None) (verified tid) s') →
  (∀ a, k (Some a) = Ret a) → wps tid (Admit loginThrottle key ≫= k) (verified tid) s.
Proof using Type.
  intros Hi Hh Hk Hr. apply wp_seq; [done|]. cbn. intros [w h'] e b w' said _ Hi1 Hr1 Hx. cbn [fst snd] in *.
  assert (holds tid None (w, h')) as Hh1 by (by eapply holds_stable).
  destruct (Allowed _ _ _ _) as [admitted retry]. injection Hx as <- <- <-. rewrite app_nil_r. split; [done|]. split; [by apply allows_refl|].
  intros s2 Hi2 Hr2. assert (holds tid None s2) as Hh2 by (by eapply holds_stable).
  destruct admitted; [by apply Hk|]. rewrite Hr. by apply wp_refuse.
Qed.

(** After the gate closed. *)
Lemma wp_closing tid r codes s :
  sound s → enrolled tid s →
  wps tid (_ ← RefreshTotpEnabled h;
           swept ← revokeAdminSessions h;
           if negb swept then
             _ ← DisableTotp (totpRepo h);
             _ ← RefreshTotpEnabled h;
             Ret (refuse 500 "totp: could not revoke the admin sessions after the gate closed")
           else finishEnrolment h r codes) (verified tid) s.
Proof using SessionStoreLaws0 TotpStoreLaws0 Hadmin Hwired.
  intros Hi He. apply wp_seq; [done|]. eapply wp_conseq; [|by apply wp_RefreshTotpEnabled]. intros [] s1 Hi1 [Hh1 Hg1].
  apply wp_seq; [done|]. eapply (wp_conseq _ _ _ _ _ (λ b s', holds tid None s' ∧ (b = true → is_Some (sessionMgr h) → swept tid s'.2))).
  2: { unfold revokeAdminSessions. destruct (sessionMgr h) as [mgr|]; [|intros s2 _ Hr2; split; [by eapply holds_stable|by intros _ [? ?]]].
       apply wp_seq; [done|]. eapply wp_conseq; [|by apply wp_sweep]. intros n s2 Hi2 [Hh2 Hn] s3 _ Hr3.
       split; [by eapply holds_stable|]. destruct n as [|n]; [done|]. intros _ _. eapply swept_stable; [done|]. by eapply Hn. }
  intros [] s2 Hi2 [Hh2 Hs2]; cbn [negb].
  - eapply (wp_conseq _ _ _ _ _ (λ a s', holds tid None s' ∧ (is_Some (sessionMgr h) → swept tid s'.2))).
    { intros a s3 _ [Hh3 Hs3]. split; [done|]. intros _. exact Hs3. }
    destruct (sessionMgr h) as [mgr|] eqn:Hmgr.
    + eapply wp_conseq; [|apply wp_still; [done|by apply (safe_finishEnrolment (Some None))|by apply Hs2]]. intros a s3 _ [Hh3 Hs3]. by split.
    + eapply wp_conseq; [|by apply (safe_finishEnrolment (Some None))]. intros a s3 _ Hh3. split; [done|]. by intros [? ?].
  - eapply (wp_first (Some None)); [done..|rewrite <- Hadmin; apply safe_DisableTotp|]. intros _ s3 Hi3 Hh3.
    eapply (wp_first (Some None)); [done..|apply safe_RefreshTotpEnabled|]. intros _ s4 Hi4 Hh4. by apply wp_refuse.
Qed.

Lemma wp_EnrollVerify tid r req s :
  sound s → wps tid (EnrollVerify IDKey GenerateCode h r req) (λ a s', closedFirst tid a s'.2) s.
Proof using SessionStoreLaws0 TotpStoreLaws0 Hadmin Hwired.
  intros Hi. unfold EnrollVerify. destruct req as [code|code]; [by intros s' _ _ ?|].
  apply wp_locked; [intros a s1 s2 [said ->] Ha Hc Hmgr; by apply swept_grows, Ha|done|]. clear s Hi. intros s Hi Hh.
  eapply (wp_first (Some None)); [done..|apply safe_TotpEnabled|]. intros [] s1 Hi1 Hh1; [by apply wp_refuse|].
  apply wp_admitted; [done..| |done]. intros s2 Hi2 Hh2.
  eapply (wp_first (Some None)); [done..|apply safe_Verify|]. intros [err|[]] s3 Hi3 Hh3; [by apply wp_refuse| |].
  2: { eapply (wp_first (Some None)); [done..|apply safe_failed|]. intros _ s4 Hi4 Hh4. by apply wp_refuse. }
  eapply (wp_first (Some None)); [done..|apply safe_succeeded|]. intros _ s4 Hi4 Hh4.
  eapply (wp_first (Some None)); [done..|apply safe_GenerateRecoveryCodes|]. intros [err|codes] s5 Hi5 Hh5; [by apply wp_refuse|].
  eapply (wp_first (Some None)); [done..|apply safe_revokeAdminSessions|]. intros [] s6 Hi6 Hh6; cbn [negb]; [|by apply wp_refuse].
  apply wp_seq; [done|]. eapply wp_conseq; [|by apply wp_EnableTotp]. intros [err|u] s7 Hi7 [Hh7 He7]; [by apply wp_refuse|].
  apply wp_closing; [done|]. by eapply He7.
Qed.

(** ** Users and sessions *)

Context (userTotp : option (string → Repository (S := T))).
Context (Huser : ∀ make uid, userTotp = Some make → account (store (make uid)) = Some uid).

Lemma caller_account id repo uid name : callerTotpRepo userTotp id = inr (repo, uid, name) → account (store repo) = Some uid.
Proof using Huser.
  unfold callerTotpRepo. destruct userTotp as [make|] eqn:Hm; [|done]. destruct id as [[[u|] n]|]; [|done..].
  intros [= <- <- <-]. by apply Huser.
Qed.

Lemma safe_UserTotpStatus L id : safe L (UserTotpStatus userTotp id).
Proof using TotpStoreLaws0. unfold UserTotpStatus. safely. Qed.

Lemma safe_UserTotpEnrollStart id : safe None (UserTotpEnrollStart IDKey Generate userTotp id).
Proof using TotpStoreLaws0 Huser.
  unfold UserTotpEnrollStart. destruct (callerTotpRepo _ _) as [refusal|[[repo uid] name]] eqn:Hc; [apply safe_Ret|].
  apply safe_locked. rewrite <- (caller_account _ _ _ _ Hc). safely.
Qed.

Lemma safe_UserTotpEnrollVerify id req : safe None (UserTotpEnrollVerify IDKey GenerateCode userTotp id req).
Proof using TotpStoreLaws0 Huser.
  unfold UserTotpEnrollVerify. destruct (callerTotpRepo _ _) as [refusal|[[repo uid] name]] eqn:Hc; [apply safe_Ret|].
  destruct req as [code|code]; [apply safe_Ret|]. apply safe_locked. pose proof (safe_EnableTotp repo) as Hon.
  rewrite (caller_account _ _ _ _ Hc) in Hon. safely.
Qed.

Lemma safe_UserTotpDisable id req : safe None (UserTotpDisable IDKey GenerateCode userTotp id req).
Proof using TotpStoreLaws0 Huser.
  unfold UserTotpDisable. destruct (callerTotpRepo _ _) as [refusal|[[repo uid] name]] eqn:Hc; [apply safe_Ret|].
  destruct req as [code|code]; [apply safe_Ret|]. apply safe_locked. pose proof (safe_DisableWithCode repo code) as Hoff.
  rewrite (caller_account _ _ _ _ Hc) in Hoff. safely.
Qed.

Lemma safe_query L {A : Set} failed (read : Env → DB → A) : safe L (query failed read).
Proof using Type.
  apply safe_local. intros tid e w b w' said Hx. destruct (env_fate e); simplify_eq/=; done.
Qed.

Lemma safe_ResetUserTotp id : safe None (ResetUserTotp userTotp id).
Proof using TotpStoreLaws0 Huser.
  unfold ResetUserTotp. destruct userTotp as [make|] eqn:Hm; [|apply safe_Ret].
  apply safe_bind; [apply safe_query|]. intros [err|[]]; [apply safe_Ret| |apply safe_Ret]. apply safe_locked.
  rewrite <- (Huser make id eq_refl). safely.
Qed.

#[local] Hint Resolve safe_RevokeSessionByID safe_ListAuthSessions : safe.

Lemma safe_AuthLogout L mgr mode r : safe L (AuthLogout (S := S) mgr mode r).
Proof using SessionStoreLaws0. unfold AuthLogout. safely. Qed.

Lemma safe_ListAuthSessionsHandler L mgr id r : safe L (ListAuthSessionsHandler (S := S) mgr id r).
Proof using SessionStoreLaws0. unfold ListAuthSessionsHandler. safely. Qed.

Lemma safe_RevokeAuthSessionByID L mgr id r param : safe L (RevokeAuthSessionByID (S := S) mgr id r param).
Proof using SessionStoreLaws0. unfold RevokeAuthSessionByID. safely. Qed.

Lemma safe_RevokeOtherSessionsHandler L mgr id r : safe L (RevokeOtherSessionsHandler (S := S) mgr id r).
Proof using SessionStoreLaws0. unfold RevokeOtherSessionsHandler. safely. Qed.

Lemma safe_frontDesk L mgr mode r param :
  safe L (logout (S := S) mgr mode r) ∧ safe L (listAuthSessions mgr r) ∧ safe L (revokeAuthSession mgr r param) ∧
  safe L (revokeOtherSessions mgr r).
Proof using SessionStoreLaws0.
  split; [|split; [|split]]; [unfold logout|unfold listAuthSessions|unfold revokeAuthSession|unfold revokeOtherSessions]; safely.
Qed.
End Requests.
