(* ===== verification/AuthServing.v ===== *)
(** * The authentication surface, served

    Any number of logins, exchanges, enrolments, sign-outs and single-sign-on
    states, arriving at any time, every action of one interleaved with those of
    the others and any statement failing. *)

From S2P Require Import Prelude Crypto Encryption Threads LoginThrottle AuthWorld TotpStore SecondFactor SessionStore Sessions AuthCookie AdminAuth AdminLogin UserAuth SessionHandlers SecondFactorSystem AuthSystem AuthRequests.

(** A request, with what its decoded body and its identity are. *)
Inductive call :=
| Exchange (r : Request) (req : Z + string)
| PostLogin (r : Request) (req : Z + string * string)
| GetStatus
| GetInfo (r : Request)
| PostEnrollStart (r : Request)
| PostEnrollVerify (r : Request) (req : Z + string)
| PostDisable (r : Request) (req : Z + string)
| Heartbeat (r : Request)
| GetUserStatus (id : option Identity)
| PostUserEnrollStart (id : option Identity)
| PostUserEnrollVerify (id : option Identity) (req : Z + string)
| PostUserDisable (id : option Identity) (req : Z + string)
| PostUserReset (id : string)
| OtherLogin (who : string) (credential : option bytes) (meta : SessionMeta)
| PostLogout (r : Request)
| GetSessions (id : option Identity) (r : Request)
| DeleteOne (id : option Identity) (r : Request) (param : option string)
| PostRevokeOthers (id : option Identity) (r : Request)
| DeskLogout (r : Request)
| DeskSessions (r : Request)
| DeskDeleteOne (r : Request) (param : option string)
| DeskRevokeOthers (r : Request)
| StartLogin (state : bytes) (ttl : Duration)
| FinishLogin (id : string)
| Sweep.

Inductive outcome :=
| Responded (a : response)
| UserResponded (a : userAnswer)
| SessionsResponded (a : sessionAnswer)
| StillValid (b : bool)
| Minted (a : string + string * string)
| Started (a : string + string)
| Consumed (a : string + bytes)
| Unserved.

Section Serving.
Context (ok : Env → Prop).
Context (IDKey : bytes → bytes → Z → Z → Z → nat → bytes).
Context (Generate : string → string → Entropy → (string + string * string) * Entropy).
Context (GenerateCode : string → Time → string + string).
Context {T : Type} `{!TotpStore T, !TotpStoreLaws T} {S : Type} `{!SessionStore S, !SessionStoreLaws S}.
Context (h : AdminHandlers (T := T) (S := S)) (userTotp : option (string → Repository (S := T))).
Abbreviation answered p f := (r ← p; Ret (f r)) (only parsing).
Abbreviation state := (@St World Event) (only parsing).

Definition onManager (f : SessionManager (S := S) → program outcome) : program outcome :=
  match sessionMgr h with None => Ret Unserved | Some mgr => f mgr end.

Definition serve (c : call) : program outcome :=
  match c with
  | Exchange r req => answered (TokenExchange h r req) Responded
  | PostLogin r req => answered (Login IDKey GenerateCode h r req) Responded
  | GetStatus => answered (Status h) Responded
  | GetInfo r => answered (gated h r (TotpInfo h)) Responded
  | PostEnrollStart r => answered (gated h r (EnrollStart IDKey Generate h)) Responded
  | PostEnrollVerify r req => answered (gated h r (EnrollVerify IDKey GenerateCode h r req)) Responded
  | PostDisable r req => answered (gated h r (DisableHandler IDKey GenerateCode h r req)) Responded
  | Heartbeat r => answered (ValidAdminOrSession h r) StillValid
  | GetUserStatus id => answered (UserTotpStatus userTotp id) UserResponded
  | PostUserEnrollStart id => answered (UserTotpEnrollStart IDKey Generate userTotp id) UserResponded
  | PostUserEnrollVerify id req => answered (UserTotpEnrollVerify IDKey GenerateCode userTotp id req) UserResponded
  | PostUserDisable id req => answered (UserTotpDisable IDKey GenerateCode userTotp id req) UserResponded
  | PostUserReset id => answered (ResetUserTotp userTotp id) UserResponded
  | OtherLogin who credential meta => onManager (λ mgr, answered (CreateAuthToken mgr who credential meta) Minted)
  | PostLogout r => answered (AuthLogout (sessionMgr h) (cookieSecure h) r) SessionsResponded
  | GetSessions id r => answered (ListAuthSessionsHandler (sessionMgr h) id r) SessionsResponded
  | DeleteOne id r param => answered (RevokeAuthSessionByID (sessionMgr h) id r param) SessionsResponded
  | PostRevokeOthers id r => answered (RevokeOtherSessionsHandler (sessionMgr h) id r) SessionsResponded
  | DeskLogout r => onManager (λ mgr, answered (logout mgr (cookieSecure h) r) SessionsResponded)
  | DeskSessions r => onManager (λ mgr, answered (listAuthSessions mgr r) SessionsResponded)
  | DeskDeleteOne r param => onManager (λ mgr, answered (revokeAuthSession mgr r param) SessionsResponded)
  | DeskRevokeOthers r => onManager (λ mgr, answered (revokeOtherSessions mgr r) SessionsResponded)
  | StartLogin state ttl => onManager (λ mgr, answered (CreateLoginState mgr state ttl) Started)
  | FinishLogin id => onManager (λ mgr, answered (ConsumeLoginState mgr id) Consumed)
  | Sweep => onManager (λ mgr, _ ← CleanupExpiredSessions (sessionStore mgr); Ret Unserved)
  end.

(** What an answer says about the history. *)
Definition promised (g0 : bool) (c : call) (tid : nat) (a : outcome) (s : state) : Prop :=
  match c, a with
  | PostEnrollVerify _ _, Responded a => closedFirst g0 h tid a s.2
  | FinishLogin id, Consumed (inr _) => Dropped tid id ∈ s.2
  | _, _ => True
  end.

Definition asked (g0 : bool) (t : task (R := outcome)) : Prop := ∃ c, t = MkTask (serve c) (promised g0 c).

(** The wiring: the front end's store is the administrator's, a user's store its
    own, and the gate is there. *)
Definition wired : Prop :=
  account (store (totpRepo h)) = None ∧ totpWired h = true ∧
  ∀ make uid, userTotp = Some make → account (store (make uid)) = Some uid.

(** Sessions there at the start have ids that were drawn, and hashes that are
    digests. *)
Definition settled (w0 : World) : Prop :=
  ∀ id r, webauthn_sessions (db w0) !! id = Some r → is_Some (drawn w0 !! id) ∧ TokenHash r ≠ Some "".

Definition serving (w0 : World) (ts : list (task (R := outcome))) (w : World) (hist : list Event) : Prop :=
  wired ∧ settled w0 ∧ rtc (pool_step ok (asked (totpEnabled w0))) ([], (w0, [])) (ts, (w, hist)).

Section Requests.
Context (g0 : bool) (Hwired : wired).
Abbreviation wps tid := (wp ok (sound g0) (allows g0) tid).

Lemma wp_answered {A : Set} tid (p : program A) (f : A → outcome) (Q : A → state → Prop) (P : outcome → state → Prop) s :
  sound g0 s → wps tid p Q s →
  (∀ a s1 s2, Q a s1 → (∃ said, s2.2 = s1.2 ++ said) → P (f a) s2) → wps tid (answered p f) P s.
Proof using Type.
  intros Hi Hp HP. apply wp_seq; [done|]. eapply wp_conseq; [|exact Hp]. intros a s1 Hi1 Ha s2 _ Hr.
  eapply HP; [exact Ha|]. by eapply said_stable.
Qed.

Lemma wp_plain {A : Set} tid (p : program A) (f : A → outcome) (P : outcome → state → Prop) s :
  sound g0 s → safe g0 ok None p → (∀ a s', P (f a) s') → wps tid (answered p f) P s.
Proof using Type.
  intros Hi Hp HP. eapply (wp_answered _ _ _ (λ _ _, True)); [done| |by intros; apply HP].
  eapply wp_conseq; [|by apply (Hp tid s Hi)]. done.
Qed.

Lemma wp_onManager tid (f : SessionManager (S := S) → program outcome) P s :
  (∀ s', P Unserved s') → (∀ mgr, sessionMgr h = Some mgr → wps tid (f mgr) P s) → wps tid (onManager f) P s.
Proof using Type. intros HP Hf. unfold onManager. destruct (sessionMgr h); [by apply Hf|]. intros s' _ _. apply HP. Qed.

(** The gate's own refusals hand out no codes. *)
Lemma returns_RequireAdminOrSession r :
  returns (λ a, match a with inl refusal => handsCodes refusal = false | inr _ => True end) (RequireAdminOrSession h r).
Proof using Type.
  unfold RequireAdminOrSession. eapply returns_bind; [apply returns_any|]. intros [[tok res]|] _.
  - case_match; [done|]. case_match; [|done]. eapply returns_bind; [apply returns_any|]. done.
  - case_match; [|done]. eapply returns_bind; [apply returns_any|]. by intros [] _.
Qed.

Lemma wp_gatedVerify tid r req s :
  sound g0 s →
  wps tid (gated h r (EnrollVerify IDKey GenerateCode h r req)) (λ a s', closedFirst g0 h tid a s'.2) s.
Proof using SessionStoreLaws0 TotpStoreLaws0 Hwired.
  destruct Hwired as (Hadmin & Htotp & _). intros Hi. unfold gated. apply wp_seq; [done|].
  eapply wp_conseq; [|apply wp_returns; [apply returns_RequireAdminOrSession|by apply (safe_RequireAdminOrSession g0 ok h None r tid s)]].
  intros [refusal|cs] s1 Hi1 [Hr _].
  - intros s2 _ _. unfold closedFirst. by rewrite Hr.
  - destruct (_ && _); [by intros s2 _ _|]. apply wp_seq; [done|]. eapply wp_conseq; [|by apply wp_EnrollVerify].
    intros a s2 _ Ha s3 _ Hr3. unfold closedFirst in *. cbn. intros Hc Hm. eapply swept_stable; [done|]. by apply Ha.
Qed.

Lemma serve_sound c tid s : sound g0 s → wps tid (serve c) (promised g0 c tid) s.
Proof using SessionStoreLaws0 TotpStoreLaws0 Hwired.
  intros Hi. pose proof Hwired as (Hadmin & Htotp & Huser).
  destruct c; cbn [serve]; try (apply wp_onManager; [done|]; intros mgr _);
    try (apply wp_plain; [done| |by intros]);
    try (apply safe_gated; try apply _).
  - eapply safe_TokenExchange; first [done|apply _].
  - eapply safe_Login; apply _.
  - eapply safe_Status; apply _.
  - eapply safe_TotpInfo; apply _.
  - eapply safe_EnrollStart; first [done|apply _].
  - eapply wp_answered; [done|by apply wp_gatedVerify|]. intros a s1 s2 Ha [said Hs]. cbn. intros Hc Hm. rewrite Hs. by apply swept_grows, Ha.
  - eapply safe_DisableHandler; first [done|apply _].
  - eapply safe_ValidAdminOrSession; apply _.
  - eapply safe_UserTotpStatus; apply _.
  - eapply safe_UserTotpEnrollStart; first [done|apply _].
  - eapply safe_UserTotpEnrollVerify; first [done|apply _].
  - eapply safe_UserTotpDisable; first [done|apply _].
  - eapply safe_ResetUserTotp; first [done|apply _].
  - eapply safe_CreateAuthToken; apply _.
  - eapply safe_AuthLogout; apply _.
  - eapply safe_ListAuthSessionsHandler; apply _.
  - eapply safe_RevokeAuthSessionByID; apply _.
  - eapply safe_RevokeOtherSessionsHandler; apply _.
  - by apply (safe_frontDesk g0 ok None mgr (cookieSecure h) r None).
  - by apply (safe_frontDesk g0 ok None mgr (cookieSecure h) r None).
  - by apply (safe_frontDesk g0 ok None mgr (cookieSecure h) r param).
  - by apply (safe_frontDesk g0 ok None mgr (cookieSecure h) r None).
  - eapply safe_CreateLoginState; apply _.
  - eapply wp_answered; [done|by apply (wp_ConsumeLoginState g0 ok None)|]. intros a s1 s2 [_ Ha] [said Hs]. cbn.
    destruct a as [|blob]; [done|]. rewrite Hs. apply elem_of_app. left. by eapply Ha.
  - eapply safe_CleanupExpiredSessions; apply _.
Qed.
End Requests.

(** ** Every interleaving *)

Lemma settled_sound w0 : settled w0 → sound (totpEnabled w0) (w0, []).
Proof using Type. intros Hs. split; cbn; try done; try (by intros ?? ?%not_elem_of_nil). constructor. Qed.

Lemma asked_sound g0 t : wired → asked g0 t → ∀ tid s, sound g0 s → wp ok (sound g0) (allows g0) tid (body t) (promise t tid) s.
Proof using SessionStoreLaws0 TotpStoreLaws0. intros Hw [c ->] tid s Hi. by apply serve_sound. Qed.

Lemma serving_sound w0 ts w hist :
  serving w0 ts w hist →
  sound (totpEnabled w0) (w, hist) ∧ ∀ tid c a, ts !! tid = Some (MkTask (Ret a) (promised (totpEnabled w0) c)) → promised (totpEnabled w0) c tid a (w, hist).
Proof using SessionStoreLaws0 TotpStoreLaws0.
  intros (Hw & Hs & Hr). pose proof (λ t Ht, asked_sound (totpEnabled w0) t Hw Ht) as Hreq.
  split; [exact (proj1 (pool_sound _ _ _ _ _ _ _ (settled_sound w0 Hs) Hreq Hr))|].
  intros tid c a Ht. exact (pool_promise _ _ _ _ _ _ _ tid _ a (settled_sound w0 Hs) Hreq Hr Ht eq_refl).
Qed.

(** After a sweep under a closed gate that has not opened since. *)
Lemma watch_stays g h2 : (∀ by_, GateMoved by_ false ∉ h2) → g = (true, true) → foldl watch g h2 = (true, true).
Proof using Type.
  revert g. induction h2 as [|e h2 IH]; intros g Hn ->; [done|]. cbn. apply IH; [intros by_ Hin; apply (Hn by_); by right|].
  destruct e as [| | | | |by_ [] |by_ who keep| |]; try done; cbn; [|by case_bool_decide].
  exfalso. apply (Hn by_). by left.
Qed.

(** C4. No session bought with one factor survives the second. Whatever logins,
    exchanges, enrolments and sign-outs are in flight and however their actions
    interleave and fail: the cached gate is what was last stored to it; once the
    admin's sessions have been swept while it was closed, and until it opens, no
    session an exchange gave out for the raw token is in the table, not even one
    minted before the sweep by a request that answers after it; and an enrolment
    that answers with its recovery codes has made such a sweep itself, so the
    guarantee holds from that answer until the gate opens again. *)
Theorem no_one_factor_survivor w0 ts w hist :
  serving w0 ts w hist →
  let seen := foldl watch (totpEnabled w0, false) in
  (seen hist).1 = totpEnabled w ∧
  ((seen hist).2 = true → totpEnabled w = true ∧ ∀ by_ id, Handed by_ id ∈ hist → webauthn_sessions (db w) !! id = None) ∧
  (∀ tid r req a, ts !! tid = Some (MkTask (Ret (Responded a)) (promised (totpEnabled w0) (PostEnrollVerify r req))) →
     handsCodes a = true → is_Some (sessionMgr h) →
     ∃ h1 h2, hist = h1 ++ SignedOut tid "admin" "" :: h2 ∧ (seen h1).1 = true ∧
       ((∀ by_, GateMoved by_ false ∉ h2) → ∀ by_ id, Handed by_ id ∈ hist → webauthn_sessions (db w) !! id = None)).
Proof using SessionStoreLaws0 TotpStoreLaws0.
  intros Hs seen. destruct (serving_sound w0 ts w hist Hs) as [[I1 I2 I3 I4 I5 I6 I7] Hprom]. unfold ghost, rows in *. cbn [fst snd] in *.
  split; [done|]. split; [intros Hse; split; [rewrite <- I1; by apply I2|by intros by_ id; apply I3]|].
  intros tid r req a Ht Hc Hm. destruct (Hprom tid _ _ Ht Hc Hm) as (h1 & h2 & Hh & Hg). cbn in Hh. exists h1, h2. split; [done|]. split; [done|].
  intros Hopen by_ id. apply I3. rewrite Hh, foldl_app. cbn [foldl]. unfold gateOf in Hg. destruct (foldl watch _ h1) as [g s]. cbn in Hg. subst g.
  by rewrite watch_stays.
Qed.

(** C17. A login state is consumed once. However many requests finish the single
    sign-on of one state, at once or later, and whatever fails: at most one of
    them is given its payload, and the row is gone when it is. *)
Theorem login_state_once w0 ts w hist tid1 tid2 id a1 a2 :
  serving w0 ts w hist →
  ts !! tid1 = Some (MkTask (Ret (Consumed (inr a1))) (promised (totpEnabled w0) (FinishLogin id))) →
  ts !! tid2 = Some (MkTask (Ret (Consumed (inr a2))) (promised (totpEnabled w0) (FinishLogin id))) →
  tid1 = tid2 ∧ webauthn_sessions (db w) !! id = None.
Proof using SessionStoreLaws0 TotpStoreLaws0.
  intros Hs H1 H2. destruct (serving_sound w0 ts w hist Hs) as [Hi Hprom].
  pose proof (Hprom _ _ _ H1) as D1. pose proof (Hprom _ _ _ H2) as D2. cbn in D1, D2.
  split; [|by apply (sound_dropped _ _ Hi tid1 id)]. pose proof (sound_once _ _ Hi) as Hn. cbn in Hn.
  apply list_elem_of_split in D1 as (l1 & l2 & ->).
  rewrite omap_app in Hn. cbn in Hn. apply NoDup_app in Hn as (_ & Hd & [Hn _]%NoDup_cons).
  apply elem_of_app in D2 as [Hin|[Heq|Hin]%elem_of_cons]; [|by simplify_eq|].
  - exfalso. apply (Hd id); [|by left]. apply list_elem_of_omap. by exists (Dropped tid2 id).
  - exfalso. apply Hn. apply list_elem_of_omap. by exists (Dropped tid2 id).
Qed.

(** C16. Enrolments are serialised. Whatever is in flight, a step that changes an
    account's secret or whether its factor is on, or stores to the cached gate, is
    made by the one goroutine that holds that account's mutex - the admin's for
    the gate - and nobody releases a mutex another goroutine holds. *)
Theorem enrolment_serialised w0 ts w hist ts' w' hist' :
  serving w0 ts w hist → pool_step ok (asked (totpEnabled w0)) (ts, (w, hist)) (ts', (w', hist')) →
  (w' = w ∧ hist' = hist) ∨
  ∃ tid, (tid < length ts)%nat ∧
    (∀ who, secretView (view_of who (db w')) ≠ secretView (view_of who (db w)) ∨
            enabledOf (view_of who (db w')) ≠ enabledOf (view_of who (db w)) → totpMu w !! who = Some tid) ∧
    (totpEnabled w' ≠ totpEnabled w → totpMu w !! None = Some tid) ∧
    (∀ who owner, totpMu w !! who = Some owner → owner ≠ tid → totpMu w' !! who = Some owner).
Proof using SessionStoreLaws0 TotpStoreLaws0.
  intros (Hw & Hs & Hr) Hstep. pose proof (λ t Ht, asked_sound (totpEnabled w0) t Hw Ht) as Hreq.
  destruct (pool_guarantee _ _ _ _ _ _ _ _ _ (settled_sound w0 Hs) Hreq Hr Hstep) as [?|(tid & t & Ht & Hi & Hi' & Ha)]; [left; by simplify_eq|].
  right. exists tid. split; [by eapply lookup_lt_Some|]. split; [|split].
  - intros who Hc. destruct (decide (totpMu w !! who = Some tid)) as [|Hne]; [done|]. exfalso.
    pose proof (allows_enrolment _ _ _ _ Ha who Hne) as [= He1 He2]. cbn in *. by destruct Hc.
  - intros Hc. destruct (decide (totpMu w !! None = Some tid)) as [|Hne]; [done|]. exfalso.
    pose proof (allows_gate _ _ _ _ Ha Hne) as Hg. rewrite (sound_gate _ _ Hi), (sound_gate _ _ Hi') in Hg. by apply Hc.
  - intros who owner Hown Hne. exact (allows_mu _ _ _ _ Ha who owner Hne Hown).
Qed.
End Serving.

(** ** Races *)

Definition demoUsers : option (string → Repository (S := PgAccount)) :=
  Some (λ uid, MkRepository (MkPgAccount (Some uid)) "master").

Definition noGenerate (_ _ : string) (rnd : Entropy) : (string + string * string) * Entropy := (inl EmptyString, rnd).

Abbreviation demoServing := (serving (λ _, True) demoIDKey noGenerate demoGenerateCode demoHandlers demoUsers) (only parsing).
Abbreviation demoAsked g0 := (asked demoIDKey noGenerate demoGenerateCode demoHandlers demoUsers g0) (only parsing).

Definition demoTask (g0 : bool) (c : call) : @task Env World Event outcome :=
  MkTask (serve demoIDKey noGenerate demoGenerateCode demoHandlers demoUsers c) (promised demoHandlers g0 c).

Definition demoMoves (g0 : bool) (calls : list call) (turns : list nat) : list (@task Env World Event outcome + nat * Env) :=
  (inl <$> (demoTask g0 <$> calls)) ++ ((λ tid, inr (tid, demoTick tid)) <$> turns).

Lemma demoWired : wired demoHandlers demoUsers.
Proof. split; [reflexivity|]. split; [reflexivity|]. by intros make uid [= <-]. Qed.

(** What the schedule ends in was reached. *)
Lemma demo_serving w0 calls turns c :
  settled w0 → play (demoMoves (totpEnabled w0) calls turns) ([], (w0, [])) = Some c → demoServing w0 c.1 c.2.1 c.2.2.
Proof.
  intros Hw Hp. split; [exact demoWired|]. split; [exact Hw|]. destruct c as [ts [w hist]].
  refine (play_steps _ _ _ _ _ _ Hp). apply Forall_app. split.
  - apply Forall_fmap, Forall_fmap, Forall_forall. intros c _. by exists c.
  - apply Forall_fmap, Forall_forall. done.
Qed.

(** An enrolment that waits for its first code. *)
Definition demoProvisional : World :=
  demoWorld ⟦ db := (db demoWorld) ⟦ admin_totp :=
    Some (demoRow ⟦ enabled := false ⟧ ⟦ confirmed_at := None ⟧ ⟦ last_used_step := None ⟧) ⟧ ⟧ ⟦ totpEnabled := false ⟧.

(** An exchange mints a session, finds the gate open, and answers only after an
    enrolment has closed it and answered itself. *)
Definition demoRaceEnd : option (list (@task Env World Event outcome) * @St World Event) :=
  play (demoMoves (totpEnabled demoProvisional) [Exchange demoBearer (inr "raw"); PostEnrollVerify demoBearer (inr "666666")]
    (replicate 7 0%nat ++ replicate 26 1%nat ++ [0; 0]%nat)) ([], (demoProvisional, [])).

Definition demoRaceFinal (c : list (@task Env World Event outcome) * @St World Event) : Prop :=
  c.2.2 = [StepRecorded 1 None 56666666; CodesReplaced None; SignedOut 1 "admin" ""; GateMoved 1 true;
           SignedOut 1 "admin" ""; Handed 0 "0"] ∧
  match body <$> c.1 !! 1%nat with Some (Ret (Responded a)) => handsCodes a = true | _ => False end.

Lemma demoRaceEnd_says : match demoRaceEnd with Some c => demoRaceFinal c | None => False end.
Proof. vm_compute. split; reflexivity. Qed.

Lemma demoProvisional_settled : settled demoProvisional.
Proof. intros id r Hr. discriminate Hr. Qed.

(** The session it handed out is gone. *)
Lemma no_one_factor_survivor_witness :
  ∃ ts w hist, demoServing demoProvisional ts w hist ∧ Handed 0 "0" ∈ hist ∧ totpEnabled w = true ∧
    webauthn_sessions (db w) !! "0" = None.
Proof.
  destruct (ends_in demoRaceEnd demoRaceFinal demoRaceEnd_says) as ([ts [w hist]] & Hp & Hh & _). cbn [fst snd] in Hh.
  pose proof (demo_serving demoProvisional _ _ (ts, (w, hist)) demoProvisional_settled Hp) as Hs. cbn [fst snd] in Hs.
  exists ts, w, hist. split; [exact Hs|].
  destruct (no_one_factor_survivor _ _ _ _ _ _ demoProvisional ts w hist Hs) as (_ & Hsealed & _).
  rewrite Hh in Hsealed |- *. destruct (Hsealed eq_refl) as [Hg Hgone].
  assert (Handed 0 "0" ∈ [StepRecorded 1 None 56666666; CodesReplaced None; SignedOut 1 "admin" ""; GateMoved 1 true;
    SignedOut 1 "admin" ""; Handed 0 "0"]) as Hin by (do 5 right; left).
  split; [exact Hin|]. split; [exact Hg|exact (Hgone _ _ Hin)].
Defined.

(** Two finish one login state at once. *)
Definition demoPending : World :=
  demoWorld ⟦ db := emptyDB ⟦ webauthn_sessions := {["s" :=
    MkSession "" (counting 5) "oidc_login" "admin" None None (demoNow + Hour) demoNow "" "" None]} ⟧ ⟧ ⟦ drawn := {["s" := 9%nat]} ⟧.

Definition demoFinishEnd : option (list (@task Env World Event outcome) * @St World Event) :=
  play (demoMoves (totpEnabled demoPending) [FinishLogin "s"; FinishLogin "s"] [0; 1; 1; 0; 1]%nat) ([], (demoPending, [])).

Definition demoFinishFinal (c : list (@task Env World Event outcome) * @St World Event) : Prop :=
  body <$> c.1 !! 0%nat = Some (Ret (Consumed (inl errInvalidLoginState))) ∧
  c.1 !! 1%nat = Some (MkTask (Ret (Consumed (inr (counting 5)))) (promised demoHandlers (totpEnabled demoPending) (FinishLogin "s"))).

Lemma demoFinishEnd_says : match demoFinishEnd with Some c => demoFinishFinal c | None => False end.
Proof. vm_compute. split; reflexivity. Qed.

Lemma demoPending_settled : settled demoPending.
Proof.
  intros id r Hr. change (({["s" := MkSession "" (counting 5) "oidc_login" "admin" None None (demoNow + Hour) demoNow "" "" None]} : gmap _ _) !! id = Some r) in Hr.
  apply lookup_singleton_Some in Hr as [<- <-]. split; [by eexists|discriminate].
Qed.

Lemma login_state_once_witness :
  ∃ ts w hist, demoServing demoPending ts w hist ∧
    body <$> ts !! 0%nat = Some (Ret (Consumed (inl errInvalidLoginState))) ∧ webauthn_sessions (db w) !! "s" = None.
Proof.
  destruct (ends_in demoFinishEnd demoFinishFinal demoFinishEnd_says) as ([ts [w hist]] & Hp & H0 & H1). cbn [fst snd] in H0, H1.
  pose proof (demo_serving demoPending _ _ (ts, (w, hist)) demoPending_settled Hp) as Hs. cbn [fst snd] in Hs.
  exists ts, w, hist. split; [exact Hs|]. split; [exact H0|].
  exact (proj2 (login_state_once _ _ _ _ _ _ demoPending ts w hist 1%nat 1%nat "s" _ _ Hs H1 H1)).
Defined.

(** An administrator takes a user's second factor off. *)
Definition demoReset : World :=
  demoWorld ⟦ db := emptyDB ⟦ users := {["bob"]} ⟧ ⟦ user_totp := {["bob" := demoRow]} ⟧ ⟧.

Definition demoResetTurns : list nat := replicate 5 0%nat.
Definition demoResetEnd : option ((list (@task Env World Event outcome) * @St World Event) * (list (@task Env World Event outcome) * @St World Event)) :=
  match play (demoMoves (totpEnabled demoReset) [PostUserReset "bob"] demoResetTurns) ([], (demoReset, [])) with
  | Some c => match play [inr (0%nat, demoTick 0)] c with Some c' => Some (c, c') | None => None end
  | None => None
  end.

Definition bobEnrolled (w : World) : bool := bool_decide (is_Some (secretView (view_of (Some "bob") (db w)))).

Definition demoResetFinal (cs : (list (@task Env World Event outcome) * @St World Event) * (list (@task Env World Event outcome) * @St World Event)) : Prop :=
  bobEnrolled cs.1.2.1 = true ∧ bobEnrolled cs.2.2.1 = false ∧ length cs.1.1 = 1%nat.

Lemma demoResetEnd_says : match demoResetEnd with Some cs => demoResetFinal cs | None => False end.
Proof. vm_compute. split; [|split]; reflexivity. Qed.

Lemma demoResetEnd_plays cs :
  demoResetEnd = Some cs →
  play (demoMoves (totpEnabled demoReset) [PostUserReset "bob"] demoResetTurns) ([], (demoReset, [])) = Some cs.1 ∧
  play [inr (0%nat, demoTick 0)] cs.1 = Some cs.2.
Proof.
  unfold demoResetEnd. destruct (play _ ([], (demoReset, []))) as [c|]; [|discriminate].
  destruct (play [inr (0%nat, demoTick 0)] c) as [c'|] eqn:Hp; [|discriminate]. intros [= <-]. split; [reflexivity|exact Hp].
Qed.

Lemma demoReset_settled : settled demoReset.
Proof. intros id r Hr. discriminate Hr. Qed.

Lemma enrolment_serialised_witness :
  ∃ ts w hist ts' w' hist', demoServing demoReset ts w hist ∧
    pool_step (λ _, True) (demoAsked (totpEnabled demoReset)) (ts, (w, hist)) (ts', (w', hist')) ∧
    bobEnrolled w = true ∧ bobEnrolled w' = false ∧ totpMu w !! Some "bob" = Some 0%nat.
Proof.
  destruct (ends_in demoResetEnd demoResetFinal demoResetEnd_says) as ([[ts [w hist]] [ts' [w' hist']]] & Hp & Hon & Hoff & Hlen).
  apply demoResetEnd_plays in Hp as [Hp Hp']. cbn [fst snd] in Hon, Hoff, Hlen, Hp, Hp'.
  pose proof (demo_serving demoReset _ _ (ts, (w, hist)) demoReset_settled Hp) as Hs. cbn [fst snd] in Hs.
  pose proof (play_step (λ _, True) (demoAsked (totpEnabled demoReset)) 0%nat (demoTick 0) _ _ I Hp') as Hstep.
  exists ts, w, hist, ts', w', hist'. split; [exact Hs|]. split; [exact Hstep|]. split; [exact Hon|]. split; [exact Hoff|].
  assert (secretView (view_of (Some "bob") (db w')) ≠ secretView (view_of (Some "bob") (db w))) as Hne.
  { intros Heq. unfold bobEnrolled in Hon, Hoff. rewrite Heq, Hon in Hoff. discriminate Hoff. }
  destruct (enrolment_serialised _ _ _ _ _ _ demoReset ts w hist ts' w' hist' Hs Hstep) as [[Hw _]|(tid & Hlt & He & _)].
  - rewrite Hw in Hne. by destruct Hne.
  - rewrite Hlen in Hlt. assert (tid = 0%nat) as -> by lia. exact (He (Some "bob") (or_introl Hne)).
Defined.
