(* ===== verification/GoneStreak.v ===== *)
(** * The gone streak (internal/proxy/model_gone_streak.go)

    One model's run of "this model is gone" refusals: the strikes that nominate
    it for retirement, the probe that adjudicates, and the tombstone a success
    leaves for a disable in flight. Every method is one critical section over
    one streak, so an interleaving is a list of calls, each with the instant its
    caller read. *)

From S2P Require Import Prelude.

Definition goneStrikeThreshold : Z := 3.
Definition goneStrikeWindow : Duration := 30 * Minute.
Definition goneProbeCooldown : Duration := 5 * Minute.

Record goneStreak := MkStreak {
  n : Z;
  lastStrike : Time;
  nextProbeAt : Time;
  inconclusive : Z;
  cancelled : bool
}.

Definition streak_eta (s : goneStreak) : goneStreak :=
  MkStreak (n s) (lastStrike s) (nextProbeAt s) (inconclusive s) (cancelled s).
#[export] Instance upd_n : Updater n := ltac:(derive_updater streak_eta).
#[export] Instance upd_lastStrike : Updater lastStrike := ltac:(derive_updater streak_eta).
#[export] Instance upd_nextProbeAt : Updater nextProbeAt := ltac:(derive_updater streak_eta).
#[export] Instance upd_inconclusive : Updater inconclusive := ltac:(derive_updater streak_eta).
#[export] Instance upd_cancelled : Updater cancelled := ltac:(derive_updater streak_eta).

(** The zero value a refusal files for a model seen for the first time. *)
Definition newStreak : goneStreak := MkStreak 0 zeroTime zeroTime 0 false.

Definition strike (s : goneStreak) (now : Time) : goneStreak * Z :=
  let s :=
    if negb (IsZero (lastStrike s)) && (goneStrikeWindow <? Sub now (lastStrike s))
    then s ⟦ n := 1 ⟧ else s ⟦ n := n s + 1 ⟧ in
  let s := s ⟦ lastStrike := now ⟧ in
  (s, n s).

Definition claimProbe (s : goneStreak) (now : Time) : goneStreak * bool :=
  if n s <? goneStrikeThreshold then (s, false)
  else if negb (IsZero (nextProbeAt s)) && Before now (nextProbeAt s) then (s, false)
  else (s ⟦ nextProbeAt := Add now goneProbeCooldown ⟧ ⟦ cancelled := false ⟧, true).

Definition canClaimProbe (s : goneStreak) (now : Time) : bool * string :=
  if n s <? goneStrikeThreshold
  then (false, "the strikes were cleared while this refusal was being recorded")
  else if negb (IsZero (nextProbeAt s)) && Before now (nextProbeAt s)
  then (false, "the model is inside its probe cooldown")
  else (true, "").

Definition clearLocked (s : goneStreak) : goneStreak :=
  s ⟦ n := 0 ⟧ ⟦ lastStrike := zeroTime ⟧ ⟦ inconclusive := 0 ⟧.

Definition park (s : goneStreak) : goneStreak := clearLocked s.

Definition supersede (s : goneStreak) : goneStreak * bool :=
  if (n s =? 0) && cancelled s then (s, false)
  else (clearLocked (s ⟦ cancelled := true ⟧), true).

Definition noteInconclusiveProbe (s : goneStreak) : goneStreak * Z :=
  let s := s ⟦ inconclusive := inconclusive s + 1 ⟧ in (s, inconclusive s).

Definition count (s : goneStreak) : Z := n s.

(** ** Interleavings *)

Inductive call :=
| Strike (now : Time)
| Claim (now : Time)
| Park
| Supersede
| Inconclusive.

#[export] Instance call_eq_dec : EqDecision call.
Proof. solve_decision. Defined.

(** One call, and whether it was granted a probe. *)
Definition invoke (s : goneStreak) (c : call) : goneStreak * bool :=
  match c with
  | Strike now => ((strike s now).1, false)
  | Claim now => claimProbe s now
  | Park => (park s, false)
  | Supersede => ((supersede s).1, false)
  | Inconclusive => ((noteInconclusiveProbe s).1, false)
  end.

Definition replay (s : goneStreak) (log : list call) : goneStreak :=
  foldl (fun s c => (invoke s c).1) s log.

(** The instants of the probes granted along a log. *)
Fixpoint grants (s : goneStreak) (log : list call) : list Time :=
  match log with
  | [] => []
  | c :: log =>
      let '(s', granted) := invoke s c in
      match c, granted with
      | Claim now, true => now :: grants s' log
      | _, _ => grants s' log
      end
  end.

(** ** Specifications *)

(** The strikes since the evidence was last cleared, latest first. *)
Definition strikesStep (l : list Time) (c : call) : list Time :=
  match c with
  | Strike now => now :: l
  | Park | Supersede => []
  | Claim _ | Inconclusive => l
  end.

Definition strikesSinceClear (log : list call) : list Time := foldl strikesStep [] log.

(** The run of strikes, latest first, in which no gap exceeds the window. *)
Fixpoint recentRun (l : list Time) : Z :=
  match l with
  | [] => 0
  | now :: rest =>
      match rest with
      | [] => 1
      | prev :: _ => if goneStrikeWindow <? Sub now prev then 1 else 1 + recentRun rest
      end
  end.

(** The calls that carry an instant carry a real one. *)
Definition stamped (c : call) : Prop :=
  match c with Strike now | Claim now => 0 < now | _ => True end.

(** The streak mirrors the strikes filed since the evidence was last cleared. *)
Record mirrors (s : goneStreak) (l : list Time) : Prop := {
  mirror_count : n s = recentRun l;
  mirror_last : lastStrike s = default zeroTime (head l);
  mirror_real : Forall (fun t => 0 < t) l
}.

(** ** Lemmas *)

Lemma replay_app s l1 l2 : replay s (l1 ++ l2) = replay (replay s l1) l2.
Proof. apply foldl_app. Qed.

Lemma strikes_app l1 l2 :
  strikesSinceClear (l1 ++ l2) = foldl strikesStep (strikesSinceClear l1) l2.
Proof. apply foldl_app. Qed.

Lemma recentRun_cons now prev l :
  recentRun (now :: prev :: l) =
    if goneStrikeWindow <? Sub now prev then 1 else 1 + recentRun (prev :: l).
Proof. done. Qed.

Lemma recentRun_length l : 0 ≤ recentRun l ≤ Z.of_nat (length l) ∧ (l ≠ [] → 0 < recentRun l).
Proof.
  induction l as [|now [|prev l] IH]; [done|done|].
  rewrite recentRun_cons. destruct IH as [IH1 IH2]. specialize (IH2 ltac:(done)).
  rewrite length_cons. destruct (_ <? _); lia.
Qed.

Lemma mirrors_step s l c :
  stamped c → mirrors s l → mirrors (invoke s c).1 (strikesStep l c).
Proof.
  intros Hc [Hn Hl Hf]. destruct c as [now|now| | |]; cbn [invoke strikesStep fst stamped] in *.
  - unfold strike. rewrite Hl. split; simpl.
    + destruct l as [|prev l]; simpl in *; [by rewrite Hn|].
      apply Forall_cons in Hf as [Hp _]. unfold IsZero, zeroTime.
      rewrite (proj2 (Z.eqb_neq _ _)) by lia. simpl.
      destruct (_ <? _); simpl; [done|]. rewrite Hn. simpl. lia.
    + done.
    + by constructor.
  - unfold claimProbe. by repeat case_match; split.
  - by split.
  - unfold supersede. destruct (Z.eqb_spec (n s) 0) as [H0|]; simpl; [|by split].
    destruct (cancelled s); simpl; [|by split].
    destruct l as [|t l]; [by split|]. destruct (recentRun_length (t :: l)) as [_ Hpos].
    specialize (Hpos ltac:(done)). rewrite <- Hn in Hpos. lia.
  - by split.
Qed.

Lemma mirrors_replay log s l :
  Forall stamped log → mirrors s l → mirrors (replay s log) (foldl strikesStep l log).
Proof.
  revert s l. induction log as [|c log IH]; intros s l Hs Hm; [done|].
  apply Forall_cons in Hs as [Hc Hs]. apply IH; [done|]. by apply mirrors_step.
Qed.

Lemma mirrors_new log : Forall stamped log → mirrors (replay newStreak log) (strikesSinceClear log).
Proof. intros Hs. apply mirrors_replay; [done|]. by split. Qed.

(** The earliest instant the next probe may be granted. *)
Lemma grants_bound s log :
  Forall stamped log → 0 ≤ nextProbeAt s →
  Forall (fun t => nextProbeAt s ≤ t) (grants s log) ∧
  StronglySorted (fun a b => a + goneProbeCooldown ≤ b) (grants s log).
Proof.
  revert s. induction log as [|c log IH]; intros s Hs Hn; simpl; [split; constructor|].
  apply Forall_cons in Hs as [Hc Hs].
  assert (∀ s', nextProbeAt s' = nextProbeAt s →
    Forall (fun t => nextProbeAt s ≤ t) (grants s' log) ∧
    StronglySorted (fun a b => a + goneProbeCooldown ≤ b) (grants s' log)) as Hsame.
  { intros s' Heq. rewrite <- Heq in *. by apply IH. }
  destruct c as [now|now| | |]; simpl in *; try (apply Hsame; unfold strike, supersede; by repeat case_match).
  unfold claimProbe. destruct (n s <? goneStrikeThreshold); [by apply Hsame|].
  destruct (_ && _) eqn:Hb; [by apply Hsame|].
  destruct (IH (s ⟦ nextProbeAt := Add now goneProbeCooldown ⟧ ⟦ cancelled := false ⟧)) as [Hall Hsort];
    [done|simpl; unfold Add, goneProbeCooldown, Minute, Second; lia|].
  simpl in Hall. unfold Add in Hall.
  assert (nextProbeAt s ≤ now) as Hle.
  { apply andb_false_iff in Hb as [Hz|Hz].
    - apply negb_false_iff, Z.eqb_eq in Hz. unfold zeroTime in Hz. lia.
    - by apply Z.ltb_ge in Hz. }
  split; constructor; try done.
  eapply Forall_impl; [exact Hall|]. intros t Ht. simpl in Ht. unfold goneProbeCooldown, Minute, Second in *. lia.
Qed.

(** Calls that are not granted a probe touch the tombstone only to raise it. *)
Lemma cancelled_replay s log :
  grants s log = [] → cancelled (replay s log) = cancelled s || bool_decide (Supersede ∈ log).
Proof.
  revert s. induction log as [|c log IH]; intros s Hg.
  { rewrite bool_decide_false by set_solver. by rewrite orb_false_r. }
  cbn [replay foldl grants] in *. fold (replay (invoke s c).1 log). destruct (invoke s c) as [s' granted] eqn:Hi.
  assert (grants s' log = []) as Hg' by (by destruct c, granted).
  cbn [fst]. rewrite (IH s' Hg').
  assert (cancelled s' = cancelled s || bool_decide (c = Supersede)) as ->.
  { destruct c as [now|now| | |]; simpl in Hi.
    - unfold strike in Hi. injection Hi as <- _. destruct (_ && _); simpl; by rewrite orb_false_r.
    - unfold claimProbe in Hi. destruct granted; [done|].
      repeat case_match; simplify_eq; by rewrite orb_false_r.
    - injection Hi as <- _. by rewrite orb_false_r.
    - unfold supersede in Hi. destruct (_ && _) eqn:Hb; simplify_eq/=; [|by rewrite orb_true_r].
      apply andb_true_iff in Hb as [_ ->]. done.
    - injection Hi as <- _. by rewrite orb_false_r. }
  rewrite <- orb_assoc. f_equal.
  rewrite !(bool_decide_ext (Supersede ∈ c :: log) (Supersede = c ∨ Supersede ∈ log)) by apply elem_of_cons.
  repeat case_bool_decide; naive_solver.
Qed.

(** ** Properties *)

(** Whatever the interleaving, the streak counts exactly the refusals since
    it was last cleared that form one run: the longest run, from the latest
    back, in which no gap exceeds [goneStrikeWindow]. Probes and inconclusive
    verdicts do not touch it. *)
Lemma goneStreak_counts log :
  Forall stamped log →
  count (replay newStreak log) = recentRun (strikesSinceClear log) ∧
  (∀ now, (strike (replay newStreak log) now).2 =
     count (replay newStreak log) + 1 ∨ (strike (replay newStreak log) now).2 = 1).
Proof.
  intros Hs. split; [by apply mirrors_new|].
  intros now. unfold strike. destruct (_ && _); [by right|by left].
Qed.

Lemma goneStreak_counts_witness :
  let log := [Strike Hour; Strike (Hour + 29 * Minute); Strike (Hour + 58 * Minute); Park;
              Strike (2 * Hour); Strike (3 * Hour); Claim (3 * Hour); Strike (3 * Hour + Minute)] in
  count (replay newStreak log) = 2 ∧
  count (replay newStreak log) = recentRun (strikesSinceClear log).
Proof.
  intros log. split; [reflexivity|]. apply (goneStreak_counts log).
  repeat constructor; evaluate.
Defined.

(** Probes of one model are at least [goneProbeCooldown] apart, along any
    interleaving of refusals, successes, parks and probe verdicts: clearing the
    evidence never buys an early probe. And no probe is granted on fewer than
    [goneStrikeThreshold] refusals since the model last answered. *)
Lemma probes_rate_limited log :
  Forall stamped log →
  StronglySorted (fun a b => a + goneProbeCooldown ≤ b) (grants newStreak log) ∧
  (∀ pre now post, log = pre ++ Claim now :: post →
     (claimProbe (replay newStreak pre) now).2 = true →
     goneStrikeThreshold ≤ Z.of_nat (length (strikesSinceClear pre))).
Proof.
  intros Hs. split; [by apply (grants_bound newStreak)|].
  intros pre now post -> Hg. apply Forall_app in Hs as [Hs _].
  pose proof (mirror_count _ _ (mirrors_new pre Hs)) as Hn.
  unfold claimProbe in Hg. destruct (Z.ltb_spec (n (replay newStreak pre)) goneStrikeThreshold); [done|].
  destruct (recentRun_length (strikesSinceClear pre)) as [? _]. lia.
Qed.

Lemma probes_rate_limited_witness :
  let log := [Strike Hour; Strike Hour; Strike Hour; Claim Hour; Claim (Hour + Minute); Supersede;
              Strike (Hour + 2 * Minute); Strike (Hour + 2 * Minute); Strike (Hour + 2 * Minute);
              Claim (Hour + 2 * Minute); Claim (Hour + 5 * Minute)] in
  grants newStreak log = [Hour; Hour + 5 * Minute] ∧
  StronglySorted (fun a b => a + goneProbeCooldown ≤ b) (grants newStreak log).
Proof.
  intros log. split; [reflexivity|]. apply (probes_rate_limited log). repeat constructor; evaluate.
Defined.

(** The cheap check and the claim agree, a refused claim changes nothing,
    and a granted one stamps the cooldown, clears the tombstone, and turns away
    every other caller until the cooldown has passed. *)
Lemma claimProbe_spec s now :
  0 < now →
  let '(s', granted) := claimProbe s now in
  (canClaimProbe s now).1 = granted ∧
  (granted = false → s' = s ∧ (canClaimProbe s now).2 ≠ "") ∧
  (granted = true → nextProbeAt s' = now + goneProbeCooldown ∧ cancelled s' = false ∧ n s' = n s ∧
     ∀ now', now' < now + goneProbeCooldown → (claimProbe s' now').2 = false).
Proof.
  intros Hnow. unfold claimProbe at 1, canClaimProbe.
  destruct (n s <? goneStrikeThreshold) eqn:Hn; [by split_and!|].
  destruct (_ && _); [by split_and!|]. split_and!; [done|done|]. intros _. split_and!; [done..|].
  intros now' Hlt. unfold claimProbe. simpl. rewrite Hn. unfold IsZero, Before, Add, zeroTime.
  rewrite (proj2 (Z.eqb_neq _ _)) by (unfold goneProbeCooldown, Minute, Second; lia).
  by rewrite (proj2 (Z.ltb_lt _ _)).
Qed.

Lemma claimProbe_spec_witness :
  let s := newStreak ⟦ n := 3 ⟧ ⟦ cancelled := true ⟧ in
  (canClaimProbe s Hour).1 = (claimProbe s Hour).2 ∧ (claimProbe s Hour).2 = true.
Proof.
  intros s. split; [|reflexivity]. apply (claimProbe_spec s Hour). evaluate.
Defined.

(** The tombstone belongs to the disable in flight: from the claim that
    decided it on, it is raised exactly if the model answered since. Once it
    is, the strikes behind that claim are gone: the count only ever shows
    refusals newer than the answer, so a revert is never skipped on stale
    evidence. *)
Lemma tombstone_spec pre now post :
  Forall stamped (pre ++ Claim now :: post) →
  (claimProbe (replay newStreak pre) now).2 = true →
  grants (claimProbe (replay newStreak pre) now).1 post = [] →
  let s := replay newStreak (pre ++ Claim now :: post) in
  (cancelled s = true ↔ Supersede ∈ post) ∧
  (∀ a b, post = a ++ Supersede :: b → count s = recentRun (strikesSinceClear b)).
Proof.
  intros Hs Hg Hno s. unfold s. rewrite replay_app. cbn [replay foldl].
  fold (replay (invoke (replay newStreak pre) (Claim now)).1 post). cbn [invoke]. split.
  - rewrite cancelled_replay by done. unfold claimProbe in *. repeat case_match; simplify_eq/=.
    by rewrite bool_decide_eq_true.
  - intros a b ->. pose proof (mirrors_new _ Hs) as Hm. rewrite replay_app in Hm.
    cbn [replay foldl] in Hm. apply mirror_count in Hm.
    fold (replay (invoke (replay newStreak pre) (Claim now)).1 (a ++ Supersede :: b)) in Hm.
    cbn [invoke] in Hm. unfold count. rewrite Hm. f_equal.
    rewrite strikes_app. simpl. by rewrite foldl_app.
Qed.

Lemma tombstone_spec_witness :
  let pre := [Strike Hour; Strike Hour; Strike Hour] in
  let post := [Strike (Hour + Second); Supersede; Strike (Hour + 2 * Second)] in
  let s := replay newStreak (pre ++ Claim Hour :: post) in
  (cancelled s = true ↔ Supersede ∈ post) ∧ count s = 1.
Proof.
  intros pre post s. split; [|reflexivity].
  apply (tombstone_spec pre Hour post); [repeat constructor; evaluate|reflexivity|reflexivity].
Defined.
