(* ===== verification/Errors.v ===== *)
(** * Attempt errors (internal/proxy: reqerror.go, proxy_upstream.go, stream_finalize.go)

    The kinds an attempt can fail with, what a context interruption is filed as,
    and how the last failure of a request is rendered for the log and for the
    client. An [error] carries the answers the code asks of one ([errors.Is],
    [net.Error]) and its bounded, masked rendering; a [context] carries its own
    error and the two values the code reads from it. Provider names are quoted
    byte by byte, bytes beyond ASCII taken as printable. *)

From S2P Require Import Prelude.

(** ** Kinds *)

Inductive ErrorKind :=
| KindClientDisconnect | KindProviderError | KindProviderModelGone | KindProviderNotEntitled
| KindProviderBadRequest | KindProviderSaturated | KindProviderQuotaExhausted | KindProviderTimeout
| KindFailoverTimeout | KindRetryTimeout | KindHedgeSuperseded | KindInternal | KindValidation | KindAuth.

#[export] Instance ErrorKind_eq_dec : EqDecision ErrorKind.
Proof. solve_decision. Defined.

Definition ErrorKind_String (kind : option ErrorKind) : string :=
  match kind with
  | None => ""
  | Some KindClientDisconnect => "client_disconnect"
  | Some KindProviderError => "provider_error"
  | Some KindProviderModelGone => "provider_model_gone"
  | Some KindProviderNotEntitled => "provider_not_entitled"
  | Some KindProviderBadRequest => "provider_bad_request"
  | Some KindProviderSaturated => "provider_saturated"
  | Some KindProviderQuotaExhausted => "provider_quota_exhausted"
  | Some KindProviderTimeout => "provider_timeout"
  | Some KindFailoverTimeout => "failover_timeout"
  | Some KindRetryTimeout => "retry_timeout"
  | Some KindHedgeSuperseded => "hedge_superseded"
  | Some KindInternal => "internal"
  | Some KindValidation => "validation"
  | Some KindAuth => "auth"
  end.

(** Whose fault a kind is: the only kinds the breaker is charged for once
    headers have arrived. *)
Definition providerAtFault (kind : ErrorKind) : bool :=
  match kind with
  | KindProviderError | KindProviderTimeout | KindProviderModelGone => true
  | _ => false
  end.

(** ** Errors and contexts *)

Record error := MkError {
  text : string;              (* what [errString] renders *)
  isCanceled : bool;          (* errors.Is context.Canceled *)
  isDeadline : bool;          (* errors.Is context.DeadlineExceeded *)
  isTimeout : bool;           (* a net.Error with Timeout() *)
  isInterrupted : bool;       (* ECONNRESET, EPIPE, io.ErrUnexpectedEOF, io.EOF *)
  isIdleClosed : bool         (* says "server closed idle connection" *)
}.

Definition errString (err : option error) : string := from_option text "" err.

Record context := MkContext {
  Err : option error;
  CancelOriginKey : string;
  HedgeSupersededKey : bool
}.

Definition resolveCancelOrigin (ctx : context) (err : error) : string :=
  if isDeadline err then
    if negb (bool_decide (CancelOriginKey ctx = "")) then CancelOriginKey ctx else "client_disconnect"
  else if HedgeSupersededKey ctx then "hedge_superseded"
  else "client_disconnect".

Definition cancelOriginToKind (origin : string) : ErrorKind :=
  if bool_decide (origin = "client_disconnect") then KindClientDisconnect
  else if bool_decide (origin = "failover_timeout") then KindFailoverTimeout
  else if bool_decide (origin = "retry_timeout") then KindRetryTimeout
  else if bool_decide (origin = "hedge_superseded") then KindHedgeSuperseded
  else KindInternal.

(** [None] is the code's [("", false)]: not an interruption. *)
Definition cancelKind (ctx : context) (err : error) : option ErrorKind :=
  let interrupted := isCanceled err || isDeadline err in
  match interrupted, Err ctx with
  | false, None => None
  | false, Some e => Some (cancelOriginToKind (resolveCancelOrigin ctx e))
  | true, _ => Some (cancelOriginToKind (resolveCancelOrigin ctx err))
  end.

(** The kind of an aborted attempt, and whether anyone is left to serve. *)
Definition abortKind (ctx : context) (err : error) : option (ErrorKind * bool) :=
  match cancelKind ctx err with
  | None => None
  | Some KindClientDisconnect => Some (KindClientDisconnect, true)
  | Some KindHedgeSuperseded => Some (KindHedgeSuperseded, true)
  | Some _ => Some (KindProviderTimeout, false)
  end.

Definition requestAbandoned (ctx : context) (err : error) : bool :=
  match abortKind ctx err with Some (_, abandoned) => abandoned | None => false end.

(** ** The structured error of an attempt *)

Record reqError := MkReqError {
  Kind : option ErrorKind;    (* [None]: the zero value *)
  Attempt : Z;
  Provider : string;
  Model : string;
  Underlying : string;
  Detail : string;
  Hint : string
}.

Definition reqErr_eta (e : reqError) : reqError :=
  MkReqError (Kind e) (Attempt e) (Provider e) (Model e) (Underlying e) (Detail e) (Hint e).
#[export] Instance upd_Underlying : Updater Underlying := ltac:(derive_updater reqErr_eta).

Definition zeroReqError : reqError := MkReqError None 0 "" "" "" "" "".

Definition statusClientClosedRequest : Z := 499.

Definition terminalStatus (e : reqError) : Z :=
  match Kind e with
  | Some KindClientDisconnect => statusClientClosedRequest
  | Some KindFailoverTimeout | Some KindRetryTimeout => 504
  | Some KindValidation => 400
  | _ => 502
  end.

(** ** Rendering *)

Definition hexDigit (n : nat) : Ascii.ascii :=
  Ascii.ascii_of_nat (if (n <? 10)%nat then 48 + n else 87 + n)%nat.

(** The bytes [%q] writes for one byte. *)
Definition quoteByte (a : Ascii.ascii) : string :=
  let n := Ascii.nat_of_ascii a in
  let esc c := String (Ascii.ascii_of_nat 92) (String c EmptyString) in
  let letter k := esc (Ascii.ascii_of_nat k) in
  match n with
  | 7 => letter 97 | 8 => letter 98 | 12 => letter 102 | 10 => letter 110
  | 13 => letter 114 | 9 => letter 116 | 11 => letter 118
  | 34 => esc a | 92 => esc a
  | _ =>
      if (n <? 32)%nat || (n =? 127)%nat
      then letter 120 +:+ String (hexDigit (n / 16)) (String (hexDigit (n mod 16)) EmptyString)
      else String a EmptyString
  end%nat.

Fixpoint quoteBytes (s : string) : string :=
  match s with
  | EmptyString => EmptyString
  | String a s => quoteByte a +:+ quoteBytes s
  end.

Definition dquote : string := String (Ascii.ascii_of_nat 34) EmptyString.
Definition quote (s : string) : string := dquote +:+ quoteBytes s +:+ dquote.

Definition providerLabel (e : reqError) : string :=
  if bool_decide (Provider e = "") then "the provider" else "provider " +:+ quote (Provider e).

Definition withUnderlying (e : reqError) (msg : string) : string :=
  if bool_decide (Underlying e = "") then msg else msg +:+ "; last provider error: " +:+ Underlying e.

Definition render (e : reqError) : string :=
  let n := pretty (Attempt e + 1) in
  let has s := negb (bool_decide (s = "")) in
  match Kind e with
  | Some KindClientDisconnect =>
      if has (Underlying e)
      then "client disconnected while retrying " +:+ providerLabel e +:+ " (attempt " +:+ n
             +:+ "); last provider error: " +:+ Underlying e
      else "client disconnected during attempt " +:+ n +:+ " to " +:+ providerLabel e
  | Some KindProviderTimeout =>
      let base := providerLabel e +:+ " did not return a response in time on attempt " +:+ n in
      withUnderlying e (if has (Hint e) then base +:+ "; " +:+ Hint e else base)
  | Some KindFailoverTimeout =>
      withUnderlying e ("request timed out while waiting on " +:+ providerLabel e +:+ " (attempt " +:+ n +:+ ")")
  | Some KindRetryTimeout =>
      withUnderlying e ("self-heal retry timed out on " +:+ providerLabel e +:+ " (attempt " +:+ n +:+ ")")
  | Some KindInternal =>
      if has (Underlying e) then "internal error on attempt " +:+ n +:+ ": " +:+ Underlying e
      else "internal error on attempt " +:+ n
  | Some KindValidation =>
      if has (Underlying e) then "invalid request: " +:+ Underlying e else "invalid request"
  | Some KindAuth => "authorization failed"
  | Some KindProviderModelGone =>
      withUnderlying e (providerLabel e +:+ " no longer serves this model (attempt " +:+ n +:+ ")")
  | Some KindProviderNotEntitled =>
      withUnderlying e (providerLabel e +:+ " rejected the request for billing or plan reasons on attempt " +:+ n)
  | Some KindProviderSaturated =>
      withUnderlying e (providerLabel e +:+ " is busy (rate limited at capacity) on attempt " +:+ n)
  | Some KindProviderQuotaExhausted =>
      withUnderlying e (providerLabel e +:+ " has spent its usage quota on attempt " +:+ n)
  | Some KindProviderBadRequest =>
      withUnderlying e (providerLabel e +:+ " rejected the request payload on attempt " +:+ n)
  | Some KindHedgeSuperseded =>
      withUnderlying e ("attempt " +:+ n +:+ " to " +:+ providerLabel e
                          +:+ " was superseded by a faster hedged attempt")
  | Some KindProviderError | None =>
      if has (Detail e) then providerLabel e +:+ " returned " +:+ Detail e +:+ " on attempt " +:+ n
      else if has (Underlying e) then providerLabel e +:+ " failed on attempt " +:+ n +:+ ": " +:+ Underlying e
      else providerLabel e +:+ " failed on attempt " +:+ n
  end.

Definition terminalLogMessage (e : reqError) (isFailover : bool) (numCandidates : Z) : string :=
  let last := render e in
  match Kind e with
  | Some KindClientDisconnect | Some KindFailoverTimeout | Some KindRetryTimeout
  | Some KindHedgeSuperseded | Some KindValidation => last
  | Some KindProviderSaturated =>
      if isFailover && (1 <? numCandidates)
      then "all " +:+ pretty numCandidates +:+ " providers busy; last error: " +:+ last else last
  | _ =>
      if isFailover && (1 <? numCandidates)
      then "all " +:+ pretty numCandidates +:+ " providers failed; last error: " +:+ last else last
  end.

Definition terminalClientMessage (e : reqError) (reqModel : string) (isFailover : bool) : string :=
  match Kind e with
  | Some KindClientDisconnect => "client disconnected"
  | Some KindFailoverTimeout | Some KindRetryTimeout => "request timed out for model " +:+ reqModel
  | Some KindHedgeSuperseded => "request superseded for model " +:+ reqModel
  | Some KindProviderSaturated =>
      if isFailover then "all providers busy for model " +:+ reqModel +:+ ", retry shortly"
      else "provider busy for model " +:+ reqModel +:+ ", retry shortly"
  | Some KindValidation =>
      if negb (bool_decide (Underlying e = ""))
      then "invalid request for model " +:+ reqModel +:+ ": " +:+ Underlying e
      else "invalid request for model " +:+ reqModel
  | _ =>
      if isFailover then "all providers failed for model " +:+ reqModel
      else "provider request failed for model " +:+ reqModel
  end.
