(* ===== verification/Verdict.v ===== *)
(** * The terminal verdict (internal/proxy: verdict.go, rate_limit_classify.go,
    failover_exhausted.go)

    Which of a request's failed attempts is the one the client is told about,
    the 429 verdict that stands beside it, and what the exhaustion path answers.
    Masking and fencing of upstream text is another component's and is the
    section variable [fence]. *)

From S2P Require Import Prelude Errors.

(** ** What a 429 established *)

Inductive rateLimitClass := rateLimitUnknown | rateLimitSaturated | rateLimitExhausted.

#[export] Instance rateLimitClass_eq_dec : EqDecision rateLimitClass.
Proof. solve_decision. Defined.

Definition rateLimitClass_String (c : rateLimitClass) : string :=
  match c with
  | rateLimitSaturated => "saturated"
  | rateLimitExhausted => "exhausted"
  | rateLimitUnknown => "unknown"
  end.

Record rateLimitVerdict := MkVerdict {
  classified : bool;
  class : rateLimitClass;
  phrase : string;
  detail : string;
  retryAfter : Duration;
  pinHint : Duration;
  entitled : bool;
  account : bool
}.

Definition verdict_eta (v : rateLimitVerdict) : rateLimitVerdict :=
  MkVerdict (classified v) (class v) (phrase v) (detail v) (retryAfter v) (pinHint v) (entitled v) (account v).
#[export] Instance upd_classified : Updater classified := ltac:(derive_updater verdict_eta).
#[export] Instance upd_detail : Updater detail := ltac:(derive_updater verdict_eta).

Definition zeroVerdict : rateLimitVerdict := MkVerdict false rateLimitUnknown "" "" 0 0 false false.

Definition errorKind (v : rateLimitVerdict) : option ErrorKind :=
  match class v with
  | rateLimitSaturated => Some KindProviderSaturated
  | rateLimitExhausted => Some (if entitled v then KindProviderNotEntitled else KindProviderQuotaExhausted)
  | rateLimitUnknown => None
  end.

Definition defaultSaturationMaxWait : Duration := 60 * Second.
Definition defaultSaturatedRetryAfter : Duration := 2 * Second.

Definition rateLimitClientReason (c : rateLimitClass) : string :=
  if decide (c = rateLimitExhausted)
  then "the provider's usage quota is exhausted; retry after it resets"
  else "the provider is at capacity; retry shortly".

(** [rateLimitTerminalKind] on a classified kind and the reason beside it. *)
Definition rateLimitTerminalKind (kind : option ErrorKind) (reason : string) (status : Z) (v : rateLimitVerdict) :
    option ErrorKind * string :=
  if negb (status =? 429) || negb (bool_decide (kind = Some KindProviderError)) then (kind, reason)
  else match errorKind v with
       | Some k => (Some k, rateLimitClientReason (class v))
       | None => (kind, reason)
       end.

Definition rateLimitReqErr (v : rateLimitVerdict) (attempt : Z) (providerName : string) : reqError :=
  MkReqError (errorKind v) attempt providerName "" ""
    ("HTTP 429 (" +:+ rateLimitClass_String (class v) +:+ ")") "".

Definition failoverReqErr (rl : rateLimitVerdict) (attempt : Z) (providerName : string) (status : Z) : reqError :=
  if (status =? 429) && negb (bool_decide (class rl = rateLimitUnknown))
  then rateLimitReqErr rl attempt providerName
  else MkReqError (Some KindProviderError) attempt providerName "" "" ("HTTP " +:+ pretty status) "".

(** ** The verdict so far *)

Definition busySkipDetail : string := "at in-flight limit".

Definition isRoutedFailure (e : reqError) : bool :=
  match Kind e with
  | Some KindProviderError | Some KindProviderTimeout | Some KindProviderModelGone
  | Some KindProviderNotEntitled | Some KindProviderBadRequest | Some KindProviderQuotaExhausted
  | Some KindRetryTimeout | Some KindFailoverTimeout => true
  | Some KindProviderSaturated => negb (bool_decide (Detail e = busySkipDetail))
  | _ => false
  end.

(** The fields of [requestState] the verdict lives in. *)
Record verdictState := MkVerdictState {
  lastErr : string;
  lastReqErr : reqError;
  terminalRateLimit : rateLimitVerdict;
  routedFailure : reqError;
  routedFailureRateLimit : rateLimitVerdict
}.

Definition freshVerdict : verdictState :=
  MkVerdictState "" zeroReqError zeroVerdict zeroReqError zeroVerdict.

(** What a refusal does not displace: another candidate's own failure. *)
Definition refusalYields (prev e : reqError) : bool :=
  match Kind prev with
  | None | Some KindValidation | Some KindInternal => false
  | Some _ => negb (bool_decide (Provider prev = Provider e)) || negb (bool_decide (Model prev = Model e))
  end.

Section Verdict.
Context (fence : string → string).

Definition recordReqErr (st : verdictState) (rl : rateLimitVerdict) (e : reqError) : verdictState :=
  let e := e ⟦ Underlying := fence (Underlying e) ⟧ in
  if isRoutedFailure e then MkVerdictState (render e) e rl e rl
  else MkVerdictState (render e) e rl (routedFailure st) (routedFailureRateLimit st).

(** [rl] is the request's [st.rateLimit] at the call. *)
Definition setReqErr (st : verdictState) (rl : rateLimitVerdict) (e : reqError) : verdictState :=
  if bool_decide (Kind e = Some KindValidation) then
    if refusalYields (lastReqErr st) e then st
    else if negb (bool_decide (Kind (routedFailure st) = None)) then
      MkVerdictState (render (routedFailure st)) (routedFailure st) (routedFailureRateLimit st)
        (routedFailure st) (routedFailureRateLimit st)
    else recordReqErr st rl e
  else recordReqErr st rl e.

(** A request's failures in the order they were recorded. *)
Definition verdictOf (log : list (reqError * rateLimitVerdict)) : verdictState :=
  foldl (fun st er => setReqErr st er.2 er.1) freshVerdict log.
End Verdict.

(** ** What the exhaustion path answers *)

Definition retryAfterSeconds (d : Duration) : Z :=
  let d := if d <=? 0 then defaultSaturatedRetryAfter else d in
  Z.quot (wrap64 (wrap64 (d + Second) - 1)) Second.

Record terminalAnswer := MkAnswer {
  answer_status : Z;
  answer_kind : option ErrorKind;
  answer_log : string;
  answer_client : string;
  answer_retry : option Z       (* the Retry-After header *)
}.

Definition failAllExhausted (st : verdictState) (reqModel : string) (isFailover : bool) (numCandidates : Z)
    (status429 : bool) : terminalAnswer :=
  let last := lastReqErr st in
  let busy := bool_decide (Kind last = Some KindProviderSaturated) && status429 in
  MkAnswer (if busy then 429 else terminalStatus last) (Kind last)
    (terminalLogMessage last isFailover numCandidates)
    (terminalClientMessage last reqModel isFailover)
    (if busy then Some (retryAfterSeconds (retryAfter (terminalRateLimit st))) else None).

(** The exhaustion metric's label. *)
Definition exhaustedReason (last : reqError) : string :=
  match Kind last with
  | Some KindProviderSaturated => "all_busy"
  | Some KindValidation => "invalid_request"
  | _ => "all_failed"
  end.

(** ** Specification *)

(** A record of the log as [setReqErr] keeps it. *)
Definition fenced (fence : string → string) (er : reqError * rateLimitVerdict) : reqError * rateLimitVerdict :=
  (er.1 ⟦ Underlying := fence (Underlying er.1) ⟧, er.2).

Definition isRefusal (e : reqError) : bool := bool_decide (Kind e = Some KindValidation).

(** The last routed failure of a log. *)
Definition lastRouted (log : list (reqError * rateLimitVerdict)) : option (reqError * rateLimitVerdict) :=
  last (filter (fun er => isRoutedFailure er.1 = true) log).

(** What every verdict satisfies, against the log that produced it. *)
Record verdict_ok (fence : string → string) (log : list (reqError * rateLimitVerdict)) (st : verdictState) : Prop := {
  ok_fresh : log = [] → Kind (lastReqErr st) = None;
  ok_rendered : log ≠ [] → lastErr st = render (lastReqErr st);
  ok_paired : log ≠ [] → (lastReqErr st, terminalRateLimit st) ∈ (fenced fence <$> log);
  ok_routed : (routedFailure st, routedFailureRateLimit st) =
                default (zeroReqError, zeroVerdict) (fenced fence <$> lastRouted log);
  ok_refused : Kind (lastReqErr st) = Some KindValidation → lastRouted log = None
}.

(** ** Lemmas *)

Lemma isRoutedFailure_fenced fence er : isRoutedFailure (fenced fence er).1 = isRoutedFailure er.1.
Proof. done. Qed.

Lemma lastRouted_snoc log er :
  lastRouted (log ++ [er]) = if isRoutedFailure er.1 then Some er else lastRouted log.
Proof.
  unfold lastRouted. rewrite filter_app, filter_cons, filter_nil.
  case_decide as H; [by rewrite H, last_snoc|].
  rewrite app_nil_r. by destruct (isRoutedFailure er.1).
Qed.

Lemma routed_kind e : isRoutedFailure e = true → Kind e ≠ None ∧ Kind e ≠ Some KindValidation.
Proof. unfold isRoutedFailure. destruct (Kind e) as [[]|]; done. Qed.

Lemma lastRouted_routed log er : lastRouted log = Some er → isRoutedFailure er.1 = true ∧ er ∈ log.
Proof.
  unfold lastRouted. intros H%last_Some_elem_of. by rewrite list_elem_of_filter in H.
Qed.

Section Ok.
Context (fence : string → string).

Lemma freshVerdict_ok : verdict_ok fence [] freshVerdict.
Proof. by split. Qed.

Lemma recordReqErr_ok log st e rl :
  verdict_ok fence log st → (Kind e = Some KindValidation → lastRouted log = None) →
  verdict_ok fence (log ++ [(e, rl)]) (recordReqErr fence st rl e).
Proof.
  intros [_ _ _ Hr _] Hv. unfold recordReqErr. change (isRoutedFailure (e ⟦ Underlying := _ ⟧)) with (isRoutedFailure e).
  destruct (isRoutedFailure e) eqn:He; split; simpl; try done; try (by destruct log);
    rewrite ?lastRouted_snoc; simpl; rewrite ?He; try done.
  - intros _. rewrite fmap_app. apply elem_of_app. right. by apply list_elem_of_singleton.
  - intros Hk. destruct (routed_kind _ He). simpl in *. congruence.
  - intros _. rewrite fmap_app. apply elem_of_app. right. by apply list_elem_of_singleton.
Qed.

Lemma setReqErr_ok log st e rl :
  verdict_ok fence log st → verdict_ok fence (log ++ [(e, rl)]) (setReqErr fence st rl e).
Proof.
  intros Hst. pose proof Hst as [H0 H1 H2 Hr H4]. unfold setReqErr.
  case_bool_decide as Hk; [|by apply recordReqErr_ok].
  assert (isRoutedFailure e = false) as He by (unfold isRoutedFailure; by rewrite Hk).
  assert (lastRouted (log ++ [(e, rl)]) = lastRouted log) as Hlast by (by rewrite lastRouted_snoc; simpl; rewrite He).
  destruct (refusalYields (lastReqErr st) e) eqn:Hy.
  - assert (log ≠ []) as Hne.
    { intros Hl. unfold refusalYields in Hy. by rewrite (H0 Hl) in Hy. }
    split; rewrite ?Hlast; auto; [by destruct log|]. intros _. rewrite fmap_app. apply elem_of_app. left. auto.
  - case_bool_decide as Hn; simpl.
    + apply recordReqErr_ok; [done|]. intros _. destruct (lastRouted log) as [er|] eqn:Hl; [|done].
      simpl in Hr. injection Hr as Hr _. destruct (lastRouted_routed _ _ Hl) as [Hro _].
      destruct (routed_kind _ Hro) as [Hkn _]. rewrite Hr in Hn. done.
    + destruct (lastRouted log) as [er|] eqn:Hl; simpl in Hr; [|injection Hr as Hr _; by rewrite Hr in Hn].
      destruct (lastRouted_routed _ _ Hl) as [Hro Hin]. injection Hr as Hr1 Hr2.
      split; simpl; rewrite ?Hlast; simpl.
      * by destruct log.
      * done.
      * intros _. rewrite fmap_app. apply elem_of_app. left. rewrite Hr1, Hr2.
        apply list_elem_of_fmap. by exists er.
      * by rewrite Hr1, Hr2.
      * rewrite Hr1. simpl. intros Hkv. by destruct (routed_kind _ Hro).
Qed.

Lemma verdictOf_snoc log e rl : verdictOf fence (log ++ [(e, rl)]) = setReqErr fence (verdictOf fence log) rl e.
Proof. unfold verdictOf. by rewrite foldl_snoc. Qed.

Lemma verdictOf_ok log : verdict_ok fence log (verdictOf fence log).
Proof.
  induction log as [|[e rl] log IH] using rev_ind; [apply freshVerdict_ok|].
  rewrite verdictOf_snoc. by apply setReqErr_ok.
Qed.

Lemma setReqErr_kind st rl e :
  Kind e ≠ Some KindValidation → setReqErr fence st rl e = recordReqErr fence st rl e.
Proof. intros H. unfold setReqErr. by rewrite bool_decide_false. Qed.

Lemma recordReqErr_last st rl e :
  lastReqErr (recordReqErr fence st rl e) = e ⟦ Underlying := fence (Underlying e) ⟧.
Proof. unfold recordReqErr. by case_match. Qed.
End Ok.

Lemma terminalStatus_400 e : terminalStatus e = 400 → Kind e = Some KindValidation.
Proof. unfold terminalStatus, statusClientClosedRequest. destruct (Kind e) as [[]|]; done. Qed.

Lemma lastRouted_None log er : lastRouted log = None → er ∈ log → isRoutedFailure er.1 = false.
Proof.
  unfold lastRouted. intros Hl%last_None Hin. apply not_true_is_false. intros Hr.
  assert (er ∈ filter (fun er => isRoutedFailure er.1 = true) log) as H by (by apply list_elem_of_filter).
  rewrite Hl in H. by apply elem_of_nil in H.
Qed.

(** ** Properties *)


(** An exhausted request is answered by what its verdict says: a client
    that left is a 499, a spent deadline a 504, a refused body a 400, a provider
    at capacity a 429 while the setting is on, and anything else a 502. Only
    the 429 carries a Retry-After, never zero: the provider's own wait, or two
    seconds, in whole seconds rounded up. *)
Lemma exhausted_answer st reqModel isFailover n status429 :
  retryAfter (terminalRateLimit st) ≤ int64_max - Second →
  let a := failAllExhausted st reqModel isFailover n status429 in
  let wait := retryAfter (terminalRateLimit st) in
  let asked := if 0 <? wait then wait else 2 * Second in
  answer_kind a = Kind (lastReqErr st) ∧
  answer_status a ∈ [499; 504; 400; 502; 429] ∧
  (answer_status a = 429 ↔ Kind (lastReqErr st) = Some KindProviderSaturated ∧ status429 = true) ∧
  match answer_retry a with
  | Some s => answer_status a = 429 ∧ 1 ≤ s ∧ (s - 1) * Second < asked ≤ s * Second
  | None => answer_status a ≠ 429
  end.
Proof.
  intros Hmax a wait asked. unfold a, failAllExhausted, terminalStatus, statusClientClosedRequest.
  split; [done|]. split; [destruct (Kind (lastReqErr st)) as [[]|], status429; cbn; set_solver|].
  destruct (bool_decide (Kind (lastReqErr st) = Some KindProviderSaturated)) eqn:Hk.
  - apply bool_decide_eq_true in Hk. rewrite Hk. destruct status429; simpl; [|split; [split; [done|by intros []]|done]].
    split; [done|]. split; [done|]. fold wait. unfold retryAfterSeconds, defaultSaturatedRetryAfter.
    fold wait in Hmax. unfold asked. replace (wait <=? 0) with (negb (0 <? wait)) by (destruct (Z.ltb_spec 0 wait), (Z.leb_spec wait 0); done || lia).
    destruct (Z.ltb_spec 0 wait) as [Hw|Hw]; cbn [negb]; unfold int64_max, Second in *;
      rewrite !wrap64_id by (unfold in_int64, int64_min, int64_max; try rewrite wrap64_id by (unfold in_int64, int64_min, int64_max; lia); lia).
    + rewrite Z.quot_div_nonneg by lia. pose proof (Z.div_mod (wait + 1000000000 - 1) 1000000000 ltac:(lia)).
      pose proof (Z.mod_pos_bound (wait + 1000000000 - 1) 1000000000 ltac:(lia)).
      split; [|lia]. apply Z.div_le_lower_bound; lia.
    + vm_compute. repeat split; congruence.
  - apply bool_decide_eq_false in Hk. simpl. split; [|destruct (Kind (lastReqErr st)) as [[]|]; simpl; congruence].
    destruct (Kind (lastReqErr st)) as [[]|]; simpl; split; try done; naive_solver.
Qed.

Lemma exhausted_answer_witness :
  let busy := MkReqError (Some KindProviderSaturated) 0 "prov" "m" "" busySkipDetail "" in
  let st := setReqErr (fun s => s) freshVerdict
              (MkVerdict false rateLimitSaturated "" "" (1500 * 1000000) 0 false false) busy in
  let a := failAllExhausted st "hotel/m" true 2 true in
  answer_status a = 429 ∧ answer_retry a = Some 2.
Proof.
  intros busy st a.
  destruct (exhausted_answer st "hotel/m" true 2 true) as (_ & _ & [_ H] & _); [evaluate|].
  split; [apply H; done|reflexivity].
Defined.
