(* ===== verification/Inflight.v ===== *)
(** * The adaptive in-flight limiter (internal/proxy/inflight.go)

    The per-provider window learned from saturation, the once-only slot an
    attempt holds, the body wrapper that settles it, and the wait for a free
    slot. A limiter method is one critical section; a nil limiter is [None].
    The notification channel, closed and replaced on every release, is a
    generation number: the channel snapshotted at generation [g] is closed once
    the limiter has moved past [g]. *)

From S2P Require Import Prelude Errors Verdict.

Definition defaultInflightGrowAfter : Z := 20.
Definition defaultInflightForgetAfter : Duration := 10 * Minute.

(** ** Windows *)

Record inflightWindow := MkWindow {
  limit : Z;
  inflight : Z;
  goodRuns : Z;
  lastCut : Time
}.

Definition window_eta (w : inflightWindow) : inflightWindow :=
  MkWindow (limit w) (inflight w) (goodRuns w) (lastCut w).
#[export] Instance upd_limit : Updater limit := ltac:(derive_updater window_eta).
#[export] Instance upd_inflight : Updater inflight := ltac:(derive_updater window_eta).
#[export] Instance upd_goodRuns : Updater goodRuns := ltac:(derive_updater window_eta).
#[export] Instance upd_lastCut : Updater lastCut := ltac:(derive_updater window_eta).

Definition newWindow : inflightWindow := MkWindow 0 0 0 zeroTime.

Record inflightLimiter := MkLimiter {
  windows : gmap string inflightWindow;
  notify : nat
}.

Definition newInflightLimiter : inflightLimiter := MkLimiter ∅ 0.

Definition window (l : inflightLimiter) (id : string) : inflightWindow :=
  default newWindow (windows l !! id).

(** A write through the window's pointer; [window] files a fresh one first. *)
Definition putWindow (l : inflightLimiter) (id : string) (w : inflightWindow) : inflightLimiter :=
  MkLimiter (<[id := w]> (windows l)) (notify l).

(** Every method: a nil receiver answers [d]; otherwise [f] runs under the lock. *)
Definition locked {A} (l : option inflightLimiter) (d : A) (f : inflightLimiter → inflightLimiter * A) :
    option inflightLimiter * A :=
  match l with
  | None => (None, d)
  | Some l => let '(l, a) := f l in (Some l, a)
  end.

Definition effectiveLimit (learned ceiling : Z) : Z :=
  if ceiling <=? 0 then learned
  else if (learned <=? 0) || (ceiling <? learned) then ceiling
  else learned.

(** [full] is the refusal test of [tryAcquire]. *)
Definition full (w : inflightWindow) (ceiling : Z) : bool :=
  let lim := effectiveLimit (limit w) ceiling in (0 <? lim) && (lim <=? inflight w).

Definition tryAcquire (l : option inflightLimiter) (id : string) (ceiling : Z) :
    option inflightLimiter * bool :=
  locked l true (fun l =>
    let w := window l id in
    if full w ceiling then (putWindow l id w, false)
    else (putWindow l id (w ⟦ inflight := inflight w + 1 ⟧), true)).

Definition canAdmit (l : option inflightLimiter) (id : string) (ceiling : Z) :
    option inflightLimiter * bool :=
  locked l true (fun l =>
    let w := window l id in
    let lim := effectiveLimit (limit w) ceiling in
    (putWindow l id w, (lim <=? 0) || (inflight w <? lim))).

(** ** Settlement *)

Inductive slotOutcome := slotUnclean | slotClean | slotNeutral.

#[export] Instance slotOutcome_eq_dec : EqDecision slotOutcome.
Proof. solve_decision. Defined.

Definition slotOutcomeFor (kind : ErrorKind) : slotOutcome :=
  match kind with
  | KindClientDisconnect | KindHedgeSuperseded | KindInternal | KindValidation => slotNeutral
  | _ => slotUnclean
  end.

(** What a release does to the window of its provider. *)
Definition releaseW (now : Time) (o : slotOutcome) (growAfter : Z) (forgetAfter : Duration)
    (w : inflightWindow) : inflightWindow :=
  let growAfter := if growAfter <=? 0 then defaultInflightGrowAfter else growAfter in
  let forgetAfter := if forgetAfter <=? 0 then defaultInflightForgetAfter else forgetAfter in
  let w := if 0 <? inflight w then w ⟦ inflight := inflight w - 1 ⟧ else w in
  if 0 <? limit w then
    if forgetAfter <=? Sub now (lastCut w) then w ⟦ limit := 0 ⟧ ⟦ goodRuns := 0 ⟧
    else
      match o with
      | slotClean =>
          let w := w ⟦ goodRuns := goodRuns w + 1 ⟧ in
          if growAfter <=? goodRuns w then w ⟦ limit := limit w + 1 ⟧ ⟦ goodRuns := 0 ⟧ else w
      | slotUnclean => w ⟦ goodRuns := 0 ⟧
      | slotNeutral => w
      end
  else w.

Definition release (l : option inflightLimiter) (now : Time) (id : string) (outcome : slotOutcome)
    (growAfter : Z) (forgetAfter : Duration) : option inflightLimiter :=
  (locked l tt (fun l =>
    (MkLimiter (<[id := releaseW now outcome growAfter forgetAfter (window l id)]> (windows l))
       (S (notify l)), tt))).1.

(** What a cut does to the window of its provider. *)
Definition cutW (now : Time) (retryAfter : Duration) (w : inflightWindow) : inflightWindow :=
  let newLimit := Z.max 1 (inflight w) in
  let w := if (limit w =? 0) || (newLimit <? limit w) then w ⟦ limit := newLimit ⟧ else w in
  let w := w ⟦ goodRuns := 0 ⟧ ⟦ lastCut := now ⟧ in
  if 0 <? retryAfter then w ⟦ lastCut := Add (lastCut w) retryAfter ⟧ else w.

Definition cut (l : option inflightLimiter) (now : Time) (id : string) (retryAfter : Duration) :
    option inflightLimiter :=
  (locked l tt (fun l => (putWindow l id (cutW now retryAfter (window l id)), tt))).1.

(** What a "remaining: 0" hint does to the window of its provider. *)
Definition hintW (now : Time) (w : inflightWindow) : inflightWindow :=
  let newLimit := Z.max 1 (inflight w) in
  if (limit w =? 0) || (newLimit <? limit w)
  then w ⟦ limit := newLimit ⟧ ⟦ goodRuns := 0 ⟧ ⟦ lastCut := now ⟧ else w.

Definition hintFull (l : option inflightLimiter) (now : Time) (id : string) : option inflightLimiter :=
  (locked l tt (fun l => (putWindow l id (hintW now (window l id)), tt))).1.

(** One row per provider tracked: id, limit, in flight. *)
Definition snapshot (l : option inflightLimiter) : list (string * Z * Z) :=
  match l with
  | None => []
  | Some l => (fun iw => (iw.1, limit iw.2, inflight iw.2)) <$> map_to_list (windows l)
  end.

(** The provider's rate-limit headers say a budget is exactly spent; [get] is
    [Header.Get] of the response. *)
Definition remainingBudgetZero (get : string → string) : bool :=
  existsb (fun key => bool_decide (get key = "0"))
    ["X-RateLimit-Remaining-Requests"; "X-RateLimit-Remaining-Tokens"; "X-RateLimit-Remaining";
     "anthropic-ratelimit-requests-remaining"; "anthropic-ratelimit-tokens-remaining";
     "anthropic-ratelimit-input-tokens-remaining"; "anthropic-ratelimit-output-tokens-remaining"].

Definition servedSuccessStatus (statusCode : Z) : bool := (200 <=? statusCode) && (statusCode <=? 299).

(** ** Slots and bodies

    A slot is named by a number; the handler's view of the world is the limiter,
    the slots handed out and the body wrapper attached to each, if any. *)

Record attemptSlot := MkSlot {
  slot_provider : string;
  fired : bool;        (* once.Do has run *)
  held : bool
}.

Record inflightRelease := MkBody { clean : bool; onEOF : bool }.

Record world := MkWorld {
  limiter : option inflightLimiter;
  slots : list attemptSlot;
  bodies : gmap nat inflightRelease
}.

Definition outcome (b : inflightRelease) : slotOutcome := if clean b then slotClean else slotUnclean.

(** What settling reads at settle time. *)
Record settings := MkSettings { at_ : Time; inflight_grow_after : Z; inflight_forget_after : Duration }.

(** [settle] on slot [k]: the first one releases, a later one is a no-op. *)
Definition settle (x : settings) (wd : world) (k : nat) (o : slotOutcome) : world :=
  match slots wd !! k with
  | None => wd
  | Some s =>
      if fired s then wd else
      MkWorld (release (limiter wd) (at_ x) (slot_provider s) o (inflight_grow_after x) (inflight_forget_after x))
        (<[k := MkSlot (slot_provider s) true (held s)]> (slots wd)) (bodies wd)
  end.

Definition holdVerdict (wd : world) (k : nat) : world :=
  match slots wd !! k with
  | None => wd
  | Some s => MkWorld (limiter wd) (<[k := MkSlot (slot_provider s) (fired s) true]> (slots wd)) (bodies wd)
  end.

Definition verdictHeld (wd : world) (k : nat) : bool :=
  match slots wd !! k with None => false | Some s => held s end.

Definition holdSlotForVerdict (wd : world) (k : nat) : world :=
  match bodies wd !! k with
  | None => wd
  | Some b => MkWorld (limiter wd) (slots wd) (<[k := MkBody (clean b) false]> (bodies wd))
  end.

(** [Read] and [Close] of the wrapped body; [eof] is what the inner read said. *)
Definition Read (x : settings) (wd : world) (k : nat) (eof : bool) : world :=
  match bodies wd !! k with
  | None => wd
  | Some b => if eof && onEOF b && negb (verdictHeld wd k) then settle x wd k (outcome b) else wd
  end.

Definition Close (x : settings) (wd : world) (k : nat) : world :=
  match bodies wd !! k with
  | None => wd
  | Some b => if negb (verdictHeld wd k) then settle x wd k (outcome b) else wd
  end.

(** The admission gate: the slot now held, if any, and whether to go on. *)
Definition admitCandidate (inflightEnabled : bool) (wd : world) (id : string) (ceiling : Z) :
    world * option nat * bool :=
  if negb inflightEnabled then (wd, None, true) else
  let '(l, ok) := tryAcquire (limiter wd) id ceiling in
  if negb ok then (MkWorld l (slots wd) (bodies wd), None, false)
  else (MkWorld l (slots wd ++ [MkSlot id false false]) (bodies wd), Some (length (slots wd)), true).

Definition finishAttemptAdmission (now : Time) (wd : world) (slot : option nat) (id : string)
    (get : string → string) (statusCode : Z) : world :=
  match slot with
  | None => wd
  | Some k =>
      let l := if remainingBudgetZero get then hintFull (limiter wd) now id else limiter wd in
      MkWorld l (slots wd) (<[k := MkBody (servedSuccessStatus statusCode) true]> (bodies wd))
  end.

Definition providerCeiling (maxInFlight : option Z) : Z := default 0 maxInFlight.

(** ** Interleavings *)

(** Every way a goroutine touches the slots, in any order and any number of
    times. *)
Inductive event :=
| EAdmit (enabled : bool) (id : string) (ceiling : Z)
| EHeaders (k : nat) (id : string) (get : string → string) (statusCode : Z)
| EHoldSlot (k : nat)
| EHoldVerdict (k : nat)
| ERead (k : nat) (eof : bool)
| EClose (k : nat)
| ESettle (k : nat) (o : slotOutcome)
| ECut (id : string) (retryAfter : Duration).

Definition happen (x : settings) (wd : world) (ev : event) : world :=
  match ev with
  | EAdmit enabled id ceiling => (admitCandidate enabled wd id ceiling).1.1
  | EHeaders k id get statusCode => finishAttemptAdmission (at_ x) wd (Some k) id get statusCode
  | EHoldSlot k => holdSlotForVerdict wd k
  | EHoldVerdict k => holdVerdict wd k
  | ERead k eof => Read x wd k eof
  | EClose k => Close x wd k
  | ESettle k o => settle x wd k o
  | ECut id retryAfter => MkWorld (cut (limiter wd) (at_ x) id retryAfter) (slots wd) (bodies wd)
  end.

Definition start : world := MkWorld (Some newInflightLimiter) [] ∅.

Inductive reachable : world → Prop :=
| reach_start : reachable start
| reach_step x wd ev : reachable wd → reachable (happen x wd ev).

(** Slots of a provider handed out and not yet settled. *)
Definition outstanding (wd : world) (id : string) : Z :=
  Z.of_nat (length (filter (fun s => slot_provider s = id ∧ fired s = false) (slots wd))).

(** ** Waiting for a slot

    [waitForSlot] against everything else the limiter is put through. [admits] is
    the caller's check: some busy candidate has room. *)

Inductive waiter :=
| WLoop                    (* top of the loop *)
| WChecking (g : nat)      (* the channel of generation [g] is snapshotted *)
| WBlocked (g : nat)       (* in the select on that channel *)
| WDone (ok : bool).

Definition admits (l : option inflightLimiter) (busy : list (string * Z)) : bool :=
  existsb (fun ic => (canAdmit l ic.1 ic.2).2) busy.

Inductive limiter_op : option inflightLimiter → option inflightLimiter → Prop :=
| op_tryAcquire l id ceiling : limiter_op l (tryAcquire l id ceiling).1
| op_canAdmit l id ceiling : limiter_op l (canAdmit l id ceiling).1
| op_release l now id o g f : limiter_op l (release l now id o g f)
| op_cut l now id ra : limiter_op l (cut l now id ra)
| op_hintFull l now id : limiter_op l (hintFull l now id).

Inductive wait_step (busy : list (string * Z)) :
    inflightLimiter * waiter → inflightLimiter * waiter → Prop :=
| wait_other l l' pc : limiter_op (Some l) (Some l') → wait_step busy (l, pc) (l', pc)
| wait_snapshot l : wait_step busy (l, WLoop) (l, WChecking (notify l))
| wait_admitted l g : admits (Some l) busy = true → wait_step busy (l, WChecking g) (l, WDone true)
| wait_block l g : admits (Some l) busy = false → wait_step busy (l, WChecking g) (l, WBlocked g)
| wait_wake l g : (g < notify l)%nat → wait_step busy (l, WBlocked g) (l, WLoop)
| wait_give_up l g : wait_step busy (l, WBlocked g) (l, WDone false).

(** ** Invariants *)

(** What every learned window satisfies. *)
Record window_ok (w : inflightWindow) : Prop := {
  window_limit : 0 ≤ limit w;
  window_inflight : 0 ≤ inflight w;
  window_runs : 0 ≤ goodRuns w;
  window_uncapped : limit w = 0 → goodRuns w = 0
}.


(** The limiter's counts are the slots out. *)
Definition conserved (wd : world) : Prop :=
  ∃ l, limiter wd = Some l ∧
    ∀ id, window_ok (window l id) ∧ inflight (window l id) = outstanding wd id.

(** A waiter asleep on an open channel has nothing to wake up for. *)
Definition wait_ok (busy : list (string * Z)) (st : inflightLimiter * waiter) : Prop :=
  (∀ id, window_ok (window st.1 id)) ∧
  match st.2 with
  | WChecking g => (g ≤ notify st.1)%nat
  | WBlocked g => (g ≤ notify st.1)%nat ∧ (g = notify st.1 → admits (Some st.1) busy = false)
  | WLoop | WDone _ => True
  end.

(** Two attempts of one provider, one of them read to its end twice over. *)
Definition twoAttempts : world :=
  let x := MkSettings Hour 20 Minute in
  foldl (happen x) start
    [EAdmit true "p" 0; EAdmit true "p" 0; EHeaders 0 "p" (fun _ => "") 200;
     ERead 0 true; EClose 0; ESettle 0 slotUnclean].


(** ** Lemmas: windows *)

Lemma window_put l id w id' : window (putWindow l id w) id' = if decide (id = id') then w else window l id'.
Proof. unfold window, putWindow. simpl. by rewrite lookup_insert; case_decide. Qed.

Lemma window_set ws g id w id' :
  window (MkLimiter (<[id := w]> ws) g) id' = if decide (id = id') then w else window (MkLimiter ws g) id'.
Proof. apply (window_put (MkLimiter ws g)). Qed.

(** The count of list entries satisfying [P], across a write. *)
Lemma count_insert {A} (P : A → Prop) `{∀ x, Decision (P x)} (l : list A) k x y :
  l !! k = Some x →
  Z.of_nat (length (filter P (<[k := y]> l))) =
    Z.of_nat (length (filter P l)) - (if decide (P x) then 1 else 0) + (if decide (P y) then 1 else 0).
Proof.
  revert k. induction l as [|z l IH]; intros k Hk; [done|]. destruct k as [|k]; simpl in *.
  - injection Hk as ->. rewrite !filter_cons. repeat case_decide; simpl; lia.
  - rewrite !filter_cons. specialize (IH k Hk). repeat case_decide; simpl; lia.
Qed.

Lemma newWindow_ok : window_ok newWindow.
Proof. by split. Qed.

Lemma tryAcquire_window l id ceiling :
  ∃ l', tryAcquire (Some l) id ceiling = (Some l', negb (full (window l id) ceiling)) ∧
    notify l' = notify l ∧
    ∀ id', window l' id' =
      if decide (id = id')
      then if full (window l id) ceiling then window l id
           else (window l id) ⟦ inflight := inflight (window l id) + 1 ⟧
      else window l id'.
Proof.
  unfold tryAcquire, locked. cbv zeta.
  destruct (full _ _); eexists; (split; [reflexivity|]); (split; [done|]); intros id'; apply window_put.
Qed.

Lemma canAdmit_window l id ceiling :
  ∃ l', canAdmit (Some l) id ceiling = (Some l', (effectiveLimit (limit (window l id)) ceiling <=? 0)
      || (inflight (window l id) <? effectiveLimit (limit (window l id)) ceiling)) ∧
    notify l' = notify l ∧ ∀ id', window l' id' = window l id'.
Proof.
  unfold canAdmit, locked. eexists. split; [reflexivity|]. split; [done|].
  intros id'. rewrite window_put. by case_decide; subst.
Qed.

Lemma release_window l now id o g f :
  ∃ l', release (Some l) now id o g f = Some l' ∧ notify l' = S (notify l) ∧
    ∀ id', window l' id' = if decide (id = id') then releaseW now o g f (window l id) else window l id'.
Proof. unfold release, locked. eexists. split; [reflexivity|]. split; [done|]. intros id'. apply window_set. Qed.

Lemma cut_window l now id ra :
  ∃ l', cut (Some l) now id ra = Some l' ∧ notify l' = notify l ∧
    ∀ id', window l' id' = if decide (id = id') then cutW now ra (window l id) else window l id'.
Proof. unfold cut, locked. eexists. split; [reflexivity|]. split; [done|]. intros id'. apply window_put. Qed.

Lemma hintFull_window l now id :
  ∃ l', hintFull (Some l) now id = Some l' ∧ notify l' = notify l ∧
    ∀ id', window l' id' = if decide (id = id') then hintW now (window l id) else window l id'.
Proof. unfold hintFull, locked. eexists. split; [reflexivity|]. split; [done|]. intros id'. apply window_put. Qed.

(** The three window methods that learn keep the window well-formed and say
    what they do to the count in flight. *)
Lemma releaseW_spec now o g f w :
  window_ok w →
  window_ok (releaseW now o g f w) ∧ inflight (releaseW now o g f w) = Z.max 0 (inflight w - 1).
Proof.
  intros [H1 H2 H3 H4]. unfold releaseW. cbv zeta.
  set (w1 := if 0 <? inflight w then _ else w).
  assert (limit w1 = limit w ∧ goodRuns w1 = goodRuns w ∧ inflight w1 = Z.max 0 (inflight w - 1)) as (Hl & Hg & Hi).
  { unfold w1. destruct (Z.ltb_spec 0 (inflight w)); simpl; lia. }
  destruct (Z.ltb_spec 0 (limit w1)); [|split; [split|]; lia].
  destruct (_ <=? Sub _ _); [split; [split|]; simpl; lia|].
  destruct o; [split; [split|]; simpl; lia| |split; [split|]; lia].
  destruct (_ <=? goodRuns _); (split; [split|]); simpl; lia.
Qed.

Lemma cutW_spec now ra w :
  window_ok w →
  window_ok (cutW now ra w) ∧ inflight (cutW now ra w) = inflight w ∧ goodRuns (cutW now ra w) = 0 ∧
  limit (cutW now ra w) = (if limit w =? 0 then Z.max 1 (inflight w) else Z.min (limit w) (Z.max 1 (inflight w))).
Proof.
  intros [H1 H2 H3 H4]. unfold cutW. cbv zeta.
  destruct (Z.eqb_spec (limit w) 0); [|destruct (Z.ltb_spec (Z.max 1 (inflight w)) (limit w))];
    simpl; destruct (0 <? ra); simpl; (split; [split|]); simpl; lia.
Qed.

Lemma hintW_spec now w :
  window_ok w →
  window_ok (hintW now w) ∧ inflight (hintW now w) = inflight w ∧
  limit (hintW now w) = (if limit w =? 0 then Z.max 1 (inflight w) else Z.min (limit w) (Z.max 1 (inflight w))).
Proof.
  intros [H1 H2 H3 H4]. unfold hintW. cbv zeta.
  destruct (Z.eqb_spec (limit w) 0); [|destruct (Z.ltb_spec (Z.max 1 (inflight w)) (limit w))];
    simpl; (split; [split|]); simpl; lia.
Qed.

Lemma acquired_ok w : window_ok w → window_ok (w ⟦ inflight := inflight w + 1 ⟧).
Proof. intros []. split; simpl; try done; lia. Qed.

(** ** Lemmas: slots *)

Lemma outstanding_write wd l k s s' bs id :
  slots wd !! k = Some s →
  outstanding (MkWorld l (<[k := s']> (slots wd)) bs) id =
    outstanding wd id - (if decide (slot_provider s = id ∧ fired s = false) then 1 else 0)
      + (if decide (slot_provider s' = id ∧ fired s' = false) then 1 else 0).
Proof. 
  intros Hk. unfold outstanding. cbn [slots].
  by rewrite (count_insert (fun s => slot_provider s = id ∧ fired s = false) _ _ _ _ Hk).
Qed.

Lemma outstanding_pos wd k s :
  slots wd !! k = Some s → fired s = false → 0 < outstanding wd (slot_provider s).
Proof.
  intros Hk Hf. unfold outstanding.
  assert (s ∈ filter (fun s0 => slot_provider s0 = slot_provider s ∧ fired s0 = false) (slots wd)) as Hin.
  { apply list_elem_of_filter. split; [done|]. by eapply list_elem_of_lookup_2. }
  destruct (filter _ (slots wd)); [by apply elem_of_nil in Hin|]. simpl. lia.
Qed.

Lemma settle_conserved x wd k o : conserved wd → conserved (settle x wd k o).
Proof.
  intros (l & Hl & Hw). unfold settle. destruct (slots wd !! k) as [s|] eqn:Hk; [|by exists l].
  destruct (fired s) eqn:Hf; [by exists l|].
  destruct (release_window l (at_ x) (slot_provider s) o (inflight_grow_after x) (inflight_forget_after x))
    as (l' & Hr & _ & Hw').
  exists l'. split; [by simpl; rewrite Hl|]. intros id. rewrite Hw', (outstanding_write _ _ _ _ _ _ _ Hk).
  rewrite (decide_False (P := _ ∧ fired (MkSlot _ true _) = false)) by (by intros []).
  destruct (Hw id) as [Hok Hc]. destruct (decide (slot_provider s = id)) as [<-|Hne].
  - destruct (releaseW_spec (at_ x) o (inflight_grow_after x) (inflight_forget_after x) _ Hok) as [? ->].
    rewrite decide_True by done. pose proof (outstanding_pos _ _ _ Hk Hf). split; [done|]. lia.
  - rewrite decide_False by naive_solver. split; [done|]. lia.
Qed.

Lemma holdVerdict_conserved wd k : conserved wd → conserved (holdVerdict wd k).
Proof.
  intros (l & Hl & Hw). unfold holdVerdict. destruct (slots wd !! k) as [s|] eqn:Hk; [|by exists l].
  exists l. split; [done|]. intros id. rewrite (outstanding_write _ _ _ _ _ _ _ Hk). simpl.
  destruct (Hw id) as [? ->]. split; [done|]. lia.
Qed.

Lemma admit_conserved en wd id c : conserved wd → conserved (admitCandidate en wd id c).1.1.
Proof.
  intros (l & Hl & Hw). unfold admitCandidate. destruct en; simpl; [|by exists l].
  rewrite Hl. destruct (tryAcquire_window l id c) as (l' & -> & _ & Hw').
  rewrite negb_involutive. destruct (full (window l id) c); simpl.
  - exists l'. split; [done|]. intros id'. rewrite Hw'.
    case_decide; [subst|]; apply Hw.
  - exists l'. split; [done|]. intros id'. rewrite Hw'. unfold outstanding. simpl.
    rewrite filter_app, length_app, filter_cons, filter_nil. simpl.
    destruct (Hw id') as [Hok Hc]. unfold outstanding in Hc. case_decide as Hd.
    + subst id'. rewrite decide_True by done. split; [by apply acquired_ok|].
      simpl. lia.
    + rewrite decide_False by naive_solver. simpl. split; [done|]. lia.
Qed.

Lemma happen_conserved x wd ev : conserved wd → conserved (happen x wd ev).
Proof.
  intros Hc. destruct ev as [en id c|k id get sc|k|k|k eof|k|k o|id ra]; simpl.
  - by apply admit_conserved.
  - destruct Hc as (l & Hl & Hw). destruct (remainingBudgetZero get); [|by exists l].
    destruct (hintFull_window l (at_ x) id) as (l' & Hh & _ & Hw'). exists l'. simpl. rewrite Hl. split; [done|].
    intros id'. rewrite Hw'. destruct (Hw id') as [Hok Hc]. case_decide; [subst id'|done].
    destruct (hintW_spec (at_ x) _ Hok) as (? & -> & _). done.
  - unfold holdSlotForVerdict. destruct (bodies wd !! k); done.
  - by apply holdVerdict_conserved.
  - unfold Read. destruct (bodies wd !! k); [|done]. destruct (_ && _); [by apply settle_conserved|done].
  - unfold Close. destruct (bodies wd !! k); [|done]. destruct (negb _); [by apply settle_conserved|done].
  - by apply settle_conserved.
  - destruct Hc as (l & Hl & Hw). destruct (cut_window l (at_ x) id ra) as (l' & Hh & _ & Hw').
    exists l'. simpl. rewrite Hl. split; [done|]. intros id'. rewrite Hw'.
    destruct (Hw id') as [Hok Hc]. case_decide; [subst id'|done].
    destruct (cutW_spec (at_ x) ra _ Hok) as (? & -> & _). done.
Qed.

Lemma reachable_conserved wd : reachable wd → conserved wd.
Proof.
  induction 1 as [|x wd ev _ IH]; [|by apply happen_conserved].
  exists newInflightLimiter. split; [done|]. intros id. unfold window. simpl. rewrite lookup_empty. done.
Qed.

(** ** Properties: the slot ledger *)

(** C26. No slot leaks and none is released twice: in every interleaving of
    admissions, headers, reads, closes, holds, verdicts and cuts, each
    provider's count in flight is the number of its slots handed out and not
    yet settled, so it returns to zero exactly when all of them settled, and
    the learned window stays well-formed. *)
Theorem slots_conserved wd :
  reachable wd →
  ∃ l, limiter wd = Some l ∧
    ∀ id, window_ok (window l id) ∧ inflight (window l id) = outstanding wd id ∧
      (inflight (window l id) = 0 ↔ ∀ s, s ∈ slots wd → slot_provider s = id → fired s = true).
Proof.
  intros (l & Hl & Hw)%reachable_conserved. exists l. split; [done|]. intros id.
  destruct (Hw id) as [Hok Hc]. split; [done|]. split; [done|]. rewrite Hc. split.
  - intros H0 s Hs Hid. destruct (fired s) eqn:Hf; [done|].
    apply list_elem_of_lookup in Hs as [k Hk]. pose proof (outstanding_pos wd k s Hk Hf). subst id. lia.
  - intros Hall. unfold outstanding. destruct (filter _ (slots wd)) as [|s fl] eqn:He; [done|].
    assert (s ∈ filter (fun s => slot_provider s = id ∧ fired s = false) (slots wd)) as Hin
      by (rewrite He; apply list_elem_of_here).
    apply list_elem_of_filter in Hin as [[Hid Hf] Hs]. by rewrite (Hall s Hs Hid) in Hf.
Qed.

Lemma slots_conserved_witness :
  outstanding twoAttempts "p" = 1 ∧
  ∃ l, limiter twoAttempts = Some l ∧ inflight (window l "p") = outstanding twoAttempts "p".
Proof.
  split; [reflexivity|]. destruct (slots_conserved twoAttempts) as (l & Hl & Hw).
  - unfold twoAttempts, foldl. repeat apply reach_step. apply reach_start.
  - exists l. split; [exact Hl|]. apply (Hw "p").
Defined.

(** ** Properties: learning *)

(** Admission is bounded by both limits at once: an admitted request keeps
    the count within the operator's ceiling when there is one and within the
    learned allowance when there is one; a refusal means one of them was full
    and changes nothing; and the cheap re-check answers what the acquisition
    would. *)
Lemma tryAcquire_spec l id ceiling :
  window_ok (window l id) →
  let w := window l id in
  let '(ol, ok) := tryAcquire (Some l) id ceiling in
  ∃ l', ol = Some l' ∧ (canAdmit (Some l) id ceiling).2 = ok ∧
    (∀ id', id' ≠ id → window l' id' = window l id') ∧
    if ok
    then window l' id = w ⟦ inflight := inflight w + 1 ⟧ ∧
         (0 < ceiling → inflight w + 1 ≤ ceiling) ∧ (0 < limit w → inflight w + 1 ≤ limit w)
    else window l' id = w ∧ (0 < ceiling ≤ inflight w ∨ 0 < limit w ≤ inflight w).
Proof.
  intros [Hl Hi _ _] w. fold w in Hl, Hi. destruct (tryAcquire_window l id ceiling) as (l' & -> & _ & Hw').
  destruct (canAdmit_window l id ceiling) as (l2 & -> & _ & _). fold w in Hw' |- *. exists l'. split; [done|].
  cbn [snd]. pose proof (Hw' id) as Hid. rewrite decide_True in Hid by done. rewrite Hid.
  unfold full. cbv zeta. unfold effectiveLimit.
  split; [|split; [intros id' ?; by rewrite Hw', decide_False|]];
  destruct (Z.leb_spec ceiling 0), (Z.leb_spec (limit w) 0), (Z.ltb_spec ceiling (limit w)); cbn [orb];
  repeat match goal with
  | |- context [?a <? ?b] => destruct (Z.ltb_spec a b)
  | |- context [?a <=? ?b] => destruct (Z.leb_spec a b)
  end; cbn [negb andb orb]; try lia; try done; (split; [done|]); lia.
Qed.

Lemma tryAcquire_spec_witness :
  let l := MkLimiter {["p" := MkWindow 3 2 0 Hour]} 0 in
  (tryAcquire (Some l) "p" 8).2 = true ∧ (canAdmit (Some l) "p" 2).2 = false ∧
  (canAdmit (Some l) "p" 8).2 = (tryAcquire (Some l) "p" 8).2.
Proof.
  intros l. split; [reflexivity|]. split; [reflexivity|].
  assert (window_ok (window l "p")) as Hok by (split; evaluate).
  pose proof (tryAcquire_spec l "p" 8 Hok) as H. cbv zeta in H.
  destruct (tryAcquire (Some l) "p" 8) as [ol ok]. by destruct H as (l' & _ & H & _).
Defined.

(** One more unit, in quotient and remainder. *)
Lemma div_mod_succ m g :
  0 < g →
  if g <=? m `mod` g + 1
  then (m + 1) `div` g = m `div` g + 1 ∧ (m + 1) `mod` g = 0
  else (m + 1) `div` g = m `div` g ∧ (m + 1) `mod` g = m `mod` g + 1.
Proof.
  intros Hg. pose proof (Z.div_mod m g ltac:(lia)) as Hdm. pose proof (Z.mod_pos_bound m g Hg).
  destruct (Z.leb_spec g (m `mod` g + 1)).
  - split; symmetry; [eapply Z.div_unique_pos with (r := 0)|eapply Z.mod_unique_pos with (q := m / g + 1)]; lia.
  - split; symmetry; [eapply Z.div_unique_pos with (r := m `mod` g + 1)|eapply Z.mod_unique_pos with (q := m / g)]; lia.
Qed.

(** A clean completion on a capped window. *)
Lemma releaseW_clean now g f w :
  0 < limit w → 0 < g → 0 < f →
  let w' := releaseW now slotClean g f w in
  if f <=? Sub now (lastCut w) then limit w' = 0
  else lastCut w' = lastCut w ∧
    if g <=? goodRuns w + 1 then limit w' = limit w + 1 ∧ goodRuns w' = 0
    else limit w' = limit w ∧ goodRuns w' = goodRuns w + 1.
Proof.
  intros Hl Hg Hf. unfold releaseW. rewrite (proj2 (Z.leb_gt g 0)), (proj2 (Z.leb_gt f 0)) by lia. cbv zeta.
  set (w1 := if 0 <? inflight w then _ else w).
  assert (limit w1 = limit w ∧ goodRuns w1 = goodRuns w ∧ lastCut w1 = lastCut w) as (<- & <- & <-)
    by (unfold w1; by case_match).
  assert (0 < limit w1) as Hl1 by (unfold w1; by case_match).
  rewrite (proj2 (Z.ltb_lt _ _) Hl1). destruct (f <=? _); [done|].
  cbn [goodRuns limit lastCut update_field upd_goodRuns upd_limit]. by destruct (g <=? _).
Qed.

(** Additive increase: on a capped window, every [growAfter] consecutive
    clean completions inside the forget period widen the allowance by exactly
    one, however they are spaced; and the first completion after a quiet period
    of [forgetAfter] returns the window to uncapped. *)
Lemma release_grows w growAfter forgetAfter ts quiet :
  0 < limit w → 0 < growAfter → 0 ≤ goodRuns w < growAfter → 0 < forgetAfter →
  Forall (fun now => Sub now (lastCut w) < forgetAfter) ts →
  forgetAfter ≤ Sub quiet (lastCut w) →
  let w' := foldl (fun w now => releaseW now slotClean growAfter forgetAfter w) w ts in
  limit w' = limit w + (goodRuns w + Z.of_nat (length ts)) / growAfter ∧
  goodRuns w' = (goodRuns w + Z.of_nat (length ts)) `mod` growAfter ∧
  limit (releaseW quiet slotClean growAfter forgetAfter w') = 0.
Proof.
  intros Hl Hg Hr Hf Hts Hq w'.
  assert (0 < limit w' ∧ lastCut w' = lastCut w ∧
    limit w' = limit w + (goodRuns w + Z.of_nat (length ts)) / growAfter ∧
    goodRuns w' = (goodRuns w + Z.of_nat (length ts)) `mod` growAfter) as (Hl' & Hc' & Hlim & Hruns).
  { unfold w'. clear w'. induction ts as [|now ts IH] using rev_ind; simpl.
    { rewrite Z.add_0_r, Z.div_small, Z.mod_small by lia. split_and!; try done; lia. }
    apply Forall_app in Hts as [Hts [Hnow _]%Forall_cons]. rewrite foldl_app, length_app. simpl foldl.
    destruct (IH Hts) as (Hl1 & Hc1 & Hlim & Hgr). clear IH. set (w1 := foldl _ w ts) in *.
    replace (goodRuns w + Z.of_nat (length ts + length [now]))
      with (goodRuns w + Z.of_nat (length ts) + 1) by (simpl; lia).
    set (m := goodRuns w + Z.of_nat (length ts)) in *.
    pose proof (releaseW_clean now growAfter forgetAfter w1 Hl1 Hg Hf) as Hstep. cbv zeta in Hstep.
    rewrite Hc1, (proj2 (Z.leb_gt _ _) Hnow), Hgr in Hstep. destruct Hstep as [-> Hstep].
    pose proof (div_mod_succ m growAfter Hg) as Hdm.
    destruct (growAfter <=? m `mod` growAfter + 1); destruct Hstep as [-> ->], Hdm as [-> ->]; split_and!; lia. }
  split; [done|]. split; [done|].
  pose proof (releaseW_clean quiet growAfter forgetAfter w' Hl' Hg Hf) as Hstep. cbv zeta in Hstep.
  by rewrite Hc', (proj2 (Z.leb_le _ _) Hq) in Hstep.
Qed.

Lemma release_grows_witness :
  let w := MkWindow 3 3 0 Hour in
  let w' := foldl (fun w now => releaseW now slotClean 2 Minute w) w [Hour; Hour; Hour + Second; Hour + Second; Hour] in
  limit w' = 5 ∧ goodRuns w' = 1 ∧ limit (releaseW (Hour + Minute) slotClean 2 Minute w') = 0.
Proof.
  intros w w'.
  destruct (release_grows w 2 Minute [Hour; Hour; Hour + Second; Hour + Second; Hour] (Hour + Minute)) as (H1 & H2 & H3);
    [evaluate|evaluate|evaluate|evaluate|repeat constructor; evaluate|evaluate|].
  split; [exact H1|]. split; [exact H2|exact H3].
Defined.

(** Decrease: a saturated answer caps the provider at the load that fit (at
    least one), a later cut only lowers the cap, and a "remaining: 0" hint
    never widens one; neither touches the count in flight or another
    provider, and a hint that would not tighten the cap changes nothing. *)
Lemma cut_spec l now id retryAfter :
  window_ok (window l id) →
  let w := window l id in
  let fit := Z.max 1 (inflight w) in
  let tightened := if limit w =? 0 then fit else Z.min (limit w) fit in
  ∃ lc lh, cut (Some l) now id retryAfter = Some lc ∧ hintFull (Some l) now id = Some lh ∧
    limit (window lc id) = tightened ∧ inflight (window lc id) = inflight w ∧ goodRuns (window lc id) = 0 ∧
    lastCut (window lc id) = (if 0 <? retryAfter then now + retryAfter else now) ∧
    limit (window lh id) = tightened ∧ inflight (window lh id) = inflight w ∧
    (0 < limit w ≤ fit → window lh id = w) ∧
    (∀ id', id' ≠ id → window lc id' = window l id' ∧ window lh id' = window l id').
Proof.
  intros Hok w fit tightened. destruct (cut_window l now id retryAfter) as (lc & Hc & _ & Hcw).
  destruct (hintFull_window l now id) as (lh & Hh & _ & Hhw). exists lc, lh.
  rewrite !Hcw, !Hhw, !decide_True by done.
  destruct (cutW_spec now retryAfter _ Hok) as (_ & -> & -> & ->).
  destruct (hintW_spec now _ Hok) as (_ & -> & ->). split_and!; try done.
  - unfold cutW. cbv zeta. destruct (_ || _), (0 <? retryAfter); done.
  - intros Hle. unfold hintW. fold w. fold fit. rewrite (proj2 (Z.eqb_neq _ _)) by lia.
    by rewrite (proj2 (Z.ltb_ge _ _)) by lia.
  - intros id' Hne. by rewrite Hcw, Hhw, !decide_False by done.
Qed.

Lemma cut_spec_witness :
  let l := MkLimiter {["p" := MkWindow 5 2 7 Minute]} 0 in
  ∃ lc, cut (Some l) Hour "p" (2 * Second) = Some lc ∧ limit (window lc "p") = 2 ∧
    lastCut (window lc "p") = Hour + 2 * Second.
Proof.
  intros l. destruct (cut_spec l Hour "p" (2 * Second)) as (lc & lh & Hc & _ & Hl & _ & _ & Ht & _);
    [split; evaluate|]. exists lc. split; [exact Hc|]. split; [exact Hl|exact Ht].
Defined.

(** ** Properties: the wait *)

(** Only a release can make room: every other method leaves a full provider
    full. *)
Lemma admission_antitone w w' ceiling :
  window_ok w → 0 ≤ limit w' → inflight w ≤ inflight w' →
  (limit w' = limit w ∨ (limit w = 0 ∧ 0 < limit w') ∨ 0 < limit w' ≤ limit w) →
  (effectiveLimit (limit w) ceiling <=? 0) || (inflight w <? effectiveLimit (limit w) ceiling) = false →
  (effectiveLimit (limit w') ceiling <=? 0) || (inflight w' <? effectiveLimit (limit w') ceiling) = false.
Proof.
  intros [Hl Hi _ _] Hl' Hle Hcase. unfold effectiveLimit.
  destruct (Z.leb_spec ceiling 0), (Z.leb_spec (limit w) 0), (Z.leb_spec (limit w') 0),
    (Z.ltb_spec ceiling (limit w)), (Z.ltb_spec ceiling (limit w')); cbn [orb]; try lia;
    repeat match goal with
    | |- context [?a <? ?b] => destruct (Z.ltb_spec a b)
    | |- context [?a <=? ?b] => destruct (Z.leb_spec a b)
    end; cbn [orb]; first [done | lia].
Qed.

Lemma admit_true l busy :
  admits (Some l) busy = true ↔ ∃ ic, ic ∈ busy ∧
    (effectiveLimit (limit (window l ic.1)) ic.2 <=? 0)
      || (inflight (window l ic.1) <? effectiveLimit (limit (window l ic.1)) ic.2) = true.
Proof.
  unfold admits. rewrite existsb_exists. split; intros (ic & Hin & H); exists ic;
    (split; [by apply list_elem_of_In|]); destruct (canAdmit_window l ic.1 ic.2) as (l' & Hc & _);
    rewrite Hc in *; done.
Qed.

(** A limiter method either announces itself as a release or makes no room. *)
Lemma limiter_op_effect l l' busy :
  limiter_op (Some l) (Some l') → (∀ id, window_ok (window l id)) →
  (∀ id, window_ok (window l' id)) ∧
  (notify l' = S (notify l) ∨
   notify l' = notify l ∧ (admits (Some l) busy = false → admits (Some l') busy = false)).
Proof.
  intros Hop Hok.
  assert (∀ (f : inflightWindow → inflightWindow) id,
    (∀ id', window l' id' = if decide (id = id') then f (window l id) else window l id') →
    (∀ w, window_ok w → window_ok (f w) ∧ inflight w ≤ inflight (f w) ∧
       (limit (f w) = limit w ∨ (limit w = 0 ∧ 0 < limit (f w)) ∨ 0 < limit (f w) ≤ limit w)) →
    (∀ id, window_ok (window l' id)) ∧ (admits (Some l) busy = false → admits (Some l') busy = false)) as Hquiet.
  { intros f id Hw Hf. split.
    - intros id'. rewrite Hw. case_decide; [by apply Hf|done].
    - intros Hno. apply not_true_iff_false. intros (ic & Hin & Hadm)%admit_true.
      apply not_true_iff_false in Hno. apply Hno, admit_true. exists ic. split; [done|].
      destruct (_ || _) eqn:Hold at 1; [done|]. exfalso. revert Hadm. rewrite Hw.
      case_decide as Hd; [subst id|by rewrite Hold].
      destruct (Hf _ (Hok ic.1)) as (Hok' & Hi & Hl). apply not_true_iff_false.
      apply (admission_antitone (window l ic.1)); [done|by apply Hok'|done|done|done]. }
  remember (Some l) as ol eqn:Hl in Hop. remember (Some l') as ol' eqn:Hr in Hop.
  destruct Hop as [ol id c|ol id c|ol now id o g f|ol now id ra|ol now id]; subst ol.
  - destruct (tryAcquire_window l id c) as (l2 & Heq & Hn & Hw). rewrite Heq in Hr. injection Hr as <-.
    destruct (Hquiet (fun w => if full w c then w else w ⟦ inflight := inflight w + 1 ⟧) id Hw) as [H1 H2]; [|by eauto].
    intros w Hwok. destruct (full w c); [split; [done|lia]|]. split; [by apply acquired_ok|]. simpl. lia.
  - destruct (canAdmit_window l id c) as (l2 & Heq & Hn & Hw). rewrite Heq in Hr. injection Hr as <-.
    destruct (Hquiet (fun w => w) id) as [H1 H2]; [|intros; split; [done|lia]|by eauto].
    intros id'. rewrite Hw. by case_decide; subst.
  - destruct (release_window l now id o g f) as (l2 & Heq & Hn & Hw). rewrite Heq in Hr. injection Hr as <-.
    split; [|by left]. intros id'. rewrite Hw. case_decide; [by apply releaseW_spec|done].
  - destruct (cut_window l now id ra) as (l2 & Heq & Hn & Hw). rewrite Heq in Hr. injection Hr as <-.
    destruct (Hquiet (cutW now ra) id Hw) as [H1 H2]; [|by eauto].
    intros w Hwok. destruct (cutW_spec now ra w Hwok) as (Hwok' & -> & _ & ->). destruct Hwok. split; [done|].
    split; [lia|]. destruct (Z.eqb_spec (limit w) 0); lia.
  - destruct (hintFull_window l now id) as (l2 & Heq & Hn & Hw). rewrite Heq in Hr. injection Hr as <-.
    destruct (Hquiet (hintW now) id Hw) as [H1 H2]; [|by eauto].
    intros w Hwok. destruct (hintW_spec now w Hwok) as (Hwok' & -> & ->). destruct Hwok. split; [done|].
    split; [lia|]. destruct (Z.eqb_spec (limit w) 0); lia.
Qed.

Lemma wait_step_ok busy st st' : wait_step busy st st' → wait_ok busy st → wait_ok busy st'.
Proof.
  intros Hstep [Hok Hpc]. inversion Hstep as [l l' pc Hop| | | | |]; subst; simpl in *; try (by split); try (split; [done|]).
  - destruct (limiter_op_effect l l' busy Hop Hok) as [Hok' Hn]. split; [done|].
    destruct pc as [|g|g|]; cbn [snd fst] in *; [done| |destruct Hpc as [Hle Hno]|done].
    + destruct Hn as [Hn|[Hn _]]; lia.
    + destruct Hn as [Hn|[Hn Hadm]]; (split; [lia|]); intros Hg; [lia|apply Hadm, Hno; lia].
  - simpl. lia.
Qed.



(** ** What modelling showed *)

(** A Retry-After does not defer the forget clock for good: a later
    "remaining: 0" hint that tightens the cap restarts the clock at its own
    instant, so the window is back to uncapped while the wait the provider
    asked for is still running, where without the hint the cap would hold. *)
Theorem hint_undoes_deferral :
  let limitOf l := (fun l => limit (window l "p")) <$> l in
  let settled l now := release l now "p" slotNeutral 20 (10 * Minute) in
  let l1 := cut (Some (MkLimiter {["p" := MkWindow 0 3 0 zeroTime]} 0)) Hour "p" (30 * Minute) in
  let l2 := settled l1 (Hour + Second) in
  let l3 := hintFull l2 (Hour + 2 * Second) "p" in
  let later := Hour + 2 * Second + 10 * Minute in
  limitOf l2 = Some 3 ∧ limitOf l3 = Some 2 ∧
  limitOf (settled l2 later) = Some 3 ∧ limitOf (settled l3 later) = Some 0.
Proof. split_and!; vm_compute; reflexivity. Qed.
