(* ===== verification/AttemptTrail.v ===== *)
(** * The attempt trail (internal/proxy/attempt_trail.go)

    The record a request keeps of every candidate it considered: opened when an
    attempt commits to a candidate, annotated while it runs, closed once. The
    excerpt kept of an upstream error is the section variable [attemptDetail];
    durations are the nanoseconds the milliseconds are rendered from. *)

From S2P Require Import Prelude Errors.

(** ** Data *)

Record modelCandidate := MkCandidate {
  cand_provider : string;            (* provider.ID *)
  cand_name : string;                (* provider.Name *)
  cand_model : option string;        (* model.ModelID; [None] is a nil model *)
  cand_maxInFlight : option Z        (* provider.MaxInFlight *)
}.

#[export] Instance modelCandidate_eq_dec : EqDecision modelCandidate.
Proof. solve_decision. Defined.

(** The id the breaker keys a candidate's circuit by. *)
Definition candidateModelID (candidate : modelCandidate) : string := default "" (cand_model candidate).

Record attemptRecord := MkRecord {
  rec_attempt : Z;
  rec_provider_id : string;
  rec_provider : string;
  rec_model : string;
  rec_status : Z;
  rec_error_kind : string;
  rec_detail : string;
  rec_phrase : string;
  rec_duration : Duration;
  rec_ttft : Z;
  rec_hedged : bool;
  rec_breaker : string
}.

Definition breakerCharge := "charge".
Definition breakerNoop := "noop".
Definition breakerSuccess := "success".
Definition breakerAlive := "alive".
Definition breakerSkipped := "skipped".
Definition breakerDisabled := "disabled".

(** The fields of [requestLogData] the trail lives in. *)
Record trail := MkTrail {
  openAttempt : option attemptRecord;
  attemptStarted : Time;
  attemptBreaker : string;
  attemptStatus : Z;
  attemptPhrase : string;
  attempts : list attemptRecord
}.

Definition trail_eta (l : trail) : trail :=
  MkTrail (openAttempt l) (attemptStarted l) (attemptBreaker l) (attemptStatus l) (attemptPhrase l) (attempts l).
#[export] Instance upd_openAttempt : Updater openAttempt := ltac:(derive_updater trail_eta).
#[export] Instance upd_attemptBreaker : Updater attemptBreaker := ltac:(derive_updater trail_eta).
#[export] Instance upd_attemptStatus : Updater attemptStatus := ltac:(derive_updater trail_eta).
#[export] Instance upd_attemptPhrase : Updater attemptPhrase := ltac:(derive_updater trail_eta).
#[export] Instance upd_attempts : Updater attempts := ltac:(derive_updater trail_eta).

Definition newTrail : trail := MkTrail None zeroTime "" 0 "" [].

(** ** Operations *)

Definition newAttemptRecord (attempt : Z) (candidate : modelCandidate) : attemptRecord :=
  MkRecord attempt (cand_provider candidate) (cand_name candidate) (candidateModelID candidate)
    0 "" "" "" 0 0 false "".

Definition openAttemptRecord (l : trail) (attempt : Z) (candidate : modelCandidate) (hedged : bool)
    (startedAt : Time) (cbEnabled : bool) : trail :=
  let rec := newAttemptRecord attempt candidate in
  let rec := MkRecord (rec_attempt rec) (rec_provider_id rec) (rec_provider rec) (rec_model rec)
               0 "" "" "" 0 0 hedged "" in
  MkTrail (Some rec) startedAt (if negb cbEnabled then breakerDisabled else "") 0 "" (attempts l).

Definition noteAttemptStatus (l : trail) (status : Z) : trail := l ⟦ attemptStatus := status ⟧.
Definition noteAttemptPhrase (l : trail) (phrase : string) : trail := l ⟦ attemptPhrase := phrase ⟧.
Definition noteBreaker (l : trail) (verdict : string) : trail := l ⟦ attemptBreaker := verdict ⟧.

Section Close.
Context (attemptDetail : string → string).

Definition closeAttemptRecord (l : trail) (now : Time) (status : Z) (kind : option ErrorKind)
    (detail phrase : string) (ttft : Z) : trail :=
  match openAttempt l with
  | None => l
  | Some rec =>
      let rec := MkRecord (rec_attempt rec) (rec_provider_id rec) (rec_provider rec) (rec_model rec)
        status (ErrorKind_String kind) (attemptDetail detail) phrase
        (if negb (IsZero (attemptStarted l)) then Sub now (attemptStarted l) else rec_duration rec)
        ttft (rec_hedged rec) (attemptBreaker l) in
      l ⟦ openAttempt := None ⟧ ⟦ attempts := attempts l ++ [rec] ⟧
  end.

(** The close the terminal write makes: the row's own error is the attempt's. *)
Definition closeTerminalAttempt (l : trail) (now : Time) (statusCode : Z) (errorKind : option ErrorKind)
    (ttft : Z) : trail :=
  match openAttempt l with
  | None => l
  | Some _ =>
      let status := if attemptStatus l =? 0 then statusCode else attemptStatus l in
      closeAttemptRecord l now status errorKind "" (attemptPhrase l) ttft
  end.
End Close.

Definition appendAttemptRecord (l : trail) (rec : attemptRecord) : trail :=
  l ⟦ attempts := attempts l ++ [rec] ⟧.

Definition hedgeAbandonedRecord (now : Time) (idx : Z) (candidate : modelCandidate) (launchedAt : Time)
    (kind : option ErrorKind) (detail : string) : attemptRecord :=
  let rec := newAttemptRecord idx candidate in
  MkRecord (rec_attempt rec) (rec_provider_id rec) (rec_provider rec) (rec_model rec)
    0 (ErrorKind_String kind) detail "" (Sub now launchedAt) 0 true "".

Definition appendSkip (l : trail) (providerID providerName model detail : string) : trail :=
  l ⟦ attempts := attempts l ++
        [MkRecord (-1) providerID providerName model 0 "" detail "" 0 0 false breakerSkipped] ⟧.

Definition appendBreakerSkip (l : trail) (providerID providerName model : string) : trail :=
  appendSkip l providerID providerName model "circuit breaker open".

(** [sort.SliceStable] by attempt index: a stable sort is determined by its
    order, and insertion is one. *)
Fixpoint insertRecord (r : attemptRecord) (l : list attemptRecord) : list attemptRecord :=
  match l with
  | [] => [r]
  | r' :: l => if rec_attempt r' <=? rec_attempt r then r' :: insertRecord r l else r :: r' :: l
  end.

Definition sortRecords (l : list attemptRecord) : list attemptRecord :=
  foldl (fun acc r => insertRecord r acc) [] l.

(** The records the attempts column is written from; [None] is SQL NULL. *)
Definition attemptsColumn (l : trail) : option (list attemptRecord) :=
  match attempts l with [] => None | a => Some (sortRecords a) end.

Definition failoverProviders (l : trail) : list string :=
  omap (fun a => if 1 <=? rec_attempt a then Some (rec_provider a) else None) (attempts l).

(** ** Specification *)

Inductive trail_call :=
| TOpen (attempt : Z) (candidate : modelCandidate) (hedged : bool) (startedAt : Time) (cbEnabled : bool)
| TStatus (status : Z)
| TPhrase (phrase : string)
| TBreaker (verdict : string)
| TClose (now : Time) (status : Z) (kind : option ErrorKind) (detail phrase : string) (ttft : Z)
| TTerminal (now : Time) (statusCode : Z) (kind : option ErrorKind) (ttft : Z)
| TAppend (rec : attemptRecord)
| TSkip (providerID providerName model detail : string).

Section Calls.
Context (attemptDetail : string → string).

Definition perform_call (l : trail) (c : trail_call) : trail :=
  match c with
  | TOpen a cand h t cb => openAttemptRecord l a cand h t cb
  | TStatus s => noteAttemptStatus l s
  | TPhrase p => noteAttemptPhrase l p
  | TBreaker v => noteBreaker l v
  | TClose now s k d p t => closeAttemptRecord attemptDetail l now s k d p t
  | TTerminal now s k t => closeTerminalAttempt attemptDetail l now s k t
  | TAppend r => appendAttemptRecord l r
  | TSkip pid pn m d => appendSkip l pid pn m d
  end.
End Calls.

(** The candidate a call leaves in flight, given the one in flight before. *)
Definition inFlight (cur : option (Z * modelCandidate)) (c : trail_call) : option (Z * modelCandidate) :=
  match c with
  | TOpen a cand _ _ _ => Some (a, cand)
  | TClose _ _ _ _ _ _ | TTerminal _ _ _ _ => None
  | _ => cur
  end.

(** Who a record is about. *)
Definition about (r : attemptRecord) : Z * string * string * string :=
  (rec_attempt r, rec_provider_id r, rec_provider r, rec_model r).

Definition about_candidate (ac : Z * modelCandidate) : Z * string * string * string :=
  (ac.1, cand_provider ac.2, cand_name ac.2, candidateModelID ac.2).

(** What one call adds to the trail: the close of an attempt in flight, or an
    entry whose fate was already known. *)
Definition appended (cur : option (Z * modelCandidate)) (c : trail_call) : list (Z * string * string * string) :=
  match c with
  | TClose _ _ _ _ _ _ | TTerminal _ _ _ _ => option_list (about_candidate <$> cur)
  | TAppend r => [about r]
  | TSkip pid pn m _ => [(-1, pid, pn, m)]
  | _ => []
  end.

Fixpoint expected (cur : option (Z * modelCandidate)) (log : list trail_call) : list (Z * string * string * string) :=
  match log with
  | [] => []
  | c :: log => appended cur c ++ expected (inFlight cur c) log
  end.

(** ** Lemmas *)

(** The open record is the candidate in flight. *)
Definition tracks_flight (l : trail) (cur : option (Z * modelCandidate)) : Prop :=
  about <$> openAttempt l = about_candidate <$> cur.

Section Lemmas.
Context (attemptDetail : string → string).

Lemma closeAttemptRecord_spec l cur now status kind detail phrase ttft :
  tracks_flight l cur →
  let l' := closeAttemptRecord attemptDetail l now status kind detail phrase ttft in
  tracks_flight l' None ∧
  about <$> attempts l' = (about <$> attempts l) ++ option_list (about_candidate <$> cur).
Proof.
  unfold tracks_flight, closeAttemptRecord. intros Hcur. destruct (openAttempt l) as [rec|] eqn:Ho; simpl in *.
  - split; [done|]. rewrite fmap_app, <- Hcur. by destruct rec.
  - rewrite Ho. split; [done|]. rewrite <- Hcur. simpl. by rewrite app_nil_r.
Qed.

Lemma closeTerminal_close l now status kind ttft :
  ∃ status' phrase, closeTerminalAttempt attemptDetail l now status kind ttft =
    closeAttemptRecord attemptDetail l now status' kind "" phrase ttft.
Proof.
  unfold closeTerminalAttempt. destruct (openAttempt l) eqn:Ho; [by eexists _, _|].
  exists 0, "". unfold closeAttemptRecord. by rewrite Ho.
Qed.

Lemma perform_call_spec l cur c :
  tracks_flight l cur →
  tracks_flight (perform_call attemptDetail l c) (inFlight cur c) ∧
  about <$> attempts (perform_call attemptDetail l c) = (about <$> attempts l) ++ appended cur c.
Proof.
  intros Hcur. destruct c; simpl;
    try (split; [exact Hcur|by rewrite app_nil_r]);
    try (split; [exact Hcur|by rewrite fmap_app]).
  - split; [done|by rewrite app_nil_r].
  - by apply closeAttemptRecord_spec.
  - destruct (closeTerminal_close l now statusCode kind ttft) as (s & p & ->). by apply closeAttemptRecord_spec.
Qed.

Lemma trail_expected l cur log :
  tracks_flight l cur →
  about <$> attempts (foldl (perform_call attemptDetail) l log) = (about <$> attempts l) ++ expected cur log.
Proof.
  revert l cur. induction log as [|c log IH]; intros l cur Hcur; simpl; [by rewrite app_nil_r|].
  destruct (perform_call_spec l cur c Hcur) as [H1 H2]. rewrite (IH _ _ H1), H2. by rewrite app_assoc.
Qed.
End Lemmas.

Lemma insertRecord_perm r l : insertRecord r l ≡ₚ r :: l.
Proof.
  induction l as [|r' l IH]; simpl; [done|]. case_match; [|done]. rewrite IH. apply Permutation_swap.
Qed.

Lemma insertRecord_sorted r l :
  StronglySorted (fun a b => rec_attempt a ≤ rec_attempt b) l →
  StronglySorted (fun a b => rec_attempt a ≤ rec_attempt b) (insertRecord r l).
Proof.
  induction 1 as [|r' l Hs IH Hall]; simpl; [by repeat constructor|].
  destruct (Z.leb_spec (rec_attempt r') (rec_attempt r)) as [Hle|Hgt].
  - constructor; [done|]. rewrite insertRecord_perm. by constructor.
  - constructor; [by constructor|]. constructor; [lia|]. eapply Forall_impl; [exact Hall|]. simpl. lia.
Qed.

(** Insertion goes behind the records of its own index. *)
Lemma insertRecord_stable k r l :
  StronglySorted (fun a b => rec_attempt a ≤ rec_attempt b) l →
  filter (fun a => rec_attempt a = k) (insertRecord r l) =
  filter (fun a => rec_attempt a = k) l ++ filter (fun a => rec_attempt a = k) [r].
Proof.
  induction 1 as [|r' l Hs IH Hall]; simpl; [done|].
  destruct (Z.leb_spec (rec_attempt r') (rec_attempt r)) as [Hle|Hgt].
  - rewrite !(filter_cons _ r'). case_decide; rewrite IH; done.
  - rewrite (filter_cons _ r (r' :: l)), (filter_cons _ r []), filter_nil.
    case_decide as Hr; [|by rewrite app_nil_r].
    assert (filter (fun a => rec_attempt a = k) (r' :: l) = []) as ->; [|done].
    apply elem_of_nil_inv. intros x [Hx Hin]%list_elem_of_filter.
    apply elem_of_cons in Hin as [-> | Hin]; [lia|].
    rewrite Forall_forall in Hall. specialize (Hall x Hin). lia.
Qed.

Lemma sortRecords_spec l :
  sortRecords l ≡ₚ l ∧ StronglySorted (fun a b => rec_attempt a ≤ rec_attempt b) (sortRecords l) ∧
  ∀ k, filter (fun a => rec_attempt a = k) (sortRecords l) = filter (fun a => rec_attempt a = k) l.
Proof.
  induction l as [|r l IH] using rev_ind; [repeat split; constructor|].
  unfold sortRecords. rewrite foldl_snoc. fold (sortRecords l). destruct IH as (Hp & Hs & Hf). split_and!.
  - rewrite insertRecord_perm, Hp. apply Permutation_cons_append.
  - by apply insertRecord_sorted.
  - intros k. rewrite insertRecord_stable, filter_app by done. by rewrite Hf.
Qed.

(** ** Properties *)

(** The trail names every candidate the request considered, each once and
    under its own index, whatever the order of opens, notes and closes: an
    attempt is recorded by the first close after its open and by no later one,
    an attempt opened over one still open leaves only its own record, and a
    close with nothing open adds nothing. The stored column holds exactly those
    records, in attempt order, records of one index in the order they closed. *)
Lemma trail_complete attemptDetail log :
  let l := foldl (perform_call attemptDetail) newTrail log in
  about <$> attempts l = expected None log ∧
  (attemptsColumn l = None ↔ expected None log = []) ∧
  ∀ col, attemptsColumn l = Some col →
    col ≡ₚ attempts l ∧ StronglySorted (fun a b => rec_attempt a ≤ rec_attempt b) col ∧
    ∀ k, filter (fun a => rec_attempt a = k) col = filter (fun a => rec_attempt a = k) (attempts l).
Proof.
  intros l. assert (about <$> attempts l = expected None log) as Hl.
  { unfold l. by rewrite (trail_expected attemptDetail newTrail None log). }
  split; [done|]. split.
  - rewrite <- Hl. unfold attemptsColumn. by destruct (attempts l).
  - intros col Hcol. unfold attemptsColumn in Hcol.
    assert (col = sortRecords (attempts l)) as -> by (by destruct (attempts l); simplify_eq).
    apply sortRecords_spec.
Qed.
