(* ===== verification/Outcome.v ===== *)
(** * What an attempt tells the breaker and the learner (internal/proxy:
    breaker_outcome.go, stream_finalize.go, rate_limit_classify.go, helpers.go,
    resolve.go, proxy_request.go)

    The status of an answered attempt, the claim its 429 makes, and the body it
    delivered, turned into what the circuit breaker, the in-flight learner and
    the cap ledger are told. A [session] is everything an attempt of one request
    reads and writes: the breaker, limiter and ledger all requests share, and
    the request's own scratch. What the 429 classifier says of a response is
    read off the response. *)

From S2P Require Import Prelude Circuit Cooldown CircuitEvents Breaker BreakerGate BreakerPhases.
From S2P Require Import Errors Verdict Inflight AttemptTrail.

(** ** The session *)

Record CapNote := MkCapNote { Phrase : string; cap_model : string; Entitled : bool; At : Time }.

(** What one request reads of its settings. *)
Record requestConfig := MkConfig {
  circuitBreakerEnabled : bool;
  inflightEnabled : bool;
  serverErrorRetryEnabled : bool;
  isFailover : bool;
  overallDeadline : Time;
  circuit_breaker_open_on_exhaustion : bool;
  failover_on_rate_limit : bool;
  rate_limit_classify_enabled : bool;
  rate_limit_recent_success_window : Duration;
  rate_limit_saturation_max_wait : Duration;
  growAfter : Z;
  forgetAfter : Duration
}.

Record session := MkSession {
  circuitBreaker : CircuitBreaker;
  pool : world;                              (* the limiter, its slots and bodies *)
  capLedger : gmap string CapNote;
  emitted : list Emission;
  logData : trail;
  verdict : verdictState;
  rateLimit : rateLimitVerdict;
  slot : option nat;                         (* st.attemptSlot *)
  saturationRetried : bool;
  serverErrorRetried : bool;
  attemptRefused : bool;
  rowProvider : string                       (* logData.providerName *)
}.

Definition session_eta (s : session) : session :=
  MkSession (circuitBreaker s) (pool s) (capLedger s) (emitted s) (logData s) (verdict s) (rateLimit s)
    (slot s) (saturationRetried s) (serverErrorRetried s) (attemptRefused s) (rowProvider s).
#[export] Instance upd_circuitBreaker : Updater circuitBreaker := ltac:(derive_updater session_eta).
#[export] Instance upd_pool : Updater pool := ltac:(derive_updater session_eta).
#[export] Instance upd_capLedger : Updater capLedger := ltac:(derive_updater session_eta).
#[export] Instance upd_emitted : Updater emitted := ltac:(derive_updater session_eta).
#[export] Instance upd_logData : Updater logData := ltac:(derive_updater session_eta).
#[export] Instance upd_verdict : Updater verdict := ltac:(derive_updater session_eta).
#[export] Instance upd_rateLimit : Updater rateLimit := ltac:(derive_updater session_eta).
#[export] Instance upd_slot : Updater slot := ltac:(derive_updater session_eta).
#[export] Instance upd_saturationRetried : Updater saturationRetried := ltac:(derive_updater session_eta).
#[export] Instance upd_serverErrorRetried : Updater serverErrorRetried := ltac:(derive_updater session_eta).
#[export] Instance upd_attemptRefused : Updater attemptRefused := ltac:(derive_updater session_eta).
#[export] Instance upd_rowProvider : Updater rowProvider := ltac:(derive_updater session_eta).

(** An upstream response, as far as the verdicts read it. *)
Record Response := MkResponse {
  StatusCode : Z;
  Header : string → string;
  classification : rateLimitVerdict;         (* what the classifier makes of a 429's headers and body *)
  bodyHead : string                          (* the sanitized head it was read from *)
}.

(** ** Status mappings *)

Inductive breakerAction := breakerActionFailure | breakerActionNoOp | breakerActionSuccess.

Definition breakerRecordAction (statusCode : Z) : breakerAction :=
  if (statusCode =? 429) || (500 <=? statusCode) || (statusCode =? 401) || (statusCode =? 403) || (statusCode =? 402)
  then breakerActionFailure
  else if (statusCode =? 404) || (statusCode =? statusClientClosedRequest) then breakerActionNoOp
  else breakerActionSuccess.

Definition shouldFailover (cfg : requestConfig) (statusCode : Z) : bool :=
  if 500 <=? statusCode then true
  else if statusCode =? 429 then failover_on_rate_limit cfg
  else (statusCode =? 401) || (statusCode =? 402) || (statusCode =? 403) || (statusCode =? 404) || (statusCode =? 499).

(** ** Breaker verdicts *)

Definition pinHintUntilPaid : Duration := 90 * 24 * Hour.

Definition noting (s : session) (verdict : string) : session :=
  s ⟦ logData := noteBreaker (logData s) verdict ⟧.

(** A record call on the shared breaker, with what it emits. *)
Definition recording (s : session) (r : CircuitBreaker * list Emission) : session :=
  s ⟦ circuitBreaker := r.1 ⟧ ⟦ emitted := emitted s ++ r.2 ⟧.

Definition recordRateLimitOutcome (e : Env) (cfg : requestConfig) (s : session) (candidate : modelCandidate)
    (rl : rateLimitVerdict) : session :=
  let id := cand_provider candidate in
  let name := cand_name candidate in
  let m := candidateModelID candidate in
  match class rl with
  | rateLimitSaturated =>
      let s := noting s breakerNoop in
      s ⟦ circuitBreaker := RecordSaturated e (circuitBreaker s) id name m ⟧
  | rateLimitExhausted =>
      let s := noting s breakerCharge in
      if negb (circuit_breaker_open_on_exhaustion cfg) then
        recording s (RecordRateLimited e (circuitBreaker s) id name m
                       (UpstreamStatus 429 "exhausted, not opened by setting"))
      else if account rl then recording s (RecordExhaustedAccount e (circuitBreaker s) id name m 429 (pinHint rl))
      else recording s (RecordExhausted e (circuitBreaker s) id name m 429 (pinHint rl))
  | rateLimitUnknown => s
  end.

Definition recordPaymentRequiredOutcome (e : Env) (cfg : requestConfig) (s : session)
    (candidate : modelCandidate) : session :=
  let id := cand_provider candidate in
  let name := cand_name candidate in
  let m := candidateModelID candidate in
  let s := noting s breakerCharge in
  if negb (circuit_breaker_open_on_exhaustion cfg) then
    recording s (RecordFailure e (circuitBreaker s) id name m
                   (UpstreamStatus 402 "payment required, not opened by setting"))
  else recording s (RecordExhausted e (circuitBreaker s) id name m 402 pinHintUntilPaid).

Definition recordBreakerOutcome (e : Env) (cfg : requestConfig) (s : session) (candidate : modelCandidate)
    (statusCode : Z) (isFailoverEligible : bool) (rl : rateLimitVerdict) : session :=
  let id := cand_provider candidate in
  let name := cand_name candidate in
  let m := candidateModelID candidate in
  if negb (circuitBreakerEnabled cfg) then s else
  if isFailoverEligible then
    if (statusCode =? 429) && negb (bool_decide (class rl = rateLimitUnknown)) then
      recordRateLimitOutcome e cfg s candidate rl
    else if statusCode =? 402 then recordPaymentRequiredOutcome e cfg s candidate
    else match breakerRecordAction statusCode with
         | breakerActionFailure =>
             let s := noting s breakerCharge in
             if (statusCode =? 429) && classified rl then
               recording s (RecordRateLimited e (circuitBreaker s) id name m (UpstreamStatus statusCode "unrecognised"))
             else recording s (RecordFailure e (circuitBreaker s) id name m (UpstreamStatus statusCode ""))
         | breakerActionNoOp => noting s breakerNoop
         | breakerActionSuccess =>
             let s := noting s breakerSuccess in
             recording s (RecordSuccess e (circuitBreaker s) id name m)
         end
  else if negb (servedSuccessStatus statusCode) then
    let s := noting s breakerAlive in
    recording s (RecordAlive e (circuitBreaker s) id name m statusCode)
  else s.

Definition chargeBreaker (e : Env) (cfg : requestConfig) (s : session) (candidate : modelCandidate)
    (status : Z) (reason : string) : session :=
  if negb (circuitBreakerEnabled cfg) then s else
  let s := noting s breakerCharge in
  recording s (RecordFailure e (circuitBreaker s) (cand_provider candidate) (cand_name candidate)
                 (candidateModelID candidate) (MkCause status reason)).

Definition creditBreaker (e : Env) (cfg : requestConfig) (s : session) (candidate : modelCandidate) : session :=
  if negb (circuitBreakerEnabled cfg) then s else
  let s := noting s breakerSuccess in
  recording s (RecordSuccess e (circuitBreaker s) (cand_provider candidate) (cand_name candidate)
                 (candidateModelID candidate)).

(** The finished non-streaming answer: its row's state and error kind, and
    whether it carried nothing. *)
Definition recordAnswerOutcome (e : Env) (cfg : requestConfig) (s : session) (candidate : modelCandidate)
    (completed : bool) (errorKind : option ErrorKind) (emptyCompletion : bool) (status : Z) : session :=
  if negb (circuitBreakerEnabled cfg) then s
  else if negb completed then
    if negb (from_option providerAtFault false errorKind) then s
    else chargeBreaker e cfg s candidate status "response failed after headers"
  else if emptyCompletion then
    chargeBreaker e cfg s candidate status "response completed without delivering content"
  else creditBreaker e cfg s candidate.

(** ** Finished streams *)

Record streamState := MkStream {
  chunkCount : Z;
  errorChunkCount : Z;
  heldErrorCount : Z;
  unparsedChunks : Z;
  lastErrMsg : string;
  sawDone : bool;
  sawTerminalEvent : bool;
  sawContent : bool;
  sawImage : bool;
  deliveredBytes : Z;
  completionTokens : Z;
  clientDisconnected : bool;
  stalled : bool;
  interrupted : bool;
  clientErrMsg : string;
  lineCapExceeded : bool
}.

Definition stream_eta (st : streamState) : streamState :=
  MkStream (chunkCount st) (errorChunkCount st) (heldErrorCount st) (unparsedChunks st) (lastErrMsg st) (sawDone st)
    (sawTerminalEvent st) (sawContent st) (sawImage st) (deliveredBytes st) (completionTokens st)
    (clientDisconnected st) (stalled st) (interrupted st) (clientErrMsg st) (lineCapExceeded st).
#[export] Instance upd_clientDisconnected : Updater clientDisconnected := ltac:(derive_updater stream_eta).
#[export] Instance upd_clientErrMsg : Updater clientErrMsg := ltac:(derive_updater stream_eta).
#[export] Instance upd_lineCapExceeded : Updater lineCapExceeded := ltac:(derive_updater stream_eta).

Record streamBreakerVerdict := MkStreamVerdict { failureReason : string; success : bool }.

Definition noVerdict : streamBreakerVerdict := MkStreamVerdict "" false.
Definition charging (reason : string) : streamBreakerVerdict := MkStreamVerdict reason false.

Definition streamDeliveredOutput (st : streamState) : bool :=
  sawContent st || sawImage st || (0 <? deliveredBytes st) || (0 <? completionTokens st).

Definition judgeStreamForBreaker (st : streamState) (errorKind : option ErrorKind) (errMsg : string)
    (circuitBreakerOn : bool) : streamBreakerVerdict :=
  if negb circuitBreakerOn || (interrupted st && negb (lineCapExceeded st)) || clientDisconnected st then noVerdict
  else if bool_decide (errMsg = "") then
    if streamDeliveredOutput st then MkStreamVerdict "" true
    else if 0 <? unparsedChunks st then noVerdict
    else charging "stream completed without delivering content"
  else if lineCapExceeded st then charging "stream frame exceeded the line limit"
  else if negb (from_option providerAtFault false errorKind) then noVerdict
  else if stalled st && negb (sawDone st) && negb (sawTerminalEvent st) then charging "stream stalled"
  else if negb (streamDeliveredOutput st) then charging "stream failed without delivering content"
  else noVerdict.

(** ** 429s *)

(** [peekRateLimit]: nothing is read while classification is off. *)
Definition peekRateLimit (cfg : requestConfig) (resp : Response) : option (rateLimitVerdict * string) :=
  if negb (rate_limit_classify_enabled cfg) then None else Some (classification resp, bodyHead resp).

Definition peekRateLimitVerdict (cfg : requestConfig) (resp : Response) : rateLimitVerdict :=
  from_option fst zeroVerdict (peekRateLimit cfg resp).

Definition classify429Attempt (e : Env) (cfg : requestConfig) (s : session) (candidate : modelCandidate)
    (resp : Response) : session * rateLimitVerdict :=
  let s := s ⟦ rateLimit := zeroVerdict ⟧ in
  if negb (StatusCode resp =? 429) then (s, rateLimit s) else
  match peekRateLimit cfg resp with
  | None => (s, rateLimit s)
  | Some (v, body) =>
      let v := if bool_decide (class v = rateLimitUnknown) && circuitBreakerEnabled cfg
                  && LastSuccessWithin e (circuitBreaker s) (cand_provider candidate)
                       (candidateModelID candidate) (rate_limit_recent_success_window cfg)
               then MkVerdict false rateLimitSaturated "" "" defaultSaturatedRetryAfter 0 false false
               else v in
      let v := v ⟦ classified := true ⟧ ⟦ detail := body ⟧ in
      (s ⟦ rateLimit := v ⟧ ⟦ logData := noteAttemptPhrase (logData s) (phrase v) ⟧, v)
  end.

(** What settling reads at settle time. *)
Definition settleAt (e : Env) (cfg : requestConfig) : settings :=
  MkSettings (now e) (growAfter cfg) (forgetAfter cfg).

(** [st.attemptSlot.settle], a no-op on a nil slot. *)
Definition settleSlot (e : Env) (cfg : requestConfig) (s : session) (o : slotOutcome) : session :=
  match slot s with
  | None => s
  | Some k => s ⟦ pool := settle (settleAt e cfg) (pool s) k o ⟧
  end.

Definition noteCap (e : Env) (s : session) (candidate : modelCandidate) (seen : rateLimitVerdict) : session :=
  s ⟦ capLedger := <[cand_provider candidate :=
        MkCapNote (phrase seen) (candidateModelID candidate) (entitled seen) (now e)]> (capLedger s) ⟧.

Definition judge429AndRecordBreaker (e : Env) (cfg : requestConfig) (s : session) (candidate : modelCandidate)
    (resp : Response) (isFailoverEligible : bool) : session * rateLimitVerdict :=
  let '(s, rl) := if isFailoverEligible then classify429Attempt e cfg s candidate resp else (s, zeroVerdict) in
  let s := if StatusCode resp =? 429 then
             let seen := if isFailoverEligible then rl else peekRateLimitVerdict cfg resp in
             if bool_decide (class seen = rateLimitExhausted) then noteCap e s candidate seen else s
           else s in
  let s := if bool_decide (class rl = rateLimitSaturated) && inflightEnabled cfg then
             let s := settleSlot e cfg s slotUnclean in
             s ⟦ pool := MkWorld (cut (limiter (pool s)) (now e) (cand_provider candidate) (retryAfter rl))
                           (slots (pool s)) (bodies (pool s)) ⟧
           else s in
  (recordBreakerOutcome e cfg s candidate (StatusCode resp) isFailoverEligible rl, rl).

(** ** Specification *)

(** The phase of the candidate's own circuit. *)
Definition candidatePhase (e : Env) (cb : CircuitBreaker) (candidate : modelCandidate) : phase :=
  phaseAt e cb (cand_provider candidate) (candidateModelID candidate).

(** The breaker's invariant, and that a step kept to the candidate's circuit. *)
Definition breaker_sound (cb : CircuitBreaker) : Prop := config_ok cb ∧ store_ok cb.

Record confined (e : Env) (cb cb' : CircuitBreaker) (candidate : modelCandidate) : Prop := {
  confined_others : undisturbed e cb cb' (cand_provider candidate) (candidateModelID candidate);
  confined_config : sameConfig cb' cb;
  confined_sound : breaker_sound cb'
}.

(** The record call a status earns, if it earns one. *)
Definition earned (cfg : requestConfig) (statusCode : Z) (eligible : bool) (rl : rateLimitVerdict) :
    option record_op :=
  if eligible then
    if (statusCode =? 429) && negb (bool_decide (class rl = rateLimitUnknown)) then
      match class rl with
      | rateLimitSaturated => Some Saturate
      | _ => Some (if circuit_breaker_open_on_exhaustion cfg then Exhaust 429 (pinHint rl) (account rl)
                   else Fail true (UpstreamStatus 429 "exhausted, not opened by setting"))
      end
    else if statusCode =? 402 then
      Some (if circuit_breaker_open_on_exhaustion cfg then Exhaust 402 pinHintUntilPaid false
            else Fail false (UpstreamStatus 402 "payment required, not opened by setting"))
    else match breakerRecordAction statusCode with
         | breakerActionFailure =>
             Some (if (statusCode =? 429) && classified rl then Fail true (UpstreamStatus statusCode "unrecognised")
                   else Fail false (UpstreamStatus statusCode ""))
         | breakerActionNoOp => None
         | breakerActionSuccess => Some (Succeed true (MkCause 0 causeSuccess))
         end
  else if negb (servedSuccessStatus statusCode) then Some (Succeed false (UpstreamStatus statusCode causeAlive))
  else None.

Definition performed (e : Env) (cb : CircuitBreaker) (candidate : modelCandidate) (o : option record_op) :
    CircuitBreaker :=
  match o with
  | None => cb
  | Some o => perform e cb (cand_provider candidate) (cand_name candidate) (candidateModelID candidate) o
  end.

Definition servedRecently (e : Env) (cfg : requestConfig) (s : session) (candidate : modelCandidate) : bool :=
  LastSuccessWithin e (circuitBreaker s) (cand_provider candidate) (candidateModelID candidate)
    (rate_limit_recent_success_window cfg).

(** The class an eligible 429 is given. *)
Definition judgedClass (e : Env) (cfg : requestConfig) (s : session) (candidate : modelCandidate) (resp : Response) :
    rateLimitClass :=
  if (StatusCode resp =? 429) && rate_limit_classify_enabled cfg then
    if bool_decide (class (classification resp) = rateLimitUnknown) && circuitBreakerEnabled cfg
       && servedRecently e cfg s candidate then rateLimitSaturated
    else class (classification resp)
  else rateLimitUnknown.

(** The slot of the session's attempt has been released. *)
Definition slotSettled (s : session) : Prop :=
  ∀ k sl, slot s = Some k → slots (pool s) !! k = Some sl → fired sl = true.

(** The three stages of the judgement before the breaker is told. *)
Definition judged (e : Env) (cfg : requestConfig) (s : session) (candidate : modelCandidate) (resp : Response)
    (eligible : bool) : session * rateLimitVerdict :=
  if eligible then classify429Attempt e cfg s candidate resp else (s, zeroVerdict).

Definition ledgered (e : Env) (cfg : requestConfig) (s : session) (candidate : modelCandidate) (resp : Response)
    (eligible : bool) (rl : rateLimitVerdict) : session :=
  if StatusCode resp =? 429 then
    let seen := if eligible then rl else peekRateLimitVerdict cfg resp in
    if bool_decide (class seen = rateLimitExhausted) then noteCap e s candidate seen else s
  else s.

Definition learned (e : Env) (cfg : requestConfig) (s : session) (candidate : modelCandidate) (rl : rateLimitVerdict) :
    session :=
  if bool_decide (class rl = rateLimitSaturated) && inflightEnabled cfg then
    let s := settleSlot e cfg s slotUnclean in
    s ⟦ pool := MkWorld (cut (limiter (pool s)) (now e) (cand_provider candidate) (retryAfter rl))
                  (slots (pool s)) (bodies (pool s)) ⟧
  else s.

(** ** Lemmas *)

Lemma recordBreakerOutcome_performed e cfg s candidate status eligible rl :
  circuitBreakerEnabled cfg = true →
  circuitBreaker (recordBreakerOutcome e cfg s candidate status eligible rl) =
    performed e (circuitBreaker s) candidate (earned cfg status eligible rl).
Proof.
  intros Hon. unfold recordBreakerOutcome, earned. rewrite Hon. cbn [negb].
  destruct eligible; [|by destruct (servedSuccessStatus status)].
  destruct ((status =? 429) && negb (bool_decide (class rl = rateLimitUnknown))) eqn:Hrl.
  - apply andb_true_iff in Hrl as [_ Hcl%negb_true_iff%bool_decide_eq_false].
    unfold recordRateLimitOutcome. destruct (class rl); [done|done|].
    destruct (circuit_breaker_open_on_exhaustion cfg); [|done]. by destruct (account rl).
  - destruct (status =? 402).
    + unfold recordPaymentRequiredOutcome. by destruct (circuit_breaker_open_on_exhaustion cfg).
    + destruct (breakerRecordAction status); [|done|done]. by destruct ((status =? 429) && classified rl).
Qed.

Lemma performed_confined e cb candidate o :
  env_ok e → breaker_sound cb → confined e cb (performed e cb candidate o) candidate.
Proof.
  intros He [Hcfg Hok]. destruct o as [o|]; simpl.
  - destruct (perform_kept e cb (cand_provider candidate) (cand_name candidate) (candidateModelID candidate) o He Hcfg Hok)
      as [Hc Hk].
    split; [apply perform_undisturbed|done|]. split; [by rewrite Hc|done].
  - split; [split; auto|done|done].
Qed.

Lemma performed_phase e cb candidate o :
  env_ok e → breaker_sound cb →
  candidatePhase e (performed e cb candidate o) candidate =
    from_option (fun o => transition (effectiveThreshold cb) (HalfOpenMaxProbes cb) o (candidatePhase e cb candidate))
      (candidatePhase e cb candidate) o.
Proof. intros He [Hcfg Hok]. destruct o as [o|]; [|done]. by apply perform_phase. Qed.

(** The eligible statuses never earn a credit: the success arm is dead. *)
Lemma eligible_not_success cfg status :
  shouldFailover cfg status = true → breakerRecordAction status ≠ breakerActionSuccess.
Proof.
  unfold shouldFailover, breakerRecordAction, statusClientClosedRequest.
  destruct (500 <=? status); [by rewrite orb_true_r|].
  destruct (status =? 429), (status =? 401), (status =? 402), (status =? 403), (status =? 404), (status =? 499); done.
Qed.

Lemma served_not_eligible cfg status : servedSuccessStatus status = true → shouldFailover cfg status = false.
Proof.
  unfold servedSuccessStatus, shouldFailover. intros Hst. bool_to_arith.
  destruct (Z.leb_spec 500 status); [lia|].
  by rewrite !(proj2 (Z.eqb_neq status _)) by lia.
Qed.

Lemma served_earns_nothing cfg status rl : servedSuccessStatus status = true → earned cfg status false rl = None.
Proof. unfold earned. by intros ->. Qed.

(** ** Properties *)

(** What a status earns. Headers alone never credit a provider: a 2xx moves
    nothing, and neither does a 404 or a 499 failover acts on. A provider that
    is merely saturated keeps its phase. Every other failure failover acts on
    counts one failure, or opens the circuit outright when the window or the
    balance behind it is spent and the operator lets one refusal open; only an
    answer failover does not act on, short of a 2xx, credits the provider. All
    of it happens to the candidate's own circuit. *)
Lemma outcome_earned e cfg s candidate status rl :
  env_ok e → breaker_sound (circuitBreaker s) → circuitBreakerEnabled cfg = true →
  let eligible := shouldFailover cfg status in
  let cb := circuitBreaker s in
  let cb' := circuitBreaker (recordBreakerOutcome e cfg s candidate status eligible rl) in
  let T := effectiveThreshold cb in
  let opens := circuit_breaker_open_on_exhaustion cfg in
  confined e cb cb' candidate ∧
  (servedSuccessStatus status = true ∨ status = 404 ∨ status = 499 → cb' = cb) ∧
  candidatePhase e cb' candidate =
    (let p := candidatePhase e cb candidate in
     if eligible then
       if (status =? 404) || (status =? 499) then p
       else if (status =? 429) && bool_decide (class rl = rateLimitSaturated) then p
       else if opens && ((status =? 402) || (status =? 429) && bool_decide (class rl = rateLimitExhausted)) then Dark
       else onFailure T p
     else if servedSuccessStatus status then p
     else onSuccess (HalfOpenMaxProbes cb) p).
Proof.
  intros He Hs Hon eligible cb cb' T opens. unfold cb'. rewrite recordBreakerOutcome_performed by done.
  fold cb. split; [by apply performed_confined|]. split.
  - intros [Hst|[-> | ->]]; [|done|done]. unfold eligible. by rewrite served_not_eligible, served_earns_nothing by done.
  - rewrite performed_phase by done. unfold earned. fold eligible. destruct eligible eqn:Hel;
      [|by destruct (servedSuccessStatus status)].
    pose proof (eligible_not_success _ _ Hel) as Hns. unfold opens.
    destruct (Z.eqb_spec status 429) as [->|H429].
    { destruct (class rl), (circuit_breaker_open_on_exhaustion cfg); cbn; try done; by destruct (classified rl). }
    destruct (Z.eqb_spec status 402) as [->|H402]; [by destruct (circuit_breaker_open_on_exhaustion cfg)|].
    cbn [andb orb]. rewrite andb_false_r. unfold breakerRecordAction, statusClientClosedRequest in *.
    rewrite (proj2 (Z.eqb_neq _ _) H429), (proj2 (Z.eqb_neq _ _) H402) in *.
    destruct (_ || _ || _ || _ || _) eqn:Hf.
    + replace ((status =? 404) || (status =? 499)) with false; [done|]. symmetry.
      destruct (Z.eqb_spec status 404) as [Hx|]; [by rewrite Hx in Hf|].
      destruct (Z.eqb_spec status 499) as [Hx|]; [by rewrite Hx in Hf|done].
    + by destruct ((status =? 404) || (status =? 499)).
Qed.

Lemma outcome_earned_witness :
  let e := env_at (2 * Hour) in
  let cfg := MkConfig true true true true 0 true true true Minute Minute 20 Minute in
  let s := MkSession defaultBreaker start ∅ [] newTrail freshVerdict zeroVerdict None false false false "" in
  let cand := MkCandidate "p" "prov" (Some "m") None in
  candidatePhase e (circuitBreaker (recordBreakerOutcome e cfg s cand 402 true zeroVerdict)) cand = Dark ∧
  circuitBreaker (recordBreakerOutcome e cfg s cand 201 false zeroVerdict) = defaultBreaker.
Proof.
  intros e cfg s cand.
  destruct (outcome_earned e cfg s cand 402 zeroVerdict) as (_ & _ & H1);
    [apply env_at_ok; evaluate|split; [apply defaultBreaker_ok|apply defaultBreaker_store]|reflexivity|].
  destruct (outcome_earned e cfg s cand 201 zeroVerdict) as (_ & H2 & _);
    [apply env_at_ok; evaluate|split; [apply defaultBreaker_ok|apply defaultBreaker_store]|reflexivity|].
  split; [exact H1|apply H2; by left].
Defined.

(** A finished answer is judged by what it delivered. A completion is
    credited exactly when it carried something and charged when it carried
    nothing; one that died after its headers is charged exactly when its kind is
    the provider's to answer for. A stream is credited only if it finished
    cleanly and output reached the caller, and charged only for silence, an
    error or an overflow of the provider's making; a stream its caller left, or
    one the gateway cut short, is neither. *)
Lemma answer_judged e cfg s candidate completed kind empty status st errMsg :
  let s' := recordAnswerOutcome e cfg s candidate completed kind empty status in
  let v := judgeStreamForBreaker st kind errMsg (circuitBreakerEnabled cfg) in
  let op := if negb (circuitBreakerEnabled cfg) then None
            else if completed then Some (if empty then Fail false (MkCause status "response completed without delivering content")
                                         else Succeed true (MkCause 0 causeSuccess))
            else if from_option providerAtFault false kind
                 then Some (Fail false (MkCause status "response failed after headers")) else None in
  circuitBreaker s' = performed e (circuitBreaker s) candidate op ∧
  pool s' = pool s ∧ verdict s' = verdict s ∧
  (success v = true ↔ circuitBreakerEnabled cfg = true ∧ clientDisconnected st = false ∧ errMsg = "" ∧
     (interrupted st = true → lineCapExceeded st = true) ∧ streamDeliveredOutput st = true) ∧
  (success v = true → failureReason v = "") ∧
  (failureReason v ≠ "" → circuitBreakerEnabled cfg = true ∧ clientDisconnected st = false ∧
     (lineCapExceeded st = true ∨
      interrupted st = false ∧
      (errMsg = "" ∧ streamDeliveredOutput st = false ∧ unparsedChunks st ≤ 0 ∨
       errMsg ≠ "" ∧ from_option providerAtFault false kind = true ∧
         (stalled st = true ∨ streamDeliveredOutput st = false)))).
Proof.
  intros s' v op. split_and!.
  - unfold s', op, recordAnswerOutcome, chargeBreaker, creditBreaker.
    destruct (circuitBreakerEnabled cfg), completed, empty, (from_option providerAtFault false kind); done.
  - unfold s', recordAnswerOutcome, chargeBreaker, creditBreaker.
    destruct (circuitBreakerEnabled cfg), completed, empty, (from_option providerAtFault false kind); done.
  - unfold s', recordAnswerOutcome, chargeBreaker, creditBreaker.
    destruct (circuitBreakerEnabled cfg), completed, empty, (from_option providerAtFault false kind); done.
  - unfold v, judgeStreamForBreaker. destruct (circuitBreakerEnabled cfg), (clientDisconnected st),
      (interrupted st), (lineCapExceeded st); cbn; try (split; [done|naive_solver]);
      case_bool_decide; repeat case_match; cbn; naive_solver.
  - unfold v, judgeStreamForBreaker. repeat case_match; done.
  - unfold v, judgeStreamForBreaker.
    destruct (circuitBreakerEnabled cfg), (clientDisconnected st); rewrite ?orb_true_r; try done.
    intros Hf. split; [done|]. split; [done|]. destruct (lineCapExceeded st); [by left|right].
    destruct (interrupted st); [done|]. split; [done|]. cbn in Hf. case_bool_decide as He; [left|right].
    + destruct (streamDeliveredOutput st); [done|]. destruct (Z.ltb_spec 0 (unparsedChunks st)); done.
    + destruct (from_option providerAtFault false kind); [|done]. split; [done|]. split; [done|].
      destruct (stalled st); [by left|right]. by destruct (streamDeliveredOutput st).
Qed.

(** ** The 429 judgement *)

(** What recording an outcome leaves alone. *)
Lemma recordBreakerOutcome_frame e cfg s candidate status eligible rl :
  let s' := recordBreakerOutcome e cfg s candidate status eligible rl in
  pool s' = pool s ∧ capLedger s' = capLedger s ∧ rateLimit s' = rateLimit s ∧ verdict s' = verdict s ∧
  slot s' = slot s ∧ saturationRetried s' = saturationRetried s ∧ serverErrorRetried s' = serverErrorRetried s ∧
  attemptRefused s' = attemptRefused s ∧ openAttempt (logData s') = openAttempt (logData s) ∧
  attempts (logData s') = attempts (logData s).
Proof.
  unfold recordBreakerOutcome, recordRateLimitOutcome, recordPaymentRequiredOutcome.
  repeat case_match; done.
Qed.

Lemma classify429_spec e cfg s candidate resp :
  let '(s', rl) := classify429Attempt e cfg s candidate resp in
  rateLimit s' = rl ∧ class rl = judgedClass e cfg s candidate resp ∧
  pool s' = pool s ∧ capLedger s' = capLedger s ∧ circuitBreaker s' = circuitBreaker s ∧ slot s' = slot s ∧
  (class rl = rateLimitExhausted → rl = (classification resp) ⟦ classified := true ⟧ ⟦ detail := bodyHead resp ⟧).
Proof.
  unfold classify429Attempt, judgedClass, servedRecently, peekRateLimit.
  destruct (StatusCode resp =? 429); [|done]. destruct (rate_limit_classify_enabled cfg); [|done]. cbn.
  destruct (bool_decide (class (classification resp) = rateLimitUnknown)), (circuitBreakerEnabled cfg),
    (LastSuccessWithin e (circuitBreaker s) (cand_provider candidate) (candidateModelID candidate)
       (rate_limit_recent_success_window cfg)); done.
Qed.

Lemma settleSlot_settled e cfg s o : slotSettled (settleSlot e cfg s o).
Proof.
  unfold slotSettled, settleSlot. intros k sl. destruct (slot s) as [k'|] eqn:Hs; [|by rewrite Hs].
  cbn [slot pool update_field upd_pool]. rewrite Hs. intros [= ->]. unfold settle.
  destruct (slots (pool s) !! k) as [sl0|] eqn:Hk; [|by rewrite Hk].
  destruct (fired sl0) eqn:Hf; [by rewrite Hk; intros [= <-]|]. simpl.
  rewrite list_lookup_insert_eq by (by eapply lookup_lt_Some). by intros [= <-].
Qed.

Lemma settleSlot_conserved e cfg s o : conserved (pool s) → conserved (pool (settleSlot e cfg s o)).
Proof. intros Hc. unfold settleSlot. destruct (slot s); [|done]. by apply settle_conserved. Qed.

Lemma settleSlot_frame e cfg s o :
  let s' := settleSlot e cfg s o in
  circuitBreaker s' = circuitBreaker s ∧ capLedger s' = capLedger s ∧ rateLimit s' = rateLimit s ∧
  slot s' = slot s ∧ verdict s' = verdict s ∧ logData s' = logData s ∧
  saturationRetried s' = saturationRetried s ∧ serverErrorRetried s' = serverErrorRetried s ∧
  attemptRefused s' = attemptRefused s.
Proof. intros s'. unfold s', settleSlot. destruct (slot s) eqn:Hs; by rewrite ?Hs. Qed.

(** The cut that follows a saturated 429's settlement. *)
Lemma cut_after_settle wd now id ra :
  conserved wd →
  let wd' := MkWorld (cut (limiter wd) now id ra) (slots wd) (bodies wd) in
  conserved wd' ∧
  ∃ l, limiter wd' = Some l ∧ 1 ≤ limit (window l id) ≤ Z.max 1 (outstanding wd' id).
Proof.
  intros Hc wd'. pose proof (happen_conserved (MkSettings now 0 0) wd (ECut id ra) Hc) as Hc'.
  change (conserved wd') in Hc'. split; [done|]. destruct Hc as (l & Hl & Hw), Hc' as (l' & Hl' & Hw').
  exists l'. split; [done|]. destruct (Hw' id) as [_ <-].
  destruct (cut_window l now id ra) as (l2 & Heq & _ & Hwin). unfold wd' in Hl'. simpl in Hl'.
  rewrite Hl, Heq in Hl'. injection Hl' as <-. rewrite Hwin, decide_True by done.
  destruct (Hw id) as [Hok _]. destruct (cutW_spec now ra _ Hok) as (_ & -> & _ & ->). destruct Hok as [Hlim _ _ _].
  destruct (Z.eqb_spec (limit (window l id)) 0); lia.
Qed.

Lemma judge429_stages e cfg s candidate resp eligible :
  judge429AndRecordBreaker e cfg s candidate resp eligible =
    let rl := (judged e cfg s candidate resp eligible).2 in
    let s1 := (judged e cfg s candidate resp eligible).1 in
    (recordBreakerOutcome e cfg (learned e cfg (ledgered e cfg s1 candidate resp eligible rl) candidate rl)
       candidate (StatusCode resp) eligible rl, rl).
Proof. unfold judge429AndRecordBreaker, judged. by destruct eligible, (classify429Attempt e cfg s candidate resp). Qed.

Lemma judged_spec e cfg s candidate resp eligible :
  let s1 := (judged e cfg s candidate resp eligible).1 in
  let rl := (judged e cfg s candidate resp eligible).2 in
  class rl = (if eligible then judgedClass e cfg s candidate resp else rateLimitUnknown) ∧
  (eligible = true → rateLimit s1 = rl) ∧
  pool s1 = pool s ∧ capLedger s1 = capLedger s ∧ circuitBreaker s1 = circuitBreaker s ∧
  (class rl = rateLimitExhausted → rl = (classification resp) ⟦ classified := true ⟧ ⟦ detail := bodyHead resp ⟧).
Proof.
  unfold judged. destruct eligible; [|cbn; naive_solver]. pose proof (classify429_spec e cfg s candidate resp) as H.
  destruct (classify429Attempt e cfg s candidate resp) as [s1 rl]. naive_solver.
Qed.

Lemma ledgered_frame e cfg s candidate resp eligible rl :
  let s' := ledgered e cfg s candidate resp eligible rl in
  pool s' = pool s ∧ rateLimit s' = rateLimit s ∧ circuitBreaker s' = circuitBreaker s.
Proof. unfold ledgered. by repeat case_match. Qed.

Lemma learned_frame e cfg s candidate rl :
  let s' := learned e cfg s candidate rl in
  capLedger s' = capLedger s ∧ rateLimit s' = rateLimit s ∧ circuitBreaker s' = circuitBreaker s.
Proof.
  unfold learned. destruct (_ && _); [|done]. cbv zeta. cbn [capLedger rateLimit circuitBreaker update_field upd_pool].
  by destruct (settleSlot_frame e cfg s slotUnclean) as (-> & -> & -> & _).
Qed.

Lemma learned_pool e cfg s candidate rl :
  conserved (pool s) →
  let s' := learned e cfg s candidate rl in
  conserved (pool s') ∧
  (if bool_decide (class rl = rateLimitSaturated) && inflightEnabled cfg then
     slotSettled s' ∧
     ∃ l, limiter (pool s') = Some l ∧
       1 ≤ limit (window l (cand_provider candidate)) ≤ Z.max 1 (outstanding (pool s') (cand_provider candidate))
   else pool s' = pool s).
Proof.
  intros Hc. unfold learned. destruct (_ && _); [|done]. cbv zeta.
  pose proof (settleSlot_conserved e cfg s slotUnclean Hc) as Hc1.
  pose proof (settleSlot_settled e cfg s slotUnclean) as Hs. set (s1 := settleSlot e cfg s slotUnclean) in *.
  destruct (cut_after_settle (pool s1) (now e) (cand_provider candidate) (retryAfter rl) Hc1) as [? ?]. done.
Qed.

Lemma ledgered_note e cfg s candidate resp eligible id' :
  let rl := (judged e cfg s candidate resp eligible).2 in
  let s1 := (judged e cfg s candidate resp eligible).1 in
  capLedger (ledgered e cfg s1 candidate resp eligible rl) !! id' =
    if decide (id' = cand_provider candidate ∧ StatusCode resp = 429 ∧ rate_limit_classify_enabled cfg = true ∧
               class (classification resp) = rateLimitExhausted)
    then Some (MkCapNote (phrase (classification resp)) (candidateModelID candidate)
                 (entitled (classification resp)) (now e))
    else capLedger s !! id'.
Proof.
  intros rl s1. destruct (judged_spec e cfg s candidate resp eligible) as (Hcl & _ & _ & Hled & _ & Hex).
  fold rl s1 in Hcl, Hled, Hex. unfold ledgered.
  destruct (Z.eqb_spec (StatusCode resp) 429) as [H429|H429]; [|rewrite decide_False by naive_solver; by rewrite Hled].
  set (seen := if eligible then rl else _).
  assert (class seen = rateLimitExhausted ↔
    rate_limit_classify_enabled cfg = true ∧ class (classification resp) = rateLimitExhausted) as Hseen.
  { unfold seen, peekRateLimitVerdict, peekRateLimit. destruct eligible.
    - rewrite Hcl. unfold judgedClass. rewrite H429. simpl.
      destruct (rate_limit_classify_enabled cfg); [|naive_solver].
      destruct (class (classification resp)), (circuitBreakerEnabled cfg), (servedRecently e cfg s candidate); naive_solver.
    - destruct (rate_limit_classify_enabled cfg); simpl; naive_solver. }
  case_bool_decide as Hb.
  - destruct (proj1 Hseen Hb) as [Hon Hc]. unfold noteCap. cbn [capLedger update_field upd_capLedger].
    assert (phrase seen = phrase (classification resp) ∧ entitled seen = entitled (classification resp)) as [-> ->].
    { unfold seen, peekRateLimitVerdict, peekRateLimit in *. destruct eligible; [by rewrite (Hex Hb)|by rewrite Hon]. }
    destruct (decide (id' = cand_provider candidate)) as [->|Hne].
    + rewrite lookup_insert_eq, decide_True by done. done.
    + rewrite lookup_insert_ne, decide_False by naive_solver. by rewrite Hled.
  - rewrite decide_False by naive_solver. by rewrite Hled.
Qed.

(** A saturated verdict is only ever drawn from an eligible 429, and moves no phase. *)
Lemma saturated_verdict_phase e cfg s s' candidate resp (eligible : bool) rl :
  env_ok e → breaker_sound (circuitBreaker s) → circuitBreaker s' = circuitBreaker s →
  class rl = (if eligible then judgedClass e cfg s candidate resp else rateLimitUnknown) →
  class rl = rateLimitSaturated →
  candidatePhase e (circuitBreaker (recordBreakerOutcome e cfg s' candidate (StatusCode resp) eligible rl)) candidate =
    candidatePhase e (circuitBreaker s) candidate.
Proof.
  intros He Hs Heq Hcl Hsat. destruct (circuitBreakerEnabled cfg) eqn:Hon.
  - rewrite recordBreakerOutcome_performed, Heq, performed_phase by done. unfold earned.
    rewrite Hsat in *. destruct eligible; [|done]. unfold judgedClass in Hcl.
    by destruct (StatusCode resp =? 429).
  - unfold recordBreakerOutcome. rewrite Hon. simpl. by rewrite Heq.
Qed.

(** What a 429 establishes, and what it teaches. The verdict is the
    classifier's, except that one it could not read, from a circuit that served
    within the window, is busy and not spent; with classification off, or a 429
    failover may not act on, nothing is claimed. A provider's spent window is
    noted on the ledger in either case, on its own entry only. A busy verdict
    releases the attempt's slot before the cut, so the provider's allowance is
    capped at the load that fit without the refused request, no slot is lost or
    released twice, and the circuit's phase does not move; any other verdict
    leaves the learner alone. *)
Lemma judge429_spec e cfg s candidate resp :
  env_ok e → breaker_sound (circuitBreaker s) → conserved (pool s) →
  let eligible := shouldFailover cfg (StatusCode resp) in
  let id := cand_provider candidate in
  let s' := (judge429AndRecordBreaker e cfg s candidate resp eligible).1 in
  let rl := (judge429AndRecordBreaker e cfg s candidate resp eligible).2 in
  class rl = (if eligible then judgedClass e cfg s candidate resp else rateLimitUnknown) ∧
  (eligible = true → rateLimit s' = rl) ∧
  (∀ id', capLedger s' !! id' =
     if decide (id' = id ∧ StatusCode resp = 429 ∧ rate_limit_classify_enabled cfg = true ∧
                class (classification resp) = rateLimitExhausted)
     then Some (MkCapNote (phrase (classification resp)) (candidateModelID candidate)
                  (entitled (classification resp)) (now e))
     else capLedger s !! id') ∧
  conserved (pool s') ∧
  (if bool_decide (class rl = rateLimitSaturated) && inflightEnabled cfg then
     slotSettled s' ∧ candidatePhase e (circuitBreaker s') candidate = candidatePhase e (circuitBreaker s) candidate ∧
     ∃ l, limiter (pool s') = Some l ∧ 1 ≤ limit (window l id) ≤ Z.max 1 (outstanding (pool s') id)
   else pool s' = pool s).
Proof.
  intros He Hs Hc eligible id. rewrite judge429_stages. cbv zeta. cbn [fst snd].
  destruct (judged_spec e cfg s candidate resp eligible) as (Hcl & Hrl & Hpool & Hled & Hcb & Hex).
  pose proof (ledgered_note e cfg s candidate resp eligible) as Hnote. cbv zeta in Hnote.
  set (rl := (judged e cfg s candidate resp eligible).2) in *. set (s1 := (judged e cfg s candidate resp eligible).1) in *.
  destruct (ledgered_frame e cfg s1 candidate resp eligible rl) as (Hp2 & Hr2 & Hb2).
  set (s2 := ledgered e cfg s1 candidate resp eligible rl) in *.
  destruct (learned_frame e cfg s2 candidate rl) as (Hl3 & Hr3 & Hb3).
  destruct (learned_pool e cfg s2 candidate rl) as [Hc3 Hp3]; [congruence|].
  set (s3 := learned e cfg s2 candidate rl) in *.
  destruct (recordBreakerOutcome_frame e cfg s3 candidate (StatusCode resp) eligible rl)
    as (Hp4 & Hl4 & Hr4 & _ & Hs4 & _).
  split; [done|]. split; [intros Hel; rewrite Hr4, Hr3, Hr2; by apply Hrl|].
  split; [intros id'; by rewrite Hl4, Hl3, Hnote|]. rewrite Hp4. split; [done|].
  destruct (bool_decide (class rl = rateLimitSaturated) && inflightEnabled cfg) eqn:Hsat; [|congruence].
  apply andb_true_iff in Hsat as [Hsat%bool_decide_eq_true _]. destruct Hp3 as [Hset Hlim].
  split; [|split; [eapply saturated_verdict_phase; [done|done|congruence|done|done]|done]].
  unfold slotSettled. rewrite Hs4, Hp4. exact Hset.
Qed.

Lemma judge429_spec_witness :
  let e := env_at (2 * Hour) in
  let cfg := MkConfig true true true true 0 true true true Minute Minute 20 Minute in
  let busy := MkVerdict false rateLimitSaturated "slow down" "" (2 * Second) 0 false false in
  let s := MkSession defaultBreaker twoAttempts ∅ [] newTrail freshVerdict zeroVerdict (Some 0%nat) false false false "" in
  let cand := MkCandidate "p" "prov" (Some "m") None in
  let resp := MkResponse 429 (fun _ => "") busy "slow down" in
  let r := judge429AndRecordBreaker e cfg s cand resp true in
  class r.2 = rateLimitSaturated ∧ slotSettled r.1 ∧ conserved (pool r.1).
Proof.
  intros e cfg busy s cand resp r.
  assert (conserved twoAttempts) as Hc by (apply reachable_conserved; unfold twoAttempts, foldl; repeat apply reach_step; apply reach_start).
  destruct (judge429_spec e cfg s cand resp) as (H1 & _ & _ & H4 & H5);
    [apply env_at_ok; evaluate|split; [apply defaultBreaker_ok|apply defaultBreaker_store]|exact Hc|].
  split; [exact H1|]. split; [exact (proj1 H5)|exact H4].
Defined.
