(* ===== verification/StreamEnd.v ===== *)
(** * How a stream ended (internal/proxy/stream_finalize.go)

    What the read loop left behind - the accumulated state, the reader's own
    error, the watchdog and the shutdown flag - turned into one diagnosis: the
    row's message and kind, whether a missing sentinel is supplied, and the one
    frame the client may still be owed. The sanitizer, the content fence and the
    classification of a provider's error text are parameters. *)

From S2P Require Import Prelude Circuit Cooldown CircuitEvents Breaker BreakerGate BreakerPhases.
From S2P Require Import Errors Verdict Inflight AttemptTrail Outcome.

Definition progressiveChunkThreshold : Z := 50.
Definition progressiveStallMultiplier : Z := 3.

Definition lineCapErrMsg : string :=
  "stream failed: a frame exceeded the gateway's 32 MiB line limit".

(** The reader's terminal error; [isLineCap] is [isLineCapErr] of it. *)
Record scanError := MkScanError { scan_err : error; isLineCap : bool }.

Definition isLineCapErr (scanErr : option scanError) : bool := from_option isLineCap false scanErr.

Record streamOptions := MkOptions {
  terminalEvent : option string;      (* a native passthrough's terminal event *)
  cancelOrigin : string;
  streamStallTimeout : Duration
}.

Definition humanReadableCancelOrigin (origin : string) : string :=
  if bool_decide (origin = "client_disconnect") then "client disconnected"
  else if bool_decide (origin = "failover_timeout") then "upstream request timed out"
  else if bool_decide (origin = "retry_timeout") then "param-strip retry timed out"
  else if bool_decide (origin = "hedge_superseded") then "superseded by a faster hedged attempt"
  else origin.

(** A stream's diagnosis: the state as amended, the message, the kind of the
    row and the kind the provider's own frame was given. *)
Record diagnosis := MkDiagnosis {
  diag_state : streamState;
  diag_msg : string;
  diag_kind : option ErrorKind;
  diag_upstream : option ErrorKind
}.

Definition diagnosis_eta (d : diagnosis) : diagnosis :=
  MkDiagnosis (diag_state d) (diag_msg d) (diag_kind d) (diag_upstream d).
#[export] Instance upd_diag_state : Updater diag_state := ltac:(derive_updater diagnosis_eta).
#[export] Instance upd_diag_msg : Updater diag_msg := ltac:(derive_updater diagnosis_eta).
#[export] Instance upd_diag_kind : Updater diag_kind := ltac:(derive_updater diagnosis_eta).

Section StreamEnd.
Context (sanitize fenceUpstream : string → string) (classifyFrame : string → option ErrorKind).

(** The in-stream error frame. *)
Definition frameDiagnosis (st : streamState) : diagnosis :=
  if bool_decide (lastErrMsg st = "") then MkDiagnosis st "" None None
  else
    let errMsg := sanitize (lastErrMsg st) in
    let kind := classifyFrame errMsg in
    MkDiagnosis st (fenceUpstream errMsg) kind kind.

(** The reader's error, read only when no frame explains the failure. *)
Definition scanDiagnosis (scanErr : option scanError) (opts : streamOptions) (d : diagnosis) : diagnosis :=
  match scanErr with
  | None => d
  | Some se =>
      if negb (bool_decide (diag_msg d = "")) then d
      else if isLineCap se then
        d ⟦ diag_msg := lineCapErrMsg ⟧
          ⟦ diag_state := (diag_state d) ⟦ clientErrMsg := lineCapErrMsg ⟧ ⟦ lineCapExceeded := true ⟧ ⟧
          ⟦ diag_kind := Some KindProviderError ⟧
      else if isCanceled (scan_err se) then
        d ⟦ diag_state := (diag_state d) ⟦ clientDisconnected := true ⟧ ⟧
      else if isDeadline (scan_err se) then
        if bool_decide (cancelOrigin opts = "retry_timeout") then
          d ⟦ diag_msg := "stream interrupted: param-strip retry timed out" ⟧ ⟦ diag_kind := Some KindRetryTimeout ⟧
        else if bool_decide (cancelOrigin opts = "failover_timeout") then
          d ⟦ diag_msg := "stream interrupted: upstream request timed out" ⟧ ⟦ diag_kind := Some KindFailoverTimeout ⟧
        else
          d ⟦ diag_msg := "stream interrupted: " +:+ humanReadableCancelOrigin (cancelOrigin opts) ⟧
            ⟦ diag_kind := Some (cancelOriginToKind (cancelOrigin opts)) ⟧
      else
        d ⟦ diag_msg := fenceUpstream (errString (Some (scan_err se))) ⟧
          ⟦ diag_state := (diag_state d) ⟦ clientErrMsg := "stream failed: upstream connection error" ⟧ ⟧
          ⟦ diag_kind := Some KindProviderError ⟧
  end.

Definition goneDiagnosis (d : diagnosis) : diagnosis :=
  if clientDisconnected (diag_state d)
  then d ⟦ diag_msg := "client disconnected" ⟧ ⟦ diag_kind := Some KindClientDisconnect ⟧
  else d.

Definition stallMessage (st : streamState) (opts : streamOptions) : string :=
  let effectiveStall := if progressiveChunkThreshold <? chunkCount st
                        then wrap64 (streamStallTimeout opts * progressiveStallMultiplier)
                        else streamStallTimeout opts in
  "stream stalled: no data for " +:+ Duration_String effectiveStall.

Definition cutDiagnosis (opts : streamOptions) (d : diagnosis) : diagnosis :=
  let st := diag_state d in
  let cutShort := negb (sawDone st) && negb (sawTerminalEvent st) && negb (clientDisconnected st)
                  && negb (lineCapExceeded st) in
  if interrupted st && cutShort then
    let errMsg := "stream interrupted: gateway restarting" in
    d ⟦ diag_msg := errMsg ⟧ ⟦ diag_state := st ⟦ clientErrMsg := errMsg ⟧ ⟧ ⟦ diag_kind := Some KindInternal ⟧
  else if stalled st && cutShort then
    let errMsg := stallMessage st opts in
    d ⟦ diag_msg := errMsg ⟧ ⟦ diag_state := st ⟦ clientErrMsg := errMsg ⟧ ⟧ ⟦ diag_kind := Some KindProviderTimeout ⟧
  else d.

Definition deriveStreamError (st : streamState) (scanErr : option scanError) (opts : streamOptions) : diagnosis :=
  let st := if isLineCapErr scanErr then st ⟦ lineCapExceeded := true ⟧ else st in
  cutDiagnosis opts (goneDiagnosis (scanDiagnosis scanErr opts (frameDiagnosis st))).

(** The opening of [finalizeStream]: a stream without its sentinel, and whether
    the sentinel is supplied. *)
Definition closeStream (st : streamState) (scanErr : option scanError) (opts : streamOptions) : diagnosis * bool :=
  let d := deriveStreamError st scanErr opts in
  let st := diag_state d in
  if negb (bool_decide (diag_msg d = "")) || sawDone st then (d, false)
  else match terminalEvent opts with
  | Some event =>
      if sawTerminalEvent st then (d, false)
      else (d ⟦ diag_msg := "stream truncated: upstream closed before " +:+ event ⟧
              ⟦ diag_kind := Some KindProviderError ⟧, false)
  | None =>
      if negb (clientDisconnected st) && negb (from_option (fun _ => true) false scanErr) && (0 <? chunkCount st) then (d, true)
      else (d ⟦ diag_msg := "stream truncated: upstream closed connection without [DONE] sentinel" ⟧
              ⟦ diag_kind := Some KindProviderError ⟧, false)
  end.
End StreamEnd.

(** The frame [writeTerminalError] owes the client: none once it has seen an
    error or an ending, or left. *)
Definition terminalFrame (mask : string → string) (d : diagnosis) : option string :=
  let st := diag_state d in
  if bool_decide (diag_msg d = "") || clientDisconnected st || sawDone st || sawTerminalEvent st
     || (heldErrorCount st <? errorChunkCount st) then None
  else Some (mask (if bool_decide (clientErrMsg st = "") then diag_msg d else clientErrMsg st)).

(** ** Specification *)

(** Why a stream ended, most telling cause first. *)
Inductive streamCause :=
| CauseGone | CauseRestart | CauseStall | CauseFrame | CauseOverflow | CauseExpired | CauseBroken
| CauseTruncated | CauseFinished.

#[export] Instance streamCause_eq_dec : EqDecision streamCause.
Proof. solve_decision. Defined.

Definition causeOf (st : streamState) (scanErr : option scanError) (opts : streamOptions) : streamCause :=
  let framed := negb (bool_decide (lastErrMsg st = "")) in
  let overflow := isLineCapErr scanErr in
  let cancelled := from_option (fun se => isCanceled (scan_err se)) false scanErr in
  let open := negb (sawDone st) && negb (sawTerminalEvent st) && negb overflow in
  if clientDisconnected st || (negb framed && negb overflow && cancelled) then CauseGone
  else if interrupted st && open then CauseRestart
  else if stalled st && open then CauseStall
  else if framed then CauseFrame
  else match scanErr with
  | Some se => if isLineCap se then CauseOverflow else if isDeadline (scan_err se) then CauseExpired else CauseBroken
  | None =>
      if sawDone st then CauseFinished
      else if from_option (fun _ => sawTerminalEvent st) (0 <? chunkCount st) (terminalEvent opts)
      then CauseFinished else CauseTruncated
  end.

(** The row's message and kind for a cause. *)
Definition rowOf (sanitize fenceUpstream : string → string) (classifyFrame : string → option ErrorKind)
    (st : streamState) (scanErr : option scanError) (opts : streamOptions) (c : streamCause) :
    string * option ErrorKind :=
  match c with
  | CauseGone => ("client disconnected", Some KindClientDisconnect)
  | CauseRestart => ("stream interrupted: gateway restarting", Some KindInternal)
  | CauseStall => (stallMessage st opts, Some KindProviderTimeout)
  | CauseFrame => (fenceUpstream (sanitize (lastErrMsg st)), classifyFrame (sanitize (lastErrMsg st)))
  | CauseOverflow => (lineCapErrMsg, Some KindProviderError)
  | CauseExpired =>
      ("stream interrupted: " +:+ humanReadableCancelOrigin (cancelOrigin opts),
       Some (cancelOriginToKind (cancelOrigin opts)))
  | CauseBroken =>
      (fenceUpstream (errString (scan_err <$> scanErr)), Some KindProviderError)
  | CauseTruncated =>
      ("stream truncated: upstream closed " +:+
         from_option (fun event => "before " +:+ event) "connection without [DONE] sentinel" (terminalEvent opts),
       Some KindProviderError)
  | CauseFinished => ("", None)
  end.

(** Whose doing it was, for the breaker. *)
Definition chargeable (c : streamCause) (kind : option ErrorKind) (st : streamState) (overflow : bool) : option string :=
  match c with
  | CauseGone | CauseExpired => None
  | CauseRestart => None
  | CauseFinished =>
      if streamDeliveredOutput st || (0 <? unparsedChunks st) || interrupted st then None
      else Some "stream completed without delivering content"
  | CauseStall => Some "stream stalled"
  | CauseOverflow => Some "stream frame exceeded the line limit"
  | CauseFrame | CauseBroken | CauseTruncated =>
      if overflow then Some "stream frame exceeded the line limit"
      else if negb (from_option providerAtFault false kind) || interrupted st then None
      else if stalled st && negb (sawDone st) && negb (sawTerminalEvent st) then Some "stream stalled"
      else if streamDeliveredOutput st then None else Some "stream failed without delivering content"
  end.

(** What diagnosing leaves of the state: only the two flags it decides. *)
Record sameStream (st st' : streamState) : Prop := {
  same_chunks : chunkCount st' = chunkCount st;
  same_done : sawDone st' = sawDone st;
  same_terminal : sawTerminalEvent st' = sawTerminalEvent st;
  same_stalled : stalled st' = stalled st;
  same_interrupted : interrupted st' = interrupted st;
  same_unparsed : unparsedChunks st' = unparsedChunks st;
  same_delivered : streamDeliveredOutput st' = streamDeliveredOutput st
}.

(** The diagnosis before a missing sentinel is looked at. *)
Definition firstCause (st : streamState) (scanErr : option scanError) : option streamCause :=
  let framed := negb (bool_decide (lastErrMsg st = "")) in
  let overflow := isLineCapErr scanErr in
  let cancelled := from_option (fun se => isCanceled (scan_err se)) false scanErr in
  let open := negb (sawDone st) && negb (sawTerminalEvent st) && negb overflow in
  if clientDisconnected st || (negb framed && negb overflow && cancelled) then Some CauseGone
  else if interrupted st && open then Some CauseRestart
  else if stalled st && open then Some CauseStall
  else if framed then Some CauseFrame
  else match scanErr with
  | Some se => Some (if isLineCap se then CauseOverflow else if isDeadline (scan_err se) then CauseExpired else CauseBroken)
  | None => None
  end.

Definition clientNote (c : streamCause) (st : streamState) (opts : streamOptions) : option string :=
  match c with
  | CauseRestart => Some "stream interrupted: gateway restarting"
  | CauseStall => Some (stallMessage st opts)
  | CauseOverflow => Some lineCapErrMsg
  | CauseBroken => Some "stream failed: upstream connection error"
  | _ => None
  end.


(** ** Lemmas *)

Section Lemmas.
Context (sanitize fenceUpstream : string → string) (classifyFrame : string → option ErrorKind).

Lemma readable_origin o :
  (if bool_decide (o = "retry_timeout") then ("stream interrupted: param-strip retry timed out", Some KindRetryTimeout)
   else if bool_decide (o = "failover_timeout") then ("stream interrupted: upstream request timed out", Some KindFailoverTimeout)
   else ("stream interrupted: " +:+ humanReadableCancelOrigin o, Some (cancelOriginToKind o))) =
  ("stream interrupted: " +:+ humanReadableCancelOrigin o, Some (cancelOriginToKind o)).
Proof. unfold humanReadableCancelOrigin, cancelOriginToKind. repeat case_bool_decide; simplify_eq; done. Qed.

(** The frame and the reader, before anything overrides them. *)
Lemma scan_spec st scanErr opts :
  (∀ s, s ≠ "" → fenceUpstream (sanitize s) ≠ "") →
  let d := scanDiagnosis fenceUpstream scanErr opts (frameDiagnosis sanitize fenceUpstream classifyFrame st) in
  let framed := negb (bool_decide (lastErrMsg st = "")) in
  let cancelled := from_option (fun se => isCanceled (scan_err se)) false scanErr in
  sameStream st (diag_state d) ∧
  clientDisconnected (diag_state d) = clientDisconnected st || (negb framed && negb (isLineCapErr scanErr) && cancelled) ∧
  lineCapExceeded (diag_state d) = lineCapExceeded st || (negb framed && isLineCapErr scanErr) ∧
  (clientDisconnected (diag_state d) = false →
   clientErrMsg (diag_state d) =
     (if framed then clientErrMsg st
      else match scanErr with
      | Some se => default (clientErrMsg st)
                     (clientNote (if isLineCap se then CauseOverflow
                                  else if isDeadline (scan_err se) then CauseExpired else CauseBroken) st opts)
      | None => clientErrMsg st
      end) ∧
   (diag_msg d, diag_kind d) =
     if framed then rowOf sanitize fenceUpstream classifyFrame st scanErr opts CauseFrame
     else match scanErr with
     | Some se => rowOf sanitize fenceUpstream classifyFrame st scanErr opts
                    (if isLineCap se then CauseOverflow else if isDeadline (scan_err se) then CauseExpired else CauseBroken)
     | None => ("", None)
     end).
Proof.
  intros Hkeep. unfold frameDiagnosis. case_bool_decide as Hm; cbv zeta; cbn [negb andb orb].
  - unfold scanDiagnosis. destruct scanErr as [[se lc]|]; cbn; rewrite ?orb_false_r; [|done].
    destruct lc; cbn; rewrite ?orb_true_r, ?orb_false_r; [done|].
    destruct (isCanceled se); cbn; rewrite ?orb_true_r, ?orb_false_r; [done|].
    destruct (isDeadline se); [|done]. pose proof (readable_origin (cancelOrigin opts)) as Ho.
    revert Ho. repeat case_bool_decide; cbn; intros Ho; split_and!; done || (intros _; split; [done|exact Ho]).
  - unfold scanDiagnosis. specialize (Hkeep _ Hm). cbn. rewrite bool_decide_false by done. cbn. rewrite !orb_false_r.
    by destruct scanErr as [[se lc]|].
Qed.

Lemma stallMessage_same st st' opts : sameStream st st' → stallMessage st' opts = stallMessage st opts.
Proof. intros Hs. unfold stallMessage. by rewrite (same_chunks _ _ Hs). Qed.

Lemma derive_spec st scanErr opts :
  (∀ s, s ≠ "" → fenceUpstream (sanitize s) ≠ "") → lineCapExceeded st = false → clientErrMsg st = "" →
  let d := deriveStreamError sanitize fenceUpstream classifyFrame st scanErr opts in
  let c := firstCause st scanErr in
  sameStream st (diag_state d) ∧
  clientDisconnected (diag_state d) = bool_decide (c = Some CauseGone) ∧
  lineCapExceeded (diag_state d) = isLineCapErr scanErr ∧
  (diag_msg d, diag_kind d) = from_option (rowOf sanitize fenceUpstream classifyFrame st scanErr opts) ("", None) c ∧
  (c ≠ Some CauseGone → clientErrMsg (diag_state d) = default "" (c ≫= fun c => clientNote c st opts)).
Proof.
  intros Hkeep Hlc Hce. unfold deriveStreamError. cbv zeta.
  set (st1 := if isLineCapErr scanErr then _ else st).
  assert (sameStream st st1 ∧ clientDisconnected st1 = clientDisconnected st ∧ lastErrMsg st1 = lastErrMsg st ∧
          lineCapExceeded st1 = isLineCapErr scanErr ∧ clientErrMsg st1 = "") as (H1 & H2 & H3 & H4 & H5).
  { unfold st1. destruct (isLineCapErr scanErr); done. }
  clearbody st1. destruct (scan_spec st1 scanErr opts Hkeep) as (Hs & Hgone & Hcap & Hrow).
  set (d0 := scanDiagnosis _ _ _ _) in *. clearbody d0.
  assert (sameStream st (diag_state d0)) as Hs0 by (destruct H1, Hs; split; congruence).
  rewrite H2, H3 in Hgone. rewrite H4 in Hcap.
  replace (isLineCapErr scanErr || _) with (isLineCapErr scanErr) in Hcap
    by (destruct (isLineCapErr scanErr), (bool_decide (lastErrMsg st1 = "")); done).
  unfold goneDiagnosis. destruct (clientDisconnected (diag_state d0)) eqn:Hcd.
  - assert (firstCause st scanErr = Some CauseGone) as -> by (unfold firstCause; by rewrite <- Hgone).
    unfold cutDiagnosis. cbn. rewrite Hcd, !andb_false_r. done.
  - destruct (Hrow eq_refl) as [Hnote Hpair]. clear Hrow.
    assert (firstCause st scanErr =
      if interrupted st && (negb (sawDone st) && negb (sawTerminalEvent st) && negb (isLineCapErr scanErr)) then Some CauseRestart
      else if stalled st && (negb (sawDone st) && negb (sawTerminalEvent st) && negb (isLineCapErr scanErr)) then Some CauseStall
      else if negb (bool_decide (lastErrMsg st = "")) then Some CauseFrame
      else match scanErr with
      | Some se => Some (if isLineCap se then CauseOverflow else if isDeadline (scan_err se) then CauseExpired else CauseBroken)
      | None => None
      end) as -> by (unfold firstCause; by rewrite <- Hgone).
    unfold cutDiagnosis. rewrite Hcd, Hcap, (same_done _ _ Hs0), (same_terminal _ _ Hs0), (same_stalled _ _ Hs0),
      (same_interrupted _ _ Hs0), (stallMessage_same _ _ opts Hs0). cbn [negb andb]. rewrite andb_true_r.
    destruct (interrupted st && _); [split_and!; try done; destruct Hs0; by split|].
    destruct (stalled st && _); [split_and!; try done; destruct Hs0; by split|].
    split; [done|]. rewrite Hcd, Hcap, Hpair, Hnote, H3, H5.
    destruct (negb (bool_decide (lastErrMsg st = ""))); [split_and!; try done; cbn; by rewrite H3|].
    destruct scanErr as [[se lc]|]; [|done]. cbn [isLineCap scan_err].
    destruct lc, (isDeadline se); split_and!; done.
Qed.

(** The whole diagnosis, the missing sentinel included. *)
Lemma close_spec st scanErr opts :
  (∀ s, s ≠ "" → fenceUpstream (sanitize s) ≠ "") → (∀ s, s ≠ "" → fenceUpstream s ≠ "") →
  (∀ se, scanErr = Some se → text (scan_err se) ≠ "") →
  lineCapExceeded st = false → clientErrMsg st = "" →
  let d := (closeStream sanitize fenceUpstream classifyFrame st scanErr opts).1 in
  let c := causeOf st scanErr opts in
  sameStream st (diag_state d) ∧
  clientDisconnected (diag_state d) = bool_decide (c = CauseGone) ∧
  lineCapExceeded (diag_state d) = isLineCapErr scanErr ∧
  (diag_msg d, diag_kind d) = rowOf sanitize fenceUpstream classifyFrame st scanErr opts c ∧
  (c ≠ CauseGone → clientErrMsg (diag_state d) = default "" (clientNote c st opts)) ∧
  ((closeStream sanitize fenceUpstream classifyFrame st scanErr opts).2 = true ↔
     c = CauseFinished ∧ sawDone st = false ∧ terminalEvent opts = None) ∧
  (diag_msg d = "" ↔ c = CauseFinished).
Proof.
  intros Hkeep Hfence Htext Hlc Hce. destruct (derive_spec st scanErr opts Hkeep Hlc Hce) as (Hs & Hgone & Hcap & Hpair & Hnote).
  assert (causeOf st scanErr opts = default (if sawDone st then CauseFinished
      else if from_option (fun _ => sawTerminalEvent st) (0 <? chunkCount st) (terminalEvent opts)
      then CauseFinished else CauseTruncated) (firstCause st scanErr)) as ->.
  { unfold causeOf, firstCause. destruct scanErr as [[se lc]|]; by repeat case_match. }
  unfold closeStream. set (d := deriveStreamError _ _ _ _ _ _) in *. clearbody d.
  destruct (firstCause st scanErr) as [c|] eqn:Hc.
  - assert (c ≠ CauseFinished ∧ diag_msg d ≠ "") as [Hcf Hne].
    { cbn in Hpair. apply (f_equal fst) in Hpair. cbn in Hpair. rewrite Hpair. revert Hc. clear Hgone Hnote Hpair. unfold firstCause. cbv zeta.
      destruct (_ || _); [by intros [= <-]|]. destruct (_ && _); [by intros [= <-]|]. destruct (_ && _); [by intros [= <-]|].
      case_bool_decide as Hf; cbn [negb]; [|intros [= <-]; split; [done|by apply Hkeep]].
      destruct scanErr as [se|]; [|done]. intros [= <-].
      destruct (isLineCap se), (isDeadline (scan_err se)); split; try done. by apply Hfence, Htext. }
    rewrite bool_decide_false by done. cbn [negb orb fst snd default from_option].
    assert (clientDisconnected (diag_state d) = bool_decide (c = CauseGone)) as Hg'.
    { rewrite Hgone. apply bool_decide_ext. naive_solver. }
    assert (c ≠ CauseGone → clientErrMsg (diag_state d) = default "" (clientNote c st opts)) as Hn'.
    { intros Hg. apply Hnote. congruence. }
    split_and!; done || naive_solver.
  - cbn in Hpair. injection Hpair as Hm Hk. rewrite Hm, bool_decide_true by done. cbn [negb orb].
    assert (scanErr = None) as ->.
    { revert Hc. unfold firstCause. cbv zeta. destruct (_ || _); [done|]. destruct (_ && _); [done|].
      destruct (_ && _); [done|]. destruct (negb _); [done|]. by destruct scanErr. }
    cbn [from_option option_rect negb]. cbn in Hgone. rewrite bool_decide_false in Hgone by done. rewrite (same_done _ _ Hs), (same_terminal _ _ Hs), (same_chunks _ _ Hs), Hgone.
    specialize (Hnote ltac:(done)). cbn in Hnote.
    destruct (sawDone st); cbn [default from_option].
    { cbn [fst snd]. split_and!; try done; [by rewrite Hm, Hk|naive_solver]. }
    destruct (terminalEvent opts) as [ev|] eqn:Hev; cbn [from_option option_rect].
    + destruct (sawTerminalEvent st); cbn [fst snd]; split_and!; try done; try (by rewrite ?Hm, ?Hk); try naive_solver;
        first [by unfold rowOf; rewrite Hev | by rewrite Hev | destruct Hs; by split].
    + cbn [negb andb]. destruct (0 <? chunkCount st); cbn [fst snd]; split_and!; try done; try (by rewrite ?Hm, ?Hk); try naive_solver;
        first [by unfold rowOf; rewrite Hev | by rewrite Hev | destruct Hs; by split].
Qed.
End Lemmas.

(** What a cause says of the stream. *)
Lemma cause_facts st scanErr opts :
  let overflow := isLineCapErr scanErr in
  match causeOf st scanErr opts with
  | CauseRestart => overflow = false
  | CauseStall => overflow = false ∧ interrupted st = false ∧ stalled st = true ∧ sawDone st = false ∧ sawTerminalEvent st = false
  | CauseOverflow => overflow = true
  | CauseExpired | CauseFinished => overflow = false
  | _ => True
  end.
Proof.
  cbv zeta. unfold causeOf.
  destruct (clientDisconnected st || _); [done|].
  destruct (isLineCapErr scanErr) eqn:Hov, (sawDone st), (sawTerminalEvent st), (interrupted st), (stalled st);
    cbn [negb andb]; try done;
    (destruct (negb _); [done|]); destruct scanErr as [[se lc]|]; cbn in Hov |- *; subst; repeat case_match; done.
Qed.

Lemma cancelOrigin_not_fault o : providerAtFault (cancelOriginToKind o) = false.
Proof. unfold cancelOriginToKind. by repeat case_bool_decide. Qed.

(** The breaker's verdict on a diagnosed stream. *)
Lemma judge_chargeable sanitize fenceUpstream classifyFrame st scanErr opts d :
  let c := causeOf st scanErr opts in
  sameStream st (diag_state d) →
  clientDisconnected (diag_state d) = bool_decide (c = CauseGone) →
  lineCapExceeded (diag_state d) = isLineCapErr scanErr →
  (diag_msg d, diag_kind d) = rowOf sanitize fenceUpstream classifyFrame st scanErr opts c →
  (diag_msg d = "" ↔ c = CauseFinished) →
  let v := judgeStreamForBreaker (diag_state d) (diag_kind d) (diag_msg d) true in
  failureReason v = default "" (chargeable c (diag_kind d) st (isLineCapErr scanErr)) ∧
  success v = bool_decide (c = CauseFinished) && streamDeliveredOutput st && negb (interrupted st).
Proof.
  intros c Hs Hgone Hcap Hrow Hfin. pose proof (cause_facts st scanErr opts) as Hf. cbv zeta in Hf. fold c in Hf.
  unfold judgeStreamForBreaker. rewrite Hgone, Hcap, (same_interrupted _ _ Hs), (same_unparsed _ _ Hs),
    (same_delivered _ _ Hs), (same_stalled _ _ Hs), (same_done _ _ Hs), (same_terminal _ _ Hs).
  rewrite (bool_decide_ext _ _ Hfin). cbn [negb orb].
  apply (f_equal snd) in Hrow. cbn [snd] in Hrow. rewrite Hrow. clearbody c. clear Hrow Hfin.
  destruct c; cbn [rowOf snd chargeable]; (rewrite bool_decide_true by done) || (rewrite bool_decide_false by done);
    rewrite ?bool_decide_false by done; cbn [orb andb].
  - by rewrite !orb_true_r.
  - rewrite Hf. by destruct (interrupted st).
  - destruct Hf as (-> & -> & -> & -> & ->). done.
  - destruct (isLineCapErr scanErr), (interrupted st); cbn; try done;
      destruct (from_option providerAtFault false _), (stalled st), (sawDone st), (sawTerminalEvent st), (streamDeliveredOutput st); done.
  - rewrite Hf. by destruct (interrupted st).
  - rewrite Hf. cbn. rewrite cancelOrigin_not_fault. by destruct (interrupted st).
  - destruct (isLineCapErr scanErr), (interrupted st); cbn; try done;
      destruct (stalled st), (sawDone st), (sawTerminalEvent st), (streamDeliveredOutput st); done.
  - destruct (isLineCapErr scanErr), (interrupted st); cbn; try done;
      destruct (stalled st), (sawDone st), (sawTerminalEvent st), (streamDeliveredOutput st); done.
  - rewrite Hf, bool_decide_true by done. destruct (interrupted st), (streamDeliveredOutput st), (0 <? unparsedChunks st); done.
Qed.

(** ** Properties *)

(** A stream's end is put down to one cause, the most telling first: the
    client leaving, this gateway restarting, the provider going silent, the
    error the provider sent, the reader's own fault, and last a missing ending.
    The row's message and kind are that cause's; a sentinel is supplied only to
    a finished translated stream that lacked one; the breaker is charged only
    for what the provider did - never for a client, a restart or one of the
    gateway's own deadlines - and credited only for a finished stream that
    delivered output; and the client is shown at most one ending, which never
    carries the text of a broken connection. *)
Lemma stream_end_blame sanitize fenceUpstream classifyFrame mask st scanErr opts :
  (∀ s, s ≠ "" → fenceUpstream (sanitize s) ≠ "") → (∀ s, s ≠ "" → fenceUpstream s ≠ "") →
  (∀ se, scanErr = Some se → text (scan_err se) ≠ "") →
  lineCapExceeded st = false → clientErrMsg st = "" →
  let '(d, inject) := closeStream sanitize fenceUpstream classifyFrame st scanErr opts in
  let c := causeOf st scanErr opts in
  let v := judgeStreamForBreaker (diag_state d) (diag_kind d) (diag_msg d) true in
  (diag_msg d, diag_kind d) = rowOf sanitize fenceUpstream classifyFrame st scanErr opts c ∧
  (inject = true ↔ c = CauseFinished ∧ sawDone st = false ∧ terminalEvent opts = None) ∧
  failureReason v = default "" (chargeable c (diag_kind d) st (isLineCapErr scanErr)) ∧
  success v = bool_decide (c = CauseFinished) && streamDeliveredOutput st && negb (interrupted st) ∧
  match terminalFrame mask d with
  | Some frame =>
      c ≠ CauseGone ∧ c ≠ CauseFinished ∧ sawDone st = false ∧ sawTerminalEvent st = false ∧
      (c = CauseBroken → frame = mask "stream failed: upstream connection error")
  | None =>
      c = CauseGone ∨ c = CauseFinished ∨ sawDone st = true ∨ sawTerminalEvent st = true ∨
      heldErrorCount (diag_state d) < errorChunkCount (diag_state d)
  end.
Proof.
  intros Hkeep Hfence Htext Hlc Hce.
  pose proof (close_spec sanitize fenceUpstream classifyFrame st scanErr opts Hkeep Hfence Htext Hlc Hce)
    as (Hs & Hgone & Hcap & Hrow & Hnote & Hinj & Hfin).
  destruct (closeStream _ _ _ _ _ _) as [d inject]. cbn [fst snd] in *.
  set (c := causeOf st scanErr opts) in *. cbv zeta.
  destruct (judge_chargeable sanitize fenceUpstream classifyFrame st scanErr opts d Hs Hgone Hcap Hrow Hfin) as [Hf Hsu].
  split; [done|]. split; [done|]. split; [exact Hf|]. split; [exact Hsu|].
  unfold terminalFrame. rewrite Hgone, (bool_decide_ext _ _ Hfin), (same_done _ _ Hs), (same_terminal _ _ Hs).
  destruct (decide (c = CauseFinished)) as [H1|H1];
    [rewrite (bool_decide_true (c = CauseFinished)) by done; by right; left|].
  destruct (decide (c = CauseGone)) as [H2|H2];
    [rewrite (bool_decide_true (c = CauseGone)), orb_true_r by done; by left|].
  rewrite (bool_decide_false (c = CauseFinished)), (bool_decide_false (c = CauseGone)) by done.
  destruct (sawDone st), (sawTerminalEvent st); cbn [orb]; try (by do 2 right; auto).
  destruct (Z.ltb_spec (heldErrorCount (diag_state d)) (errorChunkCount (diag_state d))); [by do 4 right|].
  split_and!; try done. intros Hc. rewrite Hnote, Hc by done. reflexivity.
Qed.

Lemma stream_end_blame_witness :
  let st := MkStream 3 0 0 0 "" false false true false 12 0 false true false "" false in
  let opts := MkOptions None "failover_timeout" (30 * Second) in
  let reset := MkScanError (MkError "read: connection reset" false false false true false) false in
  let '(d, inject) := closeStream id id (fun _ => None) st (Some reset) opts in
  diag_msg d = "stream stalled: no data for 30s" ∧ inject = false ∧
  failureReason (judgeStreamForBreaker (diag_state d) (diag_kind d) (diag_msg d) true) = "stream stalled".
Proof.
  intros st opts reset.
  pose proof (stream_end_blame id id (fun _ => None) id st (Some reset) opts) as H.
  specialize (H ltac:(done) ltac:(done) ltac:(intros se [= <-]; done) eq_refl eq_refl).
  destruct (closeStream _ _ _ _ _ _) as [d inject] eqn:Hc. destruct H as (Hrow & Hinj & Hf & _).
  split; [exact (f_equal fst Hrow)|]. split; [|exact Hf].
  destruct inject; [|reflexivity]. destruct (proj1 Hinj eq_refl) as [Hx _]. discriminate Hx.
Defined.
