(* ===== verification/Attempt.v ===== *)
(** * One attempt (internal/proxy: proxy_failover.go, proxy_upstream.go,
    transient_retry.go, breaker_outcome.go, nonstreaming_dispatch.go,
    stream_finalize.go, rate_limit_classify.go, upstream_error_forward.go)

    An attempt against one candidate from admission to outcome: the slot it
    holds, the request it sends and re-sends, the verdicts its answer draws and
    the trail it leaves. What happens outside the gateway while it runs is an
    [exchange]: the instants at which the attempt begins, is answered and has
    its body judged, what each try of the transport returned, and what the body
    turned out to be. The self-heal that rewrites a refused body and the MiniMax
    status remap belong to other components and are read off the exchange. *)

From S2P Require Import Prelude Circuit Cooldown CircuitEvents Breaker BreakerGate BreakerPhases.
From S2P Require Import Errors Verdict Inflight AttemptTrail Outcome StreamEnd.

(** ** What the outside does *)

Inductive candidateOutcome :=
| outcomeFailover | outcomeServed | outcomeFatal | outcomeRetrySaturated
| outcomeRetryServerError | outcomeBusy | outcomeSkipped.

#[export] Instance candidateOutcome_eq_dec : EqDecision candidateOutcome.
Proof. solve_decision. Defined.

(** One try of the transport; on a failure, whether any byte reached the wire
    and the context's error once the backoff after it is over. *)
Inductive tryResult :=
| TryOk (resp : Response)
| TryErr (err : error) (wroteRequest : bool) (ctxErr : option error).

(** The sentinels a body translation can fail with. *)
Inductive bodySentinel :=
| ErrPromptBlocked | errEgressBodyOversized | ErrBodyTooLarge | ErrSpeechNoAudio
| errSpeechBodyOversized | ErrTranscriptionNoText | errTranscriptionBodyOversized.

#[export] Instance bodySentinel_eq_dec : EqDecision bodySentinel.
Proof. solve_decision. Defined.

Record bodyError := MkBodyError { body_err : error; body_is : option bodySentinel }.

(** Why a first-token probe failed; texts are the fenced ones. *)
Inductive probeError :=
| ProbeFrame (msg : string)        (* an error envelope in the first frame *)
| ProbeEmpty (msg : string)        (* a stream that ended without a chunk *)
| ProbeLineCap                     (* a frame over the line limit *)
| ProbeTruncated (msg : string)    (* a translated stream cut before its end *)
| ProbeOther (msg : string).

(** What became of a 2xx body. *)
Inductive delivery :=
| Untranslatable (err : bodyError)
| Completion (fault : option bodyError) (completed : bool) (kind : option ErrorKind) (empty : bool)
| Stream (ttft : bool) (probe : option probeError) (clientGone : bool)
    (ttftTimeout : Duration)
    (st : streamState) (scanErr : option scanError) (opts : streamOptions).

Inductive healing :=
| NotHandled
| Healed (resp : Response)
| HealFailed (re : reqError).

Record exchange := MkExchange {
  begun : Env;
  answered : Env;
  delivered : Env;
  attemptCtx : context;                                (* when a failure or body is judged *)
  buildError : option (ErrorKind * string);
  send : nat → tryResult;
  learnable404 : bool;                                 (* a 404 the Responses reroute may learn from *)
  heal : Response → healing;
  remap : Response → Response;
  classifyUpstream : Response → option ErrorKind * string;
  sanitizeFrame : string → string;                     (* a stream's error frame: sanitized, fenced, classified *)
  fenceFrame : string → string;
  classifyFrame : string → option ErrorKind;
  body : delivery
}.

(** ** The transport's retries *)

Definition maxTransientRetries : nat := 2.

Definition isRetryableUpstreamError (err : error) (requestWritten : bool) : bool :=
  if isCanceled err || isDeadline err then false
  else if isTimeout err then false
  else if negb requestWritten then true
  else if isInterrupted err then true
  else isIdleClosed err.

(** The loop of [doUpstream]: what it ends with, the transport error that drove
    its retries, and how many requests were sent. *)
Fixpoint tryLoop (retries : nat) (try : nat) (send : nat → tryResult) (lastTransportErr : option error) :
    (Response + error) * option error * nat :=
  match send try with
  | TryOk resp => (inl resp, lastTransportErr, S try)
  | TryErr err wroteRequest ctxErr =>
      match retries with
      | O => (inr err, lastTransportErr, S try)
      | S retries =>
          if negb (isRetryableUpstreamError err wroteRequest) then (inr err, lastTransportErr, S try)
          else match ctxErr with
               | Some c => (inr c, Some err, S try)
               | None => tryLoop retries (S try) send (Some err)
               end
      end
  end.

(** ** Judging what came back *)

Definition retryableServerError (status : Z) : bool :=
  (status =? 500) || (status =? 502) || (status =? 503) || (status =? 504).

Definition serverErrorRetryBackoff : Duration := 500 * 1000000.
Definition retryMinRound : Duration := 100 * 1000000.

Definition serverErrorRetryBudgetLeft (e : Env) (cfg : requestConfig) : bool :=
  IsZero (overallDeadline cfg)
  || (2 * serverErrorRetryBackoff + retryMinRound <? Sub (overallDeadline cfg) (now e)).

Definition isLearnableRefusal (status : Z) (learnable404 : bool) : bool :=
  (status =? 400) || (status =? 404) && learnable404.

Definition retryRoundIsProviderFault (k : option ErrorKind) : bool :=
  match k with
  | Some KindProviderTimeout | Some KindProviderError | Some KindRetryTimeout => true
  | _ => false
  end.

Definition translationIsProviderFault (err : bodyError) : bool := bool_decide (body_is err = None).
Definition answerFaultIsRoutable (err : bodyError) : bool := negb (bool_decide (body_is err = Some ErrBodyTooLarge)).

Definition classifyProbeFailure (providerName underlying : string) (clientGone : bool)
    (elapsed stallTimeout ttftTimeout : Duration) (attempt : Z) : reqError * bool :=
  if clientGone && (elapsed <? stallTimeout) then
    (MkReqError (Some KindClientDisconnect) attempt providerName "" underlying "" "", false)
  else
    let timeout := Duration_String ttftTimeout in
    let hint := if clientGone then
        providerName +:+ " produced no first token before the connection was closed after "
        +:+ pretty (div_nearest_even elapsed Second) +:+ "s, under the " +:+ timeout
        +:+ " first-token timeout; if the caller did not cancel, an upstream reverse proxy, load balancer, or CDN likely closed the idle connection: raise its read timeout above "
        +:+ timeout +:+ " or set ttft_timeout below it"
      else "" in
    (MkReqError (Some KindProviderTimeout) attempt providerName "" underlying "" hint, true).

Definition classifyProbeError (probeErr : probeError) (providerName : string) (clientGone : bool)
    (elapsed stallTimeout ttftTimeout : Duration) (attempt : Z) : reqError * bool :=
  let answered underlying := (MkReqError (Some KindProviderError) attempt providerName "" underlying "" "", true) in
  match probeErr with
  | ProbeFrame msg | ProbeEmpty msg | ProbeTruncated msg => answered msg
  | ProbeLineCap => answered lineCapErrMsg
  | ProbeOther msg =>
      classifyProbeFailure providerName msg clientGone elapsed stallTimeout ttftTimeout attempt
  end.

Definition probeAnsweredByProvider (probeErr : probeError) : bool :=
  match probeErr with ProbeOther _ => false | _ => true end.

(** A stream's prompt is billed unless its provider declared the request failed. *)
Definition streamPromptBilled (probeErr : probeError) : bool :=
  match probeErr with ProbeFrame _ => false | _ => true end.

Definition probeBreakerReason (probe : string) (re : reqError) : string :=
  if decide (Kind re = Some KindProviderTimeout) then probe +:+ ": no first token"
  else if bool_decide (Underlying re = lineCapErrMsg) then probe +:+ ": a frame exceeded the line limit"
  else probe +:+ ": no usable first frame".

Definition streamSlotOutcome (st : streamState) (kind : option ErrorKind) (errMsg : string) : slotOutcome :=
  let v := judgeStreamForBreaker st kind errMsg true in
  if success v then slotClean
  else if negb (bool_decide (failureReason v = "")) then slotUnclean
  else slotNeutral.

(** The slot outcome of a structured error; an unset kind is none of the neutral ones. *)
Definition slotOutcomeOf (kind : option ErrorKind) : slotOutcome :=
  match kind with Some k => slotOutcomeFor k | None => slotUnclean end.

(** ** The attempt *)

Section Attempt.
Context (fence attemptDetail : string → string).

(** [st.setReqErr], with the 429 verdict standing at the call. *)
Definition setErr (s : session) (re : reqError) : session :=
  s ⟦ verdict := setReqErr fence (verdict s) (rateLimit s) re ⟧.

Definition closeRecord (e : Env) (s : session) (status : Z) (kind : option ErrorKind) (detail phrase : string) : session :=
  s ⟦ logData := closeAttemptRecord attemptDetail (logData s) (now e) status kind detail phrase 0 ⟧.

Definition closeTerminal (e : Env) (s : session) (statusCode : Z) (kind : option ErrorKind) : session :=
  s ⟦ logData := closeTerminalAttempt attemptDetail (logData s) (now e) statusCode kind 0 ⟧.

(** The slot's body read to its end and closed, or just closed. *)
Definition closeBody (e : Env) (cfg : requestConfig) (s : session) : session :=
  match slot s with
  | None => s
  | Some k => s ⟦ pool := Close (settleAt e cfg) (pool s) k ⟧
  end.

Definition drainBody (e : Env) (cfg : requestConfig) (s : session) : session :=
  match slot s with
  | None => s
  | Some k => s ⟦ pool := Close (settleAt e cfg) (Read (settleAt e cfg) (pool s) k true) k ⟧
  end.

Definition onSlot (s : session) (f : world → nat → world) : session :=
  match slot s with None => s | Some k => s ⟦ pool := f (pool s) k ⟧ end.

Definition lastKind (s : session) : option ErrorKind := Kind (lastReqErr (verdict s)).

Definition doUpstream (cfg : requestConfig) (x : exchange) (s : session) (candidate : modelCandidate) (attempt : Z) :
    session * option Response :=
  let '(result, lastTransportErr, _) := tryLoop maxTransientRetries 0 (send x) None in
  match result with
  | inl resp => (s, Some resp)
  | inr err =>
      let isContextErr := isCanceled err || isDeadline err in
      let failure kind underlying := MkReqError (Some kind) attempt (cand_name candidate) "" underlying "" "" in
      let '(s, abandoned) :=
        if isContextErr && negb (from_option (fun _ => true) false (Err (attemptCtx x))) then
          (setErr s (failure KindProviderTimeout (errString (Some err))), false)
        else if isContextErr then
          (setErr s (failure (cancelOriginToKind (resolveCancelOrigin (attemptCtx x) err)) (errString lastTransportErr)),
           requestAbandoned (attemptCtx x) err)
        else (setErr s (failure KindProviderError (errString (Some err))), false) in
      let s := if negb abandoned then chargeBreaker (answered x) cfg s candidate 0 "upstream request failed" else s in
      (s, None)
  end.

Inductive beginning := BeginBusy | BeginFailed | BeginSent (resp : Response).

Definition beginAttempt (cfg : requestConfig) (x : exchange) (s : session) (candidate : modelCandidate)
    (attempt : Z) : session * beginning :=
  let s := s ⟦ rowProvider := cand_name candidate ⟧
             ⟦ logData := openAttemptRecord (logData s) attempt candidate false (now (begun x))
                            (circuitBreakerEnabled cfg) ⟧ ⟦ rateLimit := zeroVerdict ⟧ in
  let '(p, k, admitted) := admitCandidate (inflightEnabled cfg) (pool s) (cand_provider candidate)
                             (providerCeiling (cand_maxInFlight candidate)) in
  let s := s ⟦ pool := p ⟧ ⟦ slot := k ⟧ in
  let model := candidateModelID candidate in
  if negb admitted then
    let s := s ⟦ rateLimit := MkVerdict true rateLimitSaturated "" "" defaultSaturatedRetryAfter 0 false false ⟧ in
    let s := setErr s (MkReqError (Some KindProviderSaturated) attempt (cand_name candidate) model "" busySkipDetail "") in
    let s := noting s breakerNoop in
    (closeRecord (begun x) s 0 (Some KindProviderSaturated) busySkipDetail "", BeginBusy)
  else match buildError x with
  | Some (kind, text) =>
      let s := settleSlot (begun x) cfg s (slotOutcomeFor kind) in
      let s := setErr s (MkReqError (Some kind) attempt (cand_name candidate) model text "" "") in
      let s := closeRecord (begun x) s 0 (Some kind) text "" in
      (s ⟦ attemptRefused := bool_decide (kind = KindValidation) ⟧, BeginFailed)
  | None =>
      let '(s, resp) := doUpstream cfg x s candidate attempt in
      match resp with
      | Some resp => (s, BeginSent resp)
      | None =>
          let s := settleSlot (answered x) cfg s (slotOutcomeOf (lastKind s)) in
          (closeRecord (answered x) s 0 (lastKind s) (Underlying (lastReqErr (verdict s))) "", BeginFailed)
      end
  end.

(** ** Failing over, and the one-shot retries of a last candidate *)

Definition failOverPastCandidate (cfg : requestConfig) (e : Env) (s : session) (candidate : modelCandidate)
    (resp : Response) (attempt : Z) (rl : rateLimitVerdict) : session * candidateOutcome :=
  let s := drainBody e cfg s in
  let s := setErr s (failoverReqErr rl attempt (cand_name candidate) (StatusCode resp)) in
  (closeRecord e s (StatusCode resp) (lastKind s) (bodyHead resp) (phrase rl), outcomeFailover).

Definition closeDeferredAttempt (cfg : requestConfig) (e : Env) (s : session) (resp : Response) (re : reqError)
    (detail phrase : string) : session :=
  let s := drainBody e cfg s in
  let s := setErr s re in
  closeRecord e s (StatusCode resp) (lastKind s) detail phrase.

Definition deferSaturatedRetry (cfg : requestConfig) (e : Env) (s : session) (candidate : modelCandidate)
    (resp : Response) (attempt : Z) : session * candidateOutcome :=
  let s := s ⟦ saturationRetried := true ⟧ in
  (closeDeferredAttempt cfg e s resp (rateLimitReqErr (rateLimit s) attempt (cand_name candidate))
     (detail (rateLimit s)) (phrase (rateLimit s)), outcomeRetrySaturated).

Definition deferServerErrorRetry (cfg : requestConfig) (e : Env) (s : session) (candidate : modelCandidate)
    (resp : Response) (attempt : Z) (rl : rateLimitVerdict) : session * candidateOutcome :=
  let s := s ⟦ serverErrorRetried := true ⟧ in
  (closeDeferredAttempt cfg e s resp (failoverReqErr rl attempt (cand_name candidate) (StatusCode resp))
     (bodyHead resp) "", outcomeRetryServerError).

Definition deferLastCandidateRetry (cfg : requestConfig) (e : Env) (s : session) (candidate : modelCandidate)
    (resp : Response) (attempt : Z) (rl : rateLimitVerdict) : option (session * candidateOutcome) :=
  if bool_decide (class rl = rateLimitSaturated) && negb (saturationRetried s) then
    Some (deferSaturatedRetry cfg e s candidate resp attempt)
  else if serverErrorRetryEnabled cfg && retryableServerError (StatusCode resp) && negb (serverErrorRetried s)
          && serverErrorRetryBudgetLeft e cfg then
    Some (deferServerErrorRetry cfg e s candidate resp attempt rl)
  else None.

(** ** Answers *)

Definition rejectUntranslatableBody (cfg : requestConfig) (x : exchange) (s : session) (candidate : modelCandidate)
    (status : Z) (err : bodyError) (attempt : Z) : session * candidateOutcome :=
  let e := delivered x in
  let '(kind, abandoned) := default (KindProviderError, false) (abortKind (attemptCtx x) (body_err err)) in
  let fault := negb abandoned && translationIsProviderFault err in
  let s := if fault then
             chargeBreaker e cfg s candidate status
               (if bool_decide (kind = KindProviderTimeout) then "upstream body stalled"
                else "upstream body could not be translated")
           else s in
  let s := settleSlot e cfg s (if fault then slotUnclean else slotNeutral) in
  let text := errString (Some (body_err err)) in
  let s := setErr s (MkReqError (Some kind) attempt (cand_name candidate) "" text "" "") in
  (closeRecord e s status (Some kind) text "", outcomeFailover).

Definition rejectAndClose (cfg : requestConfig) (x : exchange) (s : session) (candidate : modelCandidate)
    (status : Z) (err : bodyError) (attempt : Z) : session * candidateOutcome :=
  let '(s, outcome) := rejectUntranslatableBody cfg x s candidate status err attempt in
  (closeBody (delivered x) cfg s, outcome).

Definition dispatchNonStreaming (cfg : requestConfig) (x : exchange) (s : session) (candidate : modelCandidate)
    (resp : Response) (attempt : Z) (hasMoreCandidates : bool)
    (fault : option bodyError) (completed : bool) (kind : option ErrorKind) (empty : bool) :
    session * candidateOutcome :=
  let e := delivered x in
  let s := onSlot s holdSlotForVerdict in
  let s := onSlot s (fun wd k => Read (settleAt e cfg) wd k true) in
  let serve :=
    let s := onSlot s holdVerdict in
    let s := recordAnswerOutcome e cfg s candidate completed kind empty (StatusCode resp) in
    let s := closeTerminal e s (StatusCode resp) kind in
    let s := closeBody e cfg s in
    let s := settleSlot e cfg s
      (if completed && negb empty then slotClean
       else if completed then slotUnclean
       else slotOutcomeOf kind) in
    (s, outcomeServed) in
  match fault with
  | Some err =>
      if hasMoreCandidates && answerFaultIsRoutable err
      then rejectAndClose cfg x s candidate (StatusCode resp) err attempt else serve
  | None => serve
  end.

(** The kinds are the row's; the masking of the message and the client's frame
    are [terminalFrame]'s. *)
Definition finalizeStream (cfg : requestConfig) (x : exchange) (s : session) (candidate : modelCandidate)
    (statusCode : Z) (st : streamState) (scanErr : option scanError) (opts : streamOptions) : session :=
  let e := delivered x in
  let '(d, _) := closeStream (sanitizeFrame x) (fenceFrame x) (classifyFrame x) st scanErr opts in
  let st := diag_state d in
  let errMsg := diag_msg d in
  let s := settleSlot e cfg s (streamSlotOutcome st (diag_kind d) errMsg) in
  let v := judgeStreamForBreaker st (diag_kind d) errMsg (circuitBreakerEnabled cfg) in
  let s := if negb (bool_decide (failureReason v = ""))
           then recording (noting s breakerCharge)
                  (RecordFailure e (circuitBreaker s) (cand_provider candidate) (cand_name candidate)
                     (candidateModelID candidate) (MkCause statusCode (failureReason v)))
           else if success v
           then recording (noting s breakerSuccess)
                  (RecordSuccess e (circuitBreaker s) (cand_provider candidate) (cand_name candidate)
                     (candidateModelID candidate))
           else s in
  closeTerminal e s (if bool_decide (errMsg = "") then statusCode else 0) (diag_kind d).

Definition dispatchStreaming (cfg : requestConfig) (x : exchange) (s : session) (candidate : modelCandidate)
    (resp : Response) (attempt : Z) (ttft : bool) (probe : option probeError) (clientGone : bool)
    (ttftTimeout : Duration) (st : streamState) (scanErr : option scanError) (opts : streamOptions) :
    session * candidateOutcome :=
  let e := delivered x in
  let s := if ttft then onSlot s holdVerdict else s in
  match (if ttft then probe else None) with
  | Some probeErr =>
      let s := closeBody e cfg s in
      let elapsed := Sub (now e) (attemptStarted (logData s)) in
      let '(re, recordFailure) :=
        classifyProbeError probeErr (cand_name candidate) clientGone elapsed (streamStallTimeout opts) ttftTimeout attempt in
      let s := settleSlot e cfg s (slotOutcomeOf (Kind re)) in
      let s := if recordFailure then
                 chargeBreaker e cfg s candidate (StatusCode resp) (probeBreakerReason "TTFT probe" re) else s in
      let s := setErr s re in
      (closeRecord e s (StatusCode resp) (Kind re) (Underlying re) "", outcomeFailover)
  | None =>
      let s := onSlot s holdVerdict in
      let s := finalizeStream cfg x s candidate (StatusCode resp) st scanErr opts in
      let s := closeBody e cfg s in
      (settleSlot e cfg s slotUnclean, outcomeServed)
  end.

(** A terminal upstream error: its body drained, its kind refined by the
    attempt's own 429 verdict, the row written. *)
Definition forwardUpstreamError (cfg : requestConfig) (x : exchange) (s : session) (resp : Response) :
    session * candidateOutcome :=
  let e := delivered x in
  let s := drainBody e cfg s in
  let '(kind, reason) := classifyUpstream x resp in
  let '(kind, _) := rateLimitTerminalKind kind reason (StatusCode resp) (rateLimit s) in
  (closeTerminal e s (StatusCode resp) kind, outcomeFatal).

(** ** The whole of it *)

Definition dispatch (cfg : requestConfig) (x : exchange) (s : session) (candidate : modelCandidate)
    (resp : Response) (attempt : Z) (hasMoreCandidates : bool) : session * candidateOutcome :=
  match body x with
  | Untranslatable err => rejectAndClose cfg x s candidate (StatusCode resp) err attempt
  | Completion fault completed kind empty =>
      dispatchNonStreaming cfg x s candidate resp attempt hasMoreCandidates fault completed kind empty
  | Stream ttft probe clientGone ttftTimeout st scanErr opts =>
      dispatchStreaming cfg x s candidate resp attempt ttft probe clientGone ttftTimeout st scanErr opts
  end.

(** From the answered (and healed) response on. *)
Definition judgeResponse (cfg : requestConfig) (x : exchange) (s : session) (candidate : modelCandidate)
    (resp : Response) (attempt totalCandidates : Z) : session * candidateOutcome :=
  let e := answered x in
  let resp := remap x resp in
  let s := s ⟦ pool := finishAttemptAdmission (now e) (pool s) (slot s) (cand_provider candidate)
                         (Header resp) (StatusCode resp) ⟧ in
  let s := s ⟦ logData := noteAttemptStatus (logData s) (StatusCode resp) ⟧ in
  let hasMoreCandidates := attempt <? totalCandidates - 1 in
  let isFailoverEligible := shouldFailover cfg (StatusCode resp) in
  let '(s, rl) := judge429AndRecordBreaker e cfg s candidate resp isFailoverEligible in
  if isFailoverEligible && hasMoreCandidates then
    failOverPastCandidate cfg e s candidate resp attempt rl
  else
    match (if isFailoverEligible && negb hasMoreCandidates
           then deferLastCandidateRetry cfg e s candidate resp attempt rl else None) with
    | Some deferred => deferred
    | None =>
        if negb (servedSuccessStatus (StatusCode resp)) then forwardUpstreamError cfg x s resp
        else dispatch cfg x s candidate resp attempt hasMoreCandidates
    end.

Definition attemptCandidate (cfg : requestConfig) (x : exchange) (s : session) (candidate : modelCandidate)
    (attempt totalCandidates : Z) : session * candidateOutcome :=
  let '(s, b) := beginAttempt cfg x s candidate attempt in
  match b with
  | BeginBusy => (s, outcomeBusy)
  | BeginFailed =>
      if attemptRefused s then (s ⟦ attemptRefused := false ⟧, outcomeSkipped) else (s, outcomeFailover)
  | BeginSent resp =>
      match (if isLearnableRefusal (StatusCode resp) (learnable404 x) then heal x resp else NotHandled) with
      | NotHandled => judgeResponse cfg x s candidate resp attempt totalCandidates
      | Healed resp => judgeResponse cfg x s candidate resp attempt totalCandidates
      | HealFailed re =>
          let e := answered x in
          let s := settleSlot e cfg s (slotOutcomeOf (Kind re)) in
          let s := if retryRoundIsProviderFault (Kind re)
                   then chargeBreaker e cfg s candidate 0 "retry request failed" else s in
          let s := setErr s re in
          (closeRecord e s 0 (Kind re) (Underlying re) "", outcomeFailover)
      end
  end.
End Attempt.

(** ** Specification *)

(** Since [s0], the session holds no slot, or one admitted after all of [s0]'s. *)
Definition slotFrom (s0 s : session) : Prop :=
  slot s = None ∧ slots (pool s) = slots (pool s0) ∨
  ∃ sl, slot s = Some (length (slots (pool s0))) ∧ slots (pool s) = slots (pool s0) ++ [sl].

Record carried (s0 s : session) : Prop := {
  carried_conserved : conserved (pool s);
  carried_slot : slotFrom s0 s
}.

(** The slot is attached to a body, and nobody has asked to hold its verdict. *)
Definition unheld (s : session) : Prop :=
  ∀ k sl, slot s = Some k → slots (pool s) !! k = Some sl → held sl = false.

Definition bodied (s : session) : Prop :=
  ∀ k, slot s = Some k → is_Some (bodies (pool s) !! k).

(** Nothing but the slot's own fields. *)
Record sameSlot (s s' : session) : Prop := { same_pool : pool s' = pool s; same_slot : slot s' = slot s }.

(** An attempt still under way, its body attached and its slot its own. *)
Record ready (s0 s : session) : Prop := {
  ready_carried : carried s0 s;
  ready_bodied : bodied s;
  ready_unheld : unheld s
}.

(** An attempt over and done with. *)
Record over (s0 s : session) : Prop := { over_carried : carried s0 s; over_settled : slotSettled s }.

(** The flags that cap a last candidate's retries. *)
Definition flags (s : session) : bool * bool := (saturationRetried s, serverErrorRetried s).

(** Whether an outcome asks for the same candidate again. *)
Definition retries (o : candidateOutcome) : bool :=
  bool_decide (o = outcomeRetrySaturated) || bool_decide (o = outcomeRetryServerError).

(** What an attempt promises the walk about its retries. *)
Record retry_contract (total attempt : Z) (s : session) (r : session * candidateOutcome) : Prop := {
  contract_saturated : saturationRetried r.1 = saturationRetried s || bool_decide (r.2 = outcomeRetrySaturated);
  contract_serverError : serverErrorRetried r.1 = serverErrorRetried s || bool_decide (r.2 = outcomeRetryServerError);
  contract_once_saturated : r.2 = outcomeRetrySaturated → saturationRetried s = false;
  contract_once_serverError : r.2 = outcomeRetryServerError → serverErrorRetried s = false;
  contract_last : retries r.2 = true → total - 1 ≤ attempt
}.

(** What an answered attempt does. *)
Definition answered_contract (e : Env) (cfg : requestConfig) (total attempt : Z) (s : session)
    (r : session * candidateOutcome) : Prop :=
  retry_contract total attempt s r ∧ r.2 ≠ outcomeBusy ∧ r.2 ≠ outcomeSkipped ∧
  (r.2 = outcomeRetryServerError → serverErrorRetryBudgetLeft e cfg = true).

(** A try after which nothing forbids sending again: it failed for a reason of
    the connection, not of the caller or the clock, either before a byte was
    written or on a connection the peer had dropped. *)
Definition resendable (r : tryResult) : Prop :=
  ∃ err wrote, r = TryErr err wrote None ∧
    isCanceled err = false ∧ isDeadline err = false ∧ isTimeout err = false ∧
    (wrote = false ∨ isInterrupted err = true ∨ isIdleClosed err = true).

(** How the loop ended: on an answer, on an error not worth a resend or with the
    retries spent, or with the context over during the backoff. *)
Definition ending (send : nat → tryResult) (last : nat) (spent : bool) (res : Response + error) : Prop :=
  match res with
  | inl resp => send last = TryOk resp
  | inr err =>
      (∃ wrote c, send last = TryErr err wrote c ∧ (spent = true ∨ isRetryableUpstreamError err wrote = false)) ∨
      (∃ err0 wrote, send last = TryErr err0 wrote (Some err) ∧ isRetryableUpstreamError err0 wrote = true)
  end.


(** ** Slots across an attempt *)

(** What a goroutine does to one slot: the limiter's books stay balanced, no
    other slot is touched, and a released slot stays released. *)
Class SlotOp (f : world → nat → world) : Prop := {
  slotop_conserved wd k : conserved wd → conserved (f wd k);
  slotop_slots wd k : ∃ g, slots (f wd k) = alter g k (slots wd) ∧
    ∀ sl, slot_provider (g sl) = slot_provider sl ∧ (fired sl = true → fired (g sl) = true)
}.

Lemma slots_of_settle x wd k o :
  slots (settle x wd k o) = alter (fun sl => MkSlot (slot_provider sl) true (held sl)) k (slots wd).
Proof.
  unfold settle. destruct (slots wd !! k) as [sl|] eqn:Hk.
  - destruct (fired sl) eqn:Hf; simpl.
    + symmetry. apply list_eq. intros j. rewrite list_lookup_alter. case_decide; [subst|done].
      rewrite Hk. simpl. f_equal. destruct sl. simpl in *. by rewrite Hf.
    + apply list_eq. intros j. rewrite list_lookup_alter. case_decide; [subst|by rewrite list_lookup_insert_ne].
      rewrite list_lookup_insert_eq by (by eapply lookup_lt_Some). by rewrite Hk.
  - symmetry. apply list_eq. intros j. rewrite list_lookup_alter. case_decide; [subst; by rewrite Hk|done].
Qed.

#[export] Instance settle_op x o : SlotOp (fun wd k => settle x wd k o).
Proof.
  split; [intros; by apply settle_conserved|]. intros wd k. eexists. split; [apply slots_of_settle|].
  by intros sl.
Qed.

#[export] Instance id_op : SlotOp (fun wd _ => wd).
Proof. split; [done|]. intros wd k. exists id. split; [by rewrite list_alter_id|done]. Qed.

#[export] Instance Read_op x eof : SlotOp (fun wd k => Read x wd k eof).
Proof.
  split; [intros wd k Hc; by apply (happen_conserved x wd (ERead k eof))|].
  intros wd k. unfold Read. destruct (bodies wd !! k) as [b|]; [|by apply id_op].
  destruct (eof && onEOF b && negb (verdictHeld wd k)); [|by apply id_op]. by apply settle_op.
Qed.

#[export] Instance Close_op x : SlotOp (fun wd k => Close x wd k).
Proof.
  split; [intros wd k Hc; by apply (happen_conserved x wd (EClose k))|].
  intros wd k. unfold Close. destruct (bodies wd !! k) as [b|]; [|by apply id_op].
  destruct (negb (verdictHeld wd k)); [|by apply id_op]. by apply settle_op.
Qed.

#[export] Instance holdVerdict_op : SlotOp holdVerdict.
Proof.
  split; [intros; by apply holdVerdict_conserved|]. intros wd k. unfold holdVerdict.
  destruct (slots wd !! k) as [sl0|] eqn:Hk; [|by apply id_op].
  exists (fun sl => MkSlot (slot_provider sl) (fired sl) true). split; [|by intros sl].
  simpl. apply list_eq. intros j. rewrite list_lookup_alter.
  case_decide; [subst|by rewrite list_lookup_insert_ne].
  rewrite list_lookup_insert_eq by (by eapply lookup_lt_Some). by rewrite Hk.
Qed.

#[export] Instance holdSlotForVerdict_op : SlotOp holdSlotForVerdict.
Proof.
  split; [intros wd k Hc; by apply (happen_conserved (MkSettings 0 0 0) wd (EHoldSlot k))|].
  intros wd k. unfold holdSlotForVerdict. exists id.
  destruct (bodies wd !! k); (split; [by rewrite list_alter_id|done]).
Qed.

#[export] Instance comp_op f g : SlotOp f → SlotOp g → SlotOp (fun wd k => f (g wd k) k).
Proof.
  intros [Hf1 Hf2] [Hg1 Hg2]. split; [auto|]. intros wd k.
  destruct (Hg2 wd k) as (g1 & Hs1 & H1), (Hf2 (g wd k) k) as (g2 & Hs2 & H2).
  exists (g2 ∘ g1). split; [by rewrite Hs2, Hs1, list_alter_alter_eq|].
  intros sl. destruct (H1 sl) as [? ?], (H2 (g1 sl)) as [? ?]. simpl. split; [congruence|auto].
Qed.

Lemma onSlot_slot s f : slot (onSlot s f) = slot s.
Proof. unfold onSlot. destruct (slot s) eqn:Hs; by rewrite ?Hs. Qed.

Lemma onSlot_carried s0 s f `{!SlotOp f} : carried s0 s → carried s0 (onSlot s f).
Proof.
  intros [Hc Hs]. unfold onSlot. destruct (slot s) as [k|] eqn:Hk; [|done].
  destruct Hs as [[Hn _]|(sl & Hsl & Hl)]; [congruence|]. rewrite Hk in Hsl. injection Hsl as ->. split.
  - cbn. by apply slotop_conserved.
  - right. cbn. destruct (slotop_slots (pool s) (length (slots (pool s0)))) as (g & Hg & _).
    exists (g sl). split; [done|]. rewrite Hg, Hl.
    rewrite <- (Nat.add_0_r (length (slots (pool s0)))) at 1. by rewrite alter_app_r.
Qed.

Lemma onSlot_settled s f `{!SlotOp f} : slotSettled s → slotSettled (onSlot s f).
Proof.
  unfold slotSettled. intros Hs k sl Hk Hsl. rewrite onSlot_slot in Hk. unfold onSlot in Hsl. rewrite Hk in Hsl.
  cbn in Hsl. destruct (slotop_slots (pool s) k) as (g & Hg & Hmono). rewrite Hg, list_lookup_alter_eq in Hsl.
  apply fmap_Some in Hsl as (sl0 & Hsl0 & ->). apply Hmono. by eapply Hs.
Qed.

Lemma settleSlot_onSlot e cfg s o : settleSlot e cfg s o = onSlot s (fun wd k => settle (settleAt e cfg) wd k o).
Proof. done. Qed.

Lemma settleSlot_carried s0 e cfg s o : carried s0 s → carried s0 (settleSlot e cfg s o).
Proof. rewrite settleSlot_onSlot. apply onSlot_carried. apply _. Qed.

Lemma closeBody_onSlot e cfg s : closeBody e cfg s = onSlot s (fun wd k => Close (settleAt e cfg) wd k).
Proof. done. Qed.

Lemma drainBody_onSlot e cfg s :
  drainBody e cfg s = onSlot s (fun wd k => Close (settleAt e cfg) (Read (settleAt e cfg) wd k true) k).
Proof. done. Qed.

Lemma closeBody_carried s0 e cfg s : carried s0 s → carried s0 (closeBody e cfg s).
Proof. rewrite closeBody_onSlot. apply onSlot_carried. apply _. Qed.

Lemma drainBody_carried s0 e cfg s : carried s0 s → carried s0 (drainBody e cfg s).
Proof. rewrite drainBody_onSlot. apply onSlot_carried, (comp_op _ _ (Close_op _) (Read_op _ _)). Qed.

Lemma closeBody_settled e cfg s : slotSettled s → slotSettled (closeBody e cfg s).
Proof. rewrite closeBody_onSlot. apply onSlot_settled. apply _. Qed.

Lemma Close_settles x wd k b sl :
  bodies wd !! k = Some b → slots wd !! k = Some sl → held sl = false →
  ∀ sl', slots (Close x wd k) !! k = Some sl' → fired sl' = true.
Proof.
  intros Hb Hsl Hh sl'. unfold Close, verdictHeld. rewrite Hb, Hsl, Hh. cbn [negb].
  rewrite slots_of_settle, list_lookup_alter_eq, Hsl. by intros [= <-].
Qed.

Lemma Read_keeps x wd k eof :
  bodies (Read x wd k eof) = bodies wd ∧
  ∀ sl, slots wd !! k = Some sl → ∃ sl', slots (Read x wd k eof) !! k = Some sl' ∧ held sl' = held sl.
Proof.
  unfold Read. destruct (bodies wd !! k) as [b|]; [|by eauto].
  destruct (eof && onEOF b && negb (verdictHeld wd k)); [|by eauto]. split.
  - unfold settle. by repeat case_match.
  - intros sl Hsl. rewrite slots_of_settle, list_lookup_alter_eq, Hsl. by eexists.
Qed.

(** Draining a body nobody holds settles its slot. *)
Lemma drainBody_settled e cfg s : bodied s → unheld s → slotSettled (drainBody e cfg s).
Proof.
  unfold bodied, unheld, slotSettled. intros Hb Hu k sl' Hk. rewrite drainBody_onSlot, onSlot_slot in *.
  unfold onSlot. rewrite Hk. cbn. destruct (Hb _ Hk) as [b Hb']. set (wd := Read _ (pool s) k true) in *.
  destruct (Read_keeps (settleAt e cfg) (pool s) k true) as [Hbs Hsl]. fold wd in Hbs, Hsl.
  destruct (slots (pool s) !! k) as [sl|] eqn:Hs.
  - destruct (Hsl _ eq_refl) as (sl1 & Hs1 & Hh). apply (Close_settles _ wd k b sl1); [by rewrite Hbs|done|].
    rewrite Hh. by eapply Hu.
  - intros Hsl'. exfalso. pose proof (slotop_slots (f := fun wd k => Close (settleAt e cfg) (Read (settleAt e cfg) wd k true) k)
      (SlotOp := comp_op _ _ (Close_op _) (Read_op _ _)) (pool s) k) as (g & Hg & _).
    cbn beta in Hg. fold wd in Hg. rewrite Hg, list_lookup_alter_eq, Hs in Hsl'. done.
Qed.

Lemma sameSlot_carried s0 s s' : sameSlot s s' → carried s0 s → carried s0 s'.
Proof. intros [Hp Hs] [Hc Hf]. split; [by rewrite Hp|]. unfold slotFrom. by rewrite Hp, Hs. Qed.

Lemma sameSlot_settled s s' : sameSlot s s' → slotSettled s → slotSettled s'.
Proof. intros [Hp Hs]. unfold slotSettled. by rewrite Hp, Hs. Qed.

Lemma sameSlot_ready s s' : sameSlot s s' → (unheld s → unheld s') ∧ (bodied s → bodied s').
Proof. intros [Hp Hs]. unfold unheld, bodied. by rewrite Hp, Hs. Qed.

(** A settled attempt leaves every provider's slots as it found them. *)
Lemma settled_outstanding s0 s id :
  carried s0 s → slotSettled s → outstanding (pool s) id = outstanding (pool s0) id.
Proof.
  intros [_ [[_ Hl]|(sl & Hs & Hl)]] Hset; unfold outstanding; rewrite Hl; [done|].
  assert (fired sl = true) as Hf.
  { eapply Hset; [exact Hs|]. rewrite Hl. by rewrite lookup_app_r, Nat.sub_diag by lia. }
  rewrite filter_app, filter_cons. case_decide as Hd; [by destruct Hd as [_ ?]; congruence|].
  by rewrite filter_nil, app_nil_r.
Qed.

Lemma over_same s0 s s' : sameSlot s s' → over s0 s → over s0 s'.
Proof. intros Hs [Hc Hset]. split; [by eapply sameSlot_carried|by eapply sameSlot_settled]. Qed.

Lemma ready_same s0 s s' : sameSlot s s' → ready s0 s → ready s0 s'.
Proof.
  intros Hs [Hc Hb Hu]. destruct (sameSlot_ready s s' Hs). split; [by eapply sameSlot_carried|auto..].
Qed.

Lemma over_settleSlot s0 e cfg s o : carried s0 s → over s0 (settleSlot e cfg s o).
Proof. intros Hc. split; [by apply settleSlot_carried|apply settleSlot_settled]. Qed.

Lemma over_drain s0 e cfg s : ready s0 s → over s0 (drainBody e cfg s).
Proof. intros [Hc Hb Hu]. split; [by apply drainBody_carried|by apply drainBody_settled]. Qed.

Lemma over_close s0 e cfg s : over s0 s → over s0 (closeBody e cfg s).
Proof. intros [Hc Hs]. split; [by apply closeBody_carried|by apply closeBody_settled]. Qed.

Lemma chargeBreaker_same e cfg s candidate status reason :
  sameSlot s (chargeBreaker e cfg s candidate status reason).
Proof. unfold chargeBreaker. by case_match. Qed.

Lemma recordBreakerOutcome_same e cfg s candidate status eligible rl :
  sameSlot s (recordBreakerOutcome e cfg s candidate status eligible rl).
Proof. by destruct (recordBreakerOutcome_frame e cfg s candidate status eligible rl) as (? & _ & _ & _ & ? & _). Qed.

Lemma recordAnswerOutcome_same e cfg s candidate completed kind empty status :
  sameSlot s (recordAnswerOutcome e cfg s candidate completed kind empty status).
Proof. unfold recordAnswerOutcome, chargeBreaker, creditBreaker. by repeat case_match. Qed.

Section Settling.
Context (fence attemptDetail : string → string).

Lemma over_charge s0 e cfg s candidate status reason (charge : bool) :
  over s0 s → over s0 (if charge then chargeBreaker e cfg s candidate status reason else s).
Proof. intros Ho. destruct charge; [|done]. eapply over_same; [apply chargeBreaker_same|done]. Qed.

(** The two closing moves of a failed attempt. *)
Lemma over_failed s0 e s re status kind dt ph :
  over s0 s → over s0 (closeRecord attemptDetail e (setErr fence s re) status kind dt ph).
Proof. by apply over_same. Qed.

Lemma over_closed s0 e s status kind dt ph :
  over s0 s → over s0 (closeRecord attemptDetail e s status kind dt ph).
Proof. by apply over_same. Qed.

Lemma failOver_over s0 cfg e s candidate resp attempt rl :
  ready s0 s → over s0 (failOverPastCandidate fence attemptDetail cfg e s candidate resp attempt rl).1.
Proof. intros Hr. by apply (over_same s0 (drainBody e cfg s)); [|apply over_drain]. Qed.

Lemma closeDeferred_over s0 cfg e s resp re dt ph :
  ready s0 s → over s0 (closeDeferredAttempt fence attemptDetail cfg e s resp re dt ph).
Proof. intros Hr. by apply (over_same s0 (drainBody e cfg s)); [|apply over_drain]. Qed.

Lemma deferLast_over s0 cfg e s candidate resp attempt rl d :
  ready s0 s → deferLastCandidateRetry fence attemptDetail cfg e s candidate resp attempt rl = Some d → over s0 d.1.
Proof.
  intros Hr. unfold deferLastCandidateRetry, deferSaturatedRetry, deferServerErrorRetry.
  repeat case_match; intros [= <-]; apply closeDeferred_over; by apply (ready_same s0 s).
Qed.

Lemma reject_over s0 cfg x s candidate status err attempt :
  carried s0 s → over s0 (rejectUntranslatableBody fence attemptDetail cfg x s candidate status err attempt).1.
Proof.
  intros Hc. unfold rejectUntranslatableBody. destruct (default _ _) as [kind abandoned]. cbv zeta. cbn [fst].
  apply over_failed, over_settleSlot. destruct (_ && _); [|done].
  eapply sameSlot_carried; [apply chargeBreaker_same|done].
Qed.

Lemma rejectAndClose_over s0 cfg x s candidate status err attempt :
  carried s0 s → over s0 (rejectAndClose fence attemptDetail cfg x s candidate status err attempt).1.
Proof.
  intros Hc. unfold rejectAndClose. pose proof (reject_over s0 cfg x s candidate status err attempt Hc) as Ho.
  destruct (rejectUntranslatableBody _ _ _ _ _ _ _ _ _). by apply over_close.
Qed.

Lemma nonStreaming_over s0 cfg x s candidate resp attempt more fault completed kind empty :
  carried s0 s →
  over s0 (dispatchNonStreaming fence attemptDetail cfg x s candidate resp attempt more fault completed kind empty).1.
Proof.
  intros Hc. unfold dispatchNonStreaming. cbv zeta.
  set (s1 := onSlot (onSlot s _) _).
  assert (carried s0 s1) as Hc1.
  { apply onSlot_carried; [apply _|]. apply onSlot_carried; [apply _|done]. }
  clearbody s1. destruct fault as [err|]; [destruct (_ && _); [by apply rejectAndClose_over|]|];
    (apply over_settleSlot, closeBody_carried;
     eapply (sameSlot_carried _ (recordAnswerOutcome _ _ _ _ _ _ _ _)); [done|];
     eapply sameSlot_carried; [apply recordAnswerOutcome_same|]; apply onSlot_carried; [apply _|done]).
Qed.

Lemma finalize_over s0 cfg x s candidate status st scanErr opts :
  carried s0 s → over s0 (finalizeStream attemptDetail cfg x s candidate status st scanErr opts).
Proof.
  intros Hc. unfold finalizeStream. destruct (closeStream _ _ _ _ _ _) as [d inject].
  set (o := streamSlotOutcome _ _ _).
  apply (over_same s0 (settleSlot (delivered x) cfg s o)); [|by apply over_settleSlot]. by repeat case_match.
Qed.

Lemma streaming_over s0 cfg x s candidate resp attempt ttft probe gone tt st scanErr opts :
  carried s0 s →
  over s0 (dispatchStreaming fence attemptDetail cfg x s candidate resp attempt ttft probe gone tt st scanErr opts).1.
Proof.
  intros Hc. unfold dispatchStreaming. cbv zeta.
  set (s1 := if ttft then onSlot s holdVerdict else s).
  assert (carried s0 s1) as Hc1 by (unfold s1; destruct ttft; [apply onSlot_carried; [apply _|done]|done]).
  clearbody s1. destruct (if ttft then probe else None) as [p|].
  - destruct (classifyProbeError _ _ _ _ _ _ _) as [re charge]. cbn [fst].
    by apply over_failed, over_charge, over_settleSlot, closeBody_carried.
  - cbn [fst]. apply over_settleSlot, closeBody_carried, over_carried, finalize_over, onSlot_carried; [apply _|done].
Qed.

Lemma forward_over s0 cfg x s resp :
  ready s0 s → over s0 (forwardUpstreamError attemptDetail cfg x s resp).1.
Proof.
  intros Hr. unfold forwardUpstreamError. destruct (classifyUpstream x resp), (rateLimitTerminalKind _ _ _ _).
  by apply (over_same s0 (drainBody (delivered x) cfg s)); [|apply over_drain].
Qed.

Lemma dispatch_over s0 cfg x s candidate resp attempt more :
  carried s0 s → over s0 (dispatch fence attemptDetail cfg x s candidate resp attempt more).1.
Proof.
  intros Hc. unfold dispatch.
  destruct (body x); [by apply rejectAndClose_over|by apply nonStreaming_over|by apply streaming_over].
Qed.

Lemma settle_keeps x wd k o j sl :
  slots (settle x wd k o) !! j = Some sl → ∃ sl0, slots wd !! j = Some sl0 ∧ held sl = held sl0.
Proof.
  rewrite slots_of_settle, list_lookup_alter. case_decide; [subst|by eauto].
  intros (sl0 & Hsl & ->)%fmap_Some. exists sl0. by rewrite Hsl.
Qed.

Lemma bodies_of_settle x wd k o : bodies (settle x wd k o) = bodies wd.
Proof. unfold settle. by repeat case_match. Qed.

Lemma judge429_ready s0 e cfg s candidate resp eligible :
  ready s0 s → ready s0 (judge429AndRecordBreaker e cfg s candidate resp eligible).1.
Proof.
  intros Hr. rewrite judge429_stages. cbv zeta. cbn [fst].
  eapply ready_same; [apply recordBreakerOutcome_same|].
  set (rl := (judged e cfg s candidate resp eligible).2).
  set (s1 := ledgered _ _ _ _ _ _ _).
  assert (sameSlot s s1) as Hs1.
  { unfold s1, ledgered, judged, classify429Attempt. destruct eligible; by repeat case_match. }
  apply (ready_same s0 s s1 Hs1) in Hr. clearbody s1 rl. clear Hs1. destruct Hr as [Hc Hb Hu].
  pose proof (learned_pool e cfg s1 candidate rl (carried_conserved _ _ Hc)) as [Hcons _].
  unfold learned in *. destruct (_ && _); [|by split]. cbv zeta in *.
  pose proof (settleSlot_carried s0 e cfg s1 slotUnclean Hc) as [_ Hs].
  assert (slot (settleSlot e cfg s1 slotUnclean) = slot s1) as Hslot by apply (settleSlot_frame e cfg s1 slotUnclean).
  split; [split; [exact Hcons|exact Hs]|..].
  - intros k Hk. cbn in *. rewrite Hslot in Hk. unfold settleSlot. rewrite Hk. cbn. rewrite bodies_of_settle. by apply Hb.
  - intros k sl Hk Hsl. cbn in *. rewrite Hslot in Hk. unfold settleSlot in Hsl. rewrite Hk in Hsl. cbn in Hsl.
    apply settle_keeps in Hsl as (sl0 & Hsl0 & ->). by eapply Hu.
Qed.

Lemma judgeResponse_over s0 cfg x s candidate resp attempt total :
  carried s0 s → unheld s →
  over s0 (judgeResponse fence attemptDetail cfg x s candidate resp attempt total).1.
Proof.
  intros Hc Hu. unfold judgeResponse. cbv zeta.
  set (r := remap x resp).
  set (s1 := _ ⟦ pool := _ ⟧ ⟦ logData := noteAttemptStatus _ (StatusCode r) ⟧).
  assert (ready s0 s1) as Hr1.
  { unfold s1. eapply ready_same; [by split|]. unfold finishAttemptAdmission. destruct Hc as [Hc Hs]. split.
    - split.
      + cbn. destruct (slot s) as [k|]; [|done].
        exact (happen_conserved (MkSettings (now (answered x)) 0 0) (pool s)
                 (EHeaders k (cand_provider candidate) (Header r) (StatusCode r)) Hc).
      + unfold slotFrom in *. cbn. by destruct (slot s).
    - intros k Hk. cbn in *. rewrite Hk. cbn. rewrite lookup_insert_eq. by eexists.
    - intros k sl Hk Hsl. cbn in *. rewrite Hk in Hsl. by eapply Hu. }
  clearbody s1. pose proof (judge429_ready s0 (answered x) cfg s1 candidate r (shouldFailover cfg (StatusCode r)) Hr1) as Hr2.
  destruct (judge429AndRecordBreaker _ _ _ _ _ _) as [s2 rl]. cbn [fst] in Hr2.
  assert (∀ more, over s0 (if negb (servedSuccessStatus (StatusCode r))
      then forwardUpstreamError attemptDetail cfg x s2 r
      else dispatch fence attemptDetail cfg x s2 candidate r attempt more).1) as Hlast.
  { intros more. destruct (negb _); [by apply forward_over|by apply dispatch_over, Hr2]. }
  destruct (shouldFailover cfg (StatusCode r)), (attempt <? total - 1); cbn [andb negb]; [by apply failOver_over| |done..].
  destruct (deferLastCandidateRetry _ _ _ _ _ _ _ _ _) as [d|] eqn:Hd; [by eapply deferLast_over|done].
Qed.

Lemma doUpstream_same cfg x s candidate attempt : sameSlot s (doUpstream fence cfg x s candidate attempt).1.
Proof.
  unfold doUpstream. destruct (tryLoop _ _ _ _) as [[[resp|err] last] n]; [done|].
  destruct (isCanceled err || isDeadline err), (negb (from_option _ _ _)); cbn [andb fst];
    unfold chargeBreaker; by repeat case_match.
Qed.

Lemma admit_carried en wd id c :
  conserved wd →
  let '(p, k, _) := admitCandidate en wd id c in
  conserved p ∧
  (k = None ∧ slots p = slots wd ∨ k = Some (length (slots wd)) ∧ slots p = slots wd ++ [MkSlot id false false]).
Proof.
  intros Hc. pose proof (admit_conserved en wd id c Hc) as Hc'. unfold admitCandidate in *.
  destruct en; cbn [negb] in *; [|by auto]. destruct (tryAcquire (limiter wd) id c) as [l ok].
  destruct (negb ok); cbn [fst] in Hc'; auto.
Qed.

Lemma begin_carried cfg x s candidate attempt :
  conserved (pool s) →
  let r := beginAttempt fence attemptDetail cfg x s candidate attempt in
  match r.2 with
  | BeginSent _ => carried s r.1 ∧ unheld r.1
  | _ => over s r.1
  end.
Proof.
  intros Hc. unfold beginAttempt. cbv zeta. set (s1 := s ⟦ rowProvider := _ ⟧ ⟦ logData := _ ⟧ ⟦ rateLimit := zeroVerdict ⟧).
  pose proof (admit_carried (inflightEnabled cfg) (pool s1) (cand_provider candidate)
                (providerCeiling (cand_maxInFlight candidate)) Hc) as Hadm.
  destruct (admitCandidate _ _ _ _) as [[p k] ok] eqn:Ha. destruct Hadm as [Hp Hk].
  set (s2 := s1 ⟦ pool := p ⟧ ⟦ slot := k ⟧).
  assert (carried s s2 ∧ unheld s2) as [Hc2 Hu2].
  { destruct Hk as [[-> Hs]|[-> Hs]]; (split; [split; [exact Hp|]|]).
    - left. split; [done|exact Hs].
    - done.
    - right. eexists. split; [reflexivity|exact Hs].
    - intros k sl Hk Hsl. cbn in Hk, Hsl. injection Hk as <-.
      rewrite Hs, lookup_app_r, Nat.sub_diag in Hsl by done.
      by injection Hsl as <-. }
  destruct ok; cbn [negb snd fst].
  - destruct (buildError x) as [[kd tx]|]; cbn [snd fst].
    + eapply over_same; [|exact (over_settleSlot s (begun x) cfg s2 (slotOutcomeFor kd) Hc2)]. done.
    + pose proof (doUpstream_same cfg x s2 candidate attempt) as Hsame.
      destruct (doUpstream _ _ _ _ _ _) as [s3 [resp|]]; cbn [snd fst] in *.
      * split; [by eapply sameSlot_carried|]. by apply (sameSlot_ready s2).
      * apply over_closed, over_settleSlot. by eapply sameSlot_carried.
  - assert (k = None) as ->.
    { unfold admitCandidate in Ha. destruct (negb (inflightEnabled cfg)); [congruence|].
      destruct (tryAcquire _ _ _) as [l [|]]; cbn in Ha; congruence. }
    apply over_closed. apply (over_same s s2); [done|]. split; [exact Hc2|done].
Qed.
End Settling.

(** C27. Whatever becomes of an attempt - refused a slot, never built, never
    answered, healed, failed over, deferred, rejected, streamed or served - the
    slot it took is released exactly once by the time it reports its outcome:
    the limiter still counts exactly the slots out, every provider has as many
    out as before, and the session's own slot is spent. *)
Theorem attempt_settles_slot fence attemptDetail cfg x s candidate attempt totalCandidates :
  conserved (pool s) →
  let s' := (attemptCandidate fence attemptDetail cfg x s candidate attempt totalCandidates).1 in
  conserved (pool s') ∧ slotSettled s' ∧
  ∀ id, outstanding (pool s') id = outstanding (pool s) id ∧
    (∀ l l', limiter (pool s) = Some l → limiter (pool s') = Some l' →
       inflight (window l' id) = inflight (window l id)).
Proof.
  intros Hc s'. assert (over s s') as [Hcar Hset].
  { unfold s', attemptCandidate. pose proof (begin_carried fence attemptDetail cfg x s candidate attempt Hc) as Hb.
    destruct (beginAttempt _ _ _ _ _ _ _) as [s1 b]. cbn [fst snd] in Hb.
    destruct b as [| |resp]; [done|destruct (attemptRefused s1); [by apply (over_same s s1)|done]|]. destruct Hb as [Hc1 Hu1].
    destruct (isLearnableRefusal (StatusCode resp) (learnable404 x)), (heal x resp);
      try by apply judgeResponse_over.
    by apply over_failed, over_charge, over_settleSlot. }
  split; [apply Hcar|]. split; [done|]. intros id. pose proof (settled_outstanding s s' id Hcar Hset) as Ho.
  split; [done|]. intros l l' Hl Hl'. destruct Hc as (l0 & Hl0 & Hw), (carried_conserved _ _ Hcar) as (l1 & Hl1 & Hw1).
  simplify_eq. destruct (Hw id) as [_ ->], (Hw1 id) as [_ ->]. done.
Qed.

Lemma attempt_settles_slot_witness :
  let e := env_at (2 * Hour) in
  let cfg := MkConfig true true true true 0 true true true Minute Minute 20 Minute in
  let s := MkSession defaultBreaker start ∅ [] newTrail freshVerdict zeroVerdict None false false false "" in
  let cand := MkCandidate "p" "prov" (Some "m") None in
  let resp := MkResponse 503 (fun _ => "") zeroVerdict "overloaded" in
  let x := MkExchange e e e (MkContext None "" false) None (fun _ => TryOk resp) false (fun _ => NotHandled)
             (fun r => r) (fun _ => (None, "")) id id (fun _ => None) (Untranslatable (MkBodyError (MkError "" false false false false false) None)) in
  let s' := (attemptCandidate id id cfg x s cand 0 1).1 in
  (attemptCandidate id id cfg x s cand 0 1).2 = outcomeRetryServerError ∧ outstanding (pool s') "p" = 0.
Proof.
  intros e cfg s cand resp x s'. split; [vm_compute; reflexivity|].
  destruct (attempt_settles_slot id id cfg x s cand 0 1) as (_ & _ & H); [apply reachable_conserved, reach_start|].
  destruct (H "p") as [H0 _]. etransitivity; [exact H0|reflexivity].
Defined.

(** ** One-shot retries *)

Lemma onSlot_flags s f : flags (onSlot s f) = flags s.
Proof. unfold onSlot. by destruct (slot s). Qed.

Lemma settleSlot_flags e cfg s o : flags (settleSlot e cfg s o) = flags s.
Proof. rewrite settleSlot_onSlot. apply onSlot_flags. Qed.

Lemma closeBody_flags e cfg s : flags (closeBody e cfg s) = flags s.
Proof. rewrite closeBody_onSlot. apply onSlot_flags. Qed.

Lemma drainBody_flags e cfg s : flags (drainBody e cfg s) = flags s.
Proof. rewrite drainBody_onSlot. apply onSlot_flags. Qed.

Lemma chargeBreaker_flags e cfg s candidate status reason :
  flags (chargeBreaker e cfg s candidate status reason) = flags s.
Proof. unfold chargeBreaker. by case_match. Qed.

Lemma recordAnswerOutcome_flags e cfg s candidate completed kind empty status :
  flags (recordAnswerOutcome e cfg s candidate completed kind empty status) = flags s.
Proof. unfold recordAnswerOutcome, chargeBreaker, creditBreaker. by repeat case_match. Qed.

Lemma recordBreakerOutcome_flags e cfg s candidate status eligible rl :
  flags (recordBreakerOutcome e cfg s candidate status eligible rl) = flags s.
Proof. unfold recordBreakerOutcome, recordRateLimitOutcome, recordPaymentRequiredOutcome. by repeat case_match. Qed.

Lemma judge429_flags e cfg s candidate resp eligible :
  flags (judge429AndRecordBreaker e cfg s candidate resp eligible).1 = flags s.
Proof.
  rewrite judge429_stages. cbv zeta. cbn [fst]. rewrite recordBreakerOutcome_flags.
  transitivity (flags (ledgered e cfg (judged e cfg s candidate resp eligible).1 candidate resp eligible
                         (judged e cfg s candidate resp eligible).2)).
  - unfold learned. destruct (_ && _); [|done]. cbv zeta. apply settleSlot_flags.
  - unfold ledgered, judged, classify429Attempt. destruct eligible; by repeat case_match.
Qed.

Section Retries.
Context (fence attemptDetail : string → string).

Lemma setErr_flags s re : flags (setErr fence s re) = flags s.
Proof. done. Qed.

Lemma closeRecord_flags e s status kind dt ph : flags (closeRecord attemptDetail e s status kind dt ph) = flags s.
Proof. done. Qed.

Hint Rewrite onSlot_flags settleSlot_flags closeBody_flags drainBody_flags chargeBreaker_flags
  recordAnswerOutcome_flags setErr_flags closeRecord_flags : flags.

Lemma rejectAndClose_flags cfg x s candidate status err attempt :
  let r := rejectAndClose fence attemptDetail cfg x s candidate status err attempt in
  flags r.1 = flags s ∧ r.2 = outcomeFailover.
Proof.
  unfold rejectAndClose, rejectUntranslatableBody. destruct (default _ _) as [kind abandoned]. cbv zeta. cbn [fst snd].
  split; [|done]. destruct (_ && _); (autorewrite with flags; done).
Qed.

Lemma dispatch_flags cfg x s candidate resp attempt more :
  let r := dispatch fence attemptDetail cfg x s candidate resp attempt more in
  flags r.1 = flags s ∧ (r.2 = outcomeFailover ∨ r.2 = outcomeServed).
Proof.
  unfold dispatch, dispatchNonStreaming, dispatchStreaming. cbv zeta.
  destruct (body x) as [err|fault completed kind empty|ttft probe gone tt st scanErr opts].
  - destruct (rejectAndClose_flags cfg x s candidate (StatusCode resp) err attempt). auto.
  - set (s1 := onSlot (onSlot s _) _). assert (flags s1 = flags s) as Hf by (unfold s1; (autorewrite with flags; done)).
    clearbody s1.
    assert (∀ b d, flags (settleSlot b cfg (closeBody b cfg (closeTerminal attemptDetail b
      (recordAnswerOutcome b cfg (onSlot s1 holdVerdict) candidate completed kind empty (StatusCode resp))
      (StatusCode resp) kind)) d) = flags s) as Hserve.
    { intros b d. autorewrite with flags. unfold closeTerminal. change (flags (?s' ⟦ logData := _ ⟧)) with (flags s').
      (autorewrite with flags; done). }
    destruct fault as [err|]; [destruct (_ && _)|]; [|(split; [apply Hserve|auto])..].
    destruct (rejectAndClose_flags cfg x s1 candidate (StatusCode resp) err attempt) as [-> ->]. auto.
  - set (s1 := if ttft then onSlot s holdVerdict else s).
    assert (flags s1 = flags s) as Hf by (unfold s1; destruct ttft; (autorewrite with flags; done)). clearbody s1.
    destruct (if ttft then probe else None) as [p|].
    + destruct (classifyProbeError _ _ _ _ _ _ _) as [re charge]. cbn [fst snd]. destruct charge; autorewrite with flags; auto.
    + cbn [fst snd]. split; [|auto]. autorewrite with flags. rewrite <- Hf, <- (onSlot_flags s1 holdVerdict).
      set (s2 := onSlot s1 holdVerdict). clearbody s2.
      unfold finalizeStream. destruct (closeStream _ _ _ _ _ _) as [d inject]. set (o := streamSlotOutcome _ _ _).
      transitivity (flags (settleSlot (delivered x) cfg s2 o)); [|(autorewrite with flags; done)].
      by repeat case_match.
Qed.

Lemma begin_flags cfg x s candidate attempt :
  flags (beginAttempt fence attemptDetail cfg x s candidate attempt).1 = flags s.
Proof.
  unfold beginAttempt. cbv zeta. destruct (admitCandidate _ _ _ _) as [[p k] ok].
  destruct ok; cbn [negb]; [|done]. destruct (buildError x) as [[kd tx]|].
  - cbn [fst]. set (s1 := settleSlot _ _ _ _). transitivity (flags s1); [done|]. unfold s1. (autorewrite with flags; done).
  - set (s1 := _ ⟦ slot := k ⟧). assert (flags (doUpstream fence cfg x s1 candidate attempt).1 = flags s) as Hup.
    { transitivity (flags s1); [|done]. clearbody s1. unfold doUpstream.
      destruct (tryLoop _ _ _ _) as [[[resp|err] last] n]; [done|].
      destruct (isCanceled err || isDeadline err), (negb (from_option _ _ _)); cbn [andb fst];
        unfold chargeBreaker; by repeat case_match. }
    destruct (doUpstream _ _ _ _ _ _) as [s2 [resp|]]; cbn [fst] in *; (autorewrite with flags; done).
Qed.

Lemma deferLast_flags cfg e s candidate resp attempt rl :
  match deferLastCandidateRetry fence attemptDetail cfg e s candidate resp attempt rl with
  | None => True
  | Some (s', o) =>
      retries o = true ∧
      saturationRetried s' = saturationRetried s || bool_decide (o = outcomeRetrySaturated) ∧
      serverErrorRetried s' = serverErrorRetried s || bool_decide (o = outcomeRetryServerError) ∧
      (o = outcomeRetrySaturated → saturationRetried s = false ∧ class rl = rateLimitSaturated) ∧
      (o = outcomeRetryServerError → serverErrorRetried s = false ∧ retryableServerError (StatusCode resp) = true ∧
         serverErrorRetryBudgetLeft e cfg = true)
  end.
Proof.
  unfold deferLastCandidateRetry, deferSaturatedRetry, deferServerErrorRetry, closeDeferredAttempt.
  assert (∀ s1 re dt ph, let s2 := closeRecord attemptDetail e (setErr fence (drainBody e cfg s1) re) (StatusCode resp)
    (lastKind (setErr fence (drainBody e cfg s1) re)) dt ph in
    saturationRetried s2 = saturationRetried s1 ∧ serverErrorRetried s2 = serverErrorRetried s1) as Hf.
  { intros s1 re dt ph s2. pose proof (drainBody_flags e cfg s1) as Hd. unfold flags in Hd.
    injection Hd as H1 H2. split; [exact H1|exact H2]. }
  cbv zeta in *.
  destruct (bool_decide (class rl = rateLimitSaturated) && negb (saturationRetried s)) eqn:Hsat.
  - apply andb_true_iff in Hsat as [Hsat%bool_decide_eq_true Hs1%negb_true_iff].
    edestruct Hf as [-> ->]. cbn. by rewrite Hs1, orb_false_r.
  - destruct (serverErrorRetryEnabled cfg && _ && _ && _) eqn:Hc; [|done].
    rewrite !andb_true_iff, negb_true_iff in Hc. destruct Hc as [[[_ Hst] Hs2] Hb].
    edestruct Hf as [-> ->]. cbn. by rewrite Hs2, orb_false_r.
Qed.

Lemma judgeResponse_flags cfg x s candidate resp attempt total :
  answered_contract (answered x) cfg total attempt s
    (judgeResponse fence attemptDetail cfg x s candidate resp attempt total).
Proof.
  unfold judgeResponse. cbv zeta. set (rp := remap x resp).
  set (s1 := _ ⟦ pool := _ ⟧ ⟦ logData := noteAttemptStatus _ (StatusCode rp) ⟧).
  pose proof (judge429_flags (answered x) cfg s1 candidate rp (shouldFailover cfg (StatusCode rp))) as Hj.
  destruct (judge429AndRecordBreaker _ _ _ _ _ _) as [s2 rl]. cbn [fst] in Hj.
  assert (∀ r : session * candidateOutcome, flags r.1 = flags s2 →
    r.2 = outcomeFailover ∨ r.2 = outcomeServed ∨ r.2 = outcomeFatal → answered_contract (answered x) cfg total attempt s r) as Hplain.
  { intros [s3 o] Hfl Ho. cbn [fst snd] in *. rewrite Hj in Hfl. injection Hfl as H1 H2. 
    destruct Ho as [-> |[-> | ->]]; (split; [split; cbn; rewrite ?H1, ?H2, ?orb_false_r; done|done]). }
  assert (∀ more, answered_contract (answered x) cfg total attempt s (if negb (servedSuccessStatus (StatusCode rp))
      then forwardUpstreamError attemptDetail cfg x s2 rp
      else dispatch fence attemptDetail cfg x s2 candidate rp attempt more)) as Hlast.
  { intros more. destruct (negb _); apply Hplain.
    - unfold forwardUpstreamError. destruct (classifyUpstream x rp), (rateLimitTerminalKind _ _ _ _). cbn [fst].
      transitivity (flags (drainBody (delivered x) cfg s2)); [done|]. by autorewrite with flags.
    - unfold forwardUpstreamError. destruct (classifyUpstream x rp), (rateLimitTerminalKind _ _ _ _). auto.
    - apply dispatch_flags.
    - edestruct dispatch_flags as [_ [-> | ->]]; auto. }
  destruct (shouldFailover cfg (StatusCode rp)), (Z.ltb_spec attempt (total - 1)); cbn [andb negb]; [| |done..].
  - apply Hplain; [|by left]. cbn [fst failOverPastCandidate]. by autorewrite with flags.
  - pose proof (deferLast_flags cfg (answered x) s2 candidate rp attempt rl) as Hd.
    destruct (deferLastCandidateRetry _ _ _ _ _ _ _ _ _) as [[s3 o]|]; [|done].
    injection Hj as H1 H2. cbn in H1, H2. rewrite H1, H2 in Hd. destruct Hd as (Hr & Hf1 & Hf2 & Hd1 & Hd2).
    unfold retries in Hr. apply orb_true_iff in Hr as [->%bool_decide_eq_true| ->%bool_decide_eq_true];
      (split; [split; cbn [fst snd]; congruence || naive_solver|naive_solver]).
Qed.
End Retries.

Lemma contract_flags total attempt s s1 r :
  flags s1 = flags s → retry_contract total attempt s1 r → retry_contract total attempt s r.
Proof. intros [= H1 H2] [C1 C2 C3 C4 C5]. split; congruence || auto; intros; [rewrite <- H1|rewrite <- H2]; auto. Qed.

Lemma contract_plain total attempt s s' o :
  flags s' = flags s → retries o = false → retry_contract total attempt s (s', o).
Proof. intros [= H1 H2] Ho. destruct o; try done; split; cbn; rewrite ?orb_false_r; done. Qed.

(** What an attempt that sent nothing leaves behind. *)
Lemma begin_refused fence attemptDetail cfg x s candidate attempt :
  let r := beginAttempt fence attemptDetail cfg x s candidate attempt in
  match r.2 with
  | BeginBusy =>
      (admitCandidate (inflightEnabled cfg) (pool s) (cand_provider candidate)
         (providerCeiling (cand_maxInFlight candidate))).2 = false ∧ circuitBreaker r.1 = circuitBreaker s
  | BeginFailed =>
      attemptRefused s = false → attemptRefused r.1 = true →
      (∃ text, buildError x = Some (KindValidation, text)) ∧ circuitBreaker r.1 = circuitBreaker s
  | BeginSent _ => True
  end.
Proof.
  unfold beginAttempt. cbv zeta. destruct (admitCandidate _ _ _ _) as [[p k] ok] eqn:Ha.
  destruct ok; cbn [negb]; [|split; [by apply (f_equal snd) in Ha|done]].
  destruct (buildError x) as [[kd tx]|]; cbn [fst snd].
  - intros _ Hr. apply bool_decide_eq_true in Hr as ->. split; [by eexists|].
    set (s1 := _ ⟦ slot := k ⟧). by destruct (settleSlot_frame (begun x) cfg s1 (slotOutcomeFor KindValidation)) as (H & _).
  - set (s1 := _ ⟦ slot := k ⟧). assert (attemptRefused (doUpstream fence cfg x s1 candidate attempt).1 = attemptRefused s) as Hup.
    { transitivity (attemptRefused s1); [|done]. clearbody s1. unfold doUpstream.
      destruct (tryLoop _ _ _ _) as [[[resp|err] last] n]; [done|].
      destruct (isCanceled err || isDeadline err), (negb (from_option _ _ _)); cbn [andb fst];
        unfold chargeBreaker; by repeat case_match. }
    destruct (doUpstream _ _ _ _ _ _) as [s2 [resp|]]; cbn [fst snd] in *; [done|]. intros Hf Hr. exfalso.
    set (o := slotOutcomeOf (lastKind s2)) in Hr.
    destruct (settleSlot_frame (answered x) cfg s2 o) as (_ & _ & _ & _ & _ & _ & _ & _ & H).
    cbn in Hr. congruence.
Qed.

(** What the walk relies on. *)
Lemma attempt_contract fence attemptDetail cfg x s candidate attempt totalCandidates :
  let r := attemptCandidate fence attemptDetail cfg x s candidate attempt totalCandidates in
  retry_contract totalCandidates attempt s r ∧
  (r.2 = outcomeRetryServerError → serverErrorRetryBudgetLeft (answered x) cfg = true) ∧
  (r.2 = outcomeBusy →
     (admitCandidate (inflightEnabled cfg) (pool s) (cand_provider candidate)
        (providerCeiling (cand_maxInFlight candidate))).2 = false ∧ circuitBreaker r.1 = circuitBreaker s) ∧
  (r.2 = outcomeSkipped → attemptRefused s = false →
     (∃ text, buildError x = Some (KindValidation, text)) ∧ circuitBreaker r.1 = circuitBreaker s).
Proof.
  intros r. unfold r, attemptCandidate. clear r.
  pose proof (begin_flags fence attemptDetail cfg x s candidate attempt) as Hfl.
  pose proof (begin_refused fence attemptDetail cfg x s candidate attempt) as Hre.
  destruct (beginAttempt _ _ _ _ _ _ _) as [s1 b]. cbn [fst snd] in Hfl, Hre. destruct b as [| |resp].
  - split; [by apply contract_plain|]. done.
  - destruct (attemptRefused s1) eqn:Href; (split; [by apply contract_plain|]); [|done].
    split; [done|]. split; [done|]. intros _ Hs. by apply Hre.
  - assert (∀ resp', let r := judgeResponse fence attemptDetail cfg x s1 candidate resp' attempt totalCandidates in
      retry_contract totalCandidates attempt s r ∧
      (r.2 = outcomeRetryServerError → serverErrorRetryBudgetLeft (answered x) cfg = true) ∧
      r.2 ≠ outcomeBusy ∧ r.2 ≠ outcomeSkipped) as Hj.
    { intros resp'. destruct (judgeResponse_flags fence attemptDetail cfg x s1 candidate resp' attempt totalCandidates)
        as (Hc & Hb & Hs & Hbud). split; [by eapply contract_flags|auto]. }
    destruct (if isLearnableRefusal (StatusCode resp) (learnable404 x) then heal x resp else NotHandled) as [|resp'|re].
    1, 2: edestruct Hj as (? & ? & ? & ?); split_and!; [eassumption|eassumption|done|done].
    split; [|done]. apply contract_plain; [|done]. rewrite closeRecord_flags, setErr_flags.
    destruct (retryRoundIsProviderFault (Kind re)); by rewrite ?chargeBreaker_flags, settleSlot_flags.
Qed.


(** ** The transport's retries *)

Lemma retryable_resendable err wrote :
  isRetryableUpstreamError err wrote = true ↔
  isCanceled err = false ∧ isDeadline err = false ∧ isTimeout err = false ∧
  (wrote = false ∨ isInterrupted err = true ∨ isIdleClosed err = true).
Proof.
  unfold isRetryableUpstreamError.
  destruct (isCanceled err), (isDeadline err), (isTimeout err), wrote, (isInterrupted err), (isIdleClosed err);
    cbn; naive_solver.
Qed.

Lemma tryLoop_spec retries try send last0 :
  let '(res, last, n) := tryLoop retries try send last0 in
  (S try ≤ n ≤ S try + retries)%nat ∧
  (∀ i, (try ≤ i)%nat → (S i < n)%nat → resendable (send i)) ∧
  ending send (pred n) (n =? S try + retries)%nat res.
Proof.
  revert try last0. induction retries as [|retries IH]; intros try last0; simpl; destruct (send try) as [resp|err wrote c] eqn:Hs.
  - split; [lia|]. split; [intros; lia|exact Hs].
  - split; [lia|]. split; [intros; lia|]. left. exists wrote, c. split; [done|]. left. by rewrite Nat.add_0_r, Nat.eqb_refl.
  - split; [lia|]. split; [intros; lia|exact Hs].
  - destruct (isRetryableUpstreamError err wrote) eqn:Hr; cbn [negb].
    + destruct c as [c|].
      * split; [lia|]. split; [intros; lia|]. right. by exists err, wrote.
      * specialize (IH (S try) (Some err)). destruct (tryLoop retries (S try) send (Some err)) as [[res last] n].
        destruct IH as (Hn & Hre & Hend). split; [lia|]. split.
        -- intros i Hi Hlt. destruct (decide (i = try)) as [->|]; [|apply Hre; lia].
           exists err, wrote. split; [done|]. by apply retryable_resendable.
        -- by replace (try + S retries)%nat with (S try + retries)%nat by lia.
    + split; [lia|]. split; [intros; lia|]. left. exists wrote, c. split; [done|]. by right.
Qed.

(** One attempt's request is sent at least once and at most three times.
    It is sent again only after a failure of the connection itself - never once
    the caller has cancelled, a deadline has passed or the provider has timed
    out, and never after a byte reached the wire unless the peer dropped the
    connection. The answer returned is the last send's, untouched; a failure is
    charged to the provider once, unless nobody is left waiting for it, and the
    verdict names the cancellation's origin when the context is what ended it. *)
Lemma doUpstream_spec fence cfg x s candidate attempt :
  let '(res, _, n) := tryLoop maxTransientRetries 0 (send x) None in
  (1 ≤ n ≤ 3)%nat ∧
  (∀ i, (S i < n)%nat → resendable (send x i)) ∧
  ending (send x) (pred n) (n =? 3)%nat res ∧
  let '(s', answer) := doUpstream fence cfg x s candidate attempt in
  match res with
  | inl resp => answer = Some resp ∧ s' = s
  | inr err =>
      let contextual := isCanceled err || isDeadline err in
      let gone := contextual && from_option (fun _ => true) false (Err (attemptCtx x)) in
      answer = None ∧
      circuitBreaker s' =
        circuitBreaker (if gone && requestAbandoned (attemptCtx x) err then s
                        else chargeBreaker (answered x) cfg s candidate 0 "upstream request failed") ∧
      lastKind s' = Some (if gone then cancelOriginToKind (resolveCancelOrigin (attemptCtx x) err)
                          else if contextual then KindProviderTimeout else KindProviderError)
  end.
Proof.
  pose proof (tryLoop_spec maxTransientRetries 0 (send x) None) as Hloop. unfold doUpstream.
  destruct (tryLoop _ _ _ _) as [[res last] n]. destruct Hloop as (Hn & Hre & Hend).
  split; [unfold maxTransientRetries in Hn; lia|]. split; [intros i Hi; apply Hre; lia|]. split; [exact Hend|].
  destruct res as [resp|err]; [done|]. cbv zeta.
  assert (∀ s1 kind u, kind ≠ KindValidation →
    lastKind (setErr fence s1 (MkReqError (Some kind) attempt (cand_name candidate) "" u "" "")) = Some kind) as Hkind.
  { intros s1 kind u Hk. unfold lastKind, setErr. cbn [verdict update_field upd_verdict].
    rewrite setReqErr_kind by (cbn; congruence). by rewrite recordReqErr_last. }
  assert (∀ s1 re, circuitBreaker (chargeBreaker (answered x) cfg (setErr fence s1 re) candidate 0 "upstream request failed")
    = circuitBreaker (chargeBreaker (answered x) cfg s1 candidate 0 "upstream request failed")) as Hcb.
  { intros. unfold chargeBreaker. by case_match. }
  assert (∀ s1, lastKind (chargeBreaker (answered x) cfg s1 candidate 0 "upstream request failed") = lastKind s1) as Hlk.
  { intros. unfold chargeBreaker. by case_match. }
  assert (cancelOriginToKind (resolveCancelOrigin (attemptCtx x) err) ≠ KindValidation) as Horigin.
  { unfold cancelOriginToKind. by repeat case_bool_decide. }
  destruct (isCanceled err || isDeadline err); cbn [andb]; [destruct (Err (attemptCtx x)); cbn [from_option option_rect negb andb]|].
  - destruct (requestAbandoned (attemptCtx x) err); cbn [negb]; (split; [done|]); rewrite ?Hcb, ?Hlk; auto.
  - split; [done|]. split; [apply Hcb|]. etransitivity; [apply Hlk|]. by apply Hkind.
  - split; [done|]. split; [apply Hcb|]. etransitivity; [apply Hlk|]. by apply Hkind.
Qed.
