(* ===== verification/FailoverWalk.v ===== *)
(** * The failover walk (internal/proxy/proxy.go, inflight.go)

    One request across its candidates: the main loop with its backoffs and
    deadline check, the wait for a slot when every candidate was busy, the
    one-shot retries of a last candidate, and the answer when nothing served.
    The walk runs against an interface, [Gateway]: the clock, the random draws,
    the selects it blocks in, the request's session and the attempt function. A
    computation yields the events it causes, in order; an answer is written
    either by an attempt that served (or ended fatally) or by an [EvAnswer]. *)

From S2P Require Import Prelude Circuit Cooldown CircuitEvents Breaker BreakerGate BreakerPhases.
From S2P Require Import Errors Verdict Inflight AttemptTrail Outcome StreamEnd Attempt.

(** ** The interface *)

(** What ended [waitForSlot]'s select. *)
Inductive wake := WokenNotify | WokenTimer | WokenCtx.

Class Gateway (G : Type) := {
  readClock : G → Time * G;                                            (* time.Now *)
  draw : Z → G → Z * G;                                                (* rand.Int64N *)
  pause : Duration → G → bool * G;                                     (* time.After against ctx.Done: the latter? *)
  await : Time → nat → G → wake * G;                                   (* a release past a generation, a deadline, ctx *)
  ctxDone : G → bool;
  sess : G → session;
  put : session → G → G;
  attemptOne : modelCandidate → Z → Z → G → candidateOutcome * G
}.

(** ** Events *)

Inductive pauseReason :=
| PauseBackoff (contacted : Z)
| PauseRetry (yields : bool) (asked : Duration) (remaining : option Duration).

Inductive walkEvent :=
| EvAttempt (candidate : modelCandidate) (attempt total : Z) (outcome : candidateOutcome)
| EvPause (why : pauseReason) (d : Duration)
| EvAnswer (a : terminalAnswer).

(** A computation over the gateway, with the events it causes. *)
Definition walkM (G A : Type) : Type := G → list walkEvent * A * G.

#[export] Instance walk_ret G : MRet (walkM G) := fun A a g => ([], a, g).
#[export] Instance walk_bind G : MBind (walkM G) := fun A B k m g =>
  let '(l1, a, g) := m g in
  let '(l2, b, g) := k a g in
  (l1 ++ l2, b, g).

(** ** Backoff *)

Definition backoffBase : Duration := 100 * 1000000.
Definition backoffCap : Duration := 2 * Second.

Section Walk.
Context {G : Type} `{!Gateway G}.
(** The request: its model, its settings, the 429 setting of the exhaustion
    path, the fence of its error texts, and what the platform makes of a float
    too large for an int64. *)
Context (reqModel : string) (cfg : requestConfig) (status429 : bool).
Context (fence : string → string) (floatOverflow : Z → Duration).

Definition lift {A} (f : G → A * G) : walkM G A := fun g => let '(a, g) := f g in ([], a, g).
Definition getSess : walkM G session := fun g => ([], sess g, g).
Definition emit (ev : walkEvent) : walkM G unit := fun g => ([ev], tt, g).
Definition modifySess (f : session → session) : walkM G unit := fun g => ([], tt, put (f (sess g)) g).
Definition whenDone : walkM G bool := fun g => ([], ctxDone g, g).

Definition setReq (re : reqError) : walkM G unit := modifySess (fun s => setErr fence s re).

Definition tryCandidate (candidate : modelCandidate) (attempt total : Z) : walkM G candidateOutcome := fun g =>
  let '(o, g) := attemptOne candidate attempt total g in ([EvAttempt candidate attempt total o], o, g).

Definition sleep (why : pauseReason) (d : Duration) : walkM G bool := fun g =>
  let '(gone, g) := pause d g in ([EvPause why d], gone, g).

(** The doubling is exact in a float64 for these bases; past int64 the
    conversion is the platform's. *)
Definition toDuration (z : Z) : Duration := if (z <=? int64_max) then z else floatOverflow z.

Definition failoverBackoff (base capacity : Duration) (attempt : Z) : walkM G Duration :=
  let exp := Z.min (toDuration (base * 2 ^ (attempt - 1))) capacity in
  jitter ← lift (draw base);
  mret (exp + jitter).

(** ** Terminal answers *)

Definition failClientGone (attempt : Z) (providerName : string) : walkM G unit :=
  s ← getSess;
  setReq (MkReqError (Some KindClientDisconnect) attempt providerName ""
            (Underlying (lastReqErr (verdict s))) "" "") ;;
  s ← getSess;
  emit (EvAnswer (MkAnswer statusClientClosedRequest (Some KindClientDisconnect) (lastErr (verdict s))
                    "client disconnected" None)).

Definition failExhausted (numCandidates : Z) : walkM G unit :=
  s ← getSess;
  (if bool_decide (Provider (lastReqErr (verdict s)) = "") then mret tt
   else modifySess (fun s => s ⟦ rowProvider := Provider (lastReqErr (verdict s)) ⟧)) ;;
  emit (EvAnswer (failAllExhausted (verdict s) reqModel (isFailover cfg) numCandidates status429)).

(** A connection dropped while backing off after a provider stall: the stall is
    the answer, for the candidates contacted so far. *)
Definition failStalled (attempt : Z) : walkM G unit :=
  s ← getSess;
  let last := lastReqErr (verdict s) in
  emit (EvAnswer (MkAnswer (terminalStatus last) (Kind last) (terminalLogMessage last (isFailover cfg) attempt)
                    (terminalClientMessage last reqModel (isFailover cfg)) None)).

(** ** The last candidate's retries *)

Definition retryLastCandidate (settle : modelCandidate → Z → candidateOutcome → walkM G (option bool))
    (candidate : modelCandidate) (attempt : Z) (wait : Duration) (yields : bool) : walkM G (option bool) :=
  t ← lift readClock;
  let remaining := if IsZero (overallDeadline cfg) then None else Some (Sub (overallDeadline cfg) t) in
  let waited := match remaining with
                | Some r => if yields then Z.min wait (wrap64 (r - retryMinRound)) else wait
                | None => wait
                end in
  if from_option (fun r => (waited <? 0) || (r <? wrap64 (waited + retryMinRound))) false remaining
  then mret (Some false)
  else
    gone ← sleep (PauseRetry yields wait remaining) waited;
    if (gone : bool) then failClientGone (attempt - 1) (cand_name candidate) ;; mret (Some true)
    else
      o ← tryCandidate candidate attempt (attempt + 1);
      settle candidate (attempt + 1) o.

Definition retrySaturatedCandidate (settle : modelCandidate → Z → candidateOutcome → walkM G (option bool))
    (candidate : modelCandidate) (attempt : Z) : walkM G (option bool) :=
  s ← getSess;
  let wait := retryAfter (rateLimit s) in
  let wait := if wait <=? 0 then defaultSaturatedRetryAfter else wait in
  let wait := Z.min wait (rate_limit_saturation_max_wait cfg) in
  retryLastCandidate settle candidate attempt wait false.

Definition retryServerErrorCandidate (settle : modelCandidate → Z → candidateOutcome → walkM G (option bool))
    (candidate : modelCandidate) (attempt : Z) : walkM G (option bool) :=
  wait ← failoverBackoff serverErrorRetryBackoff (2 * Second) 1;
  retryLastCandidate settle candidate attempt wait true.

(** [None] is out of fuel; otherwise whether the request was answered. *)
Fixpoint settleLastCandidateRetry (fuel : nat) (candidate : modelCandidate) (next : Z) (outcome : candidateOutcome) :
    walkM G (option bool) :=
  match outcome with
  | outcomeRetrySaturated =>
      match fuel with
      | O => mret None
      | S fuel => retrySaturatedCandidate (settleLastCandidateRetry fuel) candidate next
      end
  | outcomeRetryServerError =>
      match fuel with
      | O => mret None
      | S fuel => retryServerErrorCandidate (settleLastCandidateRetry fuel) candidate next
      end
  | outcomeFailover | outcomeSkipped | outcomeBusy => mret (Some false)
  | _ => mret (Some true)
  end.

(** ** Waiting for a slot *)

(** The caller's check: the first busy candidate whose provider has room. *)
Fixpoint firstAdmitted (l : option inflightLimiter) (i : nat) (busy : list modelCandidate) :
    option inflightLimiter * option nat :=
  match busy with
  | [] => (l, None)
  | cand :: busy =>
      let '(l, ok) := canAdmit l (cand_provider cand) (providerCeiling (cand_maxInFlight cand)) in
      if (ok : bool) then (l, Some i) else firstAdmitted l (S i) busy
  end.

Definition checkBusy (busy : list modelCandidate) : walkM G (option nat) := fun g =>
  let s := sess g in
  let '(l, i) := firstAdmitted (limiter (pool s)) 0 busy in
  ([], i, put (s ⟦ pool := MkWorld l (slots (pool s)) (bodies (pool s)) ⟧) g).

(** [waitForSlot]: its verdict and the index its check found; [None] is out of
    fuel. A nil limiter admits at once, without running the check. *)
Fixpoint waitForSlot (fuel : nat) (deadline : Time) (busy : list modelCandidate) :
    walkM G (option (bool * option nat)) :=
  s ← getSess;
  match limiter (pool s) with
  | None => mret (Some (true, None))
  | Some l =>
      match fuel with
      | O => mret None
      | S fuel =>
          let notified := notify l in
          i ← checkBusy busy;
          match (i : option nat) with
          | Some i => mret (Some (true, Some i))
          | None =>
              w ← lift (await deadline notified);
              match (w : wake) with
              | WokenNotify => waitForSlot fuel deadline busy
              | _ => mret (Some (false, None))
              end
          end
      end
  end.

(** The verdict while the others wait, once a refused body has taken a busy
    skip's place. *)
Definition restoreBusyVerdict (refused next : modelCandidate) (attempt : Z) : walkM G unit :=
  s ← getSess;
  let last := lastReqErr (verdict s) in
  if bool_decide (Kind last = Some KindValidation) && bool_decide (Provider last = cand_name refused)
     && bool_decide (Model last = candidateModelID refused)
  then setReq (MkReqError (Some KindProviderSaturated) attempt (cand_name next) (candidateModelID next) "" busySkipDetail "")
  else mret tt.

Fixpoint slotLoop (fuel : nat) (deadline : Time) (attempt : Z) (busy : list modelCandidate) : walkM G (option bool) :=
  match fuel with
  | O => mret None
  | S fuel =>
      t ← lift readClock;
      if negb (Before t deadline) then mret (Some false) else
      w ← waitForSlot fuel deadline busy;
      done ← whenDone;
      match (w : option (bool * option nat)) with
      | None => mret None
      | Some (ok, idx) =>
          if (done : bool) then
            s ← getSess;
            failClientGone (attempt - 1) (rowProvider s) ;; mret (Some true)
          else match ok, idx ≫= fun i => (fun cand => (i, cand)) <$> busy !! i with
          | true, Some (i, cand) =>
              o ← tryCandidate cand attempt (attempt + 1);
              match (o : candidateOutcome) with
              | outcomeBusy => slotLoop fuel deadline (attempt + 1) busy
              | outcomeFailover => mret (Some false)
              | outcomeSkipped =>
                  match delete i busy with
                  | [] => mret (Some false)
                  | next :: rest =>
                      restoreBusyVerdict cand next attempt ;;
                      slotLoop fuel deadline (attempt + 1) (next :: rest)
                  end
              | outcomeRetrySaturated | outcomeRetryServerError =>
                  settleLastCandidateRetry fuel cand (attempt + 1) o
              | _ => mret (Some true)
              end
          | _, _ => mret (Some false)
          end
      end
  end.

Definition retryAfterSlotFrees (fuel : nat) (busy : list modelCandidate) (numCandidates : Z) : walkM G (option bool) :=
  t ← lift readClock;
  let deadline := Add t (rate_limit_saturation_max_wait cfg) in
  let deadline := if Before (overallDeadline cfg) deadline then overallDeadline cfg else deadline in
  slotLoop fuel deadline numCandidates busy.

(** ** The loop *)

(** How the main loop ended: the request answered, or the candidates run out
    with these busy. *)
Inductive loopEnd := LoopAnswered | LoopOver (busy : list modelCandidate).

(** The backoff before [attempt]: whether the request ended in it. *)
Definition backOff (attempt contacted : Z) : walkM G bool :=
  if 0 <? contacted then
    d ← failoverBackoff backoffBase backoffCap contacted;
    gone ← sleep (PauseBackoff contacted) d;
    if (gone : bool) then
      s ← getSess;
      (if bool_decide (Kind (lastReqErr (verdict s)) = Some KindProviderTimeout) then failStalled attempt
       else failClientGone (attempt - 1) (rowProvider s)) ;;
      mret true
    else mret false
  else mret false.

Fixpoint candidateLoop (fuel : nat) (total attempt contacted : Z) (busy : list modelCandidate)
    (candidates : list modelCandidate) : walkM G (option loopEnd) :=
  match candidates with
  | [] => mret (Some (LoopOver busy))
  | candidate :: candidates =>
      t ← lift readClock;
      if After t (overallDeadline cfg) && (0 <? attempt) then
        s ← getSess;
        setReq (MkReqError (Some KindFailoverTimeout) (attempt - 1) (rowProvider s) ""
                  (Underlying (lastReqErr (verdict s))) "" "") ;;
        mret (Some (LoopOver busy))
      else
        ended ← backOff attempt contacted;
        if (ended : bool) then mret (Some LoopAnswered) else
        o ← tryCandidate candidate attempt total;
        match (o : candidateOutcome) with
        | outcomeFailover => candidateLoop fuel total (attempt + 1) (contacted + 1) busy candidates
        | outcomeBusy => candidateLoop fuel total (attempt + 1) contacted (busy ++ [candidate]) candidates
        | outcomeSkipped => candidateLoop fuel total (attempt + 1) contacted busy candidates
        | outcomeRetrySaturated | outcomeRetryServerError =>
            answered ← settleLastCandidateRetry fuel candidate total o;
            mret ((fun answered : bool => if answered then LoopAnswered else LoopOver busy) <$> answered)
        | _ => mret (Some LoopAnswered)
        end
  end.

(** [None] is out of fuel. *)
Definition runFailoverLoop (fuel : nat) (candidates : list modelCandidate) : walkM G (option unit) :=
  let total := Z.of_nat (length candidates) in
  e ← candidateLoop fuel total 0 0 [] candidates;
  match (e : option loopEnd) with
  | None => mret None
  | Some LoopAnswered => mret (Some tt)
  | Some (LoopOver busy) =>
      answered ← (match busy with [] => mret (Some false) | _ => retryAfterSlotFrees fuel busy total end);
      match (answered : option bool) with
      | None => mret None
      | Some true => mret (Some tt)
      | Some false => failExhausted total ;; mret (Some tt)
      end
  end.
End Walk.

(** ** Specification *)

(** What the outside keeps to: time moves forward, and strictly across an
    attempt or a release that woke the waiter before its deadline; draws are in
    range; only an attempt touches the retry flags, the way the attempt
    promises. *)
Class GatewayLaws (G : Type) `{!Gateway G} := {
  instant : G → Time;
  sess_put s g : sess (put s g) = s;
  instant_put s g : instant (put s g) = instant g;
  clock_law g : let '(t, g') := readClock g in
    instant g ≤ t ∧ t ≤ instant g' ∧ flags (sess g') = flags (sess g);
  draw_law n g : 0 < n → let '(r, g') := draw n g in
    0 ≤ r < n ∧ instant g ≤ instant g' ∧ flags (sess g') = flags (sess g);
  pause_law d g : let '(_, g') := pause d g in
    instant g ≤ instant g' ∧ flags (sess g') = flags (sess g);
  await_law deadline n g : let '(w, g') := await deadline n g in
    instant g ≤ instant g' ∧ flags (sess g') = flags (sess g) ∧
    (w = WokenNotify → instant g < instant g' ≤ deadline);
  attempt_law candidate attempt total g : let '(o, g') := attemptOne candidate attempt total g in
    instant g < instant g' ∧ retry_contract total attempt (sess g) (sess g', o)
}.

(** The request is answered by this event. *)
Definition answers (ev : walkEvent) : bool :=
  match ev with
  | EvAnswer _ => true
  | EvAttempt _ _ _ o => bool_decide (o = outcomeServed) || bool_decide (o = outcomeFatal)
  | EvPause _ _ => false
  end.

Definition quiet (l : list walkEvent) : Prop := Forall (fun ev => answers ev = false) l.

(** Exactly one event answers, and nothing happens after it. *)
Definition answeredOnce (l : list walkEvent) : Prop := ∃ l0 ev, l = l0 ++ [ev] ∧ quiet l0 ∧ answers ev = true.

Definition attemptsOf (l : list walkEvent) : list (modelCandidate * Z) :=
  omap (fun ev => match ev with EvAttempt c a _ _ => Some (c, a) | _ => None end) l.

(** Attempts of some of these candidates, numbered one after the other. *)
Definition numbered (from : Z) (allowed : list modelCandidate) (l : list (modelCandidate * Z)) : Prop :=
  l.*2 = seqZ from (Z.of_nat (length l)) ∧ Forall (fun ca => ca.1 ∈ allowed) l.

(** What every wait satisfies. *)
Definition pauseOk (ev : walkEvent) : Prop :=
  match ev with
  | EvPause (PauseBackoff n) d =>
      1 ≤ n ∧ (n ≤ 37 → let exp := Z.min (backoffBase * 2 ^ (n - 1)) backoffCap in exp ≤ d < exp + backoffBase)
  | EvPause (PauseRetry yields asked remaining) d =>
      (if yields then d ≤ asked else d = asked) ∧
      match remaining with Some r => 0 ≤ d ∧ d + retryMinRound ≤ r | None => d = asked end
  | _ => True
  end.

Definition failedOver (ev : walkEvent) : bool :=
  match ev with EvAttempt _ _ _ outcomeFailover => true | _ => false end.

(** Each backoff is drawn for the number of candidates that failed before it. *)
Fixpoint backoffsCounted (n : Z) (l : list walkEvent) : Prop :=
  match l with
  | [] => True
  | ev :: l =>
      match ev with EvPause (PauseBackoff m) _ => m = n | _ => True end ∧
      backoffsCounted (if failedOver ev then n + 1 else n) l
  end.

Definition unspent (s : session) : nat :=
  ((if saturationRetried s then 0 else 1) + (if serverErrorRetried s then 0 else 1))%nat.

Definition wp {G A} (m : walkM G A) (Q : list walkEvent → A → G → Prop) (g : G) : Prop :=
  let '(l, a, g') := m g in Q l a g'.

(** A retry's wait, against the budget it was granted on. *)
Definition retryPause (ev : walkEvent) : Prop :=
  pauseOk ev ∧ match ev with EvPause (PauseRetry _ _ _) _ => True | _ => False end.

(** No backoff of the main loop among these events; none that tries a candidate. *)
Definition noBackoff (l : list walkEvent) : Prop :=
  Forall (fun ev => match ev with EvPause (PauseBackoff _) _ => False | _ => True end) l.

Definition noAttempt (l : list walkEvent) : Prop := attemptsOf l = [] ∧ filter (fun ev => failedOver ev = true) l = [].

(** What happened during a stretch of the walk: how far the answer is, and that
    every wait was in order. *)
Record stretch (r : option bool) (l : list walkEvent) : Prop := {
  stretch_answer : match r with Some true => answeredOnce l | _ => quiet l end;
  stretch_pauses : Forall pauseOk l
}.

(** The last event, when candidates were left untried on purpose: an attempt
    answered, or the request ended while backing off. *)
Definition endedEarly (l : list walkEvent) : Prop :=
  ∃ l0 ev, l = l0 ++ [ev] ∧ answers ev = true ∧
    match ev with
    | EvAttempt _ _ _ _ => True
    | EvAnswer _ => ∃ n d, last l0 = Some (EvPause (PauseBackoff n) d)
    | EvPause _ _ => False
    end.

(** What a wait for a slot has led to. *)
Definition waited_post (allowed : list modelCandidate) (attempt : Z) (l : list walkEvent) (r : option bool) : Prop :=
  r ≠ None ∧ stretch r l ∧ numbered attempt allowed (attemptsOf l) ∧ noBackoff l.

(** The rest of the loop, once an attempt has reported. *)
Definition afterAttempt {G} `{!Gateway G} (reqModel : string) (cfg : requestConfig) (fence : string → string)
    (floatOverflow : Z → Duration) (fuel : nat) (total attempt contacted : Z) (busy : list modelCandidate)
    (c : modelCandidate) (rest : list modelCandidate) (o : candidateOutcome) : walkM G (option loopEnd) :=
  match o with
  | outcomeFailover => candidateLoop reqModel cfg fence floatOverflow fuel total (attempt + 1) (contacted + 1) busy rest
  | outcomeBusy => candidateLoop reqModel cfg fence floatOverflow fuel total (attempt + 1) contacted (busy ++ [c]) rest
  | outcomeSkipped => candidateLoop reqModel cfg fence floatOverflow fuel total (attempt + 1) contacted busy rest
  | outcomeRetrySaturated | outcomeRetryServerError =>
      answered ← settleLastCandidateRetry cfg fence floatOverflow fuel c total o;
      mret ((fun answered : bool => if answered then LoopAnswered else LoopOver busy) <$> answered)
  | _ => mret (Some LoopAnswered)
  end.

Section Posts.
Context {G : Type} `{!Gateway G, !GatewayLaws G}.

(** Time has not gone back, and no retry has been spent. *)
Definition later (g g' : G) : Prop := instant g ≤ instant g' ∧ flags (sess g') = flags (sess g).

(** Time left, as fuel. *)
Definition timeLeft (deadline : Time) (g : G) : nat := Z.to_nat (deadline - instant g).

(** What a settled outcome has led to, the attempt that drew it included. *)
Definition settled_post (g : G) (c : modelCandidate) (next : Z) (o : candidateOutcome)
    (l : list walkEvent) (r : option bool) (g' : G) : Prop :=
  instant g ≤ instant g' ∧ r ≠ None ∧ (∀ c' a t, stretch r (EvAttempt c' a t o :: l)) ∧
  numbered next [c] (attemptsOf l) ∧
  (length (attemptsOf l) ≤ if retries o then S (unspent (sess g)) else 0)%nat ∧ noBackoff l.

(** What the loop over [rest] leads to, from [attempt] with [contacted]
    failures so far. *)
Record loop_post (cfg : requestConfig) (total attempt contacted : Z) (busy rest : list modelCandidate)
    (g : G) (l : list walkEvent) (r : option loopEnd) (g' : G) : Prop := {
  loop_time : instant g ≤ instant g';
  loop_end : match r with
             | Some LoopAnswered => answeredOnce l
             | Some (LoopOver b) => quiet l ∧ b ⊆ busy ++ rest
             | None => False
             end;
  loop_pauses : Forall pauseOk l;
  loop_counted : backoffsCounted contacted l;
  loop_order : ∃ pre retries, attemptsOf l = pre ++ retries ∧
    pre.*1 `prefix_of` rest ∧ pre.*2 = seqZ attempt (Z.of_nat (length pre)) ∧
    numbered total rest retries ∧ (length retries ≤ 2)%nat ∧
    (pre.*1 = rest ∨ overallDeadline cfg < instant g' ∨ r = Some LoopAnswered ∧ endedEarly l)
}.
(** What the whole walk leads to. *)
Definition run_post (cfg : requestConfig) (candidates : list modelCandidate) (l : list walkEvent) (r : option unit) (g' : G) : Prop :=
  r = Some tt ∧ answeredOnce l ∧
  (∃ pre retries waited, attemptsOf l = pre ++ retries ++ waited ∧
     pre.*1 `prefix_of` candidates ∧ pre.*2 = seqZ 0 (Z.of_nat (length pre)) ∧
     numbered (Z.of_nat (length candidates)) candidates retries ∧ (length retries ≤ 2)%nat ∧
     numbered (Z.of_nat (length candidates)) candidates waited ∧
     (pre.*1 = candidates ∨ overallDeadline cfg < instant g' ∨ endedEarly l)) ∧
  Forall pauseOk l ∧ backoffsCounted 0 l.

End Posts.

(** *** A gateway of scripted exchanges *)

(** The interface over the modelled attempt: a request alone with its session,
    a clock that moves by what it waits, and a script of what each attempt
    meets. *)
Record scripted := MkScripted {
  sc_sess : session;
  sc_clock : Time;
  sc_script : list exchange;       (* what each attempt meets *)
  sc_frees : list string;          (* the providers whose slots others release *)
  sc_gone : bool                   (* the client has left *)
}.

Definition freeSlot (cfg : requestConfig) (now : Time) (id : string) (s : session) : session :=
  s ⟦ pool := MkWorld (release (limiter (pool s)) now id slotClean (growAfter cfg) (forgetAfter cfg))
                (slots (pool s)) (bodies (pool s)) ⟧.

Definition scripted_gateway (cfg : requestConfig) (silence : exchange) : Gateway scripted := {|
  readClock g := (sc_clock g, g);
  draw n g := (0, g);
  pause d g := (sc_gone g, MkScripted (sc_sess g) (sc_clock g + Z.max 0 d) (sc_script g) (sc_frees g) (sc_gone g));
  await deadline n g :=
    match sc_frees g with
    | id :: frees =>
        if sc_clock g <? deadline
        then (WokenNotify, MkScripted (freeSlot cfg (sc_clock g) id (sc_sess g)) (sc_clock g + 1) (sc_script g) frees (sc_gone g))
        else (WokenTimer, g)
    | [] => (if sc_gone g then WokenCtx else WokenTimer,
             MkScripted (sc_sess g) (Z.max (sc_clock g) deadline) (sc_script g) [] (sc_gone g))
    end;
  ctxDone := sc_gone;
  sess := sc_sess;
  put s g := MkScripted s (sc_clock g) (sc_script g) (sc_frees g) (sc_gone g);
  attemptOne c attempt total g :=
    let x := default silence (head (sc_script g)) in
    let '(s, o) := attemptCandidate id id cfg x (sc_sess g) c attempt total in
    (o, MkScripted s (sc_clock g + 1) (tail (sc_script g)) (sc_frees g) (sc_gone g))
|}.

(** An exchange that answers with this status and body, at once. *)
Definition answering (e : Env) (status : Z) (v : rateLimitVerdict) (b : delivery) : exchange :=
  MkExchange e e e (MkContext None "" false) None (fun _ => TryOk (MkResponse status (fun _ => "") v "")) false
    (fun _ => NotHandled) (fun r => r) (fun _ => (None, "")) id id (fun _ => None) b.

Definition demoConfig (deadline : Time) : requestConfig :=
  MkConfig true true false true deadline true true true Minute Minute 20 Minute.

Definition demoSession (p : world) : session :=
  MkSession defaultBreaker p ∅ [] newTrail freshVerdict zeroVerdict None false false false "".

(** ** Lemmas *)

Lemma wp_bind {G A B} (m : walkM G A) (k : A → walkM G B) Q g :
  wp m (fun l1 a g1 => wp (k a) (fun l2 => Q (l1 ++ l2)) g1) g → wp (m ≫= k) Q g.
Proof.
  unfold wp, mbind, walk_bind. destruct (m g) as [[l1 a] g1]. by destruct (k a g1) as [[l2 b] g2].
Qed.

Lemma wp_mono {G A} (m : walkM G A) (Q Q' : list walkEvent → A → G → Prop) g :
  wp m Q g → (∀ l a g', Q l a g' → Q' l a g') → wp m Q' g.
Proof. unfold wp. destruct (m g) as [[l a] g']. auto. Qed.

Lemma quiet_app l1 l2 : quiet (l1 ++ l2) ↔ quiet l1 ∧ quiet l2.
Proof. apply Forall_app. Qed.

Lemma quiet_answered l1 l2 : quiet l1 → answeredOnce l2 → answeredOnce (l1 ++ l2).
Proof.
  intros H1 (l0 & ev & -> & H0 & Hev). exists (l1 ++ l0), ev. rewrite app_assoc. split; [done|]. split; [|done].
  by apply quiet_app.
Qed.

Lemma attemptsOf_app l1 l2 : attemptsOf (l1 ++ l2) = attemptsOf l1 ++ attemptsOf l2.
Proof. apply omap_app. Qed.

Lemma counted_app n l1 l2 m :
  backoffsCounted n l1 → m = n + Z.of_nat (length (filter (fun ev => failedOver ev = true) l1)) →
  backoffsCounted m l2 → backoffsCounted n (l1 ++ l2).
Proof.
  revert n m. induction l1 as [|ev l1 IH]; intros n m; simpl.
  - intros _ -> H. by rewrite Z.add_0_r in H.
  - intros [Hev H1] -> H2. split; [done|]. eapply IH; [exact H1| |exact H2].
    rewrite filter_cons. destruct (failedOver ev); simpl; lia.
Qed.

Lemma stretch_app r l1 l2 : quiet l1 → Forall pauseOk l1 → stretch r l2 → stretch r (l1 ++ l2).
Proof.
  intros Hq Hp [Ha Hp2]. split; [|by apply Forall_app].
  destruct r as [[]|]; [by apply quiet_answered|by apply quiet_app|by apply quiet_app].
Qed.

Lemma numbered_nil from allowed : numbered from allowed [].
Proof. by split. Qed.

Lemma numbered_cons from allowed c l :
  c ∈ allowed → numbered (from + 1) allowed l → numbered from allowed ((c, from) :: l).
Proof.
  intros Hc [Hn Ha]. split; [|by constructor].
  rewrite fmap_cons, Hn. simpl length. rewrite Nat2Z.inj_succ, (seqZ_cons from) by lia.
  by rewrite Z.pred_succ.
Qed.

Lemma numbered_mono from allowed allowed' l :
  allowed ⊆ allowed' → numbered from allowed l → numbered from allowed' l.
Proof. intros Hsub [Hn Ha]. split; [done|]. eapply Forall_impl; [exact Ha|]. naive_solver. Qed.

Section Laws.
Context {G : Type} `{!Gateway G, !GatewayLaws G}.
Context (fence : string → string) (floatOverflow : Z → Duration).

Lemma later_refl g : later g g.
Proof. by split. Qed.

Lemma later_trans g1 g2 g3 : later g1 g2 → later g2 g3 → later g1 g3.
Proof. intros [H1 E1] [H2 E2]. split; [lia|congruence]. Qed.

Lemma later_put s g : flags s = flags (sess g) → later g (put s g).
Proof. intros Hs. split; [by rewrite instant_put|by rewrite sess_put]. Qed.

Lemma wp_ret {A} (a : A) (Q : list walkEvent → A → G → Prop) g : Q [] a g → wp (mret a) Q g.
Proof. done. Qed.

Lemma wp_sess (Q : list walkEvent → session → G → Prop) g : Q [] (sess g) g → wp getSess Q g.
Proof. done. Qed.

Lemma wp_emit ev (Q : list walkEvent → unit → G → Prop) g : Q [ev] tt g → wp (emit ev) Q g.
Proof. done. Qed.

Lemma wp_done (Q : list walkEvent → bool → G → Prop) g : (∀ b, Q [] b g) → wp whenDone Q g.
Proof. intros H. apply H. Qed.

Lemma wp_setReq re (Q : list walkEvent → unit → G → Prop) g :
  (∀ g', later g g' → Q [] tt g') → wp (setReq fence re) Q g.
Proof. intros H. apply H, later_put. apply setErr_flags. Qed.

Lemma wp_clock (Q : list walkEvent → Time → G → Prop) g :
  (∀ t g', later g g' → instant g ≤ t ≤ instant g' → Q [] t g') → wp (lift readClock) Q g.
Proof.
  intros H. unfold wp, lift. pose proof (clock_law g) as Hl. destruct (readClock g) as [t g'].
  destruct Hl as (? & ? & ?). apply H; [split; [lia|done]|done].
Qed.

Lemma wp_draw n (Q : list walkEvent → Z → G → Prop) g :
  0 < n → (∀ r g', later g g' → 0 ≤ r < n → Q [] r g') → wp (lift (draw n)) Q g.
Proof.
  intros Hn H. unfold wp, lift. pose proof (draw_law n g Hn) as Hl. destruct (draw n g) as [r g'].
  destruct Hl as (? & ? & ?). apply H; [by split|done].
Qed.

Lemma wp_sleep why d (Q : list walkEvent → bool → G → Prop) g :
  (∀ b g', later g g' → Q [EvPause why d] b g') → wp (sleep why d) Q g.
Proof. intros H. unfold wp, sleep. pose proof (pause_law d g) as Hl. destruct (pause d g) as [b g']. by apply H. Qed.

Lemma wp_await deadline n (Q : list walkEvent → wake → G → Prop) g :
  (∀ w g', later g g' → (w = WokenNotify → instant g < instant g' ≤ deadline) → Q [] w g') →
  wp (lift (await deadline n)) Q g.
Proof.
  intros H. unfold wp, lift. pose proof (await_law deadline n g) as Hl. destruct (await deadline n g) as [w g'].
  destruct Hl as (? & ? & ?). by apply H.
Qed.

Lemma wp_try c attempt total (Q : list walkEvent → candidateOutcome → G → Prop) g :
  (∀ o g', instant g < instant g' → retry_contract total attempt (sess g) (sess g', o) →
     Q [EvAttempt c attempt total o] o g') →
  wp (tryCandidate c attempt total) Q g.
Proof.
  intros H. unfold wp, tryCandidate. pose proof (attempt_law c attempt total g) as Hl.
  destruct (attemptOne c attempt total g) as [o g']. destruct Hl. by apply H.
Qed.

Lemma wp_gone attempt name (Q : list walkEvent → unit → G → Prop) g :
  (∀ a g', later g g' → Q [EvAnswer a] tt g') → wp (failClientGone fence attempt name) Q g.
Proof.
  intros H. unfold failClientGone. apply wp_bind, wp_sess, wp_bind, wp_setReq. intros g' Hg'.
  apply wp_bind, wp_sess, wp_emit. by apply H.
Qed.

Lemma wp_backoff base capacity attempt (Q : list walkEvent → Duration → G → Prop) g :
  0 < base →
  (∀ d g', later g g' →
     let exp := Z.min (toDuration floatOverflow (base * 2 ^ (attempt - 1))) capacity in
     exp ≤ d < exp + base → Q [] d g') →
  wp (failoverBackoff floatOverflow base capacity attempt) Q g.
Proof.
  intros Hb H. unfold failoverBackoff. apply wp_bind, wp_draw; [done|]. intros r g' Hg' Hr. apply wp_ret, H; [done|lia].
Qed.
End Laws.

(** *** The last candidate's retries *)

Lemma unspent_flags s s' : flags s' = flags s → unspent s' = unspent s.
Proof. unfold flags, unspent. by intros [= -> ->]. Qed.

Lemma unspent_attempt total attempt s s' o :
  retry_contract total attempt s (s', o) →
  if retries o then unspent s = S (unspent s') else unspent s' = unspent s.
Proof.
  intros [H1 H2 H3 H4 _]. cbn in *. unfold unspent. rewrite H1, H2.
  destruct o; try specialize (H3 eq_refl); try specialize (H4 eq_refl);
    destruct (saturationRetried s), (serverErrorRetried s); done.
Qed.

Section Retry.
Context {G : Type} `{!Gateway G, !GatewayLaws G}.
Context (cfg : requestConfig) (fence : string → string) (floatOverflow : Z → Duration).
Context (max_wait_ok : rate_limit_saturation_max_wait cfg ≤ int64_max - retryMinRound).

Lemma retryLast_spec (K : modelCandidate → Z → candidateOutcome → walkM G (option bool)) c attempt wait yields
    (Q : list walkEvent → option bool → G → Prop) g :
  wait ≤ int64_max - retryMinRound →
  (∀ g', later g g' → Q [] (Some false) g') →
  (∀ ev a g', later g g' → retryPause ev → Q [ev; EvAnswer a] (Some true) g') →
  (∀ ev o g1 g', later g g1 → instant g1 < instant g' → retryPause ev →
     retry_contract (attempt + 1) attempt (sess g1) (sess g', o) →
     wp (K c (attempt + 1) o) (fun l r g'' => Q (ev :: EvAttempt c attempt (attempt + 1) o :: l) r g'') g') →
  wp (retryLastCandidate cfg fence K c attempt wait yields) Q g.
Proof.
  intros Hw Hno Hgone Hgo. unfold retryLastCandidate. apply wp_bind, wp_clock. intros t g1 Hg1 _. cbv zeta.
  set (remaining := if IsZero _ then None else _).
  clearbody remaining. set (waited := match remaining with Some _ => _ | None => _ end).
  destruct (from_option _ _ remaining) eqn:Hroom; [by apply wp_ret, Hno|].
  assert (retryPause (EvPause (PauseRetry yields wait remaining) waited)) as Hp.
  { split; [|done]. unfold pauseOk, waited. destruct remaining as [r|]; [|by destruct yields].
    cbn in Hroom. apply orb_false_iff in Hroom as [H1%Z.ltb_ge H2%Z.ltb_ge]. unfold waited in *.
    assert (wrap64 ((if yields then Z.min wait (wrap64 (r - retryMinRound)) else wait) + retryMinRound) =
      (if yields then Z.min wait (wrap64 (r - retryMinRound)) else wait) + retryMinRound) as Heq.
    { apply wrap64_id. unfold in_int64, int64_min, int64_max, retryMinRound in *. destruct yields; lia. }
    rewrite Heq in H2. split; [destruct yields; lia|]. split; [exact H1|lia]. }
  apply wp_bind, wp_sleep. intros [] g2 Hg2.
  - apply wp_bind, wp_gone. intros a g3 Hg3. apply wp_ret. apply Hgone; [|done].
    eapply later_trans; [exact Hg1|]. by eapply later_trans.
  - apply wp_bind, wp_try. intros o g3 Ht Hc. apply (wp_mono _ _ _ _ (Hgo _ _ g2 g3 (later_trans _ _ _ Hg1 Hg2) Ht Hp Hc)).
    done.
Qed.

Lemma settled_plain g c next o (b : bool) :
  retries o = false → (b = true ↔ o = outcomeServed ∨ o = outcomeFatal) → settled_post g c next o [] (Some b) g.
Proof.
  intros Hr Hb. split_and!; try done; [|simpl; lia|by constructor]. intros c' a t. split; [|by repeat constructor].
  destruct b.
  - exists [], (EvAttempt c' a t o). split; [done|]. split; [by constructor|]. cbn.
    destruct (proj1 Hb eq_refl) as [-> | ->]; done.
  - constructor; [|by constructor]. cbn. destruct o; try done; exfalso; destruct Hb as [_ Hb]; naive_solver.
Qed.

Lemma settled_retry fuel (K : modelCandidate → Z → candidateOutcome → walkM G (option bool)) c next o0 wait yields g g0 :
  retries o0 = true → later g0 g → (S (unspent (sess g0)) ≤ S fuel)%nat → wait ≤ int64_max - retryMinRound →
  (∀ c next o g, (retries o = true → (S (unspent (sess g)) ≤ fuel)%nat) → wp (K c next o) (settled_post g c next o) g) →
  wp (retryLastCandidate cfg fence K c next wait yields) (settled_post g0 c next o0) g.
Proof.
  intros Hr Hg0 Hfuel Hw HK.
  assert (∀ c' a t, answers (EvAttempt c' a t o0) = false) as Hq by (intros; by destruct o0).
  apply retryLast_spec; [done|..].
  - intros g' Hg'. split; [pose proof (proj1 Hg0); pose proof (proj1 Hg'); lia|].
    split_and!; try done; [|rewrite Hr; simpl; lia|by constructor].
    intros. split; [by constructor|by repeat constructor].
  - intros ev a g' Hg' [Hp Hk]. split; [pose proof (proj1 Hg0); pose proof (proj1 Hg'); lia|].
    assert (answers ev = false) as Hev by (destruct ev as [| |]; done).
    split_and!; try done.
    + intros. split; [|by repeat constructor]. exists [EvAttempt c' a0 t o0; ev], (EvAnswer a). split; [done|].
      split; [|done]. by repeat constructor.
    + by destruct ev.
    + rewrite Hr. destruct ev; simpl; try done; lia.
    + constructor; [by destruct ev as [|[]|]|by repeat constructor].
  - intros ev o g1 g' Hg1 Ht [Hp Hk] Hc. apply unspent_attempt in Hc.
    assert (unspent (sess g1) = unspent (sess g0)) as Hu.
    { apply unspent_flags. destruct Hg0 as [_ <-], Hg1 as [_ ->]. done. }
    eapply wp_mono; [apply HK|].
    { intros Hro. rewrite Hro in Hc. lia. }
    intros l r g'' (Hi & Hn & Hs & Hnum & Hlen & Hnb).
    assert (answers ev = false) as Hev by (destruct ev as [| |]; done).
    assert (attemptsOf (ev :: EvAttempt c next (next + 1) o :: l) = (c, next) :: attemptsOf l) as Hat by (by destruct ev).
    split; [pose proof (proj1 Hg0); pose proof (proj1 Hg1); lia|]. split; [done|]. split; [|split; [|split]].
    + intros c' a t. apply (stretch_app r [EvAttempt c' a t o0; ev]); [by repeat constructor|by repeat constructor|done].
    + rewrite Hat. apply numbered_cons; [set_solver|done].
    + rewrite Hat, Hr. simpl. destruct (retries o); lia.
    + constructor; [by destruct ev as [|[]|]|by constructor].
Qed.

Lemma settle_spec fuel c next o g :
  (retries o = true → (S (unspent (sess g)) ≤ fuel)%nat) →
  wp (settleLastCandidateRetry cfg fence floatOverflow fuel c next o) (settled_post g c next o) g.
Proof.
  revert c next o g. induction fuel as [|fuel IH]; intros c next o g Hf.
  - destruct o; cbn [settleLastCandidateRetry]; try (apply wp_ret, settled_plain; [done|naive_solver]);
      specialize (Hf eq_refl); lia.
  - destruct o; cbn [settleLastCandidateRetry]; try (apply wp_ret, settled_plain; [done|naive_solver]);
      specialize (Hf eq_refl).
    + unfold retrySaturatedCandidate. apply wp_bind, wp_sess. cbv zeta.
      eapply settled_retry; [done|apply later_refl|exact Hf|lia|exact IH].
    + unfold retryServerErrorCandidate. apply wp_bind, wp_backoff; [done|]. intros d g1 Hg1 exp Hd.
      eapply settled_retry; [done|exact Hg1|exact Hf| |exact IH].
      unfold exp, toDuration, serverErrorRetryBackoff, int64_max, retryMinRound, Second in *. cbn in Hd. lia.
Qed.
End Retry.

(** *** Waiting for a slot *)

Lemma firstAdmitted_index l i busy l' j :
  firstAdmitted l i busy = (l', Some j) → (j < i + length busy)%nat.
Proof.
  revert l i. induction busy as [|c busy IH]; intros l i; simpl; [done|].
  destruct (canAdmit _ _ _) as [l1 []]; [intros [= _ ->]; lia|]. intros Hf%IH. lia.
Qed.

Lemma unspent_two s : (unspent s ≤ 2)%nat.
Proof. unfold unspent. repeat case_match; lia. Qed.

Lemma noBackoff_counted n l : noBackoff l → backoffsCounted n l.
Proof.
  revert n. induction l as [|ev l IH]; intros n; [done|]. intros [Hev Hl]%Forall_cons. split; [|by apply IH].
  by destruct ev as [|[]|].
Qed.

Section Slots.
Context {G : Type} `{!Gateway G, !GatewayLaws G}.
Context (cfg : requestConfig) (fence : string → string) (floatOverflow : Z → Duration).
Context (max_wait_ok : rate_limit_saturation_max_wait cfg ≤ int64_max - retryMinRound).

Lemma wait_spec fuel deadline busy g :
  (timeLeft deadline g < fuel)%nat →
  wp (waitForSlot fuel deadline busy) (fun l r g' => l = [] ∧ later g g' ∧
    match r with
    | None => False
    | Some (_, i) => ∀ j, i = Some j → (j < length busy)%nat
    end) g.
Proof.
  revert g. induction fuel as [|fuel IH]; intros g Hf; [lia|]. cbn [waitForSlot]. apply wp_bind, wp_sess.
  destruct (limiter (pool (sess g))) as [lm|]; [|by apply wp_ret; split; [done|]; split; [apply later_refl|]].
  apply wp_bind. unfold checkBusy, wp at 1.
  destruct (firstAdmitted _ 0 busy) as [l' [j|]] eqn:Hj.
  - apply wp_ret. split; [done|]. split; [by apply later_put|]. intros j' [= <-]. by apply firstAdmitted_index in Hj.
  - apply wp_bind, wp_await. intros w g1 Hg1 Hw. set (g0 := put _ g) in *.
    assert (later g g0) as Hg0 by (by apply later_put).
    assert (later g g1) as Hg01 by (by eapply later_trans).
    destruct w; [|by apply wp_ret..].
    eapply wp_mono; [apply IH|].
    + specialize (Hw eq_refl). destruct Hg0 as [Hi _]. unfold timeLeft in *. lia.
    + intros l r g2 (-> & Hg2 & Hr). split; [done|]. split; [by eapply later_trans|done].
Qed.

Lemma waited_quiet allowed attempt (b : bool) c total o :
  c ∈ allowed → (b = true ↔ o = outcomeServed ∨ o = outcomeFatal) →
  waited_post allowed attempt [EvAttempt c attempt total o] (Some b).
Proof.
  intros Hc Hb. split; [done|]. split; [split; [|by repeat constructor]|].
  - destruct b.
    + exists [], (EvAttempt c attempt total o). split; [done|]. split; [by constructor|].
      destruct (proj1 Hb eq_refl) as [-> | ->]; done.
    + constructor; [|by constructor]. cbn. destruct o; try done; exfalso; destruct Hb as [_ Hb]; naive_solver.
  - split; [|by repeat constructor]. apply numbered_cons; [done|apply numbered_nil].
Qed.

Lemma waited_cons allowed attempt l r c total o :
  c ∈ allowed → answers (EvAttempt c attempt total o) = false →
  waited_post allowed (attempt + 1) l r → waited_post allowed attempt (EvAttempt c attempt total o :: l) r.
Proof.
  intros Hc Ha (Hr & Hs & Hn & Hb). split; [done|]. split; [|split].
  - apply (stretch_app r [EvAttempt c attempt total o]); [by repeat constructor|by repeat constructor|done].
  - by apply numbered_cons.
  - by constructor.
Qed.

Lemma wp_restore refused next attempt (Q : list walkEvent → unit → G → Prop) g :
  (∀ g', later g g' → Q [] tt g') → wp (restoreBusyVerdict fence refused next attempt) Q g.
Proof.
  intros H. unfold restoreBusyVerdict. apply wp_bind, wp_sess. cbv zeta.
  destruct (_ && _ && _); [by apply wp_setReq|apply wp_ret, H, later_refl].
Qed.

Lemma slotLoop_spec allowed fuel deadline attempt busy g :
  busy ⊆ allowed → (timeLeft deadline g + 3 < fuel)%nat →
  wp (slotLoop cfg fence floatOverflow fuel deadline attempt busy) (fun l r g' => waited_post allowed attempt l r ∧ instant g ≤ instant g') g.
Proof.
  revert attempt busy g. induction fuel as [|fuel IH]; intros attempt busy g Hsub Hf; [lia|].
  assert (waited_post allowed attempt [] (Some false)) as Hfalse.
  { split; [done|]. split; [split; by constructor|]. split; [apply numbered_nil|by constructor]. }
  cbn [slotLoop]. apply wp_bind, wp_clock. intros t g1 Hg1 Ht. unfold Before.
  destruct (Z.ltb_spec t deadline) as [Hlt|]; cbn [negb]; [|apply wp_ret; split; [done|apply Hg1]].
  apply wp_bind. eapply wp_mono; [apply wait_spec|].
  { destruct Hg1. unfold timeLeft in *. lia. }
  intros l w g2 (-> & Hg2 & Hw). destruct w as [[ok idx]|]; [|done].
  assert (instant g ≤ instant g2) as Hg02 by (destruct Hg1, Hg2; lia).
  apply wp_bind, wp_done. intros [].
  { apply wp_bind, wp_sess, wp_bind, wp_gone. intros a g3 [Hg3 _]. apply wp_ret. split; [|lia].
    split; [done|]. split; [|split].
    - split; [|by repeat constructor]. exists [], (EvAnswer a). split; [done|]. split; [by constructor|done].
    - apply numbered_nil.
    - by repeat constructor. }
  destruct ok; [|by apply wp_ret]. destruct (idx ≫= _) as [[i cand]|] eqn:Hidx; [|by apply wp_ret].
  assert (cand ∈ allowed) as Hin.
  { apply Hsub. destruct idx as [j|]; [|done]. cbn in Hidx. destruct (busy !! j) eqn:Hj; [|done].
    injection Hidx as <- <-. by eapply list_elem_of_lookup_2. }
  apply wp_bind, wp_try. intros o g3 Ht3 Hc.
  assert (timeLeft deadline g3 + 3 < fuel)%nat as Hf3.
  { destruct Hg1, Hg2. unfold timeLeft in *. lia. }
  assert ((2 < fuel)%nat) as Hf2 by (unfold timeLeft in *; lia).
  destruct o; try (apply wp_ret; split; [apply waited_quiet; [done|naive_solver]|lia]).
  - eapply wp_mono; [apply settle_spec; [done|intros _; pose proof (unspent_two (sess g3)); lia]|].
    intros l r g4 (Ht4 & Hr & Hs & Hn & _ & Hb). split; [|lia]. split; [done|]. split; [apply Hs|]. split; [|by constructor].
    apply numbered_cons; [done|]. eapply numbered_mono; [|done]. set_solver.
  - eapply wp_mono; [apply settle_spec; [done|intros _; pose proof (unspent_two (sess g3)); lia]|].
    intros l r g4 (Ht4 & Hr & Hs & Hn & _ & Hb). split; [|lia]. split; [done|]. split; [apply Hs|]. split; [|by constructor].
    apply numbered_cons; [done|]. eapply numbered_mono; [|done]. set_solver.
  - eapply wp_mono; [by apply IH|]. intros l r g4 [Hpost Ht4]. split; [by apply waited_cons|lia].
  - destruct (delete i busy) as [|next rest] eqn:Hdel; [apply wp_ret; split; [apply waited_quiet; [done|naive_solver]|lia]|].
    apply wp_bind, wp_restore. intros g4 Hg4. eapply wp_mono; [apply IH|].
    + rewrite <- Hdel. intros x Hx. apply Hsub. eapply sublist_subseteq; [apply sublist_delete|exact Hx].
    + destruct Hg4. unfold timeLeft in *. lia.
    + intros l r g5 [Hpost Ht5]. destruct Hg4. split; [by apply waited_cons|lia].
Qed.
End Slots.

(** *** The main loop *)

Lemma endedEarly_app l1 l2 : endedEarly l2 → endedEarly (l1 ++ l2).
Proof.
  intros (l0 & ev & -> & Ha & Hev). exists (l1 ++ l0), ev. split; [by rewrite app_assoc|]. split; [done|].
  destruct ev; [done|done|]. destruct Hev as (n & d & Hl). exists n, d. by rewrite last_app, Hl.
Qed.

Section Loop.
Context {G : Type} `{!Gateway G, !GatewayLaws G}.
Context (reqModel : string) (cfg : requestConfig).
Context (fence : string → string) (floatOverflow : Z → Duration).
Context (max_wait_ok : rate_limit_saturation_max_wait cfg ≤ int64_max - retryMinRound).

Lemma wp_backOff attempt contacted (Q : list walkEvent → bool → G → Prop) g :
  (contacted ≤ 0 → Q [] false g) →
  (∀ d a g', 0 < contacted → later g g' → pauseOk (EvPause (PauseBackoff contacted) d) →
     Q [EvPause (PauseBackoff contacted) d; EvAnswer a] true g') →
  (∀ d g', 0 < contacted → later g g' → pauseOk (EvPause (PauseBackoff contacted) d) →
     Q [EvPause (PauseBackoff contacted) d] false g') →
  wp (backOff reqModel cfg fence floatOverflow attempt contacted) Q g.
Proof.
  intros H0 Hend Hgo. unfold backOff. destruct (Z.ltb_spec 0 contacted) as [Hc|Hc]; [|by apply wp_ret, H0].
  apply wp_bind, wp_backoff; [done|]. intros d g1 Hg1 exp Hd.
  assert (pauseOk (EvPause (PauseBackoff contacted) d)) as Hp.
  { split; [lia|]. intros H37 exp'. assert (exp' = exp) as ->; [|done]. unfold exp, exp', toDuration.
    assert (2 ^ (contacted - 1) ≤ 2 ^ 36) by (apply Z.pow_le_mono_r; lia).
    destruct (Z.leb_spec (backoffBase * 2 ^ (contacted - 1)) int64_max); [done|].
    unfold backoffBase, int64_max in *. lia. }
  apply wp_bind, wp_sleep. intros [] g2 Hg2; [|apply wp_ret, Hgo; [lia|by eapply later_trans|done]].
  apply wp_bind, wp_sess, wp_bind. destruct (bool_decide _).
  - unfold failStalled. apply wp_bind, wp_sess. cbv zeta. apply wp_emit, wp_ret. apply Hend; [lia|by eapply later_trans|done].
  - apply wp_gone. intros a g3 Hg3. apply wp_ret.
    apply Hend; [lia|eapply later_trans; [|done]; by eapply later_trans|done].
Qed.

(** A candidate that did not end the loop, and the rest of it. *)
Lemma loop_next l1 total attempt contacted busy busy' c rest o g g1 l r g' :
  quiet l1 → Forall pauseOk l1 → noAttempt l1 → backoffsCounted contacted l1 →
  answers (EvAttempt c attempt total o) = false → retries o = false →
  instant g ≤ instant g1 → busy' ++ rest ⊆ busy ++ c :: rest →
  loop_post cfg total (attempt + 1) (if failedOver (EvAttempt c attempt total o) then contacted + 1 else contacted)
    busy' rest g1 l r g' →
  loop_post cfg total attempt contacted busy (c :: rest) g (l1 ++ EvAttempt c attempt total o :: l) r g'.
Proof.
  intros Hq Hp [Hna Hnf] Hcnt Ha Hro Ht Hsub [Ht' Hend Hpau Hcount (pre & rs & Hat & Hpre & Hidx & Hnum & Hlen & Hleft)].
  set (ev := EvAttempt c attempt total o) in *.
  assert (quiet (l1 ++ [ev])) as Hq1 by (apply quiet_app; split; [done|by repeat constructor]).
  split.
  - lia.
  - replace (l1 ++ ev :: l) with ((l1 ++ [ev]) ++ l) by (by rewrite <- app_assoc).
    destruct r as [[|b]|]; [by apply quiet_answered| |done]. destruct Hend as [Hl Hb].
    split; [by apply quiet_app|set_solver].
  - apply Forall_app. split; [done|]. by constructor.
  - apply (counted_app _ _ _ contacted); [done|by rewrite Hnf, Z.add_0_r|]. by split.
  - exists ((c, attempt) :: pre), rs. rewrite attemptsOf_app, Hna.
    change (attemptsOf (ev :: l)) with ((c, attempt) :: attemptsOf l). split; [by rewrite Hat|].
    split; [by apply prefix_cons|]. split; [|split; [|split; [done|]]].
    + rewrite fmap_cons. simpl length. rewrite Hidx, Nat2Z.inj_succ, (seqZ_cons attempt) by lia. by rewrite Z.pred_succ.
    + eapply numbered_mono; [|done]. set_solver.
    + destruct Hleft as [Hall|[? |[? ?]]]; [left; by rewrite fmap_cons, Hall|by right; left|right; right]. split; [done|].
      apply endedEarly_app, (endedEarly_app [ev]). done.
Qed.

(** An attempt that ended the loop. *)
Lemma loop_last l1 total attempt contacted busy c rest o g r g' l b :
  quiet l1 → Forall pauseOk l1 → noAttempt l1 → backoffsCounted contacted l1 → instant g ≤ instant g' →
  stretch (Some b) (EvAttempt c attempt total o :: l) → noBackoff l →
  r = Some (if b then LoopAnswered else LoopOver busy) →
  numbered total (c :: rest) (attemptsOf l) → (length (attemptsOf l) ≤ 2)%nat →
  (rest = [] ∨ l = [] ∧ b = true) →
  loop_post cfg total attempt contacted busy (c :: rest) g (l1 ++ EvAttempt c attempt total o :: l) r g'.
Proof.
  intros Hq Hp [Hna Hnf] Hcnt Ht [Ha Hpa] Hnb -> Hnum Hlen Hrest. split.
  - lia.
  - destruct b; [by apply quiet_answered|]. split; [by apply quiet_app|set_solver].
  - by apply Forall_app.
  - apply (counted_app _ _ _ contacted); [done|by rewrite Hnf, Z.add_0_r|]. split; [done|]. by apply noBackoff_counted.
  - exists [(c, attempt)], (attemptsOf l). rewrite attemptsOf_app, Hna. split; [done|].
    split; [by apply prefix_cons, prefix_nil|]. split; [done|]. split; [done|]. split; [done|].
    destruct Hrest as [-> |[-> ->]]; [by left|right; right]. split; [done|].
    exists l1, (EvAttempt c attempt total o). split; [done|]. split; [|done].
    destruct Ha as (l0 & ev & Heq & Hq0 & Hev). destruct l0 as [|x l0]; [by injection Heq as <-|].
    injection Heq as _ Heq. by destruct l0.
Qed.

(** One attempt of the loop and what follows it, after a backoff or none. *)
Lemma loop_attempt fuel total attempt contacted busy c rest g l1 g2 :
  (3 ≤ fuel)%nat → 0 ≤ contacted → attempt + Z.of_nat (length (c :: rest)) = total →
  (∀ attempt contacted busy g, 0 ≤ contacted → attempt + Z.of_nat (length rest) = total →
     wp (candidateLoop reqModel cfg fence floatOverflow fuel total attempt contacted busy rest)
       (loop_post cfg total attempt contacted busy rest g) g) →
  quiet l1 → Forall pauseOk l1 → noAttempt l1 → backoffsCounted contacted l1 → later g g2 →
  wp (tryCandidate c attempt total ≫= afterAttempt reqModel cfg fence floatOverflow fuel total attempt contacted busy c rest)
    (fun l r g' => loop_post cfg total attempt contacted busy (c :: rest) g (l1 ++ l) r g') g2.
Proof.
  intros Hfuel Hcon Htot IH Hq Hp Hna Hcnt Hg2. apply wp_bind, wp_try. intros o g3 Ht3 Hctr.
  assert (instant g ≤ instant g3) as Htg by (destruct Hg2; lia).
  assert (∀ busy' cn', retries o = false → answers (EvAttempt c attempt total o) = false → busy' ++ rest ⊆ busy ++ c :: rest →
    cn' = (if failedOver (EvAttempt c attempt total o) then contacted + 1 else contacted) →
    wp (candidateLoop reqModel cfg fence floatOverflow fuel total (attempt + 1) cn' busy' rest)
      (fun l2 r g' => loop_post cfg total attempt contacted busy (c :: rest) g
         (l1 ++ [EvAttempt c attempt total o] ++ l2) r g') g3) as Hnext.
  { intros busy' cn' Hro Ha Hsub ->. eapply wp_mono; [apply IH|].
    - destruct (failedOver _); lia.
    - simpl length in Htot. lia.
    - intros l r g4 Hpost. eapply loop_next; done || exact Hpost. }
  assert (retries o = true → wp (answered ← settleLastCandidateRetry cfg fence floatOverflow fuel c total o;
      mret ((fun answered : bool => if answered then LoopAnswered else LoopOver busy) <$> answered))
      (fun l2 r g' => loop_post cfg total attempt contacted busy (c :: rest) g
         (l1 ++ [EvAttempt c attempt total o] ++ l2) r g') g3) as Hretry.
  { intros Hro. apply wp_bind. eapply wp_mono.
    - apply settle_spec; [done|]. intros _. pose proof (unspent_attempt _ _ _ _ _ Hctr) as Hu. rewrite Hro in Hu.
      pose proof (unspent_two (sess g2)). lia.
    - intros l r g4 (Ht4 & Hr & Hs & Hnum & Hlen & Hnb). apply wp_ret. rewrite app_nil_r.
      destruct r as [b|]; [|done]. eapply (loop_last l1 _ _ _ _ _ _ _ _ _ _ _ b); try done; [lia|..].
      + eapply numbered_mono; [|done]. set_solver.
      + pose proof (unspent_attempt _ _ _ _ _ Hctr) as Hu. rewrite Hro in Hu, Hlen.
        pose proof (unspent_two (sess g2)). lia.
      + left. pose proof (contract_last _ _ _ _ Hctr Hro). simpl length in Htot. destruct rest; [done|simpl length in *; lia]. }
  destruct o; cbn [afterAttempt];
    try (apply Hnext; [done|done|set_solver|done]); try (by apply Hretry);
    (apply wp_ret, (loop_last l1 total attempt contacted busy c rest _ g _ _ [] true Hq Hp Hna Hcnt Htg);
     [split; [|by repeat constructor]|by constructor|done|apply numbered_nil|simpl; lia|by right]);
    by eexists [], _; split; [done|split; [by constructor|]].
Qed.

Lemma candidateLoop_spec fuel total attempt contacted busy rest g :
  (3 ≤ fuel)%nat → 0 ≤ contacted → attempt + Z.of_nat (length rest) = total →
  wp (candidateLoop reqModel cfg fence floatOverflow fuel total attempt contacted busy rest)
    (loop_post cfg total attempt contacted busy rest g) g.
Proof.
  intros Hfuel. revert attempt contacted busy g. induction rest as [|c rest IH]; intros attempt contacted busy g Hcon Htot.
  - cbn [candidateLoop]. apply wp_ret. split; [lia|split; [by constructor|set_solver]|by constructor|done|].
    exists [], []. split; [done|]. split; [apply prefix_nil|]. split; [done|]. split; [apply numbered_nil|].
    split; [simpl; lia|by left].
  - cbn [candidateLoop]. apply wp_bind, wp_clock. intros t g1 Hg1 Ht.
    destruct (After t (overallDeadline cfg) && (0 <? attempt)) eqn:Hdead.
    { apply andb_true_iff in Hdead as [Ha%Z.ltb_lt _]. apply wp_bind, wp_sess, wp_bind, wp_setReq. intros g2 Hg2. apply wp_ret.
      destruct Hg1, Hg2. split; [lia|split; [by constructor|set_solver]|by constructor|done|].
      exists [], []. split; [done|]. split; [apply prefix_nil|]. split; [done|]. split; [apply numbered_nil|].
      split; [simpl; lia|right; left; lia]. }
    apply wp_bind, wp_backOff.
    + intros _. by apply (loop_attempt _ _ _ _ _ _ _ _ []); try done; constructor.
    + intros d a g2 Hc Hg2 Hp. apply wp_ret. destruct Hg1, Hg2. split; [lia| |constructor; [done|by repeat constructor]|done|].
      * exists [EvPause (PauseBackoff contacted) d], (EvAnswer a). split; [done|]. split; [by repeat constructor|done].
      * exists [], []. split; [done|]. split; [apply prefix_nil|]. split; [done|]. split; [apply numbered_nil|].
        split; [simpl; lia|right; right]. split; [done|]. exists [EvPause (PauseBackoff contacted) d], (EvAnswer a).
        split; [done|]. split; [done|]. by exists contacted, d.
    + intros d g2 Hc Hg2 Hp. apply (loop_attempt _ _ _ _ _ _ _ _ [EvPause (PauseBackoff contacted) d]); try done;
        [by repeat constructor|by constructor; [|constructor]|by eapply later_trans].
Qed.
End Loop.

(** *** The whole walk *)

Section Run.
Context {G : Type} `{!Gateway G, !GatewayLaws G}.
Context (reqModel : string) (cfg : requestConfig) (status429 : bool).
Context (fence : string → string) (floatOverflow : Z → Duration).
Context (max_wait_ok : rate_limit_saturation_max_wait cfg ≤ int64_max - retryMinRound).

Lemma retryAfterSlotFrees_spec fuel busy n g :
  (timeLeft (overallDeadline cfg) g + 3 < fuel)%nat →
  wp (retryAfterSlotFrees cfg fence floatOverflow fuel busy n)
    (fun l r g' => waited_post busy n l r ∧ instant g ≤ instant g') g.
Proof.
  intros Hf. unfold retryAfterSlotFrees. apply wp_bind, wp_clock. intros t g1 Hg1 Ht. cbv zeta.
  eapply wp_mono; [apply (slotLoop_spec cfg fence floatOverflow max_wait_ok busy); [done|]|].
  - destruct Hg1. unfold timeLeft, Before, Add in *.
    destruct (Z.ltb_spec (overallDeadline cfg) (t + rate_limit_saturation_max_wait cfg)); lia.
  - intros l r g' [Hw Hi]. destruct Hg1. split; [done|lia].
Qed.

Lemma wp_failExhausted n (Q : list walkEvent → unit → G → Prop) g :
  (∀ a g', instant g' = instant g → Q [EvAnswer a] tt g') →
  wp (failExhausted reqModel cfg status429 n) Q g.
Proof.
  intros H. unfold failExhausted. apply wp_bind, wp_sess, wp_bind. destruct (bool_decide _).
  - apply wp_ret, wp_emit. by apply H.
  - unfold wp at 1, modifySess. apply wp_emit. apply H, instant_put.
Qed.

Lemma noBackoff_app n l1 l2 : backoffsCounted n l1 → noBackoff l2 → backoffsCounted n (l1 ++ l2).
Proof. intros H1 H2. eapply counted_app; [done|done|by apply noBackoff_counted]. Qed.

Lemma run_answered candidates pre retries l1 l2 waited g1 g' :
  quiet l1 → answeredOnce l2 → instant g1 ≤ instant g' →
  attemptsOf l1 = pre ++ retries → attemptsOf l2 = waited →
  pre.*1 `prefix_of` candidates → pre.*2 = seqZ 0 (Z.of_nat (length pre)) →
  numbered (Z.of_nat (length candidates)) candidates retries → (length retries ≤ 2)%nat →
  numbered (Z.of_nat (length candidates)) candidates waited →
  (pre.*1 = candidates ∨ overallDeadline cfg < instant g1) →
  Forall pauseOk l1 → Forall pauseOk l2 → backoffsCounted 0 l1 → noBackoff l2 →
  run_post cfg candidates (l1 ++ l2) (Some tt) g'.
Proof.
  intros Hq Ha Ht H1 H2 Hp Hi Hr Hl Hw Hleft Hp1 Hp2 Hc1 Hn2. split; [done|].
  split; [by apply quiet_answered|]. split; [|split; [by apply Forall_app|by apply noBackoff_app]].
  exists pre, retries, waited. rewrite attemptsOf_app, H1, H2, app_assoc. do 6 (split; [done|]).
  destruct Hleft; [by left|right; left; lia].
Qed.

Lemma run_spec fuel candidates g :
  (timeLeft (overallDeadline cfg) g + 3 < fuel)%nat →
  wp (runFailoverLoop reqModel cfg status429 fence floatOverflow fuel candidates) (run_post cfg candidates) g.
Proof.
  intros Hf. unfold runFailoverLoop. set (n := Z.of_nat (length candidates)). apply wp_bind.
  eapply wp_mono; [apply (candidateLoop_spec reqModel cfg fence floatOverflow max_wait_ok); [lia|done|done]|].
  intros l1 e g1 [Ht Hend Hp Hc (pre & rs & Hat & Hpre & Hidx & Hnum & Hlen & Hleft)]. fold n in Hnum.
  destruct e as [[|busy]|]; [| |done].
  - apply wp_ret. rewrite app_nil_r. split; [done|]. split; [done|]. split; [|done].
    exists pre, rs, []. rewrite app_nil_r. split; [done|]. split; [done|]. split; [done|]. split; [done|]. split; [done|].
    split; [apply numbered_nil|]. naive_solver.
  - destruct Hend as [Hq Hsub].
    assert (pre.*1 = candidates ∨ overallDeadline cfg < instant g1) as Hleft' by naive_solver.
    assert (∀ l2 waited g2 a, quiet l2 → Forall pauseOk l2 → noBackoff l2 → instant g1 ≤ instant g2 →
      attemptsOf l2 = waited → numbered n candidates waited →
      run_post cfg candidates (l1 ++ l2 ++ [EvAnswer a]) (Some tt) g2) as Hexhausted.
    { intros l2 waited g2 a Hq2 Hp2 Hn2 Ht2 Hw Hnw.
      eapply (run_answered _ pre rs _ _ waited g1); try done.
      - exists l2, (EvAnswer a). done.
      - rewrite attemptsOf_app, Hw. cbn. by rewrite app_nil_r.
      - apply Forall_app. split; [done|by repeat constructor].
      - apply Forall_app. split; [done|by repeat constructor]. }
    destruct busy as [|c busy].
    + apply wp_bind, wp_ret, wp_bind, wp_failExhausted. intros a g2 Hg2. apply wp_ret.
      apply (Hexhausted [] [] g2 a); [by constructor|by constructor|by constructor|lia|done|apply numbered_nil].
    + apply wp_bind. eapply wp_mono; [apply retryAfterSlotFrees_spec; unfold timeLeft in *; lia|].
      intros l2 r g2 [(Hr & [Ha Hp2] & Hn & Hnb) Ht2]. fold n in Hn.
      assert (numbered n candidates (attemptsOf l2)) as Hn' by (eapply numbered_mono; [|exact Hn]; set_solver).
      destruct r as [[]|]; [| |done].
      * apply wp_ret. rewrite app_nil_r. by eapply (run_answered _ pre rs _ _ (attemptsOf l2) g1).
      * apply wp_bind, wp_failExhausted. intros a g3 Hg3. apply wp_ret. rewrite app_nil_r.
        by apply (Hexhausted l2 (attemptsOf l2)); try done; lia.
Qed.
End Run.

(** *** The modelled attempt keeps the interface's promises *)

Definition scripted_laws cfg silence : @GatewayLaws scripted (scripted_gateway cfg silence).
Proof.
  refine (@Build_GatewayLaws scripted (scripted_gateway cfg silence) sc_clock _ _ _ _ _ _ _); try done.
  - intros d g. cbn. split; [lia|done].
  - intros deadline n g. cbn. destruct (sc_frees g) as [|p frees]; cbn.
    + split; [lia|]. split; [done|]. by destruct (sc_gone g).
    + destruct (Z.ltb_spec (sc_clock g) deadline); cbn; (split; [lia|]); (split; [done|]); intros ?; [lia|done].
  - intros c attempt total g. cbn. set (x := default silence _).
    pose proof (attempt_contract id id cfg x (sc_sess g) c attempt total) as [Hc _].
    destruct (attemptCandidate id id cfg x (sc_sess g) c attempt total) as [s o]. cbn in *. split; [lia|exact Hc].
Defined.

(** ** Properties *)



(** Every wait of a walk is in order. A backoff is drawn only after a
    candidate failed - never after one that was busy or skipped - for exactly
    the number that failed so far, doubling from 100ms to at most two seconds
    and below 100ms of jitter on top. A retry's wait leaves the deadline room
    for the wait and a round; one the gateway chose shortens to fit, one the
    provider asked for is kept whole. *)
Lemma walk_waits {G} `{!Gateway G, !GatewayLaws G} reqModel cfg status429 fence floatOverflow fuel candidates (g : G) :
  rate_limit_saturation_max_wait cfg ≤ int64_max - retryMinRound →
  (timeLeft (overallDeadline cfg) g + 3 < fuel)%nat →
  let '(l, _, _) := runFailoverLoop reqModel cfg status429 fence floatOverflow fuel candidates g in
  Forall pauseOk l ∧ backoffsCounted 0 l.
Proof.
  intros Hmax Hf. pose proof (run_spec reqModel cfg status429 fence floatOverflow Hmax fuel candidates g Hf) as H.
  unfold wp in H. destruct (runFailoverLoop _ _ _ _ _ _ _ _) as [[l r] g']. destruct H as (? & ? & ? & Hw). exact Hw.
Qed.

Lemma walk_waits_witness :
  let e := env_at (2 * Hour) in
  let cfg := demoConfig (2 * Hour + 5) in
  let down := answering e 503 zeroVerdict (Completion None true None false) in
  let a := MkCandidate "a" "A" (Some "m") None in
  let b := MkCandidate "b" "B" (Some "m") None in
  let g := MkScripted (demoSession start) (2 * Hour) [] [] true in
  let '(l, _, _) := @runFailoverLoop scripted (scripted_gateway cfg down) "hotel/m" cfg true id id 10 [a; b] g in
  Forall pauseOk l ∧ backoffsCounted 0 l.
Proof.
  intros e cfg down a b g.
  apply (@walk_waits scripted (scripted_gateway cfg down) (scripted_laws cfg down)
    "hotel/m" cfg true id id 10 [a; b] g); [evaluate|vm_compute; lia].
Defined.

(** A retry of the last candidate and the wait for a slot that follows it both
    number their attempts from the end of the list: the busy candidate's attempt
    takes the index the retry already has. *)
Lemma attempt_index_reused :
  let e := env_at (2 * Hour) in
  let cfg := demoConfig (2 * Hour + 10 * Second) in
  let full := answering e 429 (MkVerdict false rateLimitSaturated "" "" Second 0 false false)
                (Completion None true None false) in
  let refused := MkError "dial tcp: connection refused" false false false false false in
  let down := MkExchange e e e (MkContext None "" false) None (fun _ => TryErr refused false None) false
                (fun _ => NotHandled) (fun r => r) (fun _ => (None, "")) id id (fun _ => None)
                (Completion None true None false) in
  let up := answering e 200 zeroVerdict (Completion None true None false) in
  let a := MkCandidate "a" "A" (Some "m") (Some 1) in
  let b := MkCandidate "b" "B" (Some "m") None in
  let held := MkWorld (tryAcquire (Some newInflightLimiter) "a" 1).1 [] ∅ in
  let g := MkScripted (demoSession held) (2 * Hour) [down; full; down; up] ["a"] false in
  attemptsOf (@runFailoverLoop scripted (scripted_gateway cfg down) "hotel/m" cfg true id id 10 [a; b] g).1.1
    = [(a, 0); (b, 1); (b, 2); (a, 2)].
Proof. vm_compute. reflexivity. Qed.
