(* ===== verification/HedgeProbe.v ===== *)
(** * One probe of a hedged race (internal/proxy: hedging.go, attempt_trail.go)

    The prologue a hedged candidate runs without touching the client: admission,
    the request and its retries, the verdicts its answer draws, and the wait for
    a first token, ending in a win that carries an open stream or in a loss. The
    probe runs on a private snapshot of the request, but on the breaker, limiter
    and ledger every request shares; it blocks twice, for the answer's headers
    and for the first token, so it is three moves, between which the rest of the
    gateway runs: [probeSend], [probeJudge] and [probeFirstToken]. *)

From S2P Require Import Prelude Circuit Cooldown CircuitEvents Breaker BreakerGate BreakerPhases.
From S2P Require Import Errors Verdict Inflight AttemptTrail Outcome StreamEnd Attempt.

(** ** Data *)

Record hedgeResult := MkHedge {
  res_idx : nat;
  res_won : bool;
  res_resp : option Response;          (* the open stream a win carries *)
  res_reqErr : reqError;
  res_rateLimit : rateLimitVerdict;
  res_slot : option nat;
  res_busy : bool;
  res_status : Z;
  res_breaker : string
}.

Definition hedge_eta (r : hedgeResult) : hedgeResult :=
  MkHedge (res_idx r) (res_won r) (res_resp r) (res_reqErr r) (res_rateLimit r) (res_slot r) (res_busy r)
    (res_status r) (res_breaker r).
#[export] Instance upd_res_won : Updater res_won := ltac:(derive_updater hedge_eta).
#[export] Instance upd_res_resp : Updater res_resp := ltac:(derive_updater hedge_eta).
#[export] Instance upd_res_reqErr : Updater res_reqErr := ltac:(derive_updater hedge_eta).
#[export] Instance upd_res_rateLimit : Updater res_rateLimit := ltac:(derive_updater hedge_eta).
#[export] Instance upd_res_slot : Updater res_slot := ltac:(derive_updater hedge_eta).
#[export] Instance upd_res_busy : Updater res_busy := ltac:(derive_updater hedge_eta).
#[export] Instance upd_res_status : Updater res_status := ltac:(derive_updater hedge_eta).
#[export] Instance upd_res_breaker : Updater res_breaker := ltac:(derive_updater hedge_eta).

Definition startResult (attempt : nat) : hedgeResult :=
  MkHedge attempt false None zeroReqError zeroVerdict None false 0 "".

(** Where a probe is: its result sent, or waiting on the network, for a first
    token once [resp] is there. *)
Inductive probeTurn :=
| ProbeDone (res : hedgeResult)
| ProbeWaits (res : hedgeResult) (resp : Response).

(** ** Operations *)

(** [context.Canceled]. *)
Definition Canceled : error := MkError "context canceled" true false false false false.

Definition ctxOver (ctx : context) : bool := from_option (fun _ => true) false (Err ctx).

Definition hedgeAbandonKind (ctx : context) : ErrorKind := cancelOriginToKind (resolveCancelOrigin ctx Canceled).

(** The breaker note the probe's deferred stamp reads off its private log. *)
Definition stamped (s : session) (res : hedgeResult) : hedgeResult :=
  res ⟦ res_breaker := attemptBreaker (logData s) ⟧.

(** The throwaway log entry a probe runs against. *)
Definition hedgeProbeLog (now : Time) : trail := MkTrail None now "" 0 "" [].

(** The private snapshot a launch hands its probe. *)
Definition hedgeSnapshot (st : session) (candidate : modelCandidate) (now : Time) : session :=
  st ⟦ logData := hedgeProbeLog now ⟧ ⟦ rowProvider := cand_name candidate ⟧.

Definition abandonHedgeWin (e : Env) (cfg : requestConfig) (wd : world) (slot : option nat) : world :=
  match slot with
  | None => wd
  | Some k => settle (settleAt e cfg) (Close (settleAt e cfg) wd k) k slotNeutral
  end.

Section Probe.
Context (fence : string → string).

(** Admission, the request and its retries, up to the answer's headers. *)
Definition probeSend (cfg : requestConfig) (x : exchange) (s : session) (candidate : modelCandidate) (attempt : nat) :
    session * probeTurn :=
  let res := startResult attempt in
  let s := if negb (circuitBreakerEnabled cfg) then noting s breakerDisabled else s in
  let '(p, k, admitted) := admitCandidate (inflightEnabled cfg) (pool s) (cand_provider candidate)
                             (providerCeiling (cand_maxInFlight candidate)) in
  let s := s ⟦ pool := p ⟧ ⟦ slot := k ⟧ in
  let model := candidateModelID candidate in
  if negb admitted then
    let s := s ⟦ rateLimit := MkVerdict true rateLimitSaturated "" "" defaultSaturatedRetryAfter 0 false false ⟧ in
    let res := res ⟦ res_reqErr := MkReqError (Some KindProviderSaturated) (Z.of_nat attempt) (cand_name candidate)
                                    model "" busySkipDetail "" ⟧
                   ⟦ res_rateLimit := rateLimit s ⟧ ⟦ res_busy := true ⟧ in
    let s := noting s breakerNoop in
    (s, ProbeDone (stamped s res))
  else
    let res := res ⟦ res_slot := slot s ⟧ in
    match buildError x with
    | Some (kind, text) =>
        let s := settleSlot (begun x) cfg s (slotOutcomeFor kind) in
        (s, ProbeDone (stamped s (res ⟦ res_reqErr :=
              MkReqError (Some kind) (Z.of_nat attempt) (cand_name candidate) model text "" "" ⟧)))
    | None =>
        let '(s, resp) := doUpstream fence cfg x s candidate (Z.of_nat attempt) in
        match resp with
        | Some resp => (s, ProbeWaits res resp)
        | None =>
            let s := settleSlot (answered x) cfg s (slotOutcomeOf (lastKind s)) in
            (s, ProbeDone (stamped s (res ⟦ res_reqErr := lastReqErr (verdict s) ⟧)))
        end
    end.

(** The verdicts on the headers. A refusal drops the candidate; a success marks
    the launch billed and holds its slot's verdict. *)
Definition probeJudge (cfg : requestConfig) (x : exchange) (s : session) (candidate : modelCandidate)
    (res : hedgeResult) (resp : Response) : session * probeTurn * option bool :=
  let e := answered x in
  let resp := remap x resp in
  let s := s ⟦ pool := finishAttemptAdmission (now e) (pool s) (slot s) (cand_provider candidate)
                         (Header resp) (StatusCode resp) ⟧ in
  let res := res ⟦ res_status := StatusCode resp ⟧ in
  let '(s, rl) := judge429AndRecordBreaker e cfg s candidate resp (shouldFailover cfg (StatusCode resp)) in
  if negb (servedSuccessStatus (StatusCode resp)) then
    let s := drainBody e cfg s in
    let res := res ⟦ res_reqErr := failoverReqErr rl (Z.of_nat (res_idx res)) (cand_name candidate) (StatusCode resp) ⟧
                   ⟦ res_rateLimit := rl ⟧ in
    (s, ProbeDone (stamped s res), None)
  else (onSlot s holdVerdict, ProbeWaits res resp, Some true).

(** A success whose context was cancelled meanwhile is abandoned. *)
Definition commitHedgeWin (e : Env) (cfg : requestConfig) (ctx : context) (s : session) (candidate : modelCandidate)
    (res : hedgeResult) (resp : Response) : session * hedgeResult :=
  if ctxOver ctx then
    (s ⟦ pool := abandonHedgeWin e cfg (pool s) (res_slot res) ⟧,
     res ⟦ res_reqErr := MkReqError (Some (hedgeAbandonKind ctx)) (Z.of_nat (res_idx res)) (cand_name candidate)
                           "" "" "" "" ⟧)
  else (s, res ⟦ res_won := true ⟧ ⟦ res_resp := Some resp ⟧).

(** The wait for a first token and its verdict; the last component is what the
    billed flag is reset to, if it is. *)
Definition probeFirstToken (cfg : requestConfig) (x : exchange) (s : session) (candidate : modelCandidate)
    (res : hedgeResult) (resp : Response) (ttftTimeout stallTimeout : Duration) (probe : option probeError) :
    session * hedgeResult * option bool :=
  let e := delivered x in
  let ctx := attemptCtx x in
  match (if ttftTimeout <=? 0 then None else probe) with
  | None => let '(s, res) := commitHedgeWin e cfg ctx s candidate res resp in (s, stamped s res, None)
  | Some probeErr =>
      let s := closeBody e cfg s in
      let billed := if negb (streamPromptBilled probeErr) then Some false else None in
      if negb (probeAnsweredByProvider probeErr) && ctxOver ctx
         && bool_decide (hedgeAbandonKind ctx = KindHedgeSuperseded) then
        let res := res ⟦ res_reqErr := MkReqError (Some KindHedgeSuperseded) (Z.of_nat (res_idx res))
                                         (cand_name candidate) "" "" "" "" ⟧ in
        let s := settleSlot e cfg s slotNeutral in
        (s, stamped s res, billed)
      else
        let elapsed := Sub (now e) (attemptStarted (logData s)) in
        let '(re, recordFailure) :=
          classifyProbeError probeErr (cand_name candidate) (ctxOver ctx) elapsed stallTimeout ttftTimeout
            (Z.of_nat (res_idx res)) in
        let s := settleSlot e cfg s (slotOutcomeOf (Kind re)) in
        let s := if recordFailure then
                   chargeBreaker e cfg s candidate (StatusCode resp) (probeBreakerReason "hedged TTFT probe" re) else s in
        (s, stamped s (res ⟦ res_reqErr := re ⟧), billed)
  end.
End Probe.

(** ** Specification *)

(** What happens to the world while one slot's owner acts: the limiter's books
    stay balanced, no other slot is touched, and a released slot stays released. *)
Record slotFrame (k : option nat) (wd wd' : world) : Prop := {
  frame_conserved : conserved wd → conserved wd';
  frame_slots : ∃ g, slots wd' = match k with Some k => alter g k (slots wd) | None => slots wd end ∧
    ∀ sl, slot_provider (g sl) = slot_provider sl ∧ (fired sl = true → fired (g sl) = true)
}.

(** The life of a probe's slot: out, out with its verdict held, released. *)
Definition live (sl : attemptSlot) : Prop := fired sl = false ∧ held sl = false.
Definition pledged (sl : attemptSlot) : Prop := fired sl = false ∧ held sl = true.
Definition spent (sl : attemptSlot) : Prop := fired sl = true.

Definition slotIs (P : attemptSlot → Prop) (wd : world) (k : option nat) : Prop :=
  ∀ j, k = Some j → ∃ sl, slots wd !! j = Some sl ∧ P sl.

(** A result's promise: a win carries an open stream and a slot whose verdict is
    held, anything else leaves nothing behind. *)
Record resultOk (wd : world) (res : hedgeResult) : Prop := {
  result_slot : slotIs (if res_won res then pledged else spent) wd (res_slot res);
  result_resp : is_Some (res_resp res) ↔ res_won res = true
}.

(** A probe waiting on the network, for the headers or (once [judged]) for a first token. *)
Record waitOk (P : attemptSlot → Prop) (s : session) (res : hedgeResult) : Prop := {
  wait_slot : res_slot res = slot s;
  wait_state : slotIs P (pool s) (slot s);
  wait_unwon : res_won res = false ∧ res_resp res = None
}.

(** The slot an admission took, if it took one. *)
Definition taken (wd wd' : world) (k : option nat) : Prop :=
  k = None ∧ slots wd' = slots wd ∨ ∃ sl, k = Some (length (slots wd)) ∧ slots wd' = slots wd ++ [sl].

(** ** Lemmas *)

Lemma frame_refl k wd : slotFrame k wd wd.
Proof. split; [done|]. exists id. split; [|done]. destruct k; [by rewrite list_alter_id|done]. Qed.

Lemma frame_trans k wd1 wd2 wd3 : slotFrame k wd1 wd2 → slotFrame k wd2 wd3 → slotFrame k wd1 wd3.
Proof.
  intros [Hc1 (g1 & Hs1 & H1)] [Hc2 (g2 & Hs2 & H2)]. split; [auto|]. exists (g2 ∘ g1). split.
  - rewrite Hs2, Hs1. destruct k; [|done]. by rewrite list_alter_alter_eq.
  - intros sl. destruct (H1 sl) as [? ?], (H2 (g1 sl)) as [? ?]. simpl. split; [congruence|auto].
Qed.

Lemma frame_same s s' : sameSlot s s' → slotFrame (slot s) (pool s) (pool s').
Proof. intros [-> _]. apply frame_refl. Qed.

Lemma frame_onSlot s f `{!SlotOp f} : slotFrame (slot s) (pool s) (pool (onSlot s f)).
Proof.
  unfold onSlot. destruct (slot s) as [k|] eqn:Hk; [|apply frame_refl]. cbn. split.
  - by apply slotop_conserved.
  - destruct (slotop_slots (pool s) k) as (g & Hg & H). by exists g.
Qed.

Lemma frame_other k wd wd' j sl :
  slotFrame k wd wd' → k ≠ Some j → slots wd !! j = Some sl → slots wd' !! j = Some sl.
Proof.
  intros [_ (g & Hs & _)] Hne Hj. rewrite Hs. destruct k as [k|]; [|done].
  rewrite list_lookup_alter_ne; [done|congruence].
Qed.

Lemma frame_length k wd wd' : slotFrame k wd wd' → length (slots wd') = length (slots wd).
Proof. intros [_ (g & -> & _)]. destruct k; [apply length_alter|done]. Qed.

Lemma settleSlot_spent e cfg s o k : slot s = k →
  (∀ j, k = Some j → is_Some (slots (pool s) !! j)) → slotIs spent (pool (settleSlot e cfg s o)) k.
Proof.
  intros Hk Hin j Hj. destruct (Hin j Hj) as [sl Hsl]. subst k. unfold settleSlot. rewrite Hj. cbn.
  rewrite slots_of_settle, list_lookup_alter_eq, Hsl. by eexists.
Qed.

Lemma slotIs_in P wd k : slotIs P wd k → ∀ j, k = Some j → is_Some (slots wd !! j).
Proof. intros H j Hj. destruct (H j Hj) as (sl & -> & _). by eexists. Qed.

Lemma slotIs_mono (P Q : attemptSlot → Prop) wd k : (∀ sl, P sl → Q sl) → slotIs P wd k → slotIs Q wd k.
Proof. intros HPQ H j Hj. destruct (H j Hj) as (sl & ? & ?). eauto. Qed.

(** A frame over the slot keeps it in place. *)
Lemma frame_in k wd wd' : slotFrame k wd wd' →
  (∀ j, k = Some j → is_Some (slots wd !! j)) → ∀ j, k = Some j → is_Some (slots wd' !! j).
Proof.
  intros [_ (g & Hs & _)] Hin j ->. rewrite Hs. cbn. rewrite list_lookup_alter_eq.
  destruct (Hin j eq_refl) as [sl ->]. by eexists.
Qed.

Lemma hold_pledged s : slotIs live (pool s) (slot s) → slotIs pledged (pool (onSlot s holdVerdict)) (slot s).
Proof.
  intros H j Hj. destruct (H j Hj) as (sl & Hsl & Hf & _). unfold onSlot. rewrite Hj. cbn. unfold holdVerdict.
  rewrite Hsl. cbn. rewrite list_lookup_insert_eq by (by eapply lookup_lt_Some). by eexists.
Qed.

(** Everything the abandonment of a win does. *)
Lemma abandon_spec e cfg wd k :
  slotFrame k wd (abandonHedgeWin e cfg wd k) ∧
  ((∀ j, k = Some j → is_Some (slots wd !! j)) → slotIs spent (abandonHedgeWin e cfg wd k) k).
Proof.
  unfold abandonHedgeWin. destruct k as [k|]; [|split; [apply frame_refl|by intros _ j ?]].
  set (f := fun wd k => settle (settleAt e cfg) (Close (settleAt e cfg) wd k) k slotNeutral).
  assert (SlotOp f) as Hop by apply (comp_op _ _ (settle_op _ _) (Close_op _)). split.
  - split; [apply Hop|]. destruct (slotop_slots wd k) as (g & Hg & H). by exists g.
  - intros Hin j [= <-]. destruct (Hin k eq_refl) as [sl Hsl].
    destruct (slotop_slots (f := fun wd k => Close (settleAt e cfg) wd k) wd k) as (g & Hg & _).
    rewrite slots_of_settle, Hg, list_lookup_alter_eq, list_lookup_alter_eq, Hsl. by eexists.
Qed.

(** The books at headers time. *)
Lemma finish_frame e s candidate get status :
  slotFrame (slot s) (pool s) (finishAttemptAdmission (now e) (pool s) (slot s) (cand_provider candidate) get status)
  ∧ slots (finishAttemptAdmission (now e) (pool s) (slot s) (cand_provider candidate) get status) = slots (pool s).
Proof.
  unfold finishAttemptAdmission. destruct (slot s) as [k|]; [|split; [apply frame_refl|done]].
  split; [|done]. split.
  - exact (happen_conserved (MkSettings (now e) 0 0) (pool s) (EHeaders k (cand_provider candidate) get status)).
  - exists id. split; [|done]. cbn. by rewrite list_alter_id.
Qed.

Lemma settleSlot_keeps e cfg s o :
  (bodied s → bodied (settleSlot e cfg s o)) ∧ (unheld s → unheld (settleSlot e cfg s o)).
Proof.
  unfold settleSlot, bodied, unheld. destruct (slot s) as [k|] eqn:Hk; [|by rewrite Hk]. cbn. rewrite Hk. split.
  - intros Hb j Hj. rewrite bodies_of_settle. by apply Hb.
  - intros Hu j sl Hj Hsl. apply settle_keeps in Hsl as (sl0 & Hsl0 & ->). by eapply Hu.
Qed.

(** The judgement touches only the attempt's own slot, and leaves its body open
    and its verdict unclaimed. *)
Lemma judge429_frame e cfg s candidate resp eligible :
  let s' := (judge429AndRecordBreaker e cfg s candidate resp eligible).1 in
  slot s' = slot s ∧ slotFrame (slot s) (pool s) (pool s') ∧ (bodied s → bodied s') ∧ (unheld s → unheld s').
Proof.
  rewrite judge429_stages. cbv zeta. cbn [fst].
  set (rl := (judged e cfg s candidate resp eligible).2). set (s1 := ledgered _ _ _ _ _ _ _).
  assert (sameSlot s s1) as Hs1.
  { unfold s1, ledgered, judged, classify429Attempt. destruct eligible; by repeat case_match. }
  set (s2 := learned e cfg s1 candidate rl).
  assert (slot s2 = slot s1 ∧ slotFrame (slot s1) (pool s1) (pool s2) ∧ (bodied s1 → bodied s2) ∧ (unheld s1 → unheld s2))
    as (Hk2 & Hf2 & Hb2 & Hu2).
  { unfold s2, learned. destruct (_ && _); [|split; [done|split; [apply frame_refl|done]]]. cbn.
    pose proof (frame_onSlot s1 (fun wd k => settle (settleAt e cfg) wd k slotUnclean)) as [Hc (g & Hg & H)].
    rewrite <- (settleSlot_onSlot e cfg s1 slotUnclean) in *.
    split; [apply (settleSlot_frame e cfg s1 slotUnclean)|]. split; [|exact (settleSlot_keeps e cfg s1 slotUnclean)].
    split; [|by exists g]. intros Hcons.
    exact (happen_conserved (settleAt e cfg) _ (ECut (cand_provider candidate) (retryAfter rl)) (Hc Hcons)). }
  pose proof (recordBreakerOutcome_same e cfg s2 candidate (StatusCode resp) eligible rl) as Hsame.
  destruct (sameSlot_ready _ _ Hs1), (sameSlot_ready _ _ Hsame), Hsame as [-> ->], Hs1 as [Hp1 Hk1].
  rewrite <- Hp1, <- Hk1. split_and!; auto.
Qed.

(** An answer that did not ask for a failover leaves the slot where it was. *)
Lemma judge429_served e cfg s candidate resp :
  servedSuccessStatus (StatusCode resp) = true →
  pool (judge429AndRecordBreaker e cfg s candidate resp (shouldFailover cfg (StatusCode resp))).1 = pool s.
Proof.
  intros Hs. rewrite (served_not_eligible cfg) by done. rewrite judge429_stages. cbv zeta. cbn [fst].
  destruct (recordBreakerOutcome_same e cfg (learned e cfg (ledgered e cfg (judged e cfg s candidate resp false).1
    candidate resp false (judged e cfg s candidate resp false).2) candidate (judged e cfg s candidate resp false).2)
    candidate (StatusCode resp) false (judged e cfg s candidate resp false).2) as [-> _].
  assert ((StatusCode resp =? 429) = false) as Hne.
  { apply Z.eqb_neq. unfold servedSuccessStatus in Hs. bool_to_arith. lia. }
  unfold judged, learned, ledgered. by rewrite Hne.
Qed.

Section Moves.
Context (fence : string → string).

(** The wins and losses a move can end with. *)
Definition turnOk (P : attemptSlot → Prop) (s : session) (t : probeTurn) : Prop :=
  match t with
  | ProbeDone res => res_won res = false ∧ res_slot res = slot s ∧ resultOk (pool s) res
  | ProbeWaits res _ => waitOk P s res
  end.

Lemma lost_ok s res :
  res_won res = false → res_resp res = None → res_slot res = slot s → slotIs spent (pool s) (slot s) →
  resultOk (pool s) res.
Proof. intros Hw Hr Hk Hs. split; [by rewrite Hw, Hk|]. rewrite Hw, Hr. split; [by intros [? ?]|done]. Qed.

(** A failed move settled its slot, whatever it then told the breaker. *)
Lemma lost_settled e cfg s s' o res :
  (∀ j, slot s = Some j → is_Some (slots (pool s) !! j)) →
  sameSlot (settleSlot e cfg s o) s' →
  res_won res = false → res_resp res = None → res_slot res = slot s → resultOk (pool s') res.
Proof.
  intros Hin [Hp Hk] Hw Hr Hs. assert (slot (settleSlot e cfg s o) = slot s) as Hk' by apply (settleSlot_frame e cfg s o).
  apply lost_ok; [done..|congruence|]. rewrite Hp, Hk, Hk'. by apply settleSlot_spent.
Qed.

Lemma taken_frame k wd wd' wd2 :
  taken wd wd' k → slotFrame k wd' wd2 → taken wd wd2 k.
Proof.
  intros [[-> Hs]|(sl & -> & Hs)] [_ (g & Hg & _)]; [left; split; [done|congruence]|].
  right. exists (g sl). split; [done|]. rewrite Hg, Hs.
  rewrite <- (Nat.add_0_r (length (slots wd))) at 1. by rewrite alter_app_r.
Qed.

Lemma taken_in k wd wd' : taken wd wd' k → ∀ j, k = Some j → is_Some (slots wd' !! j).
Proof.
  intros [[-> _]|(sl & -> & Hs)] j Hj; [done|]. injection Hj as <-.
  rewrite Hs, lookup_app_r, Nat.sub_diag by done. by eexists.
Qed.

Lemma probeSend_spec cfg x s candidate attempt :
  conserved (pool s) →
  let '(s', t) := probeSend fence cfg x s candidate attempt in
  conserved (pool s') ∧ taken (pool s) (pool s') (slot s') ∧ turnOk live s' t.
Proof.
  intros Hc. unfold probeSend. cbv zeta.
  set (s1 := if negb (circuitBreakerEnabled cfg) then _ else s).
  assert (pool s1 = pool s) as Hp1 by (unfold s1; by case_match). clearbody s1.
  pose proof (admit_carried (inflightEnabled cfg) (pool s1) (cand_provider candidate)
                (providerCeiling (cand_maxInFlight candidate)) ltac:(by rewrite Hp1)) as Hadm.
  destruct (admitCandidate _ _ _ _) as [[p k] ok] eqn:Ha. destruct Hadm as [Hp Hk]. rewrite Hp1 in Hk.
  set (s2 := s1 ⟦ pool := p ⟧ ⟦ slot := k ⟧).
  assert (taken (pool s) p k) as Htk.
  { destruct Hk as [[-> Hs]|[-> Hs]]; [by left|right; by eexists]. }
  assert (slotIs live p k) as Hlive.
  { destruct Hk as [[-> Hs]|[-> Hs]]; intros j Hj; [done|]. injection Hj as <-.
    rewrite Hs, lookup_app_r, Nat.sub_diag by done. by eexists. }
  destruct ok; cbn [negb]; [destruct (buildError x) as [[kd tx]|]|].
  - pose proof (frame_onSlot s2 (fun wd k => settle (settleAt (begun x) cfg) wd k (slotOutcomeFor kd))) as Hf.
    rewrite <- (settleSlot_onSlot (begun x) cfg s2) in Hf.
    assert (slot (settleSlot (begun x) cfg s2 (slotOutcomeFor kd)) = k) as Hk' by apply (settleSlot_frame (begun x) cfg s2).
    split; [by apply Hf|]. rewrite Hk'. split; [by eapply taken_frame|]. split; [done|]. split; [done|].
    eapply (lost_settled (begun x) cfg s2); [by eapply taken_in|done..].
  - pose proof (doUpstream_same fence cfg x s2 candidate (Z.of_nat attempt)) as Hsame.
    destruct (doUpstream _ _ _ _ _ _) as [s3 [resp|]]; cbn [fst] in Hsame.
    + destruct Hsame as [Hp3 Hk3]. rewrite Hp3, Hk3. split; [done|]. split; [done|].
      split; [done|by rewrite Hp3, Hk3|done].
    + destruct Hsame as [Hp3 Hk3]. set (o := slotOutcomeOf _).
      pose proof (frame_onSlot s3 (fun wd k => settle (settleAt (answered x) cfg) wd k o)) as Hf.
      rewrite <- (settleSlot_onSlot (answered x) cfg s3) in Hf.
      assert (slot (settleSlot (answered x) cfg s3 o) = slot s3) as Hk' by apply (settleSlot_frame (answered x) cfg s3).
      rewrite Hk3, Hp3 in Hf. split; [by apply Hf|]. rewrite Hk', Hk3. split; [by eapply taken_frame|].
      split; [done|]. split; [by rewrite Hk'|].
      eapply (lost_settled (answered x) cfg s3); [rewrite Hp3, Hk3; by eapply taken_in|done..].
  - assert (k = None ∧ slots p = slots (pool s)) as [-> Hs].
    { unfold admitCandidate in Ha. destruct (negb (inflightEnabled cfg)); [congruence|].
      destruct (tryAcquire _ _ _) as [l [|]]; cbn in Ha; rewrite <- Hp1; simplify_eq; done. }
    split; [done|]. split; [by left|]. split; [done|]. split; [done|]. by apply lost_ok.
Qed.

(** The judgement of a 429 may release the slot before the drain does. *)
Lemma judge429_drained e cfg s candidate resp eligible :
  slotIs live (pool s) (slot s) → bodied s →
  let s' := (judge429AndRecordBreaker e cfg s candidate resp eligible).1 in
  slotIs spent (pool (drainBody e cfg s')) (slot s).
Proof.
  intros Hl Hb. cbv zeta. destruct (judge429_frame e cfg s candidate resp eligible) as (Hk & Hf & Hb' & Hu').
  set (s' := (judge429AndRecordBreaker e cfg s candidate resp eligible).1) in *.
  assert (unheld s) as Hu by (intros k sl Hk' Hsl; destruct (Hl k Hk') as (sl' & ? & _ & ?); congruence).
  assert (slotFrame (slot s) (pool s) (pool (drainBody e cfg s'))) as Hf'.
  { eapply frame_trans; [exact Hf|]. rewrite <- Hk, drainBody_onSlot.
    apply frame_onSlot, (comp_op _ _ (Close_op _) (Read_op _ _)). }
  intros j Hj. destruct (frame_in _ _ _ Hf' (slotIs_in live _ _ Hl) j Hj) as [sl Hsl].
  exists sl. split; [exact Hsl|]. eapply (drainBody_settled e cfg s' (Hb' Hb) (Hu' Hu) j); [|exact Hsl].
  by rewrite drainBody_onSlot, onSlot_slot, Hk.
Qed.

Lemma probeJudge_spec cfg x s candidate res resp :
  waitOk live s res →
  let '(s', t, billed) := probeJudge cfg x s candidate res resp in
  slot s' = slot s ∧ slotFrame (slot s) (pool s) (pool s') ∧ turnOk pledged s' t ∧
  billed = (if servedSuccessStatus (StatusCode (remap x resp)) then Some true else None).
Proof.
  intros [Hr Hl [Hw Hn]]. unfold probeJudge. cbv zeta. set (r := remap x resp). set (e := answered x).
  destruct (finish_frame e s candidate (Header r) (StatusCode r)) as [Hf0 Hs0].
  set (s1 := s ⟦ pool := _ ⟧).
  assert (slotIs live (pool s1) (slot s1)) as Hl1.
  { intros j Hj. destruct (Hl j Hj) as (sl & Hsl & ?). exists sl. cbn. by rewrite Hs0. }
  assert (bodied s1) as Hb1.
  { intros j Hj. cbn in *. unfold finishAttemptAdmission. rewrite Hj. cbn. rewrite lookup_insert_eq. by eexists. }
  destruct (judge429_frame e cfg s1 candidate r (shouldFailover cfg (StatusCode r))) as (Hk2 & Hf2 & _).
  pose proof (judge429_drained e cfg s1 candidate r (shouldFailover cfg (StatusCode r)) Hl1 Hb1) as Hd.
  pose proof (judge429_served e cfg s1 candidate r) as Hserved.
  destruct (judge429AndRecordBreaker _ _ _ _ _ _) as [s2 rl]. cbn [fst] in *.
  assert (slotFrame (slot s) (pool s) (pool s2)) as Hf by (eapply frame_trans; [exact Hf0|exact Hf2]).
  destruct (servedSuccessStatus (StatusCode r)); cbn [negb].
  - rewrite onSlot_slot. split; [done|]. split.
    + eapply frame_trans; [exact Hf|]. change (slot s) with (slot s1). rewrite <- Hk2. apply frame_onSlot, _.
    + split; [|done]. split; rewrite ?onSlot_slot; [by rewrite Hk2| |done].
      apply hold_pledged. by rewrite Hk2, Hserved.
  - assert (slot (drainBody e cfg s2) = slot s) as Hkd by (by rewrite drainBody_onSlot, onSlot_slot).
    split; [done|]. split.
    + eapply frame_trans; [exact Hf|]. change (slot s) with (slot s1). rewrite <- Hk2, drainBody_onSlot.
      apply frame_onSlot, (comp_op _ _ (Close_op _) (Read_op _ _)).
    + split; [|done]. split; [done|]. split; [by rewrite Hkd|]. apply lost_ok; [done|done|by cbn; rewrite Hkd|].
      by rewrite Hkd.
Qed.

Lemma probeFirstToken_spec cfg x s candidate res resp tt st probe :
  waitOk pledged s res →
  let '(s', res', billed) := probeFirstToken cfg x s candidate res resp tt st probe in
  slot s' = slot s ∧ slotFrame (slot s) (pool s) (pool s') ∧ res_slot res' = slot s ∧ resultOk (pool s') res'.
Proof.
  intros [Hr Hl [Hw Hn]]. unfold probeFirstToken. cbv zeta. set (e := delivered x).
  pose proof (slotIs_in _ _ _ Hl) as Hin.
  destruct (if tt <=? 0 then None else probe) as [perr|].
  - set (s1 := closeBody e cfg s).
    assert (slot s1 = slot s) as Hk1 by (unfold s1; by rewrite closeBody_onSlot, onSlot_slot).
    assert (slotFrame (slot s) (pool s) (pool s1)) as Hf1 by (unfold s1; rewrite closeBody_onSlot; apply frame_onSlot, _).
    pose proof (frame_in _ _ _ Hf1 Hin) as Hin1. rewrite <- Hk1 in Hin1.
    assert (∀ o, slotFrame (slot s) (pool s) (pool (settleSlot e cfg s1 o)) ∧ slot (settleSlot e cfg s1 o) = slot s) as Hfs.
    { intros o. split; [|rewrite <- Hk1; apply (settleSlot_frame e cfg s1 o)].
      eapply frame_trans; [exact Hf1|]. rewrite <- Hk1, settleSlot_onSlot. apply frame_onSlot, _. }
    destruct (_ && _).
    + destruct (Hfs slotNeutral) as [Hf Hk]. split_and!; [done..|].
      by eapply (lost_settled e cfg s1 _ slotNeutral); [| |cbn; rewrite ?Hk1..].
    + destruct (classifyProbeError _ _ _ _ _ _ _) as [re charge]. destruct (Hfs (slotOutcomeOf (Kind re))) as [Hf Hk].
      set (s2 := settleSlot e cfg s1 (slotOutcomeOf (Kind re))) in *.
      assert (sameSlot s2 (if charge then chargeBreaker e cfg s2 candidate (StatusCode resp)
                (probeBreakerReason "hedged TTFT probe" re) else s2)) as Hsame.
      { destruct charge; [apply chargeBreaker_same|done]. }
      pose proof Hsame as [Hp2 Hk2]. rewrite Hp2, Hk2. split_and!; [done..|]. rewrite <- Hp2.
      by eapply (lost_settled e cfg s1); [|exact Hsame|cbn; rewrite ?Hk1..].
  - unfold commitHedgeWin. destruct (ctxOver (attemptCtx x)).
    + destruct (abandon_spec e cfg (pool s) (res_slot res)) as [Hf Hs]. rewrite Hr in *.
      split_and!; [done..|].
      apply (lost_ok (s ⟦ pool := abandonHedgeWin e cfg (pool s) (slot s) ⟧)); [done..|]. by apply Hs.
    + split_and!; [done|apply frame_refl|done|]. split; cbn; [by rewrite Hr|]. split; [done|by eexists].
Qed.
End Moves.

(** Every move reports for its own launch. *)
Definition turnIdx (t : probeTurn) : nat := match t with ProbeDone res | ProbeWaits res _ => res_idx res end.

Lemma moves_idx fence cfg x s candidate attempt res resp tt st err :
  turnIdx (probeSend fence cfg x s candidate attempt).2 = attempt ∧
  turnIdx (probeJudge cfg x s candidate res resp).1.2 = res_idx res ∧
  res_idx (probeFirstToken cfg x s candidate res resp tt st err).1.2 = res_idx res.
Proof.
  split_and!.
  - unfold probeSend. cbv zeta. destruct (admitCandidate _ _ _ _) as [[p k] ok].
    destruct ok; cbn [negb]; [|done]. destruct (buildError x) as [[]|]; [done|].
    by destruct (doUpstream _ _ _ _ _ _) as [? [|]].
  - unfold probeJudge. cbv zeta. destruct (judge429AndRecordBreaker _ _ _ _ _ _) as [s2 rl]. by case_match.
  - unfold probeFirstToken, commitHedgeWin. cbv zeta. destruct (if tt <=? 0 then None else err).
    + destruct (_ && _); [done|]. by destruct (classifyProbeError _ _ _ _ _ _ _).
    + by destruct (ctxOver _).
Qed.

(** Whether a first-token failure is the provider's: it answered with a failure
    of its own, or went silent past the stall floor without another candidate
    having taken the race, or was cut by nobody at all. *)
Definition firstTokenFault (ctx : context) (err : probeError) (elapsed stallTimeout : Duration) : bool :=
  probeAnsweredByProvider err || negb (ctxOver ctx)
  || negb (HedgeSupersededKey ctx) && (stallTimeout <=? elapsed).

Lemma hedgeAbandonKind_cases ctx :
  hedgeAbandonKind ctx = if HedgeSupersededKey ctx then KindHedgeSuperseded else KindClientDisconnect.
Proof. unfold hedgeAbandonKind, resolveCancelOrigin. cbn. by destruct (HedgeSupersededKey ctx). Qed.

Lemma settleSlot_logData e cfg s o :
  logData (settleSlot e cfg s o) = logData s ∧ circuitBreaker (settleSlot e cfg s o) = circuitBreaker s.
Proof. unfold settleSlot. by destruct (slot s). Qed.

Lemma closeBody_logData e cfg s :
  logData (closeBody e cfg s) = logData s ∧ circuitBreaker (closeBody e cfg s) = circuitBreaker s.
Proof. unfold closeBody. by destruct (slot s). Qed.

Lemma classifyProbeError_spec err name gone elapsed stall tt n :
  let fault := probeAnsweredByProvider err || negb gone || (stall <=? elapsed) in
  let '(re, charge) := classifyProbeError err name gone elapsed stall tt n in
  charge = fault ∧ Provider re = name ∧ Attempt re = n ∧
  Kind re = Some (if probeAnsweredByProvider err then KindProviderError
                  else if fault then KindProviderTimeout else KindClientDisconnect).
Proof.
  destruct err; cbn; try done. unfold classifyProbeFailure. rewrite Z.ltb_antisym.
  destruct gone, (stall <=? elapsed); cbn; done.
Qed.

(** A hedged probe that fails before its first token is judged by who cut it.
    A provider that answered with an error of its own is charged to the breaker
    even if it was beaten meanwhile; a silent one is charged unless the race was
    won by another candidate or the caller hung up within the stall floor, and
    then the loss is neutral and named for what ended it. The launch stops being
    billed exactly when the provider declared the request failed in a frame, and
    the breaker note the result carries is the charge made, if one was. *)
Lemma first_token_verdict cfg x s candidate res resp ttftTimeout stallTimeout err :
  0 < ttftTimeout →
  let e := delivered x in
  let ctx := attemptCtx x in
  let fault := firstTokenFault ctx err (Sub (now e) (attemptStarted (logData s))) stallTimeout in
  let '(s', res', billed) := probeFirstToken cfg x s candidate res resp ttftTimeout stallTimeout (Some err) in
  res_won res' = res_won res ∧
  Kind (res_reqErr res') = Some (if probeAnsweredByProvider err then KindProviderError
                                 else if fault then KindProviderTimeout
                                 else if HedgeSupersededKey ctx then KindHedgeSuperseded
                                 else KindClientDisconnect) ∧
  billed = (match err with ProbeFrame _ => Some false | _ => None end) ∧
  res_breaker res' = (if circuitBreakerEnabled cfg && fault then breakerCharge else attemptBreaker (logData s)) ∧
  ∃ reason, circuitBreaker s' =
    if circuitBreakerEnabled cfg && fault
    then (RecordFailure e (circuitBreaker s) (cand_provider candidate) (cand_name candidate)
            (candidateModelID candidate) (MkCause (StatusCode resp) reason)).1
    else circuitBreaker s.
Proof.
  intros Htt e ctx fault. unfold probeFirstToken. cbv zeta. fold e ctx.
  assert ((ttftTimeout <=? 0) = false) as -> by (by apply Z.leb_gt).
  destruct (closeBody_logData e cfg s) as [Hl1 Hc1]. set (s1 := closeBody e cfg s) in *.
  rewrite Hl1. set (elapsed := Sub (now e) (attemptStarted (logData s))) in *.
  rewrite hedgeAbandonKind_cases.
  pose proof (classifyProbeError_spec err (cand_name candidate) (ctxOver ctx) elapsed stallTimeout ttftTimeout
    (Z.of_nat (res_idx res))) as Hcl. cbv zeta in Hcl.
  destruct (classifyProbeError _ _ _ _ _ _ _) as [re charge] eqn:Hre. destruct Hcl as (Hch & _ & _ & Hk).
  assert (∀ o, logData (settleSlot e cfg s1 o) = logData s ∧ circuitBreaker (settleSlot e cfg s1 o) = circuitBreaker s) as Hset.
  { intros o. destruct (settleSlot_logData e cfg s1 o) as [-> ->]. done. }
  destruct (negb (probeAnsweredByProvider err) && ctxOver ctx
    && bool_decide ((if HedgeSupersededKey ctx then KindHedgeSuperseded else KindClientDisconnect) = KindHedgeSuperseded)) eqn:Hsup.
  - apply andb_true_iff in Hsup as [[Ha%negb_true_iff Ho]%andb_true_iff Hs%bool_decide_eq_true].
    assert (HedgeSupersededKey ctx = true) as Hkey by (destruct (HedgeSupersededKey ctx); [done|discriminate Hs]).
    assert (fault = false) as -> by (unfold fault, firstTokenFault; by rewrite Ha, Ho, Hkey).
    rewrite Ha, Hkey, andb_false_r. destruct (Hset slotNeutral) as [Hls Hcs]. cbn. rewrite Hls, Hcs.
    split_and!; [done..|by destruct err|done|by exists ""].
  - assert (fault = charge) as Hfc.
    { rewrite Hch. unfold fault, firstTokenFault. destruct (probeAnsweredByProvider err); [done|].
      cbn [orb negb andb] in *. destruct (ctxOver ctx), (HedgeSupersededKey ctx); done. }
    destruct (Hset (slotOutcomeOf (Kind re))) as [Hls Hcs].
    set (s2 := settleSlot e cfg s1 (slotOutcomeOf (Kind re))) in *. rewrite Hfc. cbn.
    assert (fault = false → probeAnsweredByProvider err = false → HedgeSupersededKey ctx = false) as Hns.
    { unfold fault, firstTokenFault. intros Hf Ha. rewrite Ha in *. cbn in *. apply orb_false_iff in Hf as [Ho%negb_false_iff Hf].
      rewrite Ho in *. by destruct (HedgeSupersededKey ctx). }
    split; [done|]. split; [|split; [by destruct err|]].
    { rewrite Hk, <- Hch. destruct (probeAnsweredByProvider err); [done|]. destruct charge; [done|]. by rewrite Hns. }
    destruct charge; [|rewrite andb_false_r; rewrite Hls, Hcs; split; [done|by exists ""]].
    unfold chargeBreaker. destruct (circuitBreakerEnabled cfg); cbn; rewrite ?Hls, ?Hcs; split; [done|by eexists|done|by exists ""].
Qed.

Lemma first_token_verdict_witness :
  let e := env_at Hour in
  let cfg := MkConfig true true true true (2 * Hour) true true true Minute Minute 20 Minute in
  let cut := MkContext (Some Canceled) "failover_timeout" true in
  let x := MkExchange e e e cut None (fun _ => TryErr Canceled false None) false (fun _ => NotHandled)
             (fun r => r) (fun _ => (None, "")) id id (fun _ => None)
             (Untranslatable (MkBodyError Canceled None)) in
  let s := MkSession defaultBreaker start ∅ [] (hedgeProbeLog (Hour - Minute)) freshVerdict zeroVerdict None false false false "" in
  let cand := MkCandidate "p" "prov" (Some "m") None in
  let resp := MkResponse 200 (fun _ => "") zeroVerdict "" in
  let '(s', res', _) := probeFirstToken cfg x s cand (startResult 1) resp Minute Second (Some (ProbeOther "cut")) in
  circuitBreaker s' = circuitBreaker s ∧ Kind (res_reqErr res') = Some KindHedgeSuperseded.
Proof.
  intros e cfg cut x s cand resp.
  pose proof (first_token_verdict cfg x s cand (startResult 1) resp Minute Second (ProbeOther "cut") ltac:(done)) as H.
  cbv zeta in H. destruct (probeFirstToken _ _ _ _ _ _ _ _ _) as [[s' res'] b].
  destruct H as (_ & Hk & _ & _ & reason & Hc). split; [exact Hc|exact Hk].
Defined.
