(* ===== verification/Hedge.v ===== *)
(** * The hedged race (internal/proxy: hedging.go, attempt_trail.go, breaker_outcome.go)

    The orchestrator of a hedged streaming request and the probes it launches,
    as one state and its steps. The probes run concurrently: each step of the
    race is one move of one probe, or one turn of the orchestrator's select, so
    a run of the relation is one interleaving. The shared session is the
    request's; a probe keeps a snapshot of its own, of which the breaker, the
    limiter, the ledger and the emissions are always the shared ones. Delivered
    results queue in the order they were sent. *)

From S2P Require Import Prelude Circuit Cooldown CircuitEvents Breaker BreakerGate BreakerPhases.
From S2P Require Import Errors Verdict Inflight AttemptTrail Outcome StreamEnd Attempt FailoverWalk HedgeProbe.

(** ** Charges *)

Definition bytesPerToken : Z := 4.
Definition MaxSaneTokenCount : Z := 10000000.
Definition estimateTokens (textBytes : Z) : Z := (textBytes + bytesPerToken - 1) `quot` bytesPerToken.
Definition ClampTokenCount (n : Z) : Z := Z.min (Z.max n 0) MaxSaneTokenCount.

(** A charged prompt of an attempt that did not serve; its price is the model's. *)
Record rejectedAttempt := MkRejected { rej_provider : string; rej_prompt : Z; rej_estimated : bool }.

Record hedgeCharges := MkCharges {
  billed : list (option bool);         (* [None] until launched *)
  charged : list bool;
  owed : list Z
}.

Definition newHedgeCharges (n : nat) : hedgeCharges := MkCharges (replicate n None) (replicate n false) [].

(** [flag] creates a launch's billed flag; [setFlag] is the probe's store. *)
Definition flag (c : hedgeCharges) (idx : nat) : hedgeCharges :=
  MkCharges (<[idx := Some false]> (billed c)) (charged c) (owed c).

Definition setFlag (c : hedgeCharges) (idx : nat) (v : option bool) : hedgeCharges :=
  match v with
  | None => c
  | Some b => MkCharges (<[idx := Some b]> (billed c)) (charged c) (owed c)
  end.

Definition rejectStreamPrompt (promptTextBytes : Z) (rejected : list rejectedAttempt) (candidate : modelCandidate) :
    list rejectedAttempt * Z :=
  let prompt := ClampTokenCount (estimateTokens promptTextBytes) in
  if prompt =? 0 then (rejected, 0)
  else (rejected ++ [MkRejected (cand_name candidate) prompt true], prompt).

Definition isBilled (c : hedgeCharges) (idx : nat) : bool :=
  match billed c !! idx with Some (Some true) => true | _ => false end.

Definition charge (promptTextBytes : Z) (candidates : list modelCandidate)
    (cr : hedgeCharges * list rejectedAttempt) (idx : nat) : hedgeCharges * list rejectedAttempt :=
  let '(c, rejected) := cr in
  if default true (charged c !! idx) || negb (isBilled c idx) then cr else
  match candidates !! idx with
  | None => cr
  | Some candidate =>
      let '(rejected, prompt) := rejectStreamPrompt promptTextBytes rejected candidate in
      (MkCharges (billed c) (<[idx := true]> (charged c)) (if 0 <? prompt then owed c ++ [prompt] else owed c), rejected)
  end.

(** Every launch but the winner's; [except] is [None] on an exit without one. *)
Definition chargeAllBut (promptTextBytes : Z) (candidates : list modelCandidate) (except : option nat)
    (cr : hedgeCharges * list rejectedAttempt) : hedgeCharges * list rejectedAttempt :=
  foldl (fun cr i => if decide (Some i = except) then cr else charge promptTextBytes candidates cr i) cr
    (seq 0 (length candidates)).

(** ** The race *)

(** A probe between its moves. *)
Inductive probeStage :=
| Launched                                        (* about to ask for its slot *)
| Answered (res : hedgeResult) (resp : Response)
| Streaming (res : hedgeResult) (resp : Response).

Record probe := MkProbe { probe_st : session; probe_stage : probeStage }.

(** How the race ended: with a winner's stream to serve, then served; with every probe
    resolved and these candidates skipped as busy; at the overall deadline; with
    the client gone. *)
Inductive raceEnd :=
| RaceWon (res : hedgeResult)
| RaceServed (idx : nat)
| RaceOver (busy : list modelCandidate)
| RaceDeadline
| RaceGone.

Record race := MkRace {
  race_st : session;                   (* the shared requestState *)
  results : list hedgeResult;
  launchedAt : list Time;
  superseded : list bool;
  cancelled : list bool;
  settled : list bool;
  launched : nat;
  race_inFlight : Z;
  nextIdx : nat;
  charges : hedgeCharges;
  rejected : list rejectedAttempt;
  providerStall : reqError;
  busyCandidates : list modelCandidate;
  probes : gmap nat probe;             (* the goroutines still running *)
  race_end : option raceEnd;
  slotsTaken : list nat                (* history: every slot its probes were given *)
}.

Definition race_eta (r : race) : race :=
  MkRace (race_st r) (results r) (launchedAt r) (superseded r) (cancelled r) (settled r) (launched r) (race_inFlight r)
    (nextIdx r) (charges r) (rejected r) (providerStall r) (busyCandidates r) (probes r) (race_end r) (slotsTaken r).
#[export] Instance upd_race_st : Updater race_st := ltac:(derive_updater race_eta).
#[export] Instance upd_results : Updater results := ltac:(derive_updater race_eta).
#[export] Instance upd_launchedAt : Updater launchedAt := ltac:(derive_updater race_eta).
#[export] Instance upd_superseded : Updater superseded := ltac:(derive_updater race_eta).
#[export] Instance upd_cancelled : Updater cancelled := ltac:(derive_updater race_eta).
#[export] Instance upd_settled : Updater settled := ltac:(derive_updater race_eta).
#[export] Instance upd_launched : Updater launched := ltac:(derive_updater race_eta).
#[export] Instance upd_race_inFlight : Updater race_inFlight := ltac:(derive_updater race_eta).
#[export] Instance upd_nextIdx : Updater nextIdx := ltac:(derive_updater race_eta).
#[export] Instance upd_charges : Updater charges := ltac:(derive_updater race_eta).
#[export] Instance upd_rejected : Updater rejected := ltac:(derive_updater race_eta).
#[export] Instance upd_providerStall : Updater providerStall := ltac:(derive_updater race_eta).
#[export] Instance upd_busyCandidates : Updater busyCandidates := ltac:(derive_updater race_eta).
#[export] Instance upd_probes : Updater probes := ltac:(derive_updater race_eta).
#[export] Instance upd_race_end : Updater race_end := ltac:(derive_updater race_eta).
#[export] Instance upd_slotsTaken : Updater slotsTaken := ltac:(derive_updater race_eta).

(** A probe's session over the shared world, and what it leaves there. *)
Definition onto (shared private : session) : session :=
  private ⟦ circuitBreaker := circuitBreaker shared ⟧ ⟦ pool := pool shared ⟧ ⟦ capLedger := capLedger shared ⟧
          ⟦ emitted := emitted shared ⟧.

Definition publish (shared s : session) : session :=
  shared ⟦ circuitBreaker := circuitBreaker s ⟧ ⟦ pool := pool s ⟧ ⟦ capLedger := capLedger s ⟧
         ⟦ emitted := emitted s ⟧.

Section Race.
Context (fence attemptDetail : string → string).
Context (cfg : requestConfig) (candidates : list modelCandidate) (promptTextBytes : Z).
Context (ttftTimeout stallTimeout : Duration).

Definition launch (now : Time) (idx : nat) (r : race) : race :=
  match candidates !! idx with
  | None => r
  | Some candidate =>
      r ⟦ superseded := <[idx := false]> (superseded r) ⟧
        ⟦ cancelled := <[idx := false]> (cancelled r) ⟧
        ⟦ launchedAt := <[idx := now]> (launchedAt r) ⟧
        ⟦ launched := S (launched r) ⟧
        ⟦ race_inFlight := race_inFlight r + 1 ⟧
        ⟦ charges := flag (charges r) idx ⟧
        ⟦ probes := <[idx := MkProbe (hedgeSnapshot (race_st r) candidate now) Launched]> (probes r) ⟧
  end.

(** Everything launched but [except] is cancelled, and flagged as beaten first if
    a winner did it. *)
Definition cancelExcept (except : option nat) (supersede : bool) (r : race) : race :=
  r ⟦ superseded := if supersede then imap (fun i b => bool_decide (Some i ≠ except ∧ (i < nextIdx r)%nat) || b) (superseded r)
                    else superseded r ⟧
    ⟦ cancelled := imap (fun i b => bool_decide (Some i ≠ except ∧ (i < nextIdx r)%nat) || b) (cancelled r) ⟧.

Definition newRace (now : Time) (st : session) : race :=
  let n := length candidates in
  (launch now 0
     (MkRace st [] (replicate n zeroTime) (replicate n false) (replicate n false) (replicate n false) 0 0 0
        (newHedgeCharges n) [] zeroReqError [] ∅ None [])) ⟦ nextIdx := 1%nat ⟧.

(** *** Trail records *)

Definition hedgeLoserRecord (now : Time) (res : hedgeResult) (candidate : modelCandidate) (launchedAt : Time) : attemptRecord :=
  let re := res_reqErr res in
  let detail := if bool_decide (Underlying re = "") then Detail re else Underlying re in
  let detail := if bool_decide (Verdict.detail (res_rateLimit res) = "") then detail
                else Verdict.detail (res_rateLimit res) in
  let rec := newAttemptRecord (Z.of_nat (res_idx res)) candidate in
  MkRecord (rec_attempt rec) (rec_provider_id rec) (rec_provider rec) (rec_model rec)
    (res_status res) (ErrorKind_String (Kind re)) (attemptDetail detail) (phrase (res_rateLimit res))
    (Sub now launchedAt) 0 true (res_breaker res).

Definition appendRecord (r : race) (rec : attemptRecord) : race :=
  r ⟦ race_st := (race_st r) ⟦ logData := appendAttemptRecord (logData (race_st r)) rec ⟧ ⟧.

Definition launchTime (r : race) (idx : nat) : Time := default zeroTime (launchedAt r !! idx).

(** One queued result, when the race is left: recorded from its own verdict, or
    abandoned with the rest if it was a win. *)
Definition settleQueued (e : Env) (kind : ErrorKind) (detail : string) (r : race) (res : hedgeResult) : race :=
  let idx := res_idx res in
  let r := r ⟦ race_inFlight := race_inFlight r - 1 ⟧ ⟦ settled := <[idx := true]> (settled r) ⟧ in
  let r := match res_resp res with
           | Some _ => r ⟦ race_st := (race_st r) ⟦ pool := abandonHedgeWin e cfg (pool (race_st r)) (res_slot res) ⟧ ⟧
           | None => r
           end in
  match candidates !! idx with
  | None => r
  | Some candidate =>
      appendRecord r
        (if res_won res
         then hedgeAbandonedRecord (now e) (Z.of_nat idx) candidate (launchTime r idx) (Some kind) detail
         else hedgeLoserRecord (now e) res candidate (launchTime r idx))
  end.

Definition abandonUnsettled (e : Env) (except : option nat) (kind : ErrorKind) (detail : string) (r : race) (i : nat) : race :=
  match candidates !! i with
  | None => r
  | Some candidate =>
      if bool_decide (Some i ≠ except) && negb (IsZero (launchTime r i)) && negb (default false (settled r !! i))
      then appendRecord r (hedgeAbandonedRecord (now e) (Z.of_nat i) candidate (launchTime r i) (Some kind) detail)
      else r
  end.

Definition settleHedgeLaunches (e : Env) (except : option nat) (kind : ErrorKind) (detail : string) (r : race) : race :=
  let r := (foldl (settleQueued e kind detail) r (results r)) ⟦ results := [] ⟧ in
  foldl (abandonUnsettled e except kind detail) r (seq 0 (length candidates)).

Definition chargeRest (except : option nat) (r : race) : race :=
  let '(c, rej) := chargeAllBut promptTextBytes candidates except (charges r, rejected r) in
  r ⟦ charges := c ⟧ ⟦ rejected := rej ⟧.

(** *** The select *)

(** A result read from the channel. *)
Definition onWin (e : Env) (res : hedgeResult) (r : race) : race :=
  let idx := res_idx res in
  let r := settleHedgeLaunches e (Some idx) KindHedgeSuperseded "superseded by the winner while in flight" r in
  let r := cancelExcept (Some idx) true (chargeRest (Some idx) r) in
  match candidates !! idx with
  | None => r
  | Some candidate =>
      let l := openAttemptRecord (logData (race_st r)) (Z.of_nat idx) candidate true (launchTime r idx)
                 (circuitBreakerEnabled cfg) in
      r ⟦ race_st := (race_st r) ⟦ logData := noteAttemptStatus l (res_status res) ⟧ ⟧ ⟦ race_end := Some (RaceWon res) ⟧
  end.

Definition onLoss (e : Env) (res : hedgeResult) (r : race) : race :=
  let idx := res_idx res in
  match candidates !! idx with
  | None => r
  | Some candidate =>
      let st := setErr fence ((race_st r) ⟦ rateLimit := res_rateLimit res ⟧) (res_reqErr res) in
      let r := r ⟦ race_st := st ⟧ in
      let r := appendRecord r (hedgeLoserRecord (now e) res candidate (launchTime r idx)) in
      let '(c, rej) := charge promptTextBytes candidates (charges r, rejected r) idx in
      let r := r ⟦ charges := c ⟧ ⟦ rejected := rej ⟧ in
      let r := if res_busy res then r ⟦ busyCandidates := busyCandidates r ++ [candidate] ⟧ else r in
      let r := if bool_decide (Kind (res_reqErr res) = Some KindProviderTimeout)
               then r ⟦ providerStall := lastReqErr (verdict (race_st r)) ⟧ else r in
      let r := if (nextIdx r <? length candidates)%nat
               then (launch (now e) (nextIdx r) r) ⟦ nextIdx := S (nextIdx r) ⟧ else r in
      if (race_inFlight r =? 0) && (length candidates <=? nextIdx r)%nat
      then cancelExcept None false (r ⟦ race_end := Some (RaceOver (busyCandidates r)) ⟧) else r
  end.

Definition onResult (e : Env) (res : hedgeResult) (r : race) : race :=
  let r := r ⟦ race_inFlight := race_inFlight r - 1 ⟧ ⟦ settled := <[res_idx res := true]> (settled r) ⟧ in
  if res_won res then onWin e res r else onLoss e res r.

(** The hedge timer's tick. *)
Definition onTick (e : Env) (r : race) : race :=
  if (nextIdx r <? length candidates)%nat
  then (launch (now e) (nextIdx r) r) ⟦ nextIdx := S (nextIdx r) ⟧ else r.

Definition onDeadline (e : Env) (r : race) : race :=
  let st := race_st r in
  let r := r ⟦ race_st := setErr fence st (MkReqError (Some KindFailoverTimeout) (Z.of_nat (launched r) - 1) (rowProvider st) ""
                                     (Underlying (lastReqErr (verdict st))) "" "") ⟧ in
  let r := settleHedgeLaunches e None KindFailoverTimeout "still in flight at the failover deadline" r in
  cancelExcept None false ((chargeRest None r) ⟦ race_end := Some RaceDeadline ⟧).

Definition onGone (e : Env) (r : race) : race :=
  let r := settleHedgeLaunches e None KindClientDisconnect "client disconnected while in flight" r in
  cancelExcept None false ((chargeRest None r) ⟦ race_end := Some RaceGone ⟧).

(** *** After the race *)

(** A drained result of a race that is over. *)
Definition drainHedgeResult (e : Env) (res : hedgeResult) (r : race) : race :=
  let r := r ⟦ race_inFlight := race_inFlight r - 1 ⟧ in
  match res_resp res with
  | Some _ => r ⟦ race_st := (race_st r) ⟦ pool := abandonHedgeWin e cfg (pool (race_st r)) (res_slot res) ⟧ ⟧
  | None => r
  end.

(** The winner's stream: its slot rides the stream's options, not the request. *)
Definition serveHedgeWinner (x : exchange) (st : streamState) (scanErr : option scanError) (opts : streamOptions)
    (res : hedgeResult) (resp : Response) (r : race) : race :=
  match candidates !! res_idx res with
  | None => r
  | Some candidate =>
      let s := (race_st r) ⟦ rowProvider := cand_name candidate ⟧ ⟦ slot := res_slot res ⟧ in
      let s := onSlot s holdVerdict in
      let s := finalizeStream attemptDetail cfg x s candidate (StatusCode resp) st scanErr opts in
      let s := closeBody (delivered x) cfg s in
      let s := settleSlot (delivered x) cfg s slotUnclean in
      r ⟦ race_st := s ⟦ slot := slot (race_st r) ⟧ ⟧ ⟦ race_end := Some (RaceServed (res_idx res)) ⟧
  end.

(** *** The probes *)

(** A result sent on the channel. *)
Definition deliver (idx : nat) (res : hedgeResult) (r : race) : race :=
  r ⟦ probes := delete idx (probes r) ⟧ ⟦ results := results r ++ [res] ⟧.

Definition moveProbe (x : exchange) (err : option probeError) (idx : nat) (p : probe) (candidate : modelCandidate)
    (r : race) : race :=
  let s := onto (race_st r) (probe_st p) in
  match probe_stage p with
  | Launched =>
      let '(s, t) := probeSend fence cfg x s candidate idx in
      let r := r ⟦ race_st := publish (race_st r) s ⟧ ⟦ slotsTaken := slotsTaken r ++ option_list (slot s) ⟧ in
      match t with
      | ProbeDone res => deliver idx res r
      | ProbeWaits res resp => r ⟦ probes := <[idx := MkProbe s (Answered res resp)]> (probes r) ⟧
      end
  | Answered res resp =>
      let '(s, t, flagged) := probeJudge cfg x s candidate res resp in
      let r := r ⟦ race_st := publish (race_st r) s ⟧ ⟦ charges := setFlag (charges r) idx flagged ⟧ in
      match t with
      | ProbeDone res => deliver idx res r
      | ProbeWaits res resp => r ⟦ probes := <[idx := MkProbe s (Streaming res resp)]> (probes r) ⟧
      end
  | Streaming res resp =>
      let '(s, res, flagged) := probeFirstToken cfg x s candidate res resp ttftTimeout stallTimeout err in
      deliver idx res (r ⟦ race_st := publish (race_st r) s ⟧ ⟦ charges := setFlag (charges r) idx flagged ⟧)
  end.

(** What a probe's context can say: beaten only if the orchestrator flagged it,
    over if the orchestrator cancelled it. *)
Definition ctxFits (r : race) (idx : nat) (ctx : context) : Prop :=
  (HedgeSupersededKey ctx = true → superseded r !! idx = Some true) ∧
  (cancelled r !! idx = Some true → ctxOver ctx = true).

(** What every other request does meanwhile: the books stay balanced and no slot
    of this race is touched. *)
Definition elsewhere (r : race) (s : session) : Prop :=
  (conserved (pool (race_st r)) → conserved (pool s)) ∧
  (length (slots (pool (race_st r))) ≤ length (slots (pool s)))%nat ∧
  ∀ k, k ∈ slotsTaken r → slots (pool s) !! k = slots (pool (race_st r)) !! k.

Inductive race_step : race → race → Prop :=
| step_probe x err idx p candidate r :
    probes r !! idx = Some p → candidates !! idx = Some candidate → ctxFits r idx (attemptCtx x) →
    race_step r (moveProbe x err idx p candidate r)
| step_result e res rest r :
    race_end r = None → results r = res :: rest → 0 < now e →
    race_step r (onResult e res (r ⟦ results := rest ⟧))
| step_tick e r : race_end r = None → 0 < now e → race_step r (onTick e r)
| step_deadline e r : race_end r = None → race_step r (onDeadline e r)
| step_gone e r : race_end r = None → race_step r (onGone e r)
| step_serve x st scanErr opts res resp r :
    race_end r = Some (RaceWon res) → res_resp res = Some resp →
    race_step r (serveHedgeWinner x st scanErr opts res resp r)
| step_drain e res rest r :
    race_end r ≠ None → results r = res :: rest →
    race_step r (drainHedgeResult e res (r ⟦ results := rest ⟧))
| step_elsewhere s r : elsewhere r s → race_step r (r ⟦ race_st := publish (race_st r) s ⟧).

Inductive race_reachable (st0 : session) : race → Prop :=
| race_starts now : 0 < now → race_reachable st0 (newRace now st0)
| race_runs r r' : race_reachable st0 r → race_step r r' → race_reachable st0 r'.
End Race.

(** Who won. *)
Definition winnerOf (e : raceEnd) : option nat :=
  match e with RaceWon res => Some (res_idx res) | RaceServed idx => Some idx | _ => None end.
