(* ===== verification/HedgeLedger.v ===== *)
(** * The hedged race's books (internal/proxy: hedging.go, attempt_trail.go)

    What the orchestrator counts and records: which launches are out, which have
    reported, what the trail says of each and which were charged. The invariants
    of every interleaving, and the properties that follow from them. *)

From S2P Require Import Prelude Circuit Cooldown CircuitEvents Breaker BreakerGate BreakerPhases.
From S2P Require Import Errors Verdict Inflight AttemptTrail Outcome StreamEnd Attempt FailoverWalk HedgeProbe Hedge.

(** ** Specification *)

(** The launches that reported, and those that have not: still probing, or with
    a result in the channel. *)
Definition settledIdx (settled : list bool) : list nat :=
  filter (fun i => settled !! i = Some true) (seq 0 (length settled)).

Definition outs (ps : gmap nat probe) (rs : list hedgeResult) : list nat := (map_to_list ps).*1 ++ (res_idx <$> rs).

Definition probeIdx (idx : nat) (p : probe) : Prop :=
  match probe_stage p with Launched => True | Answered res _ | Streaming res _ => res_idx res = idx end.

Section Books.
Context (candidates : list modelCandidate) (promptTextBytes : Z).

Record counted (r : race) : Prop := {
  ct_settled : length (settled r) = length candidates;
  ct_launchedAt : length (launchedAt r) = length candidates;
  ct_next : launched r = nextIdx r ∧ (nextIdx r ≤ length candidates)%nat;
  ct_times i : (i < length candidates)%nat → IsZero (launchTime r i) = negb (i <? nextIdx r)%nat;
  ct_flight : race_inFlight r = Z.of_nat (length (outs (probes r) (results r)));
  ct_nodup : NoDup (outs (probes r) (results r));
  ct_bound : Forall (fun i => (i < nextIdx r)%nat) (outs (probes r) (results r));
  ct_probes idx p : probes r !! idx = Some p → probeIdx idx p
}.

(** Each launch is out or has reported, never both. *)
Definition partitioned (r : race) : Prop :=
  settledIdx (settled r) ++ outs (probes r) (results r) ≡ₚ seq 0 (nextIdx r).

(** The trail since the race began: one record per index of [l], naming its candidate. *)
Definition recorded (base : list attemptRecord) (l : list nat) (r : race) : Prop :=
  about <$> attempts (logData (race_st r)) =
    (about <$> base) ++ omap (fun i => (fun c => about_candidate (Z.of_nat i, c)) <$> candidates !! i) l.

(** What has been charged. *)
Definition prompt : Z := ClampTokenCount (estimateTokens promptTextBytes).

Record chargeOk (c : hedgeCharges) (rej : list rejectedAttempt) : Prop := {
  bk_billed : length (billed c) = length candidates;
  bk_charged : length (charged c) = length candidates;
  bk_owed : owed c =
    if 0 <? prompt then replicate (length (filter (fun b => b = true) (charged c))) prompt else [];
  bk_rejected : rej_prompt <$> rej = owed c
}.

Definition chargedAt (c : hedgeCharges) (i : nat) : bool := default false (charged c !! i).

(** Who a race at its end has charged: every launch its provider billed, but the winner's. *)
Definition allCharged (w : option nat) (r : race) : Prop :=
  ∀ i, (i < length candidates)%nat →
    chargedAt (charges r) i = isBilled (charges r) i && negb (bool_decide (Some i = w)).

(** A race under way: nobody charged but the losers that reported, each if its
    provider had taken the request on. *)
Record running (base : list attemptRecord) (r : race) : Prop := {
  run_parts : partitioned r;
  run_trail : ∃ l, recorded base l r ∧ l ≡ₚ settledIdx (settled r);
  run_charges i : (i < length candidates)%nat →
    chargedAt (charges r) i = isBilled (charges r) i && default false (settled r !! i);
  run_flags : Forall (fun b => b = false) (superseded r)
}.

(** A race over. *)
Record ended (base : list attemptRecord) (e : raceEnd) (r : race) : Prop := {
  end_trail : ∃ l, recorded base l r ∧
    l ++ (match e with RaceWon res => [res_idx res] | _ => [] end) ≡ₚ seq 0 (nextIdx r);
  end_winner w : winnerOf e = Some w →
    (w < nextIdx r)%nat ∧ w ∉ outs (probes r) (results r) ∧ chargedAt (charges r) w = false;
  end_open res : e = RaceWon res → res_won res = true ∧
    ∃ c, candidates !! res_idx res = Some c ∧
      about <$> openAttempt (logData (race_st r)) = Some (about_candidate (Z.of_nat (res_idx res), c));
  end_flags : winnerOf e = None → Forall (fun b => b = false) (superseded r)
}.

Record bookkept (base : list attemptRecord) (r : race) : Prop := {
  kept_counted : counted r;
  kept_booked : chargeOk (charges r) (rejected r);
  kept_phase : match race_end r with
    | None => running base r ∧ outs (probes r) (results r) ≠ []
    | Some e => ended base e r
    end
}.
End Books.

#[local] Arguments outs : simpl never.
#[local] Arguments settledIdx : simpl never.
#[local] Arguments Nat.ltb : simpl never.
#[local] Arguments Z.ltb : simpl never.
#[local] Arguments seq : simpl never.

(** The moves a race is bound to make: its probes' and the receipt of their results. *)
Section Own.
Context (fence attemptDetail : string → string) (cfg : requestConfig).
Context (candidates : list modelCandidate) (promptTextBytes : Z) (ttftTimeout stallTimeout : Duration).

Inductive own_step : race → race → Prop :=
| own_probe x err idx p candidate r :
    probes r !! idx = Some p → candidates !! idx = Some candidate → ctxFits r idx (attemptCtx x) →
    own_step r (moveProbe fence cfg ttftTimeout stallTimeout x err idx p candidate r)
| own_receipt e res rest r :
    race_end r = None → results r = res :: rest → 0 < now e →
    own_step r (onResult fence attemptDetail cfg candidates promptTextBytes e res (r ⟦ results := rest ⟧)).
End Own.

(** The same moves as functions, for running a race: nothing to move is no move. *)
Section Script.
Context (cfg : requestConfig) (candidates : list modelCandidate) (promptTextBytes : Z) (ttftTimeout stallTimeout : Duration).

Definition runProbe (x : exchange) (err : option probeError) (idx : nat) (r : race) : race :=
  match probes r !! idx, candidates !! idx with
  | Some p, Some c => moveProbe id cfg ttftTimeout stallTimeout x err idx p c r
  | _, _ => r
  end.

Definition runReceipt (e : Env) (r : race) : race :=
  match race_end r, results r with
  | None, res :: rest => onResult id id cfg candidates promptTextBytes e res (r ⟦ results := rest ⟧)
  | _, _ => r
  end.
End Script.

(** Two candidates: the first answers 503, which launches the second, which wins. *)
Definition demoPair : list modelCandidate :=
  [MkCandidate "p" "P" (Some "m") None; MkCandidate "q" "Q" (Some "m") None].

Definition demoProbe (status : Z) : exchange :=
  let e := env_at (2 * Hour) in
  MkExchange e e e (MkContext None "failover_timeout" false) None
    (fun _ => TryOk (MkResponse status (fun _ => "") zeroVerdict "")) false (fun _ => NotHandled)
    (fun r => r) (fun _ => (None, "")) id id (fun _ => None) (Untranslatable (MkBodyError Canceled None)).

Definition demoUndecided : race :=
  let cfg := demoConfig (3 * Hour) in
  let probe status idx r := runProbe cfg demoPair Minute Second (demoProbe status) None idx r in
  let r := newRace demoPair (2 * Hour) (demoSession start) in
  let r := probe 503 0%nat (probe 503 0%nat r) in
  let r := runReceipt cfg demoPair 4000 (env_at (2 * Hour)) r in
  probe 200 1%nat (probe 200 1%nat (probe 200 1%nat r)).

Definition demoWon : race := runReceipt (demoConfig (3 * Hour)) demoPair 4000 (env_at (2 * Hour)) demoUndecided.

(** What is left of a race: the launches it may yet make, the moves of its
    probes and the results to read. *)
Definition probeWeight (p : probe) : nat :=
  match probe_stage p with Launched => 4 | Answered _ _ => 3 | Streaming _ _ => 2 end.

Definition pending (n : nat) (r : race) : nat :=
  5 * (n - nextIdx r) + sum_list (probeWeight <$> (map_to_list (probes r)).*2) + length (results r).

(** ** Lemmas *)

Lemma settledIdx_in s i : i ∈ settledIdx s ↔ s !! i = Some true.
Proof.
  unfold settledIdx. rewrite list_elem_of_filter, elem_of_seq. split; [tauto|].
  intros Hi. split; [done|]. apply lookup_lt_Some in Hi. lia.
Qed.

Lemma settledIdx_nodup s : NoDup (settledIdx s).
Proof. apply NoDup_filter, NoDup_seq. Qed.

Lemma settledIdx_insert s i : s !! i = Some false → settledIdx (<[i := true]> s) ≡ₚ i :: settledIdx s.
Proof.
  intros Hi. apply NoDup_Permutation; [apply settledIdx_nodup| |].
  - constructor; [|apply settledIdx_nodup]. rewrite settledIdx_in. congruence.
  - intros j. rewrite elem_of_cons, !settledIdx_in, list_lookup_insert. case_decide as Hd.
    + destruct Hd as [-> _]. naive_solver.
    + split; [by auto|]. intros [-> | ?]; [|done]. apply lookup_lt_Some in Hi. tauto.
Qed.

Lemma outs_insert ps rs i p p' : ps !! i = Some p → outs (<[i := p']> ps) rs ≡ₚ outs ps rs.
Proof.
  intros Hi. unfold outs. rewrite <- (map_to_list_delete ps i p Hi).
  rewrite <- (insert_delete_eq ps i p'), map_to_list_insert by apply lookup_delete_eq. done.
Qed.

Lemma outs_launch ps rs i p : ps !! i = None → outs (<[i := p]> ps) rs ≡ₚ i :: outs ps rs.
Proof. intros Hi. unfold outs. by rewrite map_to_list_insert. Qed.

Lemma outs_deliver ps rs i p res :
  ps !! i = Some p → res_idx res = i → outs (delete i ps) (rs ++ [res]) ≡ₚ outs ps rs.
Proof.
  intros Hi <-. unfold outs. rewrite <- (map_to_list_delete ps _ p Hi), fmap_app. cbn.
  rewrite app_assoc. by rewrite <- Permutation_cons_append.
Qed.

Lemma outs_pop ps res rs : outs ps (res :: rs) ≡ₚ res_idx res :: outs ps rs.
Proof. unfold outs. cbn. by rewrite <- Permutation_middle. Qed.

Lemma outs_probe ps rs i p : ps !! i = Some p → i ∈ outs ps rs.
Proof.
  intros Hi. unfold outs. apply elem_of_app. left. apply list_elem_of_fmap. exists (i, p).
  by rewrite elem_of_map_to_list.
Qed.

(** An index past the launches is no probe's. *)
Lemma outs_fresh ps rs i : Forall (fun j => (j < i)%nat) (outs ps rs) → ps !! i = None.
Proof.
  intros H. destruct (ps !! i) as [p|] eqn:Hi; [|done].
  rewrite Forall_forall in H. specialize (H i (outs_probe ps rs i p Hi)). lia.
Qed.

Section BookLemmas.
Context (fence attemptDetail : string → string) (cfg : requestConfig).
Context (candidates : list modelCandidate) (promptTextBytes : Z) (ttftTimeout stallTimeout : Duration).

Notation counted := (counted candidates).
Notation recorded := (recorded candidates).
Notation chargeOk := (chargeOk candidates promptTextBytes).
Notation running := (running candidates).
Notation ended := (ended candidates).
Notation n := (length candidates).

(** *** Counting *)

(** The books read only these fields. *)
Lemma counted_outs r r' :
  settled r' = settled r → launchedAt r' = launchedAt r → launched r' = launched r → nextIdx r' = nextIdx r →
  race_inFlight r' = race_inFlight r →
  outs (probes r') (results r') ≡ₚ outs (probes r) (results r) →
  (∀ idx p, probes r' !! idx = Some p → probeIdx idx p) → counted r → counted r'.
Proof.
  intros Hs Ht Hl Hn Hf Ho Hp [H1 H2 H3 H4 H5 H6 H7 H8].
  split; unfold launchTime in *; rewrite ?Hs, ?Ht, ?Hl, ?Hn, ?Hf, ?Ho; auto.
Qed.

Lemma counted_same r r' :
  settled r' = settled r → launchedAt r' = launchedAt r → launched r' = launched r → nextIdx r' = nextIdx r →
  race_inFlight r' = race_inFlight r → results r' = results r → probes r' = probes r → counted r → counted r'.
Proof. intros Hs Ht Hl Hn Hf Hr Hp H. apply (counted_outs r r'); try done; rewrite ?Hr, ?Hp; [done|apply H]. Qed.

Definition launchNext (now : Time) (r : race) : race :=
  (launch candidates now (nextIdx r) r) ⟦ nextIdx := S (nextIdx r) ⟧.

Lemma launch_counted now r :
  0 < now → (nextIdx r < n)%nat → counted r →
  counted (launchNext now r) ∧
  outs (probes (launchNext now r)) (results (launchNext now r)) ≡ₚ nextIdx r :: outs (probes r) (results r).
Proof.
  intros Hnow Hn [H1 H2 [H3 H3'] H4 H5 H6 H7 H8]. unfold launchNext, launch.
  destruct (lookup_lt_is_Some_2 candidates _ Hn) as [c Hc]. rewrite Hc. cbn.
  pose proof (outs_fresh _ _ _ H7) as Hfresh.
  rewrite (outs_launch _ _ _ _ Hfresh). split; [|done]. split; cbn; rewrite ?length_insert, ?(outs_launch _ _ _ _ Hfresh); auto.
  - intros i Hi. unfold launchTime in *. cbn. rewrite list_lookup_insert, H2. case_decide as Hd.
    + destruct Hd as [<- _]. cbn. rewrite (proj2 (Nat.ltb_lt _ _)) by lia. unfold IsZero, zeroTime. apply Z.eqb_neq. lia.
    + rewrite H4 by done. f_equal. destruct (Nat.ltb_spec i (nextIdx r)), (Nat.ltb_spec i (S (nextIdx r))); try done; lia.
  - cbn. lia.
  - constructor; [|done]. intros Hin. rewrite Forall_forall in H7. specialize (H7 _ Hin). lia.
  - constructor; [lia|]. eapply Forall_impl; [exact H7|]. simpl. lia.
  - intros idx p [[<- <-]|[_ ?]]%lookup_insert_Some; [done|]. by apply H8.
Qed.

(** A result read off the channel and marked reported. *)
Lemma settle_counted r res rest :
  (settled r !! res_idx res ≠ None) → counted (r ⟦ results := res :: rest ⟧) →
  counted (r ⟦ results := rest ⟧ ⟦ race_inFlight := race_inFlight r - 1 ⟧ ⟦ settled := <[res_idx res := true]> (settled r) ⟧).
Proof.
  intros Hs [H1 H2 H3 H4 H5 H6 H7 H8]. cbn in *. rewrite (outs_pop (probes r) res rest) in *.
  split; cbn; rewrite ?length_insert; auto.
  - rewrite H5. cbn. lia.
  - by inversion H6.
  - by inversion H7.
Qed.

Lemma drain_counted r res rest :
  counted (r ⟦ results := res :: rest ⟧) →
  counted (r ⟦ results := rest ⟧ ⟦ race_inFlight := race_inFlight r - 1 ⟧).
Proof.
  intros [H1 H2 H3 H4 H5 H6 H7 H8]. cbn in *. rewrite (outs_pop (probes r) res rest) in *.
  split; cbn; auto.
  - rewrite H5. cbn. lia.
  - by inversion H6.
  - by inversion H7.
Qed.

(** Where a result in the channel stands while the books are partitioned. *)
Lemma pop_unsettled r res rest :
  counted (r ⟦ results := res :: rest ⟧) → partitioned (r ⟦ results := res :: rest ⟧) →
  settled r !! res_idx res = Some false ∧ (res_idx res < nextIdx r)%nat ∧ is_Some (candidates !! res_idx res).
Proof.
  intros Hc Hp. unfold partitioned in Hp. cbn in Hp. rewrite (outs_pop (probes r)) in Hp.
  assert (NoDup (settledIdx (settled r) ++ res_idx res :: outs (probes r) rest)) as Hnd by (rewrite Hp; apply NoDup_seq).
  assert (res_idx res ∈ seq 0 (nextIdx r)) as Hin by (rewrite <- Hp; set_solver).
  apply elem_of_seq in Hin. destruct (ct_next _ _ Hc) as [_ Hle]. cbn in Hle.
  assert (res_idx res < n)%nat as Hlt by lia. split; [|split; [lia|by apply lookup_lt_is_Some_2]].
  pose proof (ct_settled _ _ Hc) as Hlen. cbn in Hlen.
  destruct (lookup_lt_is_Some_2 (settled r) (res_idx res)) as [[|] Hs]; [by rewrite Hlen| |done].
  apply settledIdx_in in Hs. rewrite <- Permutation_middle in Hnd.
  apply NoDup_cons in Hnd as [Hnot _]. set_solver.
Qed.

Lemma pop_partitioned r res rest :
  settled r !! res_idx res = Some false → partitioned (r ⟦ results := res :: rest ⟧) →
  partitioned (r ⟦ results := rest ⟧ ⟦ settled := <[res_idx res := true]> (settled r) ⟧).
Proof.
  intros Hs Hp. unfold partitioned in *. cbn in *. rewrite (outs_pop (probes r)) in Hp.
  rewrite settledIdx_insert by done. rewrite <- Hp. cbn. by rewrite Permutation_middle.
Qed.

(** *** Charging *)

Lemma prompt_nonneg : 0 ≤ prompt promptTextBytes.
Proof. unfold prompt, ClampTokenCount, MaxSaneTokenCount. lia. Qed.

Lemma charge_spec c rej i :
  chargeOk c rej →
  let '(c', rej') := charge promptTextBytes candidates (c, rej) i in
  chargeOk c' rej' ∧ billed c' = billed c ∧
  ∀ j, chargedAt c' j = chargedAt c j || (bool_decide (j = i) && isBilled c i && (j <? n)%nat).
Proof.
  intros Hok. pose proof Hok as [Hb Hc Ho Hr]. unfold charge.
  destruct (charged c !! i) as [b|] eqn:Hi; cbn; last first.
  { split; [done|]. split; [done|]. intros j. apply lookup_ge_None in Hi. case_bool_decide; [|by rewrite orb_false_r].
    subst. rewrite (proj2 (Nat.ltb_ge _ _)) by lia. by rewrite andb_false_r, orb_false_r. }
  assert (i < n)%nat as Hlt by (rewrite <- Hc; by eapply lookup_lt_Some).
  destruct b; cbn; [|destruct (isBilled c i) eqn:Hbi; cbn].
  - split; [done|]. split; [done|]. intros j. case_bool_decide as Hj; [|by rewrite orb_false_r].
    subst j. unfold chargedAt. by rewrite Hi.
  - destruct (lookup_lt_is_Some_2 candidates i Hlt) as [cand ->]. unfold rejectStreamPrompt. fold (prompt promptTextBytes).
    pose proof prompt_nonneg as Hp.
    assert (∀ r, chargeOk (MkCharges (billed c) (<[i:=true]> (charged c))
      (if 0 <? prompt promptTextBytes then owed c ++ [prompt promptTextBytes] else owed c)) r ↔
      rej_prompt <$> r = if 0 <? prompt promptTextBytes then owed c ++ [prompt promptTextBytes] else owed c) as Hcok.
    { intros r. split; [by intros [_ _ _ ?]|]. intros Hr'. split; cbn; rewrite ?length_insert; [done..| |done].
      rewrite Ho. destruct (0 <? prompt promptTextBytes); [|done]. rewrite <- replicate_S_end. f_equal.
      pose proof (count_insert (fun b => b = true) (charged c) i false true Hi) as Hn.
      rewrite decide_False, decide_True in Hn by done. lia. }
    assert (∀ j o, chargedAt (MkCharges (billed c) (<[i:=true]> (charged c)) o) j =
      chargedAt c j || (bool_decide (j = i) && (j <? n)%nat)) as Hch.
    { intros j o. unfold chargedAt. cbn. rewrite list_lookup_insert, Hc. case_bool_decide as Hj.
      - subst j. rewrite decide_True by done. rewrite (proj2 (Nat.ltb_lt _ _)) by done. by rewrite orb_true_r.
      - rewrite decide_False by naive_solver. by rewrite orb_false_r. }
    destruct (prompt promptTextBytes =? 0) eqn:Hz; cbn.
    + apply Z.eqb_eq in Hz. rewrite Hz in *. cbn in *. split; [by apply Hcok|]. split; [done|].
      intros j. rewrite Hch. by rewrite andb_true_r.
    + apply Z.eqb_neq in Hz. assert ((0 <? prompt promptTextBytes) = true) as Hpos by (apply Z.ltb_lt; lia).
      rewrite Hpos in *. split; [apply Hcok; by rewrite fmap_app, Hr|]. split; [done|]. intros j. rewrite Hch. by rewrite andb_true_r.
  - split; [done|]. split; [done|]. intros j. by rewrite andb_false_r, orb_false_r.
Qed.

Lemma chargeAllBut_spec c rej except :
  chargeOk c rej →
  let '(c', rej') := chargeAllBut promptTextBytes candidates except (c, rej) in
  chargeOk c' rej' ∧ billed c' = billed c ∧
  ∀ j, (j < n)%nat → chargedAt c' j = chargedAt c j || (isBilled c j && negb (bool_decide (Some j = except))).
Proof.
  intros Hok. unfold chargeAllBut. set (f := fun cr i => if decide (Some i = except) then cr else charge promptTextBytes candidates cr i).
  assert (∀ l, let '(c', rej') := foldl f (c, rej) l in
    chargeOk c' rej' ∧ billed c' = billed c ∧
    ∀ j, (j < n)%nat → chargedAt c' j =
      chargedAt c j || (bool_decide (j ∈ l) && isBilled c j && negb (bool_decide (Some j = except)))) as H.
  { induction l as [|i l IH] using rev_ind; cbn.
    - split; [done|]. split; [done|]. intros j _. by rewrite orb_false_r.
    - rewrite foldl_snoc. destruct (foldl f (c, rej) l) as [c1 rej1]. destruct IH as (Hok1 & Hb1 & Hch1).
      unfold f. case_decide as Hd.
      + split; [done|]. split; [done|]. intros j Hj. rewrite Hch1 by done. f_equal.
        destruct (decide (j = i)) as [->|Hne].
        * rewrite (bool_decide_eq_true_2 (Some i = except)) by done. by rewrite !andb_false_r.
        * do 2 f_equal. apply bool_decide_ext. set_solver.
      + pose proof (charge_spec c1 rej1 i Hok1) as Hs. destruct (charge _ _ (c1, rej1) i) as [c2 rej2].
        destruct Hs as (? & Hb2 & Hch2). split; [done|]. split; [congruence|]. intros j Hj.
        rewrite Hch2, Hch1, (proj2 (Nat.ltb_lt _ _)) by done. rewrite andb_true_r.
        unfold isBilled in *. rewrite Hb1. destruct (decide (j = i)) as [->|Hne].
        * rewrite (bool_decide_eq_true_2 (i = i)), (bool_decide_eq_true_2 (i ∈ l ++ [i])), (bool_decide_eq_false_2 (Some i = except)) by set_solver.
          cbn. rewrite andb_true_r. by destruct (chargedAt c i), (bool_decide (i ∈ l)), (match billed c !! i with Some (Some true) => _ | _ => _ end).
        * rewrite (bool_decide_eq_false_2 (j = i)) by done. cbn. rewrite orb_false_r. f_equal. do 2 f_equal.
          apply bool_decide_ext. set_solver. }
  specialize (H (seq 0 n)). destruct (foldl f (c, rej) (seq 0 n)) as [c' rej']. destruct H as (? & ? & Hch).
  split; [done|]. split; [done|]. intros j Hj. rewrite Hch by done.
  rewrite (bool_decide_eq_true_2 (j ∈ seq 0 n)) by (apply elem_of_seq; lia). done.
Qed.

(** *** Recording *)

Lemma recorded_snoc base l r i c rec :
  recorded base l r → candidates !! i = Some c → about rec = about_candidate (Z.of_nat i, c) →
  recorded base (l ++ [i]) (appendRecord r rec).
Proof.
  unfold HedgeLedger.recorded. cbn. intros H Hc Ha. rewrite fmap_app, H, omap_app, app_assoc. cbn. by rewrite Hc, Ha.
Qed.

(** What leaving the race does not touch. *)
Record left_alone (r r' : race) : Prop := {
  la_charges : charges r' = charges r;
  la_rejected : rejected r' = rejected r;
  la_superseded : superseded r' = superseded r;
  la_probes : probes r' = probes r;
  la_next : nextIdx r' = nextIdx r;
  la_end : race_end r' = race_end r;
  la_times : launchedAt r' = launchedAt r
}.

Lemma left_alone_trans r1 r2 r3 : left_alone r1 r2 → left_alone r2 r3 → left_alone r1 r3.
Proof. intros [] []. split; congruence. Qed.

(** The channel read while leaving: the books with [rs] still in it, and the
    winner already marked. *)
Record leaving (base : list attemptRecord) (w l : list nat) (rs : list hedgeResult) (r : race) : Prop := {
  lv_counted : counted (r ⟦ results := rs ⟧);
  lv_parts : partitioned (r ⟦ results := rs ⟧);
  lv_trail : recorded base l r;
  lv_settled : l ++ w ≡ₚ settledIdx (settled r)
}.

Lemma settleQueued_leaving e kind detail base w l res rs r :
  leaving base w l (res :: rs) r →
  leaving base w (l ++ [res_idx res]) rs (settleQueued attemptDetail cfg candidates e kind detail r res) ∧
  left_alone r (settleQueued attemptDetail cfg candidates e kind detail r res).
Proof.
  intros [Hc Hp Hl Hs]. destruct (pop_unsettled r res rs Hc Hp) as (Hns & Hlt & [c Hcand]).
  pose proof (settle_counted r res rs ltac:(by rewrite Hns) Hc) as Hc'.
  pose proof (pop_partitioned r res rs Hns Hp) as Hp'.
  unfold settleQueued. rewrite Hcand.
  set (rec := if res_won res then _ else _).
  assert (about rec = about_candidate (Z.of_nat (res_idx res), c)) as Hrec by (unfold rec; by destruct (res_won res)).
  split.
  - split.
    + destruct (res_resp res); by eapply counted_same; [..|exact Hc'].
    + destruct (res_resp res); exact Hp'.
    + eapply recorded_snoc; [destruct (res_resp res); exact Hl|done..].
    + rewrite <- app_assoc, (Permutation_app_comm [_] w), app_assoc, Hs.
      destruct (res_resp res); cbn; rewrite settledIdx_insert by done; by rewrite <- Permutation_cons_append.
  - by destruct (res_resp res).
Qed.

Lemma settleQueue_leaving e kind detail base w l rs r :
  leaving base w l rs r →
  let r' := foldl (settleQueued attemptDetail cfg candidates e kind detail) r rs in
  (∃ l', leaving base w l' [] r') ∧ left_alone r r'.
Proof.
  revert l r. induction rs as [|res rs IH]; intros l r H; cbn; [split; [by eauto|by split]|].
  destruct (settleQueued_leaving e kind detail base w l res rs r H) as [H1 H2].
  destruct (IH _ _ H1) as [H3 H4]. split; [done|]. by eapply left_alone_trans.
Qed.

(** Who is abandoned in flight. *)
Definition abandoned (except : option nat) (r : race) (i : nat) : Prop :=
  Some i ≠ except ∧ (i < nextIdx r)%nat ∧ settled r !! i ≠ Some true.

#[local] Instance abandoned_dec except r i : Decision (abandoned except r i).
Proof. unfold abandoned. apply _. Defined.

Lemma abandonUnsettled_recorded e except kind detail base l r js :
  counted r → recorded base l r → Forall (fun i => (i < n)%nat) js →
  let r' := foldl (abandonUnsettled candidates e except kind detail) r js in
  recorded base (l ++ filter (abandoned except r) js) r' ∧
  left_alone r r' ∧ settled r' = settled r ∧ results r' = results r ∧ race_inFlight r' = race_inFlight r ∧
  launched r' = launched r ∧ openAttempt (logData (race_st r')) = openAttempt (logData (race_st r)).
Proof.
  intros Hc Hl His. induction js as [|i js IH] using rev_ind; [by rewrite app_nil_r|].
  apply Forall_app in His as [His Hi]. rewrite Forall_singleton in Hi. specialize (IH His).
  cbn zeta in *. rewrite foldl_snoc, filter_app. set (r1 := foldl _ r js) in *.
  destruct IH as (Hl1 & Hla & Hs & Hr & Hf & Hn & Ho). unfold abandonUnsettled.
  destruct (lookup_lt_is_Some_2 candidates i Hi) as [c Hcand]. rewrite Hcand.
  assert (launchTime r1 i = launchTime r i) as -> by (unfold launchTime; by rewrite (la_times _ _ Hla)).
  rewrite (ct_times _ _ Hc) by done. rewrite Hs, negb_involutive.
  assert (bool_decide (Some i ≠ except) && (i <? nextIdx r)%nat && negb (default false (settled r !! i)) =
    bool_decide (abandoned except r i)) as ->.
  { apply eq_true_iff_eq. rewrite !andb_true_iff, !bool_decide_eq_true, Nat.ltb_lt, negb_true_iff. unfold abandoned.
    destruct (settled r !! i) as [[|]|]; cbn; naive_solver. }
  rewrite filter_cons, filter_nil. case_bool_decide as Hd.
  - rewrite decide_True, app_assoc by done. split; [by eapply recorded_snoc|]. destruct Hla. by split_and!.
  - rewrite decide_False, app_nil_r by done. by split_and!.
Qed.

(** Leaving the race names every launch: the winner apart, each has its record. *)
Lemma settleHedgeLaunches_spec e except kind detail base w l r :
  leaving base w l (results r) r → w = option_list except →
  let r' := settleHedgeLaunches attemptDetail cfg candidates e except kind detail r in
  counted r' ∧ left_alone r r' ∧ results r' = [] ∧
  openAttempt (logData (race_st r')) = openAttempt (logData (race_st (foldl (settleQueued attemptDetail cfg candidates e kind detail) r (results r)))) ∧
  ∃ l', recorded base l' r' ∧ l' ++ w ≡ₚ seq 0 (nextIdx r).
Proof.
  intros Hlv Hw. destruct (settleQueue_leaving e kind detail base w l _ r Hlv) as [[l1 [Hc Hp Ht Hs]] Hla].
  unfold settleHedgeLaunches. set (r1 := foldl (settleQueued _ _ _ _ _ _) r (results r)) in *.
  set (r2 := r1 ⟦ results := [] ⟧) in *.
  destruct (abandonUnsettled_recorded e except kind detail base l1 r2 (seq 0 n) Hc Ht) as (Ht' & Hla' & Hs' & Hr' & Hf' & Hn' & Ho').
  { apply Forall_forall. intros i Hi%elem_of_seq. lia. }
  set (r3 := foldl (abandonUnsettled _ _ _ _ _) r2 (seq 0 n)) in *. cbn zeta.
  split; [destruct Hla'; by eapply counted_same; [..|exact Hc]|].
  split; [eapply left_alone_trans; [exact Hla|]; by destruct Hla'|]. split; [done|]. split; [done|].
  eexists. split; [exact Ht'|]. destruct Hla as [_ _ _ Hprobes Hnext _ _].
  rewrite <- Hnext. apply NoDup_Permutation; [|apply NoDup_seq|].
  - rewrite <- app_assoc, (Permutation_app_comm _ w), app_assoc, Hs. apply NoDup_app.
    split; [apply settledIdx_nodup|]. split; [|apply NoDup_filter, NoDup_seq].
    intros i Hi%settledIdx_in [(_ & _ & Hns) _]%list_elem_of_filter. by apply Hns.
  - intros i. rewrite <- app_assoc, (Permutation_app_comm _ w), app_assoc, Hs.
    rewrite elem_of_app, list_elem_of_filter, settledIdx_in, !elem_of_seq. unfold abandoned. cbn.
    pose proof (ct_next _ _ Hc) as [_ Hle]. cbn in Hle. unfold partitioned in Hp. cbn in Hp.
    assert (∀ j, settled r1 !! j = Some true → (j < nextIdx r1)%nat) as Hset.
    { intros j Hj%settledIdx_in. assert (j ∈ seq 0 (nextIdx r1)) as Hin by (rewrite <- Hp; set_solver).
      apply elem_of_seq in Hin. lia. }
    assert (∀ j, except = Some j → settled r1 !! j = Some true) as Hex.
    { intros j ->. apply settledIdx_in. rewrite <- Hs, Hw. cbn. set_solver. }
    split.
    + intros [Hi|[(_ & Hi & _) _]]; [apply Hset in Hi|]; lia.
    + intros [_ Hi]. destruct (decide (settled r1 !! i = Some true)) as [|Hns]; [by left|right].
      split_and!; [|lia|done|lia|lia]. intros Heq. by apply Hns, Hex.
Qed.

(** *** The select *)

Lemma chargedAt_lengths c rej b : length b = length (billed c) →
  chargeOk c rej → chargeOk (MkCharges b (charged c) (owed c)) rej.
Proof. intros Hb [? ? ? ?]. split; cbn; congruence. Qed.

Lemma launch_running base now r :
  0 < now → (nextIdx r < n)%nat → counted r → chargeOk (charges r) (rejected r) → running base r →
  counted (launchNext now r) ∧ chargeOk (charges (launchNext now r)) (rejected (launchNext now r)) ∧
  running base (launchNext now r) ∧ outs (probes (launchNext now r)) (results (launchNext now r)) ≠ [] ∧
  race_end (launchNext now r) = race_end r.
Proof.
  intros Hnow Hn Hc Hok [Hp (l & Hl & Hls) Hch Hf].
  destruct (launch_counted now r Hnow Hn Hc) as [Hc' Ho].
  split; [done|]. pose proof Hok as [Hb _ _ _].
  assert (settled r !! nextIdx r ≠ Some true) as Hns.
  { intros Hin%settledIdx_in. unfold partitioned in Hp. assert (nextIdx r ∈ seq 0 (nextIdx r)) as H by (rewrite <- Hp; set_solver).
    apply elem_of_seq in H. lia. }
  pose proof (ct_settled _ _ Hc) as Hlen.
  destruct (lookup_lt_is_Some_2 candidates _ Hn) as [c Hcand].
  assert (outs (probes (launchNext now r)) (results (launchNext now r)) ≠ []) as Hne.
  { intros He. rewrite He in Ho. by apply Permutation_nil_cons in Ho. }
  unfold partitioned in *. revert Ho Hne. unfold launchNext, launch. rewrite Hcand. cbn. intros Ho Hne.
  split; [apply (chargedAt_lengths (charges r)); [apply length_insert|done]|]. split; [|done].
  split; [|by exists l| |].
  - unfold partitioned. cbn. rewrite Ho, seq_S, <- Hp. cbn. rewrite <- Permutation_middle.
    by rewrite Permutation_cons_append.
  - intros i Hi. cbn. unfold isBilled, chargedAt. cbn. rewrite list_lookup_insert, Hb. case_decide as Hd.
    + destruct Hd as [<- _]. specialize (Hch _ Hi). unfold chargedAt in Hch. rewrite Hch.
      destruct (settled r !! nextIdx r) as [[|]|]; [done|by rewrite andb_false_r..].
    + by apply Hch.
  - cbn. by apply Forall_insert.
Qed.

(** A channel receive. *)
Lemma received base e res rest r :
  0 < now e → counted r → running base r → results r = res :: rest →
  let r1 := r ⟦ results := rest ⟧ ⟦ race_inFlight := race_inFlight r - 1 ⟧ ⟦ settled := <[res_idx res := true]> (settled r) ⟧ in
  counted r1 ∧ partitioned r1 ∧ settled r !! res_idx res = Some false ∧ (res_idx res < nextIdx r)%nat ∧
  is_Some (candidates !! res_idx res) ∧ res_idx res ∉ outs (probes r1) (results r1).
Proof.
  intros He Hc [Hp _ _ _] Hr r1.
  assert (counted (r ⟦ results := res :: rest ⟧)) as Hc0 by (by eapply counted_same; [..|exact Hc]).
  assert (partitioned (r ⟦ results := res :: rest ⟧)) as Hp0 by (unfold partitioned in *; cbn; by rewrite <- Hr).
  destruct (pop_unsettled r res rest Hc0 Hp0) as (Hs & Hlt & Hcand).
  split; [apply settle_counted; [by rewrite Hs|done]|]. split; [exact (pop_partitioned r res rest Hs Hp0)|].
  split_and!; [done..|]. unfold r1. cbn. pose proof (ct_nodup _ _ Hc0) as Hnd. cbn in Hnd. rewrite outs_pop in Hnd.
  by apply NoDup_cons in Hnd as [? _].
Qed.

Lemma win_kept base e res rest r :
  0 < now e → counted r → chargeOk (charges r) (rejected r) → running base r → results r = res :: rest → res_won res = true →
  let r' := onResult fence attemptDetail cfg candidates promptTextBytes e res (r ⟦ results := rest ⟧) in
  bookkept candidates promptTextBytes base r' ∧ race_end r' = Some (RaceWon res) ∧ allCharged candidates (Some (res_idx res)) r'.
Proof.
  intros He Hc Hok Hrun Hr Hw. destruct (received base e res rest r He Hc Hrun Hr) as (Hc1 & Hp1 & Hs & Hlt & [c Hcand] & Hnot).
  destruct Hrun as [_ (l & Hl & Hls) Hch Hf].
  unfold onResult, onWin. rewrite Hw. cbn [res_won]. set (r1 := r ⟦ results := rest ⟧ ⟦ race_inFlight := _ ⟧ ⟦ settled := _ ⟧) in *.
  destruct (settleHedgeLaunches_spec e (Some (res_idx res)) KindHedgeSuperseded "superseded by the winner while in flight"
    base [res_idx res] l r1) as (Hc2 & [Hch2 Hrj2 Hsu2 Hpr2 Hnx2 Hen2 Hti2] & Hr2 & _ & l2 & Hl2 & Hp2).
  { split; [exact Hc1|exact Hp1|exact Hl|]. cbn. rewrite settledIdx_insert by done. rewrite Hls. symmetry. apply Permutation_cons_append. }
  { done. }
  set (r2 := settleHedgeLaunches _ _ _ _ _ _ _ r1) in *. unfold chargeRest.
  pose proof (chargeAllBut_spec (charges r2) (rejected r2) (Some (res_idx res))) as Hall.
  rewrite Hch2, Hrj2 in *. specialize (Hall Hok).
  destruct (chargeAllBut _ _ _ _) as [c' rej']. destruct Hall as (Hok' & Hb' & Hch'). rewrite Hcand.
  cbn [charges rejected race_end]. split; [|split; [done|]].
  - split; [by eapply counted_same; [..|exact Hc2]|exact Hok'|]. cbn. split.
    + exists l2. split; [exact Hl2|]. cbn. by rewrite Hp2, Hnx2.
    + intros w [= <-]. cbn. rewrite Hnx2, Hpr2, Hr2. split; [done|]. split.
      * intros Hin. apply Hnot. unfold outs in *. cbn in *. set_solver.
      * rewrite Hch' by (by eapply lookup_lt_Some). rewrite bool_decide_eq_true_2 by done. rewrite andb_false_r, orb_false_r.
        cbn. rewrite (Hch (res_idx res)), Hs by (by eapply lookup_lt_Some). cbn. by rewrite andb_false_r.
    + intros res' [= <-]. split; [done|]. exists c. split; [done|]. by destruct c.
    + done.
  - intros i Hi. cbn. rewrite Hch' by done. cbn. rewrite (Hch i Hi). unfold isBilled. rewrite Hb'. cbn.
    case_bool_decide as Hd; cbn; [|by destruct (match billed _ !! i with Some (Some true) => _ | _ => _ end), (default _ _)].
    injection Hd as ->. rewrite Hs. cbn. by rewrite !andb_false_r.
Qed.

Lemma leave_kept base e kind detail re r :
  winnerOf re = None → counted r → chargeOk (charges r) (rejected r) → running base r →
  let r' := cancelExcept None false
    ((chargeRest candidates promptTextBytes None (settleHedgeLaunches attemptDetail cfg candidates e None kind detail r))
     ⟦ race_end := Some re ⟧) in
  bookkept candidates promptTextBytes base r' ∧ race_end r' = Some re ∧ allCharged candidates None r'.
Proof.
  intros Hre Hc Hok [Hp (l & Hl & Hls) Hch Hf].
  destruct (settleHedgeLaunches_spec e None kind detail base [] l r) as (Hc2 & [Hch2 Hrj2 Hsu2 Hpr2 Hnx2 Hen2 Hti2] & Hr2 & _ & l2 & Hl2 & Hp2);
    [split; [by eapply counted_same; [..|exact Hc]|exact Hp|done|by rewrite app_nil_r]|done|].
  set (r2 := settleHedgeLaunches _ _ _ _ _ _ _ r) in *. unfold chargeRest.
  pose proof (chargeAllBut_spec (charges r2) (rejected r2) None) as Hall. rewrite Hch2, Hrj2 in *. specialize (Hall Hok).
  destruct (chargeAllBut _ _ _ _) as [c' rej']. destruct Hall as (Hok' & Hb' & Hch').
  split; [|split; [done|]].
  - split; [by eapply counted_same; [..|exact Hc2]|exact Hok'|]. cbn. split.
    + exists l2. split; [exact Hl2|]. cbn. rewrite Hnx2. by destruct re.
    + intros w Hw. congruence.
    + by intros res ->.
    + intros _. cbn. rewrite Hsu2. done.
  - intros i Hi. cbn. rewrite Hch' by done. rewrite (Hch i Hi). unfold isBilled. rewrite Hb'. cbn.
    by destruct (match billed _ !! i with Some (Some true) => _ | _ => _ end), (default _ _).
Qed.

(** A loser's result on the books. *)
Definition onLossRecorded (e : Env) (res : hedgeResult) (candidate : modelCandidate) (r : race) : race :=
  let st := setErr fence ((race_st r) ⟦ rateLimit := res_rateLimit res ⟧) (res_reqErr res) in
  let r := r ⟦ race_st := st ⟧ in
  let r := appendRecord r (hedgeLoserRecord attemptDetail (now e) res candidate (launchTime r (res_idx res))) in
  let '(c, rej) := charge promptTextBytes candidates (charges r, rejected r) (res_idx res) in
  let r := r ⟦ charges := c ⟧ ⟦ rejected := rej ⟧ in
  let r := if res_busy res then r ⟦ busyCandidates := busyCandidates r ++ [candidate] ⟧ else r in
  if bool_decide (Kind (res_reqErr res) = Some KindProviderTimeout)
  then r ⟦ providerStall := lastReqErr (verdict (race_st r)) ⟧ else r.

Lemma onLoss_stages e res candidate r :
  candidates !! res_idx res = Some candidate →
  onLoss fence attemptDetail candidates promptTextBytes e res r =
    let r := onLossRecorded e res candidate r in
    let r := if (nextIdx r <? n)%nat then launchNext (now e) r else r in
    if (race_inFlight r =? 0) && (n <=? nextIdx r)%nat
    then cancelExcept None false (r ⟦ race_end := Some (RaceOver (busyCandidates r)) ⟧) else r.
Proof.
  intros Hc. unfold onLoss, onLossRecorded, launchNext. rewrite Hc. cbn zeta.
  by destruct (charge _ _ _ _) as [c rej].
Qed.

Lemma lossRecorded_running base e res rest candidate r :
  candidates !! res_idx res = Some candidate →
  0 < now e → counted r → chargeOk (charges r) (rejected r) → running base r → results r = res :: rest → race_end r = None →
  let r1 := r ⟦ results := rest ⟧ ⟦ race_inFlight := race_inFlight r - 1 ⟧ ⟦ settled := <[res_idx res := true]> (settled r) ⟧ in
  let r2 := onLossRecorded e res candidate r1 in
  counted r2 ∧ chargeOk (charges r2) (rejected r2) ∧ running base r2 ∧ race_end r2 = None.
Proof.
  intros Hcand He Hc Hok Hrun Hr Hend r1 r2. destruct (received base e res rest r He Hc Hrun Hr) as (Hc1 & Hp1 & Hs & Hlt & _ & _).
  destruct Hrun as [_ (l & Hl & Hls) Hch Hf]. fold r1 in Hc1, Hp1.
  unfold r2, onLossRecorded. cbn zeta.
  set (st := setErr fence _ _).
  pose proof (charge_spec (charges r) (rejected r) (res_idx res) Hok) as Hcs.
  change (charges (appendRecord _ _)) with (charges r). change (rejected (appendRecord _ _)) with (rejected r).
  destruct (charge _ _ _ _) as [c' rej']. destruct Hcs as (Hok' & Hb' & Hch').
  match goal with |- context [launchTime ?x _] => set (rec := hedgeLoserRecord attemptDetail (now e) res candidate (launchTime x (res_idx res))) end.
  set (r3 := (appendRecord (r1 ⟦ race_st := st ⟧) rec) ⟦ charges := c' ⟧ ⟦ rejected := rej' ⟧).
  assert (counted r3 ∧ running base r3) as [Hc3 Hrun3].
  { split; [by eapply counted_same; [..|exact Hc1]|]. split.
    - exact Hp1.
    - exists (l ++ [res_idx res]). split.
      + by eapply (recorded_snoc base l (r1 ⟦ race_st := st ⟧)); [exact Hl|exact Hcand|].
      + cbn. rewrite settledIdx_insert by done. rewrite Hls. symmetry. apply Permutation_cons_append.
    - intros i Hi. cbn. rewrite Hch', (Hch i Hi), (proj2 (Nat.ltb_lt _ _)), andb_true_r by done.
      unfold isBilled. rewrite Hb', list_lookup_insert, (ct_settled _ _ Hc). case_bool_decide as Hd.
      + subst i. rewrite decide_True, Hs by done. cbn. by rewrite andb_false_r, andb_true_r.
      + rewrite decide_False by naive_solver. by rewrite orb_false_r.
    - exact Hf. }
  assert (∀ r4, settled r4 = settled r3 → launchedAt r4 = launchedAt r3 → launched r4 = launched r3 → nextIdx r4 = nextIdx r3 →
    race_inFlight r4 = race_inFlight r3 → results r4 = results r3 → probes r4 = probes r3 → charges r4 = charges r3 →
    rejected r4 = rejected r3 → superseded r4 = superseded r3 → race_st r4 = race_st r3 → race_end r4 = race_end r3 →
    counted r4 ∧ chargeOk (charges r4) (rejected r4) ∧ running base r4 ∧ race_end r4 = None) as Hsame.
  { intros r4 E1 E2 E3 E4 E5 E6 E7 E8 E9 E10 E11 E12. split; [by eapply counted_same; [..|exact Hc3]|].
    split; [rewrite E8, E9; exact Hok'|]. split; [|rewrite E12; exact Hend].
    destruct Hrun3 as [Ha (l3 & Hb & Hb2) Hd Hg].
    split; [unfold partitioned in *; rewrite E1, E4, E6, E7; exact Ha|exists l3; unfold HedgeLedger.recorded in *; rewrite E11, E1; done
           |intros i; rewrite E8, E1; apply Hd|by rewrite E10]. }
  destruct (res_busy res), (bool_decide _); by apply Hsame.
Qed.

Lemma loss_kept base e res rest r :
  0 < now e → counted r → chargeOk (charges r) (rejected r) → running base r → results r = res :: rest → race_end r = None →
  res_won res = false →
  let r' := onResult fence attemptDetail cfg candidates promptTextBytes e res (r ⟦ results := rest ⟧) in
  bookkept candidates promptTextBytes base r' ∧
  (race_end r' ≠ None → winnerOf <$> race_end r' = Some None ∧ allCharged candidates None r').
Proof.
  intros He Hc Hok Hrun Hr Hend Hw. destruct (received base e res rest r He Hc Hrun Hr) as (_ & _ & _ & _ & [c Hcand] & _).
  pose proof (lossRecorded_running base e res rest c r Hcand He Hc Hok Hrun Hr Hend) as H.
  unfold onResult. rewrite Hw. cbn zeta. rewrite (onLoss_stages e res c) by done. cbn zeta in *.
  cbn [race_inFlight results settled] in *. cbn -[onLossRecorded launchNext cancelExcept] in *.
  set (r2 := onLossRecorded e res c _) in *. destruct H as (Hc2 & Hok2 & Hrun2 & Hend2).
  destruct (Nat.ltb_spec (nextIdx r2) n) as [Hlt|Hge].
  - destruct (launch_running base (now e) r2 He Hlt Hc2 Hok2 Hrun2) as (Hc3 & Hok3 & Hrun3 & Hne & He3).
    set (r3 := launchNext (now e) r2) in *. pose proof (ct_flight _ _ Hc3) as Hfl.
    destruct (race_inFlight r3 =? 0) eqn:Hz; cbn [andb].
    { exfalso. apply Z.eqb_eq in Hz. destruct (outs (probes r3) (results r3)); [done|cbn in *; lia]. }
    rewrite He3, Hend2. split; [|done]. split; [done..|]. by rewrite He3, Hend2.
  - destruct (race_inFlight r2 =? 0) eqn:Hz; cbn [andb].
    + rewrite (proj2 (Nat.leb_le _ _)) by lia. cbn -[cancelExcept].
      assert (outs (probes r2) (results r2) = []) as Hnil.
      { apply Z.eqb_eq in Hz. pose proof (ct_flight _ _ Hc2). apply length_zero_iff_nil. lia. }
      destruct Hrun2 as [Hp (l & Hl & Hls) Hch Hf]. unfold partitioned in Hp. rewrite Hnil, app_nil_r in Hp.
      split; [split; [by eapply counted_same; [..|exact Hc2]|done|]|].
      * cbn. split; [|done..|by intros ?|done]. exists l. split; [done|]. cbn. by rewrite app_nil_r, Hls, Hp.
      * intros _. split; [done|]. intros i Hi. cbn. rewrite (Hch i Hi). f_equal. cbn.
        assert (i ∈ settledIdx (settled r2)) as ->%settledIdx_in; [|done]. rewrite Hp. apply elem_of_seq.
        pose proof (ct_next _ _ Hc2) as [_ ?]. lia.
    + rewrite Hend2. split; [|done]. split; [done..|]. rewrite Hend2. split; [done|].
      intros Hnil. pose proof (ct_flight _ _ Hc2) as Hfl. rewrite Hnil in Hfl. cbn in Hfl. rewrite Hfl in Hz. done.
Qed.

(** *** The probes, and everything else *)

(** A probe's move: the launch stays out, and only its own flag is written. *)
Lemma moved_kept base idx flagged r r' :
  idx ∈ outs (probes r) (results r) →
  counted r' → outs (probes r') (results r') ≡ₚ outs (probes r) (results r) →
  settled r' = settled r → nextIdx r' = nextIdx r → rejected r' = rejected r → superseded r' = superseded r →
  logData (race_st r') = logData (race_st r) → race_end r' = race_end r →
  charges r' = setFlag (charges r) idx flagged →
  bookkept candidates promptTextBytes base r → bookkept candidates promptTextBytes base r'.
Proof.
  intros Hin Hc' Ho E1 E2 E3 E4 E5 E6 E7 [Hc Hok Hph].
  assert (owed (setFlag (charges r) idx flagged) = owed (charges r) ∧ charged (setFlag (charges r) idx flagged) = charged (charges r) ∧
    length (billed (setFlag (charges r) idx flagged)) = length (billed (charges r)) ∧
    ∀ j, j ≠ idx → isBilled (setFlag (charges r) idx flagged) j = isBilled (charges r) j) as (F1 & F2 & F3 & F4).
  { destruct flagged as [b|]; [|done]. cbn. rewrite length_insert. split_and!; [done..|]. intros j Hj.
    unfold isBilled. cbn. by rewrite list_lookup_insert_ne by done. }
  split; [done| |rewrite E6; destruct (race_end r) as [re|]].
  - rewrite E7, E3. destruct Hok as [G1 G2 G3 G4]. split; rewrite ?F1, ?F2, ?F3; done.
  - destruct Hph as [H1 H2 H3 H4]. unfold HedgeLedger.recorded, chargedAt in *.
    split; unfold HedgeLedger.recorded, chargedAt; rewrite ?E5, ?E4, ?E7, ?F2, ?E2; [done| |done|done].
    intros w Hw. rewrite Ho. by apply H2.
  - destruct Hph as [[H1 H2 H3 H4] Hne]. unfold HedgeLedger.recorded, partitioned, chargedAt in *. split.
    + split; unfold HedgeLedger.recorded, partitioned, chargedAt; rewrite ?E5, ?E4, ?E7, ?F2, ?E1, ?E2, ?Ho; [done..| |done].
      intros i Hi. rewrite (H3 i Hi). destruct (decide (i = idx)) as [->|Hne']; [|by rewrite F4].
      assert (settled r !! idx ≠ Some true) as Hns.
      { intros Hs%settledIdx_in. pose proof (NoDup_seq 0 (nextIdx r)) as Hnd. rewrite <- H1 in Hnd.
        apply NoDup_app in Hnd as (_ & Hd & _). by apply (Hd idx). }
      destruct (settled r !! idx) as [[|]|]; cbn; [done|by rewrite !andb_false_r..].
    + intros Hnil. rewrite Hnil in Ho. symmetry in Ho. by apply Permutation_nil_r in Ho.
Qed.

Lemma moveProbe_kept base x err idx p candidate r :
  probes r !! idx = Some p → bookkept candidates promptTextBytes base r →
  bookkept candidates promptTextBytes base (moveProbe fence cfg ttftTimeout stallTimeout x err idx p candidate r).
Proof.
  intros Hp Hk. pose proof Hk as [Hc _ _]. pose proof (outs_probe _ (results r) _ _ Hp) as Hin.
  pose proof (ct_probes _ _ Hc _ _ Hp) as Hidx. unfold moveProbe, probeIdx in *.
  assert (∀ r1 res flagged, res_idx res = idx → probes r1 = probes r → results r1 = results r → settled r1 = settled r →
    launchedAt r1 = launchedAt r → launched r1 = launched r → race_inFlight r1 = race_inFlight r →
    nextIdx r1 = nextIdx r → rejected r1 = rejected r → superseded r1 = superseded r →
    logData (race_st r1) = logData (race_st r) → race_end r1 = race_end r → charges r1 = setFlag (charges r) idx flagged →
    bookkept candidates promptTextBytes base (deliver idx res r1)) as Hdone.
  { intros r1 res flagged Hres E1 E2 E3 E4 E5 E6 E7 E8 E9 E10 E11 E12.
    assert (outs (probes (deliver idx res r1)) (results (deliver idx res r1)) ≡ₚ outs (probes r) (results r)) as Ho.
    { unfold deliver. cbn. rewrite E1, E2. by eapply outs_deliver. }
    eapply (moved_kept base idx flagged r); eauto.
    apply (counted_outs r); [done..| |done]. intros j q. unfold deliver. cbn. rewrite E1.
    intros [_ Hq]%lookup_delete_Some. by eapply ct_probes. }
  assert (∀ r1 p' flagged, probeIdx idx p' → probes r1 = probes r → results r1 = results r → settled r1 = settled r →
    launchedAt r1 = launchedAt r → launched r1 = launched r → race_inFlight r1 = race_inFlight r →
    nextIdx r1 = nextIdx r → rejected r1 = rejected r → superseded r1 = superseded r →
    logData (race_st r1) = logData (race_st r) → race_end r1 = race_end r → charges r1 = setFlag (charges r) idx flagged →
    bookkept candidates promptTextBytes base (r1 ⟦ probes := <[idx := p']> (probes r1) ⟧)) as Hwait.
  { intros r1 p' flagged Hp' E1 E2 E3 E4 E5 E6 E7 E8 E9 E10 E11 E12.
    assert (outs (<[idx := p']> (probes r1)) (results r1) ≡ₚ outs (probes r) (results r)) as Ho.
    { rewrite E1, E2. by eapply outs_insert. }
    eapply (moved_kept base idx flagged r); eauto.
    apply (counted_outs r); [done..| |done]. intros j q. cbn. rewrite E1.
    intros [[<- <-]|[_ Hq]]%lookup_insert_Some; [done|]. by eapply ct_probes. }
  set (s := onto (race_st r) (probe_st p)). destruct (probe_stage p) as [|res resp|res resp].
  - destruct (moves_idx fence cfg x s candidate idx (startResult idx) (MkResponse 0 (fun _ => "") zeroVerdict "") 0 0 None) as [Hi _].
    destruct (probeSend _ _ _ _ _ _) as [s' [res|res resp]]; cbn in Hi; [apply (Hdone _ _ None)|apply (Hwait _ _ None)]; done.
  - destruct (moves_idx fence cfg x s candidate idx res resp 0 0 None) as (_ & Hi & _).
    destruct (probeJudge _ _ _ _ _ _) as [[s' [res'|res' resp']] flagged]; cbn in Hi;
      [apply (Hdone _ _ flagged)|apply (Hwait _ _ flagged)]; try done; [congruence|unfold probeIdx; cbn; congruence].
  - destruct (moves_idx fence cfg x s candidate idx res resp ttftTimeout stallTimeout err) as (_ & _ & Hi).
    destruct (probeFirstToken _ _ _ _ _ _ _ _ _) as [[s' res'] flagged]. cbn in Hi.
    apply (Hdone _ _ flagged); try done. congruence.
Qed.

(** The stream's end closes the record left open. *)
Lemma finalize_closes x s candidate status st scanErr opts cur :
  tracks_flight (logData s) cur →
  about <$> attempts (logData (finalizeStream attemptDetail cfg x s candidate status st scanErr opts)) =
    (about <$> attempts (logData s)) ++ option_list (about_candidate <$> cur).
Proof.
  intros Hcur. unfold finalizeStream. destruct (closeStream _ _ _ _ _ _) as [d inject].
  set (s1 := settleSlot _ _ _ _).
  assert (logData s1 = logData s) as Hs1 by (unfold s1; by destruct (settleSlot_logData (delivered x) cfg s (streamSlotOutcome (diag_state d) (diag_kind d) (diag_msg d)))).
  set (s2 := if negb _ then _ else _). unfold closeTerminal. cbn.
  assert (openAttempt (logData s2) = openAttempt (logData s) ∧ attempts (logData s2) = attempts (logData s)) as [Ho Ha].
  { rewrite <- Hs1. unfold s2. by repeat case_match. }
  destruct (closeTerminal_close attemptDetail (logData s2) (now (delivered x)) (if bool_decide (diag_msg d = "") then status else 0)
    (diag_kind d) 0) as (status' & ph & ->).
  assert (tracks_flight (logData s2) cur) as Hcur2 by (unfold tracks_flight in *; by rewrite Ho).
  destruct (closeAttemptRecord_spec attemptDetail (logData s2) cur (now (delivered x)) status' (diag_kind d) "" ph 0 Hcur2) as [_ ->].
  by rewrite Ha.
Qed.

Lemma serve_kept base x st scanErr opts res resp r :
  race_end r = Some (RaceWon res) → bookkept candidates promptTextBytes base r →
  bookkept candidates promptTextBytes base (serveHedgeWinner attemptDetail cfg candidates x st scanErr opts res resp r).
Proof.
  intros He [Hc Hok Hph]. rewrite He in Hph. destruct Hph as [(l & Hl & Hp) Hw Ho Hf].
  destruct (Ho res eq_refl) as (Hwon & c & Hcand & Hopen). unfold serveHedgeWinner. rewrite Hcand. cbn zeta.
  set (s0 := onSlot _ holdVerdict).
  assert (logData s0 = logData (race_st r)) as Hl0 by (unfold s0, onSlot; by case_match).
  pose proof (finalize_closes x s0 c (StatusCode resp) st scanErr opts (Some (Z.of_nat (res_idx res), c))) as Hfin.
  unfold tracks_flight in Hfin. rewrite Hl0 in Hfin. specialize (Hfin Hopen). cbn in Hfin.
  set (s1 := finalizeStream _ _ _ _ _ _ _ _ _) in *.
  assert (logData (settleSlot (delivered x) cfg (closeBody (delivered x) cfg s1) slotUnclean) = logData s1) as Hl1.
  { destruct (settleSlot_logData (delivered x) cfg (closeBody (delivered x) cfg s1) slotUnclean) as [-> _].
    by destruct (closeBody_logData (delivered x) cfg s1) as [-> _]. }
  split; [by eapply counted_same; [..|exact Hc]|done|]. cbn. split.
  - exists (l ++ [res_idx res]). split; [|by rewrite app_nil_r].
    unfold HedgeLedger.recorded in *. cbn. rewrite Hl1, Hfin, Hl, omap_app, app_assoc. cbn. by rewrite Hcand.
  - cbn. intros w [= <-]. by apply Hw.
  - done.
  - done.
Qed.

Lemma drain_kept base e res rest r :
  race_end r ≠ None → results r = res :: rest → bookkept candidates promptTextBytes base r →
  bookkept candidates promptTextBytes base (drainHedgeResult cfg e res (r ⟦ results := rest ⟧)).
Proof.
  intros Hend Hr [Hc Hok Hph].
  assert (counted (r ⟦ results := res :: rest ⟧)) as Hc0 by (by eapply counted_same; [..|exact Hc]).
  apply drain_counted in Hc0. unfold drainHedgeResult. destruct (race_end r) as [re|] eqn:He; [|done].
  split.
  - destruct (res_resp res); by eapply counted_same; [..|exact Hc0].
  - by destruct (res_resp res).
  - assert (∀ w, w ∉ outs (probes r) (results r) → w ∉ outs (probes r) rest) as Hsub.
    { intros w Hnot Hin. apply Hnot. unfold outs in *. rewrite Hr. cbn. set_solver. }
    destruct Hph as [H1 H2 H3 H4]. destruct (res_resp res); cbn; rewrite He;
      (split; [exact H1|intros w Hw; destruct (H2 w Hw) as (? & ? & ?); cbn; auto|exact H3|exact H4]).
Qed.

Lemma elsewhere_kept base s r :
  bookkept candidates promptTextBytes base r → bookkept candidates promptTextBytes base (r ⟦ race_st := publish (race_st r) s ⟧).
Proof.
  intros [Hc Hok Hph]. split; [by eapply counted_same; [..|exact Hc]|done|]. cbn.
  destruct (race_end r); [by destruct Hph; split|by destruct Hph as [[] ?]; split].
Qed.

Lemma onTick_kept base e r :
  race_end r = None → 0 < now e → bookkept candidates promptTextBytes base r →
  bookkept candidates promptTextBytes base (onTick candidates e r).
Proof.
  intros Hend He Hk. unfold onTick. destruct (Nat.ltb_spec (nextIdx r) n) as [Hlt|]; [|done].
  destruct Hk as [Hc Hok Hph]. rewrite Hend in Hph. destruct Hph as [Hrun _].
  destruct (launch_running base (now e) r He Hlt Hc Hok Hrun) as (Hc3 & Hok3 & Hrun3 & Hne & He3).
  split; [done..|]. change (race_end _) with (race_end (launchNext (now e) r)). by rewrite He3, Hend.
Qed.

Lemma newRace_kept now st0 :
  0 < now → candidates ≠ [] →
  bookkept candidates promptTextBytes (attempts (logData st0)) (newRace candidates now st0).
Proof.
  intros Hnow Hne. assert (0 < n)%nat as Hn by (destruct candidates; [done|cbn; lia]).
  set (r0 := MkRace st0 [] (replicate n zeroTime) (replicate n false) (replicate n false) (replicate n false) 0 0 0
    (newHedgeCharges n) [] zeroReqError [] ∅ None []).
  change (newRace candidates now st0) with (launchNext now r0).
  assert (∀ i, (i < n)%nat → replicate n false !! i = Some false) as Hrep by (intros; by apply lookup_replicate).
  assert (settledIdx (settled r0) = []) as Hnil.
  { apply elem_of_nil_inv. intros i Hi%settledIdx_in. cbn in Hi. apply lookup_replicate in Hi. naive_solver. }
  assert (filter (fun b => b = true) (replicate n false) = []) as Hcnt by (clear; induction n; [done|by rewrite replicate_S, filter_cons]).
  destruct (launch_running (attempts (logData st0)) now r0) as (Hc3 & Hok3 & Hrun3 & Hne3 & He3); [done|done|..].
  - split; cbn; rewrite ?length_replicate; try done; [split; lia|..].
    + intros i Hi. unfold launchTime. cbn. by rewrite lookup_replicate_2.
    + constructor.
  - split; cbn; rewrite ?length_replicate, ?Hcnt; try done. by case_match.
  - split.
    + unfold partitioned. by rewrite Hnil.
    + exists []. split; [unfold HedgeLedger.recorded; cbn; by rewrite app_nil_r|by rewrite Hnil].
    + intros i Hi. unfold chargedAt. cbn. rewrite !Hrep by done. by rewrite andb_false_r.
    + cbn. by apply Forall_replicate.
  - split; [done..|]. by rewrite He3.
Qed.

(** *** Every interleaving *)

Notation race_step := (race_step fence attemptDetail cfg candidates promptTextBytes ttftTimeout stallTimeout).
Notation race_reachable := (race_reachable fence attemptDetail cfg candidates promptTextBytes ttftTimeout stallTimeout).

Lemma onDeadline_leaves base e r :
  race_end r = None → bookkept candidates promptTextBytes base r →
  let r' := onDeadline fence attemptDetail cfg candidates promptTextBytes e r in
  bookkept candidates promptTextBytes base r' ∧ race_end r' = Some RaceDeadline ∧ allCharged candidates None r'.
Proof.
  intros Hend [Hc Hok Hph]. rewrite Hend in Hph. destruct Hph as [[H1 H2 H3 H4] _].
  unfold onDeadline. cbn zeta. apply leave_kept; [done|by eapply counted_same; [..|exact Hc]|done|by split].
Qed.

Lemma onGone_leaves base e r :
  race_end r = None → bookkept candidates promptTextBytes base r →
  let r' := onGone attemptDetail cfg candidates promptTextBytes e r in
  bookkept candidates promptTextBytes base r' ∧ race_end r' = Some RaceGone ∧ allCharged candidates None r'.
Proof.
  intros Hend [Hc Hok Hph]. rewrite Hend in Hph. destruct Hph as [Hrun _]. by apply leave_kept.
Qed.

(** A step keeps the books, and one that ends the race settles every charge. *)
Lemma step_kept base r r' :
  race_step r r' → bookkept candidates promptTextBytes base r →
  bookkept candidates promptTextBytes base r' ∧
  (race_end r = None → ∀ re, race_end r' = Some re → allCharged candidates (winnerOf re) r').
Proof.
  intros Hstep Hk. destruct Hstep as [x err idx p c r Hp Hc Hctx|e res rest r He Hr Hnow|e r He Hnow|e r He|e r He
    |x st scanErr opts res resp r He Hres|e res rest r He Hr|s r Hels].
  - split; [by apply moveProbe_kept|]. intros He re Hre. exfalso. unfold moveProbe, deliver in Hre.
    revert Hre. repeat case_match; cbn; congruence.
  - pose proof Hk as [Hc Hok Hph]. rewrite He in Hph. destruct Hph as [Hrun _]. destruct (res_won res) eqn:Hw.
    + destruct (win_kept base e res rest r Hnow Hc Hok Hrun Hr Hw) as (? & Hre & Hall). split; [done|].
      intros _ re Hre'. cbv zeta in Hre. rewrite Hre in Hre'. injection Hre' as <-. exact Hall.
    + destruct (loss_kept base e res rest r Hnow Hc Hok Hrun Hr He Hw) as [? Hall]. split; [done|].
      intros _ re Hre. cbv zeta in Hall. rewrite Hre in Hall. destruct (Hall ltac:(done)) as [[= ->] ?]. done.
  - split; [by apply onTick_kept|]. intros _ re. unfold onTick, launch. repeat case_match; cbn; congruence.
  - destruct (onDeadline_leaves base e r He Hk) as (? & Hre & Hall). split; [done|].
    intros _ re Hre'. cbv zeta in Hre. rewrite Hre in Hre'. by injection Hre' as <-.
  - destruct (onGone_leaves base e r He Hk) as (? & Hre & Hall). split; [done|].
    intros _ re Hre'. cbv zeta in Hre. rewrite Hre in Hre'. by injection Hre' as <-.
  - split; [by apply serve_kept|]. congruence.
  - split; [by apply drain_kept|]. done.
  - split; [by apply elsewhere_kept|]. cbn. congruence.
Qed.

Lemma race_kept st0 r :
  candidates ≠ [] → race_reachable st0 r → bookkept candidates promptTextBytes (attempts (logData st0)) r.
Proof.
  intros Hne H. induction H as [now Hnow|r r' _ IH Hstep]; [by apply newRace_kept|]. by apply (step_kept _ r r').
Qed.
End BookLemmas.

(** *** Progress *)

Lemma weight_insert (ps : gmap nat probe) i p p' :
  ps !! i = Some p →
  (sum_list (probeWeight <$> (map_to_list (<[i := p']> ps)).*2) + probeWeight p =
   sum_list (probeWeight <$> (map_to_list ps).*2) + probeWeight p')%nat.
Proof.
  intros Hi. rewrite <- (map_to_list_delete ps i p Hi).
  rewrite <- (insert_delete_eq ps i p'), map_to_list_insert by apply lookup_delete_eq. cbn. lia.
Qed.

Lemma weight_delete (ps : gmap nat probe) i p :
  ps !! i = Some p →
  sum_list (probeWeight <$> (map_to_list ps).*2) =
  (probeWeight p + sum_list (probeWeight <$> (map_to_list (delete i ps)).*2))%nat.
Proof. intros Hi. by rewrite <- (map_to_list_delete ps i p Hi). Qed.

Lemma pending_launch candidates now r :
  (nextIdx r < length candidates)%nat → probes r !! nextIdx r = None →
  (pending (length candidates) (launchNext candidates now r) < pending (length candidates) r)%nat.
Proof.
  intros Hn Hf. unfold pending, launchNext, launch.
  destruct (lookup_lt_is_Some_2 candidates _ Hn) as [c Hc]. rewrite Hc. cbn -[Nat.mul].
  rewrite map_to_list_insert by done. cbn -[Nat.mul]. lia.
Qed.

Section Progress.
Context (fence attemptDetail : string → string) (cfg : requestConfig).
Context (candidates : list modelCandidate) (promptTextBytes : Z) (ttftTimeout stallTimeout : Duration).

Lemma pending_probe x err idx p candidate r :
  probes r !! idx = Some p →
  (pending (length candidates) (moveProbe fence cfg ttftTimeout stallTimeout x err idx p candidate r) <
   pending (length candidates) r)%nat.
Proof.
  intros Hp. unfold pending, moveProbe, deliver. pose proof (weight_delete _ _ _ Hp) as Hd.
  assert (∀ p', (sum_list (probeWeight <$> (map_to_list (<[idx := p']> (probes r))).*2) + probeWeight p =
    sum_list (probeWeight <$> (map_to_list (probes r)).*2) + probeWeight p')%nat) as Hw by (intros; by apply weight_insert).
  unfold probeWeight at 2 in Hd. destruct (probe_stage p) as [|res resp|res resp] eqn:Hst.
  - destruct (probeSend _ _ _ _ _ _) as [s' [res|res resp]]; cbn -[Nat.mul].
    + rewrite length_app. cbn. lia.
    + specialize (Hw (MkProbe s' (Answered res resp))). unfold probeWeight at 2 4 in Hw. rewrite Hst in Hw. cbn in Hw. lia.
  - destruct (probeJudge _ _ _ _ _ _) as [[s' [res'|res' resp']] flagged]; cbn -[Nat.mul].
    + rewrite length_app. cbn. lia.
    + specialize (Hw (MkProbe s' (Streaming res' resp'))). unfold probeWeight at 2 4 in Hw. rewrite Hst in Hw. cbn in Hw. lia.
  - destruct (probeFirstToken _ _ _ _ _ _ _ _ _) as [[s' res'] flagged]. cbn -[Nat.mul]. rewrite length_app. cbn. lia.
Qed.

(** Leaving the channel empty: nothing else a race is bound to is touched. *)
Lemma settle_pending e except kind detail r :
  let r' := settleHedgeLaunches attemptDetail cfg candidates e except kind detail r in
  probes r' = probes r ∧ nextIdx r' = nextIdx r ∧ results r' = [].
Proof.
  unfold settleHedgeLaunches.
  assert (∀ rs r0, probes (foldl (settleQueued attemptDetail cfg candidates e kind detail) r0 rs) = probes r0 ∧
    nextIdx (foldl (settleQueued attemptDetail cfg candidates e kind detail) r0 rs) = nextIdx r0) as Hq.
  { induction rs as [|res rs IH]; intros r0; [done|]. cbn. destruct (IH (settleQueued attemptDetail cfg candidates e kind detail r0 res)) as [-> ->].
    unfold settleQueued. by repeat case_match. }
  assert (∀ is_ r0, let r1 := foldl (abandonUnsettled candidates e except kind detail) r0 is_ in
    probes r1 = probes r0 ∧ nextIdx r1 = nextIdx r0 ∧ results r1 = results r0) as Ha.
  { induction is_ as [|i is_ IH]; intros r0; [done|]. cbn. destruct (IH (abandonUnsettled candidates e except kind detail r0 i)) as (-> & -> & ->).
    unfold abandonUnsettled. by repeat case_match. }
  cbn zeta. destruct (Hq (results r) r) as [H1 H2].
  destruct (Ha (seq 0 (length candidates)) ((foldl (settleQueued attemptDetail cfg candidates e kind detail) r (results r)) ⟦ results := [] ⟧)) as (-> & -> & ->).
  done.
Qed.

Lemma pending_receipt base e res rest r :
  bookkept candidates promptTextBytes base r → race_end r = None → results r = res :: rest → 0 < now e →
  (pending (length candidates) (onResult fence attemptDetail cfg candidates promptTextBytes e res (r ⟦ results := rest ⟧)) <
   pending (length candidates) r)%nat.
Proof.
  intros [Hc Hok Hph] Hend Hr He. rewrite Hend in Hph. destruct Hph as [Hrun _].
  destruct (received candidates base e res rest r He Hc Hrun Hr) as (_ & _ & _ & _ & [c Hcand] & _).
  unfold onResult. destruct (res_won res) eqn:Hw.
  - unfold onWin. rewrite Hcand. set (r1 := r ⟦ results := rest ⟧ ⟦ race_inFlight := _ ⟧ ⟦ settled := _ ⟧).
    destruct (settle_pending e (Some (res_idx res)) KindHedgeSuperseded "superseded by the winner while in flight" r1) as (H1 & H2 & H3).
    unfold chargeRest. destruct (chargeAllBut _ _ _ _) as [c' rej']. unfold pending. cbn -[Nat.mul settleHedgeLaunches].
    rewrite H1, H2, H3, Hr. cbn -[Nat.mul]. lia.
  - destruct (lossRecorded_running fence attemptDetail candidates promptTextBytes base e res rest c r Hcand He Hc Hok Hrun Hr Hend)
      as (Hc2 & _).
    rewrite (onLoss_stages _ _ _ _ e res c) by done. cbn zeta in *. cbn -[onLossRecorded launchNext cancelExcept pending] in *.
    set (r1 := _ ⟦ settled := _ ⟧) in *. set (r2 := onLossRecorded _ _ _ _ e res c r1) in *.
    assert (pending (length candidates) r2 = pending (length candidates) r1) as Hr2.
    { unfold pending, r2, onLossRecorded. destruct (charge _ _ _ _) as [c' rej']. by destruct (res_busy res), (bool_decide _). }
    assert (pending (length candidates) r1 < pending (length candidates) r)%nat as Hlt.
    { unfold pending, r1. cbn -[Nat.mul]. rewrite Hr. cbn -[Nat.mul]. lia. }
    assert (∀ r3 b, pending (length candidates) (cancelExcept None false (r3 ⟦ race_end := b ⟧)) = pending (length candidates) r3) as Hce by done.
    destruct (Nat.ltb_spec (nextIdx r2) (length candidates)) as [Hn|Hn].
    + pose proof (pending_launch candidates (now e) r2 Hn (outs_fresh _ _ _ (ct_bound _ _ Hc2))) as Hl.
      case_match; rewrite ?Hce; lia.
    + case_match; rewrite ?Hce; lia.
Qed.

(** While the race runs, one of its own moves is due. *)
Lemma own_enabled base r :
  bookkept candidates promptTextBytes base r → race_end r = None →
  ∃ r', own_step fence attemptDetail cfg candidates promptTextBytes ttftTimeout stallTimeout r r'.
Proof.
  intros [Hc Hok Hph] Hend. rewrite Hend in Hph. destruct Hph as [Hrun Hne].
  destruct (results r) as [|res rest] eqn:Hr; [|eexists; by apply (own_receipt _ _ _ _ _ _ _ (MkEnv 1 (fun _ _ _ => 0) (fun _ _ => 0)) res rest r)].
  unfold outs in Hne. cbn in Hne. rewrite app_nil_r in Hne.
  destruct (map_to_list (probes r)) as [|[idx p] l] eqn:Hl; [done|].
  assert (probes r !! idx = Some p) as Hp by (apply elem_of_map_to_list; rewrite Hl; set_solver).
  pose proof (ct_bound _ _ Hc) as Hb. rewrite Forall_forall in Hb. specialize (Hb idx (outs_probe _ _ _ _ Hp)).
  pose proof (ct_next _ _ Hc) as [_ Hn]. destruct (lookup_lt_is_Some_2 candidates idx ltac:(lia)) as [c Hcand].
  eexists. apply (own_probe _ _ _ _ _ _ _
    (let e := MkEnv 1 (fun _ _ _ => 0) (fun _ _ => 0) in
     MkExchange e e e (MkContext (Some Canceled) "" false) None (fun _ => TryErr Canceled false None) false (fun _ => NotHandled)
       (fun r => r) (fun _ => (None, "")) id id (fun _ => None) (Untranslatable (MkBodyError Canceled None)))
    None idx p c r Hp Hcand).
  by split.
Qed.
End Progress.

(** ** Properties *)

Section Reach.
Context (cfg : requestConfig) (candidates : list modelCandidate) (promptTextBytes : Z) (ttftTimeout stallTimeout : Duration).

Lemma runProbe_reachable st0 x err idx r :
  HedgeSupersededKey (attemptCtx x) = false → default false (cancelled r !! idx) = false →
  race_reachable id id cfg candidates promptTextBytes ttftTimeout stallTimeout st0 r →
  race_reachable id id cfg candidates promptTextBytes ttftTimeout stallTimeout st0
    (runProbe cfg candidates ttftTimeout stallTimeout x err idx r).
Proof.
  intros Hs Hc H. unfold runProbe. destruct (probes r !! idx) as [p|] eqn:Hp; [|done].
  destruct (candidates !! idx) as [c|] eqn:Hcand; [|done]. eapply race_runs; [exact H|].
  apply step_probe; [done..|]. split; [by rewrite Hs|]. intros Ht. by rewrite Ht in Hc.
Qed.

Lemma runReceipt_reachable st0 e r :
  0 < now e → race_reachable id id cfg candidates promptTextBytes ttftTimeout stallTimeout st0 r →
  race_reachable id id cfg candidates promptTextBytes ttftTimeout stallTimeout st0 (runReceipt cfg candidates promptTextBytes e r).
Proof.
  intros He H. unfold runReceipt. destruct (race_end r) eqn:Hend; [done|]. destruct (results r) as [|res rest] eqn:Hr; [done|].
  eapply race_runs; [exact H|]. by apply step_result.
Qed.
End Reach.

Lemma demoUndecided_reachable :
  race_reachable id id (demoConfig (3 * Hour)) demoPair 4000 Minute Second (demoSession start) demoUndecided.
Proof.
  unfold demoUndecided. cbv zeta.
  do 3 (apply runProbe_reachable; [reflexivity|vm_compute; reflexivity|]).
  apply runReceipt_reachable; [reflexivity|].
  do 2 (apply runProbe_reachable; [reflexivity|vm_compute; reflexivity|]).
  apply race_starts. reflexivity.
Qed.

Lemma demoWon_reachable :
  race_reachable id id (demoConfig (3 * Hour)) demoPair 4000 Minute Second (demoSession start) demoWon.
Proof. apply runReceipt_reachable; [reflexivity|apply demoUndecided_reachable]. Qed.

Lemma demoWon_end : ∃ res, race_end demoWon = Some (RaceWon res) ∧ res_idx res = 1%nat.
Proof. eexists. split; [vm_compute; reflexivity|reflexivity]. Qed.

Lemma demoWon_next : nextIdx demoWon = 2%nat.
Proof. vm_compute. reflexivity. Qed.

Lemma demoWon_step :
  race_end demoUndecided = None ∧ race_step id id (demoConfig (3 * Hour)) demoPair 4000 Minute Second demoUndecided demoWon.
Proof.
  assert (race_end demoUndecided = None) as Hend by (vm_compute; reflexivity). split; [exact Hend|].
  unfold demoWon, runReceipt. rewrite Hend.
  destruct (results demoUndecided) as [|res rest] eqn:Hr; [exfalso; vm_compute in Hr; discriminate Hr|].
  apply step_result; [exact Hend|exact Hr|reflexivity].
Qed.

#[local] Opaque demoUndecided demoWon.

(** Whatever order the probes, the timer and the client take, a hedged race
    launches its candidates in order and each at most once, counts in flight
    exactly the launches that have not reported, and its trail names every launch
    once under its own candidate: while the race runs the launches that reported,
    once it is over every one of them, the winner's record open until its stream
    ends. No launch is told it was beaten unless there is a winner. *)
Lemma race_books fence attemptDetail cfg candidates promptTextBytes ttftTimeout stallTimeout st0 r :
  candidates ≠ [] →
  race_reachable fence attemptDetail cfg candidates promptTextBytes ttftTimeout stallTimeout st0 r →
  launched r = nextIdx r ∧ (nextIdx r ≤ length candidates)%nat ∧
  NoDup (outs (probes r) (results r)) ∧ race_inFlight r = Z.of_nat (length (outs (probes r) (results r))) ∧
  ((race_end r ≫= winnerOf) = None → Forall (fun b => b = false) (superseded r)) ∧
  ∃ l, recorded candidates (attempts (logData st0)) l r ∧
    match race_end r with
    | None => l ≡ₚ settledIdx (settled r) ∧ l ++ outs (probes r) (results r) ≡ₚ seq 0 (nextIdx r)
    | Some (RaceWon res) =>
        l ++ [res_idx res] ≡ₚ seq 0 (nextIdx r) ∧
        rec_attempt <$> openAttempt (logData (race_st r)) = Some (Z.of_nat (res_idx res))
    | Some _ => l ≡ₚ seq 0 (nextIdx r)
    end.
Proof.
  intros Hne H. destruct (race_kept fence attemptDetail cfg candidates promptTextBytes ttftTimeout stallTimeout st0 r Hne H) as [Hc _ Hph].
  destruct (ct_next _ _ Hc) as [? ?].
  split; [done|]. split; [done|]. split; [apply Hc|]. split; [apply Hc|].
  destruct (race_end r) as [re|].
  - destruct Hph as [(l & Hl & Hp) Hw Ho Hf]. split; [done|]. exists l. split; [done|].
    destruct re as [res|idx|busy| |]; try (by rewrite app_nil_r in Hp). split; [done|].
    destruct (Ho res eq_refl) as (_ & c & _ & Hop). destruct (openAttempt _) as [rec|]; [|done]. cbn in *.
    injection Hop as Hop. by inversion Hop.
  - destruct Hph as [[Hp (l & Hl & Hls) _ Hf] _]. split; [done|]. exists l. split; [done|]. split; [done|].
    by rewrite Hls.
Qed.

Lemma race_books_witness :
  ∃ l, recorded demoPair [] l demoWon ∧ l ++ [1%nat] ≡ₚ [0%nat; 1%nat] ∧
    rec_attempt <$> openAttempt (logData (race_st demoWon)) = Some 1.
Proof.
  destruct (race_books id id (demoConfig (3 * Hour)) demoPair 4000 Minute Second (demoSession start) demoWon
    ltac:(done) demoWon_reachable) as (_ & _ & _ & _ & _ & l & Hl & Hp).
  destruct demoWon_end as (res & Hend & Hidx). rewrite Hend, Hidx, demoWon_next in Hp. exists l. split; [exact Hl|exact Hp].
Defined.



(** The launches out are at most those made. *)
Lemma pending_bound candidates promptTextBytes base r :
  bookkept candidates promptTextBytes base r → (pending (length candidates) r ≤ 5 * length candidates)%nat.
Proof.
  intros [Hc _ _]. unfold pending. destruct (ct_next _ _ Hc) as [_ Hn].
  assert (length (outs (probes r) (results r)) ≤ nextIdx r)%nat as Ho.
  { rewrite <- (length_seq (nextIdx r) 0). apply NoDup_incl_length; [apply NoDup_ListNoDup, Hc|].
    intros i Hi%list_elem_of_In. apply list_elem_of_In, elem_of_seq. pose proof (ct_bound _ _ Hc) as Hb.
    rewrite Forall_forall in Hb. specialize (Hb i Hi). lia. }
  assert (∀ l : list (nat * probe), (sum_list (probeWeight <$> l.*2) ≤ 4 * length l)%nat) as Hs.
  { induction l as [|[i p] l IH]; cbn -[Nat.mul]; [lia|]. unfold probeWeight at 1. destruct (probe_stage p); cbn in *; lia. }
  specialize (Hs (map_to_list (probes r))). unfold outs in Ho. rewrite length_app, !length_fmap in Ho. lia.
Qed.

Lemma own_is_step fence attemptDetail cfg candidates promptTextBytes ttftTimeout stallTimeout r r' :
  own_step fence attemptDetail cfg candidates promptTextBytes ttftTimeout stallTimeout r r' →
  race_step fence attemptDetail cfg candidates promptTextBytes ttftTimeout stallTimeout r r'.
Proof. intros [x err idx p c q Hp Hc Hx|e res rest q He Hr Hn]; [by apply step_probe|by apply step_result]. Qed.

(** C30. A hedged race ends. Its own moves - a probe's next one, the receipt of a
    result - number at most five for each candidate, however they interleave;
    and while it has not ended one of them is due, so a race whose probes answer
    cannot go on, and cannot wait for a launch that nothing will make. *)
Theorem race_terminates fence attemptDetail cfg candidates promptTextBytes ttftTimeout stallTimeout st0 r :
  candidates ≠ [] →
  race_reachable fence attemptDetail cfg candidates promptTextBytes ttftTimeout stallTimeout st0 r →
  (∀ k r', nsteps (own_step fence attemptDetail cfg candidates promptTextBytes ttftTimeout stallTimeout) k r r' →
     (k ≤ 5 * length candidates)%nat) ∧
  (race_end r = None →
     ∃ r', own_step fence attemptDetail cfg candidates promptTextBytes ttftTimeout stallTimeout r r').
Proof.
  intros Hne H. pose proof (race_kept fence attemptDetail cfg candidates promptTextBytes ttftTimeout stallTimeout st0 r Hne H) as Hk.
  split; [|by eapply own_enabled].
  assert (∀ k r r', nsteps (own_step fence attemptDetail cfg candidates promptTextBytes ttftTimeout stallTimeout) k r r' →
    bookkept candidates promptTextBytes (attempts (logData st0)) r → (k ≤ pending (length candidates) r)%nat) as Hb.
  { clear. induction 1 as [r|k r1 r2 r3 Hstep Hrest IH]; intros Hk; [lia|].
    assert (pending (length candidates) r2 < pending (length candidates) r1)%nat as Hlt.
    { destruct Hstep as [x err idx p c q Hp Hc Hx|e res rest q He Hr Hn]; [by apply pending_probe|by eapply pending_receipt]. }
    apply own_is_step in Hstep.
    destruct (step_kept fence attemptDetail cfg candidates promptTextBytes ttftTimeout stallTimeout _ _ _ Hstep Hk) as [Hk2 _].
    specialize (IH Hk2). lia. }
  intros k r' Hn. pose proof (pending_bound _ _ _ _ Hk). specialize (Hb k r r' Hn Hk). lia.
Qed.

Lemma race_terminates_witness :
  ∃ r', own_step id id (demoConfig (3 * Hour)) demoPair 4000 Minute Second demoUndecided r'.
Proof.
  destruct (race_terminates id id (demoConfig (3 * Hour)) demoPair 4000 Minute Second (demoSession start) demoUndecided
    ltac:(done) demoUndecided_reachable) as [_ H].
  apply H, demoWon_step.
Defined.
