(* ===== verification/HedgeSlots.v ===== *)
(** * The hedged race's slots (internal/proxy: hedging.go, inflight.go)

    Every in-flight slot a race's probes were given is out exactly as long as
    something answers for it: a probe on the network, a queued win, or the winner
    whose stream is still to end. The bookkeeping is a list of claims on slots,
    up to order; each step of the race changes one claim. *)

From S2P Require Import Prelude Circuit Cooldown CircuitEvents Breaker BreakerGate BreakerPhases.
From S2P Require Import Errors Verdict Inflight AttemptTrail Outcome StreamEnd Attempt FailoverWalk HedgeProbe Hedge HedgeLedger.

(** ** Specification *)

(** A claim: a slot, if any, and the state its owner keeps it in. *)
Definition claim : Type := option nat * (attemptSlot → Prop).

Record claimsOk (wd : world) (given : list nat) (cs : list claim) : Prop := {
  cl_conserved : conserved wd;
  cl_kept : Forall (fun c => slotIs c.2 wd c.1) cs;
  cl_distinct : NoDup (omap fst cs);
  cl_given : Forall (fun k => k ∈ given) (omap fst cs);
  cl_known : Forall (fun k => (k < length (slots wd))%nat) given;
  cl_spent : Forall (fun k => k ∈ omap fst cs ∨ slotIs spent wd (Some k)) given
}.

Definition probeClaim (p : probe) : claim :=
  match probe_stage p with
  | Launched => (None, live)
  | Answered _ _ => (slot (probe_st p), live)
  | Streaming _ _ => (slot (probe_st p), pledged)
  end.

Definition resultClaim (res : hedgeResult) : claim := (if res_won res then res_slot res else None, pledged).

Definition winnerClaim (e : option raceEnd) : claim :=
  (match e with Some (RaceWon res) => res_slot res | _ => None end, pledged).

Definition claims (ps : gmap nat probe) (rs : list hedgeResult) (e : option raceEnd) : list claim :=
  winnerClaim e :: (probeClaim <$> (map_to_list ps).*2) ++ (resultClaim <$> rs).

(** What a probe's state says of itself, whatever the world. *)
Definition probeShape (p : probe) : Prop :=
  match probe_stage p with
  | Launched => True
  | Answered res _ | Streaming res _ => res_slot res = slot (probe_st p) ∧ res_won res = false ∧ res_resp res = None
  end.

Definition resultShape (res : hedgeResult) : Prop := is_Some (res_resp res) ↔ res_won res = true.

Record slotsKept (r : race) : Prop := {
  sk_claims : claimsOk (pool (race_st r)) (slotsTaken r) (claims (probes r) (results r) (race_end r));
  sk_probes idx p : probes r !! idx = Some p → probeShape p;
  sk_results : Forall resultShape (results r)
}.

(** ** Lemmas *)

#[export] Instance claimsOk_perm wd given : Proper ((≡ₚ) ==> iff) (claimsOk wd given).
Proof.
  assert (∀ cs cs', cs ≡ₚ cs' → claimsOk wd given cs → claimsOk wd given cs') as H.
  { intros cs cs' Hp [H1 H2 H3 H4 H5 H6].
    assert (omap fst cs ≡ₚ omap fst cs') as Ho by (by rewrite Hp).
    split; [done|by rewrite <- Hp|by rewrite <- Ho|by rewrite <- Ho|done|].
    eapply Forall_impl; [exact H6|]. intros k [Hk|Hk]; [left; by rewrite <- Ho|by right]. }
  intros cs cs' Hp. split; apply H; [done|by symmetry].
Qed.

(** The claims of the others stand while one slot's owner acts. *)
Lemma others_kept wd wd' k given cs :
  slotFrame k wd wd' → conserved wd' →
  (∀ j, k = Some j → j ∉ omap fst cs) →
  Forall (fun c => slotIs c.2 wd c.1) cs → Forall (fun j => (j < length (slots wd))%nat) given →
  Forall (fun j => j ∈ omap fst cs ∨ slotIs spent wd (Some j)) given →
  Forall (fun c => slotIs c.2 wd' c.1) cs ∧ Forall (fun j => (j < length (slots wd'))%nat) given ∧
  Forall (fun j => j ∈ omap fst cs ∨ slotIs spent wd' (Some j)) given.
Proof.
  intros Hf Hc Hnot Hcs Hk Hs. split; [|split].
  - rewrite Forall_forall in *. intros [j P] Hin. specialize (Hcs _ Hin). cbn in *.
    intros i ->. destruct (Hcs i eq_refl) as (sl & Hsl & HP). exists sl. split; [|done].
    eapply frame_other; [exact Hf| |done]. intros ->. apply (Hnot i eq_refl), list_elem_of_omap. by exists (Some i, P).
  - eapply Forall_impl; [exact Hk|]. simpl. by rewrite (frame_length _ _ _ Hf).
  - eapply Forall_impl; [exact Hs|]. intros j [Hj|Hj]; [by left|right]. intros i Hi.
    destruct (Hj i Hi) as (sl & Hsl & Hsp). destruct Hf as [_ (g & Hg & Hmono)].
    destruct k as [k|]; [|exists sl; by rewrite Hg]. destruct (decide (i = k)) as [->|Hne].
    + exists (g sl). rewrite Hg, list_lookup_alter_eq, Hsl. split; [done|]. by apply Hmono.
    + exists sl. by rewrite Hg, list_lookup_alter_ne.
Qed.

Lemma claims_apart wd given k P cs :
  claimsOk wd given ((k, P) :: cs) → ∀ j, k = Some j → j ∉ omap fst cs.
Proof. intros [_ _ Hd _ _ _] j ->. cbn in Hd. by apply NoDup_cons in Hd as [? _]. Qed.

(** An owner acts and keeps its claim, in whatever state. *)
Lemma claim_act wd wd' given k P Q cs :
  slotFrame k wd wd' → slotIs Q wd' k → claimsOk wd given ((k, P) :: cs) → claimsOk wd' given ((k, Q) :: cs).
Proof.
  intros Hf HQ Hok. pose proof (claims_apart _ _ _ _ _ Hok) as Hap. destruct Hok as [H1 H2 H3 H4 H5 H6].
  apply Forall_cons in H2 as [_ H2].
  assert (conserved wd') as Hc by (by apply Hf).
  assert (Forall (fun j => j ∈ omap fst cs ∨ slotIs spent wd (Some j)) (filter (fun j => Some j ≠ k) given)) as H6'.
  { apply Forall_forall. intros j [Hj Hin]%list_elem_of_filter. rewrite Forall_forall in H6.
    destruct (H6 j Hin) as [Hm|?]; [|by right]. destruct k; cbn in Hm; [|by left]. apply elem_of_cons in Hm as [->|?]; [done|by left]. }
  destruct (others_kept wd wd' k (filter (fun j => Some j ≠ k) given) cs Hf Hc Hap H2) as (A1 & _ & A3);
    [apply Forall_forall; intros j [_ Hin]%list_elem_of_filter; rewrite Forall_forall in H5; by apply H5|done|].
  split; [done|by constructor|by destruct k|by destruct k| |].
  - eapply Forall_impl; [exact H5|]. simpl. by rewrite (frame_length _ _ _ Hf).
  - apply Forall_forall. intros j Hin. destruct (decide (Some j = k)) as [<-|Hne]; [left; cbn; set_solver|].
    rewrite Forall_forall in A3. destruct (A3 j) as [?|?]; [by apply list_elem_of_filter|left|by right].
    destruct k; cbn; [by right|done].
Qed.

(** An owner that released its slot drops its claim. *)
Lemma claim_retire wd wd' given k P cs :
  slotFrame k wd wd' → slotIs spent wd' k → claimsOk wd given ((k, P) :: cs) → claimsOk wd' given ((None, pledged) :: cs).
Proof.
  intros Hf Hs Hok. pose proof (claim_act wd wd' given k P spent cs Hf Hs Hok) as [H1 H2 H3 H4 H5 H6].
  apply Forall_cons in H2 as [_ H2]. split; cbn in *; [done|by constructor| | |done|].
  - destruct k; [by apply NoDup_cons in H3 as [_ ?]|done].
  - destruct k; [by apply Forall_cons in H4 as [_ ?]|done].
  - eapply Forall_impl; [exact H6|]. intros j Hj. destruct k as [k|]; [|done].
    destruct Hj as [Hj|?]; [|by right]. apply elem_of_cons in Hj as [-> | ?]; [by right|by left].
Qed.

(** A slotless claim stands for anything slotless. *)
Lemma claim_none wd given P Q cs : claimsOk wd given ((None, P) :: cs) → claimsOk wd given ((None, Q) :: cs).
Proof. intros [H1 H2 H3 H4 H5 H6]. apply Forall_cons in H2 as [_ H2]. split; try done. by constructor. Qed.

Lemma claim_none_add wd given Q cs : claimsOk wd given cs → claimsOk wd given ((None, Q) :: cs).
Proof. intros [H1 H2 H3 H4 H5 H6]. split; try done. by constructor. Qed.

Lemma claim_none_drop wd given Q cs : claimsOk wd given ((None, Q) :: cs) → claimsOk wd given cs.
Proof. intros [H1 H2 H3 H4 H5 H6]. apply Forall_cons in H2 as [_ H2]. by split. Qed.

(** An admission, and what its taker makes of the slot. *)
Lemma claim_take wd wd' given k P cs :
  taken wd wd' k → conserved wd' → slotIs P wd' k → claimsOk wd given cs →
  claimsOk wd' (given ++ option_list k) ((k, P) :: cs).
Proof.
  intros Htk Hc HP [H1 H2 H3 H4 H5 H6].
  assert (∃ l, slots wd' = slots wd ++ l) as [l Hl] by (destruct Htk as [[_ ->]|(sl & _ & ->)]; [exists []; by rewrite app_nil_r|by eexists]).
  assert (∀ Q j, slotIs Q wd j → slotIs Q wd' j) as Hmono.
  { intros Q j HQ i Hi. destruct (HQ i Hi) as (sl & Hsl & ?). exists sl. split; [|done]. rewrite Hl. by apply lookup_app_l_Some. }
  assert (∀ j, k = Some j → j ∉ omap fst cs ∧ (j < length (slots wd'))%nat) as Hfresh.
  { intros j Hj. destruct Htk as [[-> _]|(sl & -> & Hs)]; [done|]. injection Hj as <-. rewrite Hs, length_app. cbn. split; [|lia].
    intros Hin. rewrite Forall_forall in H4, H5. specialize (H5 _ (H4 _ Hin)). lia. }
  split; [done| | | | |].
  - constructor; [done|]. eapply Forall_impl; [exact H2|]. intros [j Q]. by apply Hmono.
  - destruct k as [k|]; cbn; [|done]. constructor; [by apply (Hfresh k)|done].
  - assert (Forall (fun j => j ∈ given ++ option_list k) (omap fst cs)) as Hg.
    { eapply Forall_impl; [exact H4|]. simpl. set_solver. }
    destruct k as [k|]; cbn; [|done]. constructor; [set_solver|done].
  - apply Forall_app. split.
    + eapply Forall_impl; [exact H5|]. simpl. rewrite Hl, length_app. lia.
    + destruct k as [k|]; cbn; [|done]. constructor; [by apply (Hfresh k)|done].
  - apply Forall_app. split.
    + eapply Forall_impl; [exact H6|]. intros j [Hj|Hj]; [left|right; by apply Hmono]. destruct k; cbn; [by right|done].
    + destruct k as [k|]; cbn; [|done]. constructor; [left; set_solver|done].
Qed.

(** The rest of the gateway, which leaves these slots alone. *)
Lemma claims_elsewhere wd wd' given cs :
  (conserved wd → conserved wd') → (length (slots wd) ≤ length (slots wd'))%nat →
  (∀ k, k ∈ given → slots wd' !! k = slots wd !! k) → claimsOk wd given cs → claimsOk wd' given cs.
Proof.
  intros Hc Hl Hs [H1 H2 H3 H4 H5 H6].
  assert (∀ P k, (∀ j, k = Some j → j ∈ given) → slotIs P wd k → slotIs P wd' k) as Hmono.
  { intros P k Hk HP j Hj. destruct (HP j Hj) as (sl & Hsl & ?). exists sl. rewrite Hs by auto. done. }
  split; [auto| |done|done| |].
  - rewrite Forall_forall. rewrite Forall_forall in H2. rewrite Forall_forall in H4. intros [k P] Hin. apply Hmono; [|by apply (H2 (k, P))].
    cbn. intros j ->. apply H4, list_elem_of_omap. by exists (Some j, P).
  - eapply Forall_impl; [exact H5|]. simpl. lia.
  - rewrite Forall_forall. rewrite Forall_forall in H6. intros k Hk. destruct (H6 k Hk) as [?|?]; [by left|right].
    apply Hmono; [|done]. intros j [= <-]. done.
Qed.

(** *** The race's claims *)

Lemma claims_probe ps rs e idx p :
  ps !! idx = Some p → claims ps rs e ≡ₚ probeClaim p :: claims (delete idx ps) rs e.
Proof.
  intros Hp. unfold claims. rewrite <- (map_to_list_delete ps idx p Hp). cbn. apply Permutation_swap.
Qed.

Lemma claims_insert ps rs e idx p :
  claims (<[idx := p]> ps) rs e ≡ₚ probeClaim p :: claims (delete idx ps) rs e.
Proof.
  rewrite (claims_probe _ _ _ idx p) by apply lookup_insert_eq. by rewrite delete_insert_eq.
Qed.

Lemma claims_send ps rs e res : claims ps (rs ++ [res]) e ≡ₚ resultClaim res :: claims ps rs e.
Proof.
  unfold claims. rewrite fmap_app, app_assoc. cbn. rewrite <- Permutation_cons_append. apply Permutation_swap.
Qed.

Lemma claims_pop ps rs e res : claims ps (res :: rs) e ≡ₚ resultClaim res :: claims ps rs e.
Proof.
  unfold claims. cbn. rewrite <- Permutation_middle. apply Permutation_swap.
Qed.

Section Slots.
Context (fence attemptDetail : string → string) (cfg : requestConfig).
Context (candidates : list modelCandidate) (promptTextBytes : Z) (ttftTimeout stallTimeout : Duration).

Lemma result_claim wd wd' given k P res cs :
  slotFrame k wd wd' → res_slot res = k → resultOk wd' res →
  claimsOk wd given ((k, P) :: cs) → claimsOk wd' given (resultClaim res :: cs).
Proof.
  intros Hf <- [Hs _] Hok. unfold resultClaim. destruct (res_won res).
  - by eapply claim_act.
  - by eapply claim_retire.
Qed.

Lemma moveProbe_slots x err idx p candidate r :
  probes r !! idx = Some p → slotsKept r →
  slotsKept (moveProbe fence cfg ttftTimeout stallTimeout x err idx p candidate r).
Proof.
  intros Hp [Hcl Hps Hrs]. pose proof (Hps _ _ Hp) as Hshape. rewrite (claims_probe _ _ _ _ _ Hp) in Hcl.
  set (C := claims (delete idx (probes r)) (results r) (race_end r)) in *.
  assert (∀ r1 res, probes r1 = probes r → results r1 = results r → race_end r1 = race_end r →
    claimsOk (pool (race_st r1)) (slotsTaken r1) (resultClaim res :: C) → resultShape res → slotsKept (deliver idx res r1)) as Hdone.
  { intros r1 res E1 E2 E3 Hok Hres. unfold deliver. split; cbn; rewrite ?E1, ?E2, ?E3.
    - by rewrite claims_send.
    - intros j q [_ Hq]%lookup_delete_Some. by eapply Hps.
    - apply Forall_app. split; [done|]. by constructor. }
  assert (∀ r1 p', probes r1 = probes r → results r1 = results r → race_end r1 = race_end r →
    claimsOk (pool (race_st r1)) (slotsTaken r1) (probeClaim p' :: C) → probeShape p' →
    slotsKept (r1 ⟦ probes := <[idx := p']> (probes r1) ⟧)) as Hwait.
  { intros r1 p' E1 E2 E3 Hok Hp'. split; cbn; rewrite ?E1, ?E2, ?E3; [|intros j q|done].
    - by rewrite claims_insert.
    - intros [[<- <-]|[_ Hq]]%lookup_insert_Some; [done|]. by eapply Hps. }
  unfold moveProbe, probeClaim, probeShape in *.
  set (s := onto (race_st r) (probe_st p)). destruct (probe_stage p) as [|res resp|res resp].
  - apply claim_none_drop in Hcl.
    pose proof (probeSend_spec fence cfg x s candidate idx (cl_conserved _ _ _ Hcl)) as Hsend.
    destruct (probeSend _ _ _ _ _ _) as [s' [res|res resp]]; destruct Hsend as (Hcons & Htk & Ht).
    + destruct Ht as (Hw & Hslot & Hok & Hresp). apply Hdone; try done. cbn.
      rewrite Hw, Hslot in Hok. pose proof (claim_take _ _ _ _ spent _ Htk Hcons Hok Hcl) as Hcl'.
      unfold resultClaim. rewrite Hw. eapply claim_retire; [apply frame_refl|exact Hok|exact Hcl'].
    + destruct Ht as [Hslot Hlive [Hw Hn]]. apply Hwait; try done. by apply claim_take with (wd := pool s).
  - destruct Hshape as (Hslot & Hw & Hn).
    assert (waitOk live s res) as Hwo.
    { split; [done| |done]. destruct Hcl as [_ Hk _ _ _ _]. by apply Forall_cons in Hk as [? _]. }
    pose proof (probeJudge_spec cfg x s candidate res resp Hwo) as Hj.
    destruct (probeJudge _ _ _ _ _ _) as [[s' [res'|res' resp']] flagged]; destruct Hj as (Hk & Hf & Ht & _).
    + destruct Ht as (Hw' & Hslot' & Hok). apply Hdone; try done; [|apply Hok].
      eapply (result_claim _ _ _ (slot s)); [exact Hf|congruence|exact Hok|exact Hcl].
    + destruct Ht as [Hslot' Hpl [Hw' Hn']]. apply Hwait; try done. cbn. rewrite Hk in *.
      by eapply claim_act.
  - destruct Hshape as (Hslot & Hw & Hn).
    assert (waitOk pledged s res) as Hwo.
    { split; [done| |done]. destruct Hcl as [_ Hk _ _ _ _]. by apply Forall_cons in Hk as [? _]. }
    pose proof (probeFirstToken_spec cfg x s candidate res resp ttftTimeout stallTimeout err Hwo) as Hj.
    destruct (probeFirstToken _ _ _ _ _ _ _ _ _) as [[s' res'] flagged]. destruct Hj as (Hk & Hf & Hslot' & Hok).
    apply Hdone; try done; [|apply Hok].
    eapply (result_claim _ _ _ (slot s)); [exact Hf|congruence|exact Hok|exact Hcl].
Qed.

(** A result whose race is over: a win among them is abandoned. *)
Lemma abandon_claim e wd given res cs :
  resultShape res → claimsOk wd given (resultClaim res :: cs) →
  claimsOk (match res_resp res with Some _ => abandonHedgeWin e cfg wd (res_slot res) | None => wd end) given cs.
Proof.
  intros Hres Hok. unfold resultShape, resultClaim in *. destruct (res_resp res) as [resp|].
  - assert (res_won res = true) as Hw by (apply Hres; by eexists). rewrite Hw in Hok.
    destruct (abandon_spec e cfg wd (res_slot res)) as [Hf Hs].
    eapply claim_none_drop, claim_retire; [exact Hf| |exact Hok]. apply Hs.
    destruct Hok as [_ Hk _ _ _ _]. apply Forall_cons in Hk as [Hk _]. by eapply slotIs_in.
  - destruct (res_won res); [destruct (proj2 Hres eq_refl); done|]. by eapply claim_none_drop.
Qed.

Lemma settleQueued_pool e kind detail r res :
  pool (race_st (settleQueued attemptDetail cfg candidates e kind detail r res)) =
    match res_resp res with Some _ => abandonHedgeWin e cfg (pool (race_st r)) (res_slot res) | None => pool (race_st r) end ∧
  slotsTaken (settleQueued attemptDetail cfg candidates e kind detail r res) = slotsTaken r.
Proof. unfold settleQueued. by destruct (res_resp res), (candidates !! res_idx res). Qed.

(** Leaving the race: the channel's claims are gone, the others stand. *)
Lemma leave_claims e except kind detail r cs :
  Forall resultShape (results r) →
  claimsOk (pool (race_st r)) (slotsTaken r) (cs ++ (resultClaim <$> results r)) →
  let r' := settleHedgeLaunches attemptDetail cfg candidates e except kind detail r in
  claimsOk (pool (race_st r')) (slotsTaken r') cs ∧ race_end r' = race_end r.
Proof.
  intros Hrs Hok. unfold settleHedgeLaunches.
  assert (∀ is_ r0, let r1 := foldl (abandonUnsettled candidates e except kind detail) r0 is_ in
    pool (race_st r1) = pool (race_st r0) ∧ slotsTaken r1 = slotsTaken r0 ∧ race_end r1 = race_end r0) as Ha.
  { induction is_ as [|i is_ IH]; intros r0; [done|]. cbn.
    destruct (IH (abandonUnsettled candidates e except kind detail r0 i)) as (-> & -> & ->).
    unfold abandonUnsettled. by repeat case_match. }
  assert (∀ rs r0, Forall resultShape rs → claimsOk (pool (race_st r0)) (slotsTaken r0) (cs ++ (resultClaim <$> rs)) →
    let r1 := foldl (settleQueued attemptDetail cfg candidates e kind detail) r0 rs in
    claimsOk (pool (race_st r1)) (slotsTaken r1) cs ∧ race_end r1 = race_end r0) as Hq.
  { induction rs as [|res rs IH]; intros r0 Hs Hk; [by rewrite app_nil_r in Hk|].
    apply Forall_cons in Hs as [Hres Hs]. cbn in *. rewrite <- Permutation_middle in Hk.
    apply (abandon_claim e) in Hk; [|done].
    destruct (settleQueued_pool e kind detail r0 res) as [Hp Ht].
    destruct (IH (settleQueued attemptDetail cfg candidates e kind detail r0 res) Hs) as [H1 H2]; [by rewrite Hp, Ht|].
    split; [done|]. rewrite H2. unfold settleQueued. by destruct (res_resp res), (candidates !! res_idx res). }
  destruct (Hq (results r) r Hrs Hok) as [H1 H2]. cbn zeta.
  destruct (Ha (seq 0 (length candidates)) ((foldl (settleQueued attemptDetail cfg candidates e kind detail) r (results r)) ⟦ results := [] ⟧))
    as (-> & -> & ->). done.
Qed.

Lemma slotsKept_same r r' :
  pool (race_st r') = pool (race_st r) → slotsTaken r' = slotsTaken r → probes r' = probes r → results r' = results r →
  winnerClaim (race_end r') = winnerClaim (race_end r) → slotsKept r → slotsKept r'.
Proof.
  intros E1 E2 E3 E4 E5 [H1 H2 H3]. unfold claims in *. split; unfold claims; rewrite ?E1, ?E2, ?E3, ?E4, ?E5; done.
Qed.

Lemma launch_slots now r :
  probes r !! nextIdx r = None → slotsKept r → slotsKept (launchNext candidates now r).
Proof.
  intros Hf [H1 H2 H3]. unfold launchNext, launch. destruct (candidates !! nextIdx r) as [c|]; [|by split]. split; cbn.
  - rewrite claims_insert, delete_id by done. by apply claim_none_add.
  - intros i p [[<- <-]|[_ Hp]]%lookup_insert_Some; [done|by eapply H2].
  - done.
Qed.

Lemma leave_slots e kind detail re r :
  winnerClaim re = (None, pledged) → race_end r = None → slotsKept r →
  slotsKept (cancelExcept None false
    ((chargeRest candidates promptTextBytes None (settleHedgeLaunches attemptDetail cfg candidates e None kind detail r))
     ⟦ race_end := re ⟧)).
Proof.
  intros Hre Hend [H1 H2 H3]. unfold claims in H1. rewrite Hend in H1.
  destruct (leave_claims e None kind detail r (winnerClaim None :: (probeClaim <$> (map_to_list (probes r)).*2)) H3 H1) as [Hcl _].
  destruct (settle_pending attemptDetail cfg candidates e None kind detail r) as (Hp & _ & Hr).
  set (r' := settleHedgeLaunches _ _ _ _ _ _ _ r) in *. unfold chargeRest. destruct (chargeAllBut _ _ _ _).
  split; cbn -[r' claims]; rewrite ?Hp, ?Hr; [|done..]. unfold claims. rewrite Hre, app_nil_r. exact Hcl.
Qed.

Lemma win_slots e res rest r :
  results r = res :: rest → race_end r = None → res_won res = true → is_Some (candidates !! res_idx res) → slotsKept r →
  slotsKept (onResult fence attemptDetail cfg candidates promptTextBytes e res (r ⟦ results := rest ⟧)).
Proof.
  intros Hr Hend Hw [c Hcand] [H1 H2 H3]. rewrite Hr in *. apply Forall_cons in H3 as [Hres H3].
  unfold onResult, onWin. rewrite Hw, Hcand. set (r1 := r ⟦ results := rest ⟧ ⟦ race_inFlight := _ ⟧ ⟦ settled := _ ⟧).
  assert (claimsOk (pool (race_st r1)) (slotsTaken r1)
    ((resultClaim res :: winnerClaim None :: (probeClaim <$> (map_to_list (probes r)).*2)) ++ (resultClaim <$> results r1))) as Hok.
  { rewrite claims_pop, Hend in H1. exact H1. }
  destruct (leave_claims e (Some (res_idx res)) KindHedgeSuperseded "superseded by the winner while in flight" r1 _ H3 Hok) as [Hcl _].
  destruct (settle_pending attemptDetail cfg candidates e (Some (res_idx res)) KindHedgeSuperseded "superseded by the winner while in flight" r1) as (Hp & _ & Hr').
  set (r' := settleHedgeLaunches _ _ _ _ _ _ _ r1) in *. unfold chargeRest. destruct (chargeAllBut _ _ _ _).
  split; cbn -[r' claims]; rewrite ?Hp, ?Hr'; [|done..]. unfold claims. rewrite app_nil_r. cbn.
  unfold resultClaim in Hcl. rewrite Hw in Hcl. cbn in Hcl. rewrite Permutation_swap in Hcl. by apply claim_none_drop in Hcl.
Qed.

Lemma loss_slots base e res rest r :
  0 < now e → bookkept candidates promptTextBytes base r →
  results r = res :: rest → race_end r = None → res_won res = false → slotsKept r →
  slotsKept (onResult fence attemptDetail cfg candidates promptTextBytes e res (r ⟦ results := rest ⟧)).
Proof.
  intros He [Hc Hok Hph] Hr Hend Hw [H1 H2 H3]. rewrite Hend in Hph. destruct Hph as [Hrun _].
  destruct (received candidates base e res rest r He Hc Hrun Hr) as (_ & _ & _ & _ & [c Hcand] & _).
  destruct (lossRecorded_running fence attemptDetail candidates promptTextBytes base e res rest c r Hcand He Hc Hok Hrun Hr Hend) as (Hc2 & _).
  unfold onResult. rewrite Hw, (onLoss_stages _ _ _ _ e res c) by done. cbn zeta in *.
  cbn -[onLossRecorded launchNext cancelExcept pool] in *.
  set (r1 := _ ⟦ settled := _ ⟧) in *. set (r2 := onLossRecorded _ _ _ _ e res c r1) in *.
  assert (slotsKept r1) as Hk1.
  { rewrite Hr in *. apply Forall_cons in H3 as [_ H3]. split; [|exact H2|exact H3].
    rewrite claims_pop in H1. unfold resultClaim in H1. rewrite Hw in H1. by apply claim_none_drop in H1. }
  assert (slotsKept r2) as Hk2.
  { apply (slotsKept_same r1); [..|exact Hk1]; unfold r2, onLossRecorded; destruct (charge _ _ _ _) as [c' rej'];
      by destruct (res_busy res), (bool_decide _). }
  assert (race_end r2 = None) as He2.
  { unfold r2, onLossRecorded. destruct (charge _ _ _ _) as [c' rej']. by destruct (res_busy res), (bool_decide _). }
  set (r3 := if (nextIdx r2 <? length candidates)%nat then launchNext candidates (now e) r2 else r2).
  assert (slotsKept r3 ∧ race_end r3 = None) as [Hk3 He3].
  { unfold r3. case_match; [|done]. split.
    - apply launch_slots; [|done]. by eapply outs_fresh, (ct_bound _ _ Hc2).
    - unfold launchNext, launch. by case_match. }
  case_match; [|done]. apply (slotsKept_same r3); try done. cbn. by rewrite He3.
Qed.

(** The winner's stream ends: its slot is settled by then. *)
Lemma serve_slots x st scanErr opts res resp r :
  race_end r = Some (RaceWon res) → slotsKept r →
  is_Some (candidates !! res_idx res) →
  slotsKept (serveHedgeWinner attemptDetail cfg candidates x st scanErr opts res resp r).
Proof.
  intros Hend [H1 H2 H3] [c Hcand]. unfold serveHedgeWinner. rewrite Hcand. cbn zeta.
  set (s0 := (race_st r) ⟦ rowProvider := cand_name c ⟧ ⟦ slot := res_slot res ⟧).
  set (s1 := onSlot s0 holdVerdict). set (s2 := finalizeStream _ _ _ _ _ _ _ _ _). set (s3 := closeBody _ _ s2).
  assert (slot s1 = res_slot res ∧ slotFrame (res_slot res) (pool (race_st r)) (pool s1)) as [Hk1 Hf1].
  { split; [unfold s1; by rewrite onSlot_slot|]. apply (frame_onSlot s0 holdVerdict). }
  assert (slot s2 = res_slot res ∧ slotFrame (res_slot res) (pool s1) (pool s2)) as [Hk2 Hf2].
  { unfold s2, finalizeStream. destruct (closeStream _ _ _ _ _ _) as [d inject]. set (o := streamSlotOutcome _ _ _).
    match goal with |- slot ?t = _ ∧ _ => assert (sameSlot (settleSlot (delivered x) cfg s1 o) t) as [-> ->] by (by repeat case_match) end.
    split; [rewrite <- Hk1; apply (settleSlot_frame (delivered x) cfg s1 o)|].
    rewrite <- Hk1, settleSlot_onSlot. apply frame_onSlot, _. }
  assert (slot s3 = res_slot res ∧ slotFrame (res_slot res) (pool s2) (pool s3)) as [Hk3 Hf3].
  { unfold s3. rewrite closeBody_onSlot, onSlot_slot. split; [done|]. rewrite <- Hk2. apply frame_onSlot, _. }
  pose proof (frame_trans _ _ _ _ (frame_trans _ _ _ _ Hf1 Hf2) Hf3) as Hf.
  rewrite Hend in H1. unfold claims, winnerClaim in H1. cbn in H1.
  pose proof H1 as [_ Hin _ _ _ _]. apply Forall_cons in Hin as [Hin _].
  pose proof (frame_in _ _ _ Hf (slotIs_in _ _ _ Hin)) as Hin3.
  assert (slotFrame (res_slot res) (pool (race_st r)) (pool (settleSlot (delivered x) cfg s3 slotUnclean))) as Hf4.
  { eapply frame_trans; [exact Hf|]. rewrite <- Hk3, settleSlot_onSlot. apply frame_onSlot, _. }
  split; [|exact H2|exact H3]. cbn. unfold claims. cbn.
  eapply claim_retire; [exact Hf4| |exact H1]. by apply settleSlot_spent.
Qed.

Notation race_step := (race_step fence attemptDetail cfg candidates promptTextBytes ttftTimeout stallTimeout).
Notation race_reachable := (race_reachable fence attemptDetail cfg candidates promptTextBytes ttftTimeout stallTimeout).

Lemma step_slots base r r' :
  race_step r r' → bookkept candidates promptTextBytes base r → slotsKept r → slotsKept r'.
Proof.
  intros Hstep Hk Hs. destruct Hstep as [x err idx p c r Hp Hc Hctx|e res rest r He Hr Hnow|e r He Hnow|e r He|e r He
    |x st scanErr opts res resp r He Hres|e res rest r He Hr|s r (Hc & Hl & Heq)].
  - by apply moveProbe_slots.
  - destruct (res_won res) eqn:Hw; [|by eapply loss_slots]. apply win_slots; try done.
    pose proof Hk as [Hc _ Hph]. rewrite He in Hph. destruct Hph as [Hrun _].
    by destruct (received candidates base e res rest r Hnow Hc Hrun Hr) as (_ & _ & _ & _ & ? & _).
  - unfold onTick. case_match; [|done]. apply launch_slots; [|done].
    by eapply outs_fresh, (ct_bound _ _ (kept_counted _ _ _ _ Hk)).
  - apply leave_slots; [done|done|]. by apply (slotsKept_same r).
  - by apply leave_slots.
  - apply serve_slots; try done. pose proof Hk as [_ _ Hph]. rewrite He in Hph. destruct Hph as [_ _ Ho _].
    destruct (Ho res eq_refl) as (_ & c & ? & _). by exists c.
  - destruct Hs as [H1 H2 H3]. rewrite Hr in *. apply Forall_cons in H3 as [Hres H3]. rewrite claims_pop in H1.
    apply (abandon_claim e) in H1; [|done]. unfold drainHedgeResult. by destruct (res_resp res); split.
  - destruct Hs as [H1 H2 H3]. split; [|done..]. by eapply claims_elsewhere.
Qed.

Lemma race_slots_kept st0 r :
  candidates ≠ [] → conserved (pool st0) → race_reachable st0 r → slotsKept r.
Proof.
  intros Hne Hc H. induction H as [now Hnow|r r' Hr IH Hstep].
  - set (r0 := MkRace st0 [] (replicate (length candidates) zeroTime) (replicate (length candidates) false)
      (replicate (length candidates) false) (replicate (length candidates) false) 0 0 0
      (newHedgeCharges (length candidates)) [] zeroReqError [] ∅ None []).
    change (newRace candidates now st0) with (launchNext candidates now r0). apply launch_slots; [done|].
    split; [|done|constructor]. split; cbn; try constructor; try done.
  - eapply step_slots; [exact Hstep| |exact IH]. by eapply race_kept.
Qed.
End Slots.

(** ** Properties *)

(** C28. A hedged race leaks no in-flight slot. In every interleaving of its probes,
    its orchestrator, its background drain and the rest of the gateway the limiter
    counts exactly the slots out; a slot a probe was given is either claimed - by a
    probe still on the network, a win waiting in the channel or the winner whose
    stream is being served, each by one alone and none of them released - or it has
    been released. So once the probes are over, the channel drained and the winner
    served, every slot of the race is back. *)
Theorem race_slots fence attemptDetail cfg candidates promptTextBytes ttftTimeout stallTimeout st0 r :
  candidates ≠ [] → conserved (pool st0) →
  race_reachable fence attemptDetail cfg candidates promptTextBytes ttftTimeout stallTimeout st0 r →
  let held := omap fst (claims (probes r) (results r) (race_end r)) in
  conserved (pool (race_st r)) ∧ NoDup held ∧
  (∀ k, k ∈ held → ∃ sl, slots (pool (race_st r)) !! k = Some sl ∧ fired sl = false) ∧
  (∀ k, k ∈ slotsTaken r → k ∉ held → ∃ sl, slots (pool (race_st r)) !! k = Some sl ∧ fired sl = true) ∧
  (probes r = ∅ → results r = [] → (∀ res, race_end r ≠ Some (RaceWon res)) →
   ∀ k, k ∈ slotsTaken r → ∃ sl, slots (pool (race_st r)) !! k = Some sl ∧ fired sl = true).
Proof.
  intros Hne Hc H held. destruct (race_slots_kept fence attemptDetail cfg candidates promptTextBytes ttftTimeout stallTimeout st0 r Hne Hc H) as [[H1 H2 H3 H4 H5 H6] Hps Hrs].
  assert (∀ k, k ∈ slotsTaken r → k ∉ held → ∃ sl, slots (pool (race_st r)) !! k = Some sl ∧ fired sl = true) as Hspent.
  { intros k Hk Hnot. rewrite Forall_forall in H6. destruct (H6 k Hk) as [?|Hsp]; [done|]. by apply Hsp. }
  split; [done|]. split; [done|]. split; [|split; [done|]].
  - intros k Hk. apply list_elem_of_omap in Hk as ([j P] & Hin & Hj). cbn in Hj. subst j.
    rewrite Forall_forall in H2. destruct (H2 _ Hin k eq_refl) as (sl & Hsl & HP). exists sl. split; [done|].
    unfold claims, winnerClaim, resultClaim in Hin. apply elem_of_cons in Hin as [Heq|[Hin|Hin]%elem_of_app].
    + injection Heq as _ ->. apply HP.
    + apply list_elem_of_fmap in Hin as (p & Heq & _). unfold probeClaim in Heq.
      destruct (probe_stage p); injection Heq as ? ->; apply HP.
    + apply list_elem_of_fmap in Hin as (res & Heq & _). injection Heq as _ ->. apply HP.
  - intros Hp Hr He k Hk. apply Hspent; [done|]. unfold held, claims. rewrite Hp, Hr, map_to_list_empty. cbn.
    destruct (race_end r) as [[res| | | |]|]; cbn; set_solver.
Qed.

#[local] Opaque demoUndecided demoWon.

Lemma race_slots_witness :
  slotsTaken demoWon = [0%nat; 1%nat] ∧ omap fst (claims (probes demoWon) (results demoWon) (race_end demoWon)) = [1%nat] ∧
  ∃ sl, slots (pool (race_st demoWon)) !! 0%nat = Some sl ∧ fired sl = true.
Proof.
  assert (slotsTaken demoWon = [0%nat; 1%nat]) as Ht by (vm_compute; reflexivity).
  assert (omap fst (claims (probes demoWon) (results demoWon) (race_end demoWon)) = [1%nat]) as Hc by (vm_compute; reflexivity).
  split; [exact Ht|]. split; [exact Hc|].
  destruct (race_slots id id (demoConfig (3 * Hour)) demoPair 4000 Minute Second (demoSession start) demoWon
    ltac:(done) (reachable_conserved _ reach_start) demoWon_reachable) as (_ & _ & _ & H & _).
  apply H; [rewrite Ht; left|rewrite Hc].
  intros Hin. apply elem_of_cons in Hin as [Heq|Hin]; [discriminate Heq|by apply elem_of_nil in Hin].
Defined.
