(* ===== verification/HedgeAnswer.v ===== *)
(** * Answering a hedged request (internal/proxy: hedging.go, inflight.go)

    What a race that has no winner answers, over the same [Gateway] the failover
    walk runs against: the wait for a slot when candidates were only busy, the
    exhaustion answer, and the disconnect answer that keeps a provider's stall as
    its cause. *)

From S2P Require Import Prelude Circuit Cooldown CircuitEvents Breaker BreakerGate BreakerPhases.
From S2P Require Import Errors Verdict Inflight AttemptTrail Outcome StreamEnd Attempt FailoverWalk HedgeProbe Hedge.

Section Answer.
Context {G : Type} `{!Gateway G}.
Context (reqModel : string) (cfg : requestConfig) (status429 : bool).
Context (fence : string → string) (floatOverflow : Z → Duration).

Definition failHedgeDisconnect (launched : Z) (providerStall : reqError) : walkM G unit :=
  s ← getSess;
  let cause := lastReqErr (verdict s) in
  let cause := if bool_decide (Kind providerStall = Some KindProviderTimeout) then providerStall else cause in
  if bool_decide (Kind cause = Some KindProviderTimeout) then
    emit (EvAnswer (MkAnswer (terminalStatus cause) (Kind cause) (terminalLogMessage cause (isFailover cfg) launched)
                      (terminalClientMessage cause reqModel (isFailover cfg)) None))
  else failClientGone fence (launched - 1) (rowProvider s).

(** The end of [runHedgedStreaming] for each end of the race; a win is answered
    by its stream. [None] is out of fuel. *)
Definition answerRace (fuel : nat) (launched : Z) (providerStall : reqError) (re : raceEnd) : walkM G (option unit) :=
  match re with
  | RaceWon _ | RaceServed _ => mret (Some tt)
  | RaceOver busy =>
      answered ← (match busy with
                  | [] => mret (Some false)
                  | _ => retryAfterSlotFrees cfg fence floatOverflow fuel busy launched
                  end);
      match (answered : option bool) with
      | None => mret None
      | Some true => mret (Some tt)
      | Some false => failExhausted reqModel cfg status429 launched ;; mret (Some tt)
      end
  | RaceDeadline => failExhausted reqModel cfg status429 launched ;; mret (Some tt)
  | RaceGone => failHedgeDisconnect launched providerStall ;; mret (Some tt)
  end.
End Answer.

(** ** Lemmas *)

Section Laws.
Context {G : Type} `{!Gateway G, !GatewayLaws G}.
Context (reqModel : string) (cfg : requestConfig) (fence : string → string).

Lemma gone_status attempt name (g : G) :
  wp (failClientGone fence attempt name) (fun l _ _ => ∃ a, l = [EvAnswer a] ∧ answer_status a = 499) g.
Proof. unfold wp, failClientGone, mbind, walk_bind, setReq. cbn. by eexists. Qed.

Lemma disconnect_status launched stall (g : G) :
  wp (failHedgeDisconnect reqModel cfg fence launched stall) (fun l _ _ => ∃ a, l = [EvAnswer a] ∧
    answer_status a = if bool_decide (Kind stall = Some KindProviderTimeout ∨
                                      Kind (lastReqErr (verdict (sess g))) = Some KindProviderTimeout) then 502 else 499) g.
Proof.
  set (b := bool_decide (_ ∨ _)). unfold failHedgeDisconnect. apply wp_bind, wp_sess. cbv zeta.
  assert (∀ cause, Kind cause = Some KindProviderTimeout → b = true →
    wp (emit (EvAnswer (MkAnswer (terminalStatus cause) (Kind cause) (terminalLogMessage cause (isFailover cfg) launched)
                      (terminalClientMessage cause reqModel (isFailover cfg)) None)) : walkM G unit)
      (fun l _ _ => ∃ a, l = [EvAnswer a] ∧ answer_status a = if b then 502 else 499) g) as Hst.
  { intros cause Hc ->. apply wp_emit. eexists. split; [done|]. cbn. unfold terminalStatus. by rewrite Hc. }
  destruct (bool_decide (Kind stall = Some KindProviderTimeout)) eqn:Hs; [apply bool_decide_eq_true in Hs|apply bool_decide_eq_false in Hs].
  - rewrite bool_decide_eq_true_2 by done. apply Hst; [done|]. apply bool_decide_eq_true. by left.
  - case_bool_decide as Hl.
    + apply Hst; [done|]. apply bool_decide_eq_true. by right.
    + assert (b = false) as -> by (apply bool_decide_eq_false; naive_solver). apply gone_status.
Qed.
End Laws.

(** ** Properties *)

(** A hedged race without a winner is answered exactly once, whatever ended
    it. When candidates had only been busy the request first waits for one of
    them, numbering those attempts on from the launches, and every wait is in
    order; a race cut by its client answers 502 if any provider had stalled
    silently, whatever failed after it, and 499 otherwise. *)
Lemma race_answers_once {G} `{!Gateway G, !GatewayLaws G} reqModel cfg status429 fence floatOverflow fuel launched
    providerStall re (g : G) :
  rate_limit_saturation_max_wait cfg ≤ int64_max - retryMinRound →
  (timeLeft (overallDeadline cfg) g + 3 < fuel)%nat →
  winnerOf re = None →
  let '(l, r, _) := answerRace reqModel cfg status429 fence floatOverflow fuel launched providerStall re g in
  r = Some tt ∧ answeredOnce l ∧ Forall pauseOk l ∧ noBackoff l ∧
  match re with
  | RaceOver busy => numbered launched busy (attemptsOf l)
  | RaceGone => ∃ a, l = [EvAnswer a] ∧ answer_status a =
      if bool_decide (Kind providerStall = Some KindProviderTimeout ∨
                      Kind (lastReqErr (verdict (sess g))) = Some KindProviderTimeout) then 502 else 499
  | _ => attemptsOf l = []
  end.
Proof.
  intros Hmax Hf Hw.
  assert (∀ l2 n g1, quiet l2 → Forall pauseOk l2 → noBackoff l2 →
    wp (failExhausted reqModel cfg status429 n ;; mret (Some tt))
      (fun l r _ => r = Some tt ∧ answeredOnce (l2 ++ l) ∧ Forall pauseOk (l2 ++ l) ∧ noBackoff (l2 ++ l) ∧
         attemptsOf (l2 ++ l) = attemptsOf l2) g1) as Hex.
  { intros l2 n g1 Hq Hp Hn. apply wp_bind, wp_failExhausted. intros a g2 _. apply wp_ret. cbn. split; [done|].
    split; [by exists l2, (EvAnswer a)|]. split; [by apply Forall_app; repeat constructor|].
    split; [by apply Forall_app; repeat constructor|]. rewrite attemptsOf_app. by rewrite app_nil_r. }
  destruct re as [res|idx|busy| |]; try done.
  - change (wp (answerRace reqModel cfg status429 fence floatOverflow fuel launched providerStall (RaceOver busy))
      (fun l r _ => r = Some tt ∧ answeredOnce l ∧ Forall pauseOk l ∧ noBackoff l ∧ numbered launched busy (attemptsOf l)) g).
    unfold answerRace. destruct busy as [|c busy].
    + apply wp_bind, wp_ret. eapply wp_mono; [apply (Hex [] launched g); by constructor|].
      intros l r g' (-> & Ha & Hp & Hn & Hat). cbn in *. split_and!; [done..|]. rewrite Hat. apply numbered_nil.
    + apply wp_bind. eapply wp_mono; [by apply retryAfterSlotFrees_spec|].
      intros l2 r g2 [(Hr & [Ha Hp2] & Hn & Hnb) _]. destruct r as [[]|]; [| |done].
      * apply wp_ret. rewrite app_nil_r. by split_and!.
      * eapply wp_mono; [apply (Hex l2 launched g2); done|]. intros l r g' (-> & Ha' & Hp & Hn' & Hat).
        split_and!; [done..|]. by rewrite Hat.
  - exact (Hex [] launched g ltac:(constructor) ltac:(constructor) ltac:(constructor)).
  - assert (wp (answerRace reqModel cfg status429 fence floatOverflow fuel launched providerStall RaceGone)
      (fun l r _ => r = Some tt ∧ ∃ a, l = [EvAnswer a] ∧ answer_status a =
        if bool_decide (Kind providerStall = Some KindProviderTimeout ∨
                        Kind (lastReqErr (verdict (sess g))) = Some KindProviderTimeout) then 502 else 499) g) as H.
    { unfold answerRace. apply wp_bind. eapply wp_mono; [apply disconnect_status|]. intros l u g' H. destruct H as (a & -> & Ha).
      apply wp_ret. split; [done|]. by exists a. }
    unfold wp in H. destruct (answerRace _ _ _ _ _ _ _ _ _ g) as [[l r] g']. destruct H as (-> & a & -> & Ha).
    split; [done|]. split; [exists [], (EvAnswer a); split; [done|]; split; [by constructor|done]|].
    split; [by repeat constructor|]. split; [by repeat constructor|]. by exists a.
Qed.

Lemma race_answers_once_witness :
  let cfg := demoConfig (2 * Hour + 5) in
  let silence := answering (env_at (2 * Hour)) 503 zeroVerdict (Completion None true None false) in
  let g := MkScripted (demoSession start) (2 * Hour) [] [] true in
  let stalled := MkReqError (Some KindProviderTimeout) 0 "P" "" "silent" "" "" in
  let '(l, r, _) := @answerRace scripted (scripted_gateway cfg silence) "hotel/m" cfg true id id 10 2 stalled RaceGone g in
  r = Some tt ∧ answeredOnce l ∧ ∃ a, l = [EvAnswer a] ∧ answer_status a = 502.
Proof.
  intros cfg silence g stalled.
  pose proof (@race_answers_once scripted (scripted_gateway cfg silence) (scripted_laws cfg silence)
    "hotel/m" cfg true id id 10 2 stalled RaceGone g ltac:(evaluate) ltac:(vm_compute; lia) eq_refl) as H.
  destruct (@answerRace _ _ _ _ _ _ _ _ _ _ _ g) as [[l r] g']. destruct H as (Hr & Ha & _ & _ & Hst).
  split; [exact Hr|]. split; [exact Ha|exact Hst].
Defined.
