(* ===== verification/Resolve.v ===== *)
(** * Resolving a request to its candidates (internal/proxy: resolve.go,
    proxy_request.go, rate_limit_classify.go)

    The requested name turned into the ordered candidates the walk is given: a
    failover group's usable entries past the circuit breaker, or one provider's
    model, narrowed to what the key and its owner may reach; and the answer when
    nothing is left. The repositories and the key store are an interface,
    [directory]. The breaker is asked once per usable entry, at the instant
    [clock] gives for that entry. *)

From S2P Require Import Prelude Circuit Cooldown CircuitEvents Breaker BreakerGate BreakerPhases.
From S2P Require Import Errors Verdict Inflight AttemptTrail Outcome.

(** ** Rows and repositories *)

Record modelRow := MkModel {
  row_modelID : string;
  row_enabled : bool;
  row_providerEnabled : bool;
  row_providerID : string
}.

Record providerRow := MkProvider {
  prov_id : string;
  prov_name : string;
  prov_enabled : bool;
  prov_maxInFlight : option Z
}.

Record FailoverGroup := MkGroup {
  GroupEnabled : bool;
  PriorityOrder : list string;
  EntryEnabled : gmap string bool
}.

(** A repository read: a row, no row, or a fault. *)
Inductive lookup (A : Type) := Found (a : A) | NoRows | Faulted.
#[global] Arguments Found {A} _.
#[global] Arguments NoRows {A}.
#[global] Arguments Faulted {A}.

Record directory := MkDirectory {
  GetByModel : string → lookup FailoverGroup;
  GetModels : list string → option (gmap string modelRow);
  GetProviders : gset string → option (gmap string providerRow);
  GetByName : string → lookup providerRow;
  GetByProviderAndModelID : string → string → lookup modelRow;
  decrypts : providerRow → bool                 (* the provider's key opens, or it has none *)
}.

(** [notFoundError], or a fault whose text stays in the log. *)
Inductive resolveError := NotFound (msg : string) | ResolveFault.

(** ** Skips *)

Record skippedCandidate := MkSkipped {
  skip_provider : string;
  skip_name : string;
  skip_model : string;
  skip_retryAt : Time;
  skip_pinned : bool;
  skip_dated : bool
}.

Record breakerSkipSummary := MkSkips {
  skipCount : Z;
  earliestRetry : Time;
  allPinned : bool;
  skipped : list skippedCandidate
}.

Definition breakerSkipSummary_eta (s : breakerSkipSummary) : breakerSkipSummary :=
  MkSkips (skipCount s) (earliestRetry s) (allPinned s) (skipped s).
#[export] Instance upd_skipCount : Updater skipCount := ltac:(derive_updater breakerSkipSummary_eta).
#[export] Instance upd_earliestRetry : Updater earliestRetry := ltac:(derive_updater breakerSkipSummary_eta).
#[export] Instance upd_allPinned : Updater allPinned := ltac:(derive_updater breakerSkipSummary_eta).
#[export] Instance upd_skipped : Updater skipped := ltac:(derive_updater breakerSkipSummary_eta).

Definition noSkips : breakerSkipSummary := MkSkips 0 zeroTime false [].

Definition note (s : breakerSkipSummary) (retryAt : Time) (pinned ok : bool) : breakerSkipSummary :=
  let s := if skipCount s =? 0 then s ⟦ allPinned := true ⟧ else s in
  let s := s ⟦ skipCount := skipCount s + 1 ⟧ in
  if negb ok then s ⟦ allPinned := false ⟧
  else
    let s := if IsZero (earliestRetry s) || Before retryAt (earliestRetry s) then s ⟦ earliestRetry := retryAt ⟧ else s in
    if negb pinned then s ⟦ allPinned := false ⟧ else s.

Definition noteOf (s : breakerSkipSummary) (c : skippedCandidate) : breakerSkipSummary :=
  note s (skip_retryAt c) (skip_pinned c) (skip_dated c).

Definition only (s : breakerSkipSummary) (keep : string → bool) : breakerSkipSummary :=
  foldl (fun out c => if keep (skip_provider c) then noteOf out c else out) noSkips (skipped s).

(** ** A failover group's candidates *)

Definition IsEntryEnabled (g : FailoverGroup) (id : string) : bool := default true (EntryEnabled g !! id).

Definition enabledEntryIDs (g : FailoverGroup) : list string :=
  filter (fun id => IsEntryEnabled g id = true) (PriorityOrder g).

Definition providerIDsFor (ids : list string) (models : gmap string modelRow) : gset string :=
  foldl (fun set id =>
    match models !! id with
    | Some m => if row_enabled m && row_providerEnabled m then {[row_providerID m]} ∪ set else set
    | None => set
    end) ∅ ids.

(** An entry that could serve, by its rows alone. *)
Definition usableEntry (models : gmap string modelRow) (providers : gmap string providerRow) (id : string) :
    option (modelRow * providerRow) :=
  match models !! id with
  | None => None
  | Some m =>
      if negb (row_enabled m) then None
      else if negb (row_providerEnabled m) then None
      else match providers !! row_providerID m with
      | None => None
      | Some p => if negb (prov_enabled p) then None else Some (m, p)
      end
  end.

Definition candidateOf (m : modelRow) (p : providerRow) : modelCandidate :=
  MkCandidate (prov_id p) (prov_name p) (Some (row_modelID m)) (prov_maxInFlight p).

(** The walk over the entries: breaker, what it emitted, candidates, skips and
    keys that failed to open. *)
Record building := MkBuilding {
  built_breaker : CircuitBreaker;
  built_emitted : list Emission;
  built_candidates : list modelCandidate;
  built_skips : breakerSkipSummary;
  built_failures : Z
}.

Section Build.
Context (clock : string → Env) (decrypt : providerRow → bool) (cbEnabled : bool).
Context (models : gmap string modelRow) (providers : gmap string providerRow).

Definition buildStep (b : building) (id : string) : building :=
  match usableEntry models providers id with
  | None => b
  | Some (m, p) =>
      let e := clock id in
      let '(cb, open, out) :=
        if cbEnabled then IsOpen e (built_breaker b) (prov_id p) (prov_name p) (row_modelID m)
        else (built_breaker b, false, []) in
      let emitted := built_emitted b ++ out in
      if (open : bool) then
        let '(retryAt, pinned, dated) :=
          match BlockedUntil e cb (prov_id p) (row_modelID m) with
          | Some (t, pinned) => (t, pinned, true)
          | None => (zeroTime, false, false)
          end in
        let s := note (built_skips b) retryAt pinned dated in
        let s := s ⟦ skipped := skipped s ++ [MkSkipped (prov_id p) (prov_name p) (row_modelID m) retryAt pinned dated] ⟧ in
        MkBuilding cb emitted (built_candidates b) s (built_failures b)
      else if decrypt p then
        MkBuilding cb emitted (built_candidates b ++ [candidateOf m p]) (built_skips b) (built_failures b)
      else MkBuilding cb emitted (built_candidates b) (built_skips b) (built_failures b + 1)
  end.

Definition buildFailoverCandidates (cb : CircuitBreaker) (entryIDs : list string) : building :=
  foldl buildStep (MkBuilding cb [] [] noSkips 0) entryIDs.
End Build.

Section Resolve.
Context (dir : directory) (clock : string → Env) (toLower : string → string).

Definition lookupFailoverGroup (displayModel : string) : FailoverGroup + resolveError :=
  match GetByModel dir displayModel with
  | NoRows => inr (NotFound ("model not found: hotel/" +:+ displayModel))
  | Faulted => inr ResolveFault
  | Found fg =>
      if negb (GroupEnabled fg) then inr (NotFound "failover group disabled")
      else if bool_decide (PriorityOrder fg = []) then inr (NotFound "no entries in failover group")
      else inl fg
  end.

(** [inr] leaves the breaker as it was, save when every key failed to open. *)
Definition resolveHotelModel (cbEnabled : bool) (cb : CircuitBreaker) (displayModel : string) :
    CircuitBreaker * list Emission * ((list modelCandidate * breakerSkipSummary) + resolveError) :=
  match lookupFailoverGroup displayModel with
  | inr err => (cb, [], inr err)
  | inl fg =>
      let ids := enabledEntryIDs fg in
      match GetModels dir ids with
      | None => (cb, [], inr ResolveFault)
      | Some models =>
          match GetProviders dir (providerIDsFor ids models) with
          | None => (cb, [], inr ResolveFault)
          | Some providers =>
              let b := buildFailoverCandidates clock (decrypts dir) cbEnabled models providers cb ids in
              (built_breaker b, built_emitted b,
               if bool_decide (built_candidates b = []) && (0 <? built_failures b) then inr ResolveFault
               else inl (built_candidates b, built_skips b))
          end
      end
  end.

Definition resolveSpecificProvider (providerName modelID : string) : list modelCandidate + resolveError :=
  match GetByName dir providerName with
  | Faulted => inr ResolveFault
  | NoRows => inr (NotFound ("provider not found: " +:+ providerName))
  | Found p =>
      match GetByProviderAndModelID dir (prov_id p) modelID with
      | Faulted => inr ResolveFault
      | NoRows => inr (NotFound ("model not found: " +:+ modelID +:+ " on provider " +:+ providerName))
      | Found m =>
          if negb (row_enabled m) || negb (prov_enabled p) then inr (NotFound "model or provider disabled")
          else if decrypts dir p then inl [candidateOf m p] else inr ResolveFault
      end
  end.

(** ** Allow-lists *)

Definition providerAllowFunc (allowed : option (list string)) (id : string) : bool :=
  match allowed with None => true | Some l => bool_decide (id ∈ l) end.

Definition effectiveAllowedProviders (key owner : option (list string)) : option (list string) :=
  match key, owner with
  | None, None => None
  | Some k, None => Some k
  | None, Some o => Some o
  | Some k, Some o => Some (filter (fun id => id ∈ o) k)
  end.

(** ** Answers *)

Definition resolveFailedMessage : string := "could not resolve model".

Definition refusal (status : Z) (kind : ErrorKind) (log client : string) : terminalAnswer :=
  MkAnswer status (Some kind) log client None.

Definition failResolve (clientGone : bool) (err : resolveError) : terminalAnswer :=
  if clientGone then
    refusal statusClientClosedRequest KindClientDisconnect "client disconnected during model resolution" "client disconnected"
  else match err with
  | NotFound msg => refusal 404 KindValidation msg msg
  | ResolveFault => refusal 500 KindInternal resolveFailedMessage resolveFailedMessage
  end.

Definition failNoAvailableProvider (now : Time) (status429 : bool) (displayModel : string) (s : breakerSkipSummary) :
    terminalAnswer :=
  let msg := "no available provider for hotel/" +:+ displayModel in
  if (skipCount s =? 0) || negb status429 then refusal 502 KindProviderError msg msg
  else
    let retryIn := Z.min (Z.max (Sub (earliestRetry s) now) Second) defaultSaturationMaxWait in
    let secs := retryAfterSeconds retryIn in
    let kind := if allPinned s then KindProviderQuotaExhausted else KindProviderSaturated in
    let msg := msg +:+ "; earliest retry in " +:+ pretty secs +:+ "s" in
    MkAnswer 429 (Some kind) msg msg (Some secs).

(** ** Phase B *)

Definition hotelPrefix : string := "hotel/".

Definition slash : Ascii.ascii := Ascii.ascii_of_nat 47.

(** [strings.Cut] at the first slash. *)
Fixpoint cutSlash (s : string) : option (string * string) :=
  match s with
  | EmptyString => None
  | String a s' =>
      if bool_decide (a = slash) then Some (EmptyString, s')
      else (fun ab => (String a ab.1, ab.2)) <$> cutSlash s'
  end.

Definition hotelGroupName (reqModel : string) : string := toLower (default reqModel (stripPrefix hotelPrefix reqModel)).

(** What the request brings besides its model. *)
Record caller := MkCaller {
  clientGone : bool;
  keyAllowed : option (list string);
  ownerAllowed : option (list string)
}.

(** The allow-list, once candidates were found. *)
Definition narrow (now : Time) (status429 : bool) (who : caller) (displayModel : string) (s : breakerSkipSummary)
    (candidates : list modelCandidate) : list modelCandidate + terminalAnswer :=
  match effectiveAllowedProviders (keyAllowed who) (ownerAllowed who) with
  | None => inl candidates
  | Some allowed =>
      let providerAllowed := providerAllowFunc (Some allowed) in
      let filtered := filter (fun c => providerAllowed (cand_provider c) = true) candidates in
      if bool_decide (filtered = []) then
        let allowedSkips := only s providerAllowed in
        if 0 <? skipCount allowedSkips then inr (failNoAvailableProvider now status429 displayModel allowedSkips)
        else inr (refusal 403 KindAuth "virtual key does not have access to any provider for this model"
                    "virtual key does not have access to any provider for this model")
      else inl filtered
  end.

(** The session after it, and the candidates with whether they are a group's,
    or the answer. [now] is the clock of the answer's own reads. *)
Definition resolveCandidates (now : Time) (cbEnabled status429 : bool) (who : caller) (reqModel : string) (s : session) :
    session * ((list modelCandidate * bool) + terminalAnswer) :=
  match stripPrefix hotelPrefix reqModel with
  | Some _ =>
      let displayModel := hotelGroupName reqModel in
      let '(cb, out, res) := resolveHotelModel cbEnabled (circuitBreaker s) displayModel in
      let s := s ⟦ circuitBreaker := cb ⟧ ⟦ emitted := emitted s ++ out ⟧ in
      match res with
      | inr err => (s, inr (failResolve (clientGone who) err))
      | inl (candidates, sk) =>
          let s := s ⟦ logData := foldl (fun l c => appendBreakerSkip l (skip_provider c) (skip_name c) (skip_model c))
                                    (logData s) (skipped sk) ⟧ in
          if bool_decide (candidates = []) then (s, inr (failNoAvailableProvider now status429 displayModel sk))
          else
            (s ⟦ rowProvider := "hotel" ⟧,
             match narrow now status429 who displayModel sk candidates with
             | inl filtered => inl (filtered, true)
             | inr a => inr a
             end)
      end
  | None =>
      match cutSlash reqModel with
      | None =>
          (s, inr (refusal 400 KindValidation ("invalid model format: " +:+ reqModel)
                     ("invalid model format: expected " +:+ dquote +:+ "provider/model" +:+ dquote +:+ " or "
                        +:+ dquote +:+ "hotel/group" +:+ dquote)))
      | Some (providerName, modelID) =>
          match resolveSpecificProvider providerName modelID with
          | inr err => (s, inr (failResolve (clientGone who) err))
          | inl candidates =>
              (s ⟦ rowProvider := providerName ⟧,
               match narrow now status429 who "" noSkips candidates with
               | inl filtered => inl (filtered, false)
               | inr a => inr a
               end)
          end
      end
  end.
End Resolve.

(** ** Specification

    At one instant the candidates a group offers are a filter of its usable
    entries; the breaker is read as it was before the first of them. *)

Definition usableEntries (models : gmap string modelRow) (providers : gmap string providerRow) (ids : list string) :
    list (modelRow * providerRow) :=
  omap (usableEntry models providers) ids.

Definition groupEntries (dir : directory) (displayModel : string) : list (modelRow * providerRow) :=
  match lookupFailoverGroup dir displayModel with
  | inr _ => []
  | inl fg =>
      match GetModels dir (enabledEntryIDs fg) with
      | None => []
      | Some models =>
          match GetProviders dir (providerIDsFor (enabledEntryIDs fg) models) with
          | None => []
          | Some providers => usableEntries models providers (enabledEntryIDs fg)
          end
      end
  end.

Definition darkEntry (e : Env) (cbEnabled : bool) (cb : CircuitBreaker) (mp : modelRow * providerRow) : bool :=
  cbEnabled && (IsOpen e cb (prov_id mp.2) (prov_name mp.2) (row_modelID mp.1)).1.2.

(** An entry anyone could be offered. *)
Definition servable (dir : directory) (e : Env) (cbEnabled : bool) (cb : CircuitBreaker)
    (mp : modelRow * providerRow) : Prop :=
  darkEntry e cbEnabled cb mp = false ∧ decrypts dir mp.2 = true.

Definition skipOf (e : Env) (cb : CircuitBreaker) (mp : modelRow * providerRow) : skippedCandidate :=
  let until := BlockedUntil e cb (prov_id mp.2) (row_modelID mp.1) in
  MkSkipped (prov_id mp.2) (prov_name mp.2) (row_modelID mp.1)
    (from_option fst zeroTime until) (from_option snd false until) (bool_decide (is_Some until)).

(** The two lists a caller is held to, each on its own. *)
Definition reachable (who : caller) (id : string) : bool :=
  providerAllowFunc (keyAllowed who) id && providerAllowFunc (ownerAllowed who) id.

(** A summary read off its list. *)
Definition summarise (l : list skippedCandidate) : breakerSkipSummary := foldl noteOf noSkips l.

(** A skip noted and listed. *)
Definition skipped_more (s : breakerSkipSummary) (c : skippedCandidate) : breakerSkipSummary :=
  (noteOf s c) ⟦ skipped := skipped s ++ [c] ⟧.

(** A breaker that has only been asked, at [e]: it answers as it did. *)
Record asked (e : Env) (cb cb' : CircuitBreaker) : Prop := {
  asked_open id name m : (IsOpen e cb' id name m).1.2 = (IsOpen e cb id name m).1.2;
  asked_until id m : BlockedUntil e cb' id m = BlockedUntil e cb id m;
  asked_state id m : GetState e cb' id m = GetState e cb id m
}.

(** A group of two: model "c" on the dark provider "p", then "m" on "q". *)
Definition demoDirectory : directory :=
  let ms : gmap string modelRow := {["1" := MkModel "c" true true "p"; "2" := MkModel "m" true true "q"]} in
  let ps : gmap string providerRow := {["p" := MkProvider "p" "P" true None; "q" := MkProvider "q" "Q" true (Some 3)]} in
  MkDirectory (fun g => if bool_decide (g = "duo") then Found (MkGroup true ["1"; "2"] ∅) else NoRows)
    (fun _ => Some ms) (fun _ => Some ps) (fun _ => NoRows) (fun _ _ => NoRows) (fun _ => true).
Definition demoRequest : session :=
  MkSession twoDark (MkWorld (Some newInflightLimiter) [] ∅) ∅ [] newTrail freshVerdict zeroVerdict None false false false "".
Definition anyone : caller := MkCaller false None None.
Definition onlyP : caller := MkCaller false (Some ["p"; "q"]) (Some ["p"]).

(** ** Lemmas: asking the breaker *)

Lemma IsOpen_breaker e cb id name m :
  (IsOpen e cb id name m).1.1 = cb ∨
  ∃ c, circuitOf cb id m = Some c ∧ logicalStateWith e c (cooldowns cb) ≠ StateOpen ∧
    (IsOpen e cb id name m).1.1 = putCircuit cb id m (probedCircuit e cb c).
Proof.
  rewrite IsOpen_cases. destruct (circuitOf cb id m) as [c|] eqn:Hc; [|by left].
  destruct (decide (logicalStateWith e c (cooldowns cb) = StateOpen)) as [Hl|Hl].
  - left. rewrite probed_idle by auto. cbn [fst]. by apply putCircuit_id.
  - right. exists c. split; [done|]. split; [done|]. unfold probedCircuit.
    by destruct (probeIfCooldownElapsed e cb c).
Qed.

Section Probed.
Context (e : Env) (cb : CircuitBreaker) (id m : string) (c : circuit).
Context (Hc : circuitOf cb id m = Some c) (Hl : logicalStateWith e c (cooldowns cb) ≠ StateOpen).
Let cb' := putCircuit cb id m (probedCircuit e cb c).

Local Lemma probed_state id' m' : GetState e cb' id' m' = GetState e cb id' m'.
Proof.
  unfold cb'. rewrite GetState_put. case_decide as Hd; [|done]. destruct Hd as [<- <-].
  unfold GetState. by rewrite Hc, probed_logical.
Qed.

Local Lemma probed_report id' :
  providerReport e cb' (modelsOf cb' id') (cooldowns cb') = providerReport e cb (modelsOf cb id') (cooldowns cb).
Proof.
  change (cooldowns cb') with (cooldowns cb). transitivity (providerReport e cb (modelsOf cb' id') (cooldowns cb)).
  { unfold providerReport. by destruct cb. }
  apply providerReport_blocked. unfold cb'. rewrite modelsOf_put. case_decide as Hd; [subst id'|done].
  by apply blockedModels_probed.
Qed.

(** A circuit that blocks is one the probe left alone. *)
Local Lemma probed_blocked id' m' c' :
  modelsOf cb id' !! m' = Some c' → blocking e c' (cooldowns cb) = true → modelsOf cb' id' !! m' = Some c'.
Proof.
  intros Hm' Hb. change (circuitOf cb' id' m' = Some c'). change (circuitOf cb id' m' = Some c') in Hm'.
  unfold cb'. rewrite circuitOf_put_ne; [done|]. intros [= <- <-]. rewrite Hc in Hm'. injection Hm' as <-.
  by apply blocking_logical in Hb.
Qed.
End Probed.

Lemma blocked_list e cb id m r : m ∈ (providerReport e cb (modelsOf cb id) r).1.2 →
  ∃ c, modelsOf cb id !! m = Some c ∧ blocking e c r = true.
Proof.
  unfold providerReport. cbn [fst snd]. rewrite merge_sort_Permutation, list_elem_of_fmap.
  intros ([m' c] & -> & Hin). apply elem_of_map_to_list, blockedModels_lookup in Hin. eauto.
Qed.

Lemma foldl_agree {A B} (f g : A → B → A) (l : list B) a :
  (∀ a b, b ∈ l → f a b = g a b) → foldl f a l = foldl g a l.
Proof.
  revert a. induction l as [|b l IH]; intros a H; [done|]. cbn. rewrite H by set_solver.
  apply IH. set_solver.
Qed.

(** Asking again, of any pair, answers the same. *)
Lemma IsOpen_asked e cb id name m : asked e cb (IsOpen e cb id name m).1.1.
Proof.
  destruct (IsOpen_breaker e cb id name m) as [->|(c & Hc & Hl & ->)]; [done|]. split.
  - intros id' name' m'. apply eq_true_iff_eq. rewrite !IsOpen_skips. unfold skips.
    rewrite <- !providerReport_open, (probed_report e cb id m c Hc Hl), (probed_state e cb id m c Hc). done.
  - intros id' m'. destruct (decide (GetState e cb id' m' = StateOpen)) as [Ho|Ho].
    + unfold GetState, circuitOf in Ho. destruct (modelsOf cb id' !! m') as [c'|] eqn:Hm'; [|done].
      apply blocking_logical in Ho. pose proof (probed_blocked e cb id m c Hc Hl _ _ _ Hm' Ho) as Hm''.
      unfold BlockedUntil. rewrite Hm', Hm''. change (cooldowns (putCircuit _ _ _ _)) with (cooldowns cb). rewrite Ho.
      rewrite !bool_decide_false; [done| |]; intros H0; [rewrite H0 in Hm'|rewrite H0 in Hm'']; done.
    + rewrite !BlockedUntil_provider; [|done|by rewrite probed_state]. cbv zeta.
      rewrite (probed_report e cb id m c Hc Hl). case_match; [|done]. f_equal. apply foldl_agree.
      intros [t p] m2 (c2 & Hm2 & Hb)%blocked_list. unfold blockedUntilStep.
      by rewrite Hm2, (probed_blocked e cb id m c Hc Hl _ _ _ Hm2 Hb).
  - intros. by apply probed_state.
Qed.

Lemma asked_trans e cb1 cb2 cb3 : asked e cb1 cb2 → asked e cb2 cb3 → asked e cb1 cb3.
Proof. intros [? ? ?] [? ? ?]. split; intros; congruence. Qed.

(** ** Lemmas: the walk over the entries *)

Lemma foldl_filter {A B} (f : A → B → A) (keep : B → bool) (l : list B) a :
  foldl (fun a b => if keep b then f a b else a) a l = foldl f a (filter (fun b => keep b = true) l).
Proof.
  revert a. induction l as [|b l IH]; intros a; [done|]. cbn [foldl]. rewrite IH, filter_cons.
  destruct (keep b); [by rewrite decide_True|by rewrite decide_False].
Qed.

Lemma only_summary s keep : only s keep = summarise (filter (fun c => keep (skip_provider c) = true) (skipped s)).
Proof. unfold only, summarise. by rewrite foldl_filter. Qed.

Lemma note_skipped s l t p d :
  note (s ⟦ skipped := l ⟧) t p d = (note s t p d) ⟦ skipped := l ⟧.
Proof. unfold note. cbn. branches; done. Qed.

Lemma summary_more sk c :
  skipped_more ((summarise sk) ⟦ skipped := sk ⟧) c = (summarise (sk ++ [c])) ⟦ skipped := sk ++ [c] ⟧.
Proof. unfold skipped_more, noteOf, summarise. by rewrite note_skipped, foldl_app. Qed.

Lemma note_listed s id name m t pn d :
  let c := MkSkipped id name m t pn d in
  (note s t pn d) ⟦ skipped := skipped (note s t pn d) ++ [c] ⟧ = skipped_more s c.
Proof.
  cbv zeta. unfold skipped_more, noteOf. cbn [skip_retryAt skip_pinned skip_dated]. do 2 f_equal.
  unfold note. branches; done.
Qed.

Section Built.
Context (e : Env) (decrypt : providerRow → bool) (cbEnabled : bool).
Context (models : gmap string modelRow) (providers : gmap string providerRow) (cb : CircuitBreaker).
Let dark := darkEntry e cbEnabled cb.
Let opens (mp : modelRow * providerRow) := decrypt mp.2.

Lemma buildStep_spec b id m p :
  usableEntry models providers id = Some (m, p) → asked e cb (built_breaker b) →
  let b' := buildStep (fun _ => e) decrypt cbEnabled models providers b id in
  let d := dark (m, p) in
  asked e cb (built_breaker b') ∧
  built_candidates b' = built_candidates b ++ (if negb d && decrypt p then [candidateOf m p] else []) ∧
  built_skips b' = (if d then skipped_more (built_skips b) (skipOf e cb (m, p)) else built_skips b) ∧
  built_failures b' = built_failures b + (if negb d && negb (decrypt p) then 1 else 0).
Proof.
  intros Hu Hb. cbv zeta. unfold buildStep, dark, darkEntry. rewrite Hu. cbn [fst snd].
  rewrite <- (asked_open _ _ _ Hb).
  set (o := IsOpen e (built_breaker b) (prov_id p) (prov_name p) (row_modelID m)).
  assert (asked e cb o.1.1) as Ho by (eapply asked_trans; [exact Hb|apply IsOpen_asked]).
  destruct o as [[cb' open] out]. cbn [fst snd] in *.
  destruct cbEnabled; cbn [andb negb]; [destruct open; cbn [negb andb]|].
  - rewrite (asked_until _ _ _ Ho).
    unfold skipOf. cbn [fst snd].
    destruct (BlockedUntil e cb (prov_id p) (row_modelID m)) as [[t pn]|]; rewrite note_listed; cbn; by rewrite app_nil_r, Z.add_0_r.
  - destruct (decrypt p); cbn; by rewrite ?app_nil_r, ?Z.add_0_r.
  - destruct (decrypt p); cbn; by rewrite ?app_nil_r, ?Z.add_0_r.
Qed.

Lemma build_spec ids :
  let b := buildFailoverCandidates (fun _ => e) decrypt cbEnabled models providers cb ids in
  let es := usableEntries models providers ids in
  let sk := skipOf e cb <$> filter (fun mp => dark mp = true) es in
  asked e cb (built_breaker b) ∧
  built_candidates b = (fun mp => candidateOf mp.1 mp.2) <$> filter (fun mp => dark mp = false ∧ opens mp = true) es ∧
  built_skips b = (summarise sk) ⟦ skipped := sk ⟧ ∧
  built_failures b = Z.of_nat (length (filter (fun mp => dark mp = false ∧ opens mp = false) es)).
Proof.
  induction ids as [|id ids IH] using rev_ind; [done|]. cbv zeta in *.
  unfold buildFailoverCandidates in *. rewrite foldl_app. cbn [foldl].
  set (b := foldl _ _ _) in *. destruct IH as (Hcb & Hc & Hs & Hf).
  unfold usableEntries in *. rewrite omap_app. cbn [omap list_omap].
  destruct (usableEntry models providers id) as [[m p]|] eqn:Hu.
  2: { rewrite app_nil_r. unfold buildStep. by rewrite Hu. }
  destruct (buildStep_spec b id m p Hu Hcb) as (Hcb' & -> & -> & ->). split; [exact Hcb'|].
  rewrite Hc, Hs, Hf, !filter_app, !fmap_app, !length_app, !filter_cons, !filter_nil. cbn [snd]. unfold opens.
  destruct (dark (m, p)) eqn:Hd; cbn [negb andb].
  - rewrite summary_more. repeat case_decide; destruct_and?; try done.
    split; [cbn; by rewrite !app_nil_r|]. split; [done|]. cbn. lia.
  - rewrite (decide_False (P := false = true)), app_nil_r by done.
    destruct (decrypt p) eqn:Hp; cbn [negb andb]; repeat case_decide; destruct_and?; cbn [snd] in *; try congruence;
      try (exfalso; tauto); repeat split; cbn; rewrite ?app_nil_r; done || lia.
Qed.
End Built.

(** ** Lemmas: summaries *)

Lemma note_count s c : skipCount (noteOf s c) = skipCount s + 1.
Proof. unfold noteOf, note. branches; done. Qed.

Lemma summary_count l : skipCount (summarise l) = Z.of_nat (length l).
Proof.
  induction l as [|c l IH] using rev_ind; [done|]. unfold summarise in *. rewrite foldl_app. cbn [foldl].
  rewrite note_count, IH, length_app. cbn. lia.
Qed.

Lemma only_count s keep :
  skipCount (only s keep) = Z.of_nat (length (filter (fun c => keep (skip_provider c) = true) (skipped s))).
Proof. by rewrite only_summary, summary_count. Qed.

Lemma noAvailable_status now status429 name s :
  answer_status (failNoAvailableProvider now status429 name s) =
    if (skipCount s =? 0) || negb status429 then 502 else 429.
Proof. unfold failNoAvailableProvider. by destruct (_ || _). Qed.

(** ** Lemmas: the caller's lists *)

Lemma effective_reachable who id :
  providerAllowFunc (effectiveAllowedProviders (keyAllowed who) (ownerAllowed who)) id = reachable who id.
Proof.
  unfold reachable, effectiveAllowedProviders, providerAllowFunc.
  destruct (keyAllowed who) as [k|], (ownerAllowed who) as [o|]; cbn; rewrite ?andb_true_r; try done.
  apply eq_true_iff_eq. rewrite andb_true_iff, !bool_decide_eq_true, list_elem_of_filter. tauto.
Qed.

(** The allow-list keeps the reachable candidates; emptied, it is the breaker's
    answer when a reachable one was skipped, and a refusal otherwise. *)
Lemma narrow_spec now status429 who name s cs :
  let ok c := reachable who (cand_provider c) = true in
  let waiting := filter (fun c => reachable who (skip_provider c) = true) (skipped s) in
  match narrow now status429 who name s cs with
  | inl cs' => cs' = filter ok cs ∧ (cs ≠ [] → cs' ≠ [])
  | inr a => filter ok cs = [] ∧
      answer_status a = (if bool_decide (waiting = []) then 403 else if (status429 : bool) then 429 else 502)
  end.
Proof.
  cbv zeta. unfold narrow. pose proof (effective_reachable who) as He.
  destruct (effectiveAllowedProviders _ _) as [allowed|].
  2: { cbn in He. split; [|done]. induction cs as [|c cs IH]; [done|]. rewrite filter_cons, <- He, decide_True by done.
     by f_equal. }
  assert (∀ A (f : A → string) (l : list A), filter (fun c => providerAllowFunc (Some allowed) (f c) = true) l =
    filter (fun c => reachable who (f c) = true) l) as Hf.
  { intros A f l. apply list_filter_iff. intros c. by rewrite He. }
  rewrite Hf, only_count, Hf. case_bool_decide as Hcs; [|done].
  destruct (filter _ (skipped s)) as [|c w] eqn:Hw; cbn [length]; [done|].
  rewrite (proj2 (Z.ltb_lt _ _)) by lia. split; [done|].
  rewrite noAvailable_status, only_count, Hf, Hw, bool_decide_false by done.
  rewrite (proj2 (Z.eqb_neq _ _)) by (cbn; lia). by destruct status429.
Qed.

Lemma darkEntry_skips e cbEnabled cb m p :
  darkEntry e cbEnabled cb (m, p) = true ↔ cbEnabled = true ∧ skips e cb (prov_id p) (row_modelID m).
Proof. unfold darkEntry. by rewrite andb_true_iff, IsOpen_skips. Qed.

(** What a group resolves to, from its entries. *)
Lemma resolveHotel_spec dir e cbEnabled cb name :
  let es := groupEntries dir name in
  let sk := skipOf e cb <$> filter (fun mp => darkEntry e cbEnabled cb mp = true) es in
  let '(cb', _, r) := resolveHotelModel dir (fun _ => e) cbEnabled cb name in
  asked e cb cb' ∧
  match r with
  | inl (cs, s) => cs = (fun mp => candidateOf mp.1 mp.2) <$> filter (servable dir e cbEnabled cb) es ∧
      s = (summarise sk) ⟦ skipped := sk ⟧
  | inr _ => filter (servable dir e cbEnabled cb) es = []
  end.
Proof.
  cbv zeta. unfold resolveHotelModel, groupEntries. destruct (lookupFailoverGroup dir name) as [fg|err]; [|done].
  destruct (GetModels dir (enabledEntryIDs fg)) as [models|]; [|done].
  destruct (GetProviders dir (providerIDsFor (enabledEntryIDs fg) models)) as [providers|]; [|done].
  destruct (build_spec e (decrypts dir) cbEnabled models providers cb (enabledEntryIDs fg)) as (Ha & Hc & Hs & _).
  split; [exact Ha|]. rewrite Hc, Hs.
  case_bool_decide as H0; cbn [andb]; [|done]. destruct (0 <? _); [|done]. by apply fmap_nil_inv in H0.
Qed.

Lemma failResolve_status gone err : answer_status (failResolve gone err) ∈ [499; 404; 500].
Proof. unfold failResolve. destruct gone, err; cbn; set_solver. Qed.

Lemma filter_fmap_bool {A B} (f : A → B) (p : B → bool) (l : list A) :
  filter (fun b => p b = true) (f <$> l) = f <$> filter (fun a => p (f a) = true) l.
Proof. induction l as [|a l IH]; [done|]. rewrite fmap_cons, !filter_cons, IH. by case_decide. Qed.

Lemma filter_none {A} (P : A → Prop) `{!∀ a, Decision (P a)} (l : list A) : filter P l = [] ↔ ∀ a, a ∈ l → ¬ P a.
Proof.
  split; [intros Hf a Ha HP; by apply (filter_nil_not_elem_of P l a Hf HP)|].
  induction l as [|a l IH]; intros Hn; [done|]. rewrite filter_cons, decide_False by (apply Hn; set_solver).
  apply IH. set_solver.
Qed.

(** Membership of a status in a short list of statuses. *)
Ltac listed :=
  repeat match goal with
  | H : _ ∈ _ :: _ |- _ => rewrite elem_of_cons in H
  | H : _ ∨ _ |- _ => destruct H
  | H : _ ∈ [] |- _ => by apply not_elem_of_nil in H
  end; rewrite ?elem_of_cons, ?elem_of_nil; lia.

(** ** Properties *)

(** C36. Resolving a group at one instant offers, in the group's priority order,
    exactly its usable entries whose circuit and provider the breaker does not
    skip, whose key opens and whose provider both the key and its owner may
    reach - never an empty list - and changes no circuit's state. With none to
    offer the answer is an error: a 403 only to a caller some candidate would
    have served had its lists allowed it, and who has no allowed provider
    waiting on the breaker; a 429 only when the breaker skipped something,
    which is a provider this caller may use unless nothing could serve anyone. *)
Theorem resolve_offers dir e toLower now cbEnabled status429 who group s :
  let cb := circuitBreaker s in
  let es := groupEntries dir (toLower group) in
  let mine mp := reachable who (prov_id mp.2) in
  let served := filter (servable dir e cbEnabled cb) es in
  let skipped := filter (fun mp => darkEntry e cbEnabled cb mp = true) es in
  let '(s', r) := resolveCandidates dir (fun _ => e) toLower now cbEnabled status429 who (hotelPrefix +:+ group) s in
  (∀ id m, GetState e (circuitBreaker s') id m = GetState e cb id m) ∧
  (∀ m p, darkEntry e cbEnabled cb (m, p) = true ↔ cbEnabled = true ∧ skips e cb (prov_id p) (row_modelID m)) ∧
  match r with
  | inl (cs, hotel) => hotel = true ∧ cs ≠ [] ∧
      cs = (fun mp => candidateOf mp.1 mp.2) <$> filter (fun mp => mine mp = true) served
  | inr a => (∀ mp, mp ∈ served → mine mp = false) ∧ answer_status a ∈ [403; 404; 429; 499; 500; 502] ∧
      (answer_status a = 403 → served ≠ [] ∧ ∀ mp, mp ∈ skipped → mine mp = false) ∧
      (answer_status a = 429 → status429 = true ∧ ∃ mp, mp ∈ skipped ∧ (served ≠ [] → mine mp = true))
  end.
Proof.
  cbv zeta. unfold resolveCandidates, hotelGroupName. rewrite stripPrefix_app. cbn [default].
  pose proof (resolveHotel_spec dir e cbEnabled (circuitBreaker s) (toLower group)) as H. cbv zeta in H.
  destruct (resolveHotelModel _ _ _ _ _) as [[cb' out] r]. destruct H as [Ha H].
  set (served := filter (servable _ _ _ _) _) in *. set (dark := filter (fun mp => _ = true) _) in *.
  pose proof (asked_state _ _ _ Ha) as Hst. pose proof (darkEntry_skips e cbEnabled (circuitBreaker s)) as Hd.
  destruct r as [[cs sk]|err].
  2: { split; [exact Hst|]. split; [exact Hd|]. rewrite H. pose proof (failResolve_status (clientGone who) err).
       split; [by intros ? ?%not_elem_of_nil|]. split; [listed|]. split; intros Hs; exfalso; listed. }
  destruct H as [-> ->]. case_bool_decide as H0.
  - apply fmap_nil_inv in H0. split; [exact Hst|]. split; [exact Hd|]. rewrite H0.
    split; [by intros ? ?%not_elem_of_nil|]. rewrite noAvailable_status. cbn. rewrite summary_count, length_fmap.
    destruct dark as [|mp dark'] eqn:Hdark; cbn; [change (Z.of_nat 0 =? 0) with true; cbn [orb]; split; [listed|done]|].
    rewrite (proj2 (Z.eqb_neq (Z.of_nat (S _)) 0)) by lia.
    destruct status429; cbn [negb orb]; (split; [listed|]); (split; [done|]); [|done].
    intros _. split; [done|]. exists mp. split; [left|done].
  - pose proof (narrow_spec now status429 who (toLower group)
      ((summarise (skipOf e (circuitBreaker s) <$> dark)) ⟦ skipped := skipOf e (circuitBreaker s) <$> dark ⟧)
      ((fun mp => candidateOf mp.1 mp.2) <$> served)) as Hn.
    destruct (narrow _ _ _ _ _ _) as [cs|a]; cbv zeta in Hn; rewrite filter_fmap_bool in Hn.
    { destruct Hn as [-> Hne]. split; [exact Hst|]. split; [exact Hd|]. split; [done|]. split; [by apply Hne|done]. }
    destruct Hn as [Hn Ha']. apply fmap_nil_inv in Hn. split; [exact Hst|]. split; [exact Hd|].
    cbn [skipped update_field upd_skipped] in Ha'. rewrite filter_fmap_bool in Ha'.
    pose proof (proj1 (filter_none _ _) Hn) as Hmine. cbn in Hmine.
    split; [intros mp Hin; by apply not_true_is_false, Hmine|].
    destruct (filter (fun a0 => reachable who (skip_provider _) = true) dark) as [|mp w] eqn:Hw; cbn in Ha'; rewrite Ha'.
    + split; [listed|]. split; [|done]. intros _. split; [by intros ->|].
      intros mp Hin. apply not_true_is_false. by apply (proj1 (filter_none _ _) Hw).
    + split; [destruct status429; listed|]. destruct status429; split; try done. intros _. split; [done|].
      assert (mp ∈ mp :: w) as Hin by left. rewrite <- Hw in Hin. apply list_elem_of_filter in Hin as [? ?]. eauto.
Qed.

Lemma resolve_offers_witness :
  let e := env_at (Hour + 2 * Second) in
  let ask who := (resolveCandidates demoDirectory (fun _ => e) id (now e) true true who (hotelPrefix +:+ "duo") demoRequest).2 in
  ask anyone = inl ([MkCandidate "q" "Q" (Some "m") (Some 3)], true) ∧
  match ask onlyP with inl _ => False | inr a => answer_status a = 429 ∧ answer_retry a = Some 58 end.
Proof.
  intros e ask.
  pose proof (resolve_offers demoDirectory e id (now e) true true anyone "duo" demoRequest) as H1.
  split.
  - unfold ask. cbv zeta in H1. destruct (resolveCandidates _ _ _ _ _ _ _ _ _) as [s' r] eqn:Hr.
    destruct H1 as (_ & _ & H1). cbn [snd]. destruct r as [[cs hotel]|a].
    + destruct H1 as (-> & _ & ->). vm_compute. reflexivity.
    + apply (f_equal snd) in Hr. vm_compute in Hr. discriminate.
  - vm_compute. split; reflexivity.
Defined.

Lemma note_earliest s c t : earliestRetry (noteOf s c) = t →
  t = (if skip_dated c && (IsZero (earliestRetry s) || Before (skip_retryAt c) (earliestRetry s))
       then skip_retryAt c else earliestRetry s).
Proof.
  intros <-. unfold noteOf, note. destruct (skipCount s =? 0), (skip_dated c), (skip_pinned c); cbn;
    try destruct (_ || _); done.
Qed.

Lemma elem_of_snoc {A} (l : list A) x y : y ∈ l ++ [x] ↔ y ∈ l ∨ y = x.
Proof. by rewrite elem_of_app, list_elem_of_singleton. Qed.

(** The earliest of the dated skips. *)
Lemma summary_earliest l :
  (∀ c, c ∈ l → skip_dated c = true → skip_retryAt c ≠ zeroTime) →
  let t := earliestRetry (summarise l) in
  (t = zeroTime ∧ ∀ c, c ∈ l → skip_dated c = false) ∨
  (t ≠ zeroTime ∧ (∃ c, c ∈ l ∧ skip_dated c = true ∧ t = skip_retryAt c) ∧
   ∀ c, c ∈ l → skip_dated c = true → t ≤ skip_retryAt c).
Proof.
  cbv zeta. induction l as [|c l IH] using rev_ind; intros H; [left; split; [done|by intros ? ?%not_elem_of_nil]|].
  setoid_rewrite elem_of_snoc. setoid_rewrite elem_of_snoc in H. specialize (IH ltac:(auto)).
  unfold summarise in *. rewrite foldl_app. cbn [foldl].
  set (s := foldl _ _ _) in *. rewrite (note_earliest s c _ eq_refl). unfold IsZero, Before.
  pose proof (H c (or_intror eq_refl)) as Hc. destruct (skip_dated c) eqn:Hd; cbn [andb].
  2: { destruct IH as [[H1 H2]|(H1 & (c' & ? & ? & ?) & H3)]; [left|right]; (split; [done|]).
       - intros c2 [?| ->]; auto.
       - split; [by eauto 6|]. intros c2 [?| ->] Hd2; [auto|congruence]. }
  right. destruct IH as [[-> H2]|(H1 & (c' & Hin & Hd' & He) & H3)].
  - cbn. split; [auto|]. split; [eauto|]. intros c' [Hin| ->] Hd'; [by rewrite H2 in Hd'|lia].
  - rewrite (proj2 (Z.eqb_neq _ _)) by done. cbn [orb]. destruct (Z.ltb_spec (skip_retryAt c) (earliestRetry s)).
    + split; [auto|]. split; [eauto|]. intros c2 [Hc2| ->] Hd2; [specialize (H3 _ Hc2 Hd2); lia|lia].
    + split; [done|]. split; [eauto|]. intros c2 [Hc2| ->] Hd2; [by apply H3|lia].
Qed.

Lemma summary_pinned l : l ≠ [] →
  allPinned (summarise l) = forallb (fun c => skip_dated c && skip_pinned c) l.
Proof.
  induction l as [|c l IH] using rev_ind; [done|]. intros _. rewrite forallb_app. cbn [forallb]. rewrite andb_true_r.
  unfold summarise in *. rewrite foldl_app. cbn [foldl]. set (s := foldl _ _ _) in *.
  assert (allPinned (noteOf s c) = (if skipCount s =? 0 then true else allPinned s) && (skip_dated c && skip_pinned c)) as ->.
  { unfold noteOf, note. destruct (skip_dated c), (skip_pinned c), (skipCount s =? 0); cbn;
      try destruct (_ || _); cbn; by rewrite ?andb_true_r, ?andb_false_r. }
  f_equal. assert (skipCount s = Z.of_nat (length l)) as -> by apply summary_count.
  destruct l as [|c' l]; [done|]. rewrite (proj2 (Z.eqb_neq _ _)) by (cbn; lia). by apply IH.
Qed.

Lemma retryAfterSeconds_ceil d : 0 < d ≤ Minute →
  (retryAfterSeconds d - 1) * Second < d ≤ retryAfterSeconds d * Second.
Proof.
  intros Hd. unfold retryAfterSeconds, Minute in *. rewrite (proj2 (Z.leb_gt _ _)) by lia. unfold Second in *.
  rewrite !wrap64_id by (unfold in_int64, int64_min, int64_max; try rewrite wrap64_id by (unfold in_int64, int64_min, int64_max; lia); lia).
  rewrite Z.quot_div_nonneg by lia. pose proof (Z.div_mod (d + 1000000000 - 1) 1000000000 ltac:(lia)).
  pose proof (Z.mod_pos_bound (d + 1000000000 - 1) 1000000000 ltac:(lia)). lia.
Qed.

(** Every summary the walk builds, at whatever instants, is that of its list. *)
Lemma build_summary clock decrypt cbEnabled models providers cb ids :
  let s := built_skips (buildFailoverCandidates clock decrypt cbEnabled models providers cb ids) in
  s = (summarise (skipped s)) ⟦ skipped := skipped s ⟧.
Proof.
  cbv zeta. unfold buildFailoverCandidates. induction ids as [|id ids IH] using rev_ind; [done|].
  rewrite foldl_app. cbn [foldl]. set (b := foldl _ _ _) in *. unfold buildStep.
  destruct (usableEntry _ _ _) as [[m p]|]; [|exact IH].
  destruct (if cbEnabled then _ else _) as [[cb' open] out]. destruct open; [|by destruct (decrypt p)].
  destruct (match BlockedUntil _ _ _ _ with Some _ => _ | None => _ end) as [[t pn] d]. cbn [built_skips].
  rewrite note_listed, IH, summary_more. done.
Qed.

(** An instant as a Retry-After: never early, and late only past the minute. *)
Lemma retry_instant now t :
  let secs := retryAfterSeconds (Z.min (Z.max (Sub t now) Second) defaultSaturationMaxWait) in
  1 ≤ secs ≤ 60 ∧ (1 < secs → now + (secs - 1) * Second < t) ∧ (secs < 60 → t ≤ now + secs * Second).
Proof.
  cbv zeta. set (d := Z.min _ _). assert (Second ≤ d ≤ Minute) as Hd by (unfold d, defaultSaturationMaxWait, Minute, Second; lia).
  pose proof (retryAfterSeconds_ceil d ltac:(unfold Second in Hd; lia)) as Hc.
  set (secs := retryAfterSeconds d) in *. assert (1 ≤ secs ≤ 60) as Hs by (unfold Minute, Second in *; lia).
  split; [exact Hs|]. unfold d, Sub, sat64, int64_min, int64_max, defaultSaturationMaxWait, Minute, Second in *.
  split; intros ?; lia.
Qed.

Lemma noAvailable_unrestricted now status429 name s :
  s = (summarise (skipped s)) ⟦ skipped := skipped s ⟧ →
  failNoAvailableProvider now status429 name s = failNoAvailableProvider now status429 name (only s (fun _ => true)).
Proof.
  intros Hs. rewrite only_summary. replace (filter _ (skipped s)) with (skipped s); [by rewrite Hs at 1|].
  clear Hs. induction (skipped s) as [|c l IH]; [done|]. rewrite filter_cons, decide_True by done. by f_equal.
Qed.

(** C25. A request no provider could be found for is told when to come back.
    Nothing skipped, or the setting off, is a 502. Otherwise a 429 whose kind is
    exhaustion exactly when every skip is dated and pinned, and whose
    Retry-After is the earliest date, rounded up to whole seconds between 1 and
    60: no dated circuit is owed a probe a second sooner, and one is by then
    unless the minute is up. Asking the summary for every provider changes
    nothing, so this is also the answer to a caller with no allow-list. *)
Theorem no_available_answer now status429 name s keep :
  0 ≤ now → (∀ c, c ∈ skipped s → skip_dated c = true → skip_retryAt c ≠ zeroTime) →
  let l := filter (fun c => keep (skip_provider c) = true) (skipped s) in
  let a := failNoAvailableProvider now status429 name (only s keep) in
  (∀ clock decrypt cbEnabled models providers cb ids,
    s = built_skips (buildFailoverCandidates clock decrypt cbEnabled models providers cb ids) →
    failNoAvailableProvider now status429 name s =
      failNoAvailableProvider now status429 name (only s (fun _ => true))) ∧
  (l = [] ∨ status429 = false → answer_status a = 502 ∧ answer_kind a = Some KindProviderError ∧ answer_retry a = None) ∧
  (l ≠ [] → status429 = true → answer_status a = 429 ∧
    answer_kind a = Some (if forallb (fun c => skip_dated c && skip_pinned c) l
                          then KindProviderQuotaExhausted else KindProviderSaturated) ∧
    ∃ secs, answer_retry a = Some secs ∧ 1 ≤ secs ≤ 60 ∧
      (1 < secs → (∃ c, c ∈ l ∧ skip_dated c = true) ∧
         ∀ c, c ∈ l → skip_dated c = true → now + (secs - 1) * Second < skip_retryAt c) ∧
      ((∃ c, c ∈ l ∧ skip_dated c = true) → secs < 60 →
         ∃ c, c ∈ l ∧ skip_dated c = true ∧ skip_retryAt c ≤ now + secs * Second)).
Proof.
  intros Hnow Hz. cbv zeta. set (l := filter _ (skipped s)).
  assert (only s keep = summarise l) as -> by apply only_summary.
  split; [|unfold failNoAvailableProvider; rewrite summary_count; split].
  - intros clock decrypt cbEnabled models providers cb ids ->. apply noAvailable_unrestricted, build_summary.
  - intros H0. replace (_ || _) with true; [done|]. by destruct H0 as [-> | ->]; rewrite ?orb_true_r.
  - intros Hl ->. destruct (Z.eqb_spec (Z.of_nat (length l)) 0) as [Hn|_]; [by destruct l|]. cbn [negb orb].
    cbn [answer_status answer_kind answer_retry]. split; [done|]. split; [by rewrite summary_pinned|].
    eexists. split; [done|].
    destruct (retry_instant now (earliestRetry (summarise l))) as (Hr & Hearly & Hlate). split; [exact Hr|].
    destruct (summary_earliest l) as [[Ht Hnone]|(Ht & Hsome & Hmin)].
    { intros c [_ Hc]%list_elem_of_filter. by apply Hz. }
    + rewrite Ht in *. unfold zeroTime in *. unfold Second in *. split; [intros; lia|].
      intros (c & Hc & Hd). by rewrite Hnone in Hd.
    + destruct Hsome as (c & Hc & Hd & He). split; [|intros _ Hs; exists c; rewrite <- He; auto].
      intros Hs. split; [eauto|]. intros c2 Hc2 Hd2. specialize (Hmin c2 Hc2 Hd2). specialize (Hearly Hs). lia.
Qed.

Lemma no_available_answer_witness :
  let l := [MkSkipped "p" "P" "c" (Hour + 30 * Second) true true; MkSkipped "q" "Q" "m" (Hour + 5 * Second + 1) true true] in
  let s := (summarise l) ⟦ skipped := l ⟧ in
  let a := failNoAvailableProvider Hour true "duo" (only s (fun _ => true)) in
  answer_status a = 429 ∧ answer_kind a = Some KindProviderQuotaExhausted ∧ answer_retry a = Some 6.
Proof.
  intros l s a.
  destruct (no_available_answer Hour true "duo" s (fun _ => true)) as (_ & _ & H); [evaluate| |].
  { intros c [-> |[-> |[]%list_elem_of_In]%elem_of_cons]%elem_of_cons _; evaluate. }
  destruct H as (Hs & Hk & secs & Hr & _); [done|done|]. split; [exact Hs|]. split; [exact Hk|].
  etransitivity; [exact Hr|]. vm_compute in Hr. by injection Hr as <-.
Defined.
