(* ===== verification/Double.v ===== *)
(** * float64, in full

    IEEE 754 binary64 as Go computes it: the Standard Library's specification of
    the operations, rounded to nearest even, and comparison of the exact values.
    The rate limiters' arithmetic meets every kind of double. *)

From Stdlib Require Import SpecFloat.
From S2P Require Import Prelude.

Abbreviation double := spec_float (only parsing).

(** ** Operations *)

Definition dprec : Z := 53.
Definition demax : Z := 1024.

Definition dsub (x y : double) : double := SFsub dprec demax x y.
Definition dmul (x y : double) : double := SFmul dprec demax x y.
Definition ddiv (x y : double) : double := SFdiv dprec demax x y.

(** [float64(z)]. *)
Definition ofZ (z : Z) : double := binary_normalize dprec demax z 0 false.

Definition scaled (s : bool) (m : positive) (e e0 : Z) : Z := cond_Zopp s (Z.pos m * 2 ^ (e - e0)).

(** [None] where one of the two is a NaN. *)
Definition dcompare (x y : double) : option comparison :=
  match x, y with
  | S754_finite s1 m1 e1, S754_finite s2 m2 e2 =>
      let e0 := Z.min e1 e2 in Some (Z.compare (scaled s1 m1 e1 e0) (scaled s2 m2 e2 e0))
  | _, _ => SFcompare x y
  end.

Definition dltb (x y : double) : bool := match dcompare x y with Some Lt => true | _ => false end.
Definition dleb (x y : double) : bool := match dcompare x y with Some (Lt | Eq) => true | _ => false end.
Definition deqb (x y : double) : bool := match dcompare x y with Some Eq => true | _ => false end.

Definition dzero : double := S754_zero false.

(** What does not fit an int64 converts to amd64's answer. *)
Definition fits64 (v : Z) : Z := if (int64_min <=? v) && (v <=? int64_max) then v else int64_min.

(** [int64(x)], truncating. *)
Definition toInt64 (x : double) : Z :=
  match x with
  | S754_zero _ => 0
  | S754_finite s m e => fits64 (cond_Zopp s (if 0 <=? e then Z.pos m * 2 ^ e else Z.pos m / 2 ^ (- e)))
  | _ => int64_min
  end.

(** Zero, or positive, with a positive sign. *)
Definition positiveSign (x : double) : bool :=
  match x with
  | S754_zero s | S754_infinity s => negb s
  | S754_finite s _ _ => negb s
  | S754_nan => false
  end.

Definition isFinite (x : double) : bool :=
  match x with S754_zero _ | S754_finite _ _ _ => true | _ => false end.

(** ** Lemmas: rounding keeps a sign *)

Lemma iter_pos_preserves {A} (P : A → Prop) (f : A → A) (n : positive) (x : A) : (∀ y, P y → P (f y)) → P x → P (SpecFloat.iter_pos f n x).
Proof. intros Hf. revert x. induction n; intros x Hx; cbn; auto. Qed.

Lemma shr_1_nonneg mrs : 0 ≤ shr_m mrs → 0 ≤ shr_m (shr_1 mrs).
Proof. destruct mrs as [[|p|p] r s]; cbn; [done| |lia]. by destruct p. Qed.

Lemma shr_nonneg mrs e n : 0 ≤ shr_m mrs → 0 ≤ shr_m (shr mrs e n).1.
Proof. intros H. destruct n; cbn; [done| |done]. apply iter_pos_preserves; [apply shr_1_nonneg|done]. Qed.

Lemma shr_fexp_nonneg m e l : 0 ≤ m → 0 ≤ shr_m (shr_fexp dprec demax m e l).1.
Proof. intros H. apply shr_nonneg. by destruct l as [|[]]. Qed.

Lemma round_nonneg m l : 0 ≤ m → 0 ≤ round_nearest_even m l.
Proof. intros H. destruct l as [|[]]; cbn; try destruct (Z.even m); lia. Qed.

Lemma round_aux_sign s m e l :
  0 ≤ m → match binary_round_aux dprec demax s m e l with
           | S754_zero s' | S754_infinity s' | S754_finite s' _ _ => s' = s
           | S754_nan => False
           end.
Proof.
  intros H. unfold binary_round_aux. pose proof (shr_fexp_nonneg m e l H) as H1.
  destruct (shr_fexp _ _ m e l) as [r1 e1]. cbn in H1.
  pose proof (shr_fexp_nonneg _ e1 loc_Exact (round_nonneg _ (loc_of_shr_record r1) H1)) as H2.
  destruct (shr_fexp _ _ _ e1 _) as [r2 e2]. cbn in H2. destruct (shr_m r2); [done|by destruct (_ <=? _)|lia].
Qed.

Lemma round_aux_positive m e l : 0 ≤ m → positiveSign (binary_round_aux dprec demax false m e l) = true.
Proof. intros H. pose proof (round_aux_sign false m e l H). by destruct (binary_round_aux _ _ _ _ _ _) as [[]|[]| |[]]. Qed.

Lemma dsub_number x y : isFinite x = true → isFinite y = true → dsub x y ≠ S754_nan.
Proof.
  assert (∀ m e, binary_normalize dprec demax m e false ≠ S754_nan) as Hn.
  { assert (∀ s m e, binary_round dprec demax s m e ≠ S754_nan) as Hr; [|by intros [|m|m] e; cbn].
    intros s m e Hnan. unfold binary_round in Hnan. destruct (shl_align _ _ _) as [mz ez].
    pose proof (round_aux_sign s (Z.pos mz) ez loc_Exact ltac:(lia)) as H. by rewrite Hnan in H. }
  destruct x as [[]|[]| |sx mx ex], y as [[]|[]| |sy my ey]; cbn; try done; intros _ _; apply Hn.
Qed.

Lemma dmul_positive x y :
  positiveSign x = true → positiveSign y = true → isFinite y = true → y ≠ dzero → positiveSign (dmul x y) = true.
Proof.
  destruct x as [[]|[]| |[] mx ex], y as [[]|[]| |[] my ey]; cbn; try done. intros _ _ _ _. by apply round_aux_positive.
Qed.

Lemma ddiv_positive x y :
  positiveSign x = true → positiveSign y = true → isFinite y = true → y ≠ dzero → positiveSign (ddiv x y) = true.
Proof.
  destruct x as [[]|[]| |[] mx ex], y as [[]|[]| |[] my ey]; cbn; try done. intros _ _ _ _.
  unfold ddiv, SFdiv, SFdiv_core_binary. set (m' := match _ with Z0 => _ | _ => _ end).
  assert (0 ≤ m') as Hm by (unfold m'; destruct (_ - _ - _); [lia|apply Z.shiftl_nonneg; lia|lia]). clearbody m'.
  pose proof (Z.div_pos m' (Z.pos my) Hm ltac:(lia)) as Hq. unfold Z.div in Hq.
  destruct (Z.div_eucl m' (Z.pos my)) as [q r]. by apply round_aux_positive.
Qed.

(** Not at most zero, and not a NaN. *)
Lemma not_leb_zero x : x ≠ S754_nan → dleb x dzero = false → positiveSign x = true ∧ x ≠ dzero.
Proof. destruct x as [[]|[]| |[] m e]; cbn; done. Qed.

(** ** Lemmas: conversion *)

Lemma toInt64_range x : in_int64 (toInt64 x).
Proof.
  assert (∀ v, in_int64 (fits64 v)) as Hf.
  { intros v. unfold in_int64, fits64. destruct (_ && _) eqn:H; [|unfold int64_min, int64_max; lia].
    apply andb_true_iff in H as [? ?]. lia. }
  destruct x; cbn; auto; unfold in_int64, int64_min, int64_max; lia.
Qed.

(** Below 2^63, a positive double converts to what it truncates to. *)
Lemma toInt64_nonneg x : positiveSign x = true → dleb (ofZ int64_max) x = false → 0 ≤ toInt64 x.
Proof.
  intros Hs Hlt. destruct x as [[]|[]| |[] m e]; try done. change (ofZ int64_max) with (S754_finite false 4503599627370496 11) in Hlt.
  unfold dleb, dcompare, scaled, cond_Zopp in Hlt. unfold toInt64, fits64. cbn [cond_Zopp].
  set (v := if 0 <=? e then _ else _).
  assert (0 ≤ v).
  { unfold v. destruct (Z.leb_spec 0 e); [apply Z.mul_nonneg_nonneg; [lia|by apply Z.pow_nonneg]|].
    apply Z.div_pos; [lia|apply Z.pow_pos_nonneg; lia]. }
  assert (v ≤ int64_max) as Hv.
  { assert (Z.pos m * 2 ^ (e - Z.min 11 e) < 4503599627370496 * 2 ^ (11 - Z.min 11 e)) as Hm
      by (destruct (Z.compare_spec (4503599627370496 * 2 ^ (11 - Z.min 11 e)) (Z.pos m * 2 ^ (e - Z.min 11 e))); [done|done|lia]).
    unfold v, int64_max. destruct (Z.leb_spec 0 e) as [He|He].
    - destruct (Z.le_ge_cases e 11) as [Hle|Hge].
      + rewrite Z.min_r, Z.sub_diag in Hm by lia.
        assert (2 ^ (11 - e) * 2 ^ e = 2 ^ 11) as Hd by (rewrite <- Z.pow_add_r by lia; f_equal; lia).
        pose proof (Z.pow_pos_nonneg 2 e ltac:(lia) He). nia.
      + rewrite Z.min_l, Z.sub_diag in Hm by lia.
        assert (2 ^ e = 2 ^ (e - 11) * 2 ^ 11) as Hd by (rewrite <- Z.pow_add_r by lia; f_equal; lia).
        rewrite Hd. lia.
    - rewrite Z.min_r, Z.sub_diag in Hm by lia. assert (2 ^ (11 - e) = 2 ^ 11 * 2 ^ (- e)) as Hd by (rewrite <- Z.pow_add_r by lia; f_equal; lia).
      rewrite Hd in Hm. pose proof (Z.pow_pos_nonneg 2 (- e) ltac:(lia) ltac:(lia)).
      assert (Z.pos m / 2 ^ (- e) < 2 ^ 63); [|lia]. apply Z.div_lt_upper_bound; lia. }
  unfold int64_min. rewrite (proj2 (Z.leb_le _ _)) by lia. rewrite (proj2 (Z.leb_le _ _)) by done. done.
Qed.
