(* ===== verification/Throttle.v ===== *)
(** * Throttle episodes (internal/ratelimit/throttle.go)

    The edge-triggered bookkeeping behind a rate limiter's log lines: an
    identity's first refusal opens an episode, the serve that finds its bucket
    recovered, or its eviction, closes it. Every method's effect is one critical
    section; the unlocked test before it only skips sections that do nothing. *)

From S2P Require Import Prelude Double.

(** ** State *)

Record throttleState := MkThrottleState {
  throttled : bool;
  throttledAt : Time;
  lastRejectedAt : Time;
  rejectedN : Z
}.

Definition throttleState_eta (s : throttleState) : throttleState :=
  MkThrottleState (throttled s) (throttledAt s) (lastRejectedAt s) (rejectedN s).
#[export] Instance upd_throttled : Updater throttled := ltac:(derive_updater throttleState_eta).
#[export] Instance upd_throttledAt : Updater throttledAt := ltac:(derive_updater throttleState_eta).
#[export] Instance upd_lastRejectedAt : Updater lastRejectedAt := ltac:(derive_updater throttleState_eta).
#[export] Instance upd_rejectedN : Updater rejectedN := ltac:(derive_updater throttleState_eta).

Definition newThrottleState : throttleState := MkThrottleState false zeroTime zeroTime 0.

Record throttleLogCtx := MkThrottleLogCtx {
  ctx_prefix : string;
  ctx_label : string;
  ctx_id : string;
  ctx_budget : string;
  ctx_rps : double;
  ctx_burst : Z
}.

Inductive throttleLine :=
| ThrottlingStarted (c : throttleLogCtx)
| ThrottlingEnded (c : throttleLogCtx) (reason : string) (dur : Duration) (rejected : Z).

(** ** Operations *)

Definition noteRejected (s : throttleState) (c : throttleLogCtx) (now : Time) : throttleState * list throttleLine :=
  let s := s ⟦ lastRejectedAt := now ⟧ in
  if negb (throttled s) then
    (s ⟦ throttled := true ⟧ ⟦ throttledAt := now ⟧ ⟦ rejectedN := 1 ⟧, [ThrottlingStarted c])
  else (s ⟦ rejectedN := rejectedN s + 1 ⟧, []).

Definition noteAllowed (s : throttleState) (c : throttleLogCtx) (now : Time) : throttleState * list throttleLine :=
  if negb (throttled s) then (s, [])
  else (s ⟦ throttled := false ⟧, [ThrottlingEnded c "recovered" (Sub now (throttledAt s)) (rejectedN s)]).

Definition endIfThrottled (s : throttleState) (c : throttleLogCtx) (stop : Time) (reason : string) :
    throttleState * list throttleLine :=
  if negb (throttled s) then (s, [])
  else
    let s := s ⟦ throttled := false ⟧ in
    let stop := if After (lastRejectedAt s) stop then lastRejectedAt s else stop in
    (s, [ThrottlingEnded c reason (Sub stop (throttledAt s)) (rejectedN s)]).

(** ** Specification *)

(** What happens to one identity, each with the limits its line would print. *)
Inductive throttleEvent :=
| Refused (c : throttleLogCtx) (now : Time)
| ServedAtOnce (c : throttleLogCtx) (now : Time)
| EvictedIdle (c : throttleLogCtx) (lastUsed : Time).

Definition occur (s : throttleState) (ev : throttleEvent) : throttleState * list throttleLine :=
  match ev with
  | Refused c now => noteRejected s c now
  | ServedAtOnce c now => noteAllowed s c now
  | EvictedIdle c lastUsed => endIfThrottled s c lastUsed "idle"
  end.

Fixpoint occurAll (s : throttleState) (evs : list throttleEvent) : throttleState * list throttleLine :=
  match evs with
  | [] => (s, [])
  | ev :: evs =>
      let '(s, lines) := occur s ev in
      let '(s, lines') := occurAll s evs in (s, lines ++ lines')
  end.

(** An episode: its first refusal, the instants of those that followed, and the
    event that closed it, if one has. *)
Record episode := MkEpisode {
  ep_ctx : throttleLogCtx;
  ep_first : Time;
  ep_later : list Time;
  ep_close : option throttleEvent
}.

Definition refusals (ep : episode) : list Time := ep_first ep :: ep_later ep.

(** The episodes of a history, split at every serve and eviction; [cur] is the
    one left open so far. *)
Fixpoint episodes (cur : option episode) (evs : list throttleEvent) : list episode :=
  match evs with
  | [] => option_list cur
  | Refused c now :: evs =>
      match cur with
      | None => episodes (Some (MkEpisode c now [] None)) evs
      | Some ep => episodes (Some (MkEpisode (ep_ctx ep) (ep_first ep) (ep_later ep ++ [now]) None)) evs
      end
  | ev :: evs =>
      match cur with
      | None => episodes None evs
      | Some ep => MkEpisode (ep_ctx ep) (ep_first ep) (ep_later ep) (Some ev) :: episodes None evs
      end
  end.

Definition closingLine (ep : episode) : list throttleLine :=
  let n := Z.of_nat (length (refusals ep)) in
  match ep_close ep with
  | Some (ServedAtOnce c now) => [ThrottlingEnded c "recovered" (Sub now (ep_first ep)) n]
  | Some (EvictedIdle c lastUsed) =>
      [ThrottlingEnded c "idle" (Sub (Z.max lastUsed (default (ep_first ep) (last (ep_later ep)))) (ep_first ep)) n]
  | _ => []
  end.

(** One line when it opens, one when it closes. *)
Definition episodeLines (ep : episode) : list throttleLine := ThrottlingStarted (ep_ctx ep) :: closingLine ep.

Definition refusedEvents (evs : list throttleEvent) : list throttleEvent :=
  filter (fun ev => match ev with Refused _ _ => true | _ => false end = true) evs.

(** ** Lemmas *)

(** The state stands for the open episode. *)
Definition stands (s : throttleState) (cur : option episode) : Prop :=
  match cur with
  | None => throttled s = false
  | Some ep =>
      throttled s = true ∧ throttledAt s = ep_first ep ∧ ep_close ep = None ∧
      lastRejectedAt s = default (ep_first ep) (last (ep_later ep)) ∧ rejectedN s = Z.of_nat (length (refusals ep))
  end.

(** What an open episode has already logged. *)
Definition openLines (cur : option episode) : list throttleLine :=
  match cur with Some ep => [ThrottlingStarted (ep_ctx ep)] | None => [] end.

Lemma occurAll_episodes evs s cur :
  stands s cur → openLines cur ++ (occurAll s evs).2 = episodes cur evs ≫= episodeLines.
Proof.
  revert s cur. induction evs as [|ev evs IH]; intros s cur Hs.
  { destruct cur as [ep|]; cbn in *; [|done]. destruct Hs as (_ & _ & Hc & _). unfold episodeLines, closingLine. by rewrite Hc. }
  cbn [occurAll]. destruct (occur s ev) as [s1 l1] eqn:Ho. destruct (occurAll s1 evs) as [s2 l2] eqn:Ha.
  assert (∀ cur', stands s1 cur' → openLines cur' ++ l2 = episodes cur' evs ≫= episodeLines) as Hrest
    by (intros cur' Hs'; specialize (IH s1 cur' Hs'); by rewrite Ha in IH). cbn [snd].
  destruct ev as [c now|c now|c stop], cur as [ep|]; cbn in Ho, Hs |- *;
    unfold noteRejected, noteAllowed, endIfThrottled in Ho; cbn in Ho.
  - destruct Hs as (Ht & Hat & Hc & Hl & Hn). rewrite Ht in Ho. cbn in Ho. injection Ho as <- <-.
    rewrite <- Hrest; [done|]. cbn. rewrite last_snoc. repeat split; try done. rewrite Hn. unfold refusals. cbn.
    rewrite length_app. cbn. lia.
  - rewrite Hs in Ho. cbn in Ho. injection Ho as <- <-. by rewrite <- Hrest.
  - destruct Hs as (Ht & Hat & Hc & Hl & Hn). rewrite Ht in Ho. cbn in Ho. injection Ho as <- <-.
    unfold episodeLines at 1, closingLine at 1, refusals at 1. cbn. rewrite Hat, Hn. do 2 f_equal. by apply (Hrest None).
  - rewrite Hs in Ho. cbn in Ho. injection Ho as <- <-. by apply (Hrest None).
  - destruct Hs as (Ht & Hat & Hc & Hl & Hn). rewrite Ht in Ho. cbn in Ho. injection Ho as <- <-.
    unfold episodeLines at 1, closingLine at 1, refusals at 1, After. cbn. rewrite Hat, Hn, Hl. do 2 f_equal; [|by apply (Hrest None)].
    do 2 f_equal. destruct (Z.ltb_spec stop (default (ep_first ep) (last (ep_later ep)))); lia.
  - rewrite Hs in Ho. cbn in Ho. injection Ho as <- <-. by apply (Hrest None).
Qed.

Lemma episodes_refusals evs cur :
  sum_list_with (fun ep => length (refusals ep)) (episodes cur evs) =
  (length (refusedEvents evs) + match cur with Some ep => length (refusals ep) | None => 0 end)%nat.
Proof.
  unfold refusedEvents. revert cur. induction evs as [|ev evs IH]; intros cur; [destruct cur; cbn; lia|].
  rewrite filter_cons. destruct ev as [c now|c now|c stop], cur as [ep|]; cbn; rewrite IH; cbn;
    rewrite ?length_app; try destruct (decide _); cbn; done || lia.
Qed.

Lemma closed_until_last evs cur :
  match cur with Some ep => ep_close ep = None | None => True end →
  ∀ i ep, episodes cur evs !! i = Some ep → ep_close ep = None → S i = length (episodes cur evs).
Proof.
  revert cur. induction evs as [|ev evs IH]; intros cur Hc i ep Hi Hn.
  - destruct cur as [ep'|]; [|done]. cbn in Hi |- *. by destruct i.
  - destruct ev as [c now|c now|c stop], cur as [ep'|]; cbn in Hi |- *; try (by eapply IH).
    + destruct i as [|i]; cbn in Hi; [by injection Hi as <-|]. f_equal. by eapply IH.
    + destruct i as [|i]; cbn in Hi; [by injection Hi as <-|]. f_equal. by eapply IH.
Qed.

(** ** Properties *)

(** The throttle log tells the episodes. Whatever order an identity's
    refusals, serves and evictions come in, its lines are those of the episodes
    of that history, in order: one line when an episode opens, one when it
    closes, carrying its reason, its duration (to the last refusal when the
    identity went silent) and exactly as many rejected requests as were refused
    in it. Every refusal lies in one episode, and only the last may be open. *)
Lemma throttle_log_tells evs :
  let eps := episodes None evs in
  (occurAll newThrottleState evs).2 = eps ≫= episodeLines ∧
  sum_list_with (fun ep => length (refusals ep)) eps = length (refusedEvents evs) ∧
  (∀ i ep, eps !! i = Some ep → ep_close ep = None → S i = length eps).
Proof.
  split; [by apply (occurAll_episodes evs newThrottleState None)|].
  split; [rewrite episodes_refusals; lia|]. by apply (closed_until_last evs None).
Qed.
