(* ===== verification/TokenBucket.v ===== *)
(** * Token buckets (internal/ratelimit/throttle.go [peekWait],
    tpm_limiter.go [tpmRetryAfter])

    A bucket is a [rate.Limiter] of golang.org/x/time/rate, a third-party
    package: an interface here, with the laws its documentation gives. Above it
    stands the one question the limiters ask without taking anything: how long
    until a token. *)

From Stdlib Require Import SpecFloat.
From S2P Require Import Prelude Double.

(** ** The interface *)

(** [rate.InfDuration]. *)
Definition InfDuration : Duration := int64_max.

(** [B] is a bucket, [R] a reservation. The setters read the clock. *)
Class TokenBucket (B R : Type) := {
  NewBucket : double → Z → B;
  Limit : B → double;
  Burst : B → Z;
  TokensAt : B → Time → double;
  ReserveN : B → Time → Z → B * R;
  AllowN : B → Time → Z → B * bool;
  OK : R → bool;
  DelayFrom : R → Time → Duration;
  CancelAt : B → R → Time → B;
  SetLimit : B → Time → double → B;
  SetBurst : B → Time → Z → B
}.

(** A rate that is neither "none" nor "no limit". *)
Definition metered (limit : double) : bool := dltb dzero limit && isFinite limit.

(** How long a rate takes to yield [deficit] tokens. *)
Definition refillTime (limit deficit : double) : Duration :=
  if dleb deficit dzero then 0
  else
    let wait := dmul (ddiv deficit limit) (ofZ Second) in
    if dleb (ofZ int64_max) wait then InfDuration else toInt64 wait.

(** What the package documents: settings are what they were set to and nothing
    else changes them; a reservation fails exactly when it asks for more than
    the burst, and then takes nothing; a reservation of one token waits for the
    refill of what the bucket lacks of it; [Allow] takes a token only if one is
    there now. *)
Class TokenBucketLaws (B R : Type) `{!TokenBucket B R} := {
  Limit_NewBucket limit burst : Limit (NewBucket limit burst) = limit;
  Burst_NewBucket limit burst : Burst (NewBucket limit burst) = burst;
  Limit_SetLimit b t limit : Limit (SetLimit b t limit) = limit;
  Burst_SetLimit b t limit : Burst (SetLimit b t limit) = Burst b;
  Limit_SetBurst b t burst : Limit (SetBurst b t burst) = Limit b;
  Burst_SetBurst b t burst : Burst (SetBurst b t burst) = burst;
  Limit_ReserveN b t n : Limit (ReserveN b t n).1 = Limit b;
  Burst_ReserveN b t n : metered (Limit b) = true → Burst (ReserveN b t n).1 = Burst b;
  Limit_CancelAt b r t : Limit (CancelAt b r t) = Limit b;
  Burst_CancelAt b r t : Burst (CancelAt b r t) = Burst b;
  ReserveN_OK b t n : metered (Limit b) = true → OK (ReserveN b t n).2 = (n <=? Burst b);
  ReserveN_refused b t n : OK (ReserveN b t n).2 = false → (ReserveN b t n).1 = b;
  ReserveN_wait b t :
    metered (Limit b) = true → 1 ≤ Burst b →
    DelayFrom (ReserveN b t 1).2 t = refillTime (Limit b) (dsub (ofZ 1) (TokensAt b t));
  AllowN_ReserveN b t n :
    AllowN b t n = if OK (ReserveN b t n).2 && (DelayFrom (ReserveN b t n).2 t <=? 0)
                   then ((ReserveN b t n).1, true) else (b, false);
  TokensAt_number b t : metered (Limit b) = true → isFinite (TokensAt b t) = true
}.

(** ** How long until a token *)

Section peek.
Context {B R : Type} `{!TokenBucket B R}.

Definition peekWait (b : B) (now : Time) : Duration :=
  let limit := Limit b in
  if (Burst b <? 1) || dleb limit dzero then 0
  else refillTime limit (dsub (ofZ 1) (TokensAt b now)).

Definition tpmRetryAfter (b : B) (now : Time) : Z := SetRetryAfter (peekWait b now).

End peek.

(** A bucket of whole tokens, as one implementation of the interface. *)
Record plainBucket := MkPlainBucket {
  pb_limit : double;
  pb_burst : Z;
  pb_tokens : Z;
  pb_last : Time
}.

Record plainReservation := MkPlainReservation {
  pr_ok : bool;
  pr_n : Z;
  pr_at : Time;
  pr_delay : Duration
}.

Definition plainTokens (b : plainBucket) (t : Time) : Z :=
  Z.min (pb_burst b) (pb_tokens b + (t - pb_last b) * toInt64 (pb_limit b) / Second).

(** A count no float64 holds reads as none. *)
Definition plainTokensAt (b : plainBucket) (t : Time) : double :=
  if isFinite (ofZ (plainTokens b t)) then ofZ (plainTokens b t) else dzero.

Definition plainReserve (b : plainBucket) (t : Time) (n : Z) : plainBucket * plainReservation :=
  if n <=? pb_burst b then
    (MkPlainBucket (pb_limit b) (pb_burst b) (plainTokens b t - n) t,
     MkPlainReservation true n t (refillTime (pb_limit b) (dsub (ofZ n) (plainTokensAt b t))))
  else (b, MkPlainReservation false 0 t InfDuration).

#[export] Instance plain_bucket : TokenBucket plainBucket plainReservation := {|
  NewBucket limit burst := MkPlainBucket limit burst burst zeroTime;
  Limit := pb_limit;
  Burst := pb_burst;
  TokensAt := plainTokensAt;
  ReserveN := plainReserve;
  AllowN b t n :=
    let '(b', r) := plainReserve b t n in
    if pr_ok r && (pr_delay r <=? 0) then (b', true) else (b, false);
  OK := pr_ok;
  DelayFrom r t := pr_delay r - (t - pr_at r);
  CancelAt b r t :=
    if pr_ok r && (t <=? pr_at r + pr_delay r)
    then MkPlainBucket (pb_limit b) (pb_burst b) (pb_tokens b + pr_n r) (pb_last b) else b;
  SetLimit b t limit := MkPlainBucket limit (pb_burst b) (plainTokens b t) t;
  SetBurst b t burst := MkPlainBucket (pb_limit b) burst (plainTokens b t) t
|}.

(** ** Lemmas *)

Lemma refillTime_range limit deficit :
  metered limit = true → deficit ≠ S754_nan → 0 ≤ refillTime limit deficit ≤ InfDuration.
Proof.
  intros [Hpos Hfin]%andb_true_iff Hnum. unfold refillTime. destruct (dleb deficit dzero) eqn:Hd; [done|].
  destruct (not_leb_zero _ Hnum Hd) as [Hsign _].
  assert (positiveSign limit = true ∧ limit ≠ dzero) as [Hl Hl0] by (destruct limit as [[]|[]| |[] m e]; done).
  pose proof (ddiv_positive _ _ Hsign Hl Hfin Hl0) as Hq.
  assert (positiveSign (dmul (ddiv deficit limit) (ofZ Second)) = true) as Hw by (by apply dmul_positive).
  destruct (dleb (ofZ int64_max) _) eqn:Hle; [by unfold InfDuration, int64_max|].
  split; [by apply toInt64_nonneg|apply toInt64_range].
Qed.

Section peek_lemmas.
Context {B R : Type} `{!TokenBucket B R, !TokenBucketLaws B R}.

Lemma peekWait_range (b : B) now : metered (Limit b) = true → 0 ≤ peekWait b now ≤ InfDuration.
Proof.
  intros Hm. unfold peekWait. destruct (_ || _); [by unfold InfDuration, int64_max|]. apply refillTime_range; [done|].
  apply dsub_number; [done|by apply TokensAt_number].
Qed.

(** A reservation waits as long as the peek said. *)
Lemma ReserveN_peek (b : B) now :
  metered (Limit b) = true → 1 ≤ Burst b → DelayFrom (ReserveN b now 1).2 now = peekWait b now.
Proof.
  intros Hm Hb. rewrite ReserveN_wait by done. unfold peekWait. rewrite (proj2 (Z.ltb_ge _ _)) by lia.
  apply andb_true_iff in Hm as [Hpos _]. by destruct (Limit b) as [[]|[]| |[] m e].
Qed.

End peek_lemmas.

#[export] Instance plain_laws : TokenBucketLaws plainBucket plainReservation.
Proof.
  split; try done; cbn; unfold plainReserve.
  - intros b t n. by destruct (_ <=? _).
  - intros b t n _. by destruct (_ <=? _).
  - intros b r t. by destruct (_ && _).
  - intros b r t. by destruct (_ && _).
  - intros b t n _. by destruct (n <=? pb_burst b).
  - intros b t n. by destruct (_ <=? _).
  - intros b t Hm Hb. rewrite (proj2 (Z.leb_le _ _)) by done. cbn. lia.
  - intros b t n. destruct (_ <=? _); cbn; [|done]. by rewrite Z.sub_diag, Z.sub_0_r.
  - intros b t _. unfold plainTokensAt. by destruct (isFinite (ofZ (plainTokens b t))) eqn:H; rewrite ?H.
Qed.
