(* ===== verification/RateLimit.v ===== *)
(** * Request rate limits (internal/ratelimit: limiter.go, ip_limiter.go,
    throttle.go, fleet_share.go; internal/util/staleness.go)

    Token buckets per virtual key, per owner and per client address. A
    [bucketEntry] is what a limiter's map publishes about one identity; the
    bucket and the throttle state behind it are shared by pointer, by requests
    that still hold an entry the map has replaced or dropped too, and so live in
    a [rateStore]. Every definition is one critical section, or a request with
    nothing interleaved where it says so. *)

From S2P Require Import Prelude Double Throttle TokenBucket.

(** ** Settings *)

(** What the settings reader answers, [None] where it falls back. *)
Record rateSettings := MkRateSettings {
  rate_limit_enabled : option bool;
  rate_limit_rps : option double;
  rate_limit_burst : option Z;
  rate_limit_max_wait_ms : option Z;
  rate_limit_ip_enabled : option bool;
  rate_limit_ip_rps : option double;
  rate_limit_ip_burst : option Z;
  fleet_active_members : option Z;
  fleet_active_members_at : option Z
}.

Definition defaultRPS : double := ofZ 10.
Definition defaultBurst : Z := 20.
Definition defaultMaxWaitMs : Z := 200.
Definition defaultIPRPS : double := ofZ 30.
Definition defaultIPBurst : Z := 60.
Definition maxIPBuckets : nat := 10000.
Definition overflowBucketKey : string := "overflow".
Definition userBucketPrefix : string := "user:".
Definition keyLogPrefix : string := "ratelimit".
Definition keyLogLabel : string := "key".
Definition ipLogPrefix : string := "ratelimit-ip".
Definition ipLogLabel : string := "ip".

Definition Millisecond : Duration := 1000000.

(** [None] is a limiter built without settings. *)
Definition maxWaitFor (cfg : option rateSettings) : Duration :=
  match cfg with
  | None => defaultMaxWaitMs * Millisecond
  | Some cfg => wrap64 (default defaultMaxWaitMs (rate_limit_max_wait_ms cfg) * Millisecond)
  end.

(** ** The fleet's share *)

Definition fleetDivisorTTL : Duration := 24 * Hour.

Definition fleetDivisor (cfg : rateSettings) (now : Time) : Z :=
  let n := default 1 (fleet_active_members cfg) in
  if n <=? 1 then 1
  else
    let at_ := default 0 (fleet_active_members_at cfg) in
    if at_ =? 0 then 1
    else match TrustedAge now (unixEpoch + at_ * Second) with
         | None => 1
         | Some age => if fleetDivisorTTL <? age then 1 else n
         end.

Definition fleetShareTPM (cfg : rateSettings) (now : Time) (tpm : Z) : Z :=
  if tpm <=? 0 then tpm
  else
    let n := fleetDivisor cfg now in
    if n <=? 1 then tpm else Z.max 1 (Z.quot tpm n).

(** No cap is a rate that never blocks. *)
Definition bucketRate (rps : double) (burst : Z) : double * Z :=
  if dleb rps dzero then (ofZ 1000000, 1000000) else (rps, burst).

(** ** Entries and the store behind them *)

Record bucketEntry := MkBucketEntry {
  limiter : Z;                 (* pointer to the bucket *)
  rps : double;
  burst : Z;
  lastUsed : Time;
  throttle : Z;                (* pointer to the throttle state *)
  entry_prefix : string;
  entry_label : string;
  entry_budget : string
}.

Definition bucketEntry_eta (e : bucketEntry) : bucketEntry :=
  MkBucketEntry (limiter e) (rps e) (burst e) (lastUsed e) (throttle e) (entry_prefix e) (entry_label e) (entry_budget e).
#[export] Instance upd_rps : Updater rps := ltac:(derive_updater bucketEntry_eta).
#[export] Instance upd_burst : Updater burst := ltac:(derive_updater bucketEntry_eta).
#[export] Instance upd_lastUsed : Updater lastUsed := ltac:(derive_updater bucketEntry_eta).

Definition throttleCtx (e : bucketEntry) (id : string) : throttleLogCtx :=
  MkThrottleLogCtx (entry_prefix e) (entry_label e) id (entry_budget e) (rps e) (burst e).

(** A pointer is its number; one counter serves both kinds. *)
Record rateStore (B : Type) := MkRateStore {
  buckets : gmap Z B;
  throttles : gmap Z throttleState;
  nextPtr : Z
}.
Arguments MkRateStore {B} _ _ _.
Arguments buckets {B} _.
Arguments throttles {B} _.
Arguments nextPtr {B} _.

(** The X-RateLimit headers; [retryAfter] only where a wait would help. *)
Record rateHeaders := MkRateHeaders {
  hdr_limit : double;
  hdr_remaining : Z;
  hdr_burst : Z;
  hdr_scope : string;
  hdr_retryAfter : option Z
}.

Inductive rateAnswer :=
| Next (h : option rateHeaders)                  (* the request goes on *)
| TooManyRequests (h : rateHeaders) (msg : string)
| ClientLeft.

Section limiter.
Context {B R : Type} `{!TokenBucket B R}.
Notation store := (rateStore B).

Definition newStore : store := MkRateStore ∅ ∅ 0.

Definition bucketOf (st : store) (e : bucketEntry) : B := default (NewBucket dzero 0) (buckets st !! limiter e).
Definition setBucket (st : store) (e : bucketEntry) (b : B) : store :=
  MkRateStore (<[limiter e := b]> (buckets st)) (throttles st) (nextPtr st).

Definition throttleOf (st : store) (e : bucketEntry) : throttleState :=
  default newThrottleState (throttles st !! throttle e).

Definition onThrottle (st : store) (e : bucketEntry) (f : throttleState → throttleState * list throttleLine) :
    store * list throttleLine :=
  let '(t, lines) := f (throttleOf st e) in
  (MkRateStore (buckets st) (<[throttle e := t]> (throttles st)) (nextPtr st), lines).

(** The bucket carries over to the entry published under the new cap. *)
Definition withCap (st : store) (e : bucketEntry) (rps' : double) (burst' : Z) (now : Time) : store * bucketEntry :=
  (setBucket st e (SetBurst (SetLimit (bucketOf st e) now rps') now burst'),
   e ⟦ rps := rps' ⟧ ⟦ burst := burst' ⟧ ⟦ lastUsed := now ⟧).

(** A bucket and a throttle state of its own for an identity never seen. *)
Definition newEntry (st : store) (rps' : double) (burst' : Z) (prefix label budget : string) (now : Time) :
    store * bucketEntry :=
  let p := nextPtr st in
  (MkRateStore (<[p := NewBucket rps' burst']> (buckets st)) (<[p := newThrottleState]> (throttles st)) (p + 1),
   MkBucketEntry p rps' burst' now p prefix label budget).

Definition upsertEntry (st : store) (entries : gmap string bucketEntry) (id : string) (rps' : double) (burst' : Z)
    (prefix label budget : string) (now : Time) : store * gmap string bucketEntry * bucketEntry :=
  let '(st, e) :=
    match entries !! id with
    | None => newEntry st rps' burst' prefix label budget now
    | Some e =>
        if negb (deqb (rps e) rps') || negb (burst e =? burst') then withCap st e rps' burst' now
        else (st, e ⟦ lastUsed := now ⟧)
    end in
  (st, <[id := e]> entries, e).

(** The idle sweep both limiters run, one entry after another. *)
Definition cleanupStep (cutoff : Time) (id : string) (e : bucketEntry)
    (acc : store * gmap string bucketEntry * list throttleLine) : store * gmap string bucketEntry * list throttleLine :=
  let '(st, entries, lines) := acc in
  if Before (lastUsed e) cutoff then
    let '(st, ended) := onThrottle st e (fun t => endIfThrottled t (throttleCtx e id) (lastUsed e) "idle") in
    (st, delete id entries, lines ++ ended)
  else (st, entries, lines).

Definition cleanup (st : store) (entries : gmap string bucketEntry) (now : Time) :
    store * gmap string bucketEntry * list throttleLine :=
  let cutoff := Add now (- (10 * Minute)) in
  map_fold (cleanupStep cutoff) (st, entries, []) entries.

(** ** Admission *)

Record keyedAdmission := MkKeyedAdmission {
  adm_res : R;
  adm_userRes : option R;
  adm_delay : Duration
}.

Record admissionRefusal := MkAdmissionRefusal {
  ref_by : bucketEntry;
  ref_id : string;
  ref_retryAfter : Duration
}.

(** The owner's stage is [None] where the key's owner has no cap. *)
Definition peekAdmission (st : store) (entry : bucketEntry) (keyID : string) (user : option (bucketEntry * string))
    (now : Time) : Duration * bucketEntry * string :=
  if Burst (bucketOf st entry) <? 1 then (0, entry, keyID)
  else
    let wait := peekWait (bucketOf st entry) now in
    match user with
    | None => (wait, entry, keyID)
    | Some (userEntry, userID) =>
        if Burst (bucketOf st userEntry) <? 1 then (0, userEntry, userID)
        else
          let uw := peekWait (bucketOf st userEntry) now in
          if wait <? uw then (uw, userEntry, userID) else (wait, entry, keyID)
    end.

Definition reserveOne (st : store) (e : bucketEntry) (now : Time) : store * R :=
  let '(b, r) := ReserveN (bucketOf st e) now 1 in (setBucket st e b, r).

Definition cancelRes (st : store) (e : bucketEntry) (r : R) (t : Time) : store :=
  setBucket st e (CancelAt (bucketOf st e) r t).

Definition admitKeyed (st : store) (entry : bucketEntry) (keyID : string) (user : option (bucketEntry * string))
    (maxWait : Duration) (now : Time) : store * (keyedAdmission + admissionRefusal) :=
  let '(peeked, by_, id) := peekAdmission st entry keyID user now in
  if (0 <? peeked) && (maxWait <? peeked) then (st, inr (MkAdmissionRefusal by_ id peeked))
  else
    match user with
    | None =>
        let '(st, res) := reserveOne st entry now in
        if negb (OK res) then (st, inr (MkAdmissionRefusal entry keyID 0))
        else (st, inl (MkKeyedAdmission res None (DelayFrom res now)))
    | Some (userEntry, userID) =>
        let '(st, userRes) := reserveOne st userEntry now in
        if negb (OK userRes) then (st, inr (MkAdmissionRefusal userEntry userID 0))
        else
          let '(st, res) := reserveOne st entry now in
          if negb (OK res) then (cancelRes st userEntry userRes now, inr (MkAdmissionRefusal entry keyID 0))
          else (st, inl (MkKeyedAdmission res (Some userRes) (Z.max (DelayFrom res now) (DelayFrom userRes now))))
    end.

(** Entries are compared by pointer. *)
Definition rejectedBy (by_ : bucketEntry) (user : option (bucketEntry * string)) : string :=
  if bool_decide (Some (limiter by_) = (fun u => limiter u.1) <$> user) then "user rate limit exceeded"
  else "rate limit exceeded".

Definition rpsHeaders (b : B) (now : Time) (retryAfter : Duration) (scope : string) : rateHeaders :=
  MkRateHeaders (Limit b) (toInt64 (TokensAt b now)) (Burst b) scope
    (if 0 <? retryAfter then Some (SetRetryAfter retryAfter) else None).

Definition reject429 (st : store) (refused : admissionRefusal) (scope msg : string) (now : Time) :
    store * list throttleLine * rateAnswer :=
  let by_ := ref_by refused in
  let h := rpsHeaders (bucketOf st by_) now (ref_retryAfter refused) scope in
  let '(st, lines) := onThrottle st by_ (fun t => noteRejected t (throttleCtx by_ (ref_id refused)) now) in
  (st, lines, TooManyRequests h msg).

(** Served at once: the episode of the stage, if one is open, ends. *)
Definition served (st : store) (e : bucketEntry) (id : string) (now : Time) : store * list throttleLine :=
  onThrottle st e (fun t => noteAllowed t (throttleCtx e id) now).

(** ** The per-key limiter *)

Record Limiter := MkLimiter {
  limiters : gmap string bucketEntry;
  wasDisabled : bool
}.

Definition getLimiter (cfg : rateSettings) (st : store) (l : Limiter) (keyHash : string) (perKeyRPS : option double)
    (perKeyBurst : option Z) (now : Time) : store * Limiter * bucketEntry :=
  let rps' := default (default defaultRPS (rate_limit_rps cfg)) perKeyRPS in
  let burst' := default (default defaultBurst (rate_limit_burst cfg)) perKeyBurst in
  let n := fleetDivisor cfg now in
  let '(rps', burst') :=
    if (1 <? n) && dltb dzero rps' then (ddiv rps' (ofZ n), Z.max 1 (Z.quot burst' n)) else (rps', burst') in
  let '(rps', burst') := bucketRate rps' burst' in
  let '(st, entries, e) := upsertEntry st (limiters l) keyHash rps' burst' keyLogPrefix keyLogLabel "" now in
  (st, MkLimiter entries (wasDisabled l), e).

(** What the context of a request says: its key (or address), the key's own
    limits, its owner and the owner's. *)
Record rateRequest := MkRateRequest {
  req_keyHash : string;
  req_rps : option double;
  req_burst : option Z;
  req_ownerID : string;
  req_userRPS : option double;
  req_userBurst : option Z
}.

(** The wait ended, by itself or because the client left, at that instant. *)
Inductive waitEnd := WaitedOut (t : Time) | LeftAt (t : Time).

Definition Middleware (enabled : bool) (cfg : rateSettings) (req : rateRequest) (now : Time) (wait : waitEnd) (st : store)
    (l : Limiter) : store * Limiter * list throttleLine * rateAnswer :=
  if negb enabled then (st, l, [], Next None)
  else if negb (default true (rate_limit_enabled cfg)) then (st, MkLimiter (limiters l) true, [], Next None)
  else
    let l := if wasDisabled l then MkLimiter ∅ false else l in
    if bool_decide (req_keyHash req = "") then (st, l, [], Next None)
    else
      let '(st, l, entry) := getLimiter cfg st l (req_keyHash req) (req_rps req) (req_burst req) now in
      let '(st, l, user) :=
        match req_userRPS req with
        | Some uRPS =>
            if bool_decide (req_ownerID req = "") then (st, l, None)
            else
              let userKey := userBucketPrefix +:+ req_ownerID req in
              let '(st, l, e) := getLimiter cfg st l userKey (Some uRPS) (req_userBurst req) now in
              (st, l, Some (e, userKey))
        | None => (st, l, None)
        end in
      let '(st, adm) := admitKeyed st entry (req_keyHash req) user (maxWaitFor (Some cfg)) now in
      match adm with
      | inr refused =>
          let '(st, lines, ans) := reject429 st refused "" (rejectedBy (ref_by refused) user) now in (st, l, lines, ans)
      | inl adm =>
          if 0 <? adm_delay adm then
            match wait with
            | LeftAt t =>
                let st := cancelRes st entry (adm_res adm) t in
                let st := match user, adm_userRes adm with
                          | Some (userEntry, _), Some userRes => cancelRes st userEntry userRes t
                          | _, _ => st
                          end in
                (st, l, [], ClientLeft)
            | WaitedOut t => (st, l, [], Next (Some (rpsHeaders (bucketOf st entry) t 0 "")))
            end
          else
            let '(st, lines) := served st entry (req_keyHash req) now in
            let '(st, lines') := match user with Some (userEntry, userKey) => served st userEntry userKey now | None => (st, []) end in
            (st, l, lines ++ lines', Next (Some (rpsHeaders (bucketOf st entry) now 0 "")))
      end.

(** ** The per-address limiter *)

Record IPLimiter := MkIPLimiter {
  ipLimiters : gmap string bucketEntry;
  ip_defaultRPS : double;
  ip_defaultBurst : Z;
  ip_settings : bool;          (* whether it was given a settings reader *)
  ip_budget : string
}.

Definition NewIPLimiter (rps' : double) (burst' : Z) (settings : bool) : IPLimiter :=
  MkIPLimiter ∅ (if dleb rps' dzero then defaultIPRPS else rps') (if burst' <=? 0 then defaultIPBurst else burst') settings "".

Definition Named (l : IPLimiter) (budget : string) : IPLimiter :=
  MkIPLimiter (ipLimiters l) (ip_defaultRPS l) (ip_defaultBurst l) (ip_settings l) budget.

Definition getIPLimiter (cfg : rateSettings) (st : store) (l : IPLimiter) (ip : string) (now : Time) :
    store * IPLimiter * string * bucketEntry :=
  let rps' := if ip_settings l then default (ip_defaultRPS l) (rate_limit_ip_rps cfg) else ip_defaultRPS l in
  let burst' := if ip_settings l then default (ip_defaultBurst l) (rate_limit_ip_burst cfg) else ip_defaultBurst l in
  let '(rps', burst') := bucketRate rps' burst' in
  let ip := if bool_decide (ipLimiters l !! ip = None) && (maxIPBuckets <=? size (ipLimiters l))%nat
            then overflowBucketKey else ip in
  let '(st, entries, e) := upsertEntry st (ipLimiters l) ip rps' burst' ipLogPrefix ipLogLabel (ip_budget l) now in
  (st, MkIPLimiter entries (ip_defaultRPS l) (ip_defaultBurst l) (ip_settings l) (ip_budget l), ip, e).

(** [charged]: this limiter already took its token for this request. *)
Definition IPMiddleware (cfg : rateSettings) (charged : bool) (addr : string) (now : Time) (wait : waitEnd) (st : store)
    (l : IPLimiter) : store * IPLimiter * list throttleLine * rateAnswer :=
  if ip_settings l && negb (default true (rate_limit_ip_enabled cfg)) then (st, l, [], Next None)
  else if charged then (st, l, [], Next None)
  else
    let '(st, l, ip, entry) := getIPLimiter cfg st l addr now in
    let maxWait := maxWaitFor (if ip_settings l then Some cfg else None) in
    let '(st, adm) := admitKeyed st entry ip None maxWait now in
    match adm with
    | inr refused =>
        let '(st, lines, ans) := reject429 st refused ipLogLabel "rate limit exceeded" now in (st, l, lines, ans)
    | inl adm =>
        if 0 <? adm_delay adm then
          match wait with
          | LeftAt t => (cancelRes st entry (adm_res adm) t, l, [], ClientLeft)
          | WaitedOut t => (st, l, [], Next (Some (rpsHeaders (bucketOf st entry) t 0 ipLogLabel)))
          end
        else
          let '(st, lines) := served st entry ip now in
          (st, l, lines, Next (Some (rpsHeaders (bucketOf st entry) now 0 ipLogLabel)))
    end.

End limiter.

(** A key at one request a second, its token just taken, under an owner at ten. *)
Definition demoNow : Time := 63000000000 * Second.

Definition demoEntry : bucketEntry := MkBucketEntry 0 (ofZ 1) 1 demoNow 0 keyLogPrefix keyLogLabel "".
Definition demoOwner : bucketEntry := MkBucketEntry 1 (ofZ 10) 5 demoNow 1 keyLogPrefix keyLogLabel "".

Definition demoStore : rateStore plainBucket :=
  MkRateStore (<[0 := MkPlainBucket (ofZ 1) 1 0 demoNow]> {[1 := MkPlainBucket (ofZ 10) 5 5 demoNow]}) ∅ 2.

(** ** Lemmas *)

Section lemmas.
Context {B R : Type} `{!TokenBucket B R, !TokenBucketLaws B R}.
Implicit Types (st : rateStore B) (e : bucketEntry).

Lemma bucketOf_set st e b : bucketOf (setBucket st e b) e = b.
Proof. unfold bucketOf, setBucket. cbn. by rewrite lookup_insert_eq. Qed.

Lemma bucketOf_set_ne st e e' b : limiter e ≠ limiter e' → bucketOf (setBucket st e b) e' = bucketOf st e'.
Proof. intros H. unfold bucketOf, setBucket. cbn. by rewrite lookup_insert_ne. Qed.

Lemma setBucket_id st e : is_Some (buckets st !! limiter e) → setBucket st e (bucketOf st e) = st.
Proof.
  intros [b Hb]. unfold setBucket, bucketOf. rewrite Hb. cbn. rewrite insert_id by done. by destruct st.
Qed.

(** Taking one token: granted exactly when the burst holds one, and then at the
    wait that the peek reads. *)
Lemma reserveOne_spec st e now :
  is_Some (buckets st !! limiter e) → metered (Limit (bucketOf st e)) = true →
  let '(st', r) := reserveOne st e now in
  if 1 <=? Burst (bucketOf st e) then
    OK r = true ∧ DelayFrom r now = peekWait (bucketOf st e) now ∧
    st' = setBucket st e (ReserveN (bucketOf st e) now 1).1 ∧ r = (ReserveN (bucketOf st e) now 1).2
  else OK r = false ∧ st' = st.
Proof.
  intros Hs Hm. unfold reserveOne. destruct (ReserveN (bucketOf st e) now 1) as [b r] eqn:Hr.
  pose proof (ReserveN_OK (bucketOf st e) now 1 Hm) as Hok. pose proof (ReserveN_refused (bucketOf st e) now 1) as Href.
  pose proof (ReserveN_peek (bucketOf st e) now Hm) as Hpk. rewrite Hr in Hok, Href, Hpk. cbn in *. rewrite Hok in *.
  destruct (Z.leb_spec 1 (Burst (bucketOf st e))); [by auto|]. split; [done|]. rewrite (Href eq_refl). by apply setBucket_id.
Qed.

(** The stages a request passes, and what each still needs. *)
Definition stagesOf (e : bucketEntry) (keyID : string) (user : option (bucketEntry * string)) : list (bucketEntry * string) :=
  (e, keyID) :: option_list user.

Definition longestWait (st : rateStore B) (stages : list (bucketEntry * string)) (now : Time) : Duration :=
  foldr (fun s d => Z.max (peekWait (bucketOf st s.1) now) d) 0 stages.

Definition canServe (st : rateStore B) (s : bucketEntry * string) : bool := 1 <=? Burst (bucketOf st s.1).

(** Both buckets exist, are metered and are not the same one. *)
Definition stages_ok (st : rateStore B) (stages : list (bucketEntry * string)) : Prop :=
  NoDup (limiter ∘ fst <$> stages) ∧
  Forall (fun s => is_Some (buckets st !! limiter s.1) ∧ metered (Limit (bucketOf st s.1)) = true) stages.

(** The store once every stage has given a token. *)
Definition tookOne (st : rateStore B) (stages : list (bucketEntry * string)) (now : Time) : rateStore B :=
  foldr (fun s st' => setBucket st' s.1 (ReserveN (bucketOf st s.1) now 1).1) st stages.

Lemma peekAdmission_spec st e keyID user now :
  let stages := stagesOf e keyID user in
  stages_ok st stages →
  let '(w, by_, id) := peekAdmission st e keyID user now in
  (by_, id) ∈ stages ∧
  if forallb (canServe st) stages then w = longestWait st stages now ∧ peekWait (bucketOf st by_) now = w else w = 0.
Proof.
  cbv zeta. intros [_ Hall]. unfold peekAdmission, longestWait, stagesOf, canServe in *. cbn [foldr forallb fst option_list].
  apply Forall_cons in Hall as [[_ Hm] Hu]. cbn in Hm. pose proof (peekWait_range (bucketOf st e) now Hm).
  destruct (Z.ltb_spec (Burst (bucketOf st e)) 1), (Z.leb_spec 1 (Burst (bucketOf st e))); try lia.
  { split; [apply list_elem_of_here|done]. }
  destruct user as [[ue uid]|]; cbn in *; [|split; [apply list_elem_of_here|lia]].
  apply Forall_cons in Hu as [[_ Hmu] _]. cbn in Hmu. pose proof (peekWait_range (bucketOf st ue) now Hmu).
  destruct (Z.ltb_spec (Burst (bucketOf st ue)) 1), (Z.leb_spec 1 (Burst (bucketOf st ue))); try lia.
  { split; [apply list_elem_of_further, list_elem_of_here|done]. }
  destruct (Z.ltb_spec (peekWait (bucketOf st e) now) (peekWait (bucketOf st ue) now)).
  - split; [apply list_elem_of_further, list_elem_of_here|cbn; lia].
  - split; [apply list_elem_of_here|cbn; lia].
Qed.

(** What a refusal for want of burst leaves: every bucket as it was, but for
    the owner's token, which went back at the instant it was taken. *)
Definition handedBack (st st' : rateStore B) (e : bucketEntry) (user : option (bucketEntry * string)) (now : Time) : Prop :=
  st' = st ∨
  ∃ ue uid, user = Some (ue, uid) ∧
    let '(b, r) := ReserveN (bucketOf st ue) now 1 in st' = setBucket (setBucket st ue b) ue (CancelAt b r now).

(** The reservations, once the peek lets them be made. *)
Lemma admit_reserves st e keyID user now :
  let stages := stagesOf e keyID user in
  stages_ok st stages →
  let '(st', a) :=
    match user with
    | None =>
        let '(st, res) := reserveOne st e now in
        if negb (OK res) then (st, inr (MkAdmissionRefusal e keyID 0))
        else (st, inl (MkKeyedAdmission res None (DelayFrom res now)))
    | Some (ue, uid) =>
        let '(st, userRes) := reserveOne st ue now in
        if negb (OK userRes) then (st, inr (MkAdmissionRefusal ue uid 0))
        else
          let '(st, res) := reserveOne st e now in
          if negb (OK res) then (cancelRes st ue userRes now, inr (MkAdmissionRefusal e keyID 0))
          else (st, inl (MkKeyedAdmission res (Some userRes) (Z.max (DelayFrom res now) (DelayFrom userRes now))))
    end in
  match a with
  | inl adm =>
      forallb (canServe st) stages = true ∧ adm_delay adm = longestWait st stages now ∧ st' = tookOne st stages now
  | inr ref =>
      (ref_by ref, ref_id ref) ∈ stages ∧ ref_retryAfter ref = 0 ∧ canServe st (ref_by ref, ref_id ref) = false ∧
      handedBack st st' e user now
  end.
Proof.
  cbv zeta. intros [Hnd Hall]. unfold stagesOf, longestWait, canServe, tookOne, handedBack in *. cbn [foldr forallb fst option_list] in *.
  apply Forall_cons in Hall as [[Hs Hm] Hu]. cbn in Hs, Hm. pose proof (peekWait_range (bucketOf st e) now Hm).
  destruct user as [[ue uid]|]; cbn in *.
  - apply Forall_cons in Hu as [[Hsu Hmu] _]. cbn in Hsu, Hmu. pose proof (peekWait_range (bucketOf st ue) now Hmu).
    assert (limiter ue ≠ limiter e) as Hne by (apply NoDup_cons in Hnd as [Hnd _]; set_solver).
    pose proof (reserveOne_spec st ue now Hsu Hmu) as Hru. unfold reserveOne in Hru |- *.
    destruct (ReserveN (bucketOf st ue) now 1) as [bu ru] eqn:Hr.
    destruct (1 <=? Burst (bucketOf st ue)) eqn:Hbu; destruct Hru as (-> & Hru).
    + destruct Hru as (Hdu & _). set (st1 := setBucket st ue bu). cbn [negb].
      assert (bucketOf st1 e = bucketOf st e) as He by (by apply bucketOf_set_ne).
      assert (is_Some (buckets st1 !! limiter e)) as Hs1 by (cbn; rewrite lookup_insert_ne by done; done).
      pose proof (reserveOne_spec st1 e now Hs1) as Hre. rewrite He in Hre. specialize (Hre Hm). unfold reserveOne in Hre. rewrite He in *.
      destruct (ReserveN (bucketOf st e) now 1) as [b r]. destruct (1 <=? Burst (bucketOf st e)) eqn:Hb; destruct Hre as (-> & Hre); cbn.
      * destruct Hre as (-> & -> & _). rewrite Hdu. repeat split; try done; lia.
      * rewrite Hre. repeat split; try done; [apply list_elem_of_here|]. right. exists ue, uid. split; [done|].
        rewrite Hr. unfold cancelRes, st1. by rewrite bucketOf_set.
    + cbn. rewrite Hru. repeat split; try done; [apply list_elem_of_further, list_elem_of_here|by left].
  - pose proof (reserveOne_spec st e now Hs Hm) as Hre. unfold reserveOne in *.
    destruct (ReserveN (bucketOf st e) now 1) as [b r]. destruct (1 <=? Burst (bucketOf st e)) eqn:Hb; destruct Hre as (-> & Hre); cbn.
    + destruct Hre as (-> & -> & _). repeat split; try done; lia.
    + rewrite Hre. repeat split; try done; [apply list_elem_of_here|by left].
Qed.

End lemmas.

(** ** Properties *)

(** C32. Admission takes one token from every stage or refuses and charges none.
    A request is admitted exactly when every stage's burst holds a token and no
    stage needs longer than max_wait for it; its delay is then the longest of
    those waits, and every stage has given one token. A refusal names the stage
    it is due to. When that stage needs too long, its wait is what the client is
    told and no bucket was touched. When it can never serve, no wait is promised
    and the buckets are as they were, the owner's token having gone back at the
    instant it was taken. *)
Theorem admission_charges_none_or_all {B R} `{!TokenBucket B R, !TokenBucketLaws B R} (st : rateStore B) e keyID user
    maxWait now :
  let stages := stagesOf e keyID user in
  stages_ok st stages →
  let '(st', a) := admitKeyed st e keyID user maxWait now in
  match a with
  | inl adm =>
      forallb (canServe st) stages = true ∧ adm_delay adm = longestWait st stages now ∧
      0 ≤ adm_delay adm ≤ Z.max 0 maxWait ∧ st' = tookOne st stages now
  | inr ref =>
      (ref_by ref, ref_id ref) ∈ stages ∧
      if forallb (canServe st) stages then
        ref_retryAfter ref = longestWait st stages now ∧ peekWait (bucketOf st (ref_by ref)) now = ref_retryAfter ref ∧
        Z.max 0 maxWait < ref_retryAfter ref ∧ st' = st
      else
        ref_retryAfter ref = 0 ∧ canServe st (ref_by ref, ref_id ref) = false ∧ handedBack st st' e user now
  end.
Proof.
  cbv zeta. intros Hok. unfold admitKeyed. pose proof (peekAdmission_spec st e keyID user now Hok) as Hp.
  pose proof (admit_reserves st e keyID user now Hok) as Hr.
  destruct (peekAdmission st e keyID user now) as [[w by_] id]. destruct Hp as [Hin Hp].
  assert (0 ≤ longestWait st (stagesOf e keyID user) now) as Hnn
    by (unfold longestWait; generalize (stagesOf e keyID user); intros l; induction l; cbn; lia).
  destruct ((0 <? w) && (maxWait <? w)) eqn:Hw.
  - apply andb_true_iff in Hw as [Hw1%Z.ltb_lt Hw2%Z.ltb_lt]. split; [done|]. cbn [ref_retryAfter ref_by].
    destruct (forallb _ _); [|lia]. destruct Hp as [-> Hpk]. split; [done|]. split; [exact Hpk|]. split; [lia|done].
  - apply andb_false_iff in Hw. rewrite !Z.ltb_ge in Hw.
    destruct (match user with Some _ => _ | None => _ end) as [st' [adm|ref]].
    + destruct Hr as (Hs & -> & ->). rewrite Hs in Hp |- *. destruct Hp as [-> _]. repeat split; try done; lia.
    + destruct Hr as (Hrin & -> & Hserve & Hback). split; [done|].
      assert (forallb (canServe st) (stagesOf e keyID user) = false) as ->; [|done].
      apply not_true_is_false. intros Hall. rewrite forallb_forall in Hall. apply list_elem_of_In in Hrin.
      rewrite (Hall _ Hrin) in Hserve. done.
Qed.

Lemma admission_charges_none_or_all_witness :
  ∃ refused, admitKeyed demoStore demoEntry "key" (Some (demoOwner, "user:u")) 0 demoNow = (demoStore, inr refused) ∧
    ref_retryAfter refused = Second ∧
    peekWait (bucketOf demoStore (ref_by refused)) demoNow = ref_retryAfter refused.
Proof.
  assert (stages_ok demoStore (stagesOf demoEntry "key" (Some (demoOwner, "user:u")))) as Hok.
  { split; [apply (bool_decide_unpack _); vm_compute; exact I|].
    repeat constructor; cbn; first [by eexists | vm_compute; reflexivity]. }
  pose proof (admission_charges_none_or_all demoStore demoEntry "key" (Some (demoOwner, "user:u")) 0 demoNow Hok) as H.
  assert (∃ refused, admitKeyed demoStore demoEntry "key" (Some (demoOwner, "user:u")) 0 demoNow = (demoStore, inr refused) ∧
    ref_retryAfter refused = Second) as (refused & Ha & Hw) by (eexists; split; vm_compute; reflexivity).
  rewrite Ha in H. destruct H as [_ H].
  replace (forallb _ _) with true in H by (vm_compute; reflexivity). destruct H as (_ & Hpk & _).
  exists refused. split; [exact Ha|]. split; [exact Hw|exact Hpk].
Defined.

(** A cap is shared by the fleet that enforces it. With [n] members dividing
    a token cap, each enforces at least one token and no more than the cap; the
    shares together fall short of it by less than [n] and exceed it only when the
    cap is smaller than the fleet. A cap of zero or less stays "no cap". A member
    divides only by a count that an announce of the last 24 hours vouches for:
    missing, aged and future stamps all leave it on its own. *)
Lemma fleet_shares_sum cfg now tpm :
  let n := fleetDivisor cfg now in
  let share := fleetShareTPM cfg now tpm in
  (if tpm <=? 0 then share = tpm
   else 1 ≤ share ≤ tpm ∧ tpm - n < n * share ∧ n * share ≤ Z.max tpm n) ∧
  (n = 1 ∨
   1 < n ∧ fleet_active_members cfg = Some n ∧
   ∃ at_, fleet_active_members_at cfg = Some at_ ∧ at_ ≠ 0 ∧ 0 ≤ Sub now (unixEpoch + at_ * Second) ≤ fleetDivisorTTL).
Proof.
  cbv zeta. set (n := fleetDivisor cfg now).
  assert (n = 1 ∨ 1 < n ∧ fleet_active_members cfg = Some n ∧
    ∃ at_, fleet_active_members_at cfg = Some at_ ∧ at_ ≠ 0 ∧ 0 ≤ Sub now (unixEpoch + at_ * Second) ≤ fleetDivisorTTL) as Hn.
  { unfold n, fleetDivisor, TrustedAge. destruct (fleet_active_members cfg) as [m|]; cbn; [|by left].
    destruct (Z.leb_spec m 1); [by left|]. destruct (fleet_active_members_at cfg) as [a|]; cbn; [|by left].
    destruct (Z.eqb_spec a 0); [by left|]. destruct (IsZero _); [by left|]. destruct (Z.ltb_spec (Sub now (unixEpoch + a * Second)) 0); [by left|].
    destruct (Z.ltb_spec fleetDivisorTTL (Sub now (unixEpoch + a * Second))); [by left|]. right. eauto 10. }
  split; [|exact Hn]. unfold fleetShareTPM. fold n. destruct (Z.leb_spec tpm 0); [done|].
  assert (1 ≤ n) by (destruct Hn as [->|[? _]]; lia). destruct (Z.leb_spec n 1).
  - replace n with 1 by lia. lia.
  - rewrite Z.quot_div_nonneg by lia. pose proof (Z.div_mod tpm n ltac:(lia)). pose proof (Z.mod_pos_bound tpm n ltac:(lia)).
    assert (tpm / n ≤ tpm) by (apply Z.div_le_upper_bound; nia). destruct (Z.le_gt_cases 1 (tpm / n)); nia.
Qed.
