(* ===== verification/RateSystem.v ===== *)
(** * Rate limits under concurrency (internal/ratelimit)

    Both request limiters over one heap, with their critical sections in any
    order: resolving an identity's entry, admitting on entries resolved at any
    earlier time (the map may have replaced or dropped them since), handing a
    token back, noting an episode, the idle sweeps, and the reset when rate
    limiting is switched back on. *)

From S2P Require Import Prelude Double Throttle TokenBucket RateLimit.

(** ** State and steps *)

(** Which limiter, and the name it holds the identity under. *)
Inductive limiterKind := PerKey | PerAddress.
#[export] Instance limiterKind_eq_dec : EqDecision limiterKind.
Proof. solve_decision. Defined.

Definition identity : Type := limiterKind * string.

Record rateSystem (B : Type) := MkRateSystem {
  sys_store : rateStore B;
  sys_keyed : Limiter;
  sys_ip : IPLimiter;
  handed : list (identity * bucketEntry)      (* what requests have resolved *)
}.
Arguments MkRateSystem {B} _ _ _ _.
Arguments sys_store {B} _.
Arguments sys_keyed {B} _.
Arguments sys_ip {B} _.
Arguments handed {B} _.

Definition publishedEntries (k : limiterKind) (entries : gmap string bucketEntry) : list (identity * bucketEntry) :=
  (fun x => ((k, x.1), x.2)) <$> map_to_list entries.

Definition published {B} (y : rateSystem B) : list (identity * bucketEntry) :=
  publishedEntries PerKey (limiters (sys_keyed y)) ++ publishedEntries PerAddress (ipLimiters (sys_ip y)).

Definition inUse {B} (y : rateSystem B) : list (identity * bucketEntry) := handed y ++ published y.

Definition noting (f : throttleState → throttleState * list throttleLine) : Prop :=
  (∃ c now, f = fun t => noteRejected t c now) ∨ (∃ c now, f = fun t => noteAllowed t c now).

Definition withEntries (l : IPLimiter) (entries : gmap string bucketEntry) : IPLimiter :=
  MkIPLimiter entries (ip_defaultRPS l) (ip_defaultBurst l) (ip_settings l) (ip_budget l).

Inductive step {B R} `{!TokenBucket B R} (y : rateSystem B) : rateSystem B → Prop :=
| StepResolveKey cfg keyHash r b now st l e :
    getLimiter cfg (sys_store y) (sys_keyed y) keyHash r b now = (st, l, e) → metered (rps e) = true →
    step y (MkRateSystem st l (sys_ip y) (((PerKey, keyHash), e) :: handed y))
| StepResolveAddress cfg addr now st l ip e :
    getIPLimiter cfg (sys_store y) (sys_ip y) addr now = (st, l, ip, e) → metered (rps e) = true →
    step y (MkRateSystem st (sys_keyed y) l (((PerAddress, ip), e) :: handed y))
| StepAdmit i e keyID user maxWait now :
    (i, e) ∈ handed y → (∀ ue uid, user = Some (ue, uid) → ∃ i', (i', ue) ∈ handed y) →
    step y (MkRateSystem (admitKeyed (sys_store y) e keyID user maxWait now).1 (sys_keyed y) (sys_ip y) (handed y))
| StepHandBack i e (r : R) t :
    (i, e) ∈ handed y → step y (MkRateSystem (cancelRes (sys_store y) e r t) (sys_keyed y) (sys_ip y) (handed y))
| StepNote i e f :
    (i, e) ∈ handed y → noting f →
    step y (MkRateSystem (onThrottle (sys_store y) e f).1 (sys_keyed y) (sys_ip y) (handed y))
| StepSweepKeys now st entries lines :
    cleanup (sys_store y) (limiters (sys_keyed y)) now = (st, entries, lines) →
    step y (MkRateSystem st (MkLimiter entries (wasDisabled (sys_keyed y))) (sys_ip y) (handed y))
| StepSweepAddresses now st entries lines :
    cleanup (sys_store y) (ipLimiters (sys_ip y)) now = (st, entries, lines) →
    step y (MkRateSystem st (sys_keyed y) (withEntries (sys_ip y) entries) (handed y))
| StepSwitch b : step y (MkRateSystem (sys_store y) (MkLimiter (limiters (sys_keyed y)) b) (sys_ip y) (handed y))
| StepReset : step y (MkRateSystem (sys_store y) (MkLimiter ∅ false) (sys_ip y) (handed y)).

Inductive reachable {B R} `{!TokenBucket B R} : rateSystem B → Prop :=
| ReachNew rps' burst' settings budget :
    reachable (MkRateSystem newStore (MkLimiter ∅ false) (Named (NewIPLimiter rps' burst' settings) budget) [])
| ReachStep y y' : reachable y → step y y' → reachable y'.

(** A gateway that has seen one key, under the default settings. *)
Definition demoSettings : rateSettings := MkRateSettings None None None None None None None None None.

Definition demoStart : rateSystem plainBucket :=
  MkRateSystem newStore (MkLimiter ∅ false) (Named (NewIPLimiter (ofZ 5) 3 true) "login") [].

Definition demoSystem : rateSystem plainBucket :=
  let '(st, l, e) := getLimiter demoSettings (sys_store demoStart) (sys_keyed demoStart) "key" None None demoNow in
  MkRateSystem st l (sys_ip demoStart) [((PerKey, "key"), e)].

(** ** Invariant *)

Section invariant.
Context {B R : Type} `{!TokenBucket B R, !TokenBucketLaws B R}.
Notation owners := (gmap Z identity).

(** [own] says whose every bucket is. *)
Definition store_ok (own : owners) (st : rateStore B) : Prop :=
  (∀ p, is_Some (own !! p) ↔ is_Some (buckets st !! p)) ∧
  (∀ p, nextPtr st ≤ p → buckets st !! p = None) ∧
  (∀ p b, buckets st !! p = Some b → metered (Limit b) = true).

Definition owned (own : owners) (i : identity) (e : bucketEntry) : Prop :=
  own !! limiter e = Some i ∧ throttle e = limiter e.

Definition published_ok (own : owners) (st : rateStore B) (i : identity) (e : bucketEntry) : Prop :=
  owned own i e ∧ Limit (bucketOf st e) = rps e ∧ Burst (bucketOf st e) = burst e.

Definition map_ok (own : owners) (st : rateStore B) (k : limiterKind) (entries : gmap string bucketEntry) : Prop :=
  map_Forall (fun id e => published_ok own st (k, id) e) entries.

Record inv (own : owners) (y : rateSystem B) : Prop := {
  inv_store : store_ok own (sys_store y);
  inv_handed : Forall (fun x => owned own x.1 x.2) (handed y);
  inv_keyed : map_ok own (sys_store y) PerKey (limiters (sys_keyed y));
  inv_ip : map_ok own (sys_store y) PerAddress (ipLimiters (sys_ip y));
  inv_size : (size (delete overflowBucketKey (ipLimiters (sys_ip y))) ≤ maxIPBuckets)%nat
}.

(** ** Lemmas: sections that leave every cap alone *)

Definition caps (st : rateStore B) (p : Z) : option (double * Z) := (fun b => (Limit b, Burst b)) <$> buckets st !! p.

Definition same_caps (st st' : rateStore B) : Prop := nextPtr st' = nextPtr st ∧ ∀ p, caps st' p = caps st p.

#[local] Instance same_caps_preorder : PreOrder same_caps.
Proof. split; [by split|]. intros st1 st2 st3 [? H1] [? H2]. split; [congruence|]. intros p. by rewrite H2, H1. Qed.

Lemma same_caps_store own st st' : same_caps st st' → store_ok own st → store_ok own st'.
Proof.
  intros [Hn Hc] (H1 & H2 & H3). assert (∀ p, is_Some (buckets st' !! p) ↔ is_Some (buckets st !! p)) as Hs.
  { intros p. specialize (Hc p). unfold caps in Hc. rewrite <- !(fmap_is_Some (fun b => (Limit b, Burst b))), Hc. reflexivity. }
  split; [intros p; by rewrite (H1 p), (Hs p)|]. split.
  - intros p Hp. rewrite Hn in Hp. specialize (H2 p Hp). destruct (buckets st' !! p) eqn:E; [|done].
    exfalso. assert (is_Some (buckets st !! p)) as [? E'] by (apply Hs; by eexists). by rewrite E' in H2.
  - intros p b Hb. specialize (Hc p). unfold caps in Hc. rewrite Hb in Hc. cbn in Hc.
    destruct (buckets st !! p) as [b'|] eqn:E; [|done]. injection Hc as -> _. by apply (H3 p).
Qed.

Lemma same_caps_published own st st' i e : same_caps st st' → store_ok own st → published_ok own st i e → published_ok own st' i e.
Proof.
  intros [_ Hc] (H1 & _) (Ho & Hl & Hb). specialize (Hc (limiter e)). unfold caps, bucketOf in *.
  assert (is_Some (buckets st !! limiter e)) as [b E] by (apply H1; destruct Ho as [-> _]; by eexists).
  rewrite E in *. cbn in *. destruct (buckets st' !! limiter e) as [b'|] eqn:E'; [|done].
  injection Hc as Hl' Hb'. unfold published_ok, bucketOf. rewrite E'. cbn. split; [done|]. split; congruence.
Qed.

Lemma inv_same_caps own y st' :
  same_caps (sys_store y) st' → inv own y → inv own (MkRateSystem st' (sys_keyed y) (sys_ip y) (handed y)).
Proof.
  intros Hc []. split; cbn; [by eapply same_caps_store|done| | |done];
    intros id e He; (eapply same_caps_published; [done|done|eauto]).
Qed.

Lemma setBucket_caps st e b' :
  is_Some (buckets st !! limiter e) → Limit b' = Limit (bucketOf st e) → Burst b' = Burst (bucketOf st e) →
  same_caps st (setBucket st e b').
Proof.
  intros [b Hb] Hl Hbu. unfold bucketOf in *. rewrite Hb in *. cbn in *. split; [done|]. intros p. unfold caps. cbn.
  destruct (decide (limiter e = p)) as [<-|Hne]; [|by rewrite lookup_insert_ne].
  rewrite lookup_insert_eq, Hb. cbn. by rewrite Hl, Hbu.
Qed.

Lemma reserveOne_caps own st e now :
  store_ok own st → is_Some (buckets st !! limiter e) →
  same_caps st (reserveOne (R := R) st e now).1 ∧ is_Some (buckets (reserveOne (R := R) st e now).1 !! limiter e).
Proof.
  intros (_ & _ & Hm) Hs. unfold reserveOne. pose proof (Limit_ReserveN (R := R) (bucketOf st e) now 1) as Hl.
  pose proof (Burst_ReserveN (R := R) (bucketOf st e) now 1) as Hb. destruct (ReserveN (bucketOf st e) now 1) as [b r]. cbn in *.
  split; [|rewrite lookup_insert_eq; by eexists]. apply setBucket_caps; [done|done|]. apply Hb.
  destruct Hs as [b0 Hb0]. unfold bucketOf. rewrite Hb0. by apply (Hm (limiter e)).
Qed.

Lemma cancelRes_caps st e (r : R) t : is_Some (buckets st !! limiter e) → same_caps st (cancelRes st e r t).
Proof. intros Hs. apply setBucket_caps; [done|apply Limit_CancelAt|apply Burst_CancelAt]. Qed.

Lemma onThrottle_caps st e f : same_caps st (onThrottle st e f).1.
Proof. unfold onThrottle. by destruct (f _). Qed.

Lemma same_caps_Some st st' p : same_caps st st' → is_Some (buckets st !! p) → is_Some (buckets st' !! p).
Proof.
  intros [_ Hc] Hs. specialize (Hc p). unfold caps in Hc.
  apply (fmap_is_Some (fun b => (Limit b, Burst b))). rewrite Hc. by apply fmap_is_Some.
Qed.

Lemma admitKeyed_caps own st e keyID user maxWait now :
  store_ok own st → is_Some (buckets st !! limiter e) →
  (∀ ue uid, user = Some (ue, uid) → is_Some (buckets st !! limiter ue)) →
  same_caps st (admitKeyed (R := R) st e keyID user maxWait now).1.
Proof.
  intros Hok Hs Hu. unfold admitKeyed. destruct (peekAdmission st e keyID user now) as [[w by_] id].
  destruct (_ && _); [done|]. destruct user as [[ue uid]|].
  - specialize (Hu ue uid eq_refl). destruct (reserveOne_caps own st ue now Hok Hu) as [Hc1 Hs1].
    destruct (reserveOne st ue now) as [st1 ru]. cbn in *. destruct (negb (OK ru)); [done|].
    pose proof (same_caps_store _ _ _ Hc1 Hok) as Hok1. pose proof (same_caps_Some _ _ _ Hc1 Hs) as He1.
    destruct (reserveOne_caps own st1 e now Hok1 He1) as [Hc2 _]. destruct (reserveOne st1 e now) as [st2 r]. cbn in *.
    pose proof (transitivity Hc1 Hc2) as Hc. destruct (negb (OK r)); [|done]. cbn.
    transitivity st2; [done|]. apply cancelRes_caps. by eapply same_caps_Some.
  - destruct (reserveOne_caps own st e now Hok Hs) as [Hc1 _]. destruct (reserveOne st e now) as [st1 r]. cbn in *.
    by destruct (negb (OK r)).
Qed.

(** ** Lemmas: the sweep *)

Lemma cleanup_spec st entries now :
  let '(st', entries', _) := cleanup st entries now in
  same_caps st st' ∧
  entries' = filter (fun x => Before (lastUsed x.2) (Add now (- (10 * Minute))) = false) entries.
Proof.
  unfold cleanup. set (cutoff := Add _ _).
  set (idle := fun o : option bucketEntry => from_option (fun e => Before (lastUsed e) cutoff) false o).
  set (kept := fun (m : gmap string bucketEntry) (acc : rateStore B * gmap string bucketEntry * list throttleLine) =>
    same_caps st acc.1.1 ∧ ∀ id, acc.1.2 !! id = if idle (m !! id) then None else entries !! id).
  assert (kept entries (map_fold (cleanupStep cutoff) (st, entries, []) entries)) as [Hc Hl].
  { apply (map_fold_weak_ind (fun acc m => kept m acc)); [split; [reflexivity|done]|].
    intros id e m [[st1 entries1] lines] Hm [Hc Hl]. cbn in Hc, Hl. unfold cleanupStep, kept.
    destruct (Before (lastUsed e) cutoff) eqn:Hb.
    - pose proof (onThrottle_caps st1 e (fun t => endIfThrottled t (throttleCtx e id) (lastUsed e) "idle")) as Hc1.
      destruct (onThrottle st1 e _) as [st2 ended]. cbn in *. split; [by transitivity st1|]. intros id'.
      destruct (decide (id = id')) as [<-|Hne]; [by rewrite lookup_delete_eq, lookup_insert_eq; cbn; rewrite Hb|].
      by rewrite lookup_delete_ne, Hl, lookup_insert_ne.
    - cbn. split; [done|]. intros id'. rewrite Hl. destruct (decide (id = id')) as [<-|Hne]; [|by rewrite lookup_insert_ne].
      rewrite lookup_insert_eq, Hm. cbn. by rewrite Hb. }
  destruct (map_fold _ _ entries) as [[st' entries'] lines]. cbn in *. split; [done|]. apply map_eq. intros id. rewrite Hl.
  rewrite map_lookup_filter. destruct (entries !! id) as [e|] eqn:He; cbn; [|done].
  destruct (Before (lastUsed e) cutoff) eqn:Hb; [by rewrite option_guard_False|by rewrite option_guard_True].
Qed.

Lemma cleanup_inv own st k entries now :
  store_ok own st → map_ok own st k entries →
  let '(st', entries', _) := cleanup st entries now in same_caps st st' ∧ entries' ⊆ entries ∧ map_ok own st' k entries'.
Proof.
  intros Hok Hm. pose proof (cleanup_spec st entries now) as H. destruct (cleanup st entries now) as [[st' entries'] lines].
  destruct H as [Hc ->]. split; [done|]. split; [apply map_filter_subseteq|].
  intros id e [He _]%map_lookup_filter_Some. eapply same_caps_published; [done|done|]. by apply Hm.
Qed.

(** ** Lemmas: resolving an entry *)

Lemma published_set own st i e i' e' b :
  i ≠ i' → owned own i e → published_ok own st i' e' → published_ok own (setBucket st e b) i' e'.
Proof.
  intros Hne [Ho _] (Ho' & Hl & Hb). split; [done|]. rewrite bucketOf_set_ne; [done|].
  intros Heq. destruct Ho' as [Ho' _]. congruence.
Qed.

Lemma withCap_ok own st k id e r b now :
  store_ok own st → metered r = true → published_ok own st (k, id) e →
  let '(st', e') := withCap st e r b now in
  store_ok own st' ∧ published_ok own st' (k, id) e' ∧
  ∀ i' e2, (k, id) ≠ i' → published_ok own st i' e2 → published_ok own st' i' e2.
Proof.
  intros (H1 & H2 & H3) Hr (Ho & Hl & Hb). unfold withCap. set (b' := SetBurst _ _ _).
  assert (Limit b' = r ∧ Burst b' = b) as [Hl' Hb'] by (unfold b'; by rewrite Limit_SetBurst, Burst_SetBurst, Limit_SetLimit).
  assert (is_Some (buckets st !! limiter e)) as Hs by (apply H1; destruct Ho as [-> _]; by eexists).
  split; [|split].
  - split; [|split]; cbn.
    + intros p. rewrite (H1 p). destruct (decide (limiter e = p)) as [<-|Hne]; [|by rewrite lookup_insert_ne].
      rewrite lookup_insert_eq. split; [by eexists|done].
    + intros p Hp. destruct (decide (limiter e = p)) as [<-|Hne]; [|rewrite lookup_insert_ne by done; auto].
      rewrite H2 in Hs by done. by destruct Hs.
    + intros p b0. destruct (decide (limiter e = p)) as [<-|Hne]; [|rewrite lookup_insert_ne by done; eauto].
      rewrite lookup_insert_eq. intros [= <-]. by rewrite Hl'.
  - split; [done|]. change (bucketOf _ _) with (bucketOf (setBucket st e b') e). by rewrite bucketOf_set, Hl', Hb'.
  - intros i' e2 Hne. by apply (published_set own st (k, id)).
Qed.

Lemma newEntry_ok own st k id r b prefix label budget now :
  store_ok own st → metered r = true →
  let '(st', e') := newEntry st r b prefix label budget now in
  let own' := <[nextPtr st := (k, id)]> own in
  own ⊆ own' ∧ store_ok own' st' ∧ published_ok own' st' (k, id) e' ∧
  ∀ i' e2, published_ok own st i' e2 → published_ok own' st' i' e2.
Proof.
  intros (H1 & H2 & H3) Hr. unfold newEntry. set (p := nextPtr st).
  assert (own !! p = None) as Hp by (apply eq_None_not_Some; rewrite (H1 p), H2 by (unfold p; lia); by intros [? ?]).
  split; [by apply insert_subseteq|]. split; [|split].
  - split; [|split]; cbn.
    + intros q. destruct (decide (p = q)) as [<-|Hne]; [rewrite !lookup_insert_eq|by rewrite !lookup_insert_ne]. split; by eexists.
    + intros q Hq. rewrite lookup_insert_ne by (unfold p; lia). apply H2. unfold p in *. lia.
    + intros q b0. destruct (decide (p = q)) as [<-|Hne]; [|rewrite lookup_insert_ne by done; eauto].
      rewrite lookup_insert_eq. intros [= <-]. by rewrite Limit_NewBucket.
  - unfold published_ok, owned, bucketOf. cbn. rewrite !lookup_insert_eq. cbn.
    by rewrite Limit_NewBucket, Burst_NewBucket.
  - intros i' e2 ([Ho Ht] & Hl & Hb). assert (p ≠ limiter e2) as Hne by congruence.
    unfold published_ok, owned, bucketOf in *. cbn. by rewrite !lookup_insert_ne.
Qed.

Lemma upsertEntry_ok own st k entries id r b prefix label budget now st' entries' e :
  store_ok own st → map_ok own st k entries →
  upsertEntry st entries id r b prefix label budget now = (st', entries', e) → metered (rps e) = true →
  ∃ own', own ⊆ own' ∧ store_ok own' st' ∧ map_ok own' st' k entries' ∧ owned own' (k, id) e ∧
    entries' = <[id := e]> entries ∧
    ∀ k' entries2, k' ≠ k → map_ok own st k' entries2 → map_ok own' st' k' entries2.
Proof.
  intros Hok Hm Hup Hr. unfold upsertEntry in Hup.
  destruct (match entries !! id with Some _ => _ | None => _ end) as [st1 e1] eqn:E. injection Hup as -> <- ->.
  assert (∃ own', own ⊆ own' ∧ store_ok own' st' ∧ published_ok own' st' (k, id) e ∧
      ∀ i' e2, (k, id) ≠ i' → published_ok own st i' e2 → published_ok own' st' i' e2) as (own' & Hsub & Hok' & Hpub & Hoth).
  { destruct (entries !! id) as [e0|] eqn:He0.
    - pose proof (Hm id e0 He0) as Hp0. cbn in Hp0. destruct (_ || _).
      + assert (rps e = r) as Hre by (unfold withCap in E; by injection E as _ <-). rewrite Hre in Hr.
        pose proof (withCap_ok own st k id e0 r b now Hok Hr Hp0) as H. rewrite E in H. destruct H as (? & ? & ?). eauto.
      + injection E as <- <-. eauto.
    - assert (rps e = r) as Hre by (unfold newEntry in E; by injection E as _ <-). rewrite Hre in Hr.
      pose proof (newEntry_ok own st k id r b prefix label budget now Hok Hr) as H. rewrite E in H.
      destruct H as (? & ? & ? & ?). eauto 10. }
  exists own'. split; [done|]. split; [done|]. split; [|split; [by destruct Hpub|split; [done|]]].
  - intros id' e'. destruct (decide (id = id')) as [<-|Hne]; [rewrite lookup_insert_eq; by intros [= <-]|].
    rewrite lookup_insert_ne by done. intros He'. apply Hoth; [congruence|by apply Hm].
  - intros k' entries2 Hk Hm2 id' e' He'. apply Hoth; [congruence|by apply Hm2].
Qed.

Lemma owned_mono own own' i e : own ⊆ own' → owned own i e → owned own' i e.
Proof. intros Hs [Ho Ht]. split; [|done]. by eapply lookup_weaken. Qed.

(** ** Lemmas: steps *)

Lemma handed_mono own own' (l : list (identity * bucketEntry)) :
  own ⊆ own' → Forall (fun x => owned own x.1 x.2) l → Forall (fun x => owned own' x.1 x.2) l.
Proof. intros Hs Hl. eapply Forall_impl; [exact Hl|]. intros x. by apply owned_mono. Qed.

Lemma inv_resolveKey own y cfg keyHash r b now st l e :
  getLimiter cfg (sys_store y) (sys_keyed y) keyHash r b now = (st, l, e) → metered (rps e) = true → inv own y →
  ∃ own', inv own' (MkRateSystem st l (sys_ip y) (((PerKey, keyHash), e) :: handed y)).
Proof.
  unfold getLimiter. destruct (if _ && _ then _ else _) as [r1 b1]. destruct (bucketRate r1 b1) as [r2 b2].
  destruct (upsertEntry _ _ _ _ _ _ _ _ _) as [[st1 entries1] e1] eqn:E. intros [= <- <- <-] Hr [].
  destruct (upsertEntry_ok own _ PerKey _ _ _ _ _ _ _ _ _ _ _ inv_store0 inv_keyed0 E Hr) as (own' & Hs & Hok & Hm & Ho & _ & Hoth).
  exists own'. split; cbn; try done; [constructor; [done|by eapply handed_mono]|by apply Hoth].
Qed.

Lemma inv_resolveAddress own y cfg addr now st l ip e :
  getIPLimiter cfg (sys_store y) (sys_ip y) addr now = (st, l, ip, e) → metered (rps e) = true → inv own y →
  ∃ own', inv own' (MkRateSystem st (sys_keyed y) l (((PerAddress, ip), e) :: handed y)).
Proof.
  unfold getIPLimiter. destruct (bucketRate _ _) as [r2 b2]. set (ip1 := if bool_decide _ && _ then _ else _).
  destruct (upsertEntry _ _ _ _ _ _ _ _ _) as [[st1 entries1] e1] eqn:E. intros [= <- <- <- <-] Hr [].
  destruct (upsertEntry_ok own _ PerAddress _ _ _ _ _ _ _ _ _ _ _ inv_store0 inv_ip0 E Hr) as (own' & Hs & Hok & Hm & Ho & -> & Hoth).
  exists own'. split; cbn -[maxIPBuckets]; try done; [constructor; [done|by eapply handed_mono]|by apply Hoth|].
  set (m := ipLimiters (sys_ip y)) in *. destruct (decide (ip1 = overflowBucketKey)) as [->|Hne].
  { by rewrite delete_insert_eq. }
  rewrite delete_insert_ne by done. destruct (m !! ip1) as [e0|] eqn:Hm0.
  - rewrite map_size_insert_Some by (rewrite lookup_delete_ne, Hm0 by done; by eexists). done.
  - rewrite map_size_insert_None by (by rewrite lookup_delete_ne).
    assert ((size m < maxIPBuckets)%nat) as Hlt.
    { unfold ip1 in Hm0, Hne. destruct (Nat.leb_spec maxIPBuckets (size m)) as [Hle|?]; [|done].
      destruct (bool_decide_reflect (m !! addr = None)); cbn in *; congruence. }
    rewrite map_size_delete. clearbody m. destruct (m !! overflowBucketKey); unfold id in *; lia.
Qed.

Lemma inv_sweepKeys own y now st entries lines :
  cleanup (sys_store y) (limiters (sys_keyed y)) now = (st, entries, lines) → inv own y →
  inv own (MkRateSystem st (MkLimiter entries (wasDisabled (sys_keyed y))) (sys_ip y) (handed y)).
Proof.
  intros E Hinv. pose proof (cleanup_inv own _ PerKey _ now (inv_store _ _ Hinv) (inv_keyed _ _ Hinv)) as H. rewrite E in H.
  destruct H as (Hc & _ & Hm). destruct (inv_same_caps _ _ _ Hc Hinv). by split.
Qed.

Lemma inv_sweepAddresses own y now st entries lines :
  cleanup (sys_store y) (ipLimiters (sys_ip y)) now = (st, entries, lines) → inv own y →
  inv own (MkRateSystem st (sys_keyed y) (withEntries (sys_ip y) entries) (handed y)).
Proof.
  intros E Hinv. pose proof (cleanup_inv own _ PerAddress _ now (inv_store _ _ Hinv) (inv_ip _ _ Hinv)) as H. rewrite E in H.
  destruct H as (Hc & Hsub & Hm). destruct (inv_same_caps _ _ _ Hc Hinv). split; cbn -[maxIPBuckets] in *; try done.
  etrans; [|exact inv_size0]. apply map_subseteq_size. by apply delete_mono.
Qed.

Lemma handed_allocated own y i e : inv own y → (i, e) ∈ handed y → is_Some (buckets (sys_store y) !! limiter e).
Proof.
  intros [] Hin. rewrite Forall_forall in inv_handed0. destruct (inv_handed0 _ Hin) as [Ho _]. cbn in Ho.
  destruct inv_store0 as (H1 & _). apply H1. by eexists.
Qed.

Lemma step_inv own (y y' : rateSystem B) : step (R := R) y y' → inv own y → ∃ own', inv own' y'.
Proof.
  intros Hstep Hinv. destruct Hstep.
  - by eapply inv_resolveKey.
  - by eapply inv_resolveAddress.
  - exists own. apply inv_same_caps; [|done]. apply (admitKeyed_caps own); [apply Hinv|by eapply handed_allocated|].
    intros ue uid Hu. destruct (H0 ue uid Hu) as [i' Hi']. by eapply handed_allocated.
  - exists own. apply inv_same_caps; [|done]. apply cancelRes_caps. by eapply handed_allocated.
  - exists own. apply inv_same_caps; [|done]. apply onThrottle_caps.
  - exists own. by eapply inv_sweepKeys.
  - exists own. by eapply inv_sweepAddresses.
  - exists own. destruct Hinv. by split.
  - exists own. destruct Hinv. split; cbn; done.
Qed.

Lemma rate_reachable_inv (y : rateSystem B) : reachable (R := R) y → ∃ own, inv own y.
Proof.
  induction 1 as [rps' burst' settings budget|y y' _ [own IH] Hstep]; [|by eapply step_inv].
  exists ∅. split; cbn -[maxIPBuckets]; [|constructor|done|done|rewrite delete_empty, map_size_empty; lia].
  split; [|by split; intros p; cbn; rewrite lookup_empty].
  intros p. cbn. rewrite !lookup_empty. by split; intros [? ?].
Qed.

Lemma published_owned own y i e : inv own y → (i, e) ∈ published y → published_ok own (sys_store y) i e.
Proof.
  intros []. unfold published, publishedEntries. rewrite elem_of_app, !list_elem_of_fmap.
  intros [((id & e') & [= -> ->] & Hin)|((id & e') & [= -> ->] & Hin)]; apply elem_of_map_to_list in Hin; auto.
Qed.

Lemma inUse_owned own y i e : inv own y → (i, e) ∈ inUse y → owned own i e.
Proof.
  intros Hinv. unfold inUse. rewrite elem_of_app. intros [Hin|Hin].
  - destruct Hinv. rewrite Forall_forall in inv_handed0. by apply (inv_handed0 (i, e)).
  - by destruct (published_owned _ _ _ _ Hinv Hin).
Qed.

End invariant.

(** ** Properties *)


Lemma demo_reachable_rates : reachable (R := plainReservation) demoSystem.
Proof.
  apply (ReachStep demoStart); [apply ReachNew|].
  apply (StepResolveKey demoStart demoSettings "key" None None demoNow); [reflexivity|vm_compute; reflexivity].
Qed.

