(* ===== verification/TokenBudget.v ===== *)
(** * Token budgets (internal/ratelimit/tpm_limiter.go)

    Tokens per minute, per key and per owner: a request is admitted on what was
    spent before it and charged when it completes. The charge may come after the
    idle sweep dropped the bucket, so the limiter remembers each identity's cap
    for as long as a request admitted under it can live. Entries point into the
    same store as the request limiters' (RateLimit.v). *)

From S2P Require Import Prelude Double Throttle TokenBucket RateLimit.

(** ** How long a cap is remembered *)

Definition defaultTPM : Z := 0.
Definition defaultRequestTimeout : Duration := Minute.
Definition minCapMemoTTL : Duration := 24 * Hour.
Definition maxCapMemoTTL : Duration := 365 * 24 * Hour.
Definition capMemoTimeoutFactor : Z := 40.
Definition slowReadWarnInterval : Duration := Minute.

Definition capMemoTTL (requestTimeout : Duration) : Duration :=
  if requestTimeout <=? 0 then minCapMemoTTL
  else if Z.quot maxCapMemoTTL capMemoTimeoutFactor <? requestTimeout then maxCapMemoTTL
  else Z.max minCapMemoTTL (wrap64 (capMemoTimeoutFactor * requestTimeout)).

(** ** State *)

Definition tpmLogPrefix : string := "ratelimit-tpm".
Definition userLogLabel : string := "user".

Definition tpmRate (tpm : Z) : double := ddiv (ofZ tpm) (ofZ 60).

Record tpmEntry := MkTpmEntry {
  tpm_limiter : Z;
  tpm : Z;
  tpm_lastUsed : Time;
  tpm_throttle : Z
}.

(** What the shared throttle logger and headers are shown of it. *)
Definition tpmView (label : string) (e : tpmEntry) : bucketEntry :=
  MkBucketEntry (tpm_limiter e) (tpmRate (tpm e)) (tpm e) (tpm_lastUsed e) (tpm_throttle e) tpmLogPrefix label "tpm".

Record capMemo := MkCapMemo { memo_tpm : Z; expiresAt : Time }.

Record TPMLimiter := MkTPMLimiter {
  tpmBuckets : gmap string tpmEntry;
  capMemos : gmap string capMemo;
  lastSlowReadWarn : Z;        (* Unix nanoseconds *)
  lastGoodHorizon : Duration
}.

Definition TPMLimiter_eta (l : TPMLimiter) : TPMLimiter :=
  MkTPMLimiter (tpmBuckets l) (capMemos l) (lastSlowReadWarn l) (lastGoodHorizon l).
#[export] Instance upd_tpmBuckets : Updater tpmBuckets := ltac:(derive_updater TPMLimiter_eta).
#[export] Instance upd_capMemos : Updater capMemos := ltac:(derive_updater TPMLimiter_eta).
#[export] Instance upd_lastSlowReadWarn : Updater lastSlowReadWarn := ltac:(derive_updater TPMLimiter_eta).
#[export] Instance upd_lastGoodHorizon : Updater lastGoodHorizon := ltac:(derive_updater TPMLimiter_eta).

Definition newTPMLimiter : TPMLimiter := MkTPMLimiter ∅ ∅ 0 0.

Definition userBucketKey (userID : string) : string := userBucketPrefix +:+ userID.

Definition tpmBucketLabel (bucketKey : string) : string :=
  if String.prefix userBucketPrefix bucketKey then userLogLabel else keyLogLabel.

(** ** The horizon *)

(** A read of request_timeout under a deadline: what it gave, the default when
    it gave up, and whether the deadline had passed by the time it was checked. *)
Record timeoutRead := MkTimeoutRead { read_value : option Duration; read_expired : bool }.

Definition readHorizon (r : timeoutRead) : Duration * bool :=
  let horizon := capMemoTTL (default defaultRequestTimeout (read_value r)) in
  (horizon, read_expired r && (horizon =? capMemoTTL defaultRequestTimeout)).

(** The compare-and-swap that ends the loop: the mark only climbs. *)
Definition rememberHorizon (l : TPMLimiter) (horizon : Duration) : TPMLimiter :=
  if horizon <=? lastGoodHorizon l then l else l ⟦ lastGoodHorizon := horizon ⟧.

Definition UnixNano (t : Time) : Z := wrap64 (t - unixEpoch).

(** [last] is the stamp as it was loaded, before the clock was read. *)
Definition warnedSlowRead (l : TPMLimiter) (last : Z) (now : Time) : TPMLimiter * bool :=
  let gap := Sub now (unixEpoch + last) in
  if negb (last =? 0) && (0 <=? gap) && (gap <? slowReadWarnInterval) then (l, false)
  else if lastSlowReadWarn l =? last then (l ⟦ lastSlowReadWarn := UnixNano now ⟧, true)
  else (l, false).

Inductive horizonLine :=
| ReadTimedOut (horizon : Duration) (remembered : bool)
| RefreshTimedOut (horizon : Duration).

Definition memoHorizon (l : TPMLimiter) (r : timeoutRead) (now : Time) : TPMLimiter * Duration * list horizonLine :=
  let '(horizon, timedOut) := readHorizon r in
  let l := rememberHorizon l horizon in
  if negb timedOut then (l, horizon, [])
  else
    let mark := lastGoodHorizon l in
    let remembered := horizon <? mark in
    let horizon := if remembered then mark else horizon in
    let '(l, warned) := warnedSlowRead l (lastSlowReadWarn l) now in
    (l, horizon, if (warned : bool) then [ReadTimedOut horizon remembered] else []).

Definition refreshHorizonMark (l : TPMLimiter) (r : timeoutRead) (now : Time) : TPMLimiter * list horizonLine :=
  let '(horizon, timedOut) := readHorizon r in
  let l := rememberHorizon l horizon in
  if negb timedOut then (l, [])
  else
    let '(l, warned) := warnedSlowRead l (lastSlowReadWarn l) now in
    (l, if (warned : bool) then [RefreshTimedOut horizon] else []).

(** ** Caps *)

Definition effectiveTPM (cfg : rateSettings) (rate_limit_tpm : option Z) (now : Time) (perKeyTPM : option Z) : Z :=
  match perKeyTPM with
  | Some p => fleetShareTPM cfg now p
  | None => fleetShareTPM cfg now (default defaultTPM rate_limit_tpm)
  end.

(** The owner's bucket and cap, [None] when there is nothing to enforce. *)
Definition userTPMFromCtx (ownerID : string) (userTPM : option Z) : option (string * Z) :=
  if bool_decide (ownerID = "") then None
  else match userTPM with
       | Some t => if t <=? 0 then None else Some (userBucketKey ownerID, t)
       | None => None
       end.

Section tpm.
Context {B R : Type} `{!TokenBucket B R}.
Notation store := (rateStore B).
Implicit Types st : store.

Definition tpmBucket (st : store) (e : tpmEntry) : B := bucketOf st (tpmView "" e).

Definition newTPMEntry (st : store) (cap : Z) (now : Time) : store * tpmEntry :=
  let p := nextPtr st in
  (MkRateStore (<[p := NewBucket (tpmRate cap) cap]> (buckets st)) (<[p := newThrottleState]> (throttles st)) (p + 1),
   MkTpmEntry p cap now p).

Definition tpmWithCap (st : store) (e : tpmEntry) (cap : Z) (now : Time) : store * tpmEntry :=
  (setBucket st (tpmView "" e) (SetBurst (SetLimit (tpmBucket st e) now (tpmRate cap)) now cap),
   MkTpmEntry (tpm_limiter e) cap now (tpm_throttle e)).

(** The bucket, at its cap, and the claim on its memo. *)
Definition getEntry (st : store) (l : TPMLimiter) (keyHash : string) (cap : Z) (horizon : Duration) (now : Time) :
    store * TPMLimiter * tpmEntry :=
  let memoExpiry := Add now horizon in
  let '(st, e) :=
    match tpmBuckets l !! keyHash with
    | None => newTPMEntry st cap now
    | Some e =>
        if negb (tpm e =? cap) then tpmWithCap st e cap now
        else (st, MkTpmEntry (tpm_limiter e) (tpm e) now (tpm_throttle e))
    end in
  let memo :=
    match capMemos l !! keyHash with
    | Some m => MkCapMemo cap (if After memoExpiry (expiresAt m) then memoExpiry else expiresAt m)
    | None => MkCapMemo cap memoExpiry
    end in
  (st, l ⟦ tpmBuckets := <[keyHash := e]> (tpmBuckets l) ⟧ ⟦ capMemos := <[keyHash := memo]> (capMemos l) ⟧, e).

(** ** The sweep *)

Definition tpmCleanupStep (cutoff : Time) (key : string) (e : tpmEntry) (acc : store * gmap string tpmEntry * list throttleLine) :
    store * gmap string tpmEntry * list throttleLine :=
  let '(st, entries, lines) := acc in
  if Before (tpm_lastUsed e) cutoff then
    let view := tpmView (tpmBucketLabel key) e in
    let '(st, ended) := onThrottle st view (fun t => endIfThrottled t (throttleCtx view key) (tpm_lastUsed e) "idle") in
    (st, delete key entries, lines ++ ended)
  else (st, entries, lines).

Definition tpmCleanup (st : store) (l : TPMLimiter) (now : Time) : store * TPMLimiter * list throttleLine :=
  let cutoff := Add now (- (10 * Minute)) in
  let '(st, entries, lines) := map_fold (tpmCleanupStep cutoff) (st, tpmBuckets l, []) (tpmBuckets l) in
  (st, l ⟦ tpmBuckets := entries ⟧ ⟦ capMemos := filter (fun x => After now (expiresAt x.2) = false) (capMemos l) ⟧, lines).

Definition sweep (st : store) (l : TPMLimiter) (r : timeoutRead) (now : Time) :
    store * TPMLimiter * list throttleLine * list horizonLine :=
  let '(st, l, lines) := tpmCleanup st l now in
  let '(l, warned) := refreshHorizonMark l r now in (st, l, lines, warned).

(** ** Admission *)

Definition tpmHeaders (b : B) (e : tpmEntry) (now : Time) : rateHeaders :=
  MkRateHeaders (ofZ (tpm e)) (Z.max (toInt64 (TokensAt b now)) 0) (tpm e) tpmLogPrefix
    (Some (tpmRetryAfter b now)).

Definition rejectTPM429 (st : store) (e : tpmEntry) (label id msg : string) (now : Time) :
    store * list throttleLine * rateAnswer :=
  let view := tpmView label e in
  let h := tpmHeaders (tpmBucket st e) e now in
  let '(st, lines) := onThrottle st view (fun t => noteRejected t (throttleCtx view id) now) in
  (st, lines, TooManyRequests h msg).

Definition tpmAllowed (st : store) (e : tpmEntry) (label id : string) (now : Time) : store * list throttleLine :=
  let view := tpmView label e in onThrottle st view (fun t => noteAllowed t (throttleCtx view id) now).

Inductive ownerStage :=
| NothingToEnforce
| OwnerAdmitted (e : tpmEntry) (r : R)
| OwnerRefused (ans : rateAnswer).

Definition admitUserTPM (st : store) (l : TPMLimiter) (cfg : rateSettings) (r : timeoutRead) (ownerID : string)
    (userTPM : option Z) (now : Time) : store * TPMLimiter * list throttleLine * list horizonLine * ownerStage :=
  match userTPMFromCtx ownerID userTPM with
  | None => (st, l, [], [], NothingToEnforce)
  | Some (userKey, cap) =>
      let cap := fleetShareTPM cfg now cap in
      let '(l, horizon, warned) := memoHorizon l r now in
      let '(st, l, e) := getEntry st l userKey cap horizon now in
      let view := tpmView userLogLabel e in
      let '(st, res) := reserveOne st view now in
      if negb (OK res) || (0 <? DelayFrom res now) then
        let st := cancelRes st view res now in
        let '(st, lines, ans) := rejectTPM429 st e userLogLabel userKey "user token rate limit exceeded" now in
        (st, l, lines, warned, OwnerRefused ans)
      else
        let '(st, lines) := tpmAllowed st e userLogLabel userKey now in
        (st, l, lines, warned, OwnerAdmitted e res)
  end.

(** What the context of a request says. *)
Record tpmRequest := MkTpmRequest {
  tpm_keyHash : string;
  tpm_perKey : option Z;
  tpm_ownerID : string;
  tpm_user : option Z
}.

Definition TPMMiddleware (enabled : bool) (cfg : rateSettings) (rate_limit_tpm : option Z) (r : timeoutRead)
    (req : tpmRequest) (now : Time) (st : store) (l : TPMLimiter) :
    store * TPMLimiter * list throttleLine * list horizonLine * rateAnswer :=
  if negb enabled || negb (default true (rate_limit_enabled cfg)) || bool_decide (tpm_keyHash req = "")
  then (st, l, [], [], Next None)
  else
    let '(st, l, lines, warned, owner) := admitUserTPM st l cfg r (tpm_ownerID req) (tpm_user req) now in
    match owner with
    | OwnerRefused ans => (st, l, lines, warned, ans)
    | _ =>
        let cap := effectiveTPM cfg rate_limit_tpm now (tpm_perKey req) in
        if cap <=? 0 then (st, l, lines, warned, Next None)
        else
          let '(l, horizon, warned') := memoHorizon l r now in
          let '(st, l, e) := getEntry st l (tpm_keyHash req) cap horizon now in
          let '(b, allowed) := AllowN (tpmBucket st e) now 1 in
          let st := setBucket st (tpmView "" e) b in
          if negb allowed then
            let st := match owner with
                      | OwnerAdmitted ue res => cancelRes st (tpmView "" ue) res now
                      | _ => st
                      end in
            let '(st, lines', ans) := rejectTPM429 st e keyLogLabel (tpm_keyHash req) "token rate limit exceeded" now in
            (st, l, lines ++ lines', warned ++ warned', ans)
          else
            let '(st, lines') := tpmAllowed st e keyLogLabel (tpm_keyHash req) now in
            (st, l, lines ++ lines', warned ++ warned', Next None)
    end.

Definition UserMiddleware (enabled : bool) (cfg : rateSettings) (r : timeoutRead) (req : tpmRequest) (now : Time)
    (st : store) (l : TPMLimiter) : store * TPMLimiter * list throttleLine * list horizonLine * rateAnswer :=
  if negb enabled || negb (default true (rate_limit_enabled cfg)) then (st, l, [], [], Next None)
  else
    let '(st, l, lines, warned, owner) := admitUserTPM st l cfg r (tpm_ownerID req) (tpm_user req) now in
    (st, l, lines, warned, match owner with OwnerRefused ans => ans | _ => Next None end).

(** ** Charging *)

(** The bucket a charge lands on, rebuilt from its memo if the sweep took it;
    [None] is no cap in effect. *)
Definition chargedEntry (st : store) (l : TPMLimiter) (bucketKey : string) (now : Time) :
    store * TPMLimiter * option tpmEntry :=
  match tpmBuckets l !! bucketKey with
  | Some e =>
      let e := MkTpmEntry (tpm_limiter e) (tpm e) now (tpm_throttle e) in
      (st, l ⟦ tpmBuckets := <[bucketKey := e]> (tpmBuckets l) ⟧, Some e)
  | None =>
      match capMemos l !! bucketKey with
      | Some m =>
          if 0 <? memo_tpm m then
            let '(st, e) := newTPMEntry st (memo_tpm m) now in
            (st, l ⟦ tpmBuckets := <[bucketKey := e]> (tpmBuckets l) ⟧, Some e)
          else (st, l, None)
      | None => (st, l, None)
      end
  end.

(** The chunks, with what others do to the bucket before each of the two calls
    of a round; the list it returns is what each round took. *)
Fixpoint debitChunks (fuel : nat) (others : list ((B → B) * (B → B))) (now : Time) (remaining : Z) (b : B) :
    option (B * list Z) :=
  match fuel with
  | O => None
  | S fuel =>
      if remaining <=? 0 then Some (b, [])
      else
        let b := default id (fst <$> head others) b in
        let chunkCap := Burst b in
        if chunkCap <=? 0 then Some (b, [])
        else
          let n := Z.min remaining chunkCap in
          let b := default id (snd <$> head others) b in
          let '(b, r) := ReserveN b now n in
          if OK r then
            '(b, taken) ← debitChunks fuel (tail others) now (remaining - n) b; Some (b, n :: taken)
          else debitChunks fuel (tail others) now remaining b
  end.

(** With nothing interleaved each round takes a token at least. *)
Definition debitBucket (st : store) (l : TPMLimiter) (bucketKey : string) (tokens : Z) (now : Time) : store * TPMLimiter :=
  let '(st, l, e) := chargedEntry st l bucketKey now in
  match e with
  | None => (st, l)
  | Some e =>
      match debitChunks (S (Z.to_nat tokens)) [] now tokens (tpmBucket st e) with
      | Some (b, _) => (setBucket st (tpmView "" e) b, l)
      | None => (st, l)
      end
  end.

Definition Debit (st : store) (l : TPMLimiter) (keyHash ownerUserID : string) (tokens : Z) (now : Time) : store * TPMLimiter :=
  if tokens <=? 0 then (st, l)
  else
    let '(st, l) := debitBucket st l keyHash tokens now in
    if bool_decide (ownerUserID = "") then (st, l) else debitBucket st l (userBucketKey ownerUserID) tokens now.

Definition DebitUser (st : store) (l : TPMLimiter) (userID : string) (tokens : Z) (now : Time) : store * TPMLimiter :=
  if bool_decide (userID = "") || (tokens <=? 0) then (st, l) else debitBucket st l (userBucketKey userID) tokens now.

End tpm.

(** ** The limiter as a system *)

Record tpmSystem (B : Type) := MkTpmSystem {
  ts_store : rateStore B;
  ts_limiter : TPMLimiter;
  claims : list (string * Time)      (* of admissions, with their deadlines *)
}.
Arguments MkTpmSystem {B} _ _ _.
Arguments ts_store {B} _.
Arguments ts_limiter {B} _.
Arguments claims {B} _.

(** What admissions and charges do to a bucket. *)
Inductive uses {B R} `{!TokenBucket B R} (b : B) : B → Prop :=
| UseReserve t n : uses b (ReserveN b t n).1
| UseAllow t n : uses b (AllowN b t n).1
| UseCancel (r : R) t : uses b (CancelAt b r t).

Inductive tpmStep {B R} `{!TokenBucket B R} (y : tpmSystem B) : tpmSystem B → Prop :=
| StepClaim key cap horizon now st l e :
    0 < cap → metered (tpmRate cap) = true → getEntry (ts_store y) (ts_limiter y) key cap horizon now = (st, l, e) →
    tpmStep y (MkTpmSystem st l ((key, now + horizon) :: claims y))
| StepUse e b :
    is_Some (buckets (ts_store y) !! limiter e) → uses (R := R) (bucketOf (ts_store y) e) b →
    tpmStep y (MkTpmSystem (setBucket (ts_store y) e b) (ts_limiter y) (claims y))
| StepCharge key tokens now st l :
    debitBucket (R := R) (ts_store y) (ts_limiter y) key tokens now = (st, l) → tpmStep y (MkTpmSystem st l (claims y))
| StepSweep now st l lines :
    tpmCleanup (ts_store y) (ts_limiter y) now = (st, l, lines) →
    tpmStep y (MkTpmSystem st l (filter (fun c => now ≤ c.2) (claims y)))
| StepHorizon l :
    tpmBuckets l = tpmBuckets (ts_limiter y) → capMemos l = capMemos (ts_limiter y) →
    tpmStep y (MkTpmSystem (ts_store y) l (claims y))
| StepEpisode e f : tpmStep y (MkTpmSystem (onThrottle (ts_store y) e f).1 (ts_limiter y) (claims y)).

Inductive tpmReachable {B R} `{!TokenBucket B R} : tpmSystem B → Prop :=
| TpmNew : tpmReachable (MkTpmSystem newStore newTPMLimiter [])
| TpmStep y y' : tpmReachable y → tpmStep (R := R) y y' → tpmReachable y'.

(** A bucket that meters: others may edit it, not switch it off. *)
Definition meters {B R} `{!TokenBucket B R} (b : B) : Prop := metered (Limit b) = true ∧ 0 < Burst b.

Definition total (l : list Z) : Z := foldr Z.add 0 l.

(** A key admitted under 600 tokens a minute, on a gateway whose requests may
    live for a day; ten idle minutes later the sweep takes its bucket. *)
Definition demoClaimed : rateStore plainBucket * TPMLimiter * tpmEntry :=
  getEntry newStore newTPMLimiter "key" 600 minCapMemoTTL demoNow.

Definition demoAdmitted : tpmSystem plainBucket :=
  MkTpmSystem demoClaimed.1.1 demoClaimed.1.2 [("key", demoNow + minCapMemoTTL)].

Definition demoSweep : rateStore plainBucket * TPMLimiter * list throttleLine :=
  tpmCleanup (ts_store demoAdmitted) (ts_limiter demoAdmitted) (demoNow + 11 * Minute).

Definition demoEvicted : tpmSystem plainBucket :=
  MkTpmSystem demoSweep.1.1 demoSweep.1.2 (filter (fun c => demoNow + 11 * Minute ≤ c.2) (claims demoAdmitted)).

Section proofs.
Context {B R : Type} `{!TokenBucket B R, !TokenBucketLaws B R}.
Implicit Types (st : rateStore B) (y : tpmSystem B).

(** ** Lemmas: chunks *)

Definition polite (others : list ((B → B) * (B → B))) : Prop :=
  Forall (fun f => ∀ b, meters b → meters (f.1 b) ∧ meters (f.2 b)) others.

Lemma meters_reserve (b : B) t n : meters b → meters (ReserveN b t n).1.
Proof. intros [Hm Hb]. split; [by rewrite Limit_ReserveN|by rewrite Burst_ReserveN]. Qed.

Lemma polite_head others b : polite others → meters b →
  meters (default id (fst <$> head others) b) ∧ meters (default id (snd <$> head others) b) ∧ polite (tail others).
Proof.
  intros Ho Hb. destruct Ho as [|f others Hf Ho]; cbn; [split; [done|]; split; [done|constructor]|].
  destruct (Hf b Hb). done.
Qed.

Lemma debitChunks_spec fuel others now tokens b :
  polite others → meters b → (length others + Z.to_nat tokens < fuel)%nat →
  ∃ b' taken, debitChunks fuel others now tokens b = Some (b', taken) ∧ meters b' ∧
    total taken = Z.max 0 tokens ∧ Forall (fun n => 0 < n) taken.
Proof.
  revert others tokens b. induction fuel as [|fuel IH]; intros others tokens b Ho Hb Hf; [lia|]. cbn [debitChunks].
  destruct (Z.leb_spec tokens 0); [exists b, []; repeat split; try done; [apply Hb|apply Hb|cbn; lia]|].
  destruct (polite_head _ b Ho Hb) as (H1 & _ & Ho'). set (b1 := default id _ b) in *.
  destruct (Z.leb_spec (Burst b1) 0); [destruct H1; lia|].
  destruct (polite_head _ b1 Ho H1) as (_ & H2 & _). set (b2 := default id _ b1) in *.
  set (n := Z.min tokens (Burst b1)). pose proof (meters_reserve b2 now n H2) as H3.
  pose proof (ReserveN_OK b2 now n ltac:(apply H2)) as Hok. destruct (ReserveN b2 now n) as [b3 r]. cbn in H3, Hok.
  destruct (OK r).
  - destruct (IH (tail others) (tokens - n) b3 Ho' H3) as (b' & taken & E & Hb' & Ht & Hpos).
    { destruct others; cbn in *; lia. }
    rewrite E. cbn. exists b', (n :: taken). repeat split; try done; [apply Hb'|apply Hb'| |by constructor; [lia|]].
    cbn. fold (total taken). rewrite Ht. lia.
  - apply (IH (tail others)); [done|done|]. destruct others as [|f others]; cbn in *; [|lia].
    symmetry in Hok. apply Z.leb_gt in Hok. unfold n, b2, b1 in Hok. cbn in Hok. lia.
Qed.

(** ** Lemmas: the invariant *)

Record tpm_inv (y : tpmSystem B) : Prop := {
  ti_meters : map_Forall (fun _ b => meters b) (buckets (ts_store y));
  ti_entries : map_Forall (fun _ e => is_Some (buckets (ts_store y) !! tpm_limiter e)) (tpmBuckets (ts_limiter y));
  ti_memos : map_Forall (fun _ m => 0 < memo_tpm m ∧ metered (tpmRate (memo_tpm m)) = true) (capMemos (ts_limiter y));
  ti_claims : Forall (fun c => ∃ m, capMemos (ts_limiter y) !! c.1 = Some m ∧ c.2 ≤ expiresAt m) (claims y)
}.

Lemma tpmBucket_meters st e :
  map_Forall (fun _ b => meters b) (buckets st) → is_Some (buckets st !! tpm_limiter e) → meters (tpmBucket st e).
Proof. intros Hm [b Hb]. unfold tpmBucket, bucketOf. cbn. rewrite Hb. cbn. by eapply Hm. Qed.

(** A bucket replaced by one that meters, or added. *)
Lemma meters_insert st p b :
  map_Forall (fun _ b => meters b) (buckets st) → meters b → map_Forall (fun _ b => meters b) (<[p := b]> (buckets st)).
Proof. intros Hm Hb. by apply map_Forall_insert_2. Qed.

Lemma entries_insert st (entries : gmap string tpmEntry) p b :
  map_Forall (fun _ e => is_Some (buckets st !! tpm_limiter e)) entries →
  map_Forall (fun _ e => is_Some (<[p := b]> (buckets st) !! tpm_limiter e)) entries.
Proof.
  intros H k e He. specialize (H k e He). cbn in *. destruct (decide (p = tpm_limiter e)) as [->|Hne].
  - rewrite lookup_insert_eq. by eexists.
  - by rewrite lookup_insert_ne.
Qed.

Lemma meters_new cap : 0 < cap → metered (tpmRate cap) = true → meters (NewBucket (tpmRate cap) cap : B).
Proof. intros Hc Hm. split; [by rewrite Limit_NewBucket|by rewrite Burst_NewBucket]. Qed.

Lemma onThrottle_buckets st e f : buckets (onThrottle st e f).1 = buckets st.
Proof. unfold onThrottle. by destruct (f _). Qed.

Lemma tpm_inv_set y e b :
  meters b → tpm_inv y → tpm_inv (MkTpmSystem (setBucket (ts_store y) e b) (ts_limiter y) (claims y)).
Proof. intros Hb []. split; cbn; try done; [by apply meters_insert|by apply entries_insert]. Qed.

Lemma tpm_inv_throttle y e f : tpm_inv y → tpm_inv (MkTpmSystem (onThrottle (ts_store y) e f).1 (ts_limiter y) (claims y)).
Proof. intros []. split; cbn; rewrite ?onThrottle_buckets; done. Qed.

Lemma uses_meters (b b' : B) : meters b → uses (R := R) b b' → meters b'.
Proof.
  intros Hb Hu. destruct Hu as [t n|t n|r t]; [by apply meters_reserve| |].
  - rewrite AllowN_ReserveN. destruct (_ && _); [by apply meters_reserve|done].
  - destruct Hb. split; [by rewrite Limit_CancelAt|by rewrite Burst_CancelAt].
Qed.

Lemma tpm_inv_claim y key cap horizon now st l e :
  0 < cap → metered (tpmRate cap) = true → getEntry (ts_store y) (ts_limiter y) key cap horizon now = (st, l, e) → tpm_inv y →
  tpm_inv (MkTpmSystem st l ((key, now + horizon) :: claims y)).
Proof.
  intros Hc Hm Hget []. unfold getEntry in Hget.
  destruct (match tpmBuckets _ !! key with Some _ => _ | None => _ end) as [st1 e1] eqn:E. injection Hget as <- <- <-.
  assert (map_Forall (fun _ b => meters b) (buckets st1) ∧ is_Some (buckets st1 !! tpm_limiter e1) ∧
    map_Forall (fun _ e => is_Some (buckets st1 !! tpm_limiter e)) (tpmBuckets (ts_limiter y))) as (H1 & H2 & H3).
  { destruct (tpmBuckets (ts_limiter y) !! key) as [e0|] eqn:He0.
    - pose proof (ti_entries0 _ _ He0) as Hs. cbn in Hs. destruct (negb _); [|by injection E as <- <-].
      unfold tpmWithCap in E. injection E as <- <-. cbn. split; [apply meters_insert; [done|]|split; [|by apply entries_insert]].
      + split; [by rewrite Limit_SetBurst, Limit_SetLimit|by rewrite Burst_SetBurst].
      + rewrite lookup_insert_eq. by eexists.
    - unfold newTPMEntry in E. injection E as <- <-. cbn. split; [by apply meters_insert; [|apply meters_new]|].
      split; [rewrite lookup_insert_eq; by eexists|by apply entries_insert]. }
  split; cbn; [done|by apply map_Forall_insert_2| |].
  - apply map_Forall_insert_2; [|done]. by destruct (capMemos _ !! key).
  - set (memo := match capMemos _ !! key with Some _ => _ | None => _ end).
    assert (now + horizon ≤ expiresAt memo ∧ ∀ m, capMemos (ts_limiter y) !! key = Some m → expiresAt m ≤ expiresAt memo) as [Hnew Hold].
    { unfold memo, After, Add. destruct (capMemos _ !! key) as [m|]; cbn; [|split; [lia|done]].
      destruct (Z.ltb_spec (expiresAt m) (now + horizon)); split; try lia; intros ? [= <-]; lia. }
    constructor; [exists memo; cbn; by rewrite lookup_insert_eq|]. eapply Forall_impl; [exact ti_claims0|].
    intros [k d] (m & Hk & Hd). cbn in *. destruct (decide (key = k)) as [<-|Hne].
    + exists memo. rewrite lookup_insert_eq. split; [done|]. specialize (Hold m Hk). lia.
    + exists m. by rewrite lookup_insert_ne.
Qed.

(** Where a charge goes while a claim is live. *)
Lemma chargedEntry_spec y key now :
  tpm_inv y →
  let '(st, l, e) := chargedEntry (ts_store y) (ts_limiter y) key now in
  tpm_inv (MkTpmSystem st l (claims y)) ∧
  (∀ e', e = Some e' → is_Some (buckets st !! tpm_limiter e')) ∧
  ((∃ d, (key, d) ∈ claims y) → is_Some e).
Proof.
  intros []. unfold chargedEntry. destruct (tpmBuckets (ts_limiter y) !! key) as [e0|] eqn:He0.
  - pose proof (ti_entries0 _ _ He0) as Hs. cbn in Hs. split; [|split; [by intros ? [= <-]|by eexists]].
    split; cbn; try done. by apply map_Forall_insert_2.
  - destruct (capMemos (ts_limiter y) !! key) as [m|] eqn:Hk.
    + destruct (ti_memos0 _ _ Hk) as [Hpos Hm]. rewrite (proj2 (Z.ltb_lt _ _)) by done. cbn.
      split; [|split; [intros ? [= <-]; cbn; rewrite lookup_insert_eq; by eexists|by eexists]].
      split; cbn; try done; [by apply meters_insert; [|apply meters_new]|].
      apply map_Forall_insert_2; [cbn; rewrite lookup_insert_eq; by eexists|by apply entries_insert].
    + split; [by split|]. split; [done|]. intros [d Hd]. rewrite Forall_forall in ti_claims0.
      destruct (ti_claims0 _ Hd) as (m & Hm & _). cbn in Hm. congruence.
Qed.

Lemma tpm_inv_charge y key tokens now st l :
  debitBucket (R := R) (ts_store y) (ts_limiter y) key tokens now = (st, l) → tpm_inv y → tpm_inv (MkTpmSystem st l (claims y)).
Proof.
  intros Hd Hinv. unfold debitBucket in Hd. pose proof (chargedEntry_spec y key now Hinv) as Hc.
  destruct (chargedEntry _ _ key now) as [[st1 l1] [e|]]; destruct Hc as (Hinv1 & Hs & _); [|by injection Hd as <- <-].
  destruct (debitChunks_spec (S (Z.to_nat tokens)) [] now tokens (tpmBucket st1 e)) as (b' & taken & E & Hb' & _).
  - constructor.
  - apply tpmBucket_meters; [apply Hinv1|by apply Hs].
  - cbn. lia.
  - rewrite E in Hd. injection Hd as <- <-. by apply (tpm_inv_set (MkTpmSystem st1 l1 (claims y))).
Qed.

Lemma tpmCleanup_spec st l now :
  let '(st', l', _) := tpmCleanup st l now in
  buckets st' = buckets st ∧ tpmBuckets l' ⊆ tpmBuckets l ∧
  capMemos l' = filter (fun x => After now (expiresAt x.2) = false) (capMemos l).
Proof.
  unfold tpmCleanup. set (cutoff := Add _ _).
  assert (let acc := map_fold (tpmCleanupStep cutoff) (st, tpmBuckets l, []) (tpmBuckets l) in
    buckets acc.1.1 = buckets st ∧ acc.1.2 ⊆ tpmBuckets l) as Hfold.
  { cbv zeta. apply (map_fold_weak_ind (fun acc _ => buckets acc.1.1 = buckets st ∧ acc.1.2 ⊆ tpmBuckets l)); [done|].
    intros key e m [[st1 entries] lines] _ [Hb Hs]. cbn in Hb, Hs. unfold tpmCleanupStep. destruct (Before _ _); [|done].
    set (f := fun t => endIfThrottled _ _ _ _). pose proof (onThrottle_buckets st1 (tpmView (tpmBucketLabel key) e) f) as Ho.
    destruct (onThrottle st1 _ f) as [st2 ended]. cbn in *. split; [congruence|]. etrans; [apply delete_subseteq|done]. }
  destruct (map_fold _ _ (tpmBuckets l)) as [[st' entries] lines]. cbn in *. by destruct Hfold.
Qed.

Lemma tpm_inv_sweep y now st l lines :
  tpmCleanup (ts_store y) (ts_limiter y) now = (st, l, lines) → tpm_inv y →
  tpm_inv (MkTpmSystem st l (filter (fun c => now ≤ c.2) (claims y))).
Proof.
  intros Hs []. pose proof (tpmCleanup_spec (ts_store y) (ts_limiter y) now) as H. rewrite Hs in H. destruct H as (Hb & Hsub & Hmemos).
  split; cbn; [by rewrite Hb| | |].
  - intros k e He. rewrite Hb. eapply ti_entries0. by eapply lookup_weaken.
  - rewrite Hmemos. intros k m [Hm _]%map_lookup_filter_Some. by eapply ti_memos0.
  - apply Forall_forall. intros [k d] [Hd Hin]%list_elem_of_filter. rewrite Forall_forall in ti_claims0.
    destruct (ti_claims0 _ Hin) as (m & Hm & Hle). cbn in *. exists m. split; [|done]. rewrite Hmemos.
    apply map_lookup_filter_Some. split; [done|]. cbn. unfold After. apply Z.ltb_ge. lia.
Qed.

Lemma tpm_reachable_inv y : tpmReachable (R := R) y → tpm_inv y.
Proof.
  induction 1 as [|y y' _ IH Hstep]; [by split|]. destruct Hstep.
  - by eapply tpm_inv_claim.
  - apply tpm_inv_set; [|done]. eapply uses_meters; [|done]. destruct H as [b0 Hb0]. unfold bucketOf. rewrite Hb0.
    by apply (ti_meters _ IH (limiter e)).
  - by eapply tpm_inv_charge.
  - by eapply tpm_inv_sweep.
  - destruct IH. split; cbn in *; rewrite ?H, ?H0; done.
  - by apply tpm_inv_throttle.
Qed.

End proofs.

(** ** Properties *)


Lemma demo_evicted_reachable : tpmReachable (R := plainReservation) demoEvicted.
Proof.
  apply (TpmStep demoAdmitted).
  - apply (TpmStep (MkTpmSystem newStore newTPMLimiter [])); [apply TpmNew|].
    apply (StepClaim (MkTpmSystem newStore newTPMLimiter []) "key" 600 minCapMemoTTL demoNow _ _ demoClaimed.2); [done|done|].
    unfold demoClaimed. by destruct (getEntry _ _ _ _ _ _) as [[st l] e].
  - apply (StepSweep demoAdmitted (demoNow + 11 * Minute) _ _ demoSweep.2). unfold demoSweep. by destruct (tpmCleanup _ _ _) as [[st l] e].
Qed.


(** A cap is remembered long enough, and no longer than a year. The horizon
    is between a day and a year, never overflows, grows with request_timeout,
    and below the ceiling is forty times that timeout, twice the longest life a
    request has. An admission claims at least what its read of the setting
    implies: exactly that if the read completed, and the longest horizon any
    read has produced if it timed out. That mark never falls. A slow read warns
    at most once an interval, unless the clock stepped back. *)
Lemma horizon_outlasts l r now t t' :
  let '(l', horizon, lines) := memoHorizon l r now in
  let claimed := capMemoTTL (default defaultRequestTimeout (read_value r)) in
  (minCapMemoTTL ≤ capMemoTTL t ≤ maxCapMemoTTL ∧ (t ≤ t' → capMemoTTL t ≤ capMemoTTL t') ∧
   (capMemoTimeoutFactor * t ≤ maxCapMemoTTL → capMemoTimeoutFactor * t ≤ capMemoTTL t)) ∧
  (claimed ≤ horizon ∧ horizon = if (readHorizon r).2 then Z.max claimed (lastGoodHorizon l) else claimed) ∧
  lastGoodHorizon l' = Z.max claimed (lastGoodHorizon l) ∧
  (lines ≠ [] → lastSlowReadWarn l = 0 ∨ Sub now (unixEpoch + lastSlowReadWarn l) < 0 ∨
                slowReadWarnInterval ≤ Sub now (unixEpoch + lastSlowReadWarn l)).
Proof.
  assert (∀ t, capMemoTTL t = Z.min maxCapMemoTTL (Z.max minCapMemoTTL (capMemoTimeoutFactor * t))) as Hclosed.
  { intros u. unfold capMemoTTL. change (Z.quot maxCapMemoTTL capMemoTimeoutFactor) with 788400000000000.
    change maxCapMemoTTL with 31536000000000000. change minCapMemoTTL with 86400000000000. change capMemoTimeoutFactor with 40.
    destruct (Z.leb_spec u 0); [lia|]. destruct (Z.ltb_spec 788400000000000 u); [lia|].
    rewrite wrap64_id by (unfold in_int64, int64_min, int64_max; lia). lia. }
  unfold memoHorizon. destruct (readHorizon r) as [h timedOut] eqn:Hr. unfold readHorizon in Hr. injection Hr as Hh _.
  set (l1 := rememberHorizon l h).
  assert (lastGoodHorizon l1 = Z.max h (lastGoodHorizon l) ∧ lastSlowReadWarn l1 = lastSlowReadWarn l) as [Hmark Hstamp]
    by (unfold l1, rememberHorizon; destruct (Z.leb_spec h (lastGoodHorizon l)); cbn; split; done || lia).
  rewrite Hh. cbn [snd]. clearbody l1.
  assert (minCapMemoTTL ≤ capMemoTTL t ≤ maxCapMemoTTL ∧ (t ≤ t' → capMemoTTL t ≤ capMemoTTL t') ∧
   (capMemoTimeoutFactor * t ≤ maxCapMemoTTL → capMemoTimeoutFactor * t ≤ capMemoTTL t)) as Hbounds
    by (rewrite !Hclosed; unfold maxCapMemoTTL, minCapMemoTTL, capMemoTimeoutFactor, Hour, Minute, Second; lia).
  destruct timedOut; cbn [negb]; [|by repeat split; try done; try apply Hbounds; lia].
  assert ((if h <? lastGoodHorizon l1 then lastGoodHorizon l1 else h) = Z.max h (lastGoodHorizon l)) as Hmax
    by (rewrite Hmark; destruct (Z.ltb_spec h (Z.max h (lastGoodHorizon l))); lia).
  rewrite Hmax. unfold warnedSlowRead. rewrite Hstamp, Z.eqb_refl.
  destruct (negb (lastSlowReadWarn l =? 0) && _ && _) eqn:Hwarn; cbn -[capMemoTTL].
  - repeat split; try done; try apply Hbounds; lia.
  - rewrite Hmark. repeat split; try done; try apply Hbounds; try lia.
Qed.
