(* ===== verification/Calendar.v ===== *)
(** * Budget periods (internal/budget/budget.go)

    The calendar windows a budget runs over, all UTC: [PeriodStart] and
    [PeriodEnd] over the proleptic Gregorian calendar of package time. A
    [Time] counts nanoseconds from 0001-01-01, a Monday, so a day number is its
    quotient by a day's length. *)

From S2P Require Import Prelude.

(** ** The Gregorian calendar, as package time has it *)

Definition Day : Duration := 24 * Hour.

Definition leap (y : Z) : bool := (y `mod` 4 =? 0) && (negb (y `mod` 100 =? 0) || (y `mod` 400 =? 0)).

Definition monthLengths (y : Z) : list Z :=
  [31; if leap y then 29 else 28; 31; 30; 31; 30; 31; 31; 30; 31; 30; 31].

(** Days from 0001-01-01 to the first of January of year [y]. *)
Definition daysBeforeYear (y : Z) : Z :=
  let n := y - 1 in 365 * n + n / 4 - n / 100 + n / 400.

Definition total (l : list Z) : Z := foldr Z.add 0 l.

Definition daysBeforeMonth (y m : Z) : Z := total (take (Z.to_nat (m - 1)) (monthLengths y)).

(** [time.Date] at midnight UTC, as a day number: months and days out of range
    carry over. *)
Definition daysOf (y m d : Z) : Z :=
  let y := y + (m - 1) / 12 in
  let m := (m - 1) `mod` 12 + 1 in
  daysBeforeYear y + daysBeforeMonth y m + (d - 1).

Definition yearOf (days : Z) : Z :=
  let y := days * 400 / 146097 + 1 in
  if days <? daysBeforeYear y then y - 1
  else if daysBeforeYear (y + 1) <=? days then y + 1 else y.

Fixpoint monthIn (lengths : list Z) (m yday : Z) : Z * Z :=
  match lengths with
  | [] => (m, yday)
  | n :: lengths => if yday <? n then (m, yday) else monthIn lengths (m + 1) (yday - n)
  end.

(** [Time.Date]. *)
Definition dateOf (days : Z) : Z * Z * Z :=
  let y := yearOf days in
  let '(m, d) := monthIn (monthLengths y) 1 (days - daysBeforeYear y) in
  (y, m, d + 1).

(** [Time.Weekday]: Sunday is 0. *)
Definition Weekday (days : Z) : Z := (days + 1) `mod` 7.

Definition dayOf (t : Time) : Z := t / Day.

(** ** budget.go *)

Definition PeriodDay : string := "day".
Definition PeriodWeek : string := "week".
Definition PeriodMonth : string := "month".

Definition PeriodStart (period : string) (now : Time) : Time :=
  let '(y, m, d) := dateOf (dayOf now) in
  if bool_decide (period = PeriodWeek) then
    let back := (Weekday (dayOf now) + 6) `mod` 7 in
    daysOf y m (d - back) * Day
  else if bool_decide (period = PeriodMonth) then daysOf y m 1 * Day
  else daysOf y m d * Day.

Definition PeriodEnd (period : string) (now : Time) : Time :=
  let start := PeriodStart period now in
  let '(y, m, d) := dateOf (dayOf start) in
  if bool_decide (period = PeriodWeek) then daysOf y m (d + 7) * Day
  else if bool_decide (period = PeriodMonth) then daysOf y (m + 1) d * Day
  else daysOf y m (d + 1) * Day.

(** ** Lemmas: years *)

Lemma daysBeforeYear_next y : daysBeforeYear (y + 1) = daysBeforeYear y + (if leap y then 366 else 365).
Proof.
  unfold daysBeforeYear, leap. replace (y + 1 - 1) with y by lia.
  destruct (Z.eqb_spec (y `mod` 4) 0), (Z.eqb_spec (y `mod` 100) 0), (Z.eqb_spec (y `mod` 400) 0); cbn [andb orb negb];
    Z.to_euclidean_division_equations; lia.
Qed.

Lemma total_year y : total (monthLengths y) = if leap y then 366 else 365.
Proof. unfold monthLengths. by destruct (leap y). Qed.

Lemma yearOf_spec days :
  daysBeforeYear (yearOf days) ≤ days < daysBeforeYear (yearOf days + 1).
Proof.
  unfold yearOf. set (z := days * 400 / 146097).
  assert (146097 * z ≤ days * 400 < 146097 * z + 146097) as Hz by (unfold z; Z.to_euclidean_division_equations; lia).
  clearbody z. assert (daysBeforeYear (z + 1 - 1) ≤ days < daysBeforeYear (z + 1 + 1 + 1)) as Hb.
  { unfold daysBeforeYear. Z.to_euclidean_division_equations. lia. }
  destruct (Z.ltb_spec days (daysBeforeYear (z + 1))).
  - replace (z + 1 - 1 + 1) with (z + 1) by lia. lia.
  - destruct (Z.leb_spec (daysBeforeYear (z + 1 + 1)) days); lia.
Qed.

Lemma daysBeforeYear_mono y y' : y ≤ y' → daysBeforeYear y ≤ daysBeforeYear y'.
Proof. intros H. unfold daysBeforeYear. Z.to_euclidean_division_equations. lia. Qed.

Lemma yearOf_unique days y : daysBeforeYear y ≤ days < daysBeforeYear (y + 1) → yearOf days = y.
Proof.
  intros H. pose proof (yearOf_spec days) as H'. set (y' := yearOf days) in *. clearbody y'.
  destruct (Z.lt_trichotomy y y') as [Hlt|[<-|Hlt]]; [|done|].
  - pose proof (daysBeforeYear_mono (y + 1) y' ltac:(lia)). lia.
  - pose proof (daysBeforeYear_mono (y' + 1) y ltac:(lia)). lia.
Qed.

(** ** Lemmas: months *)

Lemma total_cons n l : total (n :: l) = n + total l.
Proof. done. Qed.

Lemma total_take_S l k n : l !! k = Some n → total (take (S k) l) = total (take k l) + n.
Proof.
  revert k. induction l as [|n' l IH]; intros k Hk; [done|]. destruct k as [|k]; simpl in Hk.
  - injection Hk as ->. cbn. destruct l; cbn; lia.
  - change (take (S (S k)) (n' :: l)) with (n' :: take (S k) l). change (take (S k) (n' :: l)) with (n' :: take k l).
    rewrite !total_cons, (IH _ Hk). lia.
Qed.

Lemma monthIn_at lengths k n m d :
  Forall (fun n => 0 < n) lengths → lengths !! k = Some n → 0 ≤ d < n →
  monthIn lengths m (total (take k lengths) + d) = (m + Z.of_nat k, d).
Proof.
  intros Hpos. revert k m. induction Hpos as [|n' l Hn' Hpos IH]; intros k m Hk Hd; [done|].
  destruct k as [|k]; simpl in Hk.
  - injection Hk as ->. cbn [monthIn take total foldr]. rewrite (proj2 (Z.ltb_lt _ _)) by lia. f_equal; lia.
  - cbn [monthIn take]. rewrite total_cons.
    assert (0 ≤ total (take k l)) as Ht.
    { clear -Hpos. revert k. induction Hpos as [|? ? ? ? IH]; intros [|k]; cbn; try lia. specialize (IH k). unfold total in IH. lia. }
    rewrite (proj2 (Z.ltb_ge _ _)) by lia. replace (n' + total (take k l) + d - n') with (total (take k l) + d) by lia.
    rewrite IH by done. f_equal. lia.
Qed.

Lemma monthIn_cover lengths yday :
  Forall (fun n => 0 < n) lengths → 0 ≤ yday < total lengths →
  ∃ k n d, lengths !! k = Some n ∧ 0 ≤ d < n ∧ yday = total (take k lengths) + d.
Proof.
  intros Hpos. revert yday. induction Hpos as [|n l Hn Hpos IH]; intros yday Hy; [cbn in Hy; lia|].
  rewrite total_cons in Hy. destruct (Z.ltb_spec yday n).
  - exists 0%nat, n, yday. cbn. split; [done|]. lia.
  - destruct (IH (yday - n)) as (k & n' & d & Hk & Hd & He); [lia|]. exists (S k), n', d.
    split; [done|]. split; [done|]. cbn [take]. rewrite total_cons. lia.
Qed.

Lemma monthLengths_pos y : Forall (fun n => 0 < n) (monthLengths y).
Proof. unfold monthLengths. destruct (leap y); repeat constructor. Qed.

Lemma monthLengths_bound y k n : monthLengths y !! k = Some n → 28 ≤ n ≤ 31 ∧ (k < 12)%nat.
Proof.
  intros Hk. apply lookup_lt_Some in Hk as Hl. split; [|exact Hl].
  assert (Forall (fun n => 28 ≤ n ≤ 31) (monthLengths y)) as Hf
    by (unfold monthLengths; destruct (leap y); repeat constructor; lia).
  rewrite Forall_lookup in Hf. by eapply Hf.
Qed.

(** ** Lemmas: dates *)

Lemma daysOf_month y k d : (k < 12)%nat →
  daysOf y (Z.of_nat k + 1) d = daysBeforeYear y + total (take k (monthLengths y)) + (d - 1).
Proof.
  intros Hk. unfold daysOf, daysBeforeMonth. replace (Z.of_nat k + 1 - 1) with (Z.of_nat k) by lia.
  rewrite Z.div_small, Z.mod_small by lia. replace (y + 0) with y by lia.
  replace (Z.of_nat k + 1 - 1) with (Z.of_nat k) by lia. by rewrite Nat2Z.id.
Qed.

(** The first of the month after month [k + 1]. *)
Lemma daysOf_next_month y k n d : monthLengths y !! k = Some n →
  daysOf y (Z.of_nat k + 2) d = daysOf y (Z.of_nat k + 1) d + n.
Proof.
  intros Hk. pose proof (monthLengths_bound _ _ _ Hk) as [_ Hl]. rewrite daysOf_month by done.
  destruct (decide (k = 11%nat)) as [->|Hne].
  - unfold daysOf. change ((Z.of_nat 11 + 2 - 1) / 12) with 1. change ((Z.of_nat 11 + 2 - 1) `mod` 12 + 1) with 1.
    rewrite daysBeforeYear_next, <- total_year. unfold daysBeforeMonth. change (take (Z.to_nat (1 - 1)) _) with (@nil Z).
    pose proof (total_take_S _ _ _ Hk) as Ht. change (take 12 (monthLengths y)) with (monthLengths y) in Ht. cbn [total foldr]. lia.
  - replace (Z.of_nat k + 2) with (Z.of_nat (S k) + 1) by lia. rewrite daysOf_month by lia.
    rewrite (total_take_S _ _ _ Hk). lia.
Qed.

(** Every day has one date, and every date one day. *)
Lemma dateOf_unique y k n d : monthLengths y !! k = Some n → 1 ≤ d ≤ n →
  dateOf (daysOf y (Z.of_nat k + 1) d) = (y, Z.of_nat k + 1, d).
Proof.
  intros Hk Hd. pose proof (monthLengths_bound _ _ _ Hk) as [_ Hl]. rewrite daysOf_month by done.
  set (yday := total (take k (monthLengths y)) + (d - 1)). unfold dateOf.
  assert (0 ≤ yday < total (monthLengths y)) as Hy.
  { unfold yday. clear -Hk Hd Hl. unfold monthLengths in *. destruct (leap y);
      do 12 (destruct k as [|k]; [cbn in *; simplify_eq; lia|]); lia. }
  replace (daysBeforeYear y + total (take k (monthLengths y)) + (d - 1)) with (daysBeforeYear y + yday) by (unfold yday; lia).
  rewrite (yearOf_unique _ y) by (rewrite daysBeforeYear_next, <- total_year; lia).
  replace (daysBeforeYear y + yday - daysBeforeYear y) with yday by lia. unfold yday.
  rewrite (monthIn_at _ k n) by (done || apply monthLengths_pos || lia). f_equal; [f_equal|]; lia.
Qed.

Lemma dateOf_cover days :
  ∃ y k n d, monthLengths y !! k = Some n ∧ 1 ≤ d ≤ n ∧ dateOf days = (y, Z.of_nat k + 1, d) ∧
    days = daysOf y (Z.of_nat k + 1) d.
Proof.
  pose proof (yearOf_spec days) as Hy. set (y := yearOf days) in *. rewrite daysBeforeYear_next, <- total_year in Hy.
  destruct (monthIn_cover (monthLengths y) (days - daysBeforeYear y)) as (k & n & d & Hk & Hd & He);
    [apply monthLengths_pos|lia|].
  pose proof (monthLengths_bound _ _ _ Hk) as [_ Hl].
  assert (days = daysOf y (Z.of_nat k + 1) (d + 1)) as Hdays by (rewrite daysOf_month by done; lia).
  exists y, k, n, (d + 1). split; [done|]. split; [lia|]. split; [|done].
  rewrite Hdays. apply (dateOf_unique _ _ n); [done|lia].
Qed.

Lemma daysOf_shift y m d k : daysOf y m (d + k) = daysOf y m d + k.
Proof. unfold daysOf. lia. Qed.

Lemma dayOf_midnight x : dayOf (x * Day) = x.
Proof. unfold dayOf. by apply Z.div_mul. Qed.

Lemma dayOf_bounds t : dayOf t * Day ≤ t < (dayOf t + 1) * Day.
Proof. unfold dayOf, Day, Hour, Minute, Second. Z.to_euclidean_division_equations. lia. Qed.

(** ** Periods in days *)

(** The first day of the period holding day [x], and how many days it has. *)
Definition periodDays (period : string) (x : Z) : Z * Z :=
  if bool_decide (period = PeriodWeek) then (x - x `mod` 7, 7)
  else if bool_decide (period = PeriodMonth) then
    let '(y, m, d) := dateOf x in (daysOf y m 1, daysOf y (m + 1) 1 - daysOf y m 1)
  else (x, 1).

Lemma periodDays_cover period x : (periodDays period x).1 ≤ x < (periodDays period x).1 + (periodDays period x).2.
Proof.
  unfold periodDays. repeat case_bool_decide; cbn [fst snd]; [Z.to_euclidean_division_equations; lia| |lia].
  destruct (dateOf_cover x) as (y & k & n & d & Hk & Hd & -> & Hx). cbn [fst snd].
  replace (Z.of_nat k + 1 + 1) with (Z.of_nat k + 2) by lia. rewrite (daysOf_next_month _ _ _ _ Hk).
  replace d with (1 + (d - 1)) in Hx by lia. rewrite daysOf_shift in Hx. lia.
Qed.

(** Days of one period agree on it. *)
Lemma periodDays_same period x x' :
  (periodDays period x).1 ≤ x' < (periodDays period x).1 + (periodDays period x).2 →
  periodDays period x' = periodDays period x.
Proof.
  unfold periodDays. repeat case_bool_decide; cbn [fst snd].
  - intros Hr. f_equal. Z.to_euclidean_division_equations. lia.
  - destruct (dateOf_cover x) as (y & k & n & d & Hk & Hd & -> & Hx). cbn [fst snd].
    replace (Z.of_nat k + 1 + 1) with (Z.of_nat k + 2) by lia. rewrite (daysOf_next_month _ _ _ _ Hk). intros H'.
    assert (x' = daysOf y (Z.of_nat k + 1) (1 + (x' - daysOf y (Z.of_nat k + 1) 1))) as -> by (rewrite daysOf_shift; lia).
    rewrite (dateOf_unique _ _ n) by (done || lia). cbn.
    replace (Z.of_nat k + 1 + 1) with (Z.of_nat k + 2) by lia. by rewrite (daysOf_next_month _ _ _ _ Hk).
  - intros H'. f_equal. lia.
Qed.

(** The day after a period opens the next. *)
Lemma periodDays_next period x : let '(a, n) := periodDays period x in (periodDays period (a + n)).1 = a + n.
Proof.
  unfold periodDays. repeat case_bool_decide; cbn [fst snd]; [Z.to_euclidean_division_equations; lia| |done].
  destruct (dateOf_cover x) as (y & k & n & d & Hk & Hd & -> & Hx). cbn [fst snd].
  replace (daysOf y (Z.of_nat k + 1) 1 + (daysOf y (Z.of_nat k + 1 + 1) 1 - daysOf y (Z.of_nat k + 1) 1))
    with (daysOf y (Z.of_nat k + 1 + 1) 1) by lia.
  destruct (monthLengths_bound _ _ _ Hk) as [_ Hl].
  assert (∃ y' k' n', monthLengths y' !! k' = Some n' ∧ daysOf y (Z.of_nat k + 1 + 1) 1 = daysOf y' (Z.of_nat k' + 1) 1)
    as (y' & k' & n' & Hk' & ->).
  { destruct (decide (k = 11%nat)) as [->|Hne].
    - exists (y + 1), 0%nat, 31. split; [done|].
      replace (Z.of_nat 11 + 1 + 1) with (Z.of_nat 11 + 2) by lia.
      rewrite (daysOf_next_month _ _ _ _ Hk), !daysOf_month by lia. rewrite daysBeforeYear_next, <- total_year.
      pose proof (total_take_S _ _ _ Hk) as Ht. change (take 12 (monthLengths y)) with (monthLengths y) in Ht.
      change (total (take 0 _)) with 0. lia.
    - destruct (lookup_lt_is_Some_2 (monthLengths y) (S k)) as [n' Hn']; [cbn; lia|].
      exists y, (S k), n'. split; [done|]. f_equal. lia. }
  pose proof (monthLengths_bound _ _ _ Hk') as [Hb _]. by rewrite (dateOf_unique _ _ n') by (done || lia).
Qed.

Lemma weekday_back x : (Weekday x + 6) `mod` 7 = x `mod` 7.
Proof. unfold Weekday. Z.to_euclidean_division_equations. lia. Qed.

Lemma PeriodStart_days period now : PeriodStart period now = (periodDays period (dayOf now)).1 * Day.
Proof.
  unfold PeriodStart, periodDays. destruct (dateOf_cover (dayOf now)) as (y & k & n & d & Hk & Hd & -> & Hx).
  rewrite weekday_back. repeat case_bool_decide; cbn [fst]; [|done|by rewrite Hx].
  replace (d - dayOf now `mod` 7) with (d + - (dayOf now `mod` 7)) by lia. rewrite daysOf_shift, <- Hx. done.
Qed.

Lemma PeriodEnd_days period now :
  PeriodEnd period now = ((periodDays period (dayOf now)).1 + (periodDays period (dayOf now)).2) * Day.
Proof.
  unfold PeriodEnd. rewrite PeriodStart_days, dayOf_midnight.
  set (a := (periodDays period (dayOf now)).1).
  assert (periodDays period a = periodDays period (dayOf now)) as Ha.
  { apply periodDays_same. pose proof (periodDays_cover period (dayOf now)). unfold a. lia. }
  assert ((periodDays period a).1 = a) as Ha1 by (by rewrite Ha). rewrite <- Ha. clearbody a. clear Ha.
  unfold periodDays in *. destruct (dateOf_cover a) as (y & k & n & d & Hk & Hd & Hda & Hx). rewrite Hda in *.
  repeat case_bool_decide; cbn [fst snd] in *.
  - rewrite daysOf_shift. f_equal. lia.
  - rewrite <- Ha1 in Hx at 1. replace d with (1 + (d - 1)) in Hx by lia. rewrite daysOf_shift in Hx. assert (d = 1) as -> by lia. f_equal. lia.
  - rewrite daysOf_shift. f_equal. lia.
Qed.

Lemma periodDays_start period x x' :
  (periodDays period x').1 = (periodDays period x).1 → periodDays period x' = periodDays period x.
Proof.
  intros Heq. pose proof (periodDays_cover period x). pose proof (periodDays_cover period x').
  rewrite <- (periodDays_same period x (periodDays period x).1) by lia.
  rewrite <- Heq. symmetry. apply periodDays_same. lia.
Qed.

Lemma periodDays_shape period x : let '(a, n) := periodDays period x in
  if bool_decide (period = PeriodWeek) then n = 7 ∧ Weekday a = 1
  else if bool_decide (period = PeriodMonth) then 28 ≤ n ≤ 31 ∧ (dateOf a).2 = 1 else n = 1.
Proof.
  unfold periodDays. repeat case_bool_decide; [|destruct (dateOf_cover x) as (y & k & n & d & Hk & Hd & -> & Hx)|done].
  - split; [done|]. unfold Weekday. Z.to_euclidean_division_equations. lia.
  - replace (Z.of_nat k + 1 + 1) with (Z.of_nat k + 2) by lia. rewrite (daysOf_next_month _ _ _ _ Hk).
    pose proof (monthLengths_bound _ _ _ Hk) as [Hb _]. split; [lia|]. by rewrite (dateOf_unique _ _ n) by (done || lia).
Qed.

Lemma midnight_range a b t : a * Day ≤ t < b * Day ↔ a ≤ dayOf t < b.
Proof.
  pose proof (dayOf_bounds t). assert (0 < Day) by done. set (x := dayOf t) in *. clearbody x. clear -H H0.
  split; intros; nia.
Qed.

Lemma period_bounds period now :
  PeriodStart period now ≤ now < PeriodEnd period now ∧ PeriodEnd period now ≤ now + 31 * Day.
Proof.
  rewrite PeriodStart_days, PeriodEnd_days. pose proof (periodDays_cover period (dayOf now)) as Hc.
  pose proof (periodDays_shape period (dayOf now)) as Hs. destruct (periodDays period (dayOf now)) as [a n]. cbn [fst snd] in *.
  assert (n ≤ 31) as Hn by (repeat case_bool_decide; lia). apply midnight_range in Hc as Hm. split; [exact Hm|].
  assert (0 < Day) by done. nia.
Qed.

Lemma period_same period now t : PeriodStart period now ≤ t < PeriodEnd period now → PeriodStart period t = PeriodStart period now.
Proof.
  rewrite !PeriodStart_days, PeriodEnd_days, midnight_range. intros Ht. by rewrite (periodDays_same period (dayOf now)).
Qed.

Lemma period_mono period t now : t ≤ now → PeriodStart period t ≤ PeriodStart period now.
Proof.
  intros Ht. pose proof (period_bounds period now). pose proof (period_bounds period t).
  destruct (Z.le_gt_cases (PeriodStart period t) (PeriodStart period now)); [done|].
  rewrite (period_same period now t) in *; lia.
Qed.

(** The epoch, a leap day and a month that carries over. *)
Lemma epoch_day : daysOf 1970 1 1 = 719162 ∧ Weekday (daysOf 1970 1 1) = 4.
Proof. done. Qed.

Lemma february_carries : dateOf (daysOf 2024 2 30) = (2024, 3, 1) ∧ dateOf (daysOf 2023 13 0) = (2023, 12, 31).
Proof. done. Qed.

(** ** Properties *)

(** Budget periods tile time: every instant lies in its period; the
    instants of one period - and no others - agree on where it starts and ends;
    the next period starts where it ends; a day is 24 hours, a week seven days
    from a Monday, a month 28 to 31 days from a first. *)
Lemma periods_tile period now :
  let start := PeriodStart period now in
  let stop := PeriodEnd period now in
  start ≤ now < stop ∧
  (∀ t, start ≤ t < stop ↔ PeriodStart period t = start) ∧
  (∀ t, PeriodStart period t = start → PeriodEnd period t = stop) ∧
  PeriodStart period stop = stop ∧
  (if bool_decide (period = PeriodWeek) then stop - start = 7 * Day ∧ Weekday (dayOf start) = 1
   else if bool_decide (period = PeriodMonth) then 28 * Day ≤ stop - start ≤ 31 * Day ∧ (dateOf (dayOf start)).2 = 1
   else stop - start = Day).
Proof.
  cbv zeta. rewrite PeriodStart_days, PeriodEnd_days.
  pose proof (periodDays_cover period (dayOf now)) as Hc. pose proof (periodDays_next period (dayOf now)) as Hnext.
  pose proof (periodDays_same period (dayOf now)) as Hsame.
  destruct (periodDays period (dayOf now)) as [a n] eqn:Hp. cbn [fst snd] in *.
  assert (0 < Day) as HD by done.
  assert (∀ t, PeriodStart period t = a * Day → periodDays period (dayOf t) = (a, n)) as Hback.
  { intros t. rewrite PeriodStart_days. intros Ht%Z.mul_cancel_r; [|lia].
    rewrite <- Hp. apply periodDays_start. by rewrite Ht, Hp. }
  split; [by apply midnight_range|]. split.
  { intros t. rewrite midnight_range. split; [intros Ht; by rewrite PeriodStart_days, Hsame|].
    intros Ht%Hback. pose proof (periodDays_cover period (dayOf t)) as Hct. by rewrite Ht in Hct. }
  split; [intros t Ht; by rewrite PeriodEnd_days, (Hback t Ht)|].
  split; [by rewrite PeriodStart_days, dayOf_midnight, Hnext|].
  rewrite dayOf_midnight. pose proof (periodDays_shape period (dayOf now)) as Hs. rewrite Hp in Hs.
  repeat case_bool_decide; [destruct Hs as [-> ?]|destruct Hs as [? ?]|subst n]; try split; try done; nia.
Qed.
