(* ===== verification/Budget.v ===== *)
(** * Spend budgets (internal/budget/limiter.go)

    One subject's spend in the current period, as the limiter keeps it, and the
    admission that reads it. Every definition that touches an [entry] is one
    critical section of its mutex: what runs between two of them - a read of
    the store, a detached reload - is a step of the system in BudgetSystem.v.

    Dollars are exact: a figure is a whole number of a unit finer than any
    price, and the rounding of float64 sums is left out. *)

From S2P Require Import Prelude Calendar.

Abbreviation Dollars := Z (only parsing).

(** ** Data *)

Record Budget := MkBudget { budget_USD : Dollars; budget_Period : string }.

#[export] Instance Budget_eq_dec : EqDecision Budget.
Proof. solve_decision. Defined.

Record Subject := MkSubject {
  subject_Kind : string;
  subject_ID : string;
  subject_Name : string;
  subject_Budget : Budget
}.

Definition KindKey : string := "key".
Definition KindUser : string := "user".

Definition refreshInterval : Duration := Minute.
Definition retryInterval : Duration := 5 * Second.
Definition maxOverlappedReloads : Z := 3.

Record entry := MkEntry {
  periodStart : Time;
  judged : Budget;
  spent : Dollars;
  loadedAt : Time;
  failedAt : Time;
  reloading : bool;
  overlapped : Z;
  chargeSeq : Z;                 (* a uint64 no run of charges wraps *)
  chargedSince : Dollars;
  warned : bool;
  exceeded : bool
}.

Definition entry_eta (e : entry) : entry :=
  MkEntry (periodStart e) (judged e) (spent e) (loadedAt e) (failedAt e) (reloading e) (overlapped e)
    (chargeSeq e) (chargedSince e) (warned e) (exceeded e).
#[export] Instance upd_periodStart : Updater periodStart := ltac:(derive_updater entry_eta).
#[export] Instance upd_judged : Updater judged := ltac:(derive_updater entry_eta).
#[export] Instance upd_spent : Updater spent := ltac:(derive_updater entry_eta).
#[export] Instance upd_loadedAt : Updater loadedAt := ltac:(derive_updater entry_eta).
#[export] Instance upd_failedAt : Updater failedAt := ltac:(derive_updater entry_eta).
#[export] Instance upd_reloading : Updater reloading := ltac:(derive_updater entry_eta).
#[export] Instance upd_overlapped : Updater overlapped := ltac:(derive_updater entry_eta).
#[export] Instance upd_chargeSeq : Updater chargeSeq := ltac:(derive_updater entry_eta).
#[export] Instance upd_chargedSince : Updater chargedSince := ltac:(derive_updater entry_eta).
#[export] Instance upd_warned : Updater warned := ltac:(derive_updater entry_eta).
#[export] Instance upd_exceeded : Updater exceeded := ltac:(derive_updater entry_eta).

Definition newEntry : entry := MkEntry zeroTime (MkBudget 0 "") 0 zeroTime zeroTime false 0 0 0 false false.

(** [budget.warning] and [budget.exceeded]. *)
Inductive budgetEventKind := BudgetWarning | BudgetExceeded.
Record budgetEvent := MkBudgetEvent {
  be_kind : budgetEventKind;
  be_subject : Subject;
  be_spent : Dollars;
  be_periodEnd : Time
}.

Definition publish (kind : budgetEventKind) (s : Subject) (spent : Dollars) (now : Time) : budgetEvent :=
  MkBudgetEvent kind s spent (PeriodEnd (budget_Period (subject_Budget s)) now).

(** ** Refreshing an entry *)

(** What a critical section of [refresh] comes to: the figure known or not; a
    read of the store wanted, with the lock released; or a figure served as it
    stands while a reload of charge sequence [seq] runs detached. *)
Inductive refreshStep :=
| RefreshKnown (known : bool)
| RefreshRead (start : Time)
| RefreshServe (start : Time) (seq : Z).

(** A period that rolled starts from zero. *)
Definition roll (e : entry) (start : Time) : entry :=
  if Equal (periodStart e) start then e
  else
    e ⟦ periodStart := start ⟧ ⟦ spent := 0 ⟧ ⟦ loadedAt := zeroTime ⟧ ⟦ failedAt := zeroTime ⟧
      ⟦ reloading := false ⟧ ⟦ overlapped := 0 ⟧ ⟦ warned := false ⟧ ⟦ exceeded := false ⟧.

Definition refresh (s : Subject) (e : entry) (now : Time) : entry * refreshStep :=
  let start := PeriodStart (budget_Period (subject_Budget s)) now in
  let e := roll e start in
  if IsZero (loadedAt e) then
    if negb (IsZero (failedAt e)) && (Sub now (failedAt e) <? retryInterval) then (e, RefreshKnown false)
    else (e, RefreshRead start)
  else if (Sub now (loadedAt e) <? refreshInterval) || reloading e then (e, RefreshKnown true)
  else (e ⟦ reloading := true ⟧ ⟦ chargedSince := 0 ⟧, RefreshServe start (chargeSeq e)).

(** [warnFraction] is 0.8. *)
Definition pastWarning (b : Budget) (spent : Dollars) : bool := 4 * budget_USD b <=? 5 * spent.
Definition pastBudget (b : Budget) (spent : Dollars) : bool := budget_USD b <=? spent.

(** The lock taken again after a first-sight read of [start]: [None] is a
    period that rolled meanwhile, to be judged afresh. *)
Definition landRead (s : Subject) (e : entry) (start now : Time) (res : option Dollars) : entry * option bool :=
  if negb (Equal (periodStart e) start) then (e, None)
  else if negb (IsZero (loadedAt e)) then (e, Some true)
  else match res with
  | None => (e ⟦ failedAt := now ⟧, Some false)
  | Some sum =>
      (e ⟦ spent := sum ⟧ ⟦ loadedAt := now ⟧ ⟦ judged := subject_Budget s ⟧
         ⟦ warned := pastWarning (subject_Budget s) sum ⟧ ⟦ exceeded := pastBudget (subject_Budget s) sum ⟧,
       Some true)
  end.

(** A reload that landed at [now]: [Some seq] runs it again at that sequence. *)
Definition reload (e : entry) (start : Time) (seq : Z) (now : Time) (res : option Dollars) : entry * option Z :=
  let settled e := e ⟦ reloading := false ⟧ ⟦ overlapped := 0 ⟧ ⟦ chargedSince := 0 ⟧ in
  if negb (Equal (periodStart e) start) then (settled e, None)
  else match res with
  | None => ((settled e) ⟦ loadedAt := now ⟧, None)
  | Some sum =>
      if negb (chargeSeq e =? seq) && (overlapped e <? maxOverlappedReloads) then
        (e ⟦ overlapped := overlapped e + 1 ⟧ ⟦ chargedSince := 0 ⟧, Some (chargeSeq e))
      else if negb (chargeSeq e =? seq) then
        ((settled (e ⟦ spent := sum + chargedSince e ⟧)) ⟦ loadedAt := now ⟧, None)
      else ((settled (e ⟦ spent := sum ⟧)) ⟦ loadedAt := now ⟧, None)
  end.

Definition charge (e : entry) (cost : Dollars) (at_ : Time) : entry :=
  if negb (IsZero (loadedAt e)) && (IsZero at_ || negb (Before at_ (periodStart e))) then
    let e := e ⟦ spent := spent e + cost ⟧ ⟦ chargeSeq := chargeSeq e + 1 ⟧ in
    if reloading e then e ⟦ chargedSince := chargedSince e + cost ⟧ else e
  else e.

(** ** Judging a known figure *)

(** [admit], once the figure is current: whether it is under budget. *)
Definition judge (s : Subject) (e : entry) (now : Time) : entry * list budgetEvent * bool :=
  let b := subject_Budget s in
  let e := if negb (bool_decide (judged e = b))
           then e ⟦ judged := b ⟧ ⟦ warned := false ⟧ ⟦ exceeded := false ⟧ else e in
  if pastBudget b (spent e) then
    if negb (exceeded e) then (e ⟦ exceeded := true ⟧, [publish BudgetExceeded s (spent e) now], false)
    else (e, [], false)
  else if negb (warned e) && pastWarning b (spent e) then
    (e ⟦ warned := true ⟧, [publish BudgetWarning s (spent e) now], true)
  else (e, [], true).

(** ** One request at a time *)

(** The store, as one process sees it: a subject's sum since an instant, or a
    fault. *)
Definition SpendSource : Type := string → string → Time → option Dollars.

(** What [admit] reports: the spend, whether it is known, whether it is under
    budget; and the reload it left running. *)
Record admission := MkAdmission {
  adm_spent : Dollars;
  adm_known : bool;
  adm_ok : bool
}.

(** What leaves the critical sections: events, and a reload left running. *)
Inductive effect :=
| Published (ev : budgetEvent)
| Spawned (s : Subject) (start : Time) (seq : Z).

(** [refresh] with nothing interleaved: whether the figure is known. *)
Definition refreshed (source : SpendSource) (s : Subject) (e : entry) (now : Time) : entry * list effect * bool :=
  let '(e, step) := refresh s e now in
  match step with
  | RefreshKnown known => (e, [], known)
  | RefreshServe start seq => (e, [Spawned s start seq], true)
  | RefreshRead start =>
      let '(e, known) := landRead s e start now (source (subject_Kind s) (subject_ID s) start) in
      (e, [], default false known)
  end.

Definition admitSubject (source : SpendSource) (s : Subject) (e : entry) (now : Time) : entry * list effect * admission :=
  let '(e, effs, known) := refreshed source s e now in
  if (known : bool) then
    let '(e, evs, ok) := judge s e now in (e, effs ++ (Published <$> evs), MkAdmission (spent e) true ok)
  else (e, effs, MkAdmission 0 false false).

(** The dashboard's reading: refreshed, never judged. *)
Definition Spent (source : SpendSource) (s : Subject) (e : entry) (now : Time) : entry * list effect * option Dollars :=
  let '(e, effs, known) := refreshed source s e now in (e, effs, if (known : bool) then Some (spent e) else None).

(** ** The middleware *)

Inductive gateAnswer :=
| Served
| Unavailable (s : Subject)                                        (* 503 *)
| Exceeded (s : Subject) (spent : Dollars) (retryAfter : Z).       (* 429 *)

Definition entryKey (s : Subject) : string := subject_Kind s +:+ ":" +:+ subject_ID s.

Definition entryOf (entries : gmap string entry) (s : Subject) : entry := default newEntry (entries !! entryKey s).

(** The subjects on the request, in order; [refused] is the first one over
    budget, [until] the latest of their period ends. *)
Fixpoint gateSubjects (source : SpendSource) (now : Time) (entries : gmap string entry)
    (refused : option (Subject * Dollars)) (until : Time) (subjects : list Subject) :
    gmap string entry * list effect * gateAnswer :=
  match subjects with
  | [] =>
      (entries, [],
       match refused with
       | Some (s, spent) => Exceeded s spent (SetRetryAfter (Sub until now))
       | None => Served
       end)
  | s :: subjects =>
      let '(e, effs, a) := admitSubject source s (entryOf entries s) now in
      let entries := <[entryKey s := e]> entries in
      if negb (adm_known a) then (entries, effs, Unavailable s)
      else
        let stop := PeriodEnd (budget_Period (subject_Budget s)) now in
        let '(refused, until) :=
          if adm_ok a then (refused, until)
          else (match refused with None => Some (s, adm_spent a) | Some r => Some r end,
                if bool_decide (refused = None) || After stop until then stop else until) in
        let '(entries, effs', ans) := gateSubjects source now entries refused until subjects in
        (entries, effs ++ effs', ans)
  end.

(** The key's subject and the owner's, where a budget is bound. A read is never
    refused. *)
Definition Middleware (source : SpendSource) (now : Time) (isGet : bool) (entries : gmap string entry)
    (key user : option Subject) : gmap string entry * list effect * gateAnswer :=
  if isGet then (entries, [], Served)
  else gateSubjects source now entries None zeroTime (option_list key ++ option_list user).

(** [Charge]: the key's entry and the owner's, where they have one. *)
Definition chargeEntry (entries : gmap string entry) (kind id : string) (cost : Dollars) (at_ : Time) :
    gmap string entry :=
  if bool_decide (id = "") then entries
  else alter (fun e => charge e cost at_) (kind +:+ ":" +:+ id) entries.

Definition Charge (entries : gmap string entry) (keyID ownerID : string) (cost : Dollars) (at_ : Time) :
    gmap string entry :=
  chargeEntry (chargeEntry entries KindKey keyID cost at_) KindUser ownerID cost at_.

(** ** Specification *)

(** What is known of a subject's spend at [now]: the figure on hand for this
    period, or else what the store answers, unless it failed moments ago. *)
Definition figure (source : SpendSource) (s : Subject) (e : entry) (now : Time) : option Dollars :=
  let start := PeriodStart (budget_Period (subject_Budget s)) now in
  if bool_decide (periodStart e = start) then
    if negb (IsZero (loadedAt e)) then Some (spent e)
    else if negb (IsZero (failedAt e)) && (Sub now (failedAt e) <? retryInterval) then None
    else source (subject_Kind s) (subject_ID s) start
  else source (subject_Kind s) (subject_ID s) start.

Definition over (s : Subject) (v : option Dollars) : bool := from_option (pastBudget (subject_Budget s)) false v.

Definition endOf (now : Time) (s : Subject) : Time := PeriodEnd (budget_Period (subject_Budget s)) now.

(** What the gate is to answer, from the figures alone: a subject with no figure
    comes first, then the first over budget, told to wait for the latest end. *)
Definition gateSpec (fig : Subject → option Dollars) (now : Time) (subjects : list Subject) : gateAnswer :=
  match filter (fun s => fig s = None) subjects with
  | s :: _ => Unavailable s
  | [] =>
      match filter (fun s => over s (fig s) = true) subjects with
      | [] => Served
      | s :: l =>
          Exceeded s (default 0 (fig s))
            (SetRetryAfter (Sub (foldl (fun t s => Z.max t (endOf now s)) (endOf now s) l) now))
      end
  end.

(** *** Events *)

(** Within the period [P] and budget of [s], an event still to come. *)
Definition owed (P : Time) (s : Subject) (kind : budgetEventKind) (e : entry) : nat :=
  if bool_decide (periodStart e = P) && bool_decide (judged e = subject_Budget s)
     && (match kind with BudgetWarning => warned e | BudgetExceeded => exceeded e end)
  then 0%nat else 1%nat.

(** A figure never loaded has no crossing on record. *)
Definition fresh_flags (e : entry) : Prop := loadedAt e = zeroTime → warned e = false ∧ exceeded e = false.

Definition eventsOf (kind : budgetEventKind) (effs : list effect) : list effect :=
  filter (fun ef => match ef with
                    | Published ev => match be_kind ev, kind with
                                      | BudgetWarning, BudgetWarning | BudgetExceeded, BudgetExceeded => true
                                      | _, _ => false
                                      end
                    | Spawned _ _ _ => false
                    end = true) effs.

(** What happens to one entry: admissions, charges, reloads that land. *)
Inductive budgetOp :=
| OpAdmit (source : SpendSource) (now : Time)
| OpCharge (cost : Dollars) (at_ : Time)
| OpReload (start : Time) (seq : Z) (now : Time) (res : option Dollars).

Definition perform (s : Subject) (e : entry) (op : budgetOp) : entry * list effect :=
  match op with
  | OpAdmit source now => let '(e, effs, _) := admitSubject source s e now in (e, effs)
  | OpCharge cost at_ => (charge e cost at_, [])
  | OpReload start seq now res => ((reload e start seq now res).1, [])
  end.

Fixpoint performAll (s : Subject) (e : entry) (ops : list budgetOp) : entry * list effect :=
  match ops with
  | [] => (e, [])
  | op :: ops =>
      let '(e, effs) := perform s e op in
      let '(e, effs') := performAll s e ops in (e, effs ++ effs')
  end.

(** The clock of an operation runs, and an admission falls in the period [P]. *)
Definition within (P : Time) (s : Subject) (op : budgetOp) : Prop :=
  match op with
  | OpAdmit _ now => 0 < now ∧ PeriodStart (budget_Period (subject_Budget s)) now = P
  | OpReload _ _ now _ => 0 < now
  | OpCharge _ _ => True
  end.

Definition leapNoon : Time := daysOf 2024 2 29 * Day + 12 * Hour.
Definition demoKey : Subject := MkSubject KindKey "k" "ci" (MkBudget 100 PeriodDay).
Definition demoUser : Subject := MkSubject KindUser "u" "ann" (MkBudget 1000 PeriodMonth).
Definition demoSource : SpendSource := fun kind _ _ => if bool_decide (kind = KindKey) then Some 150 else Some 990.

(** ** Lemmas: one entry *)

Lemma roll_start e start : periodStart (roll e start) = start.
Proof. unfold roll, Equal. destruct (Z.eqb_spec (periodStart e) start); [done|]. by destruct e. Qed.

Lemma roll_same e start : periodStart e = start → roll e start = e.
Proof. unfold roll, Equal. intros ->. by rewrite Z.eqb_refl. Qed.

Lemma roll_other e start : periodStart e ≠ start →
  loadedAt (roll e start) = zeroTime ∧ failedAt (roll e start) = zeroTime ∧ reloading (roll e start) = false ∧
  spent (roll e start) = 0.
Proof. unfold roll, Equal. intros Hne%Z.eqb_neq. rewrite Hne. done. Qed.

Lemma refreshed_figure source s e now :
  let '(e', _, known) := refreshed source s e now in
  match figure source s e now with
  | Some v => known = true ∧ spent e' = v
  | None => known = false
  end.
Proof.
  unfold refreshed, refresh, figure. set (start := PeriodStart _ now).
  assert (∀ e0, periodStart e0 = start → loadedAt e0 = zeroTime →
    let '(e1, known) := landRead s e0 start now (source (subject_Kind s) (subject_ID s) start) in
    match source (subject_Kind s) (subject_ID s) start with
    | Some v => default false known = true ∧ spent e1 = v
    | None => default false known = false
    end) as Hland.
  { intros e0 Hs Hl. unfold landRead, Equal. rewrite Hs, Hl, Z.eqb_refl. cbn. by destruct (source _ _ _). }
  case_bool_decide as Hp.
  - rewrite (roll_same _ _ Hp). unfold IsZero. destruct (Z.eqb_spec (loadedAt e) zeroTime) as [Hl|Hl]; cbn [negb].
    + destruct (_ && _); [done|]. specialize (Hland e Hp Hl). by destruct (landRead _ _ _ _ _).
    + by destruct (_ || _).
  - destruct (roll_other _ _ Hp) as (Hl & Hf & _). rewrite Hl, Hf. cbn.
    specialize (Hland _ (roll_start e start) Hl). by destruct (landRead _ _ _ _ _).
Qed.

Lemma judge_spec s e now :
  let '(e', evs, ok) := judge s e now in
  spent e' = spent e ∧ ok = negb (pastBudget (subject_Budget s) (spent e)) ∧ judged e' = subject_Budget s.
Proof.
  unfold judge. destruct (bool_decide_reflect (judged e = subject_Budget s)) as [Hj|Hj]; cbn [negb];
    cbn; destruct (pastBudget _ _); cbn; try destruct (exceeded e); try destruct (warned e); cbn;
    try destruct (pastWarning _ _); cbn; done.
Qed.

Lemma admit_figure source s e now :
  let '(_, _, a) := admitSubject source s e now in
  match figure source s e now with
  | Some v => a = MkAdmission v true (negb (pastBudget (subject_Budget s) v))
  | None => adm_known a = false
  end.
Proof.
  unfold admitSubject. pose proof (refreshed_figure source s e now) as H.
  destruct (refreshed source s e now) as [[e1 effs] known]. destruct (figure source s e now) as [v|].
  - destruct H as [-> <-]. pose proof (judge_spec s e1 now) as Hj. destruct (judge s e1 now) as [[e2 evs] ok].
    by destruct Hj as (-> & -> & _).
  - by rewrite H.
Qed.

(** ** Lemmas: the gate *)

Lemma entryOf_insert_ne entries s s' e : entryKey s ≠ entryKey s' → entryOf (<[entryKey s := e]> entries) s' = entryOf entries s'.
Proof. intros. unfold entryOf. by rewrite lookup_insert_ne. Qed.

Lemma gateSubjects_spec source now fig subjects : ∀ entries refused until,
  NoDup (entryKey <$> subjects) →
  (∀ s, s ∈ subjects → fig s = figure source s (entryOf entries s) now) →
  (gateSubjects source now entries refused until subjects).2 =
    match filter (fun s => fig s = None) subjects with
    | s :: _ => Unavailable s
    | [] =>
        match refused, filter (fun s => over s (fig s) = true) subjects with
        | None, [] => Served
        | None, s :: l =>
            Exceeded s (default 0 (fig s)) (SetRetryAfter (Sub (foldl (fun t s => Z.max t (endOf now s)) (endOf now s) l) now))
        | Some (s, v), l => Exceeded s v (SetRetryAfter (Sub (foldl (fun t s => Z.max t (endOf now s)) until l) now))
        end
    end.
Proof.
  induction subjects as [|s subjects IH]; intros entries refused until Hnd Hfig; [by destruct refused as [[? ?]|]|].
  cbn [gateSubjects]. apply NoDup_cons in Hnd as [Hni Hnd]. rewrite !filter_cons.
  pose proof (admit_figure source s (entryOf entries s) now) as Ha. rewrite <- Hfig in Ha by left.
  destruct (admitSubject source s (entryOf entries s) now) as [[e effs] a].
  destruct (fig s) as [v|] eqn:Hv; [rewrite decide_False by done; subst a|rewrite decide_True, Ha by done; done].
  cbn [adm_known adm_ok adm_spent negb over from_option].
  assert (∀ s', s' ∈ subjects → fig s' = figure source s' (entryOf (<[entryKey s := e]> entries) s') now) as Hfig'.
  { intros s' Hs'. rewrite entryOf_insert_ne; [apply Hfig; by right|].
    intros Heq. apply Hni. rewrite Heq. by apply list_elem_of_fmap_2. }
  unfold After. fold (endOf now s).
  destruct (pastBudget (subject_Budget s) v) eqn:Ho; cbn [negb].
  - rewrite decide_True by done.
    set (until' := if _ || _ then _ else _).
    specialize (IH (<[entryKey s := e]> entries) (match refused with None => Some (s, v) | Some r => Some r end) until' Hnd Hfig').
    destruct (gateSubjects _ _ _ _ _ _) as [[en ef] an]. cbn [snd] in *. rewrite IH. destruct (filter _ subjects); [|done].
    unfold until'. destruct refused as [[s0 v0]|]; cbn [default]; [|by rewrite Hv, bool_decide_true].
    do 3 f_equal. cbn [foldl]. f_equal. rewrite bool_decide_false by done. cbn [orb]. destruct (Z.ltb_spec until (endOf now s)); lia.
  - rewrite decide_False by done. specialize (IH (<[entryKey s := e]> entries) refused until Hnd Hfig').
    destruct (gateSubjects _ _ _ _ _ _) as [[en ef] an]. cbn [snd] in *. exact IH.
Qed.

Lemma latest_end now s l :
  let u := foldl (fun t s => Z.max t (endOf now s)) (endOf now s) l in
  (∀ s', s' ∈ s :: l → endOf now s' ≤ u) ∧ ∃ s', s' ∈ s :: l ∧ u = endOf now s'.
Proof.
  cbv zeta. assert (∀ l t, let u := foldl (fun t s => Z.max t (endOf now s)) t l in
    t ≤ u ∧ (∀ s', s' ∈ l → endOf now s' ≤ u) ∧ (u = t ∨ ∃ s', s' ∈ l ∧ u = endOf now s')) as Hgen.
  { clear. intros l. induction l as [|s l IH]; intros t; cbn [foldl]; [split; [lia|split; [by intros ? ?%not_elem_of_nil|by left]]|].
    destruct (IH (Z.max t (endOf now s))) as (H1 & H2 & H3). split; [lia|]. split.
    - intros s' [->|Hs']%elem_of_cons; [lia|by apply H2].
    - destruct H3 as [H3|(s' & Hs' & H3)]; [|right; exists s'; split; [by right|done]].
      destruct (Z.max_spec t (endOf now s)) as [[_ Hm]|[_ Hm]]; rewrite Hm in H3 at 2; [right; exists s; split; [by left|done]|by left]. }
  destruct (Hgen l (endOf now s)) as (H1 & H2 & H3). split.
  - intros s' [->|Hs']%elem_of_cons; [done|by apply H2].
  - destruct H3 as [H3|(s' & Hs' & H3)]; [exists s; split; [by left|done]|exists s'; split; [by right|done]].
Qed.

Lemma gateSpec_exceeded fig now subjects s v secs :
  gateSpec fig now subjects = Exceeded s v secs →
  s ∈ subjects ∧ fig s = Some v ∧ budget_USD (subject_Budget s) ≤ v ∧ 1 ≤ secs ∧
  (∀ s', s' ∈ subjects → over s' (fig s') = true → endOf now s' ≤ now + secs * Second) ∧
  ∃ s', s' ∈ subjects ∧ over s' (fig s') = true ∧ now + (secs - 1) * Second < endOf now s'.
Proof.
  unfold gateSpec. destruct (filter (fun s => fig s = None) subjects); [|done].
  destruct (filter (fun s => over s (fig s) = true) subjects) as [|s0 l] eqn:Hf; [done|]. intros [= <- <- <-].
  assert (∀ s', s' ∈ s0 :: l ↔ over s' (fig s') = true ∧ s' ∈ subjects) as Hin.
  { intros s'. by rewrite <- Hf, list_elem_of_filter. }
  destruct (latest_end now s0 l) as [Hmax (s1 & Hs1 & Hu)].
  destruct (proj1 (Hin s0) ltac:(left)) as [Ho Hs0]. unfold over in Ho. destruct (fig s0) as [v|] eqn:Hv; [|done].
  cbn [from_option default] in *. unfold pastBudget in Ho. apply Z.leb_le in Ho.
  destruct (period_bounds (budget_Period (subject_Budget s1)) now) as [[_ Hend] Hfar]. fold (endOf now s1) in *.
  assert (Sub (endOf now s1) now = endOf now s1 - now) as HSub.
  { unfold Sub. apply sat64_id. unfold in_int64, int64_min, int64_max, Day, Hour, Minute, Second in *. lia. }
  rewrite Hu in *. rewrite HSub. destruct (SetRetryAfter_ceil (endOf now s1 - now)) as (Hceil & Hone); [lia|].
  split; [done|]. split; [done|]. split; [done|]. split; [done|]. split.
  - intros s' Hs' Ho'. specialize (Hmax s' (proj2 (Hin s') (conj Ho' Hs'))). lia.
  - exists s1. destruct (proj1 (Hin s1) Hs1). split; [done|]. split; [done|]. lia.
Qed.

(** ** Lemmas: events *)

Lemma roll_flags e start P s kind :
  fresh_flags e → fresh_flags (roll e start) ∧ (start = P → owed P s kind (roll e start) ≤ owed P s kind e)%nat.
Proof.
  intros Hf. unfold roll, Equal. destruct (Z.eqb_spec (periodStart e) start) as [Heq|Hne]; [done|].
  split; [done|]. intros <-. unfold owed. rewrite (bool_decide_false (periodStart e = start)) by done.
  cbn [andb]. destruct (_ && _); lia.
Qed.

Lemma refreshed_flags source s e now P kind :
  0 < now → fresh_flags e → PeriodStart (budget_Period (subject_Budget s)) now = P →
  let '(e', effs, known) := refreshed source s e now in
  fresh_flags e' ∧ (owed P s kind e' ≤ owed P s kind e)%nat ∧ Forall (fun ef => ∃ a b c, ef = Spawned a b c) effs ∧
  periodStart e' = P ∧ (known = true → loadedAt e' ≠ zeroTime).
Proof.
  intros Hnow Hf HP. unfold refreshed, refresh. rewrite HP. set (e0 := roll e P).
  destruct (roll_flags e P P s kind Hf) as [Hf0 Ho]. specialize (Ho eq_refl). fold e0 in Hf0, Ho.
  pose proof (roll_start e P) as Hs0. fold e0 in Hs0. unfold IsZero.
  destruct (Z.eqb_spec (loadedAt e0) zeroTime) as [Hl|Hl].
  - destruct (_ && _); [split; [done|]; split; [done|]; split; [constructor|]; done|].
    unfold landRead, Equal, IsZero. rewrite Hs0, Z.eqb_refl, Hl. cbn [negb Z.eqb zeroTime].
    destruct (Hf0 Hl) as [Hw He].
    destruct (source _ _ _) as [sum|]; cbn [default].
    + split; [intros Hl'; exfalso; cbn in Hl'; unfold zeroTime in Hl'; lia|].
      split; [|split; [constructor|split; [exact Hs0|intros _; cbn; unfold zeroTime; lia]]].
      assert (owed P s kind e0 = 1%nat) as Ho1.
      { unfold owed. destruct kind; rewrite ?Hw, ?He; by rewrite andb_false_r. }
      unfold owed at 1. destruct (_ && _); lia.
    + split; [exact Hf0|]. split; [exact Ho|]. split; [constructor|]. done.
  - destruct (_ || _); (split; [done|]; split; [exact Ho|]; split; [|done]); [constructor|].
    repeat constructor. eauto.
Qed.

Lemma judge_flags s e now P kind :
  fresh_flags e → loadedAt e ≠ zeroTime → periodStart e = P →
  let '(e', evs, _) := judge s e now in
  fresh_flags e' ∧ (length (eventsOf kind (Published <$> evs)) + owed P s kind e' ≤ owed P s kind e)%nat.
Proof.
  intros Hf Hl HP. unfold judge.
  destruct (bool_decide_reflect (judged e = subject_Budget s)) as [Hj|Hj]; cbn [negb].
  - destruct (pastBudget _ _); [destruct (exceeded e) eqn:Hx|destruct (warned e) eqn:Hw, (pastWarning _ _)]; cbn [negb andb];
      (split; [done|]); unfold owed; cbn; rewrite ?HP, ?Hj, !bool_decide_true by done; destruct kind; cbn; rewrite ?Hx, ?Hw; cbn; repeat case_decide; cbn; done || lia.
  - unfold owed. rewrite (bool_decide_false (judged e = _)), andb_false_r by done. cbn [andb].
    destruct (pastBudget _ _); [|destruct (pastWarning _ _)]; cbn; (split; [intros ?; done|]); destruct kind; cbn;
      rewrite ?HP, ?bool_decide_true by done; repeat case_decide; cbn; done || lia.
Qed.

Lemma perform_flags s e op P kind :
  fresh_flags e → within P s op →
  let '(e', effs) := perform s e op in
  fresh_flags e' ∧ (length (eventsOf kind effs) + owed P s kind e' ≤ owed P s kind e)%nat.
Proof.
  intros Hf Hw. destruct op as [source now|cost at_|start seq now res]; cbn [perform within] in *.
  - destruct Hw as [Hnow HP]. unfold admitSubject. pose proof (refreshed_flags source s e now P kind Hnow Hf HP) as Hr.
    destruct (refreshed source s e now) as [[e1 effs] known]. destruct Hr as (Hf1 & Ho1 & Heffs & HP1 & Hk).
    assert (eventsOf kind effs = []) as Hnone.
    { clear -Heffs. induction Heffs as [|ef effs (a & b & c & ->) _ IH]; [done|exact IH]. }
    destruct known; [|by rewrite Hnone].
    pose proof (judge_flags s e1 now P kind Hf1 (Hk eq_refl) HP1) as Hj.
    destruct (judge s e1 now) as [[e2 evs] ok]. destruct Hj as [Hf2 Ho2]. split; [exact Hf2|].
    unfold eventsOf in *. rewrite filter_app, Hnone. cbn [app]. lia.
  - unfold charge. destruct (_ && _) eqn:Hc; [|split; [done|cbn; lia]].
    apply andb_true_iff in Hc as [Hl _]. apply negb_true_iff, Z.eqb_neq in Hl.
    assert (∀ e' : entry, loadedAt e' = loadedAt e → fresh_flags e') as Hff by (intros e' He' Hz; congruence).
    cbn. destruct (reloading e); (split; [by apply Hff|]); unfold owed; cbn; lia.
  - unfold reload. destruct (negb (Equal _ _)); [|destruct res as [sum|]; [destruct (_ && _); [|destruct (negb _)]|]];
      (split; [|cbn; unfold owed; cbn; lia]); try exact Hf; intros Hz; cbn in Hz; unfold zeroTime in Hz; lia.
Qed.

(** ** Properties *)

(** The budget gate answers from the figures alone, whatever is loaded,
    rolled or failing behind them. A read passes; a subject whose spend cannot
    be told is a 503 before any refusal; otherwise the first subject at or past
    its budget is named in a 429 whose Retry-After is the latest end of the
    periods refused, rounded up to a second, so that a client that waits it out
    is not refused again by these periods and waits no second longer. *)
Lemma budget_gate source now isGet entries key user :
  (∀ s, key = Some s → subject_Kind s = KindKey) → (∀ s, user = Some s → subject_Kind s = KindUser) →
  let fig s := figure source s (entryOf entries s) now in
  let subjects := option_list key ++ option_list user in
  let ans := (Middleware source now isGet entries key user).2 in
  ans = (if (isGet : bool) then Served else gateSpec fig now subjects) ∧
  (ans = Served → isGet = false → ∀ s, s ∈ subjects → ∃ v, fig s = Some v ∧ v < budget_USD (subject_Budget s)) ∧
  (∀ s v secs, ans = Exceeded s v secs →
     s ∈ subjects ∧ fig s = Some v ∧ budget_USD (subject_Budget s) ≤ v ∧ 1 ≤ secs ∧
     (∀ s', s' ∈ subjects → over s' (fig s') = true → endOf now s' ≤ now + secs * Second) ∧
     ∃ s', s' ∈ subjects ∧ over s' (fig s') = true ∧ now + (secs - 1) * Second < endOf now s').
Proof.
  intros Hk Hu. cbv zeta. set (subjects := option_list key ++ option_list user).
  assert ((Middleware source now isGet entries key user).2 =
    if isGet then Served else gateSpec (fun s => figure source s (entryOf entries s) now) now subjects) as Hans.
  { unfold Middleware. destruct isGet; [done|]. fold subjects.
    rewrite (gateSubjects_spec source now (fun s => figure source s (entryOf entries s) now)); [|  |done].
    - unfold gateSpec. destruct (filter _ subjects); [|done]. by destruct (filter _ subjects).
    - unfold subjects. destruct key as [k|], user as [u|]; cbn; try (repeat constructor; set_solver).
      constructor; [|repeat constructor; set_solver]. rewrite list_elem_of_singleton. unfold entryKey.
      by rewrite (Hk k eq_refl), (Hu u eq_refl). }
  rewrite Hans. split; [done|]. split.
  - intros Hserved ->. unfold gateSpec in Hserved. intros s Hs.
    destruct (filter (fun s => figure source s _ now = None) subjects) eqn:Hnone; [|done].
    destruct (filter (fun s => over s _ = true) subjects) eqn:Hover; [|done].
    destruct (figure source s (entryOf entries s) now) as [v|] eqn:Hv.
    + exists v. split; [done|]. apply Z.nle_gt. intros Hle.
      apply (filter_nil_not_elem_of (fun s => over s (figure source s (entryOf entries s) now) = true) subjects s Hover); [|done].
      rewrite Hv. cbn. unfold pastBudget. by apply Z.leb_le.
    + exfalso. by apply (filter_nil_not_elem_of (fun s => figure source s (entryOf entries s) now = None) subjects s Hnone).
  - intros s v secs. destruct isGet; [done|]. apply gateSpec_exceeded.
Qed.

Lemma budget_gate_witness :
  (Middleware demoSource leapNoon false ∅ (Some demoKey) (Some demoUser)).2 = Exceeded demoKey 150 43200 ∧
  budget_USD (subject_Budget demoKey) ≤ 150.
Proof.
  assert ((Middleware demoSource leapNoon false ∅ (Some demoKey) (Some demoUser)).2 = Exceeded demoKey 150 43200) as Ha
    by (vm_compute; reflexivity).
  split; [exact Ha|].
  destruct (budget_gate demoSource leapNoon false ∅ (Some demoKey) (Some demoUser)) as (_ & _ & H);
    [by intros s [= <-]|by intros s [= <-]|].
  destruct (H demoKey 150 43200 Ha) as (_ & _ & Hle & _). lia.
Defined.

(** Crossing a threshold is announced once. Over any run of admissions,
    charges and landing reloads of one subject inside one period, at most one
    warning and at most one exceeded event is published for its budget. *)
Lemma budget_events_once s e ops P kind :
  fresh_flags e → Forall (within P s) ops →
  (length (eventsOf kind (performAll s e ops).2) ≤ 1)%nat.
Proof.
  intros Hf Hops. enough (length (eventsOf kind (performAll s e ops).2) ≤ owed P s kind e)%nat as Hle
    by (unfold owed in Hle; destruct (_ && _); lia).
  revert e Hf. induction Hops as [|op ops Hop _ IH]; intros e Hf; [cbn; lia|]. cbn [performAll].
  pose proof (perform_flags s e op P kind Hf Hop) as Hp. destruct (perform s e op) as [e1 effs]. destruct Hp as [Hf1 Ho].
  specialize (IH e1 Hf1). destruct (performAll s e1 ops) as [e2 effs']. cbn [snd] in *.
  unfold eventsOf in *. rewrite filter_app, length_app. lia.
Qed.

Lemma budget_events_once_witness :
  let ops := [OpAdmit (fun _ _ _ => Some 50) leapNoon; OpCharge 60 leapNoon;
              OpAdmit (fun _ _ _ => None) (leapNoon + 1); OpAdmit (fun _ _ _ => None) (leapNoon + 2)] in
  let effs := (performAll demoKey newEntry ops).2 in
  length effs = 1%nat ∧ (length (eventsOf BudgetExceeded effs) ≤ 1)%nat.
Proof.
  intros ops effs. split; [vm_compute; reflexivity|].
  apply (budget_events_once demoKey newEntry ops (daysOf 2024 2 29 * Day) BudgetExceeded); [done|].
  repeat constructor; evaluate.
Defined.
