(* ===== verification/BudgetSystem.v ===== *)
(** * Budgets under concurrency (internal/budget/limiter.go)

    One subject's entry with everything that can happen between two critical
    sections of its mutex: the clock runs, rows reach the store, their charges
    follow, admissions read the store with the lock released, detached reloads
    are answered and land. A reload lands within [refreshInterval] of its launch
    (its read has a three-second deadline). The subject's period is fixed; its
    dollar figure may be edited at any moment. *)

From S2P Require Import Prelude Calendar Budget.

(** ** State *)

(** A priced request_logs row: what it cost, when its request arrived, when the
    store dated it. *)
Record row := MkRow { row_cost : Dollars; row_at : Time; row_created : Time }.

Definition row_ok (r : row) : Prop := 0 ≤ row_cost r ∧ 0 < row_at r ≤ row_created r.

(** A first-sight read with the lock released; what the store answered it. *)
Record reader := MkReader {
  rd_display : bool;                       (* [Spent], not [admit] *)
  rd_subject : Subject;
  rd_asked : Time;
  rd_start : Time;
  rd_now : Time;
  rd_answer : option (option Dollars)
}.

Record reloader := MkReloader {
  rl_start : Time;
  rl_seq : Z;
  rl_launched : Time;
  rl_answer : option (option Dollars)
}.

(** [charged] are the rows whose [Charge] has run, [uncharged] those still to
    be charged. [missed] is bookkeeping: what was charged in this period while
    its figure was unknown, and no reload has summed since. *)
Record system := MkSystem {
  sys_now : Time;
  charged : list row;
  uncharged : list row;
  ent : entry;
  readers : list reader;
  reloaders : list reloader;
  missed : Dollars
}.

Definition system_eta (y : system) : system :=
  MkSystem (sys_now y) (charged y) (uncharged y) (ent y) (readers y) (reloaders y) (missed y).
#[export] Instance upd_sys_now : Updater sys_now := ltac:(derive_updater system_eta).
#[export] Instance upd_charged : Updater charged := ltac:(derive_updater system_eta).
#[export] Instance upd_uncharged : Updater uncharged := ltac:(derive_updater system_eta).
#[export] Instance upd_ent : Updater ent := ltac:(derive_updater system_eta).
#[export] Instance upd_readers : Updater readers := ltac:(derive_updater system_eta).
#[export] Instance upd_reloaders : Updater reloaders := ltac:(derive_updater system_eta).
#[export] Instance upd_missed : Updater missed := ltac:(derive_updater system_eta).

Definition sumIf (f : row → bool) (l : list row) : Dollars :=
  foldr (fun r acc => (if f r then row_cost r else 0) + acc) 0 l.
#[global] Arguments sumIf : simpl never.

(** What the store sums since [P], and what was charged since. *)
Definition storeSum (P : Time) (rows : list row) : Dollars := sumIf (fun r => P <=? row_created r) rows.
Definition chargedSum (P : Time) (rows : list row) : Dollars := sumIf (fun r => P <=? row_at r) rows.
#[global] Arguments storeSum : simpl never.
#[global] Arguments chargedSum : simpl never.

Definition rows (y : system) : list row := charged y ++ uncharged y.

(** ** Steps *)

Definition judgedEntry (display : bool) (s : Subject) (e : entry) (asked : Time) : entry :=
  if display then e else (judge s e asked).1.1.

(** What follows a [refresh]: the answer, a read, or a reload left running. *)
Definition afterRefresh (y : system) (display : bool) (s : Subject) (asked : Time) : system :=
  let '(e, st) := refresh s (ent y) (sys_now y) in
  let y := y ⟦ missed := if Equal (periodStart e) (periodStart (ent y)) then missed y else 0 ⟧ in
  match st with
  | RefreshKnown known => y ⟦ ent := if (known : bool) then judgedEntry display s e asked else e ⟧
  | RefreshRead start => y ⟦ ent := e ⟧ ⟦ readers := readers y ++ [MkReader display s asked start (sys_now y) None] ⟧
  | RefreshServe start seq =>
      y ⟦ ent := judgedEntry display s e asked ⟧
        ⟦ reloaders := reloaders y ++ [MkReloader start seq (sys_now y) None] ⟧
  end.

Definition chargeRow (y : system) (r : row) : system :=
  let e := ent y in
  y ⟦ ent := charge e (row_cost r) (row_at r) ⟧ ⟦ charged := r :: charged y ⟧
    ⟦ missed := if IsZero (loadedAt e) && (periodStart e <=? row_at r) then missed y + row_cost r else missed y ⟧.

(** The lock taken again after a read. *)
Definition landReader (y : system) (rd : reader) (res : option Dollars) : system :=
  let '(e, known) := landRead (rd_subject rd) (ent y) (rd_start rd) (rd_now rd) res in
  match known with
  | None => afterRefresh y (rd_display rd) (rd_subject rd) (rd_asked rd)
  | Some known => y ⟦ ent := if (known : bool) then judgedEntry (rd_display rd) (rd_subject rd) e (rd_asked rd) else e ⟧
  end.

Definition landReload (y : system) (q : reloader) (res : option Dollars) : system :=
  let '(e, again) := reload (ent y) (rl_start q) (rl_seq q) (sys_now y) res in
  match again with
  | Some seq => y ⟦ ent := e ⟧ ⟦ reloaders := reloaders y ++ [MkReloader (rl_start q) seq (sys_now y) None] ⟧
  | None =>
      y ⟦ ent := e ⟧
        ⟦ missed := if Equal (periodStart (ent y)) (rl_start q) && bool_decide (is_Some res) then 0 else missed y ⟧
  end.

Inductive step (period : string) (y : system) : system → Prop :=
| StepClock t : sys_now y ≤ t → step period y (y ⟦ sys_now := t ⟧)
| StepRow r : row_ok r → step period y (y ⟦ uncharged := r :: uncharged y ⟧)
| StepCharge l1 r l2 : uncharged y = l1 ++ r :: l2 → step period y (chargeRow (y ⟦ uncharged := l1 ++ l2 ⟧) r)
| StepAsk display s :
    budget_Period (subject_Budget s) = period → step period y (afterRefresh y display s (sys_now y))
| StepAnswer l1 rd l2 res :
    readers y = l1 ++ rd :: l2 → res = None ∨ res = Some (storeSum (rd_start rd) (rows y)) →
    step period y (y ⟦ readers := l1 ++ MkReader (rd_display rd) (rd_subject rd) (rd_asked rd) (rd_start rd) (rd_now rd)
                                         (Some res) :: l2 ⟧)
| StepLand l1 rd l2 res :
    readers y = l1 ++ rd :: l2 → rd_answer rd = Some res → step period y (landReader (y ⟦ readers := l1 ++ l2 ⟧) rd res)
| StepReloadAnswer l1 q l2 res :
    reloaders y = l1 ++ q :: l2 → res = None ∨ res = Some (storeSum (rl_start q) (rows y)) →
    step period y (y ⟦ reloaders := l1 ++ MkReloader (rl_start q) (rl_seq q) (rl_launched q) (Some res) :: l2 ⟧)
| StepReloadLand l1 q l2 res :
    reloaders y = l1 ++ q :: l2 → rl_answer q = Some res → sys_now y < rl_launched q + refreshInterval →
    step period y (landReload (y ⟦ reloaders := l1 ++ l2 ⟧) q res).

Definition initial (t : Time) : system := MkSystem t [] [] newEntry [] [] 0.

Inductive reachable (period : string) : system → Prop :=
| ReachInit t : 0 < t → reachable period (initial t)
| ReachStep y y' : reachable period y → step period y y' → reachable period y'.

(** ** Invariant *)

(** A reader's figure, as it stands against the entry. *)
Definition reader_ok (y : system) (rd : reader) : Prop :=
  let P := periodStart (ent y) in
  rd_start rd ≤ P ∧ 0 < rd_now rd ≤ sys_now y ∧
  (rd_start rd = P →
    Forall (fun q => rl_start q ≠ P → rl_launched q ≤ rd_now rd) (reloaders y) ∧
    (loadedAt (ent y) = zeroTime → ∀ v, rd_answer rd = Some (Some v) →
       chargedSum P (charged y) ≤ v + missed y ∧ v ≤ storeSum P (rows y))).

(** The reload of the current period. *)
Definition current_ok (y : system) (q : reloader) : Prop :=
  let e := ent y in
  reloading e = true ∧ (chargeSeq e = rl_seq q → chargedSince e = 0) ∧ rl_seq q ≤ chargeSeq e ∧
  ∀ v, rl_answer q = Some (Some v) →
    chargedSum (periodStart e) (charged y) ≤ v + chargedSince e ∧ v ≤ storeSum (periodStart e) (rows y).

Definition isCurrent (y : system) (q : reloader) : bool := rl_start q =? periodStart (ent y).

Record inv (period : string) (y : system) : Prop := {
  inv_now : 0 < sys_now y;
  inv_rows : Forall row_ok (rows y);
  inv_period : (∃ t, periodStart (ent y) = PeriodStart period t ∧ t ≤ sys_now y) ∨
    (readers y = [] ∧ reloaders y = [] ∧ loadedAt (ent y) = zeroTime);
  inv_readers : Forall (reader_ok y) (readers y);
  inv_subjects : Forall (fun rd => budget_Period (subject_Budget (rd_subject rd)) = period) (readers y);
  inv_reloaders : Forall (fun q => rl_start q ≤ periodStart (ent y) ∧ rl_launched q ≤ sys_now y ∧
    (rl_start q ≠ periodStart (ent y) →
       (loadedAt (ent y) ≠ zeroTime → rl_launched q ≤ loadedAt (ent y)) ∧
       (sys_now y < rl_launched q + refreshInterval → reloading (ent y) = false))) (reloaders y);
  inv_current : filter (fun q => isCurrent y q = true) (reloaders y) = [] ∨
    ∃ q, filter (fun q => isCurrent y q = true) (reloaders y) = [q] ∧ current_ok y q;
  inv_unloaded : loadedAt (ent y) = zeroTime →
    reloading (ent y) = false ∧ filter (fun q => isCurrent y q = true) (reloaders y) = [];
  inv_loaded : loadedAt (ent y) ≤ sys_now y;
  inv_missed : 0 ≤ missed y;
  inv_since : reloading (ent y) = true → 0 ≤ chargedSince (ent y) ≤ chargedSum (periodStart (ent y)) (charged y);
  inv_low : loadedAt (ent y) ≠ zeroTime → chargedSum (periodStart (ent y)) (charged y) ≤ spent (ent y) + missed y;
  inv_up : loadedAt (ent y) ≠ zeroTime →
    spent (ent y) ≤ storeSum (periodStart (ent y)) (rows y) + chargedSum (periodStart (ent y)) (charged y)
}.

(** What judging an entry leaves alone. *)
Definition core (e : entry) := (periodStart e, spent e, loadedAt e, reloading e, chargeSeq e, chargedSince e).

(** A first sight, a row, its charge. *)
Definition demo1 : system := afterRefresh (initial leapNoon) true demoKey leapNoon.
Definition demo2 : system :=
  demo1 ⟦ readers := [MkReader true demoKey leapNoon (daysOf 2024 2 29 * Day) leapNoon (Some (Some 0))] ⟧.
Definition demo3 : system :=
  landReader (demo2 ⟦ readers := [] ⟧) (MkReader true demoKey leapNoon (daysOf 2024 2 29 * Day) leapNoon (Some (Some 0))) (Some 0).
Definition demo4 : system := demo3 ⟦ uncharged := [MkRow 7 leapNoon leapNoon] ⟧.
Definition demo5 : system := chargeRow (demo4 ⟦ uncharged := [] ⟧) (MkRow 7 leapNoon leapNoon).

(** ** Lemmas: sums *)

Lemma sumIf_cons f r l : sumIf f (r :: l) = (if f r then row_cost r else 0) + sumIf f l.
Proof. done. Qed.

Lemma sumIf_app f l1 l2 : sumIf f (l1 ++ l2) = sumIf f l1 + sumIf f l2.
Proof. unfold sumIf. induction l1 as [|r l1 IH]; cbn; [done|]. rewrite IH. lia. Qed.

Lemma sumIf_perm f l1 l2 : l1 ≡ₚ l2 → sumIf f l1 = sumIf f l2.
Proof. unfold sumIf. induction 1; cbn in *; lia. Qed.

Lemma sumIf_le (f g : row → bool) l :
  Forall row_ok l → (∀ r, row_ok r → f r = true → g r = true) → sumIf f l ≤ sumIf g l.
Proof.
  unfold sumIf. intros Hl Hfg. induction Hl as [|r l Hr _ IH]; cbn in *; [done|]. destruct Hr as [Hc Ht].
  pose proof (Hfg r (conj Hc Ht)) as H. destruct (f r); [rewrite H by done; lia|]. destruct (g r); lia.
Qed.

Lemma sumIf_nonneg f l : Forall row_ok l → 0 ≤ sumIf f l.
Proof. unfold sumIf. intros Hl. induction Hl as [|r l [Hc _] _ IH]; cbn in *; [done|]. destruct (f r); lia. Qed.

Lemma charged_nonneg P ch un : Forall row_ok (ch ++ un) → 0 ≤ chargedSum P ch.
Proof. intros [Hc _]%Forall_app. by apply sumIf_nonneg. Qed.

(** A row is dated no earlier than its request arrived. *)
Lemma charged_le_store P ch un : Forall row_ok (ch ++ un) → chargedSum P ch ≤ storeSum P (ch ++ un).
Proof.
  unfold chargedSum, storeSum. rewrite sumIf_app. intros [Hc Hu]%Forall_app.
  pose proof (sumIf_nonneg (fun r => P <=? row_created r) _ Hu).
  assert (sumIf (fun r => P <=? row_at r) ch ≤ sumIf (fun r => P <=? row_created r) ch); [|lia].
  apply sumIf_le; [done|]. intros r [_ ?] ?. lia.
Qed.

Lemma storeSum_row P ch un r : row_ok r → storeSum P (ch ++ un) ≤ storeSum P (ch ++ r :: un).
Proof. intros [? _]. unfold storeSum. rewrite !sumIf_app, sumIf_cons. destruct (_ <=? _); lia. Qed.

(** ** Lemmas: what a step leaves alone *)

Lemma judgedEntry_core display s e t : core (judgedEntry display s e t) = core e.
Proof.
  unfold judgedEntry. destruct display; [done|]. unfold judge.
  destruct (negb _), (pastBudget _ _); cbn; try destruct (exceeded e); try destruct (warned e); cbn;
    try destruct (pastWarning _ _); done.
Qed.

Lemma inv_ent period y e' : core e' = core (ent y) → inv period y → inv period (y ⟦ ent := e' ⟧).
Proof.
  destruct y as [now ch un e rds rls ms]. cbn. intros Hcore. unfold core in Hcore.
  injection Hcore as H1 H2 H3 H4 H5 H6. intros [].
  split; cbn in *; unfold reader_ok, current_ok, isCurrent in *; cbn in *; rewrite ?H1, ?H2, ?H3, ?H4, ?H5, ?H6; done.
Qed.

(** Time runs. *)
Lemma inv_clock period y t : sys_now y ≤ t → inv period y → inv period (y ⟦ sys_now := t ⟧).
Proof.
  destruct y as [now ch un e rds rls ms]. cbn. intros Ht [].
  split; cbn in *; unfold reader_ok, current_ok, isCurrent in *; cbn in *; try done; try lia.
  - destruct inv_period0 as [(t0 & ? & ?)|?]; [left; exists t0; split; [done|lia]|by right].
  - eapply Forall_impl; [exact inv_readers0|]. cbn. intros rd (? & ? & ?). split; [done|]. split; [lia|done].
  - eapply Forall_impl; [exact inv_reloaders0|]. cbn. intros q (? & ? & Hq). split; [done|]. split; [lia|].
    intros Hne. destruct (Hq Hne). split; [done|]. intros. auto with lia.
Qed.

(** A row reaches the store: sums of the store only grow. *)
Lemma inv_row period y r : row_ok r → inv period y → inv period (y ⟦ uncharged := r :: uncharged y ⟧).
Proof.
  destruct y as [now ch un e rds rls ms]. cbn. intros Hr [].
  pose proof (storeSum_row (periodStart e) ch un r Hr) as Hgrow.
  split; cbn in *; unfold reader_ok, current_ok, isCurrent, rows in *; cbn in *; try done.
  - apply Forall_app in inv_rows0 as [? ?]. apply Forall_app. split; [done|]. by constructor.
  - eapply Forall_impl; [exact inv_readers0|]. intros rd (? & ? & Hrd). split; [done|]. split; [done|].
    intros Hs. destruct (Hrd Hs) as [? Hv]. split; [done|]. intros Hl v Ha. destruct (Hv Hl v Ha). split; [done|lia].
  - destruct inv_current0 as [?|(q & ? & H1 & H2 & H3 & H4)]; [by left|right]. exists q. split; [done|].
    split; [done|]. split; [done|]. split; [done|]. intros v Ha. destruct (H4 v Ha). split; [done|lia].
  - intros Hl. specialize (inv_up0 Hl). lia.
Qed.

(** A charge, read off the entry: on the figure when it is known and the row is
    of the period. *)
Lemma charge_effect e cost at_ :
  0 < at_ →
  let c := if periodStart e <=? at_ then cost else 0 in
  let e' := charge e cost at_ in
  periodStart e' = periodStart e ∧ loadedAt e' = loadedAt e ∧ reloading e' = reloading e ∧
  spent e' = spent e + (if IsZero (loadedAt e) then 0 else c) ∧
  (reloading e = true → loadedAt e ≠ zeroTime → chargedSince e' = chargedSince e + c) ∧
  chargeSeq e ≤ chargeSeq e' ∧ (chargeSeq e' = chargeSeq e → c = 0 ∨ loadedAt e = zeroTime).
Proof.
  intros Hat. cbv zeta. unfold charge, IsZero, Before. rewrite (proj2 (Z.eqb_neq at_ zeroTime)) by (unfold zeroTime; lia).
  cbn [orb]. destruct (Z.eqb_spec (loadedAt e) zeroTime) as [Hl|Hl]; cbn [negb andb].
  - destruct (_ <=? at_); repeat split; first [lia|done|by right].
  - destruct (Z.ltb_spec at_ (periodStart e)), (Z.leb_spec (periodStart e) at_); try lia; cbn [negb].
    + repeat split; first [lia|done|by left].
    + destruct (reloading e) eqn:Hr; cbn; rewrite ?Hr; repeat split; try lia; try done; cbn; lia.
Qed.

(** A charge lands: on the figure when it is known, on [missed] otherwise. *)
Lemma inv_charge period y l1 r l2 :
  uncharged y = l1 ++ r :: l2 → inv period y → inv period (chargeRow (y ⟦ uncharged := l1 ++ l2 ⟧) r).
Proof.
  destruct y as [now ch un e rds rls ms]. cbn. intros -> [].
  remember (periodStart e) as P eqn:HP. set (c := if P <=? row_at r then row_cost r else 0).
  assert (row_ok r) as [Hr0 Hr1].
  { unfold rows in *. cbn in *. apply Forall_app in inv_rows0 as [_ H]. apply Forall_app in H as [_ H].
    by apply Forall_cons in H as [? _]. }
  assert (chargedSum P (r :: ch) = c + chargedSum P ch) as HC by done.
  assert (storeSum P ((r :: ch) ++ l1 ++ l2) = storeSum P (ch ++ l1 ++ r :: l2)) as HR
    by (apply sumIf_perm; cbn; by rewrite <- !Permutation_middle).
  assert (0 ≤ c) as Hc by (unfold c; destruct (_ <=? _); lia).
  set (ms' := if IsZero (loadedAt e) && (P <=? row_at r) then ms + row_cost r else ms).
  set (e' := charge e (row_cost r) (row_at r)).
  assert (ms' = ms + (if IsZero (loadedAt e) then c else 0)) as E5
    by (unfold ms', c; destruct (IsZero _), (_ <=? _); cbn; lia).
  destruct (charge_effect e (row_cost r) (row_at r) ltac:(lia)) as (E1 & E2 & E3 & E4 & E6 & E7 & E8).
  fold e' in E1, E2, E3, E4, E6, E7, E8. rewrite <- HP in *. fold c in E4, E6, E8.
  assert (chargeRow (MkSystem now ch (l1 ++ l2) e rds rls ms) r = MkSystem now (r :: ch) (l1 ++ l2) e' rds rls ms') as Hy'
    by (unfold chargeRow; cbn; by rewrite <- HP).
  change (_ ⟦ uncharged := _ ⟧) with (MkSystem now ch (l1 ++ l2) e rds rls ms). rewrite Hy'. clearbody e' ms'. clear Hy'.
  split; cbn in *; unfold reader_ok, current_ok, isCurrent, rows in *; cbn in *;
    rewrite <- ?HP, ?E1, ?E2, ?E3, ?HC, ?HR in *; try done; try lia.
  - apply Forall_app in inv_rows0 as [? Hu]. apply Forall_app in Hu as [? Hu]. apply Forall_cons in Hu as [? ?].
    constructor; [done|]. by rewrite !Forall_app.
  - eapply Forall_impl; [exact inv_readers0|]. intros rd (? & ? & Hrd). split; [done|]. split; [done|]. intros Hs.
    destruct (Hrd Hs) as [? Hv]. split; [done|]. intros Hl v Ha. destruct (Hv Hl v Ha). split; [|done].
    rewrite Hl in E5. cbn in E5. lia.
  - destruct inv_current0 as [?|(q & Hq & H1 & H2 & H3 & H4)]; [by left|right]. exists q. split; [done|]. split; [done|].
    assert (loadedAt e ≠ zeroTime) as Hl by (intros Hl; destruct (inv_unloaded0 Hl) as [Hf _]; by rewrite Hf in H1).
    specialize (E6 H1 Hl). split; [intros Heq|split; [lia|]].
    + destruct (E8 ltac:(lia)) as [Hz|?]; [|done]. rewrite E6, Hz. rewrite H2; lia.
    + intros v Ha. destruct (H4 v Ha). split; [lia|done].
  - rewrite E5. destruct (IsZero _); lia.
  - intros Hr. assert (loadedAt e ≠ zeroTime) as Hl by (intros Hl; destruct (inv_unloaded0 Hl) as [Hf _]; by rewrite Hf in Hr).
    rewrite (E6 Hr Hl). specialize (inv_since0 Hr). lia.
  - intros Hl. specialize (inv_low0 Hl). rewrite E4, E5. unfold IsZero. rewrite (proj2 (Z.eqb_neq _ _)) by done. lia.
  - intros Hl. specialize (inv_up0 Hl). rewrite E4. unfold IsZero. rewrite (proj2 (Z.eqb_neq _ _)) by done. lia.
Qed.

(** The store answers a reader, or a reload. *)
Lemma inv_answer period y l1 rd l2 res :
  readers y = l1 ++ rd :: l2 → res = None ∨ res = Some (storeSum (rd_start rd) (rows y)) → inv period y →
  inv period (y ⟦ readers := l1 ++ MkReader (rd_display rd) (rd_subject rd) (rd_asked rd) (rd_start rd) (rd_now rd)
                                         (Some res) :: l2 ⟧).
Proof.
  destruct y as [now ch un e rds rls ms]. cbn. intros -> Hres [].
  split; cbn in *; unfold reader_ok, current_ok, isCurrent, rows in *; cbn in *; try done.
  - destruct inv_period0 as [?|(Hn & _)]; [by left|]. by destruct l1.
  - apply Forall_app in inv_readers0 as [H1 H2]. apply Forall_cons in H2 as [(Hs & Hn & Hrd) H2].
    apply Forall_app. split; [done|]. apply Forall_cons. split; [|done]. cbn. split; [done|]. split; [done|].
    intros Heq. destruct (Hrd Heq) as [Hq _]. split; [done|]. intros _ v [= ->].
    destruct Hres as [|[= ->]]; [done|]. rewrite Heq.
    pose proof (charged_le_store (periodStart e) ch un inv_rows0). split; lia.
  - apply Forall_app in inv_subjects0 as [H1 H2]. apply Forall_cons in H2 as [? H2].
    apply Forall_app. split; [done|]. by apply Forall_cons.
Qed.

Lemma current_split P l1 (q q0 : reloader) l2 :
  filter (fun q => (rl_start q =? P) = true) (l1 ++ q :: l2) = [q0] → rl_start q = P →
  q0 = q ∧ filter (fun q => (rl_start q =? P) = true) l1 = [] ∧ filter (fun q => (rl_start q =? P) = true) l2 = [].
Proof.
  intros Hf Hq. rewrite filter_app, filter_cons, decide_True in Hf by lia.
  destruct (filter _ l1) as [|a l] eqn:H1; [by injection Hf as -> ->|].
  exfalso. apply (f_equal length) in Hf. cbn in Hf. rewrite length_app in Hf. cbn in Hf. lia.
Qed.

Lemma inv_reloadAnswer period y l1 q l2 res :
  reloaders y = l1 ++ q :: l2 → res = None ∨ res = Some (storeSum (rl_start q) (rows y)) → inv period y →
  inv period (y ⟦ reloaders := l1 ++ MkReloader (rl_start q) (rl_seq q) (rl_launched q) (Some res) :: l2 ⟧).
Proof.
  destruct y as [now ch un e rds rls ms]. cbn. intros -> Hres [].
  set (q' := MkReloader _ _ _ _).
  assert (∀ (P : reloader → Prop), (P q → P q') → Forall P (l1 ++ q :: l2) → Forall P (l1 ++ q' :: l2)) as Hall.
  { intros Pr Hpq [H1 [Hq H2]%Forall_cons]%Forall_app. apply Forall_app. split; [done|]. apply Forall_cons. auto. }
  split; cbn in *; unfold reader_ok, current_ok, isCurrent, rows in *; cbn in *; try done.
  - destruct inv_period0 as [?|(_ & Hn & _)]; [by left|]. by destruct l1.
  - eapply Forall_impl; [exact inv_readers0|]. intros rd (? & ? & Hrd). split; [done|]. split; [done|]. intros Hs.
    destruct (Hrd Hs) as [? ?]. split; [|done]. by apply Hall.
  - by apply Hall.
  - destruct (Z.eqb_spec (rl_start q) (periodStart e)) as [Heq|Hne].
    + destruct inv_current0 as [Hf|(q0 & Hf & Hok)].
      { rewrite filter_app, filter_cons, decide_True in Hf by lia. by destruct (filter _ l1). }
      destruct (current_split _ _ _ _ _ Hf Heq) as (-> & Hf1 & Hf2). right. exists q'.
      rewrite filter_app, filter_cons, decide_True, Hf1, Hf2 by (cbn; lia). split; [done|].
      destruct Hok as (H1 & H2 & H3 & _). split; [done|]. split; [done|]. split; [done|]. intros v [= ->].
      destruct Hres as [|[= ->]]; [done|]. rewrite Heq. pose proof (charged_le_store (periodStart e) ch un inv_rows0).
      specialize (inv_since0 H1). split; lia.
    + rewrite filter_app, filter_cons, decide_False in inv_current0 by lia.
      rewrite filter_app, filter_cons, decide_False by (cbn; lia). exact inv_current0.
  - intros Hl. destruct (inv_unloaded0 Hl) as [? Hf]. split; [done|]. revert Hf. rewrite !filter_app, !filter_cons.
    unfold q'. cbn [rl_start]. destruct (decide ((rl_start q =? periodStart e) = true)); by destruct (filter _ l1).
Qed.

(** The period of the clock is entered: what was in flight is left behind. *)
Lemma inv_roll period y :
  let start := PeriodStart period (sys_now y) in
  let e := roll (ent y) start in
  inv period y →
  inv period (y ⟦ missed := if Equal (periodStart e) (periodStart (ent y)) then missed y else 0 ⟧ ⟦ ent := e ⟧).
Proof.
  cbv zeta. destruct y as [now ch un e rds rls ms]. cbn. set (start := PeriodStart period now). intros Hinv.
  rewrite roll_start. unfold Equal. rewrite Z.eqb_sym. destruct (Z.eqb_spec (periodStart e) start) as [Heq|Hne].
  { rewrite (roll_same _ _ Heq). exact Hinv. }
  destruct Hinv. destruct (roll_other _ _ Hne) as (Hl & _ & Hr & Hs). pose proof (roll_start e start) as Hp.
  set (e' := roll e start) in *. clearbody e'.
  assert (Forall (fun rd => rd_start rd < start) rds ∧ Forall (fun q => rl_start q < start) rls) as [Hrd Hrl].
  { cbn in *. destruct inv_period0 as [(t0 & Ht0 & Hle)|(-> & -> & _)]; [|done].
    pose proof (period_mono period t0 now Hle) as Hm. fold start in Hm. rewrite <- Ht0 in Hm.
    split; eapply Forall_impl; [exact inv_readers0| |exact inv_reloaders0|]; cbn.
    - intros rd (? & _). cbn in *. lia.
    - intros q (? & _). lia. }
  assert (filter (fun q => (rl_start q =? start) = true) rls = []) as Hnone.
  { clear -Hrl. induction Hrl as [|q rls Hq _ IH]; [done|]. rewrite filter_cons, decide_False by lia. done. }
  split; cbn in *; unfold reader_ok, current_ok, isCurrent, rows in *; cbn in *; rewrite ?Hl, ?Hr, ?Hp in *; try done; try lia.
  - left. by exists now.
  - apply Forall_forall. intros rd Hin. rewrite Forall_forall in Hrd, inv_readers0. specialize (Hrd rd Hin).
    destruct (inv_readers0 rd Hin) as (_ & ? & _). split; [lia|]. split; [done|]. lia.
  - apply Forall_forall. intros q Hin. rewrite Forall_forall in Hrl, inv_reloaders0. specialize (Hrl q Hin).
    destruct (inv_reloaders0 q Hin) as (_ & ? & _). split; [lia|]. split; [done|]. done.
  - by left.
  - unfold zeroTime. lia.
Qed.

(** A first-sight read begins. *)
Lemma inv_begin_read period y display s asked :
  budget_Period (subject_Budget s) = period → periodStart (ent y) = PeriodStart period (sys_now y) →
  loadedAt (ent y) = zeroTime → inv period y →
  inv period (y ⟦ readers := readers y ++ [MkReader display s asked (periodStart (ent y)) (sys_now y) None] ⟧).
Proof.
  destruct y as [now ch un e rds rls ms]. cbn. intros Hsp Hp Hl [].
  split; cbn in *; unfold reader_ok, current_ok, isCurrent, rows in *; cbn in *; try done.
  - left. by exists now.
  - apply Forall_app. split; [done|]. apply Forall_singleton. cbn. split; [done|]. split; [lia|]. intros _. split; [|done].
    eapply Forall_impl; [exact inv_reloaders0|]. cbn. intros q (_ & ? & _). done.
  - apply Forall_app. split; [done|]. by apply Forall_singleton.
Qed.

(** A reload is launched: over a figure that has aged, or again after a charge
    overlapped it. *)
Lemma inv_launch period y e' :
  let e := ent y in
  (∃ t, periodStart e = PeriodStart period t ∧ t ≤ sys_now y) → loadedAt e ≠ zeroTime →
  filter (fun q => (rl_start q =? periodStart e) = true) (reloaders y) = [] →
  reloading e = true ∨ refreshInterval ≤ sys_now y - loadedAt e →
  core e' = (periodStart e, spent e, loadedAt e, true, chargeSeq e, 0) → inv period y →
  inv period (y ⟦ ent := e' ⟧ ⟦ reloaders := reloaders y ++ [MkReloader (periodStart e) (chargeSeq e) (sys_now y) None] ⟧).
Proof.
  cbv zeta. destruct y as [now ch un e rds rls ms]. cbn. intros Hp Hl Hnone Hage Hcore [].
  unfold core in Hcore. injection Hcore as E1 E2 E3 E4 E5 E6.
  split; cbn in *; unfold reader_ok, current_ok, isCurrent, rows in *; cbn in *; rewrite ?E1, ?E2, ?E3, ?E4, ?E5, ?E6; try done.
  - by left.
  - eapply Forall_impl; [exact inv_readers0|]. intros rd (? & ? & Hrd). split; [done|]. split; [done|].
    intros Hs. destruct (Hrd Hs) as [? _]. split; [|done]. apply Forall_app. split; [done|]. by apply Forall_singleton.
  - apply Forall_app. split; [|apply Forall_singleton; cbn; split; [done|]; split; [lia|done]].
    eapply Forall_impl; [exact inv_reloaders0|]. cbn. intros q (? & ? & Hq). split; [done|]. split; [done|].
    intros Hne. destruct (Hq Hne) as [Hle Hst]. split; [done|]. specialize (Hle Hl). intros Hland.
    destruct Hage as [Hr|Hage]; [|lia]. rewrite Hst in Hr by done. done.
  - right. eexists. rewrite filter_app, filter_cons, decide_True, Hnone, filter_nil by (cbn; lia). split; [done|].
    split; [done|]. split; [done|]. split; [done|]. done.
  - intros _. pose proof (charged_nonneg (periodStart e) ch un inv_rows0). lia.
Qed.

Lemma inv_refresh period y display s asked :
  budget_Period (subject_Budget s) = period → inv period y → inv period (afterRefresh y display s asked).
Proof.
  intros Hs Hinv. unfold afterRefresh, refresh. rewrite Hs. set (start := PeriodStart period (sys_now y)).
  pose proof (inv_roll period y Hinv) as Hr. cbv zeta in Hr. fold start in Hr.
  pose proof (roll_start (ent y) start) as Hp. set (e := roll (ent y) start) in *. clearbody e.
  set (ms := if Equal (periodStart e) (periodStart (ent y)) then missed y else 0) in *.
  assert (∀ e', periodStart e' = periodStart e → (if Equal (periodStart e') (periodStart (ent y)) then missed y else 0) = ms) as Hms
    by (unfold ms; by intros e' ->).
  destruct y as [now ch un e0 rds rls ms0]. cbn in *. clearbody ms. unfold IsZero.
  destruct (Z.eqb_spec (loadedAt e) zeroTime) as [Hl|Hl].
  - destruct (_ && _); cbn; rewrite Hms by done; [exact Hr|]. rewrite <- Hp.
    apply (inv_begin_read period (MkSystem now ch un e rds rls ms)); done.
  - destruct (_ || _) eqn:Hage; cbn.
    + rewrite Hms by done. apply (inv_ent period (MkSystem now ch un e rds rls ms)); [apply judgedEntry_core|exact Hr].
    + apply orb_false_iff in Hage as [Hage Hrel]. apply Z.ltb_ge in Hage.
      rewrite Hms by done. apply (inv_ent period (MkSystem now ch un (e ⟦ reloading := true ⟧ ⟦ chargedSince := 0 ⟧) rds
        (rls ++ [MkReloader start (chargeSeq e) now None]) ms)); [apply judgedEntry_core|]. rewrite <- Hp.
      apply (inv_launch period (MkSystem now ch un e rds rls ms)); cbn; try done.
      * by exists now.
      * destruct (inv_current _ _ Hr) as [?|(q & _ & Hq & _)]; [done|]. cbn in Hq. congruence.
      * right. unfold Sub, refreshInterval, sat64, int64_min, int64_max, Minute, Second in *. lia.
Qed.

(** A figure installed, or kept, with no reload of the period in flight. *)
Lemma inv_settled period y e' ms' :
  let e := ent y in
  inv period y → (∃ t, periodStart e = PeriodStart period t ∧ t ≤ sys_now y) →
  filter (fun q => (rl_start q =? periodStart e) = true) (reloaders y) = [] →
  periodStart e' = periodStart e → reloading e' = false → loadedAt e' ≤ sys_now y → 0 ≤ ms' →
  (loadedAt e' = zeroTime → loadedAt e = zeroTime ∧ ms' = missed y) →
  (loadedAt e' ≠ zeroTime →
     Forall (fun q => rl_start q ≠ periodStart e → rl_launched q ≤ loadedAt e') (reloaders y) ∧
     chargedSum (periodStart e) (charged y) ≤ spent e' + ms' ∧
     spent e' ≤ storeSum (periodStart e) (rows y) + chargedSum (periodStart e) (charged y)) →
  inv period (y ⟦ ent := e' ⟧ ⟦ missed := ms' ⟧).
Proof.
  cbv zeta. destruct y as [now ch un e rds rls ms]. cbn. intros [] Hper Hnone Hp Hr Hnow Hms Hun Hl.
  split; cbn in *; unfold reader_ok, current_ok, isCurrent, rows in *; cbn in *; rewrite ?Hp, ?Hr; try done.
  - by left.
  - eapply Forall_impl; [exact inv_readers0|]. intros rd (? & ? & Hrd). split; [done|]. split; [done|]. intros Hs.
    destruct (Hrd Hs) as [? Hv]. split; [done|]. intros Hl'. destruct (Hun Hl') as [Hle ->]. by apply Hv.
  - apply Forall_forall. intros q Hin. rewrite Forall_forall in inv_reloaders0. destruct (inv_reloaders0 q Hin) as (? & ? & Hq).
    split; [done|]. split; [done|]. intros Hne. split; [|done]. intros Hl'. destruct (Hl Hl') as [Hall _].
    rewrite Forall_forall in Hall. by apply Hall.
  - by left.
  - intros Hl'. by destruct (Hl Hl') as (_ & ? & _).
  - intros Hl'. by destruct (Hl Hl') as (_ & _ & ?).
Qed.

(** The steps that take the lock again. *)
Lemma inv_drop_reader period y l1 rd l2 : readers y = l1 ++ rd :: l2 → inv period y → inv period (y ⟦ readers := l1 ++ l2 ⟧).
Proof.
  destruct y as [now ch un e rds rls ms]. cbn. intros -> [].
  assert (∀ P : reader → Prop, Forall P (l1 ++ rd :: l2) → Forall P (l1 ++ l2)) as Hdrop.
  { intros P [? [_ ?]%Forall_cons]%Forall_app. by apply Forall_app. }
  split; cbn in *; unfold reader_ok, current_ok, isCurrent, rows in *; cbn in *; auto.
  destruct inv_period0 as [?|(Hn & _)]; [by left|]. by destruct l1.
Qed.

Lemma inv_land period y l1 rd l2 res :
  readers y = l1 ++ rd :: l2 → rd_answer rd = Some res → inv period y →
  inv period (landReader (y ⟦ readers := l1 ++ l2 ⟧) rd res).
Proof.
  intros Hrds Ha Hinv. pose proof (inv_drop_reader period y l1 rd l2 Hrds Hinv) as Hdrop.
  assert (reader_ok y rd ∧ budget_Period (subject_Budget (rd_subject rd)) = period) as [(Hs & Hnow & Hrd) Hsub].
  { pose proof (inv_readers _ _ Hinv) as H1. pose proof (inv_subjects _ _ Hinv) as H2. rewrite Hrds in H1, H2.
    apply Forall_app in H1 as [_ H1]. apply Forall_app in H2 as [_ H2]. apply Forall_cons in H1 as [? _], H2 as [? _]. done. }
  unfold landReader, landRead. cbn [ent update_field upd_readers]. unfold Equal, IsZero.
  destruct (Z.eqb_spec (periodStart (ent y)) (rd_start rd)) as [Heq|Hne]; cbn [negb].
  2: { by apply inv_refresh. }
  destruct (Z.eqb_spec (loadedAt (ent y)) zeroTime) as [Hl|Hl]; cbn [negb].
  2: { apply inv_ent; [apply judgedEntry_core|exact Hdrop]. }
  destruct (Hrd (eq_sym Heq)) as [Hq Hv]. specialize (Hv Hl).
  destruct res as [sum|]; [|apply inv_ent; [done|exact Hdrop]].
  destruct (Hv sum Ha) as [Hlow Hup].
  assert (∃ t, periodStart (ent y) = PeriodStart period t ∧ t ≤ sys_now y) as Hper.
  { destruct (inv_period _ _ Hinv) as [?|(Hn & _)]; [done|]. rewrite Hrds in Hn. by destruct l1. }
  set (e' := _ ⟦ exceeded := _ ⟧).
  change (inv period (y ⟦ readers := l1 ++ l2 ⟧ ⟦ ent := e' ⟧
    ⟦ ent := judgedEntry (rd_display rd) (rd_subject rd) e' (rd_asked rd) ⟧)).
  apply inv_ent; [apply judgedEntry_core|].
  replace (y ⟦ readers := l1 ++ l2 ⟧ ⟦ ent := e' ⟧) with (y ⟦ readers := l1 ++ l2 ⟧ ⟦ ent := e' ⟧ ⟦ missed := missed y ⟧) by by destruct y.
  pose proof (inv_rows _ _ Hinv) as Hrows. pose proof (charged_nonneg (periodStart (ent y)) _ _ Hrows).
  apply inv_settled; destruct y as [now ch un e rds rls ms]; cbn in *; try done; try lia.
  - by apply (inv_unloaded _ _ Hinv).
  - by apply (inv_unloaded _ _ Hinv).
  - by apply (inv_missed _ _ Hinv).
  - intros _. split; [done|]. lia.
Qed.

Lemma inv_drop_reloader period y l1 q l2 :
  reloaders y = l1 ++ q :: l2 → inv period y → inv period (y ⟦ reloaders := l1 ++ l2 ⟧).
Proof.
  destruct y as [now ch un e rds rls ms]. cbn. intros -> [].
  assert (∀ P : reloader → Prop, Forall P (l1 ++ q :: l2) → Forall P (l1 ++ l2)) as Hdrop.
  { intros P [? [_ ?]%Forall_cons]%Forall_app. by apply Forall_app. }
  split; cbn in *; unfold reader_ok, current_ok, isCurrent, rows in *; cbn in *; auto.
  - destruct inv_period0 as [?|(_ & Hn & _)]; [by left|]. by destruct l1.
  - eapply Forall_impl; [exact inv_readers0|]. intros rd (? & ? & Hrd). split; [done|]. split; [done|]. intros Hs.
    destruct (Hrd Hs) as [? ?]. split; [|done]. by apply Hdrop.
  - destruct (Z.eqb_spec (rl_start q) (periodStart e)) as [Heq|Hne].
    + left. destruct inv_current0 as [Hf|(q0 & Hf & Hok)].
      * rewrite filter_app, filter_cons, decide_True in Hf by lia. by destruct (filter _ l1).
      * destruct (current_split _ _ _ _ _ Hf Heq) as (-> & Hf1 & Hf2). by rewrite filter_app, Hf1, Hf2.
    + rewrite filter_app, filter_cons, decide_False in inv_current0 by lia. by rewrite filter_app.
  - intros Hl. destruct (inv_unloaded0 Hl) as [? Hf]. split; [done|]. rewrite filter_app, filter_cons in Hf. rewrite filter_app.
    destruct (decide _); [|done]. by destruct (filter _ l1).
Qed.

(** With the current reload taken out, none is left. *)
Lemma no_current period y l1 q l2 :
  reloaders y = l1 ++ q :: l2 → rl_start q = periodStart (ent y) → inv period y →
  filter (fun q => (rl_start q =? periodStart (ent y)) = true) (l1 ++ l2) = [] ∧ current_ok y q.
Proof.
  intros Hrls Hq Hinv. destruct (inv_current _ _ Hinv) as [Hf|(q0 & Hf & Hok)]; unfold isCurrent in *; rewrite Hrls in Hf.
  - rewrite filter_app, filter_cons, decide_True in Hf by lia. by destruct (filter _ l1).
  - destruct (current_split _ _ _ _ _ Hf Hq) as (-> & Hf1 & Hf2). by rewrite filter_app, Hf1, Hf2.
Qed.

Lemma inv_reload period y l1 q l2 res :
  reloaders y = l1 ++ q :: l2 → rl_answer q = Some res → sys_now y < rl_launched q + refreshInterval → inv period y →
  inv period (landReload (y ⟦ reloaders := l1 ++ l2 ⟧) q res).
Proof.
  intros Hrls Ha Htime Hinv. pose proof (inv_drop_reloader period y l1 q l2 Hrls Hinv) as Hdrop.
  assert (∃ t, periodStart (ent y) = PeriodStart period t ∧ t ≤ sys_now y) as Hper.
  { destruct (inv_period _ _ Hinv) as [?|(_ & Hn & _)]; [done|]. rewrite Hrls in Hn. by destruct l1. }
  pose proof (inv_reloaders _ _ Hinv) as Hall. rewrite Hrls in Hall. apply Forall_app in Hall as [_ Hall].
  apply Forall_cons in Hall as [(_ & Hlaunch & Hstale) _].
  unfold landReload, reload. cbn [ent update_field upd_reloaders sys_now]. unfold Equal.
  destruct (Z.eqb_spec (periodStart (ent y)) (rl_start q)) as [Heq|Hne]; cbn [negb andb].
  2: { destruct (Hstale (not_eq_sym Hne)) as [_ Hoff]. specialize (Hoff Htime).
       assert (∀ e', core e' = (periodStart (ent y), spent (ent y), loadedAt (ent y), false, chargeSeq (ent y), 0) →
         inv period (y ⟦ reloaders := l1 ++ l2 ⟧ ⟦ ent := e' ⟧ ⟦ missed := missed y ⟧)) as Hset; [|by apply Hset].
       intros e' Hcore. unfold core in Hcore. injection Hcore as E1 E2 E3 E4 E5 E6.
       assert (filter (fun q => (rl_start q =? periodStart (ent y)) = true) (l1 ++ l2) = []) as Hnone.
       { destruct (inv_current _ _ Hdrop) as [?|(q0 & _ & Hq & _)]; [done|]. cbn in Hq. congruence. }
       destruct y as [now ch un e rds rls ms]. apply inv_settled; cbn in *; rewrite ?E3, ?E2; try done;
         [by apply (inv_loaded _ _ Hinv)|by apply (inv_missed _ _ Hinv)|]. intros Hl. split.
       - eapply Forall_impl; [exact (inv_reloaders _ _ Hdrop)|]. cbn. intros q0 (_ & _ & Hq0) Hne0. destruct (Hq0 Hne0). auto.
       - split; [by apply (inv_low _ _ Hinv)|by apply (inv_up _ _ Hinv)]. }
  destruct (no_current _ _ _ _ _ Hrls (eq_sym Heq) Hinv) as [Hnone (Hrel & Hseq & Hle & Hsum)].
  assert (loadedAt (ent y) ≠ zeroTime) as Hl.
  { intros Hl. destruct (inv_unloaded _ _ Hinv Hl) as [Hf _]. congruence. }
  pose proof (inv_since _ _ Hinv Hrel) as Hsince.
  assert (∀ e' ms', core e' = (periodStart (ent y), spent e', sys_now y, false, chargeSeq (ent y), 0) →
    0 ≤ ms' → chargedSum (periodStart (ent y)) (charged y) ≤ spent e' + ms' →
    spent e' ≤ storeSum (periodStart (ent y)) (rows y) + chargedSum (periodStart (ent y)) (charged y) →
    inv period (y ⟦ reloaders := l1 ++ l2 ⟧ ⟦ ent := e' ⟧ ⟦ missed := ms' ⟧)) as Hset.
  { intros e' ms' Hcore Hms Hlow Hup. unfold core in Hcore. injection Hcore as E1 E2 E3 E4 E5.
    pose proof (inv_now _ _ Hinv) as Hpos. destruct y as [now ch un e rds rls ms].
    apply inv_settled; cbn in *; rewrite ?E2; try done; try (unfold zeroTime; lia).
    intros _. split; [|done]. eapply Forall_impl; [exact (inv_reloaders _ _ Hdrop)|]. cbn. intros q0 (_ & ? & _). done. }
  destruct res as [sum|].
  - destruct (Hsum sum Ha) as [Hlow Hup].
    destruct (Z.eqb_spec (chargeSeq (ent y)) (rl_seq q)) as [Hs|Hs]; cbn [negb andb].
    + specialize (Hseq Hs). apply Hset; cbn; try done; lia.
    + destruct (_ <? _).
      * rewrite <- Heq. destruct y as [now ch un e rds rls ms].
        apply (inv_launch period (MkSystem now ch un e rds (l1 ++ l2) ms)); cbn in *; try done; [by left|].
        unfold core. cbn. by rewrite Hrel.
      * apply Hset; cbn; try done; lia.
  - pose proof (inv_low _ _ Hinv Hl). pose proof (inv_up _ _ Hinv Hl). pose proof (inv_missed _ _ Hinv). by apply Hset.
Qed.

Lemma reachable_inv period y : reachable period y → inv period y.
Proof.
  induction 1 as [t Ht|y y' _ IH Hstep].
  - split; cbn; try done; try lia; [by right|by left|unfold zeroTime; lia].
  - destruct Hstep; [by apply inv_clock|by apply inv_row|by apply inv_charge|by apply inv_refresh|by apply inv_answer|
      by apply (inv_land period y l1 rd l2)|by apply inv_reloadAnswer|by apply (inv_reload period y l1 q l2)].
Qed.

(** ** Properties *)

(** C34. A known figure misses no charge. Whatever is in flight - reads, reloads
    of this period or of one that rolled, rows not charged yet - the figure
    holds every charge of its period but those made while it was unknown, and
    a reload that lands brings those in too; it exceeds the store's sum by no
    more than what was charged, so no row counts more than twice. A reload that
    no charge overlapped installs the store's sum as it is, and one that charges
    keep overlapping runs again three times at most. *)
Theorem budget_never_misses period y :
  reachable period y → loadedAt (ent y) ≠ zeroTime →
  let P := periodStart (ent y) in
  chargedSum P (charged y) ≤ spent (ent y) + missed y ∧
  spent (ent y) ≤ storeSum P (rows y) + chargedSum P (charged y) ∧
  ∀ l1 q l2 sum, reloaders y = l1 ++ q :: l2 → rl_answer q = Some (Some sum) → rl_start q = P →
    let y' := landReload (y ⟦ reloaders := l1 ++ l2 ⟧) q (Some sum) in
    reloading (ent y) = true ∧
    if reloading (ent y') then overlapped (ent y') = overlapped (ent y) + 1 ∧ overlapped (ent y') ≤ maxOverlappedReloads
    else chargedSum P (charged y') ≤ spent (ent y') ∧ missed y' = 0 ∧
         (chargeSeq (ent y) = rl_seq q → spent (ent y') = sum).
Proof.
  intros Hr Hl. cbv zeta. pose proof (reachable_inv _ _ Hr) as Hinv.
  split; [by apply (inv_low _ _ Hinv)|]. split; [by apply (inv_up _ _ Hinv)|].
  intros l1 q l2 sum Hrls Ha Hq. destruct (no_current _ _ _ _ _ Hrls Hq Hinv) as [_ (Hrel & Hseq & _ & Hsum)].
  destruct (Hsum sum Ha) as [Hlow _]. split; [exact Hrel|].
  unfold landReload, reload. cbn [ent update_field upd_reloaders sys_now]. unfold Equal. rewrite Hq, Z.eqb_refl. cbn [negb andb].
  destruct (Z.eqb_spec (chargeSeq (ent y)) (rl_seq q)) as [Hs|Hs]; cbn [negb andb].
  - specialize (Hseq Hs). cbn. split; [lia|]. done.
  - destruct (Z.ltb_spec (overlapped (ent y)) maxOverlappedReloads); cbn; rewrite ?Hrel; [lia|].
    split; [lia|]. split; [done|]. done.
Qed.

Lemma demo_reachable : reachable PeriodDay demo5.
Proof.
  apply (ReachStep _ demo4); [|by apply (StepCharge _ demo4 [])].
  apply (ReachStep _ demo3); [|apply (StepRow _ demo3); evaluate].
  apply (ReachStep _ demo2); [|apply (StepLand _ demo2 [] (MkReader true demoKey leapNoon (daysOf 2024 2 29 * Day) leapNoon (Some (Some 0))) []); done].
  apply (ReachStep _ demo1); [|apply (StepAnswer _ demo1 [] (MkReader true demoKey leapNoon (daysOf 2024 2 29 * Day) leapNoon None) []);
    [vm_compute; reflexivity|right; vm_compute; reflexivity]].
  apply (ReachStep _ (initial leapNoon)); [apply ReachInit; evaluate|by apply (StepAsk _ (initial leapNoon))].
Qed.

Lemma budget_never_misses_witness :
  spent (ent demo5) = 7 ∧ chargedSum (periodStart (ent demo5)) (charged demo5) ≤ spent (ent demo5) + missed demo5.
Proof.
  split; [vm_compute; reflexivity|].
  destruct (budget_never_misses PeriodDay demo5 demo_reachable ltac:(evaluate)) as (H & _). exact H.
Defined.
