(* ===== verification/GoText.v ===== *)
(** * Numbers and instants as text

    What Go's standard library makes of the strings a payload carries: white
    space and letter case (package strings), decimal integers and float64
    literals (package strconv), RFC 3339 instants (package time). Strings are
    the bytes of their UTF-8 encoding. *)

From Stdlib Require Import Ascii SpecFloat.
From S2P Require Import Prelude Double Calendar.

(** ** Package strings *)

Definition bytes (l : list N) : string := String.string_of_list_ascii (ascii_of_N <$> l).

(** The encodings of what [unicode.IsSpace] accepts. *)
Definition whitespace : list string :=
  bytes <$> ([[9]; [10]; [11]; [12]; [13]; [32]; [0xC2; 0x85]; [0xC2; 0xA0]; [0xE1; 0x9A; 0x80]]
    ++ ((λ b, [0xE2; 0x80; b]) <$> [0x80; 0x81; 0x82; 0x83; 0x84; 0x85; 0x86; 0x87; 0x88; 0x89; 0x8A; 0xA8; 0xA9; 0xAF])
    ++ [[0xE2; 0x81; 0x9F]; [0xE3; 0x80; 0x80]])%N.

(** Each round drops at least one byte: a string's length is rounds enough. *)
Fixpoint trimLeft (spaces : list string) (rounds : nat) (s : string) : string :=
  match rounds with
  | O => s
  | S rounds =>
      match omap (λ w, stripPrefix w s) spaces with
      | s :: _ => trimLeft spaces rounds s
      | [] => s
      end
  end.

Definition TrimSpace (s : string) : string :=
  let s := trimLeft whitespace (String.length s) s in
  String.rev (trimLeft (String.rev <$> whitespace) (String.length s) (String.rev s)).

Definition TrimPrefix (s p : string) : string := default s (stripPrefix p s).

Definition lowerByte (a : ascii) : ascii :=
  let n := N_of_ascii a in
  if (65 <=? n)%N && (n <=? 90)%N then ascii_of_N (n + 32) else a.

(** Lower case; the Kelvin sign and the long s are the two letters outside ASCII
    that lower or fold to one inside it. *)
Fixpoint lowered (fold : bool) (s : string) : string :=
  match s with
  | EmptyString => EmptyString
  | String a s' =>
      let other := String (lowerByte a) (lowered fold s') in
      match s' with
      | String b s2 =>
          let long := (N_of_ascii a =? 0xC5)%N && (N_of_ascii b =? 0xBF)%N in
          match s2 with
          | String c s3 =>
              if (N_of_ascii a =? 0xE2)%N && (N_of_ascii b =? 0x84)%N && (N_of_ascii c =? 0xAA)%N
              then String (ascii_of_N 107) (lowered fold s3)
              else if fold && long then String (ascii_of_N 115) (lowered fold s2) else other
          | EmptyString => if fold && long then String (ascii_of_N 115) EmptyString else other
          end
      | EmptyString => other
      end
  end.

Definition ToLower : string → string := lowered false.
Definition EqualFold (s t : string) : bool := bool_decide (lowered true s = lowered true t).

(** ** Package strconv *)

Definition digitOf (a : ascii) : option Z :=
  let n := N_of_ascii a in
  if (48 <=? n)%N && (n <=? 57)%N then Some (Z.of_N n - 48) else None.

Fixpoint digitsFrom (acc : Z) (s : string) : option Z :=
  match s with
  | EmptyString => Some acc
  | String a s => d ← digitOf a; digitsFrom (acc * 10 + d) s
  end.

Definition digits (s : string) : option Z :=
  match s with EmptyString => None | _ => digitsFrom 0 s end.

(** [strconv.ParseInt(s, 10, 64)]; [None] is its error. *)
Definition ParseInt (s : string) : option Z :=
  v ← match s with
      | String "-" s => Z.opp <$> digits s
      | String "+" s => digits s
      | _ => digits s
      end;
  if (int64_min <=? v) && (v <=? int64_max) then Some v else None.

(** A number as JSON writes it: sign, all its digits as one integer, the power
    of ten they are scaled by, and whether it had neither point nor exponent. *)
Record Numeral := MkNumeral { negative : bool; mantissa : N; exponent : Z; plain : bool }.

Definition numeralZ (z : Z) : Numeral := MkNumeral (z <? 0) (Z.abs_N z) 0 true.

(** The double nearest to [m / d], ties to even. *)
Definition nearest (s : bool) (m d : positive) : double :=
  let '(q, e, l) := SFdiv_core_binary dprec demax (Z.pos m) 0 (Z.pos d) 0 in
  binary_round_aux dprec demax s q e l.

(** [strconv.ParseFloat(lit, 64)]; [None] is its range error. *)
Definition ParseFloat (n : Numeral) : option double :=
  match mantissa n with
  | N0 => Some (S754_zero (negative n))
  | Npos m =>
      let f := if 0 <=? exponent n
               then binary_normalize dprec demax (cond_Zopp (negative n) (Z.pos m * 10 ^ exponent n)) 0 false
               else nearest (negative n) m (Z.to_pos (10 ^ (- exponent n))) in
      match f with S754_infinity _ | S754_nan => None | _ => Some f end
  end.

(** A constant of the source, [m / 10^k]. *)
Definition literal (m : positive) (k : Z) : double := nearest false m (Z.to_pos (10 ^ k)).

(** [ParseInt(lit, 10, 64)] on such a number. *)
Definition intLiteral (n : Numeral) : option Z :=
  let v := cond_Zopp (negative n) (Z.of_N (mantissa n)) in
  if plain n && (int64_min <=? v) && (v <=? int64_max) then Some v else None.

(** ** Package time *)

Definition Unix (sec : Z) : Time := unixEpoch + sec * Second.
Definition UnixMilli (msec : Z) : Time := unixEpoch + msec * 1000000.

(** [getnum]: two digits, or one where the layout does not fix the width. *)
Definition getnum (fixed : bool) (s : string) : option (Z * string) :=
  match s with
  | String a s' =>
      d ← digitOf a;
      match s' with
      | String b s'' =>
          match digitOf b with
          | Some d' => Some (d * 10 + d', s'')
          | None => if fixed then None else Some (d, s')
          end
      | EmptyString => if fixed then None else Some (d, s')
      end
  | EmptyString => None
  end.

Definition timeField (fixed : bool) (lo hi : Z) (s : string) : option (Z * string) :=
  '(n, s) ← getnum fixed s;
  if (lo <=? n) && (n <=? hi) then Some (n, s) else None.

(** The year: four bytes, the first a digit, that [atoi] accepts. *)
Definition yearField (s : string) : option (Z * string) :=
  match s with
  | String a (String b (String c (String d s))) =>
      y ← digits (String a (String b (String c (String d EmptyString)))); Some (y, s)
  | _ => None
  end.

Fixpoint takeDigits (s : string) : string * string :=
  match s with
  | String a s' =>
      match digitOf a with
      | Some _ => let '(l, r) := takeDigits s' in (String a l, r)
      | None => (EmptyString, s)
      end
  | EmptyString => (EmptyString, EmptyString)
  end.

(** A fraction of a second the layout does not ask for: nine digits count. *)
Definition fraction (s : string) : Z * string :=
  match s with
  | String a s' =>
      if bool_decide (a = "."%char) || bool_decide (a = ","%char) then
        match takeDigits s' with
        | (EmptyString, _) => (0, s)
        | (ds, rest) =>
            let ds := String.substring 0 9 ds in
            (default 0 (digits ds) * 10 ^ (9 - Z.of_nat (String.length ds)), rest)
        end
      else (0, s)
  | EmptyString => (0, s)
  end.

(** [Z] or [+hh:mm], in seconds east of Greenwich; nothing may follow. *)
Definition zone (s : string) : option Z :=
  match s with
  | String "Z" EmptyString => Some 0
  | String sign s =>
      '(hh, s) ← timeField true 0 24 s;
      s ← stripPrefix ":" s;
      '(mm, s) ← timeField true 0 60 s;
      match s, sign with
      | EmptyString, "+"%char => Some ((hh * 60 + mm) * 60)
      | EmptyString, "-"%char => Some (- ((hh * 60 + mm) * 60))
      | _, _ => None
      end
  | EmptyString => None
  end.

Definition daysIn (m y : Z) : Z := default 0 (monthLengths y !! Z.to_nat (m - 1)).

(** [time.Parse(time.RFC3339, s)]. *)
Definition ParseRFC3339 (s : string) : option Time :=
  '(y, s) ← yearField s; s ← stripPrefix "-" s;
  '(mo, s) ← timeField true 1 12 s; s ← stripPrefix "-" s;
  '(d, s) ← getnum true s; s ← stripPrefix "T" s;
  '(h, s) ← timeField false 0 23 s; s ← stripPrefix ":" s;
  '(mi, s) ← timeField true 0 59 s; s ← stripPrefix ":" s;
  '(sec, s) ← timeField true 0 59 s;
  let '(ns, s) := fraction s in
  east ← zone s;
  if (1 <=? d) && (d <=? daysIn mo y)
  then Some (daysOf y mo d * Day + ((h * 60 + mi) * 60 + sec - east) * Second + ns)
  else None.

(** ** Examples *)

Example TrimSpace_both : TrimSpace (bytes [32; 0xC2; 0xA0; 49; 32; 50; 10; 0xE3; 0x80; 0x80]%N) = "1 2".
Proof. reflexivity. Qed.

Example EqualFold_kelvin : EqualFold (bytes [79; 0xE2; 0x84; 0xAA]%N) "ok" = true ∧ EqualFold "oh" "ok" = false.
Proof. done. Qed.

Example ParseInt_edges :
  ParseInt "-9223372036854775808" = Some int64_min ∧ ParseInt "9223372036854775808" = None ∧
  ParseInt "+7" = Some 7 ∧ ParseInt "" = None ∧ ParseInt "-" = None ∧ ParseInt "1.0" = None.
Proof. done. Qed.

(** 0.1 and 1e-9, as Go has them; 1e400 is out of range. *)
Example ParseFloat_values :
  ParseFloat (MkNumeral false 1 (-1) false) = Some (S754_finite false 7205759403792794 (-56)) ∧
  literal 1 9 = S754_finite false 4835703278458517 (-82) ∧
  ParseFloat (MkNumeral false 1 400 false) = None ∧
  ParseFloat (MkNumeral true 25 0 true) = Some (ofZ (-25)).
Proof. vm_compute. done. Qed.

Example ParseRFC3339_values :
  ParseRFC3339 "1970-01-01T00:00:00Z" = Some unixEpoch ∧
  ParseRFC3339 "2026-02-28T23:59:59.25+01:00" = Some (Unix 1772319599 + 250000000) ∧
  ParseRFC3339 "2024-02-29T5:00:00-00:30" = Some (Unix 1709184600) ∧
  ParseRFC3339 "2023-02-29T05:00:00Z" = None ∧ ParseRFC3339 "2024-02-29T05:00:00" = None ∧
  ParseRFC3339 "2024-02-29 05:00:00Z" = None.
Proof. vm_compute. done. Qed.
