(* ===== verification/GoJson.v ===== *)
(** * What [json.Unmarshal] makes of a payload

    A JSON value as its text has it: the members of an object in the order they
    came, repetitions included. Decoding into a Go value follows package
    encoding/json: a decoder writes onto what is there, a null leaves everything
    but pointers and slices alone, a member nobody claims is skipped, keys match
    exactly or else up to case, and a value of the wrong type anywhere fails the
    whole document. *)

From stdpp Require Import sorting.
From S2P Require Import Prelude Double GoText.

Inductive Json : Set :=
  | JNull
  | JBool (b : bool)
  | JNumber (n : Numeral)
  | JString (s : string)
  | JArray (l : list Json)
  | JObject (ms : list (string * Json)).

(** [json.RawMessage]. *)
Inductive RawMessage : Set :=
  | Empty                     (* no bytes *)
  | Garbled                   (* bytes that are not a JSON document *)
  | Document (j : Json).

(** ** Decoders *)

Definition Decoder (A : Type) : Type := A → Json → option A.

Definition onNull {A : Type} (d : Json → option A) : Decoder A :=
  λ cur j, match j with JNull => Some cur | _ => d j end.

Definition boolField : Decoder bool := onNull (λ j, match j with JBool b => Some b | _ => None end).
Definition stringField : Decoder string := onNull (λ j, match j with JString s => Some s | _ => None end).
Definition intField : Decoder Z := onNull (λ j, match j with JNumber n => intLiteral n | _ => None end).
Definition floatField : Decoder double := onNull (λ j, match j with JNumber n => ParseFloat n | _ => None end).

(** A pointer: allocated from the zero value when it was nil. *)
Definition pointer {A : Type} (zero : A) (d : Decoder A) : Decoder (option A) :=
  λ cur j, match j with JNull => Some None | _ => Some <$> d (default zero cur) j end.

(** A slice: element by element over the ones it had. *)
Fixpoint elementsOnto {A : Type} (zero : A) (d : Decoder A) (cur : list A) (l : list Json) : option (list A) :=
  match l with
  | [] => Some []
  | j :: l => a ← d (default zero (head cur)) j; rest ← elementsOnto zero d (tail cur) l; Some (a :: rest)
  end.

Definition slice {A : Type} (zero : A) (d : Decoder A) : Decoder (list A) :=
  λ cur j, match j with JNull => Some [] | JArray l => elementsOnto zero d cur l | _ => None end.

(** A struct: a decoder for each of its tagged fields. *)
Definition Fields (A : Type) : Type := list (string * Decoder A).

Definition claimedBy {A : Type} (fs : Fields A) (key : string) : option (Decoder A) :=
  match list_find (λ f, f.1 = key) fs with
  | Some (_, f) => Some f.2
  | None => (λ f, f.2.2) <$> list_find (λ f, EqualFold f.1 key = true) fs
  end.

Fixpoint membersOnto {A : Type} (fs : Fields A) (cur : A) (ms : list (string * Json)) : option A :=
  match ms with
  | [] => Some cur
  | (key, j) :: ms => cur ← match claimedBy fs key with Some d => d cur j | None => Some cur end; membersOnto fs cur ms
  end.

Definition struct {A : Type} (fs : Fields A) : Decoder A :=
  λ cur j, match j with JNull => Some cur | JObject ms => membersOnto fs cur ms | _ => None end.

(** A field of the record. *)
Definition into {R A : Type} (proj : R → A) `{!Updater proj} (d : Decoder A) : Decoder R :=
  λ r j, v ← d (proj r) j; Some (r ⟦ proj := v ⟧).

(** A field whose value nobody reads: only its type counts. *)
Definition unread {R A : Type} (zero : A) (d : Decoder A) : Decoder R := λ r j, _ ← d zero j; Some r.

(** [json.Unmarshal]; [None] is any error. *)
Definition Unmarshal {A : Type} (zero : A) (d : Decoder A) (raw : RawMessage) : option A :=
  match raw with Document j => d zero j | _ => None end.

(** ** Decoding to [any] *)

(** A number is a float64, so one out of range fails the document. *)
Fixpoint decodable (j : Json) : bool :=
  match j with
  | JNumber n => if ParseFloat n then true else false
  | JArray l => forallb decodable l
  | JObject ms => forallb (λ m, decodable m.2) ms
  | _ => true
  end.

(** The map an object becomes: the last of a key's members counts. *)
Definition entries (ms : list (string * Json)) : gmap string Json := foldl (λ m e, <[e.1 := e.2]> m) ∅ ms.

(** [slices.Sorted(maps.Keys(m))]. *)
Definition sortedKeys {A : Type} (m : gmap string A) : list string := merge_sort String.le (map_to_list m).*1.

(** ** Examples *)

Record point := MkPoint { px : Z; plabel : string; pnext : option Z }.
Definition point_eta (p : point) : point := MkPoint (px p) (plabel p) (pnext p).
#[local] Instance upd_px : Updater px := ltac:(derive_updater point_eta).
#[local] Instance upd_pnext : Updater pnext := ltac:(derive_updater point_eta).
Definition pointField : Decoder point :=
  struct [("x", into px intField); ("label", unread "" stringField); ("next", into pnext (pointer 0 intField))].

Example struct_rules :
  let decode ms := Unmarshal (MkPoint 0 "" None) pointField (Document (JObject ms)) in
  let n z := JNumber (numeralZ z) in
  decode [("X", n 1); ("other", JNull); ("next", n 4)] = Some (MkPoint 1 "" (Some 4)) ∧
  decode [("x", n 1); ("x", JNull); ("next", n 4); ("next", JNull)] = Some (MkPoint 1 "" None) ∧
  decode [("x", JNumber (MkNumeral false 10 (-1) false))] = None ∧
  decode [("label", n 1)] = None ∧
  Unmarshal (MkPoint 7 "" None) pointField (Document JNull) = Some (MkPoint 7 "" None).
Proof. vm_compute. done. Qed.
