(* ===== verification/QuotaReading.v ===== *)
(** * Quota readings (internal/quota: normalize.go, windows.go, nanogpt.go)

    What a stored snapshot of a provider's quota says: whether the account is
    spent and until when ([Assess]), how much of each window is used ([Windows]),
    and whether it has reached the share the operator keeps back
    ([AssessWithReserve]). One pair of readers per provider type, over the JSON
    the provider's client stored. *)

From S2P Require Import Prelude Double Calendar GoText GoJson.

(** ** Snapshots and what is read from them *)

Record Snapshot := MkSnapshot {
  ProviderID : string;
  Kind : string;
  Payload : RawMessage;
  HTTPStatus : Z;
  FetchedAt : Time;
  Source : string;
  LastError : string;
  LastAttemptAt : option Time
}.

Record Assessment := MkAssessment {
  Exhausted : bool;
  resets : Time;
  OK : bool;
  reserved : bool
}.

Definition noOpinion : Assessment := MkAssessment false zeroTime false false.
Definition healthy : Assessment := MkAssessment false zeroTime true false.
Definition spentUntil (t : Time) (byReserve : bool) : Assessment := MkAssessment true t true byReserve.

Record Window := MkWindow {
  Name : string;
  Used : double;
  windowResets : Time;                     (* zero when the payload does not date it *)
  Governs : bool;
  Span : Duration
}.

(** ** normalize.go: dating a reset *)

Definition epochUnitBoundary : Z := 100000000000.

Definition epochToTime (v : Z) : option Time :=
  if v <=? 0 then None else
  if v <? epochUnitBoundary then Some (Unix v) else Some (UnixMilli v).

Definition parseResetString (s : string) : option Time :=
  let s := TrimSpace s in
  if decide (s = "") then None else
  match ParseRFC3339 s with
  | Some t => Some t
  | None => match ParseInt s with Some n => epochToTime n | None => None end
  end.

Record earliestReset := MkEarliest { at_ : Time; found : bool; undated : bool }.

Definition noReset : earliestReset := MkEarliest zeroTime false false.

Definition add (e : earliestReset) (t : option Time) : earliestReset :=
  match t with
  | None => MkEarliest (at_ e) (found e) true
  | Some t => if negb (found e) || Before t (at_ e) then MkEarliest t true (undated e) else e
  end.

Definition result (e : earliestReset) (now : Time) : Assessment :=
  if found e && After (at_ e) now then spentUntil (at_ e) false
  else if undated e then noOpinion else healthy.

Definition noPayload (s : Snapshot) : bool :=
  match Payload s with Empty | Document JNull => true | _ => false end.

(** A reset a window may carry, zero otherwise. *)
Definition orZero (t : option Time) : Time := default zeroTime t.

Definition spanByName (name : string) : Duration :=
  if decide (name = "5h") then 5 * Hour else
  if decide (name = "daily") then 24 * Hour else
  if decide (name = "weekly") then 7 * 24 * Hour else
  if decide (name = "monthly") then 30 * 24 * Hour else 0.

Definition one : double := ofZ 1.
Definition hundred : double := ofZ 100.

(** [*p >= 0 && *p <= 100]. *)
Definition sanePercent (p : double) : bool := dleb dzero p && dleb p hundred.

(** ** Z.ai *)

Record zaiLimit := MkZaiLimit {
  zl_Type : string; zl_Unit : Z; zl_Remaining : option Z; zl_Percentage : option double; zl_NextResetTime : Z
}.
Definition zaiLimit_eta (l : zaiLimit) : zaiLimit :=
  MkZaiLimit (zl_Type l) (zl_Unit l) (zl_Remaining l) (zl_Percentage l) (zl_NextResetTime l).
#[export] Instance upd_zl_Type : Updater zl_Type := ltac:(derive_updater zaiLimit_eta).
#[export] Instance upd_zl_Unit : Updater zl_Unit := ltac:(derive_updater zaiLimit_eta).
#[export] Instance upd_zl_Remaining : Updater zl_Remaining := ltac:(derive_updater zaiLimit_eta).
#[export] Instance upd_zl_Percentage : Updater zl_Percentage := ltac:(derive_updater zaiLimit_eta).
#[export] Instance upd_zl_NextResetTime : Updater zl_NextResetTime := ltac:(derive_updater zaiLimit_eta).

Definition zaiLimitField : Decoder zaiLimit := struct
  [("type", into zl_Type stringField); ("unit", into zl_Unit intField);
   ("remaining", into zl_Remaining (pointer 0 intField));
   ("percentage", into zl_Percentage (pointer dzero floatField));
   ("nextResetTime", into zl_NextResetTime intField)].

Definition zaiCodingQuotaPayload : Decoder (list zaiLimit) := struct
  [("data", struct [("limits", slice (MkZaiLimit "" 0 None None 0) zaiLimitField)])].

Definition zaiSpent (l : zaiLimit) : bool :=
  match zl_Percentage l with
  | Some p => if sanePercent p then dleb hundred p
              else match zl_Remaining l with Some r => r <=? 0 | None => false end
  | None => match zl_Remaining l with Some r => r <=? 0 | None => false end
  end.

Definition zaiTokenLimit (l : zaiLimit) : bool :=
  bool_decide (zl_Type l = "TOKENS_LIMIT") && ((zl_Unit l =? 3) || (zl_Unit l =? 6)).

Definition assessZaiCoding (clock : Time) (payload : RawMessage) : Assessment :=
  match Unmarshal [] zaiCodingQuotaPayload payload with
  | None => noOpinion
  | Some limits =>
      result (foldl (λ e l,
        if negb (zaiTokenLimit l) then e else
        if negb (zaiSpent l) then e else
        add e (epochToTime (zl_NextResetTime l))) noReset limits) clock
  end.

Definition zaiCodingWindow (l : zaiLimit) : option Window :=
  match zl_Percentage l with
  | None => None
  | Some p =>
      if dltb p dzero || dltb hundred p then None else
      name ← (if bool_decide (zl_Type l = "TOKENS_LIMIT") && (zl_Unit l =? 3) then Some "5h"
              else if bool_decide (zl_Type l = "TOKENS_LIMIT") && (zl_Unit l =? 6) then Some "weekly"
              else if bool_decide (zl_Type l = "TIME_LIMIT") && (zl_Unit l =? 5) then Some "mcp"
              else None);
      Some (MkWindow name (ddiv p hundred) (orZero (epochToTime (zl_NextResetTime l)))
              (bool_decide (zl_Type l = "TOKENS_LIMIT")) (spanByName name))
  end.

Definition zaiCodingWindows (payload : RawMessage) : list Window :=
  match Unmarshal [] zaiCodingQuotaPayload payload with
  | None => []
  | Some limits => omap zaiCodingWindow limits
  end.

(** ** Kimi *)

Record kimiDetail := MkKimiDetail { kd_Limit : string; kd_Used : string; kd_Remaining : string; kd_ResetTime : string }.
Definition kimiDetail_eta (d : kimiDetail) : kimiDetail :=
  MkKimiDetail (kd_Limit d) (kd_Used d) (kd_Remaining d) (kd_ResetTime d).
#[export] Instance upd_kd_Limit : Updater kd_Limit := ltac:(derive_updater kimiDetail_eta).
#[export] Instance upd_kd_Used : Updater kd_Used := ltac:(derive_updater kimiDetail_eta).
#[export] Instance upd_kd_Remaining : Updater kd_Remaining := ltac:(derive_updater kimiDetail_eta).
#[export] Instance upd_kd_ResetTime : Updater kd_ResetTime := ltac:(derive_updater kimiDetail_eta).
Definition noDetail : kimiDetail := MkKimiDetail "" "" "" "".

Record kimiLimit := MkKimiLimit { kl_Duration : Z; kl_TimeUnit : string; kl_Detail : kimiDetail }.
Definition kimiLimit_eta (l : kimiLimit) : kimiLimit := MkKimiLimit (kl_Duration l) (kl_TimeUnit l) (kl_Detail l).
#[export] Instance upd_kl_Duration : Updater kl_Duration := ltac:(derive_updater kimiLimit_eta).
#[export] Instance upd_kl_TimeUnit : Updater kl_TimeUnit := ltac:(derive_updater kimiLimit_eta).
#[export] Instance upd_kl_Detail : Updater kl_Detail := ltac:(derive_updater kimiLimit_eta).

Record kimiQuota := MkKimiQuota { kq_Usage : kimiDetail; kq_Limits : list kimiLimit }.
Definition kimiQuota_eta (q : kimiQuota) : kimiQuota := MkKimiQuota (kq_Usage q) (kq_Limits q).
#[export] Instance upd_kq_Usage : Updater kq_Usage := ltac:(derive_updater kimiQuota_eta).
#[export] Instance upd_kq_Limits : Updater kq_Limits := ltac:(derive_updater kimiQuota_eta).
Definition noKimiQuota : kimiQuota := MkKimiQuota noDetail [].

Definition kimiDetailField : Decoder kimiDetail := struct
  [("limit", into kd_Limit stringField); ("used", into kd_Used stringField);
   ("remaining", into kd_Remaining stringField); ("resetTime", into kd_ResetTime stringField)].

Definition kimiLimitField : Decoder kimiLimit := struct
  [("window", struct [("duration", into kl_Duration intField); ("timeUnit", into kl_TimeUnit stringField)]);
   ("detail", into kl_Detail kimiDetailField)].

Definition unreadString {R : Type} : Decoder R := unread "" stringField.

Definition KimiCodeQuotaResponse : Decoder kimiQuota := struct
  [("user", struct [("userId", unreadString); ("region", unreadString);
                    ("membership", struct [("level", unreadString)])]);
   ("usage", into kq_Usage kimiDetailField);
   ("limits", into kq_Limits (slice (MkKimiLimit 0 "" noDetail) kimiLimitField));
   ("parallel", struct [("limit", unreadString)]);
   ("totalQuota", unread noDetail kimiDetailField);
   ("subType", unreadString)].

Definition kimiRemaining (d : kimiDetail) : option Z :=
  match ParseInt (TrimSpace (kd_Remaining d)) with
  | Some remaining => Some remaining
  | None =>
      match ParseInt (TrimSpace (kd_Limit d)), ParseInt (TrimSpace (kd_Used d)) with
      | Some limit, Some used => if limit <=? used then Some 0 else Some (wrap64 (limit - used))
      | _, _ => None
      end
  end.

Definition addKimiWindow (e : earliestReset) (d : kimiDetail) : earliestReset :=
  match kimiRemaining d with
  | None => e
  | Some remaining => if 0 <? remaining then e else add e (parseResetString (kd_ResetTime d))
  end.

Definition assessKimiCode (clock : Time) (payload : RawMessage) : Assessment :=
  match Unmarshal noKimiQuota KimiCodeQuotaResponse payload with
  | None => noOpinion
  | Some res =>
      result (foldl (λ e l, addKimiWindow e (kl_Detail l)) (addKimiWindow noReset (kq_Usage res)) (kq_Limits res)) clock
  end.

Definition kimiUnit (l : kimiLimit) : string := ToLower (TrimPrefix (kl_TimeUnit l) "TIME_UNIT_").

Definition kimiWindowSpan (l : kimiLimit) : Duration :=
  let unit := kimiUnit l in
  if decide (unit = "minute") then wrap64 (kl_Duration l * Minute) else
  if decide (unit = "hour") then wrap64 (kl_Duration l * Hour) else
  if decide (unit = "day") then wrap64 (kl_Duration l * 24 * Hour) else
  if decide (unit = "week") then wrap64 (kl_Duration l * 7 * 24 * Hour) else 0.

Definition kimiWindowName (l : kimiLimit) : string :=
  let unit := kimiUnit l in
  let n := kl_Duration l in
  if decide (unit = "minute") then
    if Z.rem n 60 =? 0 then (pretty (Z.quot n 60) +:+ "h")%string else (pretty n +:+ "m")%string
  else if decide (unit = "hour") then (pretty n +:+ "h")%string
  else if decide (unit = "day") then (pretty n +:+ "d")%string
  else if decide (unit = "week") then (pretty n +:+ "w")%string
  else (pretty n +:+ " " +:+ unit)%string.

Definition kimiWindow (name : string) (span : Duration) (d : kimiDetail) : option Window :=
  limit ← ParseInt (TrimSpace (kd_Limit d));
  if limit <=? 0 then None else
  remaining ← kimiRemaining d;
  Some (MkWindow name (dsub one (ddiv (ofZ remaining) (ofZ limit))) (orZero (parseResetString (kd_ResetTime d))) true span).

Definition kimiCodeWindows (payload : RawMessage) : list Window :=
  match Unmarshal noKimiQuota KimiCodeQuotaResponse payload with
  | None => []
  | Some res =>
      option_list (kimiWindow "weekly" (7 * 24 * Hour) (kq_Usage res)) ++
      omap (λ l, kimiWindow (kimiWindowName l) (kimiWindowSpan l) (kl_Detail l)) (kq_Limits res)
  end.

(** ** OpenCode Go *)

Record openCodeGoWindow := MkOpenCodeGoWindow { ow_Status : string; ow_Percent : double; ow_ResetsAt : string }.
Definition openCodeGoWindow_eta (w : openCodeGoWindow) : openCodeGoWindow :=
  MkOpenCodeGoWindow (ow_Status w) (ow_Percent w) (ow_ResetsAt w).
#[export] Instance upd_ow_Status : Updater ow_Status := ltac:(derive_updater openCodeGoWindow_eta).
#[export] Instance upd_ow_Percent : Updater ow_Percent := ltac:(derive_updater openCodeGoWindow_eta).
#[export] Instance upd_ow_ResetsAt : Updater ow_ResetsAt := ltac:(derive_updater openCodeGoWindow_eta).
Definition noOpenCodeGoWindow : openCodeGoWindow := MkOpenCodeGoWindow "" dzero "".

Record openCodeGoUsage := MkOpenCodeGoUsage { Rolling : openCodeGoWindow; Weekly : openCodeGoWindow; Monthly : openCodeGoWindow }.
Definition openCodeGoUsage_eta (u : openCodeGoUsage) : openCodeGoUsage := MkOpenCodeGoUsage (Rolling u) (Weekly u) (Monthly u).
#[export] Instance upd_Rolling : Updater Rolling := ltac:(derive_updater openCodeGoUsage_eta).
#[export] Instance upd_Weekly : Updater Weekly := ltac:(derive_updater openCodeGoUsage_eta).
#[export] Instance upd_Monthly : Updater Monthly := ltac:(derive_updater openCodeGoUsage_eta).
Definition noOpenCodeGoUsage : openCodeGoUsage := MkOpenCodeGoUsage noOpenCodeGoWindow noOpenCodeGoWindow noOpenCodeGoWindow.

Definition openCodeGoWindowField : Decoder openCodeGoWindow := struct
  [("status", into ow_Status stringField); ("percent", into ow_Percent floatField); ("resetsAt", into ow_ResetsAt stringField)].

Definition OpenCodeGoUsageResponse : Decoder openCodeGoUsage := struct
  [("usage", struct [("rolling", into Rolling openCodeGoWindowField); ("weekly", into Weekly openCodeGoWindowField);
                     ("monthly", into Monthly openCodeGoWindowField)])].

Definition openCodeGoWindowSpent (w : openCodeGoWindow) : bool :=
  let status := TrimSpace (ow_Status w) in
  dleb hundred (ow_Percent w) || (negb (bool_decide (status = "")) && negb (EqualFold status "ok")).

Definition assessOpenCodeGo (clock : Time) (payload : RawMessage) : Assessment :=
  match Unmarshal noOpenCodeGoUsage OpenCodeGoUsageResponse payload with
  | None => noOpinion
  | Some res =>
      result (foldl (λ e w,
        if negb (openCodeGoWindowSpent w) then e else add e (parseResetString (ow_ResetsAt w)))
        noReset [Rolling res; Weekly res; Monthly res]) clock
  end.

Definition openCodeGoReading (name : string) (w : openCodeGoWindow) : option Window :=
  if bool_decide (ow_ResetsAt w = "") && bool_decide (ow_Status w = "") then None else
  let used := ddiv (ow_Percent w) hundred in
  let used := if openCodeGoWindowSpent w && dltb used one then one else used in
  Some (MkWindow name used (orZero (parseResetString (ow_ResetsAt w))) true (spanByName name)).

Definition openCodeGoWindows (payload : RawMessage) : list Window :=
  match Unmarshal noOpenCodeGoUsage OpenCodeGoUsageResponse payload with
  | None => []
  | Some res => omap (λ x, openCodeGoReading x.1 x.2) [("5h", Rolling res); ("weekly", Weekly res); ("monthly", Monthly res)]
  end.

(** ** MiniMax *)

Record minimaxModelRemain := MkModelRemain {
  mm_ModelName : string;
  mm_EndTime : Z;
  mm_IntervalStatus : Z; mm_IntervalTotal : Z; mm_IntervalUsage : Z; mm_IntervalPercent : option double;
  mm_WeeklyEndTime : Z;
  mm_WeeklyStatus : Z; mm_WeeklyTotal : Z; mm_WeeklyUsage : Z; mm_WeeklyPercent : option double
}.
Definition minimaxModelRemain_eta (m : minimaxModelRemain) : minimaxModelRemain :=
  MkModelRemain (mm_ModelName m) (mm_EndTime m) (mm_IntervalStatus m) (mm_IntervalTotal m) (mm_IntervalUsage m)
    (mm_IntervalPercent m) (mm_WeeklyEndTime m) (mm_WeeklyStatus m) (mm_WeeklyTotal m) (mm_WeeklyUsage m) (mm_WeeklyPercent m).
#[export] Instance upd_mm_ModelName : Updater mm_ModelName := ltac:(derive_updater minimaxModelRemain_eta).
#[export] Instance upd_mm_EndTime : Updater mm_EndTime := ltac:(derive_updater minimaxModelRemain_eta).
#[export] Instance upd_mm_IntervalStatus : Updater mm_IntervalStatus := ltac:(derive_updater minimaxModelRemain_eta).
#[export] Instance upd_mm_IntervalTotal : Updater mm_IntervalTotal := ltac:(derive_updater minimaxModelRemain_eta).
#[export] Instance upd_mm_IntervalUsage : Updater mm_IntervalUsage := ltac:(derive_updater minimaxModelRemain_eta).
#[export] Instance upd_mm_IntervalPercent : Updater mm_IntervalPercent := ltac:(derive_updater minimaxModelRemain_eta).
#[export] Instance upd_mm_WeeklyEndTime : Updater mm_WeeklyEndTime := ltac:(derive_updater minimaxModelRemain_eta).
#[export] Instance upd_mm_WeeklyStatus : Updater mm_WeeklyStatus := ltac:(derive_updater minimaxModelRemain_eta).
#[export] Instance upd_mm_WeeklyTotal : Updater mm_WeeklyTotal := ltac:(derive_updater minimaxModelRemain_eta).
#[export] Instance upd_mm_WeeklyUsage : Updater mm_WeeklyUsage := ltac:(derive_updater minimaxModelRemain_eta).
#[export] Instance upd_mm_WeeklyPercent : Updater mm_WeeklyPercent := ltac:(derive_updater minimaxModelRemain_eta).
Definition noModelRemain : minimaxModelRemain := MkModelRemain "" 0 0 0 0 None 0 0 0 0 None.

Record minimaxQuota := MkMinimaxQuota { ModelRemains : list minimaxModelRemain; StatusCode : Z }.
Definition minimaxQuota_eta (q : minimaxQuota) : minimaxQuota := MkMinimaxQuota (ModelRemains q) (StatusCode q).
#[export] Instance upd_ModelRemains : Updater ModelRemains := ltac:(derive_updater minimaxQuota_eta).
#[export] Instance upd_StatusCode : Updater StatusCode := ltac:(derive_updater minimaxQuota_eta).

Definition minimaxModelRemainField : Decoder minimaxModelRemain := struct
  [("model_name", into mm_ModelName stringField); ("end_time", into mm_EndTime intField);
   ("current_interval_status", into mm_IntervalStatus intField);
   ("current_interval_total_count", into mm_IntervalTotal intField);
   ("current_interval_usage_count", into mm_IntervalUsage intField);
   ("current_interval_remaining_percent", into mm_IntervalPercent (pointer dzero floatField));
   ("weekly_end_time", into mm_WeeklyEndTime intField);
   ("current_weekly_status", into mm_WeeklyStatus intField);
   ("current_weekly_total_count", into mm_WeeklyTotal intField);
   ("current_weekly_usage_count", into mm_WeeklyUsage intField);
   ("current_weekly_remaining_percent", into mm_WeeklyPercent (pointer dzero floatField))].

Definition minimaxQuotaPayload : Decoder minimaxQuota := struct
  [("model_remains", into ModelRemains (slice noModelRemain minimaxModelRemainField));
   ("base_resp", struct [("status_code", into StatusCode intField)])].

(** [None]: the window is not covered, or nothing measures it. *)
Definition miniMaxSpent (status total used : Z) (remainingPercent : option double) : option bool :=
  if negb (status =? 1) then None else
  if 0 <? total then Some (total <=? used) else
  match remainingPercent with
  | Some p => if sanePercent p then Some (dleb p dzero) else None
  | None => None
  end.

Definition addMiniMaxWindow (e : earliestReset) (status total used : Z) (remainingPercent : option double) (endTime : Z)
  : earliestReset :=
  match miniMaxSpent status total used remainingPercent with
  | None | Some false => e
  | Some true => add e (epochToTime endTime)
  end.

Definition assessMiniMax (clock : Time) (payload : RawMessage) : Assessment :=
  match Unmarshal (MkMinimaxQuota [] 0) minimaxQuotaPayload payload with
  | None => noOpinion
  | Some res =>
      if negb (StatusCode res =? 0) then noOpinion else
      result (foldl (λ e m,
        let e := addMiniMaxWindow e (mm_IntervalStatus m) (mm_IntervalTotal m) (mm_IntervalUsage m)
                   (mm_IntervalPercent m) (mm_EndTime m) in
        addMiniMaxWindow e (mm_WeeklyStatus m) (mm_WeeklyTotal m) (mm_WeeklyUsage m)
          (mm_WeeklyPercent m) (mm_WeeklyEndTime m)) noReset (ModelRemains res)) clock
  end.

Definition miniMaxWindow (name : string) (status total used : Z) (remainingPercent : option double) (endTime : Z)
  : option Window :=
  if negb (status =? 1) then None else
  share ← (if 0 <? total then Some (ddiv (ofZ used) (ofZ total)) else
           match remainingPercent with
           | Some p => if sanePercent p then Some (dsub one (ddiv p hundred)) else None
           | None => None
           end);
  Some (MkWindow name share (orZero (epochToTime endTime)) true 0).

Definition withSpan (d : Duration) (w : Window) : Window := MkWindow (Name w) (Used w) (windowResets w) (Governs w) d.

Definition miniMaxWindows (payload : RawMessage) : list Window :=
  match Unmarshal (MkMinimaxQuota [] 0) minimaxQuotaPayload payload with
  | None => []
  | Some res =>
      if negb (StatusCode res =? 0) then [] else
      m ← ModelRemains res;
      option_list (miniMaxWindow (mm_ModelName m +:+ " interval")%string (mm_IntervalStatus m) (mm_IntervalTotal m)
                     (mm_IntervalUsage m) (mm_IntervalPercent m) (mm_EndTime m)) ++
      option_list (withSpan (spanByName "weekly") <$>
                   miniMaxWindow (mm_ModelName m +:+ " weekly")%string (mm_WeeklyStatus m) (mm_WeeklyTotal m)
                     (mm_WeeklyUsage m) (mm_WeeklyPercent m) (mm_WeeklyEndTime m))
  end.

(** ** NeuralWatt *)

Record neuralwattQuota := MkNeuralwattQuota {
  CreditsRemainingUSD : option double; KwhRemaining : option double; InOverage : bool; CurrentPeriodEnd : string
}.
Definition neuralwattQuota_eta (q : neuralwattQuota) : neuralwattQuota :=
  MkNeuralwattQuota (CreditsRemainingUSD q) (KwhRemaining q) (InOverage q) (CurrentPeriodEnd q).
#[export] Instance upd_CreditsRemainingUSD : Updater CreditsRemainingUSD := ltac:(derive_updater neuralwattQuota_eta).
#[export] Instance upd_KwhRemaining : Updater KwhRemaining := ltac:(derive_updater neuralwattQuota_eta).
#[export] Instance upd_InOverage : Updater InOverage := ltac:(derive_updater neuralwattQuota_eta).
#[export] Instance upd_CurrentPeriodEnd : Updater CurrentPeriodEnd := ltac:(derive_updater neuralwattQuota_eta).

Definition neuralwattQuotaPayload : Decoder neuralwattQuota := struct
  [("balance", struct [("credits_remaining_usd", into CreditsRemainingUSD (pointer dzero floatField))]);
   ("subscription", struct [("kwh_remaining", into KwhRemaining (pointer dzero floatField));
                            ("in_overage", into InOverage boolField);
                            ("current_period_end", into CurrentPeriodEnd stringField)])].

Definition creditsSpentFloorUSD : double := literal 1 2.

Definition energySpent (q : neuralwattQuota) : bool :=
  match KwhRemaining q with Some k => dleb k dzero | None => false end || InOverage q.

Definition creditsSpent (q : neuralwattQuota) : bool :=
  match CreditsRemainingUSD q with Some c => dltb c creditsSpentFloorUSD | None => false end.

Definition assessNeuralwatt (clock : Time) (payload : RawMessage) : Assessment :=
  match Unmarshal (MkNeuralwattQuota None None false "") neuralwattQuotaPayload payload with
  | None => noOpinion
  | Some res =>
      result (if energySpent res && creditsSpent res then add noReset (parseResetString (CurrentPeriodEnd res)) else noReset) clock
  end.

(** What the gauges read of the same payload. *)
Record neuralwattUsage := MkNeuralwattUsage {
  nu_PeriodEnd : string; KWhIncluded : double; KWhUsed : double; TotalCreditsUSD : double; CreditsUsedUSD : double
}.
Definition neuralwattUsage_eta (u : neuralwattUsage) : neuralwattUsage :=
  MkNeuralwattUsage (nu_PeriodEnd u) (KWhIncluded u) (KWhUsed u) (TotalCreditsUSD u) (CreditsUsedUSD u).
#[export] Instance upd_nu_PeriodEnd : Updater nu_PeriodEnd := ltac:(derive_updater neuralwattUsage_eta).
#[export] Instance upd_KWhIncluded : Updater KWhIncluded := ltac:(derive_updater neuralwattUsage_eta).
#[export] Instance upd_KWhUsed : Updater KWhUsed := ltac:(derive_updater neuralwattUsage_eta).
#[export] Instance upd_TotalCreditsUSD : Updater TotalCreditsUSD := ltac:(derive_updater neuralwattUsage_eta).
#[export] Instance upd_CreditsUsedUSD : Updater CreditsUsedUSD := ltac:(derive_updater neuralwattUsage_eta).

Definition neuralwattUsageField : Decoder neuralwattUsage := struct
  [("balance", struct
     [("credits_remaining_usd", unread None (pointer dzero floatField)); ("total_credits_usd", into TotalCreditsUSD floatField);
      ("credits_used_usd", into CreditsUsedUSD floatField); ("accounting_method", unreadString)]);
   ("subscription", struct
     [("plan", unreadString); ("status", unreadString); ("billing_interval", unreadString);
      ("current_period_start", unreadString); ("current_period_end", into nu_PeriodEnd stringField);
      ("auto_renew", unread false boolField); ("kwh_included", into KWhIncluded floatField);
      ("kwh_used", into KWhUsed floatField); ("kwh_remaining", unread dzero floatField);
      ("in_overage", unread false boolField)])].

Definition neuralwattWindows (payload : RawMessage) : list Window :=
  match Unmarshal (MkNeuralwattUsage "" dzero dzero dzero dzero) neuralwattUsageField payload with
  | None => []
  | Some res =>
      (if dltb dzero (KWhIncluded res)
       then [MkWindow "energy" (ddiv (KWhUsed res) (KWhIncluded res)) (orZero (parseResetString (nu_PeriodEnd res))) false 0]
       else []) ++
      (if dltb dzero (TotalCreditsUSD res)
       then [MkWindow "credits" (ddiv (CreditsUsedUSD res) (TotalCreditsUSD res)) zeroTime false 0] else [])
  end.

(** ** nanogpt.go *)

Record nanoCounter := MkNanoCounter { nc_Used : Z; nc_ResetAt : Z }.
Definition nanoCounter_eta (c : nanoCounter) : nanoCounter := MkNanoCounter (nc_Used c) (nc_ResetAt c).
#[export] Instance upd_nc_Used : Updater nc_Used := ltac:(derive_updater nanoCounter_eta).
#[export] Instance upd_nc_ResetAt : Updater nc_ResetAt := ltac:(derive_updater nanoCounter_eta).

Record nanoUsage := MkNanoUsage {
  WeeklyLimit : option Z; DailyLimit : option Z; AllowOverage : bool;
  WeeklyCounter : option nanoCounter; DailyCounter : option nanoCounter
}.
Definition nanoUsage_eta (u : nanoUsage) : nanoUsage :=
  MkNanoUsage (WeeklyLimit u) (DailyLimit u) (AllowOverage u) (WeeklyCounter u) (DailyCounter u).
#[export] Instance upd_WeeklyLimit : Updater WeeklyLimit := ltac:(derive_updater nanoUsage_eta).
#[export] Instance upd_DailyLimit : Updater DailyLimit := ltac:(derive_updater nanoUsage_eta).
#[export] Instance upd_AllowOverage : Updater AllowOverage := ltac:(derive_updater nanoUsage_eta).
#[export] Instance upd_WeeklyCounter : Updater WeeklyCounter := ltac:(derive_updater nanoUsage_eta).
#[export] Instance upd_DailyCounter : Updater DailyCounter := ltac:(derive_updater nanoUsage_eta).

Definition nanoCounterField : Decoder nanoCounter := struct
  [("used", into nc_Used intField); ("remaining", unread 0 intField); ("percentUsed", unread dzero floatField);
   ("resetAt", into nc_ResetAt intField)].

Definition unreadBool {R : Type} : Decoder R := unread false boolField.
Definition unreadPointer {R : Type} : Decoder R := unread None (pointer "" stringField).

Definition nanoCounterPointer : Decoder (option nanoCounter) := pointer (MkNanoCounter 0 0) nanoCounterField.

Definition NanoGPTUsageResponse : Decoder nanoUsage := struct
  [("active", unreadBool); ("provider", unreadString); ("providerStatus", unreadString); ("providerStatusRaw", unreadString);
   ("stripeSubscriptionId", unreadString); ("cancellationReason", unreadPointer); ("canceledAt", unreadPointer);
   ("endedAt", unreadPointer); ("cancelAt", unreadPointer); ("cancelAtPeriodEnd", unreadBool);
   ("limits", struct [("weeklyInputTokens", into WeeklyLimit (pointer 0 intField));
                      ("dailyInputTokens", into DailyLimit (pointer 0 intField));
                      ("dailyImages", unread None (pointer 0 intField))]);
   ("allowOverage", into AllowOverage boolField);
   ("period", struct [("currentPeriodEnd", unreadString)]);
   ("dailyImages", unread None nanoCounterPointer);
   ("dailyInputTokens", into DailyCounter nanoCounterPointer);
   ("weeklyInputTokens", into WeeklyCounter nanoCounterPointer);
   ("state", unreadString); ("graceUntil", unreadPointer)].

Definition noNanoUsage : nanoUsage := MkNanoUsage None None false None None.

Record nanoGPTCounter := MkNanoGPTCounter { ng_name : string; ng_limit : option Z; ng_counter : option nanoCounter }.

Definition nanoGPTCounters (res : nanoUsage) : list nanoGPTCounter :=
  [MkNanoGPTCounter "weekly" (WeeklyLimit res) (WeeklyCounter res);
   MkNanoGPTCounter "daily" (DailyLimit res) (DailyCounter res)].

Definition window (c : nanoGPTCounter) : option (Window * nanoCounter) :=
  limit ← ng_limit c;
  if limit <=? 0 then None else
  counter ← ng_counter c;
  Some (MkWindow (ng_name c) (ddiv (ofZ (nc_Used counter)) (ofZ limit)) (orZero (epochToTime (nc_ResetAt counter)))
          true (spanByName (ng_name c)), counter).

Definition assessNanoGPT (clock : Time) (payload : RawMessage) : Assessment :=
  match Unmarshal noNanoUsage NanoGPTUsageResponse payload with
  | None => noOpinion
  | Some res =>
      if AllowOverage res then healthy else
      result (foldl (λ e c,
        match window c with
        | None => e
        | Some (w, counter) => if dltb (Used w) one then e else add e (epochToTime (nc_ResetAt counter))
        end) noReset (nanoGPTCounters res)) clock
  end.

Definition nanoGPTWindows (payload : RawMessage) : list Window :=
  match Unmarshal noNanoUsage NanoGPTUsageResponse payload with
  | None => []
  | Some res => omap (λ c, fst <$> window c) (nanoGPTCounters res)
  end.

(** ** The readers of every type *)

Definition quotaReaders (providerType : string) : option ((Time → RawMessage → Assessment) * (RawMessage → list Window)) :=
  if decide (providerType = "zai-coding") then Some (assessZaiCoding, zaiCodingWindows) else
  if decide (providerType = "kimi-code") then Some (assessKimiCode, kimiCodeWindows) else
  if decide (providerType = "minimax") then Some (assessMiniMax, miniMaxWindows) else
  if decide (providerType = "nanogpt") then Some (assessNanoGPT, nanoGPTWindows) else
  if decide (providerType = "neuralwatt") then Some (assessNeuralwatt, neuralwattWindows) else
  if decide (providerType = "opencode-go") then Some (assessOpenCodeGo, openCodeGoWindows) else None.

Definition Assess (clock : Time) (providerType : string) (s : Snapshot) : Assessment :=
  match quotaReaders providerType with
  | None => noOpinion
  | Some (assess, _) => if noPayload s then noOpinion else assess clock (Payload s)
  end.

Definition Windows (providerType : string) (s : Snapshot) : list Window :=
  match quotaReaders providerType with
  | None => []
  | Some (_, windows) => if noPayload s then [] else windows (Payload s)
  end.

Definition reserveSpan (providerType : string) : option Duration :=
  if decide (providerType = "zai-coding") then Some (spanByName "weekly") else
  if decide (providerType = "kimi-code") then Some (spanByName "weekly") else
  if decide (providerType = "minimax") then Some (spanByName "weekly") else
  if decide (providerType = "nanogpt") then Some (spanByName "weekly") else
  if decide (providerType = "opencode-go") then Some (spanByName "monthly") else None.

(** [1e-9], and the constant [1-1e-9]. *)
Definition slack : double := literal 1 9.
Definition capLine : double := literal 999999999 9.

Definition reserveLine (reserve : double) : double := dsub (dsub one reserve) slack.

Definition atCap (w : Window) : bool := Governs w && negb (IsZero (windowResets w)) && dleb capLine (Used w).

Definition atLine (span : Duration) (line : double) (w : Window) : bool :=
  negb (negb (Governs w) || negb (Span w =? span) || dltb (Used w) line || IsZero (windowResets w)).

(** The clock [Assess] reads for itself comes apart from [now]. *)
Definition AssessWithReserve (clock : Time) (providerType : string) (s : Snapshot) (reserve : double) (now : Time) : Assessment :=
  let a := Assess clock providerType s in
  if dleb reserve dzero || negb (OK a) || Exhausted a then a else
  let line := reserveLine reserve in
  let windows := Windows providerType s in
  let spent := foldl (λ e w, if atCap w then add e (Some (windowResets w)) else e) noReset windows in
  let r := result spent now in
  if Exhausted r then r else
  match reserveSpan providerType with
  | None => a
  | Some span =>
      let e := foldl (λ e w, if atLine span line w then add e (Some (windowResets w)) else e) noReset windows in
      if negb (found e) then a else
      let r := result e now in
      MkAssessment (Exhausted r) (resets r) (OK r) (Exhausted r)
  end.

(** ** Specifications *)

(** The spent windows of each payload, with the reset each is dated to. *)

Definition zaiResets (limits : list zaiLimit) : list (option Time) :=
  (λ l, epochToTime (zl_NextResetTime l)) <$> filter (λ l, zaiTokenLimit l = true ∧ zaiSpent l = true) limits.

Definition kimiOut (d : kimiDetail) : bool := match kimiRemaining d with Some remaining => remaining <=? 0 | None => false end.

Definition kimiResets (res : kimiQuota) : list (option Time) :=
  (λ d, parseResetString (kd_ResetTime d)) <$> filter (λ d, kimiOut d = true) (kq_Usage res :: (kl_Detail <$> kq_Limits res)).

Definition miniMaxReset (status total used : Z) (remainingPercent : option double) (endTime : Z) : list (option Time) :=
  if bool_decide (miniMaxSpent status total used remainingPercent = Some true) then [epochToTime endTime] else [].

Definition miniMaxResets (models : list minimaxModelRemain) : list (option Time) :=
  m ← models;
  miniMaxReset (mm_IntervalStatus m) (mm_IntervalTotal m) (mm_IntervalUsage m) (mm_IntervalPercent m) (mm_EndTime m) ++
  miniMaxReset (mm_WeeklyStatus m) (mm_WeeklyTotal m) (mm_WeeklyUsage m) (mm_WeeklyPercent m) (mm_WeeklyEndTime m).

Definition nanoResets (res : nanoUsage) : list (option Time) :=
  if AllowOverage res then [] else
  (λ w : Window * nanoCounter, epochToTime (nc_ResetAt w.2)) <$>
  filter (λ w : Window * nanoCounter, dltb (Used w.1) one = false) (omap window (nanoGPTCounters res)).

Definition neuralwattResets (res : neuralwattQuota) : list (option Time) :=
  if energySpent res && creditsSpent res then [parseResetString (CurrentPeriodEnd res)] else [].

Definition openCodeGoResets (res : openCodeGoUsage) : list (option Time) :=
  (λ w, parseResetString (ow_ResetsAt w)) <$> filter (λ w, openCodeGoWindowSpent w = true) [Rolling res; Weekly res; Monthly res].

(** [None] when the snapshot says nothing at all. *)
Definition spentWindows (providerType : string) (s : Snapshot) : option (list (option Time)) :=
  if noPayload s then None else
  if decide (providerType = "zai-coding") then zaiResets <$> Unmarshal [] zaiCodingQuotaPayload (Payload s) else
  if decide (providerType = "kimi-code") then kimiResets <$> Unmarshal noKimiQuota KimiCodeQuotaResponse (Payload s) else
  if decide (providerType = "minimax") then
    match Unmarshal (MkMinimaxQuota [] 0) minimaxQuotaPayload (Payload s) with
    | Some res => if decide (StatusCode res = 0) then Some (miniMaxResets (ModelRemains res)) else None
    | None => None
    end else
  if decide (providerType = "nanogpt") then nanoResets <$> Unmarshal noNanoUsage NanoGPTUsageResponse (Payload s) else
  if decide (providerType = "neuralwatt") then
    neuralwattResets <$> Unmarshal (MkNeuralwattQuota None None false "") neuralwattQuotaPayload (Payload s) else
  if decide (providerType = "opencode-go") then
    openCodeGoResets <$> Unmarshal noOpenCodeGoUsage OpenCodeGoUsageResponse (Payload s) else None.

(** The earliest of some resets, when it is still to come. *)
Definition due (l : list Time) (now t : Time) : Prop := t ∈ l ∧ (∀ t', t' ∈ l → t ≤ t') ∧ now < t.

(** What spent windows add up to. *)
Definition verdict (spent : list (option Time)) (now : Time) (a : Assessment) : Prop :=
  let dated := omap id spent in
  (∃ t, due dated now t ∧ a = spentUntil t false) ∨
  (¬ ∃ t, due dated now t) ∧ a = if bool_decide (None ∈ spent) then noOpinion else healthy.

(** ** Lemmas: the earliest reset *)

Definition tracks (e : earliestReset) (l : list (option Time)) : Prop :=
  undated e = bool_decide (None ∈ l) ∧
  if found e then Some (at_ e) ∈ l ∧ ∀ t, Some t ∈ l → at_ e ≤ t else ∀ t, Some t ∉ l.

Lemma tracks_nil : tracks noReset [].
Proof. split; [by rewrite bool_decide_false by set_solver|]. cbn. set_solver. Qed.

Lemma tracks_add e l t : tracks e l → tracks (add e t) (l ++ [t]).
Proof.
  intros [Hu Hf]. destruct t as [t|].
  - assert (undated e = bool_decide (None ∈ l ++ [Some t])) as Hu' by (rewrite Hu; apply bool_decide_ext; set_solver).
    unfold add. destruct (found e) eqn:He; cbn [negb orb].
    + destruct Hf as [Hin Hmin]. unfold Before. destruct (Z.ltb_spec t (at_ e)) as [Hlt|Hge].
      * split; [done|]. cbn. split; [set_solver|]. intros t' [H|H]%elem_of_app; [specialize (Hmin t' H); lia|].
        apply list_elem_of_singleton in H as [= ->]. lia.
      * split; [done|]. rewrite He. split; [set_solver|]. intros t' [H|H]%elem_of_app; [auto|].
        apply list_elem_of_singleton in H as [= ->]. lia.
    + split; [done|]. cbn. split; [set_solver|]. intros t' [H|H]%elem_of_app; [by apply Hf in H|].
      apply list_elem_of_singleton in H as [= ->]. lia.
  - split; [cbn; symmetry; apply bool_decide_eq_true; set_solver|]. cbn. destruct (found e).
    + destruct Hf as [Hin Hmin]. split; [set_solver|]. intros t [H|H]%elem_of_app; [auto|set_solver].
    + intros t [H|H]%elem_of_app; [by apply Hf in H|set_solver].
Qed.

Lemma tracks_foldl l : tracks (foldl add noReset l) l.
Proof.
  induction l as [|t l IH] using rev_ind; [apply tracks_nil|]. rewrite foldl_app. cbn. by apply tracks_add.
Qed.

Lemma elem_of_dated (t : Time) (l : list (option Time)) : t ∈ omap id l ↔ Some t ∈ l.
Proof.
  rewrite list_elem_of_omap. split; [|by exists (Some t)]. intros (x & Hx & Ht). unfold id in Ht. by subst.
Qed.

Lemma result_verdict l now : verdict l now (result (foldl add noReset l) now).
Proof.
  destruct (tracks_foldl l) as [Hu Hf]. unfold verdict, result. set (e := foldl add noReset l) in *. clearbody e. cbv zeta.
  destruct (found e) eqn:He; cbn [andb].
  - destruct Hf as [Hin Hmin]. unfold After. destruct (Z.ltb_spec now (at_ e)) as [Hlt|Hge].
    + left. exists (at_ e). split; [|done]. split; [by apply elem_of_dated|]. split; [|done].
      intros t' Ht%elem_of_dated. auto.
    + right. rewrite <- Hu. split; [|by destruct (undated e)]. intros (t & Ht%elem_of_dated & Hmin' & Hlt).
      specialize (Hmin' (at_ e)). rewrite elem_of_dated in Hmin'. specialize (Hmin' Hin). lia.
  - right. rewrite <- Hu. split; [|by destruct (undated e)]. intros (t & Ht%elem_of_dated & _). by apply Hf in Ht.
Qed.

(** A loop that skips what does not count. *)
Lemma foldl_kept {A} (P : A → Prop) `{!∀ x, Decision (P x)} (g : earliestReset → A → earliestReset)
    (h : A → option Time) (l : list A) e :
  (∀ e x, g e x = if decide (P x) then add e (h x) else e) → foldl g e l = foldl add e (h <$> filter P l).
Proof.
  intros Hg. revert e. induction l as [|x l IH]; intros e; [done|]. cbn [foldl]. rewrite Hg, filter_cons.
  destruct (decide (P x)); cbn; apply IH.
Qed.

Lemma foldl_bind {A} (g : earliestReset → A → earliestReset) (h : A → list (option Time)) (l : list A) e :
  (∀ e x, g e x = foldl add e (h x)) → foldl g e l = foldl add e (l ≫= h).
Proof.
  intros Hg. revert e. induction l as [|x l IH]; intros e; [done|]. cbn [foldl]. rewrite Hg, IH. cbn. by rewrite foldl_app.
Qed.

(** ** Lemmas: the assessors *)

Lemma addMiniMaxWindow_resets e status total used p t :
  addMiniMaxWindow e status total used p t = foldl add e (miniMaxReset status total used p t).
Proof. unfold addMiniMaxWindow, miniMaxReset. by destruct (miniMaxSpent _ _ _ _) as [[]|]. Qed.

Lemma addKimiWindow_out e d :
  addKimiWindow e d = if decide (kimiOut d = true) then add e (parseResetString (kd_ResetTime d)) else e.
Proof.
  unfold addKimiWindow, kimiOut. destruct (kimiRemaining d) as [n|]; [|done].
  by destruct (Z.ltb_spec 0 n), (Z.leb_spec n 0); try lia.
Qed.

Lemma Assess_resets clock ty s :
  match spentWindows ty s with
  | None => Assess clock ty s = noOpinion
  | Some spent => Assess clock ty s = result (foldl add noReset spent) clock
  end.
Proof.
  unfold spentWindows, Assess, quotaReaders.
  repeat (destruct (decide (ty = _)) as [->|]; cbv iota beta; [destruct (noPayload s); [done|]|]).
  - unfold assessZaiCoding. destruct (Unmarshal _ _ _) as [l|]; [|done]. cbn. f_equal. apply foldl_kept.
    intros e x. destruct (zaiTokenLimit x), (zaiSpent x); cbn; try done; by rewrite ?decide_True, ?decide_False by naive_solver.
  - unfold assessKimiCode. destruct (Unmarshal _ _ _) as [l|]; [|done]. cbn [fmap option_fmap option_map]. f_equal. unfold kimiResets.
    transitivity (foldl addKimiWindow noReset (kq_Usage l :: (kl_Detail <$> kq_Limits l))); [by rewrite <- foldl_fmap|].
    apply foldl_kept. intros e x. apply addKimiWindow_out.
  - unfold assessMiniMax. destruct (Unmarshal _ _ _) as [l|]; [|done]. cbv zeta. destruct (decide (StatusCode l = 0)) as [->|Hne].
    + cbn [Z.eqb negb]. f_equal. apply foldl_bind. intros e x. by rewrite !addMiniMaxWindow_resets, foldl_app.
    + by rewrite (proj2 (Z.eqb_neq _ _)).
  - unfold assessNanoGPT. destruct (Unmarshal _ _ _) as [l|]; [|done]. cbn [fmap option_fmap option_map]. unfold nanoResets. destruct (AllowOverage l); [done|].
    f_equal. generalize (nanoGPTCounters l) noReset. intros cs. induction cs as [|c cs IH]; intros e; [done|]. cbn.
    destruct (window c) as [[w nc]|]; [|apply IH]. rewrite filter_cons.
    destruct (decide _) as [Hw|Hw]; cbn in Hw; [|apply not_false_iff_true in Hw]; rewrite Hw; apply IH.
  - unfold assessNeuralwatt. destruct (Unmarshal _ _ _) as [l|]; [|done]. cbn. unfold neuralwattResets. by destruct (_ && _).
  - unfold assessOpenCodeGo. destruct (Unmarshal _ _ _) as [l|]; [|done]. cbn [fmap option_fmap option_map]. f_equal. apply foldl_kept.
    intros e x. by destruct (openCodeGoWindowSpent x).
  - by destruct (noPayload s).
Qed.

Lemma due_unique l now t t' : due l now t → due l now t' → t = t'.
Proof. intros (H1 & H2 & _) (H3 & H4 & _). apply Z.le_antisymm; auto. Qed.

Lemma verdict_unique l now a b : verdict l now a → verdict l now b → a = b.
Proof.
  intros [(t & Ht & ->)|[Hn ->]] [(t' & Ht' & ->)|[Hn' ->]]; [|exfalso; eauto..|done].
  by rewrite (due_unique _ _ _ _ Ht Ht').
Qed.

#[export] Instance verdict_perm : Proper ((≡ₚ) ==> (=) ==> (=) ==> iff) verdict.
Proof.
  assert (∀ l l', l ≡ₚ l' → ∀ now a, verdict l now a → verdict l' now a) as Himp.
  { intros l l' Hl now a. unfold verdict, due. cbv zeta. setoid_rewrite elem_of_dated. rewrite (bool_decide_ext (None ∈ l) (None ∈ l')).
    - by setoid_rewrite Hl.
    - by rewrite Hl. }
  intros l l' Hl now ? <- a ? <-. split; by apply Himp.
Qed.

(** ** Properties *)

(** C10. A reading's verdict. An unknown type, a payload that is missing, null,
    not JSON or of the wrong types, and a refused answer say nothing. Otherwise
    the earliest dated reset among the windows that are spent decides, in
    whatever order the payload lists them: still to come, the account is spent
    until then; passed, or none dated, the account is healthy only if no spent
    window is undated. The reserve has no part in it. *)
Theorem assessment_verdict clock providerType s :
  match spentWindows providerType s with
  | None => Assess clock providerType s = noOpinion
  | Some spent => ∀ spent' a, spent' ≡ₚ spent → verdict spent' clock a ↔ a = Assess clock providerType s
  end.
Proof.
  pose proof (Assess_resets clock providerType s) as H. destruct (spentWindows providerType s) as [spent|]; [|done].
  intros spent' a Hp. rewrite Hp, H. pose proof (result_verdict spent clock) as Hv.
  split; [|by intros ->]. intros Ha. by eapply verdict_unique.
Qed.

(** ** The reserve *)

Definition capResets (providerType : string) (s : Snapshot) : list Time :=
  windowResets <$> filter (λ w, atCap w = true) (Windows providerType s).

Definition lineResets (providerType : string) (s : Snapshot) (reserve : double) : list Time :=
  match reserveSpan providerType with
  | None => []
  | Some span => windowResets <$> filter (λ w, atLine span (reserveLine reserve) w = true) (Windows providerType s)
  end.

(** The share of a window, as the readers compute it from what is used of a
    hundred and from what is left of it. *)
Definition usedOf (n : Z) : double := ddiv (ofZ n) hundred.
Definition leftOf (n : Z) : double := dsub one (ddiv (ofZ n) hundred).

Definition lineAt (percent : Z) : bool :=
  let line := reserveLine (ddiv (ofZ percent) hundred) in
  negb (dltb (usedOf (100 - percent)) line) && dltb (usedOf (99 - percent)) line &&
  negb (dltb (leftOf percent) line) && dltb (leftOf (percent + 1)) line.

Lemma lineAt_exact percent : 1 ≤ percent ≤ 90 → lineAt percent = true.
Proof.
  intros Hp. assert (forallb lineAt (seqZ 1 90) = true) as H by (vm_compute; reflexivity).
  rewrite forallb_forall in H. apply H, list_elem_of_In, elem_of_seqZ. lia.
Qed.

Lemma foldl_dated (P : Window → Prop) `{!∀ w, Decision (P w)} (g : earliestReset → Window → earliestReset) l :
  (∀ e w, g e w = if decide (P w) then add e (Some (windowResets w)) else e) →
  foldl g noReset l = foldl add noReset (Some <$> (windowResets <$> filter P l)).
Proof.
  intros Hg. rewrite (foldl_kept P g (λ w, Some (windowResets w))) by done. f_equal. by rewrite <- list_fmap_compose.
Qed.

Lemma omap_Some (l : list Time) : omap id (Some <$> l) = l.
Proof. induction l as [|t l IH]; [done|]. cbn. by f_equal. Qed.

(** A verdict over resets that are all dated. *)
Lemma dated_verdict (l : list Time) now :
  let e := foldl add noReset (Some <$> l) in
  (∃ t, due l now t ∧ result e now = spentUntil t false) ∨ (¬ ∃ t, due l now t) ∧ result e now = healthy.
Proof.
  pose proof (result_verdict (Some <$> l) now) as H. unfold verdict in H. cbv zeta in H. rewrite omap_Some in H.
  rewrite bool_decide_false in H; [done|]. rewrite list_elem_of_fmap. by intros (? & ? & _).
Qed.

Lemma found_nil (l : list Time) : found (foldl add noReset (Some <$> l)) = false → l = [].
Proof.
  destruct (tracks_foldl (Some <$> l)) as [_ H]. destruct (found _); [done|]. intros _. destruct l as [|t l]; [done|].
  by destruct (H t ltac:(apply list_elem_of_here)).
Qed.

Lemma Assess_cases clock ty s :
  Assess clock ty s = noOpinion ∨ Assess clock ty s = healthy ∨ ∃ t, Assess clock ty s = spentUntil t false ∧ clock < t.
Proof.
  pose proof (Assess_resets clock ty s) as H. destruct (spentWindows ty s) as [spent|]; [|by left].
  rewrite H. destruct (result_verdict spent clock) as [(t & Ht & ->)|[_ ->]].
  - right. right. exists t. split; [done|]. apply Ht.
  - destruct (bool_decide _); auto.
Qed.

Lemma reserve_cases clock providerType s reserve now :
  let a0 := Assess clock providerType s in
  let a := AssessWithReserve clock providerType s reserve now in
  if dleb reserve dzero || negb (OK a0) || Exhausted a0 then a = a0
  else a0 = healthy ∧
    ((∃ t, due (capResets providerType s) now t ∧ a = spentUntil t false) ∨
     (¬ ∃ t, due (capResets providerType s) now t) ∧
     ((∃ t, due (lineResets providerType s reserve) now t ∧ a = spentUntil t true) ∨
      (¬ ∃ t, due (lineResets providerType s reserve) now t) ∧ a = healthy)).
Proof.
  intros a0 a. unfold a, AssessWithReserve. fold a0. destruct (dleb reserve dzero || negb (OK a0) || Exhausted a0) eqn:Hskip; [done|].
  apply orb_false_iff in Hskip as [[_ Hok]%orb_false_iff Hex].
  assert (a0 = healthy) as Hh.
  { destruct (Assess_cases clock providerType s) as [H|[H|(t & H & _)]]; fold a0 in H; rewrite H in *; done. }
  split; [done|]. rewrite Hh. cbv zeta.
  rewrite (foldl_dated (λ w, atCap w = true)) by (intros e w; by destruct (atCap w)).
  fold (capResets providerType s). destruct (dated_verdict (capResets providerType s) now) as [(t & Ht & ->)|[Hn ->]]; [left; eauto|].
  right. split; [done|]. cbn [Exhausted healthy]. unfold lineResets. destruct (reserveSpan providerType) as [span|].
  - rewrite (foldl_dated (λ w, atLine span (reserveLine reserve) w = true)) by (intros e w; by destruct (atLine _ _ w)).
    set (l := windowResets <$> _). destruct (found _) eqn:Hf; cbn [negb].
    + destruct (dated_verdict l now) as [(t & Ht & ->)|[Hn' ->]]; [left; eauto|right; by split].
    + apply found_nil in Hf. right. split; [|done]. rewrite Hf. intros (t & Ht & _). by apply not_elem_of_nil in Ht.
  - right. split; [|done]. intros (t & Ht & _). by apply not_elem_of_nil in Ht.
Qed.

(** Every verdict names an instant that was still to come. *)
Lemma AssessWithReserve_future clock ty s reserve now :
  let a := AssessWithReserve clock ty s reserve now in
  Exhausted a = true → OK a = true ∧ (clock < resets a ∨ now < resets a).
Proof.
  pose proof (reserve_cases clock ty s reserve now) as H. cbv zeta in *. destruct (_ || Exhausted _).
  - rewrite H. destruct (Assess_cases clock ty s) as [->|[->|(t & -> & Ht)]]; try done. intros _. split; [done|by left].
  - destruct H as [_ [(t & (_ & _ & Ht) & ->)|[_ [(t & (_ & _ & Ht) & ->)|[_ ->]]]]]; try done; intros _; (split; [done|by right]).
Qed.

(** C11. The operator's reserve. It can only take a provider out: a reading that
    says nothing or says spent stands as it is, and so does any reading without a
    reserve. Over a healthy one, the earliest reset among the governing windows
    used up decides as plain exhaustion; failing that the earliest reset among
    the windows of the type's longest span at the reserve line, which the verdict
    then says; a reset that has passed pins nothing, and a type without such a
    window is never pinned. A reserve of any whole percentage from 1 to 90 draws the
    line exactly where the rest is used, whether the provider states what is used
    or what is left: one percent short of it is not at the line. *)
Theorem reserve_verdict clock providerType s reserve now :
  let a0 := Assess clock providerType s in
  let a := AssessWithReserve clock providerType s reserve now in
  (if dleb reserve dzero || negb (OK a0) || Exhausted a0 then a = a0
   else a0 = healthy ∧
     ((∃ t, due (capResets providerType s) now t ∧ a = spentUntil t false) ∨
      (¬ ∃ t, due (capResets providerType s) now t) ∧
      ((∃ t, due (lineResets providerType s reserve) now t ∧ a = spentUntil t true) ∨
       (¬ ∃ t, due (lineResets providerType s reserve) now t) ∧ a = healthy))) ∧
  ∀ percent, 1 ≤ percent ≤ 90 →
    let line := reserveLine (ddiv (ofZ percent) hundred) in
    dltb (usedOf (100 - percent)) line = false ∧ dltb (usedOf (99 - percent)) line = true ∧
    dltb (leftOf percent) line = false ∧ dltb (leftOf (percent + 1)) line = true.
Proof.
  intros a0 a. split.
  - apply reserve_cases.
  - intros percent Hp line. pose proof (lineAt_exact percent Hp) as H. unfold lineAt in H. fold line in H.
    rewrite !andb_true_iff, !negb_true_iff in H. tauto.
Qed.

(** ** Witnesses *)

Definition demoDetail (used reset : string) : Json :=
  JObject [("limit", JString "100"); ("used", JString used); ("resetTime", JString reset)].

(** A Kimi account: a weekly cycle and a five-hour window, a hundred each. *)
Definition demoKimi (week fiveHours : string) : RawMessage := Document (JObject
  [("usage", demoDetail week "2026-03-08T00:00:00Z");
   ("limits", JArray [JObject [("window", JObject [("duration", JNumber (numeralZ 300)); ("timeUnit", JString "TIME_UNIT_MINUTE")]);
                               ("detail", demoDetail fiveHours "1772341200")]])]).

Definition demoSnapshot (payload : RawMessage) : Snapshot :=
  MkSnapshot "kimi" "usage" payload 200 (Unix 1772323200) "poll" "" None.

(** 2026-03-01 at midnight; the five-hour window resets at five. *)
Definition demoMidnight : Time := Unix 1772323200.

Lemma assessment_verdict_witness :
  let s := demoSnapshot (demoKimi "100" "100") in
  let fiveHours := Unix 1772341200 in
  spentWindows "kimi-code" s = Some [Some (Unix 1772928000); Some fiveHours] ∧
  verdict [Some fiveHours; Some (Unix 1772928000)] demoMidnight (Assess demoMidnight "kimi-code" s) ∧
  Assess demoMidnight "kimi-code" s = spentUntil fiveHours false.
Proof.
  intros s fiveHours. split; [vm_compute; reflexivity|]. split; [|vm_compute; reflexivity].
  pose proof (assessment_verdict demoMidnight "kimi-code" s) as H.
  replace (spentWindows "kimi-code" s) with (Some [Some (Unix 1772928000); Some fiveHours]) in H by (vm_compute; reflexivity).
  apply (H [Some fiveHours; Some (Unix 1772928000)]); [apply Permutation_swap|reflexivity].
Defined.

(** At six the five-hour window has rolled over but the weekly one is still
    spent: the reading counts as healthy until the next fetch. *)
Example rolled_over_hides_spent :
  Assess (demoMidnight + 6 * Hour) "kimi-code" (demoSnapshot (demoKimi "100" "100")) = healthy ∧
  Assess (demoMidnight + 6 * Hour) "kimi-code" (demoSnapshot (demoKimi "100" "99")) = spentUntil (Unix 1772928000) false.
Proof. vm_compute. done. Qed.

Lemma reserve_verdict_witness :
  let s := demoSnapshot (demoKimi "70" "0") in
  let reserve := ddiv (ofZ 30) hundred in
  Assess demoMidnight "kimi-code" s = healthy ∧
  AssessWithReserve demoMidnight "kimi-code" s reserve demoMidnight = spentUntil (Unix 1772928000) true ∧
  lineResets "kimi-code" s reserve = [Unix 1772928000] ∧
  dltb (usedOf 70) (reserveLine reserve) = false ∧ dltb (usedOf 69) (reserveLine reserve) = true.
Proof.
  intros s reserve. split; [vm_compute; reflexivity|]. split; [vm_compute; reflexivity|]. split; [vm_compute; reflexivity|].
  destruct (reserve_verdict demoMidnight "kimi-code" s reserve demoMidnight) as [_ H].
  destruct (H 30 ltac:(lia)) as (H1 & H2 & _). by split.
Defined.
