(* ===== verification/QuotaShape.v ===== *)
(** * The shape of a quota payload (internal/quota/fingerprint.go,
      internal/api/quota_drift.go)

    A payload's key paths without its values, their digest, and the watch that
    alerts once a provider has answered in a new shape twice. *)

From stdpp Require Import sorting.
From S2P Require Import Prelude Encryption GoText GoJson QuotaReading.

(** ** fingerprint.go *)

Definition maxPathDepth : nat := 6.
Definition maxPaths : nat := 200.
Definition fingerprintLen : nat := 16.

(** [len(set) >= maxPaths]. *)
Definition full (set : gset string) : bool := Nat.leb maxPaths (size set).

Definition memberPath (prefix k : string) : string :=
  if decide (prefix = "") then k else (prefix +:+ "." +:+ k)%string.

(** [levels] is [maxPathDepth] less the depth. *)
Fixpoint collectSchemaPaths (levels : nat) (node : Json) (prefix : string) (set : gset string) : gset string :=
  match levels with
  | O => set
  | S levels =>
      if full set then set else
      match node with
      | JObject ms =>
          let typed := entries ms in
          foldl (λ set k,
            if full set then set else
            let path := memberPath prefix k in
            collectSchemaPaths levels (default JNull (typed !! k)) path ({[path]} ∪ set)) set (sortedKeys typed)
      | JArray l =>
          let path := (prefix +:+ "[]")%string in
          foldl (λ set elem, if full set then set else collectSchemaPaths levels elem path set) ({[path]} ∪ set) l
      | _ => set
      end
  end.

Definition SchemaPaths (payload : RawMessage) : option (list string) :=
  match payload with
  | Document (JObject ms) =>
      if negb (decodable (JObject ms)) then None else
      let set := collectSchemaPaths maxPathDepth (JObject ms) "" ∅ in
      if decide (set = ∅) then None else Some (merge_sort String.le (elements set))
  | _ => None
  end.

Definition newline : string := bytes [10%N].

Definition FingerprintPaths (paths : list string) : string :=
  String.substring 0 fingerprintLen (SHA256Hex (String.concat newline paths)).

Definition Fingerprint (payload : RawMessage) : option string := FingerprintPaths <$> SchemaPaths payload.

(** ** quota_drift.go: one provider's decision *)

Definition quotaSchemaKeyPrefix : string := "_quota_schema_".
Definition quotaDriftConfirmations : Z := 2.
Definition quotaDriftListCap : nat := 10.

Record quotaSchemaCandidate := MkCandidate { fingerprint : string; seen : Z; fetchedAt : Time }.
#[export] Instance candidate_eq : EqDecision quotaSchemaCandidate. Proof. solve_decision. Defined.

Definition noCandidate : quotaSchemaCandidate := MkCandidate "" 0 zeroTime.

Definition quotaSchemaSettingKey (providerID : string) : string := (quotaSchemaKeyPrefix +:+ providerID)%string.

Definition driftEligible (s : Snapshot) (maxAge : Duration) (now : Time) : bool :=
  if (maxAge <=? 0) || negb (HTTPStatus s =? 200) || match Payload s with Empty => true | _ => false end then false else
  match TrustedAge now (FetchedAt s) with Some age => age <=? maxAge | None => false end.

(** The candidate to carry on, whether to alert, whether to store. *)
Definition driftDecision (prev current : string) (fetched : Time) (cand : quotaSchemaCandidate)
  : quotaSchemaCandidate * bool * bool :=
  if decide (current = "") then (cand, false, false) else
  if decide (prev = "") then (noCandidate, false, true) else
  if decide (current = prev) then (noCandidate, false, false) else
  let judged (cand : quotaSchemaCandidate) :=
    if quotaDriftConfirmations <=? seen cand then (noCandidate, true, true) else (cand, false, false) in
  if decide (fingerprint cand = current) then
    if Equal (fetchedAt cand) fetched then (cand, false, false)
    else judged (MkCandidate (fingerprint cand) (seen cand + 1) fetched)
  else judged (MkCandidate current 1 fetched).

Abbreviation Candidates := (gmap string quotaSchemaCandidate).

Definition stepQuotaSchemaCandidate (quotaSchemaSeen : Candidates) (providerID prev current : string) (fetched : Time)
  : Candidates * (bool * bool) :=
  let '(next, alert, store) := driftDecision prev current fetched (default noCandidate (quotaSchemaSeen !! providerID)) in
  (if decide (next = noCandidate) then delete providerID quotaSchemaSeen else <[providerID := next]> quotaSchemaSeen,
   (alert, store)).

(** The in-memory half of [forgetQuotaSchema]; the other deletes the setting. *)
Definition forgetQuotaSchema (quotaSchemaSeen : Candidates) (providerID : string) : Candidates :=
  delete providerID quotaSchemaSeen.

(** Each list is capped as it grows. *)
Definition gather (other : list string) (cap : nat) (acc : list string) (p : string) : list string :=
  if bool_decide (p ∈ other) || Nat.leb cap (length acc) then acc else acc ++ [p].

Definition diffSchemaPaths (prev current : list string) : list string * list string :=
  (foldl (gather prev quotaDriftListCap) [] current, foldl (gather current quotaDriftListCap) [] prev).

(** What [GetChecked] reports: a failed read, or the value if there is one. *)
Definition loadSchemaBaseline (stored : option (option RawMessage)) : option (list string) :=
  match stored with
  | None => None
  | Some raw =>
      Some (merge_sort String.le
        match raw with
        | None => []
        | Some raw => default [] (Unmarshal [] (slice "" stringField) raw)
        end)
  end.

(** What [storeSchemaBaseline] writes. *)
Definition baselineSetting (paths : list string) : RawMessage := Document (JArray (JString <$> paths)).

Record driftEvent := MkDriftEvent {
  de_provider_id : string; de_provider : string; de_kind : string; de_added : list string; de_removed : list string
}.

(** One snapshot's turn in [checkQuotaDrift], once its baseline is read: the
    candidates, what is published, and the paths to store if any. *)
Definition checkSnapshot (nameByID : gmap string string) (maxAge : Duration) (now : Time)
    (stored : option (option RawMessage)) (quotaSchemaSeen : Candidates) (s : Snapshot)
  : Candidates * option driftEvent * option (list string) :=
  if negb (driftEligible s maxAge now) then (quotaSchemaSeen, None, None) else
  match nameByID !! ProviderID s with
  | None => (quotaSchemaSeen, None, None)
  | Some name =>
      let paths := SchemaPaths (Payload s) in
      let current := match paths with Some paths => FingerprintPaths paths | None => "" end in
      match loadSchemaBaseline stored with
      | None => (quotaSchemaSeen, None, None)
      | Some prevPaths =>
          let prev := if decide (prevPaths = []) then "" else FingerprintPaths prevPaths in
          let '(quotaSchemaSeen, (alert, store)) :=
            stepQuotaSchemaCandidate quotaSchemaSeen (ProviderID s) prev current (FetchedAt s) in
          let paths := default [] paths in
          (quotaSchemaSeen,
           if alert : bool then
             let '(added, removed) := diffSchemaPaths prevPaths paths in
             Some (MkDriftEvent (ProviderID s) name (Kind s) added removed)
           else None,
           if store : bool then Some paths else None)
      end
  end.

(** ** Specifications *)

Definition scalar (j : Json) : bool := match j with JArray _ | JObject _ => false | _ => true end.

(** Values of one shape: they differ in their scalars, in the order or the
    overridden repetitions of members, or in further elements of a kind already
    in the array. *)
Inductive similar : Json → Json → Prop :=
  | similar_scalar a b : scalar a = true → scalar b = true → similar a b
  | similar_member k a b ms1 ms2 :
      similar a b → similar (JObject (ms1 ++ (k, a) :: ms2)) (JObject (ms1 ++ (k, b) :: ms2))
  | similar_order ms ms' : entries ms = entries ms' → similar (JObject ms) (JObject ms')
  | similar_element a b l1 l2 : similar a b → similar (JArray (l1 ++ a :: l2)) (JArray (l1 ++ b :: l2))
  | similar_repeat e l1 l2 l3 : similar (JArray (l1 ++ e :: l2 ++ e :: l3)) (JArray (l1 ++ e :: l2 ++ l3))
  | similar_sym a b : similar a b → similar b a
  | similar_trans a b c : similar a b → similar b c → similar a c.

(** Every path of a value, however many. *)
Fixpoint allPaths (levels : nat) (node : Json) (prefix : string) : gset string :=
  match levels with
  | O => ∅
  | S levels =>
      match node with
      | JObject ms =>
          let typed := entries ms in
          ⋃ ((λ k, let path := memberPath prefix k in {[path]} ∪ allPaths levels (default JNull (typed !! k)) path) <$> sortedKeys typed)
      | JArray l => let path := (prefix +:+ "[]")%string in {[path]} ∪ ⋃ ((λ e, allPaths levels e path) <$> l)
      | _ => ∅
      end
  end.

(** ** Lemmas: the bounded walk *)

(** A walk adds paths of [P] only, all of them unless it fills up. *)
Definition walks (f : gset string → gset string) (P : gset string) : Prop :=
  ∀ set, set ⊆ f set ∧ f set ⊆ set ∪ P ∧ (full (f set) = false → f set = set ∪ P) ∧
         (size set ≤ maxPaths → size (f set) ≤ maxPaths)%nat.

Lemma full_mono s s' : s ⊆ s' → full s' = false → full s = false.
Proof.
  unfold full. intros H Hf. apply Nat.leb_gt in Hf. apply Nat.leb_gt. pose proof (subseteq_size _ _ H). lia.
Qed.

Lemma walks_nothing : walks (λ s, s) ∅.
Proof. intros s. rewrite (right_id_L ∅ (∪)). done. Qed.

Lemma walks_seq f g P Q : walks f P → walks g Q → walks (λ s, g (f s)) (P ∪ Q).
Proof.
  intros Hf Hg s. destruct (Hf s) as (F1 & F2 & F3 & F4), (Hg (f s)) as (G1 & G2 & G3 & G4).
  split; [clear -F1 G1; set_solver|]. split; [clear -F2 G2; set_solver|]. split; [|auto].
  intros Hn. rewrite G3, F3 by eauto using full_mono. clear. set_solver.
Qed.

Lemma walks_skip f P : walks f P → walks (λ s, if full s then s else f s) P.
Proof.
  intros Hf s. destruct (full s) eqn:Hs; [|apply Hf]. split; [done|]. split; [apply union_subseteq_l|]. by rewrite Hs.
Qed.

Lemma walks_into path f P : walks f P → walks (λ s, if full s then s else f ({[path]} ∪ s)) ({[path]} ∪ P).
Proof.
  intros Hf s. destruct (full s) eqn:Hs; [split; [done|]; split; [apply union_subseteq_l|]; by rewrite Hs|].
  destruct (Hf ({[path]} ∪ s)) as (F1 & F2 & F3 & F4).
  split; [clear -F1; set_solver|]. split; [clear -F2; set_solver|]. split.
  - intros Hn. rewrite F3 by done. clear. set_solver.
  - intros _. apply F4. apply Nat.leb_gt in Hs. rewrite size_union_alt, size_singleton.
    pose proof (subseteq_size (s ∖ {[path]}) s ltac:(clear; set_solver)). lia.
Qed.

Lemma walks_foldl {A} (f : A → gset string → gset string) P l :
  (∀ x, walks (f x) (P x)) → walks (λ s, foldl (λ s x, f x s) s l) (⋃ (P <$> l)).
Proof.
  intros Hf. induction l as [|x l IH]; [apply walks_nothing|]. cbn [foldl fmap list_fmap union_list].
  apply (walks_seq (f x) (λ s, foldl (λ s x, f x s) s l)); [apply Hf|apply IH].
Qed.

Lemma collect_walks levels node prefix : walks (collectSchemaPaths levels node prefix) (allPaths levels node prefix).
Proof.
  revert node prefix. induction levels as [|levels IH]; intros node prefix; [apply walks_nothing|].
  destruct node as [| | | |l|ms]; try exact (walks_skip (λ s, s) ∅ walks_nothing).
  - set (path := (prefix +:+ "[]")%string).
    apply (walks_into path (λ s, foldl (λ s e, if full s then s else collectSchemaPaths levels e path s) s l)).
    apply (walks_foldl (λ e s, if full s then s else collectSchemaPaths levels e path s)). intros e. apply walks_skip, IH.
  - set (child k s := if full s then s else
      collectSchemaPaths levels (default JNull (entries ms !! k)) (memberPath prefix k) ({[memberPath prefix k]} ∪ s)).
    apply (walks_skip (λ s, foldl (λ s k, child k s) s (sortedKeys (entries ms)))).
    apply (walks_foldl child). intros k. apply walks_into, IH.
Qed.

(** ** Lemmas: similar payloads *)

Lemma foldl_same {A B} (f g : B → A → B) l s : (∀ s x, f s x = g s x) → foldl f s l = foldl g s l.
Proof. intros H. revert s. induction l as [|x l IH]; intros s; [done|]. cbn. by rewrite H. Qed.

Lemma entries_app ms1 ms2 : entries (ms1 ++ ms2) = foldl (λ m e, <[e.1 := e.2]> m) (entries ms1) ms2.
Proof. apply foldl_app. Qed.

Lemma entries_member k a b ms1 ms2 k' :
  let m := entries (ms1 ++ (k, a) :: ms2) in let m' := entries (ms1 ++ (k, b) :: ms2) in
  m !! k' = m' !! k' ∨ k' = k ∧ m !! k' = Some a ∧ m' !! k' = Some b.
Proof.
  cbv zeta. rewrite !entries_app. cbn [foldl fst snd].
  assert (∀ m m' : gmap string Json, (m !! k' = m' !! k' ∨ k' = k ∧ m !! k' = Some a ∧ m' !! k' = Some b) →
    let f := foldl (λ (m : gmap string Json) e, <[e.1 := e.2]> m) in
    f m ms2 !! k' = f m' ms2 !! k' ∨ k' = k ∧ f m ms2 !! k' = Some a ∧ f m' ms2 !! k' = Some b) as Hf.
  { induction ms2 as [|[k2 v] ms2 IH]; intros m m' H; [done|]. cbn [foldl fst snd]. apply IH.
    destruct (decide (k' = k2)) as [->|]; [left; by rewrite !lookup_insert_eq|by rewrite !lookup_insert_ne]. }
  apply Hf. destruct (decide (k' = k)) as [->|]; [right; by rewrite !lookup_insert_eq|left; by rewrite !lookup_insert_ne].
Qed.

Lemma sortedKeys_dom {A B} (m : gmap string A) (m' : gmap string B) :
  (∀ k, is_Some (m !! k) ↔ is_Some (m' !! k)) → sortedKeys m = sortedKeys m'.
Proof.
  intros H. unfold sortedKeys. eapply (StronglySorted_unique String.le); [apply StronglySorted_merge_sort; apply _..|].
  rewrite !merge_sort_Permutation. apply NoDup_Permutation; [apply NoDup_fst_map_to_list..|]. intros k.
  rewrite !list_elem_of_fmap. split; intros ([k' v] & -> & Hv%elem_of_map_to_list); cbn.
  - destruct (proj1 (H k')) as [v' Hv']; [eauto|]. exists (k', v'). by rewrite elem_of_map_to_list.
  - destruct (proj2 (H k')) as [v' Hv']; [eauto|]. exists (k', v'). by rewrite elem_of_map_to_list.
Qed.

(** Walking a value again adds nothing. *)
Lemma collect_again levels e path s s' :
  let visit s := if full s then s else collectSchemaPaths levels e path s in
  visit s ⊆ s' → visit s' = s'.
Proof.
  cbv zeta beta. intros H. destruct (full s') eqn:Hs'; [done|].
  destruct (walks_skip _ _ (collect_walks levels e path) s) as (_ & _ & Hall & _).
  rewrite Hall in H by (by eapply full_mono). destruct (collect_walks levels e path s') as (H1 & H2 & _).
  apply set_eq. clear Hall. set_solver.
Qed.

Lemma foldl_grows {A} (f : gset string → A → gset string) l s : (∀ s x, s ⊆ f s x) → s ⊆ foldl f s l.
Proof. intros H. revert s. induction l as [|x l IH]; intros s; [done|]. cbn. etransitivity; [apply H|apply IH]. Qed.

Lemma collect_similar a b : similar a b → ∀ levels p s, collectSchemaPaths levels a p s = collectSchemaPaths levels b p s.
Proof.
  induction 1 as [a b Ha Hb|k a b ms1 ms2 _ IH|ms ms' He|a b l1 l2 _ IH|e l1 l2 l3|a b _ IH|a b c _ IH1 _ IH2];
    intros [|levels] p s; try done.
  - by destruct a, b.
  - cbn [collectSchemaPaths]. destruct (full s); [done|]. cbv zeta.
    assert (∀ k', is_Some (entries (ms1 ++ (k, a) :: ms2) !! k') ↔ is_Some (entries (ms1 ++ (k, b) :: ms2) !! k')) as Hd.
    { intros k'. destruct (entries_member k a b ms1 ms2 k') as [->|(_ & -> & ->)]; [done|]. split; eauto. }
    rewrite (sortedKeys_dom _ _ Hd). apply foldl_same. intros s' k'. destruct (full s'); [done|].
    destruct (entries_member k a b ms1 ms2 k') as [->|(_ & -> & ->)]; [done|]. apply IH.
  - cbn [collectSchemaPaths]. by rewrite He.
  - cbn [collectSchemaPaths]. destruct (full s); [done|]. rewrite !foldl_app. cbn [foldl]. destruct (full _); [done|]. by rewrite IH.
  - cbn [collectSchemaPaths]. destruct (full s); [done|]. rewrite !foldl_app. cbn [foldl]. rewrite !foldl_app. cbn [foldl].
    f_equal. eapply collect_again. apply foldl_grows. intros s' x. apply (walks_skip _ _ (collect_walks levels x _) s').
  - by rewrite IH1.
Qed.

Definition isObject (j : Json) : bool := match j with JObject _ => true | _ => false end.

Lemma similar_object a b : similar a b → isObject a = isObject b.
Proof.
  induction 1 as [a b Ha Hb| | | | | |]; try done; [|by etransitivity]. by destruct a, b.
Qed.

Lemma SchemaPaths_object j :
  decodable j = true →
  SchemaPaths (Document j) =
    let set := collectSchemaPaths maxPathDepth j "" ∅ in
    if negb (isObject j) || bool_decide (set = ∅) then None else Some (merge_sort String.le (elements set)).
Proof.
  intros Hd. destruct j; try done. unfold SchemaPaths. rewrite Hd. cbn [negb isObject orb]. cbv zeta.
  case_decide; case_bool_decide; done.
Qed.

(** ** Properties: the shape *)

(** A fingerprint is of the shape. Two payloads that differ only in their
    values, in the order of members or in repeated elements of an array have the
    same key paths, truncated or not, and the same fingerprint; the paths are
    sorted, without repetition, at least one and at most 200. *)
Lemma shape_only a b :
  similar a b → decodable a = true → decodable b = true →
  SchemaPaths (Document a) = SchemaPaths (Document b) ∧ Fingerprint (Document a) = Fingerprint (Document b) ∧
  ∀ paths, SchemaPaths (Document a) = Some paths →
    StronglySorted String.le paths ∧ NoDup paths ∧ (1 ≤ length paths ≤ maxPaths)%nat.
Proof.
  intros Hs Ha Hb.
  assert (SchemaPaths (Document a) = SchemaPaths (Document b)) as Heq.
  { rewrite !SchemaPaths_object by done. cbv zeta. rewrite (collect_similar a b Hs).
    by rewrite (similar_object a b Hs). }
  split; [done|]. split; [unfold Fingerprint; by rewrite Heq|]. intros paths. rewrite SchemaPaths_object by done. cbv zeta.
  set (set := collectSchemaPaths _ _ _ _). destruct (negb _); [done|]. cbn [orb]. case_bool_decide as Hn; [done|]. intros [= <-].
  split; [apply StronglySorted_merge_sort; apply _|]. rewrite merge_sort_Permutation. split; [apply NoDup_elements|].
  destruct (collect_walks maxPathDepth a "" ∅) as (_ & _ & _ & Hmax). rewrite size_empty in Hmax.
  change (length (elements set)) with (size set). split; [|apply Hmax, Nat.le_0_l].
  destruct (decide (size set = 0%nat)) as [H0|]; [|lia]. by apply size_empty_inv, leibniz_equiv in H0.
Qed.

(** ** The watch over time *)

(** What reaches the candidates, in the order the lock admits it, whichever
    passes run at once: one snapshot's comparison, a deleted provider. *)
Inductive drift_call :=
  | Compared (id prev current : string) (fetched : Time)
  | Forgotten (id : string).

Definition watched (m : Candidates) (c : drift_call) : Candidates :=
  match c with
  | Compared id prev current t => (stepQuotaSchemaCandidate m id prev current t).1
  | Forgotten id => forgetQuotaSchema m id
  end.

(** A call that leaves a candidate of [id] with this fingerprint and fetch. *)
Definition quiet (id fp : string) (t : Time) (c : drift_call) : Prop :=
  match c with
  | Compared id' prev current t' => id' = id → current = "" ∨ (current = fp ∧ prev ≠ "" ∧ prev ≠ current ∧ t' = t)
  | Forgotten id' => id' ≠ id
  end.

(** Where a candidate comes from. *)
Definition sighted (history : list drift_call) (id : string) (cand : quotaSchemaCandidate) : Prop :=
  seen cand = 1 ∧ fingerprint cand ≠ "" ∧
  ∃ before prev between, history = before ++ Compared id prev (fingerprint cand) (fetchedAt cand) :: between ∧
    prev ≠ "" ∧ prev ≠ fingerprint cand ∧ ∀ c, c ∈ between → quiet id (fingerprint cand) (fetchedAt cand) c.

Definition candidates_ok (history : list drift_call) (m : Candidates) : Prop :=
  ∀ id cand, m !! id = Some cand → sighted history id cand.

Lemma sighted_quiet history id cand c :
  sighted history id cand → quiet id (fingerprint cand) (fetchedAt cand) c → sighted (history ++ [c]) id cand.
Proof.
  intros (H1 & H2 & before & prev & between & -> & H3 & H4 & H5) Hq. split; [done|]. split; [done|].
  exists before, prev, (between ++ [c]). split; [by rewrite <- app_assoc|]. split; [done|]. split; [done|].
  intros c' [Hc|Hc]%elem_of_app; [auto|]. apply list_elem_of_singleton in Hc. by subst.
Qed.

(** What the decision leaves, given where its candidate came from. *)
Lemma driftDecision_spec history id prev current t cand :
  cand = noCandidate ∨ sighted history id cand →
  let '(next, alert, store) := driftDecision prev current t cand in
  (next = noCandidate ∨ sighted (history ++ [Compared id prev current t]) id next) ∧
  (alert = true → store = true ∧ current ≠ "" ∧ prev ≠ "" ∧ current ≠ prev ∧
     sighted history id cand ∧ fingerprint cand = current ∧ fetchedAt cand ≠ t) ∧
  (store = true → alert = true ∨ prev = "") ∧
  (current ≠ "" → prev ≠ "" → current ≠ prev → alert = false → fingerprint next = current ∧ fetchedAt next = t ∧ seen next = 1).
Proof.
  intros Hc. unfold driftDecision.
  destruct (decide (current = "")) as [->|Hcur].
  { split_and!; try done. destruct Hc as [->|Hc]; [by left|right]. apply sighted_quiet; [done|]. intros _. by left. }
  destruct (decide (prev = "")) as [->|Hprev]; [split_and!; try done; auto|].
  destruct (decide (current = prev)) as [->|Hne]; [split_and!; try done; auto|].
  destruct (decide (fingerprint cand = current)) as [Hfp|Hfp].
  - assert (sighted history id cand) as Hs by (destruct Hc as [->|Hc]; [by cbn in Hfp|done]).
    pose proof Hs as (Hseen & _ & _). unfold Equal. destruct (Z.eqb_spec (fetchedAt cand) t) as [Ht|Ht].
    + split_and!; try done. right. apply sighted_quiet; [done|]. intros _. right. by rewrite Hfp, Ht.
    + cbn [seen]. rewrite Hseen. cbn. split_and!; try done; auto.
  - cbn. split_and!; try done. right. split; [done|]. split; [done|]. exists history, prev, []. cbn. split; [done|].
    split; [done|]. split; [done|]. intros c []%not_elem_of_nil.
Qed.

Lemma candidates_watched history m c : candidates_ok history m → candidates_ok (history ++ [c]) (watched m c).
Proof.
  intros Hm id cand. destruct c as [id' prev current t|id']; cbn.
  - unfold stepQuotaSchemaCandidate.
    pose proof (driftDecision_spec history id' prev current t (default noCandidate (m !! id'))) as H.
    destruct (driftDecision _ _ _ _) as [[next alert] store]. cbn.
    assert (default noCandidate (m !! id') = noCandidate ∨ sighted history id' (default noCandidate (m !! id'))) as Hc.
    { destruct (m !! id') as [c|] eqn:He; [right; by apply Hm|by left]. }
    destruct (H Hc) as [Hnext _]. destruct (decide (id = id')) as [->|Hid].
    + destruct (decide (next = noCandidate)); [by rewrite lookup_delete_eq|]. rewrite lookup_insert_eq. intros [= <-].
      by destruct Hnext.
    + intros Hl. apply sighted_quiet; [|by intros ->]. apply Hm. revert Hl.
      destruct (decide (next = noCandidate)); [by rewrite lookup_delete_ne|by rewrite lookup_insert_ne].
  - unfold forgetQuotaSchema. rewrite lookup_delete_Some. intros [Hne Hl]. apply sighted_quiet; [by apply Hm|done].
Qed.

Lemma candidates_history history : candidates_ok history (foldl watched ∅ history).
Proof.
  induction history as [|c history IH] using rev_ind; [intros id cand; cbn; by rewrite lookup_empty|].
  rewrite foldl_app. by apply candidates_watched.
Qed.

(** ** Properties: the watch *)

(** C15. An alert is confirmed. However the passes interleave and whatever they
    read as the baseline, a change is alerted only when an earlier and different
    fetch had the same new shape and nothing since but unreadable payloads and
    rereads of that first fetch; the new shape is then stored, and besides that
    only a first sighting is. Two fetches of a new shape in a row do alert. *)
Theorem drift_confirmed history id prev current t :
  let m := foldl watched ∅ history in
  let '(m', (alert, store)) := stepQuotaSchemaCandidate m id prev current t in
  (alert = true → store = true ∧ current ≠ "" ∧ prev ≠ "" ∧ current ≠ prev ∧
     ∃ before prev1 t1 between, history = before ++ Compared id prev1 current t1 :: between ∧
       t1 ≠ t ∧ prev1 ≠ "" ∧ prev1 ≠ current ∧ ∀ c, c ∈ between → quiet id current t1 c) ∧
  (store = true → alert = true ∨ prev = "") ∧
  (current ≠ "" → prev ≠ "" → current ≠ prev → ∀ t2, t2 ≠ t →
     alert = true ∨ (stepQuotaSchemaCandidate m' id prev current t2).2 = (true, true)).
Proof.
  intros m. pose proof (candidates_history history) as Hok. fold m in Hok. unfold stepQuotaSchemaCandidate.
  assert (default noCandidate (m !! id) = noCandidate ∨ sighted history id (default noCandidate (m !! id))) as Hc.
  { destruct (m !! id) as [c|] eqn:He; [right; by apply Hok|by left]. }
  pose proof (driftDecision_spec history id prev current t _ Hc) as H.
  destruct (driftDecision _ _ _ _) as [[next alert] store]. destruct H as (_ & Halert & Hstore & Hnew).
  split; [|split; [done|]].
  - intros Ha. destruct (Halert Ha) as (H1 & H2 & H3 & H4 & Hs & Hfp & Ht). split_and!; try done.
    destruct Hs as (_ & _ & before & prev1 & between & Hh & P1 & P2 & Hq). rewrite Hfp in *.
    exists before, prev1, (fetchedAt (default noCandidate (m !! id))), between. done.
  - intros H1 H2 H3 t2 Ht. destruct alert; [by left|right]. destruct (Hnew H1 H2 H3 eq_refl) as (F1 & F2 & F3).
    rewrite decide_False by (intros ->; done). rewrite lookup_insert_eq. cbn [default]. unfold Datatypes.id, driftDecision.
    rewrite !decide_False by done. rewrite decide_True by done. unfold Equal. rewrite F2, (proj2 (Z.eqb_neq t t2)) by done.
    cbn [seen]. rewrite F3. cbn. done.
Qed.

(** ** Witnesses *)

Definition demoPayload (figure : Z) (models : nat) : Json :=
  JObject [("data", JObject [("limits", JArray (replicate models (JObject [("type", JString "TOKENS_LIMIT"); ("left", JNumber (numeralZ figure))])))])].

Lemma demoPayload_similar : similar (demoPayload 7 2) (demoPayload 9 1).
Proof.
  apply (similar_member "data" _ _ [] []), (similar_member "limits" _ _ [] []).
  eapply similar_trans; [apply (similar_repeat _ [] [] [])|]. apply (similar_element _ _ [] []).
  apply (similar_member "left" _ _ [("type", JString "TOKENS_LIMIT")] []). by apply similar_scalar.
Qed.

Lemma shape_only_witness :
  SchemaPaths (Document (demoPayload 7 2)) = Some ["data"; "data.limits"; "data.limits[]"; "data.limits[].left"; "data.limits[].type"] ∧
  SchemaPaths (Document (demoPayload 7 2)) = SchemaPaths (Document (demoPayload 9 1)) ∧
  Fingerprint (Document (demoPayload 7 2)) = Fingerprint (Document (demoPayload 9 1)).
Proof.
  split; [vm_compute; reflexivity|].
  destruct (shape_only (demoPayload 7 2) (demoPayload 9 1) demoPayload_similar eq_refl eq_refl) as (H1 & H2 & _).
  by split.
Defined.

(** One odd body in between does not count, however often its row is read. *)
Lemma drift_confirmed_witness :
  let history := [Compared "p" "" "a" 1; Compared "p" "a" "b" 2; Compared "p" "a" "b" 2] in
  (stepQuotaSchemaCandidate (foldl watched ∅ history) "p" "a" "b" 2).2 = (false, false) ∧
  (stepQuotaSchemaCandidate (foldl watched ∅ (history ++ [Compared "p" "a" "a" 3])) "p" "a" "b" 4).2 = (false, false) ∧
  (stepQuotaSchemaCandidate (foldl watched ∅ history) "p" "a" "b" 3).2 = (true, true) ∧
  ∃ before prev1 t1 between, history = before ++ Compared "p" prev1 "b" t1 :: between ∧ t1 ≠ 3.
Proof.
  intros history. split; [reflexivity|]. split; [reflexivity|]. split; [reflexivity|].
  destruct (drift_confirmed history "p" "a" "b" 3) as [H _].
  destruct (H eq_refl) as (_ & _ & _ & _ & before & prev1 & t1 & between & Hh & Ht & _).
  exists before, prev1, t1, between. by split.
Defined.
