(* ===== verification/QuotaStore.v ===== *)
(** * Stored quota snapshots (internal/quota/repository.go,
      internal/api/quota_event.go, quota_fleet.go)

    One row per provider and kind. Whole writes are transactions under an
    advisory lock that read the row they replace; a flip of the stored status
    between a reading and none is announced by whoever wrote it. A fleet member
    takes the primary's rows by the same writes. *)

From S2P Require Import Prelude GoText GoJson QuotaReading.

(** ** Rows *)

(** provider_quota_snapshots, but for its key; [None] is NULL. *)
Record quotaRow := MkQuotaRow {
  q_payload : option Json;
  http_status : Z;
  fetched_at : Time;
  source : string;
  last_error : option string;
  last_attempt_at : option Time
}.

Record Prior := MkPrior { prior_HTTPStatus : Z; prior_Source : string; prior_FetchedAt : Time }.

Definition noPrior : Prior := MkPrior 0 "" zeroTime.

(** timestamptz keeps microseconds. *)
Definition timestamptz (t : Time) : Time := t / 1000 * 1000.

Definition fetchedAtSkewTolerance : Duration := 2 * Minute.

Definition sanitizeFetchedAt (now t : Time) : Time :=
  if IsZero t || After t (Add now fetchedAtSkewTolerance) then now else t.

(** The answer of [lockPrior]'s query. *)
Definition lockPrior (row : option quotaRow) : Prior :=
  match row with None => noPrior | Some r => MkPrior (http_status r) (source r) (fetched_at r) end.

(** NULLIF and COALESCE over the empty string. *)
Definition NULLIF (s : string) : option string := if decide (s = "") then None else Some s.
Definition COALESCE (s : option string) : string := default "" s.

Definition rawOf (payload : option Json) : RawMessage := match payload with None => Empty | Some j => Document j end.

Definition scanSnapshot (providerID kind : string) (r : quotaRow) : Snapshot :=
  MkSnapshot providerID kind (rawOf (q_payload r)) (http_status r) (fetched_at r) (source r)
    (COALESCE (last_error r)) (last_attempt_at r).

Section Store.
(** What PostgreSQL keeps of a document. *)
Context (jsonb : Json → Json).

(** [None]: the column refuses what is not JSON. *)
Definition column (raw : RawMessage) : option (option Json) :=
  match raw with Empty => Some None | Garbled => None | Document j => Some (Some (jsonb j)) end.

(** A smallint column refuses the rest. *)
Definition smallint (z : Z) : option Z := if (- 32768 <=? z) && (z <=? 32767) then Some z else None.

(** The row [Replace]'s statement leaves; its stamp was sanitized before. *)
Definition replaced (s : Snapshot) : option quotaRow :=
  payload ← column (Payload s);
  status ← smallint (HTTPStatus s);
  let at_ := timestamptz (FetchedAt s) in
  Some (MkQuotaRow payload status at_ (Source s) None (Some at_)).

(** The row [ReplaceIfNewer] would leave. *)
Definition pushed (s : Snapshot) : option quotaRow :=
  payload ← column (Payload s);
  status ← smallint (HTTPStatus s);
  let at_ := timestamptz (FetchedAt s) in
  Some (MkQuotaRow payload status at_ (Source s) (NULLIF (LastError s)) (Some at_)).

Definition isNull (e : option string) : bool := match e with None => true | Some _ => false end.

(** Its WHERE clause, [EXCLUDED] being the row that came. *)
Definition supersedes (row EXCLUDED : quotaRow) : bool :=
  (fetched_at row <? fetched_at EXCLUDED) ||
  ((fetched_at row =? fetched_at EXCLUDED) && isNull (last_error row) && negb (isNull (last_error EXCLUDED))).

Inductive write := Replacing (s : Snapshot) | Pushing (s : Snapshot).

Definition snapshotOf (w : write) : Snapshot := match w with Replacing s | Pushing s => s end.

(** The statement over the stored row: an error, or the row after and whether it
    was touched. *)
Definition executed (w : write) (row : option quotaRow) : option (option quotaRow * bool) :=
  match w with
  | Replacing s => r ← replaced s; Some (Some r, true)
  | Pushing s =>
      r ← pushed s;
      match row with
      | None => Some (Some r, true)
      | Some old => if supersedes old r then Some (Some r, true) else Some (row, false)
      end
  end.

Definition withFetchedAt (s : Snapshot) (t : Time) : Snapshot :=
  MkSnapshot (ProviderID s) (Kind s) (Payload s) (HTTPStatus s) t (Source s) (LastError s) (LastAttemptAt s).

Definition sanitized (now : Time) (w : write) : write :=
  match w with
  | Replacing s => Replacing (withFetchedAt s (sanitizeFetchedAt now (FetchedAt s)))
  | Pushing s => Pushing (withFetchedAt s (sanitizeFetchedAt now (FetchedAt s)))
  end.

Definition RecordFailure (now : Time) (errMsg : string) (row : option quotaRow) : quotaRow :=
  let at_ := timestamptz now in
  match row with
  | None => MkQuotaRow None 0 at_ "poll" (Some errMsg) (Some at_)
  | Some r => MkQuotaRow (q_payload r) (http_status r) (fetched_at r) (source r) (Some errMsg) (Some at_)
  end.

(** [ReplaceIfNewer] when nothing else happens: the row after, and what it
    reports. *)
Definition ReplaceIfNewer (now : Time) (s : Snapshot) (row : option quotaRow) : option (option quotaRow * bool * Prior) :=
  '(row', wrote) ← executed (sanitized now (Pushing s)) row;
  Some (row', wrote, lockPrior row).

(** ** quota_event.go *)

Definition EventTypeQuotaStatusLost := "quota.status_lost".
Definition EventTypeQuotaStatusRestored := "quota.status_restored".
Definition EventTypeQuotaStatusSynced := "quota.status_synced".

Record statusEvent := MkStatusEvent {
  se_type : string; se_severity : string; se_message : string; se_status : Z; se_previous : Z
}.

Definition publishQuotaStatusChange (name : string) (prior : Prior) (status : Z) (fed : bool) : option statusEvent :=
  if (prior_HTTPStatus prior =? 0) || Bool.eqb (prior_HTTPStatus prior =? 200) (status =? 200) then None else
  let '(typ, severity, message) :=
    if status =? 200
    then (EventTypeQuotaStatusRestored, "success",
          (name +:+ " quota reading is back (HTTP 200, was " +:+ pretty (prior_HTTPStatus prior) +:+ ")")%string)
    else (EventTypeQuotaStatusLost, "warning",
          (name +:+ " quota reading stopped: HTTP " +:+ pretty status +:+ " (was " +:+ pretty (prior_HTTPStatus prior) +:+ ")")%string) in
  Some (MkStatusEvent (if fed then EventTypeQuotaStatusSynced else typ) severity message status (prior_HTTPStatus prior)).

(** [managed] is what [isManagedMember] answers, [interval] the poll interval. *)
Definition quotaFedByFleet (managed : bool) (interval : Duration) (now : Time) (prior : Prior) : bool :=
  if negb (bool_decide (prior_Source prior = "fleet")) || negb managed then false else
  (0 <? interval) && match TrustedAge now (prior_FetchedAt prior) with Some age => age <? interval | None => false end.

(** Who is told: a local write asks, a push over a push is the primary's news. *)
Definition fedBy (managed : bool) (interval : Duration) (now : Time) (w : write) (prior : Prior) : bool :=
  match w with
  | Replacing _ => quotaFedByFleet managed interval now prior
  | Pushing _ => bool_decide (prior_Source prior = "fleet")
  end.

(** ** Writers at work

    One row, and gateways that share it. [storeQuotaSnapshot] and [storeOne]
    hold their gateway's quotaWriteMu from start to end, so a gateway has at most
    one writer; a transaction's write takes effect with its commit, the row being
    locked in between. A gateway that dies after its commit is one whose commit's
    answer is lost. This is the row's life while its provider exists: deleting the
    provider takes the row along, and no later write can bring it back. *)

Inductive phase :=
  | Waiting (w : write)                                  (* for the advisory lock *)
  | Locked (w : write)
  | HasRead (w : write) (prior : Prior)
  | Committed (w : write) (prior : Prior) (wrote : bool).

(** A commit that wrote: what its transaction had read, the status it left, and
    whether its gateway heard. *)
Record commit := MkCommit { c_gateway : string; c_prior : Z; c_status : Z; c_heard : bool }.

Record store := MkStore {
  row : option quotaRow;
  advisory : option string;
  writers : gmap string phase;
  published : gmap string (list statusEvent);
  commits : list commit                                  (* what happened, for the theorems *)
}.
Definition store_eta (s : store) : store := MkStore (row s) (advisory s) (writers s) (published s) (commits s).
#[export] Instance upd_row : Updater row := ltac:(derive_updater store_eta).
#[export] Instance upd_advisory : Updater advisory := ltac:(derive_updater store_eta).
#[export] Instance upd_writers : Updater writers := ltac:(derive_updater store_eta).
#[export] Instance upd_published : Updater published := ltac:(derive_updater store_eta).
#[export] Instance upd_commits : Updater commits := ltac:(derive_updater store_eta).

Definition publishedBy (s : store) (g : string) : list statusEvent := default [] (published s !! g).

Definition unlocked (g : string) (s : store) : store :=
  if decide (advisory s = Some g) then s ⟦ advisory := None ⟧ else s.

Definition logged (g : string) (w : write) (prior : Prior) (wrote heard : bool) (s : store) : store :=
  if wrote then s ⟦ commits := commits s ++ [MkCommit g (prior_HTTPStatus prior) (HTTPStatus (snapshotOf w)) heard] ⟧ else s.

Definition announce (name g : string) (w : write) (prior : Prior) (wrote fed : bool) (s : store) : store :=
  match (if wrote then publishQuotaStatusChange name prior (HTTPStatus (snapshotOf w)) fed else None) with
  | Some e => s ⟦ published := <[g := publishedBy s g ++ [e]]> (published s) ⟧
  | None => s
  end.

Inductive store_step (name : string) : store → store → Prop :=
  | step_begin s g w now :
      writers s !! g = None →
      store_step name s (s ⟦ writers := <[g := Waiting (sanitized now w)]> (writers s) ⟧)
  | step_lock s g w :
      writers s !! g = Some (Waiting w) → advisory s = None →
      store_step name s (s ⟦ writers := <[g := Locked w]> (writers s) ⟧ ⟦ advisory := Some g ⟧)
  | step_read s g w :
      writers s !! g = Some (Locked w) →
      store_step name s (s ⟦ writers := <[g := HasRead w (lockPrior (row s))]> (writers s) ⟧)
  | step_commit s g w prior row' wrote :
      writers s !! g = Some (HasRead w prior) → executed w (row s) = Some (row', wrote) →
      store_step name s
        (logged g w prior wrote true (unlocked g (s ⟦ row := row' ⟧ ⟦ writers := <[g := Committed w prior wrote]> (writers s) ⟧)))
  | step_commit_unheard s g w prior row' wrote :
      writers s !! g = Some (HasRead w prior) → executed w (row s) = Some (row', wrote) →
      store_step name s (logged g w prior wrote false (unlocked g (s ⟦ row := row' ⟧ ⟦ writers := delete g (writers s) ⟧)))
  | step_publish s g w prior wrote managed interval now :
      writers s !! g = Some (Committed w prior wrote) →
      store_step name s
        (announce name g w prior wrote (fedBy managed interval now w prior) (s ⟦ writers := delete g (writers s) ⟧))
  | step_fail s g p :                                    (* any error before the commit: rolled back *)
      writers s !! g = Some p → (∀ w prior wrote, p ≠ Committed w prior wrote) →
      store_step name s (unlocked g (s ⟦ writers := delete g (writers s) ⟧))
  | step_record_failure s now errMsg :
      store_step name s (s ⟦ row := Some (RecordFailure now errMsg (row s)) ⟧).
End Store.

(** ** Specifications *)

Definition statusOf (r : option quotaRow) : Z := prior_HTTPStatus (lockPrior r).

(** Each commit read what the one before it left. *)
Fixpoint chained (from : Z) (l : list commit) (to : Z) : Prop :=
  match l with
  | [] => from = to
  | c :: l => c_prior c = from ∧ chained (c_status c) l to
  end.

(** A reading was lost or came back. *)
Definition flips (c : commit) : Prop := c_prior c ≠ 0 ∧ (c_prior c = 200 ↔ c_status c ≠ 200).
#[export] Instance flips_dec c : Decision (flips c). Proof. unfold flips. apply _. Defined.

(** The commits a gateway has to announce. *)
Definition heardFlips (g : string) (l : list commit) : list commit :=
  filter (λ c, c_gateway c = g ∧ c_heard c = true ∧ flips c) l.

(** The announcement of a commit: the right kind, with both statuses. *)
Definition announces (name : string) (c : commit) (e : statusEvent) : Prop :=
  se_previous e = c_prior c ∧ se_status e = c_status c ∧
  (se_type e = EventTypeQuotaStatusSynced ∨
   se_type e = if decide (c_status c = 200) then EventTypeQuotaStatusRestored else EventTypeQuotaStatusLost) ∧
  se_severity e = if decide (c_status c = 200) then "success" else "warning".

Definition startStore (r : option quotaRow) : store := MkStore r None ∅ ∅ [].

#[local] Arguments heardFlips : simpl never.

(** ** Lemmas: the writers *)

Definition holds (p : phase) : bool := match p with Locked _ | HasRead _ _ => true | _ => false end.

(** What a gateway has committed but not yet published. *)
Definition unpublished (g : string) (p : option phase) : list commit :=
  match p with
  | Some (Committed w prior true) => heardFlips g [MkCommit g (prior_HTTPStatus prior) (HTTPStatus (snapshotOf w)) true]
  | _ => []
  end.

Record writers_ok (name : string) (from : Z) (s : store) : Prop := {
  ok_lock : ∀ g p, writers s !! g = Some p → holds p = true → advisory s = Some g;
  ok_prior : ∀ g w prior, writers s !! g = Some (HasRead w prior) → prior_HTTPStatus prior = statusOf (row s);
  ok_chain : chained from (commits s) (statusOf (row s));
  ok_told : ∀ g, ∃ told, heardFlips g (commits s) = told ++ unpublished g (writers s !! g) ∧
                         Forall2 (announces name) told (publishedBy s g)
}.

Lemma chained_snoc from l c mid : chained from l mid → c_prior c = mid → chained from (l ++ [c]) (c_status c).
Proof. revert from. induction l as [|c' l IH]; cbn; intros from; [by intros -> ->|]. intros [? ?] ?. split; auto. Qed.

Lemma statusOf_failure now errMsg r : statusOf (Some (RecordFailure now errMsg r)) = statusOf r.
Proof. by destruct r. Qed.

Lemma executed_status jsonb w r r' wrote :
  executed jsonb w r = Some (r', wrote) → statusOf r' = if wrote then HTTPStatus (snapshotOf w) else statusOf r.
Proof.
  unfold executed, replaced, pushed, smallint. destruct w as [s|s]; destruct (column jsonb (Payload s)) as [p|]; cbn; try done;
    destruct (_ && _); cbn; try done; [by intros [= <- <-]|].
  destruct r as [old|]; [|by intros [= <- <-]]. destruct (supersedes _ _); by intros [= <- <-].
Qed.

Lemma publish_announces name g w prior fed :
  match publishQuotaStatusChange name prior (HTTPStatus (snapshotOf w)) fed with
  | Some e => ∃ c, heardFlips g [MkCommit g (prior_HTTPStatus prior) (HTTPStatus (snapshotOf w)) true] = [c] ∧ announces name c e
  | None => heardFlips g [MkCommit g (prior_HTTPStatus prior) (HTTPStatus (snapshotOf w)) true] = []
  end.
Proof.
  set (st := HTTPStatus (snapshotOf w)). unfold publishQuotaStatusChange, heardFlips. rewrite filter_cons, filter_nil. unfold flips. cbn [c_gateway c_heard c_prior c_status].
  destruct (Z.eqb_spec (prior_HTTPStatus prior) 0) as [H0|H0]; cbn [orb].
  { by rewrite decide_False by tauto. }
  destruct (Z.eqb_spec (prior_HTTPStatus prior) 200) as [H1|H1], (Z.eqb_spec st 200) as [H2|H2]; cbn [Bool.eqb].
  1, 4: by rewrite decide_False by tauto.
  all: rewrite decide_True by tauto; eexists; split; [done|]; unfold announces; cbn [se_previous se_status se_type se_severity c_prior c_status];
    destruct fed; [rewrite ?decide_True, ?decide_False by done|rewrite ?decide_True, ?decide_False by done]; auto.
Qed.

Lemma heardFlips_app g l l' : heardFlips g (l ++ l') = heardFlips g l ++ heardFlips g l'.
Proof. apply filter_app. Qed.

Lemma heardFlips_other g c : c_gateway c ≠ g ∨ c_heard c = false → heardFlips g [c] = [].
Proof. intros H. unfold heardFlips. rewrite filter_cons, filter_nil, decide_False; [done|]. intros (? & ? & _). destruct H; congruence. Qed.

Lemma unlocked_keeps g s :
  row (unlocked g s) = row s ∧ writers (unlocked g s) = writers s ∧ published (unlocked g s) = published s ∧
  commits (unlocked g s) = commits s ∧ (∀ g', g' ≠ g → advisory s = Some g' → advisory (unlocked g s) = Some g').
Proof. unfold unlocked. destruct (decide _) as [H|H]; cbn; split_and!; try done. congruence. Qed.

Lemma logged_keeps g w prior wrote heard s :
  let s' := logged g w prior wrote heard s in
  row s' = row s ∧ writers s' = writers s ∧ published s' = published s ∧ advisory s' = advisory s ∧
  commits s' = commits s ++ if wrote then [MkCommit g (prior_HTTPStatus prior) (HTTPStatus (snapshotOf w)) heard] else [].
Proof. unfold logged. destruct wrote; cbn; rewrite ?app_nil_r; done. Qed.

Section Preserved.
Context (jsonb : Json → Json) (name : string) (from : Z).
Notation ok := (writers_ok name from).

(** A gateway moves on without committing or publishing. *)
Lemma ok_moved s g p' adv :
  ok s → (∀ w prior wrote, writers s !! g ≠ Some (Committed w prior wrote)) →
  (∀ w prior wrote, p' ≠ Some (Committed w prior wrote)) →
  (∀ g', g' ≠ g → advisory s = Some g' → adv = Some g') →
  (∀ p, p' = Some p → holds p = true → adv = Some g) →
  (∀ w prior, p' = Some (HasRead w prior) → prior_HTTPStatus prior = statusOf (row s)) →
  ok (s ⟦ writers := match p' with Some p => <[g := p]> (writers s) | None => delete g (writers s) end ⟧ ⟦ advisory := adv ⟧).
Proof.
  intros [Hl Hp Hc Ht] Hold Hnew Hadv Hh Hr.
  assert (∀ g', (match p' with Some p => <[g := p]> (writers s) | None => delete g (writers s) end) !! g' =
    if decide (g' = g) then p' else writers s !! g') as Hw.
  { intros g'. destruct (decide (g' = g)) as [->|]; destruct p'; by rewrite ?lookup_insert_eq, ?lookup_delete_eq, ?lookup_insert_ne, ?lookup_delete_ne by done. }
  split; cbn [writers advisory row commits published].
  - intros g' p. cbn. rewrite Hw. destruct (decide (g' = g)) as [->|]; [apply Hh|]. eauto.
  - intros g' w prior. cbn. rewrite Hw. destruct (decide (g' = g)) as [->|]; [apply Hr|]. apply Hp.
  - exact Hc.
  - intros g'. destruct (Ht g') as (told & H1 & H2). exists told. split; [|exact H2]. etransitivity; [exact H1|]. f_equal.
    etransitivity; [|symmetry; exact (f_equal (unpublished g') (Hw g'))].
    destruct (decide (g' = g)) as [->|]; [|done]. unfold unpublished.
    destruct (writers s !! g) as [[]|] eqn:Hg; try (by exfalso; eapply Hold); destruct p' as [[]|]; try done; by exfalso; eapply Hnew.
Qed.

(** What a commit does, whoever hears of it. *)
Lemma ok_committed s g w prior row' wrote heard :
  ok s → writers s !! g = Some (HasRead w prior) → executed jsonb w (row s) = Some (row', wrote) →
  ok (logged g w prior wrote heard (unlocked g (s ⟦ row := row' ⟧
        ⟦ writers := if heard then <[g := Committed w prior wrote]> (writers s) else delete g (writers s) ⟧))).
Proof.
  intros [Hl Hp Hc Ht] Hg Hex. set (ws := if heard then _ else _).
  assert (∀ g', ws !! g' = if decide (g' = g) then (if heard then Some (Committed w prior wrote) else None) else writers s !! g') as Hw.
  { intros g'. unfold ws. destruct (decide (g' = g)) as [->|]; destruct heard; by rewrite ?lookup_insert_eq, ?lookup_delete_eq, ?lookup_insert_ne, ?lookup_delete_ne by done. }
  pose proof (Hl g _ Hg eq_refl) as Hmine. pose proof (Hp g _ _ Hg) as Hprior. pose proof (executed_status _ _ _ _ _ Hex) as Hst.
  destruct (logged_keeps g w prior wrote heard (unlocked g (s ⟦ row := row' ⟧ ⟦ writers := ws ⟧))) as (L1 & L2 & L3 & L4 & L5).
  destruct (unlocked_keeps g (s ⟦ row := row' ⟧ ⟦ writers := ws ⟧)) as (U1 & U2 & U3 & U4 & U5).
  cbn in U1, U2, U3, U4, U5. split.
  - intros g' p. rewrite L2, U2, L4, Hw. destruct (decide (g' = g)) as [->|Hne]; [destruct heard; [by intros [= <-]|done]|].
    intros Hg' Hh. apply U5; [done|]. by apply (Hl g' p).
  - intros g' w' prior'. rewrite L2, U2, Hw. destruct (decide (g' = g)) as [->|Hne]; [by destruct heard|].
    intros Hg'. pose proof (Hl g' _ Hg' eq_refl). congruence.
  - rewrite L1, U1, L5, U4, Hst. destruct wrote; [|by rewrite app_nil_r].
    apply (chained_snoc from (commits s) (MkCommit g (prior_HTTPStatus prior) (HTTPStatus (snapshotOf w)) heard) (statusOf (row s))); done.
  - intros g'. destruct (Ht g') as (told & H1 & H2). exists told. unfold publishedBy. rewrite L3, U3. split; [|exact H2].
    rewrite L2, U2, L5, U4, Hw, heardFlips_app, H1, <- app_assoc. f_equal. destruct (decide (g' = g)) as [->|Hne].
    + rewrite Hg. cbn [unpublished app]. destruct wrote; [|by destruct heard]. destruct heard; [done|]. apply heardFlips_other. by right.
    + destruct wrote; [|by rewrite app_nil_r]. rewrite heardFlips_other by (left; cbn; congruence). apply app_nil_r.
Qed.

Lemma ok_published s g w prior wrote fed :
  ok s → writers s !! g = Some (Committed w prior wrote) →
  ok (announce name g w prior wrote fed (s ⟦ writers := delete g (writers s) ⟧)).
Proof.
  intros [Hl Hp Hc Ht] Hg. pose proof (publish_announces name g w prior fed) as Hpub.
  assert (∀ evs, (∀ told, heardFlips g (commits s) = told ++ unpublished g (writers s !! g) → Forall2 (announces name) told (publishedBy s g) →
            Forall2 (announces name) (heardFlips g (commits s)) (publishedBy s g ++ evs)) →
    ok (s ⟦ writers := delete g (writers s) ⟧ ⟦ published := <[g := publishedBy s g ++ evs]> (published s) ⟧)) as Hok.
  { intros evs Hevs. split; cbn.
    - intros g' p [_ Hg']%lookup_delete_Some. by apply Hl.
    - intros g' w' prior' [_ Hg']%lookup_delete_Some. by apply (Hp g' w').
    - exact Hc.
    - intros g'. destruct (Ht g') as (told & H1 & H2). destruct (decide (g' = g)) as [->|Hne].
      + exists (heardFlips g (commits s)). rewrite lookup_delete_eq. cbn [unpublished]. rewrite app_nil_r. split; [done|].
        unfold publishedBy at 1. cbn. rewrite lookup_insert_eq. cbn [default]. eauto.
      + exists told. rewrite lookup_delete_ne by done. split; [done|]. unfold publishedBy. cbn. rewrite lookup_insert_ne by done. exact H2. }
  unfold announce. destruct wrote.
  - destruct (publishQuotaStatusChange _ _ _ _) as [e|].
    + change (publishedBy (s ⟦ writers := delete g (writers s) ⟧) g) with (publishedBy s g). apply Hok.
      intros told -> Htold. rewrite Hg. cbn [unpublished]. destruct Hpub as (c & -> & Hc').
      apply Forall2_app; [done|]. by constructor.
    + assert (Hok' := Hok []). revert Hok'. rewrite app_nil_r. intros Hok'.
      destruct Hok' as [Kl Kp Kc Kt]; [intros told -> Htold; rewrite Hg; cbn [unpublished]; rewrite Hpub, app_nil_r; done|].
      split; [exact Kl|exact Kp|exact Kc|]. intros g'. destruct (Kt g') as (told & H1 & H2). exists told. split; [exact H1|].
      revert H2. unfold publishedBy. cbn. destruct (decide (g' = g)) as [->|]; [by rewrite lookup_insert_eq|by rewrite lookup_insert_ne].
  - split; cbn.
    + intros g' p [_ Hg']%lookup_delete_Some. by apply Hl.
    + intros g' w' prior' [_ Hg']%lookup_delete_Some. by apply (Hp g' w').
    + exact Hc.
    + intros g'. destruct (Ht g') as (told & H1 & H2). exists told. split; [|exact H2].
      destruct (decide (g' = g)) as [->|Hne]; [by rewrite lookup_delete_eq, H1, Hg|by rewrite lookup_delete_ne].
Qed.
End Preserved.

Lemma store_step_ok jsonb name from s s' : store_step jsonb name s s' → writers_ok name from s → writers_ok name from s'.
Proof.
  intros Hs Hok. destruct Hs as [s g w now Hg|s g w Hg Ha|s g w Hg|s g w prior row' wrote Hg Hex|s g w prior row' wrote Hg Hex
    |s g w prior wrote managed interval now Hg|s g p Hg Hp|s now errMsg].
  - apply (ok_moved name from s g (Some (Waiting (sanitized now w))) (advisory s)); try done; [by rewrite Hg|by intros ? [= <-]].
  - apply (ok_moved name from s g (Some (Locked w)) (Some g)); try done; [by rewrite Hg|by rewrite Ha].
  - apply (ok_moved name from s g (Some (HasRead w (lockPrior (row s)))) (advisory s)); try done; [by rewrite Hg| |].
    + intros _ _ _. by apply (ok_lock _ _ _ Hok g (Locked w)).
    + by intros ? ? [= <- <-].
  - by apply (ok_committed jsonb name from s g w prior row' wrote true).
  - by apply (ok_committed jsonb name from s g w prior row' wrote false).
  - by apply ok_published.
  - assert (unlocked g (s ⟦ writers := delete g (writers s) ⟧) =
      s ⟦ writers := delete g (writers s) ⟧ ⟦ advisory := if decide (advisory s = Some g) then None else advisory s ⟧) as ->.
    { unfold unlocked. cbn. destruct (decide _); [done|by destruct s]. }
    apply (ok_moved name from s g None _); try done.
    + rewrite Hg. intros w prior wrote [= ->]. by eapply Hp.
    + intros g' Hne Ha. rewrite decide_False by congruence. done.
  - destruct Hok as [Hl Hp Hc Ht]. split; cbn; [exact Hl| | |exact Ht].
    + intros g w prior Hg. etransitivity; [by eapply Hp|]. symmetry. apply (statusOf_failure now errMsg).
    + change (chained from (commits s) (statusOf (Some (RecordFailure now errMsg (row s))))). by rewrite statusOf_failure.
Qed.

Lemma startStore_ok name r : writers_ok name (statusOf r) (startStore r).
Proof.
  split; cbn; [by intros ? ?; rewrite lookup_empty|by intros ? ? ?; rewrite lookup_empty|done|].
  intros g. exists []. rewrite lookup_empty. split; [done|]. unfold publishedBy. cbn. by rewrite lookup_empty.
Qed.

(** ** Pushes *)

(** What decides between two rows: the fetch, then having a failure marker. *)
Definition version (r : option quotaRow) : option (Time * bool) :=
  (λ r, (fetched_at r, negb (isNull (last_error r)))) <$> r.

Definition versionLe (a b : option (Time * bool)) : Prop :=
  match a, b with
  | None, _ => True
  | Some _, None => False
  | Some (t, m), Some (u, n) => t < u ∨ t = u ∧ (m = true → n = true)
  end.

(** Pushes one after another, each at its own time; a refused one changes nothing. *)
Definition receive (jsonb : Json → Json) (r : option quotaRow) (p : Time * Snapshot) : option quotaRow :=
  match ReplaceIfNewer jsonb p.1 p.2 r with Some (r', _, _) => r' | None => r end.

(** Stamped, and within the tolerance of the receiver's clock. *)
Definition plausible (p : Time * Snapshot) : Prop :=
  FetchedAt p.2 ≠ zeroTime ∧ FetchedAt p.2 ≤ p.1 + fetchedAtSkewTolerance.

Lemma sanitize_plausible p : plausible p → sanitizeFetchedAt p.1 (FetchedAt p.2) = FetchedAt p.2.
Proof.
  intros [H1 H2]. unfold sanitizeFetchedAt, IsZero, After, Add. rewrite (proj2 (Z.eqb_neq _ _)) by done.
  by rewrite (proj2 (Z.ltb_ge _ _)).
Qed.

Lemma withFetchedAt_id s : withFetchedAt s (FetchedAt s) = s.
Proof. by destruct s. Qed.

Lemma receive_plausible jsonb r p : plausible p →
  receive jsonb r p =
    match pushed jsonb p.2 with
    | None => r
    | Some new => match r with None => Some new | Some old => if supersedes old new then Some new else r end
    end.
Proof.
  intros Hp. unfold receive, ReplaceIfNewer. cbn [sanitized executed]. rewrite sanitize_plausible, withFetchedAt_id by done.
  destruct (pushed jsonb p.2) as [new|]; [|done]. cbn. destruct r as [old|]; [|done]. cbn. by destruct (supersedes old new).
Qed.

Lemma supersedes_version old new : supersedes old new = false ↔ versionLe (version (Some new)) (version (Some old)).
Proof.
  unfold supersedes. cbn. destruct (Z.ltb_spec (fetched_at old) (fetched_at new)), (Z.eqb_spec (fetched_at old) (fetched_at new)),
    (last_error old), (last_error new); cbn; split; intros; try done; intuition (try done; try lia).
Qed.

Lemma versionLe_refl a : versionLe a a.
Proof. destruct a as [[t m]|]; cbn; auto. Qed.

Lemma versionLe_trans a b c : versionLe a b → versionLe b c → versionLe a c.
Proof. destruct a as [[t m]|], b as [[u n]|], c as [[v o]|]; cbn; try done. intuition (subst; try lia; auto). Qed.

Lemma versionLe_total a b : versionLe a b ∨ versionLe b a.
Proof. destruct a as [[t [|]]|], b as [[u [|]]|]; cbn; auto; destruct (Z.lt_trichotomy t u) as [?|[?|?]]; auto; tauto. Qed.

Lemma versionLe_antisym a b : versionLe a b → versionLe b a → a = b.
Proof.
  destruct a as [[t m]|], b as [[u n]|]; cbn; try done. intros [?|[-> Hm]] [?|[? Hn]]; try lia.
  do 2 f_equal. destruct m, n; try done; [symmetry; by apply Hm|by apply Hn].
Qed.

(** After some pushes the row is the newest of what was there and what came. *)
Lemma received_newest jsonb ps r :
  Forall plausible ps →
  let r' := foldl (receive jsonb) r ps in
  (r' = r ∨ ∃ p, p ∈ ps ∧ r' = pushed jsonb p.2 ∧ is_Some r') ∧
  versionLe (version r) (version r') ∧
  ∀ p, p ∈ ps → versionLe (version (pushed jsonb p.2)) (version r').
Proof.
  cbv zeta. induction ps as [|p ps IH] using rev_ind; intros Hps; [split_and!; [by left|apply versionLe_refl|by intros p ?%not_elem_of_nil]|].
  apply Forall_app in Hps as [Hps [Hp _]%Forall_cons]. destruct (IH Hps) as (H1 & H2 & H3). rewrite foldl_app. cbn [foldl].
  set (mid := foldl (receive jsonb) r ps) in *. rewrite receive_plausible by done.
  assert (∀ r', versionLe (version mid) (version r') → versionLe (version (pushed jsonb p.2)) (version r') →
    (r' = mid ∨ r' = pushed jsonb p.2 ∧ is_Some r') →
    (r' = r ∨ ∃ p', p' ∈ ps ++ [p] ∧ r' = pushed jsonb p'.2 ∧ is_Some r') ∧ versionLe (version r) (version r') ∧
    ∀ p', p' ∈ ps ++ [p] → versionLe (version (pushed jsonb p'.2)) (version r')) as Hk.
  { intros r' K1 K2 K3. split_and!.
    - destruct K3 as [->|[-> Hs]]; [|right; exists p; split; [set_solver|done]].
      destruct H1 as [->|(p' & Hin & -> & Hs)]; [by left|right; exists p'; split; [set_solver|done]].
    - by eapply versionLe_trans.
    - intros p' [Hin|Hin]%elem_of_app; [|apply list_elem_of_singleton in Hin as ->; done]. eapply versionLe_trans; [by apply H3|done]. }
  destruct (pushed jsonb p.2) as [new|] eqn:Hnew; [|apply Hk; [apply versionLe_refl|done|by left]].
  destruct mid as [old|]; [|apply Hk; [done|apply versionLe_refl|right; by split]].
  destruct (supersedes old new) eqn:Hsup; apply Hk; try apply versionLe_refl; [|right; by split|by apply supersedes_version|by left].
  destruct (versionLe_total (version (Some old)) (version (Some new))) as [|Hle]; [done|].
  apply supersedes_version in Hle. congruence.
Qed.

(** ** quota_fleet.go *)

Record provider := MkProvider {
  prov_ID : string;
  prov_Name : string;
  ProviderType : string;
  BaseURL : string;
  Enabled : bool;
  QuotaReservePercent : Z
}.

Record QuotaSnapshotWire := MkWire {
  w_ProviderName : string; w_Type : string; w_Kind : string; w_Payload : RawMessage;
  w_HTTPStatus : Z; w_FetchedAt : Time; w_LastError : string
}.

Section Fleet.
Context (jsonb : Json → Json) (LegacyTypeFromURL : string → string).

Definition TypeOf (p : provider) : string :=
  if decide (ProviderType p = "") then LegacyTypeFromURL (BaseURL p) else ProviderType p.

(** No bytes travel as a null, and a null arrives as one. *)
Definition carried (raw : RawMessage) : RawMessage := match raw with Empty => Document JNull | _ => raw end.

Definition byID (provs : list provider) : gmap string provider := foldl (λ m p, <[prov_ID p := p]> m) ∅ provs.
Definition byName (provs : list provider) : gmap string provider := foldl (λ m p, <[prov_Name p := p]> m) ∅ provs.

Definition wireOf (p : provider) (s : Snapshot) : QuotaSnapshotWire :=
  MkWire (prov_Name p) (TypeOf p) (Kind s) (carried (Payload s)) (HTTPStatus s) (FetchedAt s) (LastError s).

Definition ExportSnapshots (snaps : list Snapshot) (provs : list provider) : list QuotaSnapshotWire :=
  let live := byID (filter (λ p, Enabled p = true) provs) in
  omap (λ s, if HTTPStatus s =? 0 then None else (λ p, wireOf p s) <$> live !! ProviderID s) snaps.

Definition received (p : provider) (w : QuotaSnapshotWire) : Snapshot :=
  MkSnapshot (prov_ID p) (w_Kind w) (w_Payload w) (w_HTTPStatus w) (w_FetchedAt w) "fleet" (w_LastError w) None.

Abbreviation Rows := (gmap (string * string) quotaRow).

(** The rows after, whether the push landed, and what is published. *)
Definition storeOne (now : Time) (p : provider) (w : QuotaSnapshotWire) (rows : Rows)
  : option (Rows * bool * option statusEvent) :=
  let key := (prov_ID p, w_Kind w) in
  '(row', wrote, prior) ← ReplaceIfNewer jsonb now (received p w) (rows !! key);
  Some (match row' with Some r => <[key := r]> rows | None => rows end, wrote,
        if wrote : bool
        then publishQuotaStatusChange (prov_Name p) prior (w_HTTPStatus w) (bool_decide (prior_Source prior = "fleet"))
        else None).

Record received_ := MkReceived { rc_rows : Rows; applied : Z; skipped : Z; rc_events : list statusEvent; failed : bool }.

(** The first failed write ends the loop; what landed before it stays. *)
Fixpoint storeLoop (now : Time) (live : gmap string provider) (acc : received_) (ws : list QuotaSnapshotWire) : received_ :=
  match ws with
  | [] => acc
  | w :: ws =>
      match live !! w_ProviderName w with
      | None => storeLoop now live (MkReceived (rc_rows acc) (applied acc) (skipped acc + 1) (rc_events acc) false) ws
      | Some p =>
          match storeOne now p w (rc_rows acc) with
          | None => MkReceived (rc_rows acc) (applied acc) (skipped acc) (rc_events acc) true
          | Some (rows, wrote, e) =>
              storeLoop now live
                (MkReceived rows (if wrote then applied acc + 1 else applied acc) (if wrote then skipped acc else skipped acc + 1)
                   (rc_events acc ++ option_list e) false) ws
          end
      end
  end.

Definition storeSnapshots (now : Time) (provs : list provider) (rows : Rows) (ws : list QuotaSnapshotWire) : received_ :=
  storeLoop now (byName provs) (MkReceived rows 0 0 [] false) ws.
End Fleet.

(** ** Lemmas: the fleet *)

(** A row as the database holds it. *)
Definition stored (jsonb : Json → Json) (r : quotaRow) : Prop :=
  (∀ j, q_payload r = Some j → jsonb j = j) ∧ fetched_at r = timestamptz (fetched_at r) ∧
  smallint (http_status r) = Some (http_status r) ∧ last_error r ≠ Some "".

Lemma timestamptz_le t : timestamptz t ≤ t.
Proof. unfold timestamptz. Z.to_euclidean_division_equations. lia. Qed.

Lemma timestamptz_mono t u : t ≤ u → timestamptz t ≤ timestamptz u.
Proof. unfold timestamptz. intros H. pose proof (Z.div_le_mono t u 1000). lia. Qed.

Lemma NULLIF_COALESCE e : e ≠ Some "" → NULLIF (COALESCE e) = e.
Proof. destruct e as [e|]; [|done]. intros He. unfold NULLIF. cbn. rewrite decide_False; [done|congruence]. Qed.

Lemma Assess_same clock ty s s' reserve now :
  (Payload s = Payload s' ∨ noPayload s = true ∧ noPayload s' = true) →
  AssessWithReserve clock ty s reserve now = AssessWithReserve clock ty s' reserve now.
Proof.
  intros H. assert (Assess clock ty s = Assess clock ty s') as Ha.
  { unfold Assess. destruct (quotaReaders ty) as [[a w]|]; [|done]. destruct H as [H|[-> ->]]; [|done].
    unfold noPayload. by rewrite H. }
  assert (Windows ty s = Windows ty s') as Hw.
  { unfold Windows. destruct (quotaReaders ty) as [[a w]|]; [|done]. destruct H as [H|[-> ->]]; [|done].
    unfold noPayload. by rewrite H. }
  unfold AssessWithReserve. by rewrite Ha, Hw.
Qed.

(** ** Properties *)


(** C13. Pushes converge. Whatever order they come in, however often, and on
    whichever member, plausible pushes leave the newest of the row that was there
    and of what came: the later fetch, and of one fetch the one with a failure
    marker, so a marker is lifted by a later fetch only. Two members that got the
    same pushes over the same row agree, unless two of the pushes differ under
    one version. No write, plausible or not, is stored as fetched further ahead
    of the receiver's clock than the tolerance. *)
Theorem pushes_converge jsonb r ps ps' :
  Forall plausible ps → Forall plausible ps' →
  (∀ p, p ∈ ps.*2 ↔ p ∈ ps'.*2) →
  let r1 := foldl (receive jsonb) r ps in
  let r2 := foldl (receive jsonb) r ps' in
  version r1 = version r2 ∧
  (r1 = r ∨ ∃ p, p ∈ ps ∧ r1 = pushed jsonb p.2) ∧
  versionLe (version r) (version r1) ∧ (∀ p, p ∈ ps → versionLe (version (pushed jsonb p.2)) (version r1)) ∧
  ((∀ a b, a ∈ r :: (pushed jsonb <$> ps.*2) → b ∈ r :: (pushed jsonb <$> ps.*2) → version a = version b → a = b) → r1 = r2) ∧
  ∀ now w row row', executed jsonb (sanitized now w) row = Some (Some row', true) →
    fetched_at row' ≤ now + fetchedAtSkewTolerance.
Proof.
  intros Hp Hp' Hsame r1 r2.
  destruct (received_newest jsonb ps r Hp) as (A1 & A2 & A3). destruct (received_newest jsonb ps' r Hp') as (B1 & B2 & B3).
  fold r1 in A1, A2, A3. fold r2 in B1, B2, B3.
  assert (∀ (P : Snapshot → Prop), (∀ p, p ∈ ps → P p.2) ↔ (∀ p, p ∈ ps' → P p.2)) as Hall.
  { intros P. split; intros H p Hin.
    - assert (p.2 ∈ ps.*2) as (q & -> & Hq)%list_elem_of_fmap by (apply Hsame; by apply list_elem_of_fmap_2). auto.
    - assert (p.2 ∈ ps'.*2) as (q & -> & Hq)%list_elem_of_fmap by (apply Hsame; by apply list_elem_of_fmap_2). auto. }
  assert (versionLe (version r1) (version r2)) as L1.
  { destruct A1 as [->|(p & Hin & -> & _)]; [done|]. 
    exact (proj2 (Hall (λ s, versionLe (version (pushed jsonb s)) (version r2))) B3 p Hin). }
  assert (versionLe (version r2) (version r1)) as L2.
  { destruct B1 as [->|(p & Hin & -> & _)]; [done|]. 
    exact (proj1 (Hall (λ s, versionLe (version (pushed jsonb s)) (version r1))) A3 p Hin). }
  split; [by apply versionLe_antisym|]. split; [destruct A1 as [?|(p & ? & ? & _)]; eauto|]. split; [done|]. split; [done|]. split.
  - intros Huniq. apply Huniq; [| |by apply versionLe_antisym].
    + destruct A1 as [->|(p & Hin & -> & _)]; [left|right]. by apply list_elem_of_fmap_2, list_elem_of_fmap_2.
    + destruct B1 as [->|(p & Hin & -> & _)]; [left|right]. apply list_elem_of_fmap_2, Hsame. by apply list_elem_of_fmap_2.
  - intros now w row row' Hex. assert (∀ t, sanitizeFetchedAt now t ≤ now + fetchedAtSkewTolerance) as Hs.
    { intros t. unfold sanitizeFetchedAt, After, Add. destruct (IsZero t); cbn; [unfold fetchedAtSkewTolerance, Minute, Second; lia|].
      destruct (Z.ltb_spec (now + fetchedAtSkewTolerance) t); [unfold fetchedAtSkewTolerance, Minute, Second; lia|done]. }
    assert (∃ t, fetched_at row' = timestamptz (sanitizeFetchedAt now t)) as [t ->];
      [|etransitivity; [apply timestamptz_le|apply Hs]].
    unfold executed, sanitized, replaced, pushed in Hex. destruct w as [s|s]; cbn in Hex;
      destruct (column jsonb (Payload s)); try done; cbn in Hex; destruct (smallint _); try done; cbn in Hex;
      [injection Hex as <-; cbn; eauto|].
    destruct row as [old|]; [|injection Hex as <-; cbn; eauto]. destruct (supersedes _ _); [injection Hex as <-; cbn; eauto|done].
Qed.


(** ** Witnesses *)

Definition demoReading (status : Z) (t : Time) : Snapshot :=
  MkSnapshot "p" "usage" (Document (JObject [])) status t "poll" "" None.

(** A plan lapses while two gateways poll at once, and the second's write waits
    for the first: one announces, the other has nothing to announce. *)
Definition demoRow : option quotaRow := replaced (λ j, j) (demoReading 200 (Unix 1)).

Definition demoWrite : write := Replacing (demoReading 204 (Unix 9)).


(** The failure marker of one fetch, and a later fetch that lifts it. *)
Definition demoPush (t : Time) (err : string) : Time * Snapshot :=
  (Unix 100, MkSnapshot "p" "usage" (Document (JObject [])) 200 t "fleet" err None).

Lemma pushes_converge_witness :
  let ps := [demoPush (Unix 5) ""; demoPush (Unix 5) "down"; demoPush (Unix 9) ""] in
  let ps' := [demoPush (Unix 9) ""; demoPush (Unix 5) "down"; demoPush (Unix 5) ""; demoPush (Unix 9) ""] in
  foldl (receive (λ j, j)) None ps = foldl (receive (λ j, j)) None ps' ∧
  version (foldl (receive (λ j, j)) None ps) = Some (Unix 9, false) ∧
  version (foldl (receive (λ j, j)) None (take 2 ps)) = Some (Unix 5, true).
Proof.
  intros ps ps'. split; [|split; reflexivity].
  assert (Forall plausible ps) as H1 by (repeat constructor; vm_compute; discriminate).
  assert (Forall plausible ps') as H2 by (repeat constructor; vm_compute; discriminate).
  assert (∀ s, s ∈ ps.*2 ↔ s ∈ ps'.*2) as H3 by (intros s; cbn; set_solver).
  destruct (pushes_converge (λ j, j) None ps ps' H1 H2 H3) as (_ & _ & _ & _ & H & _). apply H.
  intros a b Ha Hb Hv. cbn [ps fmap list_fmap snd demoPush] in Ha, Hb. rewrite !elem_of_cons in Ha, Hb.
  destruct Ha as [->|[->|[->|[->|Ha]]]]; [..|by apply not_elem_of_nil in Ha];
    (destruct Hb as [->|[->|[->|[->|Hb]]]]; [..|by apply not_elem_of_nil in Hb]);
    first [reflexivity | exfalso; vm_compute in Hv; discriminate].
Defined.

