(* ===== verification/QuotaAdvice.v ===== *)
(** * Quota advice (internal/api/quota_snapshot.go, quota_advisor.go)

    From stored readings to the breaker: which providers are advised against and
    until when, which have affirmatively recovered, and what a refresh, a failed
    one or switching polling off does to the advisor and to circuits already
    open. The polls that feed the table, and how often one may be nudged. *)

From S2P Require Import Prelude Double GoText GoJson QuotaReading QuotaShape QuotaStore Circuit Cooldown CircuitEvents Breaker BreakerGate BreakerQuota.

(** ** quota_advisor.go

    The advisor and the breaker that consults it: both are wired or neither
    ([cmd/server/main.go]), so the breaker's lookup is the advisor's map. *)

Record gateway := MkGateway {
  circuitBreaker : option CircuitBreaker;
  quotaAdvisor : option (gmap string QuotaAdvice)
}.

Definition NewQuotaAdvisor : gmap string QuotaAdvice := ∅.

Definition Advice (advice : gmap string QuotaAdvice) : QuotaAdvisor := λ providerID, advice !! providerID.

(** [QuotaAdvisor.Replace]. *)
Definition Replace (advice : gmap string QuotaAdvice) (g : gateway) : gateway :=
  MkGateway ((λ cb, SetQuotaAdvisor cb (Some (Advice advice))) <$> circuitBreaker g) (Some advice).

(** ** What a provider is asked *)

Definition quotaKindFor (providerType : string) : option string :=
  if decide (providerType ∈ ["nanogpt"; "zai-coding"; "kimi-code"; "minimax"; "openrouter"; "neuralwatt"; "opencode-go"])
  then Some "usage"
  else if decide (providerType = "deepseek") then Some "balance"
  else if decide (providerType = "ollama-cloud") then Some "account" else None.

(** What the provider's client came back with. *)
Inductive discovery :=
  | FetchFailed (err : string)
  | KeyInvalid                             (* [provider.ErrProviderKeyInvalid] *)
  | NoResult                               (* a nil result *)
  | Result (body : Json).

Definition fetchQuotaSnapshot (d : discovery) : string + RawMessage * Z :=
  match d with
  | FetchFailed err => inl err
  | KeyInvalid => inr (Empty, 424)
  | NoResult => inr (Document JNull, 204)
  | Result body => inr (Document body, 200)
  end.

(** What [pollQuotaForProvider] does to the provider's row. *)
Inductive polled :=
  | Recording (errMsg : string)
  | Storing (s : Snapshot).

Definition pollQuotaForProvider (d : discovery) (p : provider) (kind : string) : polled :=
  match fetchQuotaSnapshot d with
  | inl err => Recording err
  | inr (payload, status) => Storing (MkSnapshot (prov_ID p) kind payload status zeroTime "poll" "" None)
  end.

(** The poll pass leaves a provider alone: it is off, exposes no quota, or the
    fleet has just fed it. *)
Definition pollTarget (LegacyTypeFromURL : string → string) (interval : Duration) (now : Time)
    (stored : string → string → option Snapshot) (p : provider) : option string :=
  if negb (Enabled p) then None else
  match quotaKindFor (TypeOf LegacyTypeFromURL p) with
  | None => None
  | Some kind =>
      if (0 <? interval) &&
         match stored (prov_ID p) kind with
         | Some snap =>
             bool_decide (Source snap = "fleet") &&
             match TrustedAge now (FetchedAt snap) with Some age => age <? interval | None => false end
         | None => false
         end
      then None else Some kind
  end.

Definition quotaRefreshInterval (minutes : Z) : Duration := wrap64 (minutes * Minute).

(** ** Nudges *)

Definition quotaNudgeDebounce : Duration := 60 * Second.

Definition allowQuotaNudge (now : Time) (providerID : string) (quotaNudgeLast : gmap string Time)
  : gmap string Time * bool :=
  match quotaNudgeLast !! providerID with
  | Some last => if Sub now last <? quotaNudgeDebounce then (quotaNudgeLast, false) else
      (<[providerID := now]> (filter (λ e, Sub now e.2 < quotaNudgeDebounce) quotaNudgeLast), true)
  | None => (<[providerID := now]> (filter (λ e, Sub now e.2 < quotaNudgeDebounce) quotaNudgeLast), true)
  end.

(** [NudgeQuotaPoll] up to the goroutine it starts: the provider and kind to
    poll, if any. *)
Definition NudgeQuotaPoll (LegacyTypeFromURL : string → string) (now : Time) (found : option provider)
    (quotaNudgeLast : gmap string Time) : gmap string Time * option (provider * string) :=
  match found with
  | None => (quotaNudgeLast, None)
  | Some p =>
      if negb (Enabled p) then (quotaNudgeLast, None) else
      match quotaKindFor (TypeOf LegacyTypeFromURL p) with
      | None => (quotaNudgeLast, None)
      | Some kind =>
          let '(quotaNudgeLast, allowed) := allowQuotaNudge now (prov_ID p) quotaNudgeLast in
          (quotaNudgeLast, if allowed : bool then Some (p, kind) else None)
      end
  end.

(** ** Building the advice *)

(** provider.go [ReserveShare]. *)
Definition ReserveShare (p : provider) : double := ddiv (ofZ (QuotaReservePercent p)) hundred.

(** A snapshot this old is still evidence. *)
Definition evidence (maxAge : Duration) (now : Time) (s : Snapshot) : bool :=
  match TrustedAge now (FetchedAt s) with Some age => age <=? maxAge | None => false end.

Definition assessed (typeByID : gmap string string) (reserveByID : gmap string double) (clock now : Time) (s : Snapshot) : Assessment :=
  AssessWithReserve clock (default "" (typeByID !! ProviderID s)) s (default dzero (reserveByID !! ProviderID s)) now.

Definition adviceStep (typeByID : gmap string string) (reserveByID : gmap string double) (maxAge : Duration) (clock now : Time)
    (acc : gmap string QuotaAdvice * gset string) (s : Snapshot) : gmap string QuotaAdvice * gset string :=
  let '(advice, recovered) := acc in
  if negb (evidence maxAge now s) then acc else
  let a := assessed typeByID reserveByID clock now s in
  if negb (OK a) then acc else
  if Exhausted a then (<[ProviderID s := MkAdvice (resets a) (reserved a)]> advice, recovered) else
  if negb (bool_decide (LastError s = "")) then acc else
  (advice, {[ProviderID s]} ∪ recovered).

(** The readers of one pass take one reading of the clock between them. *)
Definition buildQuotaAdvice (snaps : list Snapshot) (typeByID : gmap string string) (reserveByID : gmap string double)
    (maxAge : Duration) (clock now : Time) : gmap string QuotaAdvice * gset string :=
  if maxAge <=? 0 then (∅, ∅) else
  let '(advice, recovered) := foldl (adviceStep typeByID reserveByID maxAge clock now) (∅, ∅) snaps in
  (advice, recovered ∖ dom advice).

(** ** Refreshing *)

Definition ClearQuotaAdvice (g : gateway) : gateway :=
  match quotaAdvisor g with None => g | Some _ => Replace ∅ g end.

Definition onBreaker (f : CircuitBreaker → CircuitBreaker) (g : gateway) : gateway :=
  MkGateway (f <$> circuitBreaker g) (quotaAdvisor g).

Definition DisableQuotaAdvice (e : Env) (g : gateway) : gateway :=
  onBreaker (λ cb, (ReleaseAllQuotaPins e cb).1.1) (ClearQuotaAdvice g).

Section Refresh.
Context (LegacyTypeFromURL : string → string).

Definition typeByID (provs : list provider) : gmap string string :=
  foldl (λ m p, <[prov_ID p := TypeOf LegacyTypeFromURL p]> m) ∅ provs.
Definition nameByID (provs : list provider) : gmap string string := foldl (λ m p, <[prov_ID p := prov_Name p]> m) ∅ provs.
Definition reserveByID (provs : list provider) : gmap string double :=
  foldl (λ m p, if 0 <? QuotaReservePercent p then <[prov_ID p := ReserveShare p]> m else m) ∅ provs.

(** [RefreshQuotaAdvice] up to the drift watch, which changes neither. [snaps]
    and [provs] are what the two listings answered, [minutes] the configured
    interval, [e1] and [e2] what the two sections of the breaker read. *)
Definition RefreshQuotaAdvice (e1 e2 : Env) (snaps : option (list Snapshot)) (minutes : Z) (provs : option (list provider))
    (clock now : Time) (g : gateway) : gateway :=
  match quotaAdvisor g with
  | None => g
  | Some _ =>
      match snaps with
      | None => ClearQuotaAdvice g
      | Some snaps =>
          let maxAge := wrap64 (3 * quotaRefreshInterval minutes) in
          match provs with
          | None => ClearQuotaAdvice g
          | Some provs =>
              let '(advice, recovered) := buildQuotaAdvice snaps (typeByID provs) (reserveByID provs) maxAge clock now in
              let g := onBreaker (λ cb, (ApplyQuotaPins e1 cb advice (nameByID provs)).1.1) g in
              let g := Replace advice g in
              onBreaker (λ cb, (ReleaseQuotaPins e2 cb recovered).1.1) g
          end
      end
  end.

(** [PollQuotasOnce] beside its fetches: without a list of providers the advice
    goes; otherwise each target is polled and the advice rebuilt. The targets of
    one pass share one reading of the clock. *)
Definition PollQuotasOnce (interval : Duration) (now : Time) (stored : string → string → option Snapshot)
    (fetch : provider → discovery) (refresh : gateway → gateway) (provs : option (list provider)) (g : gateway)
  : list polled * gateway :=
  match provs with
  | None => ([], ClearQuotaAdvice g)
  | Some provs =>
      (omap (λ p, (λ kind, pollQuotaForProvider (fetch p) p kind) <$> pollTarget LegacyTypeFromURL interval now stored p) provs,
       refresh g)
  end.
End Refresh.

(** ** Specifications *)

Section Readings.
Context (types : gmap string string) (reserves : gmap string double) (maxAge : Duration) (clock now : Time).

(** A snapshot recent enough whose verdict is that the provider is out. *)
Definition readsSpent (s : Snapshot) : Prop :=
  evidence maxAge now s = true ∧ OK (assessed types reserves clock now s) = true ∧
  Exhausted (assessed types reserves clock now s) = true.

(** One that was assessed, found healthy, and whose latest refresh worked. *)
Definition readsHealthy (s : Snapshot) : Prop :=
  evidence maxAge now s = true ∧ OK (assessed types reserves clock now s) = true ∧
  Exhausted (assessed types reserves clock now s) = false ∧ LastError s = "".

(** ** Lemmas: the advice *)

Lemma adviceStep_spec advice recovered s :
  let '(advice', recovered') := adviceStep types reserves maxAge clock now (advice, recovered) s in
  let a := assessed types reserves clock now s in
  (advice' = advice ∧ ¬ readsSpent s ∨ advice' = <[ProviderID s := MkAdvice (resets a) (reserved a)]> advice ∧ readsSpent s) ∧
  (recovered' = recovered ∧ ¬ readsHealthy s ∨ recovered' = {[ProviderID s]} ∪ recovered ∧ readsHealthy s).
Proof.
  unfold adviceStep, readsSpent, readsHealthy. cbv zeta. set (a := assessed types reserves clock now s).
  destruct (evidence maxAge now s); cbn [negb]; [|split; left; (split; [done|]); intros (? & _); done].
  destruct (OK a); cbn [negb]; [|split; left; (split; [done|]); intros (_ & ? & _); done].
  destruct (Exhausted a); [split; [by right|left; (split; [done|]); by intros (_ & _ & ? & _)]|].
  case_bool_decide; cbn [negb]; (split; [left; (split; [done|]); by intros (_ & _ & ?)|]); [by right|left; (split; [done|]); by intros (_ & _ & _ & ?)].
Qed.

Lemma adviceFold_spec snaps :
  let '(advice, recovered) := foldl (adviceStep types reserves maxAge clock now) (∅, ∅) snaps in
  (∀ id, id ∈ dom advice ↔ ∃ s, s ∈ snaps ∧ ProviderID s = id ∧ readsSpent s) ∧
  (∀ id, id ∈ recovered ↔ ∃ s, s ∈ snaps ∧ ProviderID s = id ∧ readsHealthy s) ∧
  (∀ id adv, advice !! id = Some adv → ∃ s, s ∈ snaps ∧ ProviderID s = id ∧ readsSpent s ∧
     let a := assessed types reserves clock now s in adv = MkAdvice (resets a) (reserved a)).
Proof.
  induction snaps as [|s snaps IH] using rev_ind.
  { cbn. split_and!; [intros id; rewrite dom_empty; split; [set_solver|intros (s & ?%not_elem_of_nil & _); done]
      |intros id; split; [set_solver|intros (s & ?%not_elem_of_nil & _); done]|intros id adv; by rewrite lookup_empty]. }
  rewrite foldl_app. cbn [foldl]. destruct (foldl _ (∅, ∅) snaps) as [advice recovered]. destruct IH as (H1 & H2 & H3).
  assert (∀ (P : Snapshot → Prop) id, (∃ s', s' ∈ snaps ++ [s] ∧ ProviderID s' = id ∧ P s') ↔
    (∃ s', s' ∈ snaps ∧ ProviderID s' = id ∧ P s') ∨ ProviderID s = id ∧ P s) as Hsnoc.
  { intros P id. split.
    - intros (s' & [Hin|Hin%list_elem_of_singleton]%elem_of_app & ? & ?); [left; eauto|right; by subst].
    - intros [(s' & Hin & ? & ?)|[? ?]]; [exists s'|exists s]; set_solver. }
  pose proof (adviceStep_spec advice recovered s) as Hstep. destruct (adviceStep _ _ _ _ _ _ s) as [advice' recovered'].
  cbv zeta in Hstep. destruct Hstep as [Ha Hr]. split_and!.
  - intros id. rewrite Hsnoc, <- H1. destruct Ha as [[-> Hn]|[-> Hs]]; [tauto|]. rewrite dom_insert, elem_of_union, elem_of_singleton.
    naive_solver.
  - intros id. rewrite Hsnoc, <- H2. destruct Hr as [[-> Hn]|[-> Hs]]; [tauto|]. rewrite elem_of_union, elem_of_singleton. naive_solver.
  - intros id adv Hadv. destruct Ha as [[-> Hn]|[-> Hs]].
    + destruct (H3 id adv Hadv) as (s' & Hin & ?). exists s'. split; [set_solver|done].
    + apply lookup_insert_Some in Hadv as [[<- <-]|[_ Hadv]]; [exists s; split; [set_solver|done]|].
      destruct (H3 id adv Hadv) as (s' & Hin & ?). exists s'. split; [set_solver|done].
Qed.
End Readings.

(** ** Properties *)

(** C9. Advice is evidence and so is recovery. Without a poll cadence there is
    neither. With one, a provider is advised against exactly when some snapshot
    of it, no older than the bound and not from the future, reads as spent, and
    the advice is that snapshot's verdict, naming an instant still to come; it
    counts as recovered exactly when none does and some such snapshot reads as
    healthy and its latest refresh did not fail. Stale, unreadable, undated and
    missing readings put a provider in neither. *)
Theorem advice_affirmative snaps types reserves maxAge clock now :
  let '(advice, recovered) := buildQuotaAdvice snaps types reserves maxAge clock now in
  dom advice ## recovered ∧
  (maxAge ≤ 0 → advice = ∅ ∧ recovered = ∅) ∧
  (0 < maxAge → ∀ id,
     (id ∈ dom advice ↔ ∃ s, s ∈ snaps ∧ ProviderID s = id ∧ readsSpent types reserves maxAge clock now s) ∧
     (id ∈ recovered ↔ (∃ s, s ∈ snaps ∧ ProviderID s = id ∧ readsHealthy types reserves maxAge clock now s) ∧
        ¬ ∃ s, s ∈ snaps ∧ ProviderID s = id ∧ readsSpent types reserves maxAge clock now s)) ∧
  ∀ id adv, advice !! id = Some adv →
    (clock < ResetsAt adv ∨ now < ResetsAt adv) ∧
    ∃ s, s ∈ snaps ∧ ProviderID s = id ∧ FetchedAt s ≠ zeroTime ∧ 0 ≤ Sub now (FetchedAt s) ≤ maxAge ∧
      let a := assessed types reserves clock now s in Exhausted a = true ∧ adv = MkAdvice (resets a) (reserved a).
Proof.
  unfold buildQuotaAdvice. destruct (Z.leb_spec maxAge 0) as [Hm|Hm].
  { split_and!; [set_solver|done|lia|]. intros id adv. by rewrite lookup_empty. }
  pose proof (adviceFold_spec types reserves maxAge clock now snaps) as H.
  destruct (foldl _ _ snaps) as [advice recovered]. destruct H as (H1 & H2 & H3). split_and!; [set_solver|lia| |].
  - intros _ id. split; [apply H1|]. rewrite elem_of_difference, <- H1, <- H2. done.
  - intros id adv Hadv. destruct (H3 id adv Hadv) as (s & Hin & Hid & (He & Hok & Hex) & ->). cbn [ResetsAt Reserved].
    split; [by apply AssessWithReserve_future|]. exists s. split; [done|]. split; [done|].
    unfold evidence, TrustedAge in He. destruct (IsZero _) eqn:Hz; [done|]. destruct (Z.ltb_spec (Sub now (FetchedAt s)) 0); [done|].
    apply Z.eqb_neq in Hz. apply Z.leb_le in He. done.
Qed.

(** ** Lemmas: the breaker under a refresh *)

Lemma skips_same e cb cb' id m :
  modelsOf cb' id = modelsOf cb id → cooldowns cb' = cooldowns cb → effectiveSpan cb' = effectiveSpan cb →
  skips e cb id m → skips e cb' id m.
Proof.
  intros Hm Hr Hs. unfold skips, GetState, circuitOf. rewrite Hm, Hr, Hs. done.
Qed.

Lemma Replace_breaker advice cb adv0 :
  Replace advice (MkGateway (Some cb) adv0) = MkGateway (Some (cb ⟦ quota := Some (Advice advice) ⟧)) (Some advice).
Proof. done. Qed.

Lemma quota_kept (cb cb' : CircuitBreaker) : sameConfig cb' cb → quota cb' = quota cb.
Proof. intros H. rewrite H. by destruct cb'. Qed.

Lemma ReleaseQuotaPins_config e cb recovered : sameConfig (ReleaseQuotaPins e cb recovered).1.1 cb.
Proof.
  unfold ReleaseQuotaPins.
  pose proof (releaseFold_spec e causePinReleasedQuota clear429Escalation liftedByRecovery (cooldowns cb) (elements recovered) cb
    (NoDup_elements _)) as H.
  destruct (foldl _ _ _) as [[cb' n] out]. apply H.
Qed.

Lemma modelsOf_ext cb cb' id : (∀ m, circuitOf cb' id m = circuitOf cb id m) → modelsOf cb' id = modelsOf cb id.
Proof. intros H. apply map_eq. exact H. Qed.


(** ** Nudges *)

(** One provider's nudges come a minute apart, whoever else is nudged between:
    an allowed one is stamped, a stamp that still counts survives every call and
    refuses the next. *)
Lemma nudges_apart now id m :
  let '(m', allowed) := allowQuotaNudge now id m in
  (allowed = false ↔ ∃ last, m !! id = Some last ∧ Sub now last < quotaNudgeDebounce) ∧
  (allowed = false → m' = m) ∧ (allowed = true → m' !! id = Some now) ∧
  ∀ id' t, id' ≠ id → m !! id' = Some t → Sub now t < quotaNudgeDebounce → m' !! id' = Some t.
Proof.
  unfold allowQuotaNudge.
  assert (∀ id' t, id' ≠ id → m !! id' = Some t → Sub now t < quotaNudgeDebounce →
    <[id := now]> (filter (λ e : string * Time, Sub now e.2 < quotaNudgeDebounce) m) !! id' = Some t) as Hkeep.
  { intros id' t Hne Ht Hd. rewrite lookup_insert_ne by done. by apply map_lookup_filter_Some. }
  destruct (m !! id) as [last|]; [destruct (Z.ltb_spec (Sub now last) quotaNudgeDebounce)|].
  - split_and!; [split; eauto|done|done|done].
  - split_and!; [split; [done|]|done|by rewrite lookup_insert_eq|done]. intros (? & [= <-] & ?). lia.
  - split_and!; [split; [done|]|done|by rewrite lookup_insert_eq|done]. by intros (? & ? & _).
Qed.

(** ** Witnesses *)

Definition demoOf (id err week fiveHours : string) : Snapshot :=
  MkSnapshot id "usage" (demoKimi week fiveHours) 200 demoMidnight "poll" err None.

(** Spent, healthy, healthy when last seen, past its reserve. *)
Definition demoSnaps : list Snapshot :=
  [demoOf "p1" "" "100" "100"; demoOf "p2" "" "10" "10"; demoOf "p3" "timeout" "10" "10"; demoOf "p4" "" "70" "0"].

Definition demoProvider (id : string) (reserve : Z) : provider := MkProvider id id "kimi-code" "" true reserve.

Definition demoProviders : list provider := [demoProvider "p1" 0; demoProvider "p2" 20; demoProvider "p3" 0; demoProvider "p4" 30].

Definition demoNow : Time := demoMidnight + Minute.

Definition demoAdvice : gmap string QuotaAdvice :=
  {["p1" := MkAdvice (Unix 1772341200) false; "p4" := MkAdvice (Unix 1772928000) true]}.

Lemma demo_built :
  buildQuotaAdvice demoSnaps (typeByID (λ _, "openai") demoProviders) (reserveByID demoProviders)
    (wrap64 (3 * quotaRefreshInterval 5)) demoNow demoNow = (demoAdvice, {["p2"]}).
Proof. vm_compute. reflexivity. Qed.

Lemma advice_affirmative_witness :
  let types := typeByID (λ _, "openai") demoProviders in
  let reserves := reserveByID demoProviders in
  buildQuotaAdvice demoSnaps types reserves (15 * Minute) demoNow demoNow = (demoAdvice, {["p2"]}) ∧
  (∃ s, s ∈ demoSnaps ∧ ProviderID s = "p4" ∧ readsSpent types reserves (15 * Minute) demoNow demoNow s) ∧
  ¬ (∃ s, s ∈ demoSnaps ∧ ProviderID s = "p3" ∧ readsSpent types reserves (15 * Minute) demoNow demoNow s).
Proof.
  intros types reserves.
  assert (buildQuotaAdvice demoSnaps types reserves (15 * Minute) demoNow demoNow = (demoAdvice, {["p2"]})) as Hb by (vm_compute; reflexivity).
  pose proof (advice_affirmative demoSnaps types reserves (15 * Minute) demoNow demoNow) as H. rewrite Hb in H.
  destruct H as (_ & _ & H & _). specialize (H ltac:(evaluate)). split; [done|]. split.
  - destruct (H "p4") as [[Hs _] _]. apply Hs, elem_of_dom. by exists (MkAdvice (Unix 1772928000) true).
  - intros Hs. destruct (H "p3") as [[_ Hd] _]. apply Hd, elem_of_dom in Hs as [adv Hadv]. vm_compute in Hadv. discriminate.
Defined.

